(* ===== verification/_CoqProject ===== *)
-Q . S2P
Prelude.v
Protocol.v
Transport.v
Chunks.v
Channel.v
Status.v
Messages.v
RpcServer.v
RpcServerRun.v
RpcServerSafety.v
RpcServerProps.v
RpcClient.v
RpcClientProps.v
ClientFrames.v
ServerWriter.v
EndToEnd.v
Payloads.v
StreamEnd.v
UnaryEnd.v
UploadEnd.v
Connection.v
ConnectionSend.v
ConnectionServer.v
ConnectionReturn.v
ConnectionProps.v
ConnectionTrace.v
ConnectionMethods.v
ConnectionProgress.v
SignalStore.v
SignalStoreProps.v
SignalStoreSpec.v
SignalStoreTrace.v
SignalWire.v
SignalServer.v
Session.v
SignalClient.v
SignalEnd.v
SignalLocal.v
SignalLocalProps.v
Base58.v
Target.v
Echo.v
Demos.v
Vectors.v
Base64.v
Auth.v
SignalNode.v
Crypto.v
Peer.v
PeerConn.v
PeerState.v
PeerLocal.v
Relay.v
Commands.v
Bridge.v
BridgeSpec.v
BridgeCommand.v
Facade.v
FacadeConn.v
EchoServer.v
Observability.v
