(* ===== verification/Prelude.v ===== *)
(** * PeerRPC: a verification development of the Go SDK

    The program is the Go SDK under src/peerrpc-go: gRPC-style calls between
    two peers over a WebRTC DataChannel, with what it takes to get the
    DataChannel (signaling, ICE, a relay) and to use it (a facade, tokens,
    encryption, a bridge to Connect servers, interceptors).

    ** The program and the files of the development

    A call goes down one side and up the other of the same stack:

    - rpc/client.go numbers streams, marshals [Frame]s, cuts large payloads
      into chunks and keeps the table of calls in flight ([RpcClient],
      [RpcClientProps]);
    - transport/channel.go puts a length before each message, holds it back
      while the DataChannel's buffer is full, queues what arrives and puts
      chunks together again ([Transport], [Chunks], [Channel]);
    - rpc/server.go and rpc/stream.go dispatch frames to handlers and write
      their answers ([RpcServer], its schedules in [RpcServerRun], the protocol
      it writes in [RpcServerSafety], single operations in [RpcServerProps]);
      there a call of [queue] is one step and what one operation queues one
      block of the output: [ServerWriter] takes the queue and its writer apart,
      [ClientFrames] shows which orders of frames a client cannot tell apart,
      and together they justify the blocks;
    - rpc/types.go, rpc/interceptor.go ([Status]) and the messages of
      proto/peerrpc ([Messages]) are what the two sides share;
    - [EndToEnd] takes a request through the channel to the server; with it
      [UnaryEnd] composes a unary call from [invokeUnary] through both channels
      and the server and back, [StreamEnd] does so for server-streaming calls and
      [UploadEnd] for client-streaming ones, under every interleaving
      ([Payloads] is what the frames of a stream complete);
    - [Connection] runs any number of calls of any kind at once, between one
      client and one server; its invariant is in [ConnectionSend],
      [ConnectionServer] and [ConnectionReturn], [ConnectionProps] draws the
      conclusions, [ConnectionTrace] shows that each call is a run of a
      handler, [ConnectionMethods] that it is the handler of the method that the
      client has called, and [ConnectionProgress] that the goroutines of
      the two ends come to rest, and where;
    - examples/echo-server-go, examples/echo-go and examples/facade-go are programs
      over all of this: their handlers and what the callers of the methods get
      ([Echo]), the accept loop of the first ([EchoServer]), and [main] of the
      two demos, which call the server that they run ([Demos]).

    protocol/codec.go ([Protocol]) is the framing for byte streams, which no other
    package imports: the channel has its own prefix.

    Signaling brings two peers together. signalserver/store ([SignalStore],
    [SignalStoreProps], [SignalStoreSpec], [SignalStoreTrace]) is the server's
    table of inboxes;
    signalserver/ws.go ([SignalServer]) serves one WebSocket over it and
    signal/ws.go ([SignalWire] for messages and frames, [SignalClient] for the
    session) is the other end; signal/local.go ([SignalLocal],
    [SignalLocalProps]) is the backend without a server ([Session] is what both
    backends share); [SignalEnd] composes the client, the server and the store,
    and [SignalNode] runs all connections of the server at once, from the
    authorization of their requests ([Auth]).
    peer/peer.go and peer/ice.go ([Peer], with [PeerConn] for the waits on pion's
    callbacks and [PeerState] for the ICE state) exchange an offer and an answer over such a session; [PeerLocal]
    runs them over the in-process backend.

    Around the stack: auth ([Base64], [Auth]), crypto/crypto.go ([Crypto]),
    relay/server.go ([Relay]), grpcbridge ([Bridge], [BridgeSpec]), the facade
    of package peerrpc ([Base58], [Target], [Facade], and [FacadeConn] for the life
    of a connection over the client and the channel) and observability
    ([Observability]). Each file's own header names its sources; definitions
    keep the names of the Go functions, types and fields.

    The programs under cmd: cmd/peerrpc's bridge command ([BridgeCommand]: what
    it mounts, acquires and releases, and what the callers of a bridged method
    get), its signal and relay commands with the certificates of the former
    ([Commands]), and cmd/gen-vectors ([Vectors]).

    ** How the code is read

    - A Go pointer that is shared is a number into a heap ([m_heap] of the
      server, [cl_heap] of the client, [svc_heap] and [peer_heap] of the store,
      [sessions] of the local backend), so that aliases stay aliases and an
      object outlives the table that named it.
    - Concurrency is a relation between states. One operation of one goroutine,
      or one section under one lock, is one step; code between two locks of
      the same call is two steps, and the lost updates that follow are proved.
      A [select] with several ready cases gives one outcome for each; a
      goroutine with no outcome is blocked. Theorems hold for every
      interleaving.
    - A handler, an interceptor's next, a dialer or an acceptor is a program
      over the operations it may call, or a function into a small error type.
      A panic is a value ([res]) and never an error.
    - Machine integers are [Z] with [int32], [uint32], [uint64], [int64]
      written where Go converts; a length is a [Z] ([len]); bytes are lists of
      [byte]; a map whose order can show is a list up to permutation, any other
      a [gmap].
    - Errors are values with the text and the chain of wrapping ([error],
      [wrapf], [errors_Is]), as far as the code tells them apart.
    - Fields called history or record (the frames on the wire, what a session
      has sent, taken and got) are not in the code: they are what the theorems
      speak about.

    ** Parameters

    Code outside the repository, and generated code, is an argument of the
    definitions that use it, with its documented behaviour as laws: [Codec] and
    [CodecLaws] (marshaling inverts unmarshaling), the DataChannel
    ([amount], [dsend] and [dclose] of [Channel]), PeerConnection's calls (the inputs of [Peer]'s
    programs), HMAC and JSON ([Auth]), AES-GCM, ECDH and HKDF ([Crypto]), the
    HTTP client and handler ([Bridge]), spans and the propagator
    ([Observability]), the WebSocket connection ([SignalServer],
    [SignalClient]), backends and resolvers ([Facade]). Every group of laws has
    an instance in the file that uses it, on which witnesses are evaluated.

    ** What is proved

    - Calls: on a connection, every stream is in order in both directions and
      neither end brings the other down, whatever calls run at once
      ([connection_in_order], [connection_never_crashes]); a call is answered by
      a run of the handler of its method and by nothing else
      ([answered_by_method]), so that what holds of all runs of a handler holds
      of all calls, as the echo server, the bridge and the demos show
      ([echo_sessions], [bridge_calls], [demo_runs]); with
      the application idle both ends come to rest, and no call is forgotten
      ([connection_settles]), and frames that the server's goroutines send at the
      same time may be mixed as the writer likes ([writer_shuffles]); a single call of each
      kind delivers the request and can complete with the answer under every
      interleaving, the outcomes being listed: a unary call returns the status
      with the reply, or with no data when the end overtakes the reply
      ([unary_call_end_to_end], [server_streaming_end_to_end],
      [client_streaming_end_to_end]); the output protocol of the server, the
      collection of responses, the numbering of streams, what ends a call and
      what can go wrong ([duplicate_call_ends_original],
      [end_may_overtake_response], [serve_loop_blocks_iff],
      [teardown_ends_streams]).
    - Transport: frames round trip and are accepted exactly when well formed;
      fragments reassemble in any order and interleaving; the life of a channel
      and its backpressure.
    - Signaling: called one operation at a time, the store returns what a list
      of sessions with their queues returns, whether they have left or not
      ([store_refines]), and it is safe under any interleaving; a message sent by a client
      reaches the clients of its service, and only who has been authorized
      is in the store or sends ([node_admits]); the sessions of both backends
      deliver in order and end; the races that lose a peer.
    - Peers: over the in-process backend a dialer and an acceptor finish, by
      refinement of an abstract service in which a message reaches every other
      peer at once; two dialers may take each other's answer, and a completed
      gathering may go unnoticed. Relay: transparent; a session that
      is over ends, but for a watcher for each channel still open
      ([relay_session_ends]).
    - Programs: what each command serves for its flags, what it releases and when it
      ends ([bridge_command], [signal_command], [commands_end]), and what the
      generator of vectors leaves behind ([vectors_written]).
    - Edges: tokens admit whom they should, base58 and targets round trip,
      encrypted frames open and where nonces repeat, the statuses of the bridge,
      a failed dial or accept leaves nothing open, when closing a connection
      returns and when it never does ([conn_close]), interceptors account for each call once.

    ** Fuel and bounds

    Loops that are not structural take fuel that is computed from the input,
    and a lemma says that more changes nothing or that the loop has ended:
    [chunk_loop] has the length of the payload ([chunk_loop_fuel]);
    [stream_loop] the length of the body and one ([loop_ends]); [be_bytes] the
    bits of the number ([be_bytes_spec]); the digit loops of [itoa] and of the
    base58 encoder the size of the buffer they fill. Runs of goroutines have no
    fuel: that they end is a theorem with a measure ([work] of [Relay] and of
    [SignalClient], the lexicographic measure of [local_pumps_deliver], the
    fifteen steps of [negotiation_completes] with it in [PeerLocal], strong
    normalization of the steps of both ends, by the handlers' programs and the
    frames still to be taken, in [ConnectionProgress], [writer_work] of
    [ServerWriter], [signal_work] of
    [Commands], [own_work] of [FacadeConn], [demo_work] of [Demos]).

    ** Not modelled, and why

    - The parsing of flags (cobra), the template of the X.509 certificate, the
      counters of /metrics.
    - The bytes of generated messages: the code relies on their laws only.
    - The WebSocket upgrade and dial and [net/url.Parse] of a base URL: third
      party or far larger than what the code does with them.
    - pion's own state machine (gathering, connectivity, the open event): its
      outcomes are inputs.
    - The registration of collectors with Prometheus and the slog handlers; log
      lines outside the logging interceptors.
    - Time: deadlines and timeouts are events that may happen.
    - Handlers and applications that run for ever between two calls of the SDK:
      a handler is a finite program at each input ([prog] of [RpcServer]).
    - The interleaving of two goroutines of one client inside one payload:
      [sendPayload] puts the frames of a payload on the wire together. (For the
      server [ServerWriter] and [ClientFrames] show that the interleaving of its
      goroutines' frames makes no difference to a client.)
    - The bridge reads an upstream's response to its end before it is sent on.
    - White space other than ASCII in [strings.TrimSpace], and the quoted values
      in the texts of some errors.
    - The Rust and TypeScript SDKs and the examples in them.
    - [Peer]'s negotiation over the WebSocket backend as one system: its parts are
      [PeerLocal]'s programs and [SignalEnd]'s transport, which promise the same.
    - Accessors that return a field.

    This file: bytes and machine integers as the Go code uses them, Go errors
    with wrapping, the outcomes of a Go call, buffered Go channels, and the
    list lemmas the components share. *)

From Stdlib Require Import Strings.Byte ZArith Lia.
From stdpp Require Import base gmap strings list fin_maps numbers.

Open Scope Z_scope.

Create HintDb peerrpc.
Create Rewrite HintDb len.

(** ** Bytes *)

#[export] Instance byte_eq_dec : EqDecision byte := Byte.byte_eq_dec.

#[export] Program Instance byte_countable : Countable byte :=
  inj_countable Byte.to_N Byte.of_N _.
Next Obligation. intros x. apply Byte.of_to_N. Qed.

Abbreviation bytes := (list byte).

(** [byte(x)]: the Go conversion keeps the low eight bits. *)
Definition byte_of_Z (z : Z) : byte :=
  default x00 (Byte.of_N (Z.to_N (z `mod` 256))).

Definition Z_of_byte (b : byte) : Z := Z.of_N (Byte.to_N b).

Lemma Z_of_byte_range b : 0 ≤ Z_of_byte b < 256.
Proof. unfold Z_of_byte. pose proof (Byte.to_N_bounded b). lia. Qed.

Lemma Z_of_byte_of_Z z : Z_of_byte (byte_of_Z z) = z `mod` 256.
Proof.
  unfold Z_of_byte, byte_of_Z.
  pose proof (Z.mod_pos_bound z 256 ltac:(lia)) as Hb.
  destruct (Byte.of_N (Z.to_N (z `mod` 256))) as [b|] eqn:E; simpl.
  - apply Byte.to_of_N in E. rewrite E. lia.
  - apply Byte.of_N_None_iff in E. lia.
Qed.

Lemma byte_of_Z_of_byte b : byte_of_Z (Z_of_byte b) = b.
Proof.
  unfold byte_of_Z. pose proof (Z_of_byte_range b).
  rewrite Z.mod_small by lia. unfold Z_of_byte.
  rewrite N2Z.id, Byte.of_to_N. done.
Qed.

Lemma Z_of_byte_inj b1 b2 : Z_of_byte b1 = Z_of_byte b2 → b1 = b2.
Proof.
  intros H. rewrite <- (byte_of_Z_of_byte b1), <- (byte_of_Z_of_byte b2).
  by rewrite H.
Qed.

(** ** Machine integers *)

Definition two32 : Z := 4294967296.
Definition two31 : Z := 2147483648.
Definition two64 : Z := 18446744073709551616.

(** [int32(x)], [uint32(x)] and [uint64(x)]: conversions wrap. *)
Definition int32 (z : Z) : Z := (z + two31) `mod` two32 - two31.
Definition uint32 (z : Z) : Z := z `mod` two32.
Definition uint64 (z : Z) : Z := z `mod` two64.
Definition int64 (z : Z) : Z := (z + 9223372036854775808) `mod` two64 - 9223372036854775808.

(** The first comparison in the goal is false. *)
Ltac ltb_false :=
  match goal with |- context [?a <? ?b] => destruct (Z.ltb_spec a b); [exfalso; lia|] end.

Ltac zconsts := unfold two31, two32, two64 in *.

Lemma int32_id z : -two31 ≤ z < two31 → int32 z = z.
Proof. intros. unfold int32. rewrite Z.mod_small; zconsts; lia. Qed.

Lemma int64_id z : -9223372036854775808 ≤ z < 9223372036854775808 → int64 z = z.
Proof. intros. unfold int64. rewrite Z.mod_small; zconsts; lia. Qed.

Lemma int32_range z : -two31 ≤ int32 z < two31.
Proof.
  unfold int32. pose proof (Z.mod_pos_bound (z + two31) two32).
  zconsts; lia.
Qed.

Lemma uint32_id z : 0 ≤ z < two32 → uint32 z = z.
Proof. intros. unfold uint32. by rewrite Z.mod_small. Qed.

Lemma uint32_range z : 0 ≤ uint32 z < two32.
Proof. unfold uint32. apply Z.mod_pos_bound. done. Qed.

(** [len(s)] of a Go slice, as a Go int. *)
Definition len {A} (l : list A) : Z := Z.of_nat (length l).

Lemma len_nonneg {A} (l : list A) : 0 ≤ len l.
Proof. unfold len. lia. Qed.

Lemma len_app {A} (l k : list A) : len (l ++ k) = len l + len k.
Proof. unfold len. rewrite length_app. lia. Qed.

Lemma len_nil {A} : len (@nil A) = 0.
Proof. done. Qed.

Lemma len_cons {A} (x : A) l : len (x :: l) = len l + 1.
Proof. unfold len. rewrite length_cons. lia. Qed.

Lemma len_snoc {A} (l : list A) x : len (l ++ [x]) = len l + 1.
Proof. by rewrite len_app. Qed.

Lemma len_0 {A} (l : list A) : len l = 0 → l = [].
Proof. unfold len. intros. apply length_zero_iff_nil. lia. Qed.

#[export] Hint Rewrite @len_app @len_nil : len.

(** ** Big-endian 32-bit integers (encoding/binary, big endian) *)

Definition be32 (n : Z) : bytes :=
  [byte_of_Z (Z.shiftr n 24); byte_of_Z (Z.shiftr n 16);
   byte_of_Z (Z.shiftr n 8); byte_of_Z n].

Definition of_be32 (b0 b1 b2 b3 : byte) : Z :=
  Z.lor (Z.lor (Z.lor (Z.shiftl (Z_of_byte b0) 24) (Z.shiftl (Z_of_byte b1) 16))
           (Z.shiftl (Z_of_byte b2) 8)) (Z_of_byte b3).

Lemma lor_add_shift a b n :
  0 ≤ n → 0 ≤ b < 2 ^ n → Z.lor (Z.shiftl a n) b = a * 2 ^ n + b.
Proof.
  intros Hn Hb. rewrite <- Z.shiftl_mul_pow2 by done.
  symmetry. rewrite Z.add_nocarry_lxor.
  - rewrite Z.lxor_lor; [done|].
    apply Z.bits_inj'. intros m Hm. rewrite Z.land_spec, Z.bits_0.
    destruct (decide (m < n)).
    + rewrite Z.shiftl_spec_low by lia. done.
    + assert (Z.testbit b m = false) as ->; [|apply andb_false_r].
      destruct (decide (b = 0)) as [->|]; [apply Z.bits_0|].
      apply Z.bits_above_log2; [lia|].
      apply Z.log2_lt_pow2; [lia|].
      eapply Z.lt_le_trans; [apply Hb|]. apply Z.pow_le_mono_r; lia.
  - apply Z.bits_inj'. intros m Hm. rewrite Z.land_spec, Z.bits_0.
    destruct (decide (m < n)).
    + rewrite Z.shiftl_spec_low by lia. done.
    + assert (Z.testbit b m = false) as ->; [|apply andb_false_r].
      destruct (decide (b = 0)) as [->|]; [apply Z.bits_0|].
      apply Z.bits_above_log2; [lia|].
      apply Z.log2_lt_pow2; [lia|].
      eapply Z.lt_le_trans; [apply Hb|]. apply Z.pow_le_mono_r; lia.
Qed.

(** The value of four bytes, in positional notation. *)
Lemma of_be32_value b0 b1 b2 b3 :
  of_be32 b0 b1 b2 b3 =
  Z_of_byte b0 * 2 ^ 24 + Z_of_byte b1 * 2 ^ 16 + Z_of_byte b2 * 2 ^ 8 + Z_of_byte b3.
Proof.
  unfold of_be32.
  pose proof (Z_of_byte_range b0). pose proof (Z_of_byte_range b1).
  pose proof (Z_of_byte_range b2). pose proof (Z_of_byte_range b3).
  assert (Hs : ∀ x y z n m, 0 ≤ m ≤ n →
    Z.lor (Z.lor (Z.shiftl x n) (Z.shiftl y m)) z =
    Z.lor (Z.shiftl (Z.lor (Z.shiftl x (n - m)) y) m) z).
  { intros. rewrite Z.shiftl_lor, Z.shiftl_shiftl by lia. do 3 f_equal. lia. }
  rewrite Hs by lia.
  replace (Z.lor (Z.shiftl (Z.lor (Z.shiftl (Z_of_byte b0) (24 - 16)) (Z_of_byte b1)) 16)
    (Z.shiftl (Z_of_byte b2) 8))
    with (Z.shiftl (Z.lor (Z.shiftl (Z.lor (Z.shiftl (Z_of_byte b0) 8) (Z_of_byte b1)) 8)
            (Z_of_byte b2)) 8)
    by (rewrite Z.shiftl_lor, Z.shiftl_shiftl by lia; done).
  rewrite !lor_add_shift by (change (2 ^ 8) with 256; lia).
  change (2 ^ 24) with 16777216. change (2 ^ 16) with 65536. change (2 ^ 8) with 256.
  lia.
Qed.

Lemma of_be32_range b0 b1 b2 b3 : 0 ≤ of_be32 b0 b1 b2 b3 < two32.
Proof.
  rewrite of_be32_value.
  pose proof (Z_of_byte_range b0). pose proof (Z_of_byte_range b1).
  pose proof (Z_of_byte_range b2). pose proof (Z_of_byte_range b3).
  change (2 ^ 24) with 16777216. change (2 ^ 16) with 65536. change (2 ^ 8) with 256.
  zconsts. lia.
Qed.

Lemma of_be32_be32 n :
  of_be32 (byte_of_Z (Z.shiftr n 24)) (byte_of_Z (Z.shiftr n 16))
          (byte_of_Z (Z.shiftr n 8)) (byte_of_Z n) = uint32 n.
Proof.
  rewrite of_be32_value, !Z_of_byte_of_Z, !Z.shiftr_div_pow2 by lia.
  unfold uint32. zconsts.
  change (2 ^ 24) with 16777216. change (2 ^ 16) with 65536. change (2 ^ 8) with 256.
  Z.to_euclidean_division_equations. lia.
Qed.

Lemma length_be32 n : length (be32 n) = 4%nat.
Proof. done. Qed.

Lemma len_be32 n : len (be32 n) = 4.
Proof. done. Qed.
#[export] Hint Rewrite len_be32 : len.

Arguments be32 : simpl never.
Arguments of_be32 : simpl never.
Arguments byte_of_Z : simpl never.
Arguments Z_of_byte : simpl never.
Arguments int32 : simpl never.
Arguments int64 : simpl never.
Arguments uint32 : simpl never.
Arguments uint64 : simpl never.
Arguments len : simpl never.

(** ** Go errors

    Sentinels are compared with [==]; [fmt.Errorf] with [%w] wraps an error so
    that [errors.Is] sees through it while [==] does not. *)

Inductive error : Type :=
  | EOF
  | ErrUnexpectedEOF
  | ErrClosedPipe
  | Canceled
  | DeadlineExceeded
  | ErrorString (msg : string)
  | Errorf_w (pre : string) (inner : error) (post : string).

(** [fmt.Errorf("pre%w", err)], the usual form. *)
Abbreviation wrapf pre inner := (Errorf_w pre inner "").

#[export] Instance error_eq_dec : EqDecision error.
Proof. solve_decision. Defined.

(** [errors.Is]: walk the chain of wrapped errors. *)
Fixpoint errors_Is (err target : error) : bool :=
  bool_decide (err = target) ||
  match err with
  | Errorf_w _ inner _ => errors_Is inner target
  | _ => false
  end.

(** [err.Error()]. *)
Fixpoint error_string (err : error) : string :=
  match err with
  | EOF => "EOF"
  | ErrUnexpectedEOF => "unexpected EOF"
  | ErrClosedPipe => "io: read/write on closed pipe"
  | Canceled => "context canceled"
  | DeadlineExceeded => "context deadline exceeded"
  | ErrorString msg => msg
  | Errorf_w pre inner post => pre +:+ error_string inner +:+ post
  end.

Lemma errors_Is_refl e : errors_Is e e = true.
Proof. destruct e; cbn; rewrite bool_decide_eq_true_2 by done; done. Qed.

Lemma errors_Is_wrap pre e post target :
  errors_Is e target = true → errors_Is (Errorf_w pre e post) target = true.
Proof. intros H. cbn. rewrite H. apply orb_true_r. Qed.
#[export] Hint Resolve errors_Is_refl errors_Is_wrap : peerrpc.

(** [%q] of a string of printable characters other than quotes and backslashes. *)
Definition quote (s : string) : string :=
  let q := String (Ascii.ascii_of_nat 34) "" in q +:+ s +:+ q.

(** The result of a Go call: a value, an [error] value, or a panic. *)
Inductive res (A : Type) : Type :=
  | Ok (a : A)
  | Fail (e : error)
  | Panic (msg : string).
Arguments Ok {A} _.
Arguments Fail {A} _.
Arguments Panic {A} _.

#[export] Instance res_eq_dec {A} `{EqDecision A} : EqDecision (res A).
Proof. solve_decision. Defined.

(** ** List lemmas *)

Lemma take_app_len {A} (l k : list A) : take (length l) (l ++ k) = l.
Proof. apply take_app_length. Qed.

Lemma drop_app_len {A} (l k : list A) : drop (length l) (l ++ k) = k.
Proof. apply drop_app_length. Qed.

Lemma foldl_reverse_foldr {A B} (f : B → A → B) (b : B) (l : list A) :
  foldl f b (reverse l) = foldr (λ a b, f b a) b l.
Proof. induction l as [|a l IH]; [done|]. by rewrite reverse_cons, foldl_app, IH. Qed.
