(* ===== verification/Protocol.v ===== *)
(** * The wire codec (protocol/codec.go)

    [WriteFrame] and [ReadFrame] over an [io.Writer] and an [io.Reader].  The
    writer carries the outcome its next [Write] calls will have; the reader
    carries the bytes still to come and the error the stream ends with. *)

From Stdlib Require Import Strings.Byte ZArith Lia.
From stdpp Require Import base gmap strings list numbers pretty.
From S2P Require Import Prelude.
Open Scope Z_scope.

(** ** The standard library interfaces the codec uses *)

(** An [io.Writer]: what it received, and the faults of its next calls
    ([Some (n, e)]: the call accepts [n] bytes and returns [e]). *)
Record writer := { w_written : bytes; w_faults : list (option (nat * error)) }.

Definition io_Write (w : writer) (p : bytes) : res unit * writer :=
  match w_faults w with
  | Some (n, e) :: fs => (Fail e, {| w_written := w_written w ++ take n p; w_faults := fs |})
  | None :: fs => (Ok tt, {| w_written := w_written w ++ p; w_faults := fs |})
  | [] => (Ok tt, {| w_written := w_written w ++ p; w_faults := [] |})
  end.

(** An [io.Reader]: the bytes it will still yield, and the error after them. *)
Record reader := { r_data : bytes; r_end : error }.

(** [io.ReadFull(r, buf)] with [n = len(buf)]. *)
Definition io_ReadFull (r : reader) (n : nat) : res bytes * reader :=
  if decide (n ≤ length (r_data r))%nat then
    (Ok (take n (r_data r)), {| r_data := drop n (r_data r); r_end := r_end r |})
  else
    let rest := {| r_data := []; r_end := r_end r |} in
    match r_data r with
    | [] => (Fail (r_end r), rest)
    | _ :: _ => (Fail (if decide (r_end r = EOF) then ErrUnexpectedEOF else r_end r), rest)
    end.

(** ** codec.go *)

Definition MaxFrameSize : Z := 256 * 1024.

Definition ErrOversizedFrame : error :=
  ErrorString "peerrpc/protocol: frame exceeds MaxFrameSize".

Definition WriteFrame (w : writer) (payload : bytes) : res unit * writer :=
  let header := be32 (uint32 (len payload)) in
  match io_Write w header with
  | (Fail err, w1) => (Fail (wrapf "peerrpc/protocol: write length: " err), w1)
  | (Panic s, w1) => (Panic s, w1)
  | (Ok _, w1) =>
      match io_Write w1 payload with
      | (Fail err, w2) => (Fail (wrapf "peerrpc/protocol: write payload: " err), w2)
      | (Panic s, w2) => (Panic s, w2)
      | (Ok _, w2) => (Ok tt, w2)
      end
  end.

(** [binary.BigEndian.Uint32(header[:])] on the four bytes read. *)
Definition header_size (header : bytes) : Z :=
  match header with
  | b0 :: b1 :: b2 :: b3 :: _ => of_be32 b0 b1 b2 b3
  | _ => 0
  end.

Definition ReadFrame (r : reader) : res bytes * reader :=
  match io_ReadFull r 4 with
  | (Fail err, r1) =>
      if errors_Is err ErrUnexpectedEOF then (Fail ErrUnexpectedEOF, r1)
      else if errors_Is err EOF then (Fail EOF, r1)
      else (Fail (wrapf "peerrpc/protocol: read length: " err), r1)
  | (Panic s, r1) => (Panic s, r1)
  | (Ok header, r1) =>
      let size := header_size header in
      if decide (size = 0) then (Ok [], r1)
      else if decide (MaxFrameSize < size) then
        (Fail (Errorf_w "" ErrOversizedFrame (": " +:+ pretty (Z.to_N size) +:+ " bytes")), r1)
      else
        match io_ReadFull r1 (Z.to_nat size) with
        | (Fail err, r2) => (Fail (wrapf "peerrpc/protocol: read payload: " err), r2)
        | (Panic s, r2) => (Panic s, r2)
        | (Ok buf, r2) => (Ok buf, r2)
        end
  end.

Arguments ReadFrame : simpl never.
Arguments WriteFrame : simpl never.
Arguments MaxFrameSize : simpl never.

(** ** Lemmas *)

Definition healthy (w : writer) : Prop := w_faults w = [].

Lemma io_Write_healthy w p :
  healthy w → io_Write w p = (Ok tt, {| w_written := w_written w ++ p; w_faults := [] |}).
Proof. unfold io_Write, healthy. intros ->. done. Qed.

Lemma WriteFrame_healthy w p :
  healthy w →
  WriteFrame w p =
    (Ok tt, {| w_written := w_written w ++ be32 (uint32 (len p)) ++ p; w_faults := [] |}).
Proof.
  intros Hw. unfold WriteFrame. rewrite io_Write_healthy by done.
  rewrite io_Write_healthy by done. simpl. by rewrite <- app_assoc.
Qed.

Lemma io_ReadFull_app p rest e :
  io_ReadFull {| r_data := p ++ rest; r_end := e |} (length p) =
    (Ok p, {| r_data := rest; r_end := e |}).
Proof.
  unfold io_ReadFull; simpl. rewrite decide_True by (rewrite length_app; lia).
  by rewrite take_app_len, drop_app_len.
Qed.

Lemma io_ReadFull_Ok r n p r' :
  io_ReadFull r n = (Ok p, r') →
  length p = n ∧ r_data r = p ++ r_data r' ∧ r_end r' = r_end r.
Proof.
  unfold io_ReadFull. case_decide.
  - intros [= <- <-]; simpl. rewrite length_take, take_drop. split; [lia|done].
  - destruct (r_data r); [discriminate|]. intros [=].
Qed.

Lemma header_size_be32 n : header_size (be32 n) = uint32 n.
Proof. apply of_be32_be32. Qed.

Lemma header_size_inv h : length h = 4%nat → h = be32 (header_size h).
Proof.
  destruct h as [|b0 [|b1 [|b2 [|b3 [|]]]]]; try discriminate. intros _. simpl.
  unfold be32. rewrite !Z.shiftr_div_pow2, of_be32_value by lia.
  pose proof (Z_of_byte_range b0). pose proof (Z_of_byte_range b1).
  pose proof (Z_of_byte_range b2). pose proof (Z_of_byte_range b3).
  change (2 ^ 24) with 16777216. change (2 ^ 16) with 65536. change (2 ^ 8) with 256.
  repeat f_equal; apply Z_of_byte_inj; rewrite Z_of_byte_of_Z;
    Z.to_euclidean_division_equations; lia.
Qed.

Lemma MaxFrameSize_lt : MaxFrameSize < two32.
Proof. done. Qed.

(** Reading the frame a writer laid down. *)
Lemma ReadFrame_frame p rest e :
  len p ≤ MaxFrameSize →
  ReadFrame {| r_data := be32 (len p) ++ p ++ rest; r_end := e |} =
    (Ok p, {| r_data := rest; r_end := e |}).
Proof.
  intros Hp. pose proof (len_nonneg p). pose proof MaxFrameSize_lt.
  unfold ReadFrame. change 4%nat with (length (be32 (len p))).
  rewrite io_ReadFull_app, header_size_be32, uint32_id by lia.
  case_decide as Hz; [apply len_0 in Hz as ->; done|].
  rewrite decide_False by lia. unfold len at 1.
  by rewrite Nat2Z.id, io_ReadFull_app.
Qed.

(** A frame cut after [k] bytes. *)
Definition cut_frame (p : bytes) (k : nat) : reader :=
  {| r_data := take k (be32 (len p) ++ p); r_end := EOF |}.

(** The frames a writer lays down one after the other, and the read loop the
    documentation of [ReadFrame] describes: read until an error. *)
Definition write_frames (w : writer) (ps : list bytes) : writer :=
  foldl (λ w p, snd (WriteFrame w p)) w ps.

Fixpoint read_frames (fuel : nat) (r : reader) : list bytes * option error :=
  match fuel with
  | O => ([], None)
  | S fuel =>
      match ReadFrame r with
      | (Ok p, r') => let '(ps, e) := read_frames fuel r' in (p :: ps, e)
      | (Fail e, _) => ([], Some e)
      | (Panic _, _) => ([], None)
      end
  end.

Lemma write_frames_written w ps :
  healthy w →
  w_written (write_frames w ps) =
    w_written w ++ concat (map (λ p, be32 (uint32 (len p)) ++ p) ps).
Proof.
  revert w. induction ps as [|p ps IH]; intros w Hw; simpl; [by rewrite app_nil_r|].
  unfold write_frames in *. simpl. rewrite IH.
  - rewrite WriteFrame_healthy by done. simpl. by rewrite <- !app_assoc.
  - by rewrite WriteFrame_healthy.
Qed.

Lemma read_frames_concat ps rest e :
  Forall (λ p, len p ≤ MaxFrameSize) ps →
  ∀ fuel, read_frames (length ps + fuel)
    {| r_data := concat (map (λ p, be32 (uint32 (len p)) ++ p) ps) ++ rest; r_end := e |} =
  let '(qs, err) := read_frames fuel {| r_data := rest; r_end := e |} in (ps ++ qs, err).
Proof.
  induction 1 as [|p ps Hp _ IH]; intros fuel; cbn [length Nat.add map concat app].
  { by destruct (read_frames fuel _). }
  cbn [read_frames].
  pose proof (len_nonneg p). pose proof MaxFrameSize_lt.
  rewrite uint32_id by lia. rewrite <- !app_assoc, ReadFrame_frame by done.
  rewrite IH. by destruct (read_frames fuel _).
Qed.

(** ** Properties *)

(** [ReadFrame] accepts exactly the frames of at most [MaxFrameSize]
    bytes: it returns payload [p] and leaves the reader at [r'] iff the bytes
    ahead are the four-byte big-endian length of [p], then [p], then what [r']
    still holds. *)
Theorem ReadFrame_Ok_iff r p r' :
  ReadFrame r = (Ok p, r') ↔
  len p ≤ MaxFrameSize ∧ r_data r = be32 (len p) ++ p ++ r_data r' ∧ r_end r' = r_end r.
Proof.
  split.
  - unfold ReadFrame. destruct (io_ReadFull r 4) as [[h|e|s] r1] eqn:E1; try discriminate.
    2:{ repeat case_match; discriminate. }
    apply io_ReadFull_Ok in E1 as (Hh & Hd & He).
    apply header_size_inv in Hh.
    case_decide as Hz.
    { intros [= <- <-]. rewrite Hz in Hh. rewrite Hd, Hh. done. }
    case_decide as Hm; [discriminate|].
    destruct (io_ReadFull r1 _) as [[q|e|s] r2] eqn:E2; try discriminate.
    intros [= <- <-]. apply io_ReadFull_Ok in E2 as (Hq & Hd2 & He2).
    assert (len q = header_size h) as Hl.
    { unfold len. rewrite Hq, Z2Nat.id; [done|].
      destruct h as [|b0 [|b1 [|b2 [|b3 h]]]]; simpl; try lia. apply of_be32_range. }
    rewrite Hl, <- Hh, Hd, Hd2. repeat split; [lia|congruence].
  - intros (Hp & Hd & He). destruct r as [d e], r' as [d' e']; simpl in *; subst.
    by apply ReadFrame_frame.
Qed.

(** [C25] Round trip of a whole stream: any sequence of payloads of at most
    [MaxFrameSize] bytes, written with [WriteFrame] and read back with
    [ReadFrame] until an error, comes back unchanged and in order, and the
    loop ends with [io.EOF]. *)
Theorem frames_roundtrip ps :
  Forall (λ p, len p ≤ MaxFrameSize) ps →
  read_frames (length ps + 1)
    {| r_data := w_written (write_frames {| w_written := []; w_faults := [] |} ps);
       r_end := EOF |} = (ps, Some EOF).
Proof.
  intros Hps. rewrite write_frames_written by done. simpl.
  rewrite <- (app_nil_r (concat _)), read_frames_concat by done.
  simpl. by rewrite app_nil_r.
Qed.

Theorem frames_roundtrip_witness :
  read_frames (length [[x01; x02]; []; [xff]] + 1)
    {| r_data := w_written (write_frames {| w_written := []; w_faults := [] |}
                              [[x01; x02]; []; [xff]]);
       r_end := EOF |} = ([[x01; x02]; []; [xff]], Some EOF).
Proof. apply frames_roundtrip. repeat constructor; discriminate. Defined.

(** A truncated frame is never returned as a payload, and the error tells
    where it was cut: [io.EOF] before any byte, [io.ErrUnexpectedEOF] inside
    the length prefix, a wrapped error inside the payload.  Cut exactly after
    the prefix, the wrapped error is [io.EOF] itself, so [errors.Is(err,
    io.EOF)] also holds for a stream that ends in the middle of a frame. *)
Theorem ReadFrame_truncated p k :
  len p ≤ MaxFrameSize → (k < 4 + length p)%nat →
  fst (ReadFrame (cut_frame p k)) =
  Fail (if decide (k = 0%nat) then EOF
        else if decide (k < 4)%nat then ErrUnexpectedEOF
        else wrapf "peerrpc/protocol: read payload: "
               (if decide (k = 4%nat) then EOF else ErrUnexpectedEOF)).
Proof.
  intros Hp Hk. pose proof (len_nonneg p). pose proof MaxFrameSize_lt.
  destruct (decide (k < 4)%nat) as [Hk4|Hk4].
  { destruct k as [|[|[|[|]]]]; try lia; done. }
  rewrite decide_False by lia.
  unfold cut_frame. rewrite take_app_ge, length_be32 by (rewrite length_be32; lia).
  unfold ReadFrame. rewrite <- (length_be32 (len p)) at 1.
  rewrite io_ReadFull_app, header_size_be32, uint32_id by lia.
  rewrite decide_False by (unfold len; lia).
  rewrite decide_False by lia.
  unfold io_ReadFull; simpl. rewrite length_take.
  rewrite decide_False by (unfold len; lia).
  destruct (decide (k = 4)%nat) as [->|]; [done|].
  destruct (take (k - 4) p) eqn:Et.
  - apply (f_equal length) in Et. rewrite length_take in Et. simpl in Et. lia.
  - done.
Qed.

Theorem ReadFrame_truncated_witness :
  fst (ReadFrame (cut_frame [x01; x02] 4)) =
  Fail (wrapf "peerrpc/protocol: read payload: " EOF).
Proof. apply (ReadFrame_truncated [x01; x02] 4); [discriminate|simpl; lia]. Defined.
