(* ===== verification/Transport.v ===== *)
(** * The transport channel (transport/channel.go)

    The length prefix on DataChannel messages, the chunk reassembler, and the
    [Channel] with its receive queue, backpressure and shutdown.  The pion
    DataChannel is a parameter of the channel's operations. *)

From Stdlib Require Import Strings.Byte ZArith Lia.
From stdpp Require Import base gmap strings list numbers.
From S2P Require Import Prelude.
Open Scope Z_scope.

Definition maxFrameBytes : Z := 256 * 1024.
Definition frameOverhead : Z := 1 * 1024.
Definition InlineMax : Z := 16 * 1024.
Definition MessageMax : Z := maxFrameBytes - frameOverhead.
Definition ChunkSize : Z := maxFrameBytes - frameOverhead.
Definition BufferedAmountHigh : Z := Z.shiftl 1 20.

(** ** The length prefix *)

Module Framing.

Definition lengthPrefix (payload : bytes) : bytes :=
  byte_of_Z (Z.shiftr (len payload) 24) ::
  byte_of_Z (Z.shiftr (len payload) 16) ::
  byte_of_Z (Z.shiftr (len payload) 8) ::
  byte_of_Z (len payload) :: payload.

Definition stripLengthPrefix (b : bytes) : bytes :=
  match b with
  | b0 :: b1 :: b2 :: b3 :: body =>
      let length :=
        Z.lor (Z.lor (Z.lor (Z.shiftl (Z_of_byte b0) 24) (Z.shiftl (Z_of_byte b1) 16))
                 (Z.shiftl (Z_of_byte b2) 8)) (Z_of_byte b3) in
      if (length <=? 0) || (len b <? 4 + length) then b
      else take (Z.to_nat length) body
  | _ => b
  end.

Arguments lengthPrefix : simpl never.

Lemma lengthPrefix_be32 p : lengthPrefix p = be32 (len p) ++ p.
Proof. done. Qed.

(** Stripping, in terms of the four-byte big-endian value. *)
Lemma stripLengthPrefix_cons b0 b1 b2 b3 body :
  stripLengthPrefix (b0 :: b1 :: b2 :: b3 :: body) =
  let n := of_be32 b0 b1 b2 b3 in
  if (n <=? 0) || (len body <? n) then b0 :: b1 :: b2 :: b3 :: body
  else take (Z.to_nat n) body.
Proof.
  unfold stripLengthPrefix. fold (of_be32 b0 b1 b2 b3).
  replace (len (b0 :: b1 :: b2 :: b3 :: body)) with (4 + len body)
    by (unfold len; simpl; lia).
  cbv zeta. destruct (of_be32 b0 b1 b2 b3 <=? 0); [done|]. simpl.
  destruct (Z.ltb_spec (4 + len body) (4 + of_be32 b0 b1 b2 b3)),
    (Z.ltb_spec (len body) (of_be32 b0 b1 b2 b3)); done || lia.
Qed.

(** A message whose first byte, read as the high byte of a length, announces
    more than the message holds, is passed through unchanged. *)
Lemma strip_raw b0 rest :
  0 < Z_of_byte b0 → len (b0 :: rest) < 2 ^ 24 + 4 →
  stripLengthPrefix (b0 :: rest) = b0 :: rest.
Proof.
  intros Hb Hl. destruct rest as [|b1 [|b2 [|b3 rest]]]; try done.
  rewrite stripLengthPrefix_cons. cbv zeta. rewrite of_be32_value.
  pose proof (Z_of_byte_range b1). pose proof (Z_of_byte_range b2).
  pose proof (Z_of_byte_range b3). unfold len in *. simpl length in Hl.
  replace (_ || _) with true; [done|]. symmetry. apply orb_true_iff. right.
  apply Z.ltb_lt. lia.
Qed.

Lemma strip_lengthPrefix p :
  0 < len p < two32 → stripLengthPrefix (lengthPrefix p) = p.
Proof.
  intros Hp. unfold lengthPrefix. rewrite stripLengthPrefix_cons, of_be32_be32.
  rewrite uint32_id by lia. cbv zeta.
  destruct (Z.leb_spec (len p) 0); [lia|].
  rewrite (Z.ltb_irrefl (len p)). simpl. unfold len. rewrite Nat2Z.id.
  by rewrite firstn_all.
Qed.

End Framing.

(** ** Chunk reassembly

    [lastSeen] is written by the code and read nowhere; it is left out. *)

Module Reassembler.

Record assembler := { a_buf : bytes; a_got : Z; a_total : Z }.

Abbreviation state := (gmap Z assembler).

Definition NewReassembler : state := ∅.

(** [copy(buf[offset:end], data)] with [end = offset + len(data)] in range. *)
Definition splice (buf : bytes) (offset : nat) (data : bytes) : bytes :=
  take offset buf ++ data ++ drop (offset + length data) buf.

(** The assembler a chunk is folded into: the one of the sequence when the
    announced total agrees, a fresh one otherwise ([make] panics on a negative
    length). *)
Definition current (r : state) (seq total : Z) : res assembler :=
  let fresh :=
    if total <? 0 then Panic "runtime error: makeslice: len out of range"
    else Ok {| a_buf := replicate (Z.to_nat total) x00; a_got := 0; a_total := total |} in
  match r !! seq with
  | Some a => if total =? a_total a then Ok a else fresh
  | None => fresh
  end.

Definition Reassemble (r : state) (seq total offset : Z) (data : bytes)
    : res (option bytes) * state :=
  match current r seq total with
  | Panic s => (Panic s, r)
  | Fail e => (Fail e, r)
  | Ok a =>
      let r := <[seq := a]> r in
      let end_ := offset + len data in
      if len (a_buf a) <? end_ then (Ok None, r)
      else if offset <? 0 then (Panic "runtime error: slice bounds out of range", r)
      else
        let a := {| a_buf := splice (a_buf a) (Z.to_nat offset) data;
                    a_got := a_got a + len data; a_total := a_total a |} in
        if a_total a <=? a_got a then (Ok (Some (a_buf a)), delete seq r)
        else (Ok None, <[seq := a]> r)
  end.

End Reassembler.
