(* ===== verification/Chunks.v ===== *)
(** * Fragmentation and reassembly of large messages

    The loop of [Client.sendPayload] and [ServerStream.Send] that cuts a payload
    into [Data.chunk] frames, against [Reassembler.Reassemble]. *)

From Stdlib Require Import Strings.Byte ZArith Lia Permutation.
From stdpp Require Import base gmap strings list numbers sorting.
From S2P Require Import Prelude Transport.
Import Reassembler.
Open Scope Z_scope.

(** A Go slice expression [b[lo:hi]] with [0 <= lo <= hi <= len(b)]. *)
Definition slice (b : bytes) (lo hi : Z) : bytes :=
  take (Z.to_nat (hi - lo)) (drop (Z.to_nat lo) b).

(** One chunk: its offset and its bytes. *)
Abbreviation chunk := (Z * bytes)%type.

(** The body of the loop at one offset. *)
Definition chunk_at (size : Z) (b : bytes) (offset : Z) : chunk :=
  let end_ := offset + size in
  let end_ := if len b <? end_ then len b else end_ in
  (offset, slice b offset end_).

(** [for offset := 0; offset < len(b); offset += size], with fuel. *)
Fixpoint chunk_loop (fuel : nat) (size : Z) (b : bytes) (offset : Z) : list chunk :=
  match fuel with
  | O => []
  | S fuel =>
      if offset <? len b
      then chunk_at size b offset :: chunk_loop fuel size b (offset + size)
      else []
  end.

(** The loop makes at most [len(b)] iterations. *)
Definition fragment (size : Z) (b : bytes) : list chunk := chunk_loop (length b) size b 0.

(** ** Lemmas on the loop *)

Lemma length_slice b lo hi :
  0 ≤ lo ≤ hi → hi ≤ len b → len (slice b lo hi) = hi - lo.
Proof. intros. unfold slice, len in *. rewrite length_take, length_drop. lia. Qed.

Lemma slice_app b lo mid hi :
  0 ≤ lo ≤ mid → mid ≤ hi → slice b lo mid ++ slice b mid hi = slice b lo hi.
Proof.
  intros. unfold slice.
  replace (Z.to_nat mid) with (Z.to_nat lo + Z.to_nat (mid - lo))%nat by lia.
  rewrite <- drop_drop.
  replace (Z.to_nat (hi - lo)) with (Z.to_nat (mid - lo) + Z.to_nat (hi - mid))%nat by lia.
  rewrite <- take_take_drop. done.
Qed.

Lemma lookup_slice b lo hi i :
  0 ≤ lo → (i < Z.to_nat (hi - lo))%nat → slice b lo hi !! i = b !! (Z.to_nat lo + i)%nat.
Proof. intros. unfold slice. rewrite lookup_take_lt by lia. by rewrite lookup_drop. Qed.

(** A chunk of [b]: non-empty, in range, at most [size] bytes, and carrying the
    bytes of [b] at its offset. *)
Definition chunk_of (size : Z) (b : bytes) (c : chunk) : Prop :=
  0 ≤ c.1 ∧ 0 < len c.2 ≤ size ∧ c.1 + len c.2 ≤ len b ∧
  c.2 = slice b c.1 (c.1 + len c.2).

Lemma chunk_at_of size b offset :
  0 < size → 0 ≤ offset < len b → chunk_of size b (chunk_at size b offset).
Proof.
  intros Hs Ho. unfold chunk_of, chunk_at; simpl.
  destruct (Z.ltb_spec (len b) (offset + size));
    rewrite length_slice by lia; repeat split; try lia; f_equal; lia.
Qed.

Section loop.
Context (size : Z) (b : bytes) (Hsize : 0 < size).

Lemma chunk_loop_of fuel offset :
  0 ≤ offset → Forall (chunk_of size b) (chunk_loop fuel size b offset).
Proof using Hsize.
  revert offset. induction fuel as [|fuel IH]; intros offset Ho; simpl; [constructor|].
  destruct (Z.ltb_spec offset (len b)); [|constructor].
  constructor; [apply chunk_at_of; lia|apply IH; lia].
Qed.

Lemma chunk_loop_concat fuel offset :
  0 ≤ offset ≤ len b → len b - offset ≤ Z.of_nat fuel →
  concat (map snd (chunk_loop fuel size b offset)) = slice b offset (len b).
Proof using Hsize.
  revert offset. induction fuel as [|fuel IH]; intros offset Ho Hf.
  { simpl. assert (offset = len b) as -> by lia. unfold slice. by rewrite Z.sub_diag. }
  simpl. destruct (Z.ltb_spec offset (len b)) as [Hlt|Hge].
  2:{ simpl. assert (offset = len b) as -> by lia. unfold slice. by rewrite Z.sub_diag. }
  cbn [map concat]. unfold chunk_at; simpl.
  destruct (Z.ltb_spec (len b) (offset + size)); simpl.
  - destruct fuel as [|fuel]; simpl; [by rewrite app_nil_r|].
    destruct (Z.ltb_spec (offset + size) (len b)); [lia|]. by rewrite app_nil_r.
  - rewrite IH by lia. apply slice_app; lia.
Qed.

Lemma chunk_loop_cover fuel offset i :
  0 ≤ offset ≤ i → i < len b → len b - offset ≤ Z.of_nat fuel →
  ∃ c, c ∈ chunk_loop fuel size b offset ∧ c.1 ≤ i < c.1 + len c.2.
Proof using Hsize.
  revert offset. induction fuel as [|fuel IH]; intros offset Ho Hi Hf; [lia|].
  simpl. destruct (Z.ltb_spec offset (len b)) as [Hlt|Hge]; [|lia].
  destruct (decide (i < offset + size)) as [Hin|Hout].
  - exists (chunk_at size b offset). split; [by left|].
    unfold chunk_at. destruct (Z.ltb_spec (len b) (offset + size)); simpl;
      rewrite length_slice by lia; lia.
  - destruct (IH (offset + size)) as (c & Hc & Hci); [lia..|].
    exists c. split; [by right|done].
Qed.

(** More fuel than bytes left changes nothing: the loop has ended. *)
Lemma chunk_loop_fuel fuel fuel' offset :
  len b - offset ≤ Z.of_nat fuel → (fuel ≤ fuel')%nat →
  chunk_loop fuel' size b offset = chunk_loop fuel size b offset.
Proof using Hsize.
  revert fuel' offset. induction fuel as [|fuel IH]; intros fuel' offset Hf Hle.
  - destruct fuel'; [done|]. simpl. destruct (Z.ltb_spec offset (len b)); [lia|done].
  - destruct fuel' as [|fuel']; [lia|]. simpl.
    destruct (Z.ltb_spec offset (len b)); [|done]. f_equal. apply IH; lia.
Qed.
End loop.

Lemma fragment_of size b : 0 < size → Forall (chunk_of size b) (fragment size b).
Proof. intros. by apply chunk_loop_of. Qed.

Lemma fragment_concat size b : 0 < size → concat (map snd (fragment size b)) = b.
Proof.
  intros. unfold fragment. rewrite chunk_loop_concat by (unfold len; lia).
  unfold slice, len. rewrite Z.sub_0_r, Nat2Z.id, drop_0. apply firstn_all.
Qed.

Lemma fragment_cover size b i :
  0 < size → 0 ≤ i < len b → ∃ c, c ∈ fragment size b ∧ c.1 ≤ i < c.1 + len c.2.
Proof. intros. apply chunk_loop_cover; unfold len in *; lia. Qed.

(** ** Reassembly *)

Definition total_len (cs : list chunk) : Z := foldr (λ c n, len c.2 + n) 0 cs.

Lemma total_len_perm cs cs' : cs ≡ₚ cs' → total_len cs = total_len cs'.
Proof. induction 1; simpl; lia. Qed.

Lemma total_len_app cs cs' : total_len (cs ++ cs') = total_len cs + total_len cs'.
Proof. induction cs; simpl; lia. Qed.

Lemma total_len_concat cs : total_len cs = len (concat (map snd cs)).
Proof. induction cs; simpl; [done|]. rewrite len_app. lia. Qed.

Lemma total_len_pos size b cs :
  Forall (chunk_of size b) cs → cs ≠ [] → 0 < total_len cs.
Proof.
  induction 1 as [|c cs Hc Hcs IH]; [done|]. intros _. simpl.
  destruct Hc as (_ & Hl & _). destruct cs as [|c' cs]; [simpl; lia|].
  specialize (IH ltac:(done)). lia.
Qed.

(** The assembler of [b] after the chunks [done]: its buffer agrees with [b]
    wherever some chunk covers it. *)
Record assembling (b : bytes) (done : list chunk) (a : assembler) : Prop := {
  asm_total : a_total a = len b;
  asm_length : length (a_buf a) = length b;
  asm_got : a_got a = total_len done;
  asm_agree : ∀ i c, (i < length b)%nat → c ∈ done →
    c.1 ≤ Z.of_nat i < c.1 + len c.2 → a_buf a !! i = b !! i }.

Lemma length_splice buf o d :
  (o + length d ≤ length buf)%nat → length (splice buf o d) = length buf.
Proof. intros. unfold splice. rewrite !length_app, length_take, length_drop. lia. Qed.

Lemma lookup_splice_in buf o d i :
  (o + length d ≤ length buf)%nat → (o ≤ i < o + length d)%nat →
  splice buf o d !! i = d !! (i - o)%nat.
Proof.
  intros. unfold splice. rewrite lookup_app_r by (rewrite length_take; lia).
  rewrite length_take, Nat.min_l by lia. by rewrite lookup_app_l by lia.
Qed.

Lemma lookup_splice_out buf o d i :
  (o + length d ≤ length buf)%nat → ¬ (o ≤ i < o + length d)%nat →
  splice buf o d !! i = buf !! i.
Proof.
  intros Hl Hi. unfold splice. destruct (decide (i < o)%nat).
  - rewrite lookup_app_l by (rewrite length_take; lia). by rewrite lookup_take_lt.
  - rewrite lookup_app_r by (rewrite length_take; lia).
    rewrite length_take, Nat.min_l by lia. rewrite lookup_app_r by lia.
    rewrite lookup_drop. f_equal. lia.
Qed.

Definition fold_chunk (a : assembler) (c : chunk) : assembler :=
  {| a_buf := splice (a_buf a) (Z.to_nat c.1) c.2; a_got := a_got a + len c.2;
     a_total := a_total a |}.

Lemma assembling_step size b cs a c :
  assembling b cs a → chunk_of size b c → assembling b (c :: cs) (fold_chunk a c).
Proof.
  intros [Ht Hl Hg Ha] (Ho & Hsz & Hr & Hc).
  assert (Hb : (Z.to_nat c.1 + length c.2 ≤ length (a_buf a))%nat) by (unfold len in *; lia).
  split; simpl; [done|by rewrite length_splice|lia|].
  intros i c' Hi Hin Hci.
  destruct (decide (Z.to_nat c.1 ≤ i < Z.to_nat c.1 + length c.2)%nat) as [Hcov|Hncov].
  - rewrite lookup_splice_in by done. rewrite Hc, lookup_slice by (unfold len in *; lia).
    f_equal. lia.
  - rewrite lookup_splice_out by done.
    apply elem_of_cons in Hin as [->|Hin]; [unfold len in *; lia|by eapply Ha].
Qed.

(** The entry of sequence [seq] after the chunks [done] of [b]. *)
Definition partial (r : state) (seq : Z) (b : bytes) (done : list chunk) : Prop :=
  match r !! seq with
  | None => done = []
  | Some a => assembling b done a
  end.

Lemma current_partial r seq b cs :
  partial r seq b cs → ∃ a, current r seq (len b) = Ok a ∧ assembling b cs a.
Proof.
  unfold partial, current. destruct (r !! seq) as [a|] eqn:E.
  - intros Ha. rewrite (asm_total _ _ _ Ha), Z.eqb_refl. eauto.
  - intros ->. pose proof (len_nonneg b). destruct (Z.ltb_spec (len b) 0); [lia|].
    eexists. split; [done|]. split; simpl; [done| |done|].
    + rewrite length_replicate. unfold len. lia.
    + intros i c _ Hc. by apply elem_of_nil in Hc.
Qed.

(** One chunk of [b]: buffered until the sizes add up, then [b] itself. *)
Lemma Reassemble_chunk size b r seq cs c :
  partial r seq b cs → chunk_of size b c →
  ∃ a, assembling b (c :: cs) a ∧
  Reassemble r seq (len b) c.1 c.2 =
    if len b <=? total_len (c :: cs)
    then (Ok (Some (a_buf a)), delete seq r)
    else (Ok None, <[seq := a]> r).
Proof.
  intros Hp Hc. destruct (current_partial _ _ _ _ Hp) as (a & Ha & Hasm).
  exists (fold_chunk a c). split; [by eapply assembling_step|].
  pose proof (asm_got _ _ _ (assembling_step _ _ _ _ _ Hasm Hc)) as Hgot.
  destruct Hc as (Ho & Hsz & Hr & _). destruct Hasm as [Ht Hl _ _].
  unfold Reassemble. rewrite Ha. unfold fold_chunk in *; simpl in Hgot |- *.
  destruct (Z.ltb_spec (len (a_buf a)) (c.1 + len c.2)); [unfold len in *; lia|].
  destruct (Z.ltb_spec c.1 0); [lia|]. rewrite Ht, Hgot.
  change (total_len (c :: cs)) with (len c.2 + total_len cs).
  destruct (len b <=? len c.2 + total_len cs).
  - by rewrite delete_insert_eq.
  - by rewrite insert_insert_eq.
Qed.

(** When every chunk is in, the buffer is the payload. *)
Lemma assembling_complete size b cs a :
  0 < size → cs ≡ₚ fragment size b → assembling b cs a → a_buf a = b.
Proof.
  intros Hs Hp [_ Hl _ Ha]. apply list_eq_same_length with (length b); [done|done|].
  intros i x y Hi Hx Hy.
  destruct (fragment_cover size b (Z.of_nat i)) as (c & Hc & Hci); [done|unfold len; lia|].
  rewrite (Ha i c) in Hx; [congruence|done| |done]. by rewrite Hp.
Qed.

Fixpoint feed (r : state) (seq total : Z) (cs : list chunk) : list (res (option bytes)) * state :=
  match cs with
  | [] => ([], r)
  | c :: cs =>
      let '(o, r) := Reassemble r seq total c.1 c.2 in
      let '(os, r) := feed r seq total cs in (o :: os, r)
  end.

Lemma feed_rest size b seq rest : 0 < size → ∀ r cs,
  partial r seq b cs → cs ++ rest ≡ₚ fragment size b → rest ≠ [] →
  feed r seq (len b) rest =
    (replicate (length rest - 1) (Ok None) ++ [Ok (Some b)], delete seq r).
Proof.
  intros Hs. induction rest as [|c rest IH]; intros r cs Hp Hperm Hne; [done|].
  pose proof (fragment_of size b Hs) as Hall. rewrite <- Hperm in Hall.
  apply Forall_app in Hall as [Hcs [Hc Hrest]%Forall_cons].
  destruct (Reassemble_chunk size b r seq cs c Hp Hc) as (a & Hasm & HR).
  cbn [feed]. rewrite HR.
  assert (Htot : total_len cs + total_len (c :: rest) = len b).
  { rewrite <- total_len_app, (total_len_perm _ _ Hperm), total_len_concat.
    by rewrite fragment_concat. }
  simpl in Htot |- *. destruct rest as [|c' rest].
  - simpl in Htot. destruct (Z.leb_spec (len b) (len c.2 + total_len cs)); [|lia].
    simpl. rewrite (assembling_complete size b (c :: cs) a); try done.
    rewrite <- Hperm. by rewrite Permutation_cons_append.
  - pose proof (total_len_pos size b (c' :: rest) Hrest ltac:(done)).
    destruct (Z.leb_spec (len b) (len c.2 + total_len cs)); [lia|].
    rewrite (IH (<[seq := a]> r) (c :: cs)).
    + rewrite delete_insert_eq. simpl. by rewrite Nat.sub_0_r.
    + unfold partial. by rewrite lookup_insert_eq.
    + rewrite <- Hperm. apply (Permutation_middle cs (c' :: rest) c).
    + done.
Qed.

(** Chunks of several transfers, interleaved: each message carries its sequence
    number; [payload s] is the message being sent on sequence [s]. *)
Fixpoint feed_mux (payload : Z → bytes) (r : state) (ms : list (Z * chunk))
    : list (Z * res (option bytes)) * state :=
  match ms with
  | [] => ([], r)
  | (s, c) :: ms =>
      let '(o, r) := Reassemble r s (len (payload s)) c.1 c.2 in
      let '(os, r) := feed_mux payload r ms in ((s, o) :: os, r)
  end.

(** The chunks, and the outcomes, of one sequence. *)
Definition on_seq {A} (s : Z) (l : list (Z * A)) : list A :=
  map snd (filter (λ x, x.1 = s) l).

Lemma on_seq_cons_eq {A} s (x : A) l : on_seq s ((s, x) :: l) = x :: on_seq s l.
Proof. unfold on_seq. by rewrite filter_cons_True. Qed.

Lemma on_seq_cons_ne {A} s s' (x : A) l : s' ≠ s → on_seq s ((s', x) :: l) = on_seq s l.
Proof. intros. unfold on_seq. by rewrite filter_cons_False. Qed.

(** [Reassemble] reads and writes the entry of its own sequence only. *)
Lemma Reassemble_other r s s' total offset data :
  s ≠ s' → (Reassemble r s' total offset data).2 !! s = r !! s.
Proof.
  intros Hne. unfold Reassemble. repeat case_match; simpl; simplify_map_eq; done.
Qed.

Lemma Reassemble_local r r' s total offset data :
  r !! s = r' !! s →
  (Reassemble r s total offset data).1 = (Reassemble r' s total offset data).1 ∧
  (Reassemble r s total offset data).2 !! s = (Reassemble r' s total offset data).2 !! s.
Proof.
  intros Heq. unfold Reassemble, current. rewrite Heq.
  repeat case_match; simplify_eq; simpl; simplify_map_eq; (done || (split; congruence)).
Qed.

Lemma feed_mux_on_seq payload s ms : ∀ r r',
  r !! s = r' !! s →
  on_seq s (feed_mux payload r ms).1 = (feed r' s (len (payload s)) (on_seq s ms)).1 ∧
  (feed_mux payload r ms).2 !! s = (feed r' s (len (payload s)) (on_seq s ms)).2 !! s.
Proof.
  induction ms as [|[s' c] ms IH]; intros r r' Hr; [done|]. simpl.
  destruct (decide (s' = s)) as [->|Hne].
  - rewrite on_seq_cons_eq. simpl.
    destruct (Reassemble_local r r' s (len (payload s)) c.1 c.2 Hr) as [H1 H2].
    destruct (Reassemble r s _ _ _) as [o r1], (Reassemble r' s _ _ _) as [o' r1'].
    simpl in *; subst o'. specialize (IH _ _ H2).
    destruct (feed_mux payload r1 ms), (feed r1' s _ _); simpl in *.
    rewrite on_seq_cons_eq. by destruct IH as [-> ->].
  - rewrite on_seq_cons_ne by done.
    pose proof (Reassemble_other r s s' (len (payload s')) c.1 c.2 ltac:(done)) as Ho.
    destruct (Reassemble r s' _ _ _) as [o r1]; simpl in Ho.
    specialize (IH r1 r' ltac:(congruence)).
    destruct (feed_mux payload r1 ms); simpl in *. by rewrite on_seq_cons_ne.
Qed.

(** ** Properties *)

(** [C15] Large messages survive fragmentation on a multiplexed connection: cut
    the payload of every sequence into chunks, let the chunks of one sequence
    [s] arrive in any order, interleaved in any way with the chunks of the
    others; then [Reassemble] reports nothing on [s] until its last chunk, on
    which it returns the payload, and drops the buffer. *)
Theorem reassemble_interleaved size payload ms s :
  0 < size → payload s ≠ [] → on_seq s ms ≡ₚ fragment size (payload s) →
  on_seq s (feed_mux payload NewReassembler ms).1 =
    replicate (length (on_seq s ms) - 1) (Ok None) ++ [Ok (Some (payload s))] ∧
  (feed_mux payload NewReassembler ms).2 !! s = None.
Proof.
  intros Hs Hne Hperm.
  assert (on_seq s ms ≠ []) as Hms.
  { intros E. rewrite E in Hperm. apply Permutation_nil in Hperm.
    apply Hne. rewrite <- (fragment_concat size (payload s)) by done. by rewrite Hperm. }
  destruct (feed_mux_on_seq payload s ms NewReassembler NewReassembler eq_refl) as [-> ->].
  by rewrite (feed_rest size (payload s) s (on_seq s ms) Hs NewReassembler []).
Qed.

Definition two_payloads (s : Z) : bytes := if decide (s = 1) then [x01; x02; x03] else [xaa].

Theorem reassemble_interleaved_witness :
  on_seq 1 (feed_mux two_payloads NewReassembler
              [(1, (2, [x03])); (3, (0, [xaa])); (1, (0, [x01; x02]))]).1 =
    [Ok None; Ok (Some [x01; x02; x03])] ∧
  (feed_mux two_payloads NewReassembler
     [(1, (2, [x03])); (3, (0, [xaa])); (1, (0, [x01; x02]))]).2 !! 1 = None.
Proof.
  apply (reassemble_interleaved 2 two_payloads
           [(1, (2, [x03])); (3, (0, [xaa])); (1, (0, [x01; x02]))] 1).
  - done.
  - done.
  - apply perm_swap.
Defined.

Lemma Reassemble_first_half seq d :
  0 < len d →
  Reassemble NewReassembler seq (2 * len d) 0 d =
    (Ok None,
     <[seq := {| a_buf := d ++ replicate (length d) x00; a_got := len d;
                 a_total := 2 * len d |}]> NewReassembler).
Proof.
  intros Hd. unfold Reassemble, current, NewReassembler. rewrite lookup_empty.
  destruct (Z.ltb_spec (2 * len d) 0); [lia|]. cbn [a_total a_buf a_got].
  destruct (Z.ltb_spec (len (replicate (Z.to_nat (2 * len d)) x00)) (0 + len d)) as [Hx|_].
  { unfold len in Hx. rewrite length_replicate in Hx. unfold len in *. lia. }
  destruct (Z.leb_spec (2 * len d) (0 + len d)); [lia|].
  unfold splice. rewrite Z2Nat.inj_0, take_0, insert_insert_eq, drop_replicate.
  cbn [app Nat.add].
  replace (Z.to_nat (2 * len d) - length d)%nat with (length d) by (unfold len; lia).
  by rewrite Z.add_0_l.
Qed.

(** Completion is decided by counting bytes, not by coverage: the first
    half of a message delivered twice completes it, with zeros for the half
    that never came. *)
Theorem reassemble_duplicate_completes seq d :
  0 < len d →
  feed NewReassembler seq (2 * len d) [(0, d); (0, d)] =
    ([Ok None; Ok (Some (d ++ replicate (length d) x00))], NewReassembler).
Proof.
  intros Hd. cbn [feed fst snd]. rewrite Reassemble_first_half by done.
  unfold Reassemble, current. rewrite lookup_insert_eq. cbn [a_total a_buf a_got].
  rewrite Z.eqb_refl. cbn [a_total a_buf a_got].
  destruct (Z.ltb_spec (len (d ++ replicate (length d) x00)) (0 + len d)) as [Hx|_].
  { rewrite len_app in Hx. pose proof (len_nonneg (replicate (length d) x00)). lia. }
  destruct (Z.leb_spec (2 * len d) (len d + len d)); [|lia].
  unfold splice. rewrite Z2Nat.inj_0, take_0. cbn [app Nat.add].
  by rewrite drop_app_len, insert_insert_eq, delete_insert_eq.
Qed.

Theorem reassemble_duplicate_completes_witness :
  feed NewReassembler 1 (2 * len [x01; x02]) [(0, [x01; x02]); (0, [x01; x02])] =
    ([Ok None; Ok (Some ([x01; x02] ++ [x00; x00]))], NewReassembler).
Proof. apply (reassemble_duplicate_completes 1 [x01; x02]). done. Defined.

(** A chunk whose header fields make the code panic. *)
Definition chunk_panics (r : state) (seq total offset : Z) (data : bytes) : Prop :=
  ∃ s, (Reassemble r seq total offset data).1 = Panic s.

(** The fields of a chunk come from the peer, and nothing checks them: on
    a sequence with no transfer in progress the call panics exactly when
    [total_size] is negative, or [offset] is negative and the chunk does not
    end past the announced size. *)
Theorem reassemble_panic_iff r seq total offset data :
  r !! seq = None →
  chunk_panics r seq total offset data ↔
  total < 0 ∨ (offset < 0 ∧ offset + len data ≤ total).
Proof.
  intros Hr. unfold chunk_panics, Reassemble, current. rewrite Hr.
  destruct (Z.ltb_spec total 0); [split; [lia|eauto]|].
  simpl. replace (len (replicate (Z.to_nat total) x00)) with total
    by (unfold len; rewrite length_replicate; lia).
  destruct (Z.ltb_spec total (offset + len data)).
  { split; [intros [? [=]]|lia]. }
  destruct (Z.ltb_spec offset 0); [split; [intros; lia|eauto]|].
  split; [|lia]. intros [? Hp]. revert Hp. by case_match.
Qed.

Theorem reassemble_panic_iff_witness :
  NewReassembler !! 1 = None ∧ chunk_panics NewReassembler 1 (-1) 0 [].
Proof. split; [done|]. apply (reassemble_panic_iff _ 1 (-1) 0 []); [done|by left]. Defined.
