(* ===== verification/Channel.v ===== *)
(** * The transport channel's state machine (transport/channel.go, [Channel])

    The DataChannel of pion is a parameter: its buffered amount, [Send] and
    [Close].  A [select] with several ready cases is a list of alternatives; an
    empty list is a goroutine that stays blocked. *)

From Stdlib Require Import Strings.Byte ZArith Lia.
From stdpp Require Import base gmap strings list numbers relations.
From S2P Require Import Prelude Transport.
Import Framing.
Open Scope Z_scope.

(** [New] makes a receive queue of 256 messages. *)
Definition recv_cap : nat := 256.

Record Channel (DC : Type) : Type := {
  ch_dc : DC;
  ch_bufferedLow : bool;         (* a token in the one-slot channel *)
  ch_bufferedLowActive : bool;
  ch_recv : list bytes;
  ch_reasm : Reassembler.state;
  ch_closeOnce : bool;
  ch_closed : bool;
  ch_closeErr : option error;
  ch_shutdownDone : bool;
}.
Arguments ch_dc {DC} _.
Arguments ch_bufferedLow {DC} _.
Arguments ch_bufferedLowActive {DC} _.
Arguments ch_recv {DC} _.
Arguments ch_reasm {DC} _.
Arguments ch_closeOnce {DC} _.
Arguments ch_closed {DC} _.
Arguments ch_closeErr {DC} _.
Arguments ch_shutdownDone {DC} _.
Arguments Build_Channel {DC} _ _ _ _ _ _ _ _ _.

Section channel.
Context {DC : Type}.
Context (dc_BufferedAmount : DC → Z).
Context (dc_Send : DC → bytes → option error * DC).
Context (dc_Close : DC → DC).

Abbreviation chan := (Channel DC).

(** Field updates. *)
Definition with_dc (c : chan) (dc : DC) : chan :=
  Build_Channel dc (ch_bufferedLow c) (ch_bufferedLowActive c) (ch_recv c) (ch_reasm c)
    (ch_closeOnce c) (ch_closed c) (ch_closeErr c) (ch_shutdownDone c).
Definition with_low (c : chan) (token active : bool) : chan :=
  Build_Channel (ch_dc c) token active (ch_recv c) (ch_reasm c)
    (ch_closeOnce c) (ch_closed c) (ch_closeErr c) (ch_shutdownDone c).
Definition with_recv (c : chan) (q : list bytes) : chan :=
  Build_Channel (ch_dc c) (ch_bufferedLow c) (ch_bufferedLowActive c) q (ch_reasm c)
    (ch_closeOnce c) (ch_closed c) (ch_closeErr c) (ch_shutdownDone c).
Definition with_reasm (c : chan) (r : Reassembler.state) : chan :=
  Build_Channel (ch_dc c) (ch_bufferedLow c) (ch_bufferedLowActive c) (ch_recv c) r
    (ch_closeOnce c) (ch_closed c) (ch_closeErr c) (ch_shutdownDone c).

Definition New (dc : DC) : chan :=
  Build_Channel dc false false [] Reassembler.NewReassembler false false None false.

(** The [OnBufferedAmountLow] callback. *)
Definition onBufferedAmountLow (c : chan) : chan := with_low c true false.

(** The [OnMessage] callback: queue the message, or drop it once closed. *)
Definition onMessage (c : chan) (msg : bytes) : list chan :=
  (if decide (length (ch_recv c) < recv_cap)%nat then [with_recv c (ch_recv c ++ [msg])] else []) ++
  (if ch_closed c then [c] else []).

Definition shutdown (c : chan) (reason : error) : res chan :=
  if ch_shutdownDone c then Ok c
  else if ch_closed c then Panic "close of closed channel"
  else Ok (Build_Channel (ch_dc c) (ch_bufferedLow c) (ch_bufferedLowActive c) (ch_recv c)
             (ch_reasm c) (ch_closeOnce c) true (Some reason) true).

Definition onClose (c : chan) : res chan := shutdown c ErrClosedPipe.

Definition Close (c : chan) : res chan :=
  let c :=
    if ch_closeOnce c then c
    else Build_Channel (dc_Close (ch_dc c)) (ch_bufferedLow c) (ch_bufferedLowActive c)
           (ch_recv c) (ch_reasm c) true (ch_closed c) (ch_closeErr c) (ch_shutdownDone c) in
  shutdown c (ErrorString "channel closed by Close").

(** The reason [%w] prints; never the default once the channel is closed. *)
Definition reason (c : chan) : error := default (ErrorString "%!w(<nil>)") (ch_closeErr c).

(** How a goroutine blocked in [awaitBufferLow] is resumed: a token on
    [bufferedLow] (and the DataChannel it then looks at), the closed channel
    (and the reason), or its context. *)
Inductive wake :=
  | WakeLow (dc : DC)
  | WakeClosed (why : error)
  | WakeCtx (err : error).

Fixpoint awaitBufferLow (c : chan) (evs : list wake) : chan * option (res unit) :=
  if dc_BufferedAmount (ch_dc c) <? BufferedAmountHigh then (c, Some (Ok tt))
  else
    let c := with_low c (ch_bufferedLow c) true in
    match evs with
    | [] => (c, None)
    | WakeLow dc :: evs => awaitBufferLow (with_low (with_dc c dc) false (ch_bufferedLowActive c)) evs
    | WakeClosed why :: _ =>
        (c, Some (Fail (wrapf "transport: channel closed while waiting: " why)))
    | WakeCtx err :: _ => (c, Some (Fail err))
    end.

(** [SendRaw]; [None] is a call still blocked on backpressure. *)
Definition SendRaw (c : chan) (payload : bytes) (evs : list wake) : chan * option (res unit) :=
  if ch_closed c then (c, Some (Fail (wrapf "transport: channel closed: " (reason c))))
  else
    match awaitBufferLow c evs with
    | (c, Some (Ok _)) =>
        match dc_Send (ch_dc c) payload with
        | (Some err, dc) => (with_dc c dc, Some (Fail (wrapf "transport: send: " err)))
        | (None, dc) => (with_dc c dc, Some (Ok tt))
        end
    | r => r
    end.

(** [SendFrame], given the marshaled message or the marshaling error. *)
Definition SendFrame (c : chan) (marshaled : bytes + error) (evs : list wake)
    : chan * option (res unit) :=
  match marshaled with
  | inr err => (c, Some (Fail (wrapf "transport: marshal: " err)))
  | inl payload => SendRaw c (lengthPrefix payload) evs
  end.

(** [Recv] under a context whose [Done] channel yields [ctx]. *)
Definition Recv (c : chan) (ctx : option error) : list (res bytes * chan) :=
  (match ch_recv c with
   | b :: q => [(Ok (stripLengthPrefix b), with_recv c q)]
   | [] => []
   end) ++
  (if ch_closed c then [(Fail (wrapf "transport: channel closed: " (reason c)), c)] else []) ++
  (match ctx with Some e => [(Fail e, c)] | None => [] end).

Definition ReassembleC (c : chan) (seq total offset : Z) (data : bytes)
    : res (option bytes) * chan :=
  let '(o, r) := Reassembler.Reassemble (ch_reasm c) seq total offset data in
  (o, with_reasm c r).

(** ** The channel as a transition system

    The history records the messages the DataChannel handed over that were
    queued, and the payloads [Recv] returned. *)

Record history := { h_queued : list bytes; h_received : list bytes }.

Inductive step : chan * history → chan * history → Prop :=
  | step_low c h : step (c, h) (onBufferedAmountLow c, h)
  | step_message c h msg c' :
      c' ∈ onMessage c msg →
      step (c, h)
        (c', if decide (ch_recv c' = ch_recv c) then h
             else {| h_queued := h_queued h ++ [msg]; h_received := h_received h |})
  | step_onClose c h c' : onClose c = Ok c' → step (c, h) (c', h)
  | step_Close c h c' : Close c = Ok c' → step (c, h) (c', h)
  | step_send c h payload evs c' r : SendRaw c payload evs = (c', r) → step (c, h) (c', h)
  | step_recv c h ctx b c' :
      (Ok b, c') ∈ Recv c ctx →
      step (c, h) (c', {| h_queued := h_queued h; h_received := h_received h ++ [b] |})
  | step_recv_err c h ctx e c' : (Fail e, c') ∈ Recv c ctx → step (c, h) (c', h)
  | step_chunk c h seq total offset data o c' :
      ReassembleC c seq total offset data = (o, c') → step (c, h) (c', h).

Definition init (dc : DC) : chan * history := (New dc, {| h_queued := []; h_received := [] |}).
Definition reachable (dc : DC) (s : chan * history) : Prop := rtc step (init dc) s.

(** The invariant: [closed] and [shutdownDone] agree, a closed channel has a
    reason, the queue respects its capacity, and what was queued has been
    received in order or is still in the queue. *)
Record wf (s : chan * history) : Prop := {
  wf_done : ch_shutdownDone s.1 = ch_closed s.1;
  wf_reason : ch_closed s.1 = true → is_Some (ch_closeErr s.1);
  wf_cap : (length (ch_recv s.1) ≤ recv_cap)%nat;
  wf_fifo : map stripLengthPrefix (h_queued s.2) =
            h_received s.2 ++ map stripLengthPrefix (ch_recv s.1) }.
End channel.

Arguments WakeLow {DC} _.
Arguments WakeClosed {DC} _.
Arguments WakeCtx {DC} _.

(** ** Lemmas *)

Section lemmas.
Context {DC : Type}.
Context (dc_BufferedAmount : DC → Z).
Context (dc_Send : DC → bytes → option error * DC).
Context (dc_Close : DC → DC).

Local Abbreviation await := (awaitBufferLow dc_BufferedAmount).
Local Abbreviation send := (SendRaw dc_BufferedAmount dc_Send).
Local Abbreviation chan_step := (step dc_BufferedAmount dc_Send dc_Close).
Local Abbreviation chan_reachable := (reachable dc_BufferedAmount dc_Send dc_Close).

Implicit Types c : Channel DC.

(** Two channels that differ in nothing the invariant looks at. *)
Definition same_view (c c' : Channel DC) : Prop :=
  ch_recv c' = ch_recv c ∧ ch_closed c' = ch_closed c ∧
  ch_closeErr c' = ch_closeErr c ∧ ch_shutdownDone c' = ch_shutdownDone c.

#[export] Instance same_view_preorder : PreOrder same_view.
Proof.
  split; unfold same_view; [done|].
  intros c1 c2 c3 (?&?&?&?) (?&?&?&?). repeat split; congruence.
Qed.

Lemma await_view evs : ∀ c c' r, await c evs = (c', r) → same_view c c'.
Proof.
  induction evs as [|ev evs IH]; intros c c' r; simpl;
    destruct (_ <? _); intros; simplify_eq; try done.
  destruct ev; simplify_eq; try done. by apply IH in H.
Qed.

Lemma send_view c p evs c' r : send c p evs = (c', r) → same_view c c'.
Proof.
  unfold SendRaw. destruct (ch_closed c) eqn:?; [by intros [= <- <-]|].
  destruct (await c evs) as [c1 [[]|]] eqn:E; apply await_view in E;
    repeat case_match; intros; by simplify_eq.
Qed.

Lemma shutdown_view c why c' :
  ch_shutdownDone c = ch_closed c → shutdown c why = Ok c' →
  ch_recv c' = ch_recv c ∧ ch_closed c' = true ∧ ch_shutdownDone c' = true ∧
  ch_closeErr c' = if ch_closed c then ch_closeErr c else Some why.
Proof.
  unfold shutdown. intros Hd. rewrite Hd.
  destruct (ch_closed c) eqn:E; intros [= <-]; simpl; by rewrite ?Hd.
Qed.

Lemma same_view_wf c c' h : same_view c c' → wf (c, h) → wf (c', h).
Proof.
  unfold same_view. intros (Hq&Hc&He&Hs) []; simpl in *.
  split; simpl; rewrite ?Hq, ?Hc, ?He, ?Hs; done.
Qed.

Lemma onMessage_inv c msg c' :
  c' ∈ onMessage c msg →
  (c' = with_recv c (ch_recv c ++ [msg]) ∧ (length (ch_recv c) < recv_cap)%nat) ∨
  (c' = c ∧ ch_closed c = true).
Proof.
  unfold onMessage. intros [H|H]%elem_of_app.
  - left. case_decide; [|by apply elem_of_nil in H].
    by apply list_elem_of_singleton in H as ->.
  - right. destruct (ch_closed c); [|by apply elem_of_nil in H].
    by apply list_elem_of_singleton in H as ->.
Qed.

Lemma app_singleton_ne {A} (l : list A) x : l ++ [x] ≠ l.
Proof. intros H%(f_equal length). rewrite length_app in H. simpl in H. lia. Qed.

Lemma Recv_inv c ctx o c' :
  (o, c') ∈ Recv c ctx →
  (∃ b q, ch_recv c = b :: q ∧ o = Ok (stripLengthPrefix b) ∧ c' = with_recv c q) ∨
  (ch_closed c = true ∧ o = Fail (wrapf "transport: channel closed: " (reason c)) ∧ c' = c) ∨
  (∃ e, ctx = Some e ∧ o = Fail e ∧ c' = c).
Proof.
  unfold Recv. intros [H|[H|H]%elem_of_app]%elem_of_app.
  - left. destruct (ch_recv c) as [|b q]; [by apply elem_of_nil in H|].
    apply list_elem_of_singleton in H as [= -> ->]. eauto.
  - right; left. destruct (ch_closed c); [|by apply elem_of_nil in H].
    by apply list_elem_of_singleton in H as [= -> ->].
  - right; right. destruct ctx as [e|]; [|by apply elem_of_nil in H].
    apply list_elem_of_singleton in H as [= -> ->]. eauto.
Qed.

Lemma wf_shutdown c h why c' : wf (c, h) → shutdown c why = Ok c' → wf (c', h).
Proof.
  intros [Hd Hr Hc Hf] Hs. simpl in *.
  destruct (shutdown_view _ _ _ Hd Hs) as (Hq & Hcl & Hsd & He).
  split; simpl; rewrite ?Hq, ?Hcl, ?Hsd, ?He; try done.
  intros _. destruct (ch_closed c) eqn:?; eauto.
Qed.

Lemma wf_step s s' : wf s → chan_step s s' → wf s'.
Proof.
  intros Hwf Hs. destruct Hs as [c h|c h msg c' Hm|c h c' Ho|c h c' Ho|c h p evs c' r Hp
    |c h ctx b c' Hr|c h ctx e c' Hr|c h seq total offset d o c' Hc].
  - by eapply same_view_wf; [|exact Hwf].
  - apply onMessage_inv in Hm as [[-> Hlt]|[-> Hcl]].
    + destruct Hwf as [? ? ? Hf]; simpl in *.
      rewrite decide_False by apply app_singleton_ne.
      split; simpl; try done.
      * rewrite length_app; simpl. lia.
      * by rewrite !map_app, Hf, <- app_assoc.
    + by rewrite decide_True.
  - by eapply wf_shutdown.
  - eapply wf_shutdown; [|exact Ho].
    eapply same_view_wf; [|exact Hwf]. by destruct (ch_closeOnce c).
  - eapply same_view_wf; [|exact Hwf]. by eapply send_view.
  - apply Recv_inv in Hr as [(b' & q & Hq & [= ->] & ->)|[(_ & [=] & _)|(? & _ & [=] & _)]].
    destruct Hwf as [? ? Hcap Hf]; simpl in *. rewrite Hq in Hcap, Hf. simpl in *.
    split; simpl; try done; [lia|]. rewrite <- app_assoc. done.
  - by apply Recv_inv in Hr as [(? & ? & ? & [=] & ?)|[(_ & _ & ->)|(? & _ & _ & ->)]].
  - unfold ReassembleC in Hc. destruct (Reassembler.Reassemble _ _ _ _ _) as [o' r'].
    simplify_eq. by eapply same_view_wf; [|exact Hwf].
Qed.

Lemma wf_reachable dc s : chan_reachable dc s → wf s.
Proof.
  intros H. refine (rtc_ind_r wf _ _ _ _ H); [|intros; by eapply wf_step].
  split; simpl; [done|done|unfold recv_cap; lia|done].
Qed.

(** A closed channel stays closed, with its first reason. *)
Lemma closed_step (s s' : Channel DC * history) why :
  wf s → chan_step s s' → ch_closed s.1 = true → ch_closeErr s.1 = Some why →
  ch_closed s'.1 = true ∧ ch_closeErr s'.1 = Some why.
Proof.
  intros Hwf Hs Hcl He.
  destruct Hs as [c h|c h msg c' Hm|c h c' Ho|c h c' Ho|c h p evs c' r Hp
    |c h ctx b c' Hr|c h ctx e c' Hr|c h seq total offset d o c' Hc]; simpl in *.
  - done.
  - apply onMessage_inv in Hm as [[-> _]|[-> _]]; done.
  - apply shutdown_view in Ho as (_ & -> & _ & ->); [|apply Hwf]. by rewrite Hcl.
  - apply shutdown_view in Ho as (_ & -> & _ & ->);
      [destruct (ch_closeOnce c); simpl; by rewrite Hcl|].
    destruct (ch_closeOnce c); apply Hwf.
  - apply send_view in Hp as (_ & -> & -> & _). done.
  - apply Recv_inv in Hr as [(? & ? & _ & _ & ->)|[(_ & _ & ->)|(? & _ & _ & ->)]]; done.
  - apply Recv_inv in Hr as [(? & ? & _ & _ & ->)|[(_ & _ & ->)|(? & _ & _ & ->)]]; done.
  - unfold ReassembleC in Hc. destruct (Reassembler.Reassemble _ _ _ _ _). by simplify_eq.
Qed.

(** What a waiting sender looked at before it went on. *)
Lemma await_low evs : ∀ c c',
  await c evs = (c', Some (Ok tt)) →
  dc_BufferedAmount (ch_dc c') < BufferedAmountHigh ∧
  (ch_dc c' = ch_dc c ∨ WakeLow (ch_dc c') ∈ evs).
Proof.
  induction evs as [|ev evs IH]; intros c c'; simpl;
    destruct (Z.ltb_spec (dc_BufferedAmount (ch_dc c)) BufferedAmountHigh);
    try (intros [= <-]; by auto); try discriminate.
  destruct ev as [dc| |]; try discriminate. intros Ha. apply IH in Ha as [Hlt [Hd|Hd]].
  - split; [done|]. right. simpl in Hd. rewrite Hd. by left.
  - split; [done|]. right. by right.
Qed.
End lemmas.

(** ** Properties *)

(** A concrete DataChannel: its buffered amount and the messages sent. *)
Definition toy_dc : Type := Z * list bytes.
Definition toy_amount (d : toy_dc) : Z := d.1.
Definition toy_send (d : toy_dc) (m : bytes) : option error * toy_dc :=
  (None, (d.1 + len m, d.2 ++ [m])).
Definition toy_close (d : toy_dc) : toy_dc := d.

(** [C27] Shutdown of a channel, over every interleaving of its callbacks,
    senders, receivers and closers: the [closed] channel is never closed twice
    (no run of [shutdown] panics), closing is permanent, the first reason is
    the one every later caller sees, and messages are received in the order
    they were queued, none lost or duplicated. *)
Theorem channel_lifecycle {DC} amount dsend dclose (dc : DC) s s' why :
  reachable amount dsend dclose dc s →
  rtc (step amount dsend dclose) s s' →
  (∃ c', shutdown s.1 why = Ok c' ∧ ch_closed c' = true ∧ (ch_closed s.1 = true → c' = s.1)) ∧
  (ch_closed s.1 = true → ch_closed s'.1 = true ∧ ch_closeErr s'.1 = ch_closeErr s.1 ∧
     is_Some (ch_closeErr s.1)) ∧
  map stripLengthPrefix (h_queued s'.2) =
    h_received s'.2 ++ map stripLengthPrefix (ch_recv s'.1).
Proof.
  intros Hr Hs. pose proof (wf_reachable _ _ _ _ _ Hr) as Hwf.
  assert (Hwf' : wf s').
  { eapply wf_reachable. unfold reachable in *. by etrans. }
  split; [|split].
  - destruct Hwf as [Hd _ _ _]. unfold shutdown. rewrite Hd.
    destruct (ch_closed s.1) eqn:E; eexists; repeat split; done.
  - intros Hcl. destruct (wf_reason _ Hwf Hcl) as [w Hw]. rewrite Hw.
    assert (Hinv : ch_closed s'.1 = true ∧ ch_closeErr s'.1 = Some w); [|destruct Hinv; eauto].
    clear Hr Hwf'. induction Hs as [s|s s1 s' Hst _ IH]; [done|].
    destruct (closed_step _ _ _ _ _ _ Hwf Hst Hcl Hw).
    apply IH; [by eapply wf_step|done..].
  - apply Hwf'.
Qed.

Theorem channel_lifecycle_witness :
  let s : Channel toy_dc * history :=
    (Build_Channel (0, []) false false [[x07]] ∅ false true (Some ErrClosedPipe) true,
     {| h_queued := [[x07]]; h_received := [] |}) in
  ch_closed s.1 = true ∧
  (ch_closed s.1 = true → ch_closed s.1 = true ∧ ch_closeErr s.1 = ch_closeErr s.1 ∧
     is_Some (ch_closeErr s.1)).
Proof.
  split; [done|].
  refine (proj1 (proj2 (channel_lifecycle toy_amount toy_send toy_close (0, [])
    (Build_Channel (0, []) false false [[x07]] ∅ false true (Some ErrClosedPipe) true,
     {| h_queued := [[x07]]; h_received := [] |}) _ EOF _ (rtc_refl _ _)))).
  eapply rtc_l; [|eapply rtc_l; [|apply rtc_refl]].
  - apply (step_message _ _ _ _ _ [x07]). left.
  - by apply step_onClose.
Defined.

(** The length prefix: for any payload a DataChannel can carry, the
    receiver gets the sender's payload back exactly when it is not empty; the
    prefix of an empty message is taken for a raw message of four zero bytes. *)
Theorem strip_lengthPrefix_iff p :
  len p < two32 → (stripLengthPrefix (lengthPrefix p) = p ↔ p ≠ []).
Proof.
  intros Hp. split.
  - intros H ->. discriminate H.
  - intros Hne. apply strip_lengthPrefix. split; [|done].
    pose proof (len_nonneg p). assert (len p ≠ 0) by (by intros ?%len_0). lia.
Qed.

Theorem strip_lengthPrefix_iff_witness :
  len [x0a; x02] < two32 ∧ stripLengthPrefix (lengthPrefix [x0a; x02]) = [x0a; x02].
Proof. split; [done|]. apply (strip_lengthPrefix_iff [x0a; x02]); done. Defined.

(** Backpressure: when [SendRaw] returns nil, the payload was handed to
    the DataChannel once, on a channel that was open when the call started and
    at a moment when its buffered amount was below 1 MiB; when it returns an
    error other than the DataChannel's own, nothing was sent. *)
Theorem SendRaw_backpressure {DC} amount (dsend : DC → bytes → option error * DC) c p evs c' r :
  SendRaw amount dsend c p evs = (c', Some r) →
  match r with
  | Ok _ => ch_closed c = false ∧
      ∃ dc, amount dc < BufferedAmountHigh ∧ dsend dc p = (None, ch_dc c') ∧
            (dc = ch_dc c ∨ WakeLow dc ∈ evs)
  | Fail e => (∃ dc e', dsend dc p = (Some e', ch_dc c') ∧ e = wrapf "transport: send: " e') ∨
      ch_dc c' = ch_dc c ∨ WakeLow (ch_dc c') ∈ evs
  | Panic _ => False
  end.
Proof.
  unfold SendRaw. destruct (ch_closed c) eqn:Hcl; [intros [= <- <-]; by auto|].
  destruct (awaitBufferLow amount c evs) as [c1 [[[]|e|s]|]] eqn:E.
  - apply await_low in E as [Hlow Hdc].
    destruct (dsend (ch_dc c1) p) as [[e|] dc] eqn:Es; intros [= <- <-]; simpl; eauto 10.
  - intros [= <- <-]. right. revert c Hcl E. induction evs as [|ev evs IH]; intros c Hcl E;
      simpl in E; destruct (_ <? _); simplify_eq.
    destruct ev as [dc| |]; simplify_eq; simpl; auto.
    apply IH in E as [->|]; [by right; left|right; by right|exact Hcl].
  - intros [= <- <-]. revert c Hcl E. induction evs as [|ev evs IH]; intros c Hcl E;
      simpl in E; destruct (_ <? _); simplify_eq.
    destruct ev as [dc| |]; simplify_eq. by apply IH in E.
  - discriminate.
Qed.

Theorem SendRaw_backpressure_witness :
  SendRaw toy_amount toy_send (New (2 ^ 20, [])) [x01] [WakeLow (0, [])] =
    (Build_Channel (1, [[x01]]) false true [] ∅ false false None false, Some (Ok tt)) ∧
  ∃ dc, toy_amount dc < BufferedAmountHigh ∧ toy_send dc [x01] = (None, (1, [[x01]])) ∧
        (dc = (2 ^ 20, []) ∨ WakeLow dc ∈ [WakeLow (0, [])]).
Proof.
  split; [reflexivity|].
  apply (proj2 (SendRaw_backpressure toy_amount toy_send (New (2 ^ 20, [])) [x01]
    [WakeLow (0, [])] (Build_Channel (1, [[x01]]) false true [] ∅ false false None false)
    (Ok tt) ltac:(reflexivity))).
Defined.
