(* ===== verification/Status.v ===== *)
(** * Status and interceptor chains (rpc/types.go, rpc/interceptor.go) *)

From Stdlib Require Import ZArith Lia.
From stdpp Require Import base gmap strings list numbers.
From S2P Require Import Prelude.
Open Scope Z_scope.

(** ** rpc/types.go *)

Inductive MethodKind : Type :=
  | MethodKindUnary
  | MethodKindServerStreaming
  | MethodKindClientStreaming
  | MethodKindBidiStreaming.

#[export] Instance MethodKind_eq_dec : EqDecision MethodKind.
Proof. solve_decision. Defined.

Record Status : Type := { Code : Z; Message : string }.

#[export] Instance Status_eq_dec : EqDecision Status.
Proof. solve_decision. Defined.

(** [google.rpc.Status] on the wire, as far as the SDK uses it. *)
Record StatusPb : Type := { pb_Code : Z; pb_Message : string }.

#[export] Instance StatusPb_eq_dec : EqDecision StatusPb.
Proof. solve_decision. Defined.

Definition OK : Status := {| Code := 0; Message := "" |}.

Definition Err (code : Z) (err : option error) : Status :=
  match err with
  | None => OK
  | Some err => {| Code := code; Message := error_string err |}
  end.

(** [(s *Status) Err()]; a nil status is [None]. *)
Definition Status_Err (s : option Status) : option error :=
  match s with
  | None => None
  | Some s => if Code s =? 0 then None else Some (ErrorString (Message s))
  end.

Definition toProto (s : option Status) : StatusPb :=
  match s with
  | None => {| pb_Code := 0; pb_Message := "" |}
  | Some s => {| pb_Code := Code s; pb_Message := Message s |}
  end.

Definition statusFromProto (p : option StatusPb) : Status :=
  match p with
  | None => OK
  | Some p => {| Code := pb_Code p; Message := pb_Message p |}
  end.

(** [time.Duration] counts nanoseconds in an [int64]. *)
Definition Millisecond : Z := 1000000.
Definition durationFromMs (ms : Z) : Z := if ms <=? 0 then 0 else ms * Millisecond.

Lemma statusFromProto_toProto (s : option Status) :
  statusFromProto (Some (toProto s)) = default OK s.
Proof. by destruct s as [[]|]. Qed.

Lemma durationFromMs_bound ms :
  -two31 ≤ ms < two31 → 0 ≤ durationFromMs ms < 2 ^ 63.
Proof.
  unfold durationFromMs, Millisecond. zconsts. change (2 ^ 63) with 9223372036854775808.
  destruct (Z.leb_spec ms 0); lia.
Qed.

(** ** rpc/interceptor.go

    [R] is what a handler produces: a result, or a program that computes one. *)

Section chains.
Context {Ctx Req R Stream Info : Type}.

Definition UnaryHandler : Type := Ctx → Req → R.
Definition UnaryServerInterceptor : Type := Ctx → string → Req → UnaryHandler → R.
Definition StreamHandler : Type := Ctx → Stream → R.
Definition StreamServerInterceptor : Type := Ctx → Stream → Info → StreamHandler → R.
Definition UnaryInvoker : Type := Ctx → string → Req → R.
Definition UnaryClientInterceptor : Type := Ctx → string → Req → UnaryInvoker → R.

(** The loops run from the last interceptor to the first, each iteration
    wrapping the handler built so far. *)
Definition chainUnaryServer (interceptors : list UnaryServerInterceptor) (method : string)
    (final : UnaryHandler) : UnaryHandler :=
  match interceptors with
  | [] => final
  | _ => foldl (λ (next : UnaryHandler) interceptor, λ ctx req, interceptor ctx method req next)
           final (reverse interceptors)
  end.

Definition chainStreamServer (interceptors : list StreamServerInterceptor) (info : Info)
    (final : StreamHandler) : StreamHandler :=
  match interceptors with
  | [] => final
  | _ => foldl (λ (next : StreamHandler) interceptor, λ ctx s, interceptor ctx s info next)
           final (reverse interceptors)
  end.

Definition chainUnaryClient (interceptors : list UnaryClientInterceptor)
    (invoker : UnaryInvoker) : UnaryInvoker :=
  match interceptors with
  | [] => invoker
  | _ => foldl (λ (next : UnaryInvoker) interceptor, λ ctx method req, interceptor ctx method req next)
           invoker (reverse interceptors)
  end.

Lemma chainStreamServer_foldr is_ info final :
  chainStreamServer is_ info final =
  foldr (λ interceptor (next : StreamHandler), λ ctx s, interceptor ctx s info next) final is_.
Proof. destruct is_ as [|i is_]; [done|]. apply foldl_reverse_foldr. Qed.

Lemma chainUnaryClient_foldr is_ invoker :
  chainUnaryClient is_ invoker =
  foldr (λ interceptor (next : UnaryInvoker), λ ctx method req, interceptor ctx method req next)
    invoker is_.
Proof. destruct is_ as [|i is_]; [done|]. apply foldl_reverse_foldr. Qed.

Lemma chainUnaryServer_foldr is_ method final :
  chainUnaryServer is_ method final =
  foldr (λ interceptor (next : UnaryHandler), λ ctx req, interceptor ctx method req next)
    final is_.
Proof. destruct is_ as [|i is_]; [done|]. apply foldl_reverse_foldr. Qed.
End chains.

(** ** Properties *)

(** An interceptor that does [pre], runs [next] once, and then does [post]. *)
Definition around {Ctx Stream Info Ev} (p : list Ev * list Ev)
    : StreamServerInterceptor (Ctx:=Ctx) (R:=list Ev) (Stream:=Stream) (Info:=Info) :=
  λ ctx s info next, p.1 ++ next ctx s ++ p.2.

Definition around_client {Ctx Req Ev} (p : list Ev * list Ev)
    : UnaryClientInterceptor (Ctx:=Ctx) (Req:=Req) (R:=list Ev) :=
  λ ctx method req next, p.1 ++ next ctx method req ++ p.2.

(** Interceptors run outermost-first: a chain of interceptors that each
    call [next] once does all the entries in slice order, then the handler,
    then the exits in reverse order; on the server's stream chain and on the
    client's unary chain alike.  Chains compose: the chain of two concatenated
    slices is the first one's around the second's. *)
Theorem chain_order {Ctx Stream Info Req Ev} (ps : list (list Ev * list Ev)) :
  (∀ (info : Info) (final : StreamHandler) (ctx : Ctx) (s : Stream),
     chainStreamServer (map around ps) info final ctx s =
       concat (map fst ps) ++ final ctx s ++ concat (map snd (reverse ps))) ∧
  (∀ (invoker : UnaryInvoker) (ctx : Ctx) (method : string) (req : Req),
     chainUnaryClient (map around_client ps) invoker ctx method req =
       concat (map fst ps) ++ invoker ctx method req ++ concat (map snd (reverse ps))) ∧
  (∀ (is1 is2 : list (@StreamServerInterceptor Ctx (list Ev) Stream Info)) info final,
     chainStreamServer (is1 ++ is2) info final =
       chainStreamServer is1 info (chainStreamServer is2 info final)).
Proof.
  assert (Hrev : ∀ p (ps : list (list Ev * list Ev)),
    concat (map snd (reverse (p :: ps))) = concat (map snd (reverse ps)) ++ p.2).
  { intros p ps'. rewrite reverse_cons, map_app, concat_app. simpl. by rewrite app_nil_r. }
  split; [|split].
  - intros. rewrite chainStreamServer_foldr. revert ctx s.
    induction ps as [|p ps IH]; intros ctx s; simpl; [by rewrite app_nil_r|].
    unfold around at 1. by rewrite IH, Hrev, <- !app_assoc.
  - intros. rewrite chainUnaryClient_foldr. revert ctx method req.
    induction ps as [|p ps IH]; intros ctx method req; simpl; [by rewrite app_nil_r|].
    unfold around_client at 1. by rewrite IH, Hrev, <- !app_assoc.
  - intros. by rewrite !chainStreamServer_foldr, foldr_app.
Qed.
