(* ===== verification/Messages.v ===== *)
(** * Wire messages and metadata

    The messages of proto/peerrpc/peerrpc.proto as the Go structs hold them
    after [proto.Unmarshal] (a pointer that may be nil is an option; the
    [*Chunk] of a chunk is never nil after decoding), the codec interface that
    [proto.Marshal] and [proto.Unmarshal] provide, and the metadata maps of
    rpc/stream.go and rpc/client.go. *)

From Stdlib Require Import Strings.Byte ZArith Lia.
From stdpp Require Import numbers strings gmap fin_maps list.
From S2P Require Import Prelude Status.
Open Scope Z_scope.

(** ** Messages *)

(** [map<string, Strings>]: every entry holds a non-nil [*Strings]. *)
Abbreviation Metadata := (gmap string (list string)).

Record Routing : Type := { Sequence : Z }.

Record Call : Type := {
  call_Method : string;
  call_Metadata : option Metadata;
  call_DeadlineMs : Z;
  call_InlineData : option bytes;
  call_ProtocolVersion : Z }.

Record Chunk : Type := { TotalSize : Z; Offset : Z; chunk_Data : bytes }.

Inductive Content : Type :=
  | Data_Message (message : bytes)
  | Data_Chunk (chunk : Chunk).

Record Data : Type := { data_Content : option Content }.

Record End : Type := {
  end_CloseSend : bool;
  end_Status : option StatusPb;
  end_Trailer : option Metadata }.

Record Begin : Type := { begin_Header : option Metadata; begin_InlineData : option bytes }.

Inductive FrameType : Type :=
  | Frame_Call (call : option Call)
  | Frame_Data (data : option Data)
  | Frame_End (end_ : option End).

Record Frame : Type := { f_Routing : option Routing; f_Type : option FrameType }.

Inductive ResponseType : Type :=
  | ResponseFrame_Begin (begin : option Begin)
  | ResponseFrame_Data (data : option Data)
  | ResponseFrame_End (end_ : option End).

Record ResponseFrame : Type := { rf_Routing : option Routing; rf_Type : option ResponseType }.

#[export] Instance Routing_eq_dec : EqDecision Routing.
Proof. solve_decision. Defined.
#[export] Instance Call_eq_dec : EqDecision Call.
Proof. solve_decision. Defined.
#[export] Instance Chunk_eq_dec : EqDecision Chunk.
Proof. solve_decision. Defined.
#[export] Instance Content_eq_dec : EqDecision Content.
Proof. solve_decision. Defined.
#[export] Instance Data_eq_dec : EqDecision Data.
Proof. solve_decision. Defined.
#[export] Instance End_eq_dec : EqDecision End.
Proof. solve_decision. Defined.
#[export] Instance Begin_eq_dec : EqDecision Begin.
Proof. solve_decision. Defined.
#[export] Instance FrameType_eq_dec : EqDecision FrameType.
Proof. solve_decision. Defined.
#[export] Instance Frame_eq_dec : EqDecision Frame.
Proof. solve_decision. Defined.
#[export] Instance ResponseType_eq_dec : EqDecision ResponseType.
Proof. solve_decision. Defined.
#[export] Instance ResponseFrame_eq_dec : EqDecision ResponseFrame.
Proof. solve_decision. Defined.

(** [f.Routing.Sequence], 0 when there is no routing. *)
Definition routing_seq (r : option Routing) : Z :=
  match r with Some r => Sequence r | None => 0 end.

(** [t.Data.GetContent()]: nil-safe. *)
Definition GetContent (d : option Data) : option Content :=
  match d with Some d => data_Content d | None => None end.

(** ** The codec interface: [proto.Marshal] and [proto.Unmarshal] *)

Class Codec (M : Type) := {
  marshal : M → option bytes;
  unmarshal : bytes → option M }.

(** The documented round trip: what [Marshal] produced, [Unmarshal] reads back. *)
Class CodecLaws (M : Type) `{Codec M} :=
  unmarshal_marshal : ∀ (m : M) b, marshal m = Some b → unmarshal b = Some m.

(** ** A codec for the examples: a table of known messages *)

Section table.
Context {M : Type} `{!EqDecision M} (table : list M).

Definition table_codec : Codec M :=
  {| marshal := λ f, (λ p : nat * M, [byte_of_Z (Z.of_nat p.1)]) <$> list_find (f =.) table;
     unmarshal := λ raw, match raw with [b] => table !! Z.to_nat (Z_of_byte b) | _ => None end |}.

Lemma table_codec_laws : (length table ≤ 256)%nat → @CodecLaws M table_codec.
Proof.
  intros Hlen m b. unfold marshal, unmarshal; cbn.
  intros ([i m'] & (Hi & <- & _)%list_find_Some & ->)%fmap_Some. cbn.
  rewrite Z_of_byte_of_Z. apply lookup_lt_Some in Hi as Hlt.
  rewrite Z.mod_small by lia. by rewrite Nat2Z.id.
Qed.
End table.

(** ** Metadata: rpc/stream.go and rpc/client.go

    A Go [range] over a map visits the entries in an unspecified order; the
    order is an explicit list of entries. *)

Abbreviation entries := (list (string * list string)).

(** The loop body of [mergeMetadata] and [mergeIn]. *)
Definition merge_entry (dst : Metadata) (kv : string * list string) : Metadata :=
  <[kv.1 := default [] (dst !! kv.1) ++ kv.2]> dst.

Definition mergeMetadata (dst : Metadata) (kv : entries) : Metadata := foldl merge_entry dst kv.

(** [mergeIn(dst, src)]: the same loop, over a decoded [Metadata]. *)
Definition mergeIn (dst : Metadata) (src : entries) : Metadata := foldl merge_entry dst src.

(** [copyMetadata], [Snapshot], [IncomingHeader] and [metadataFromKV] build a
    fresh map entry by entry. *)
Definition copy_entries (kv : entries) : Metadata :=
  foldl (λ out kv, <[kv.1 := kv.2]> out) ∅ kv.

Definition copyMetadata (src : option Metadata) : Metadata :=
  match src with
  | None => ∅
  | Some src => copy_entries (map_to_list src)
  end.

Definition metadataFromKV (hdr : Metadata) : Metadata := copy_entries (map_to_list hdr).

(** [metadataHolder]: one map, whatever the setter. *)
Definition Snapshot (md : Metadata) : Metadata := copy_entries (map_to_list md).
Definition SetHeader (md : Metadata) (kv : Metadata) : Metadata := mergeMetadata md (map_to_list kv).
Definition SetTrailer (md : Metadata) (kv : Metadata) : Metadata := mergeMetadata md (map_to_list kv).

(** ** Lemmas *)

(** The merge as an operation on maps: values of a key are concatenated. *)
Definition md_union (dst src : Metadata) : Metadata :=
  union_with (λ a b, Some (a ++ b)) dst src.

Lemma merge_entry_comm dst a b :
  a.1 ≠ b.1 → merge_entry (merge_entry dst a) b = merge_entry (merge_entry dst b) a.
Proof.
  intros Hne. unfold merge_entry.
  rewrite (lookup_insert_ne dst a.1 b.1) by done. rewrite (lookup_insert_ne dst b.1 a.1) by done.
  by rewrite insert_insert_ne.
Qed.

Lemma foldl_merge_lookup kv dst k :
  NoDup kv.*1 →
  foldl merge_entry dst kv !! k =
    match (list_to_map kv : Metadata) !! k with
    | Some vs => Some (default [] (dst !! k) ++ vs)
    | None => dst !! k
    end.
Proof.
  revert dst. induction kv as [|[k' vs] kv IH]; intros dst Hnd; [done|].
  apply NoDup_cons in Hnd as [Hnin Hnd]. simpl. rewrite IH by done.
  unfold merge_entry at 1 2; simpl.
  destruct (decide (k = k')) as [->|Hne].
  - rewrite lookup_insert_eq, lookup_insert_eq.
    rewrite not_elem_of_list_to_map_1 by done. done.
  - by rewrite !lookup_insert_ne by done.
Qed.

Lemma foldl_merge kv dst :
  NoDup kv.*1 → foldl merge_entry dst kv = md_union dst (list_to_map kv).
Proof.
  intros Hnd. apply map_eq. intros k. rewrite foldl_merge_lookup by done.
  unfold md_union. rewrite lookup_union_with.
  destruct ((list_to_map kv : Metadata) !! k), (dst !! k); done.
Qed.

Lemma foldl_insert_union (kv : entries) (out : Metadata) :
  NoDup kv.*1 → foldl (λ out kv, <[kv.1 := kv.2]> out) out kv = list_to_map kv ∪ out.
Proof.
  revert out. induction kv as [|[k vs] kv IH]; intros out Hnd; simpl; [by rewrite (left_id_L ∅ _)|].
  apply NoDup_cons in Hnd as [Hnin Hnd]. rewrite IH by done.
  rewrite <- insert_union_r by (by apply not_elem_of_list_to_map_1).
  by rewrite insert_union_l.
Qed.

Lemma copy_entries_list kv : NoDup kv.*1 → copy_entries kv = list_to_map kv.
Proof. intros. unfold copy_entries. by rewrite foldl_insert_union, (right_id_L ∅ _). Qed.

Lemma copy_entries_map src : copy_entries (map_to_list src) = src.
Proof.
  rewrite copy_entries_list by apply NoDup_fst_map_to_list. apply list_to_map_to_list.
Qed.

Lemma SetHeader_union md kv : SetHeader md kv = md_union md kv.
Proof.
  unfold SetHeader, mergeMetadata.
  rewrite foldl_merge by apply NoDup_fst_map_to_list. by rewrite list_to_map_to_list.
Qed.

Lemma SetTrailer_union md kv : SetTrailer md kv = md_union md kv.
Proof. apply SetHeader_union. Qed.

Lemma mergeIn_union md kv : mergeIn md (map_to_list kv) = md_union md kv.
Proof. apply SetHeader_union. Qed.

Lemma Snapshot_id md : Snapshot md = md.
Proof. apply copy_entries_map. Qed.

Lemma metadataFromKV_id md : metadataFromKV md = md.
Proof. apply copy_entries_map. Qed.

#[export] Instance md_union_left_id : LeftId (=) ∅ md_union.
Proof. intros m. apply map_eq. intros k. unfold md_union. rewrite lookup_union_with, lookup_empty. by destruct (m !! k). Qed.
#[export] Instance md_union_right_id : RightId (=) ∅ md_union.
Proof. intros m. apply map_eq. intros k. unfold md_union. rewrite lookup_union_with, lookup_empty. by destruct (m !! k). Qed.
#[export] Instance md_union_assoc : Assoc (=) md_union.
Proof.
  intros m1 m2 m3. apply map_eq. intros k. unfold md_union.
  rewrite !lookup_union_with. destruct (m1 !! k), (m2 !! k), (m3 !! k); simpl; try done.
  by rewrite app_assoc.
Qed.

(** ** Properties *)

(** [C35] Merging metadata does not depend on the order in which Go ranges
    over the source map: every enumeration of its entries gives the map in
    which each key holds the old values followed by the new ones; and copying
    a map (a snapshot, the incoming header, the outgoing call metadata) gives
    the same map in every order. *)
Theorem metadata_merge_any_order dst src (kv : entries) :
  kv ≡ₚ map_to_list src →
  mergeMetadata dst kv = md_union dst src ∧ mergeIn dst kv = md_union dst src ∧
  copy_entries kv = src.
Proof.
  intros Hperm.
  assert (Hnd : NoDup kv.*1) by (rewrite Hperm; apply NoDup_fst_map_to_list).
  assert (Hsrc : (list_to_map kv : Metadata) = src).
  { rewrite (list_to_map_proper kv (map_to_list src)) by done. apply list_to_map_to_list. }
  unfold mergeMetadata, mergeIn. rewrite foldl_merge, copy_entries_list by done.
  by rewrite Hsrc.
Qed.

Theorem metadata_merge_any_order_witness :
  mergeMetadata {["k" := ["a"]]} [("x", ["1"]); ("k", ["b"])] =
    md_union {["k" := ["a"]]} {["k" := ["b"]; "x" := ["1"]]} ∧
  mergeIn {["k" := ["a"]]} [("x", ["1"]); ("k", ["b"])] =
    md_union {["k" := ["a"]]} {["k" := ["b"]; "x" := ["1"]]} ∧
  copy_entries [("x", ["1"]); ("k", ["b"])] = {["k" := ["b"]; "x" := ["1"]]}.
Proof.
  apply metadata_merge_any_order.
  vm_compute. apply perm_swap.
Defined.
