(* ===== verification/RpcServer.v ===== *)
(** * The RPC server (rpc/server.go, rpc/stream.go)

    The registry of methods, the multiplexer of one connection with its
    streams, the server side of a stream, and the transition system in which
    the serve loop and the handler goroutines interleave.

    - A pointer to a stream is an allocation number; [m_heap] is the store, so
      that a handler keeps its stream after the multiplexer has dropped it.
    - A handler is a program ([prog]) over the operations of [*ServerStream];
      its goroutine is an entry of [m_threads].
    - A [select] with several ready cases gives a list of alternatives; an
      empty list is a goroutine that stays blocked.  Operations therefore
      return lists of results, and are executable.
    - [runWriter] writes the frames of [m.out] in order; a frame that [queue]
      hands over successfully is appended to [m_out], the frames on the wire. *)

From Stdlib Require Import Strings.Byte ZArith Lia.
From stdpp Require Import numbers strings gmap fin_maps relations list.
From S2P Require Import Prelude Status Messages Transport Chunks.
Open Scope Z_scope.

(** [make(chan []byte, 16)] in [newServerStream]. *)
Definition inbound_cap : nat := 16.

(** ** Handlers *)

(** What a handler does with its [*ServerStream] before it returns: the
    continuation receives the Go result of the call. *)
Inductive prog : Type :=
  | Return (status : option Status)
  | Recv (k : bytes + error → prog)
  | Send (b : bytes) (k : option error → prog)
  | CallSetHeader (kv : Metadata) (k : prog)
  | CallSetTrailer (kv : Metadata) (k : prog)
  | CallHeader (k : Metadata → prog)      (* Header(), and Trailer(), of the outgoing metadata *)
  | CtxErr (k : option error → prog).

(** The read-only view of a stream: [Method()] and [IncomingHeader()]. *)
Record view : Type := { v_Method : string; v_Incoming : option Metadata }.

Definition IncomingHeader (v : view) : Metadata := copyMetadata (v_Incoming v).

(** A goroutine: running its program, or past the non-blocking check of [Recv]
    and in its second [select]. *)
Inductive thread : Type :=
  | Running (p : prog)
  | InSelect (k : bytes + error → prog).

Section server.
(** The values carried by a context. *)
Context {Vals : Type}.

Abbreviation handler := (@StreamHandler Vals prog view).

Record StreamServerInfo : Type := { info_Method : string; info_Kind : MethodKind }.

Abbreviation interceptor := (@StreamServerInterceptor Vals prog view StreamServerInfo).

Record MethodDesc : Type := { md_Method : string; md_Kind : MethodKind; md_Handler : handler }.

Record ServiceDesc : Type := { sd_ServiceName : string; sd_Methods : list MethodDesc }.

(** Unary server interceptors are stored by an option and read by nothing. *)
Record Server : Type := {
  srv_methods : gmap string MethodDesc;
  srv_streamInterceptors : list interceptor }.

Definition NewServer (is_ : list interceptor) : Server :=
  {| srv_methods := ∅; srv_streamInterceptors := is_ |}.

(** ** Registration *)

Definition method_path (service method : string) : string :=
  "/" +:+ service +:+ "/" +:+ method.

Fixpoint register_loop (service : string) (ms : list MethodDesc)
    (methods : gmap string MethodDesc) : res unit * gmap string MethodDesc :=
  match ms with
  | [] => (Ok tt, methods)
  | m :: ms =>
      let path := method_path service (md_Method m) in
      match methods !! path with
      | Some _ => (Panic ("rpc: duplicate method registration: " +:+ path), methods)
      | None =>
          register_loop service ms
            (<[path := {| md_Method := path; md_Kind := md_Kind m; md_Handler := md_Handler m |}]>
               methods)
      end
  end.

Definition RegisterService (s : Server) (desc : ServiceDesc) : res unit * Server :=
  let '(r, methods) := register_loop (sd_ServiceName desc) (sd_Methods desc) (srv_methods s) in
  (r, {| srv_methods := methods; srv_streamInterceptors := srv_streamInterceptors s |}).

Definition findMethod (s : Server) (path : string) : option MethodDesc := srv_methods s !! path.

(** ** State *)

(** [streamState] and the [ServerStream] it points to. *)
Record stream : Type := {
  ss_seq : Z;
  ss_method : string;
  ss_incoming : option Metadata;
  ss_inbound : list bytes;
  ss_halfClose : bool;
  ss_hdr : Metadata;
  ss_hdrStateSent : bool;         (* ServerStream.hdrState.headerSent *)
  ss_ctx : option error;          (* ctx.Err() of the stream's context *)
  ss_timeout : Z;                 (* context.WithTimeout, 0 for none *)
  st_headerSent : bool            (* streamState.headerSent *)
}.

Definition newServerStream (ctx : option error) (timeout : Z) (method : string) (seq : Z)
    (incoming : option Metadata) : stream :=
  {| ss_seq := seq; ss_method := method; ss_incoming := incoming; ss_inbound := [];
     ss_halfClose := false; ss_hdr := ∅; ss_hdrStateSent := false; ss_ctx := ctx;
     ss_timeout := timeout; st_headerSent := false |}.

Definition with_inbound (q : list bytes) (s : stream) : stream :=
  {| ss_seq := ss_seq s; ss_method := ss_method s; ss_incoming := ss_incoming s; ss_inbound := q;
     ss_halfClose := ss_halfClose s; ss_hdr := ss_hdr s; ss_hdrStateSent := ss_hdrStateSent s;
     ss_ctx := ss_ctx s; ss_timeout := ss_timeout s; st_headerSent := st_headerSent s |}.
Definition with_halfClose (s : stream) : stream :=
  {| ss_seq := ss_seq s; ss_method := ss_method s; ss_incoming := ss_incoming s;
     ss_inbound := ss_inbound s; ss_halfClose := true; ss_hdr := ss_hdr s;
     ss_hdrStateSent := ss_hdrStateSent s; ss_ctx := ss_ctx s; ss_timeout := ss_timeout s;
     st_headerSent := st_headerSent s |}.
Definition with_hdr (md : Metadata) (s : stream) : stream :=
  {| ss_seq := ss_seq s; ss_method := ss_method s; ss_incoming := ss_incoming s;
     ss_inbound := ss_inbound s; ss_halfClose := ss_halfClose s; ss_hdr := md;
     ss_hdrStateSent := ss_hdrStateSent s; ss_ctx := ss_ctx s; ss_timeout := ss_timeout s;
     st_headerSent := st_headerSent s |}.
Definition with_headerSent (s : stream) : stream :=
  {| ss_seq := ss_seq s; ss_method := ss_method s; ss_incoming := ss_incoming s;
     ss_inbound := ss_inbound s; ss_halfClose := ss_halfClose s; ss_hdr := ss_hdr s;
     ss_hdrStateSent := ss_hdrStateSent s; ss_ctx := ss_ctx s; ss_timeout := ss_timeout s;
     st_headerSent := true |}.
(** Cancelling a context: the first error wins. *)
Definition cancel_ctx (e : error) (s : stream) : stream :=
  {| ss_seq := ss_seq s; ss_method := ss_method s; ss_incoming := ss_incoming s;
     ss_inbound := ss_inbound s; ss_halfClose := ss_halfClose s; ss_hdr := ss_hdr s;
     ss_hdrStateSent := ss_hdrStateSent s;
     ss_ctx := match ss_ctx s with Some e0 => Some e0 | None => Some e end;
     ss_timeout := ss_timeout s; st_headerSent := st_headerSent s |}.

Record mux : Type := {
  m_ctx : option error;           (* ctx.Err() of Serve's context *)
  m_done : bool;                  (* closed by shutdown *)
  m_streams : gmap Z nat;
  m_heap : gmap nat stream;
  m_next : nat;
  m_threads : gmap nat thread;    (* the handler goroutine of each stream *)
  m_reasm : Reassembler.state;    (* ch.reasm *)
  m_out : list ResponseFrame      (* the frames runWriter has written *)
}.

Definition newMultiplexer : mux :=
  {| m_ctx := None; m_done := false; m_streams := ∅; m_heap := ∅; m_next := 0;
     m_threads := ∅; m_reasm := Reassembler.NewReassembler; m_out := [] |}.

Definition set_streams (ss : gmap Z nat) (m : mux) : mux :=
  {| m_ctx := m_ctx m; m_done := m_done m; m_streams := ss; m_heap := m_heap m;
     m_next := m_next m; m_threads := m_threads m; m_reasm := m_reasm m; m_out := m_out m |}.
Definition set_heap (h : gmap nat stream) (m : mux) : mux :=
  {| m_ctx := m_ctx m; m_done := m_done m; m_streams := m_streams m; m_heap := h;
     m_next := m_next m; m_threads := m_threads m; m_reasm := m_reasm m; m_out := m_out m |}.
Definition set_threads (ts : gmap nat thread) (m : mux) : mux :=
  {| m_ctx := m_ctx m; m_done := m_done m; m_streams := m_streams m; m_heap := m_heap m;
     m_next := m_next m; m_threads := ts; m_reasm := m_reasm m; m_out := m_out m |}.
Definition set_reasm (r : Reassembler.state) (m : mux) : mux :=
  {| m_ctx := m_ctx m; m_done := m_done m; m_streams := m_streams m; m_heap := m_heap m;
     m_next := m_next m; m_threads := m_threads m; m_reasm := r; m_out := m_out m |}.
Definition write_out (f : ResponseFrame) (m : mux) : mux :=
  {| m_ctx := m_ctx m; m_done := m_done m; m_streams := m_streams m; m_heap := m_heap m;
     m_next := m_next m; m_threads := m_threads m; m_reasm := m_reasm m; m_out := m_out m ++ [f] |}.

Definition update (l : nat) (f : stream → stream) (m : mux) : mux :=
  set_heap (alter f l (m_heap m)) m.

(** ** The outbound queue *)

(** How a call that writes ends: nil, an error, or not at all (the frame
    was accepted by [m.out] after the writer had exited, and nothing will
    ever close its [done] channel). *)
Inductive qres : Type := QNil | QErr (e : error) | QStuck.

(** The alternatives of [queue] and [runWriter] for one frame.  While the
    connection is up the writer takes it.  Once [m.done] is closed or the
    context is done, the selects of both goroutines may go either way. *)
Definition queue (f : ResponseFrame) (m : mux) : list (qres * mux) :=
  (QNil, write_out f m) ::
  (if m_done m then [(QErr ErrClosedPipe, m)] else []) ++
  (match m_ctx m with Some e => [(QErr e, m); (QErr e, write_out f m)] | None => [] end) ++
  (if m_done m then match m_ctx m with None => [(QStuck, m)] | Some _ => [] end else []).

Definition lookupStream (seq : Z) (m : mux) : option nat := m_streams m !! seq.

Definition mkBegin (seq : Z) (hdr : Metadata) : ResponseFrame :=
  {| rf_Routing := Some {| Sequence := int32 seq |};
     rf_Type := Some (ResponseFrame_Begin
       (Some {| begin_Header := Some hdr; begin_InlineData := None |})) |}.

Definition mkData (seq : Z) (c : Content) : ResponseFrame :=
  {| rf_Routing := Some {| Sequence := int32 seq |};
     rf_Type := Some (ResponseFrame_Data (Some {| data_Content := Some c |})) |}.

Definition mkEnd (seq : Z) (e : End) : ResponseFrame :=
  {| rf_Routing := Some {| Sequence := int32 seq |};
     rf_Type := Some (ResponseFrame_End (Some e)) |}.

(** [flushBeginOnce(s)] for the stream at [l]; the multiplexer is asked for
    the stream by sequence number. *)
Definition flushBeginOnce (l : nat) (m : mux) : list (qres * mux) :=
  match m_heap m !! l with
  | None => []
  | Some s =>
      match lookupStream (ss_seq s) m with
      | None => [(QErr ErrClosedPipe, m)]
      | Some l' =>
          let firstSend := match m_heap m !! l' with
                           | Some st => negb (st_headerSent st) | None => false end in
          let m := update l' with_headerSent m in
          if firstSend then queue (mkBegin (ss_seq s) (Snapshot (ss_hdr s))) m
          else [(QNil, m)]
      end
  end.

(** The loop over the chunks of a large message. *)
Fixpoint send_chunks (seq total : Z) (cs : list chunk) (m : mux) : list (qres * mux) :=
  match cs with
  | [] => [(QNil, m)]
  | c :: cs =>
      '(r, m) ← queue (mkData seq (Data_Chunk
                   {| TotalSize := total; Offset := int32 c.1; chunk_Data := c.2 |})) m;
      match r with
      | QNil => send_chunks seq total cs m
      | _ => [(r, m)]
      end
  end.

(** [(s *ServerStream) Send(b)]. *)
Definition stream_Send (l : nat) (b : bytes) (m : mux) : list (qres * mux) :=
  match m_heap m !! l with
  | None => []
  | Some s =>
      '(r, m) ← flushBeginOnce l m;
      match r with
      | QNil =>
          if len b <=? MessageMax then queue (mkData (ss_seq s) (Data_Message b)) m
          else send_chunks (ss_seq s) (int32 (len b)) (fragment ChunkSize b) m
      | _ => [(r, m)]
      end
  end.

(** [endStream(seq, end)]: errors of the two [queue] calls are dropped. *)
Definition endStream (seq : Z) (end_ : End) (m : mux) : list (qres * mux) :=
  '(r, m) ←
    (match lookupStream seq m with
     | Some l =>
         match m_heap m !! l with
         | Some st =>
             let m := update l with_headerSent m in
             if negb (st_headerSent st)
             then queue (mkBegin seq (Snapshot (ss_hdr st))) m
             else [(QNil, m)]
         | None => [(QNil, m)]
         end
     | None => [(QNil, m)]
     end);
  match r with
  | QStuck => [(QStuck, m)]
  | _ =>
      let m := set_streams (delete seq (m_streams m)) m in
      '(r, m) ← queue (mkEnd seq end_) m;
      [(match r with QStuck => QStuck | _ => QNil end, m)]
  end.

(** ** Inbound frames *)

Definition status_end (code : Z) (msg : string) : End :=
  {| end_CloseSend := false; end_Status := Some {| pb_Code := code; pb_Message := msg |};
     end_Trailer := None |}.

(** The program [runHandler] runs: the interceptor chain around the handler. *)
Definition handler_prog (srv : Server) (vals : Vals) (md : MethodDesc) (v : view) : prog :=
  let info := {| info_Method := md_Method md; info_Kind := md_Kind md |} in
  chainStreamServer (srv_streamInterceptors srv) info (md_Handler md) vals v.

(** Registering a new stream, and [go m.runHandler(seq, state)]. *)
Definition add_stream (seq : Z) (s : stream) (m : mux) : mux :=
  {| m_ctx := m_ctx m; m_done := m_done m; m_streams := <[seq := m_next m]> (m_streams m);
     m_heap := <[m_next m := s]> (m_heap m); m_next := S (m_next m);
     m_threads := m_threads m; m_reasm := m_reasm m; m_out := m_out m |}.

Definition set_thread (l : nat) (t : thread) (m : mux) : mux :=
  set_threads (<[l := t]> (m_threads m)) m.

Definition openStream (srv : Server) (vals : Vals) (seq : Z) (call : option Call) (m : mux)
    : list (qres * mux) :=
  match call with
  | None => endStream seq (status_end 13 "rpc: nil Call") m
  | Some call =>
      match findMethod srv (call_Method call) with
      | None => endStream seq (status_end 12 ("rpc: unimplemented method: " +:+ call_Method call)) m
      | Some md =>
          let timeout := if 0 <? call_DeadlineMs call then durationFromMs (call_DeadlineMs call) else 0 in
          let s := newServerStream (m_ctx m) timeout (call_Method call) seq (call_Metadata call) in
          match lookupStream seq m with
          | Some _ => endStream seq (status_end 13 "rpc: duplicate sequence") m
          | None =>
              let l := m_next m in
              let m := add_stream seq s m in
              m ← (match call_InlineData call with
                   | Some d => update l (with_inbound [d]) m ::
                               (match ss_ctx s with Some _ => [m] | None => [] end)
                   | None => [m]
                   end);
              [(QNil, set_thread l (Running (handler_prog srv vals md
                 {| v_Method := call_Method call; v_Incoming := call_Metadata call |})) m)]
          end
      end
  end.

(** How the handling of a frame, or a step of a goroutine, ends. *)
Inductive fres : Type := FHandled | FPanic (msg : string) | FStuck.

Definition deliverPayload (seq : Z) (payload : bytes) (m : mux) : list mux :=
  match lookupStream seq m with
  | None => [m]
  | Some l =>
      match m_heap m !! l with
      | None => []
      | Some s =>
          (if decide (length (ss_inbound s) < inbound_cap)%nat
           then [update l (with_inbound (ss_inbound s ++ [payload])) m] else []) ++
          (match ss_ctx s with Some _ => [m] | None => [] end)
      end
  end.

Definition deliverData (seq : Z) (data : option Data) (m : mux) : list (fres * mux) :=
  match data with
  | None => [(FHandled, m)]
  | Some d =>
      match data_Content d with
      | None => [(FHandled, m)]
      | Some (Data_Message msg) => pair FHandled <$> deliverPayload seq msg m
      | Some (Data_Chunk c) =>
          let '(o, r) := Reassembler.Reassemble (m_reasm m) (int32 seq) (TotalSize c) (Offset c)
                           (chunk_Data c) in
          let m := set_reasm r m in
          match o with
          | Ok (Some full) => pair FHandled <$> deliverPayload seq full m
          | Ok None => [(FHandled, m)]
          | Fail e => [(FPanic (error_string e), m)]
          | Panic s => [(FPanic s, m)]
          end
      end
  end.

Definition handleEnd (seq : Z) (end_ : option End) (m : mux) : mux :=
  match end_ with
  | None => m
  | Some e =>
      match lookupStream seq m with
      | None => m
      | Some l =>
          if end_CloseSend e then update l with_halfClose m
          else
            let m := update l (cancel_ctx Canceled) m in
            set_streams (delete seq (m_streams m)) m
      end
  end.

Definition handleFrame (srv : Server) (vals : Vals) (f : Frame) (m : mux) : list (fres * mux) :=
  let seq := routing_seq (f_Routing f) in
  match f_Type f with
  | Some (Frame_Call call) =>
      '(r, m) ← openStream srv vals seq call m;
      [(match r with QStuck => FStuck | _ => FHandled end, m)]
  | Some (Frame_Data data) => deliverData seq data m
  | Some (Frame_End e) => [(FHandled, handleEnd seq e m)]
  | None => [(FHandled, m)]
  end.

(** ** The serve loop *)

Definition isClosed (err : error) : bool :=
  bool_decide (err = EOF) || bool_decide (err = ErrClosedPipe).

Definition shutdown (m : mux) : mux :=
  {| m_ctx := m_ctx m; m_done := true; m_streams := m_streams m; m_heap := m_heap m;
     m_next := m_next m; m_threads := m_threads m; m_reasm := m_reasm m; m_out := m_out m |}.

(** One iteration of [Serve], given what [ch.Recv] returned. *)
Inductive sres : Type :=
  | Continue
  | Returned (err : option error)
  | Crashed (msg : string)
  | Hung.

Definition serve_iter `{Codec Frame} (srv : Server) (vals : Vals) (r : res bytes) (m : mux)
    : list (sres * mux) :=
  match r with
  | Fail err =>
      [(Returned (if bool_decide (err = EOF) || isClosed err then None else Some err), shutdown m)]
  | Panic s => [(Crashed s, m)]
  | Ok raw =>
      match unmarshal raw with
      | None => [(Continue, m)]
      | Some frame =>
          '(r, m) ← handleFrame srv vals frame m;
          [(match r with FHandled => Continue | FPanic s => Crashed s | FStuck => Hung end, m)]
      end
  end.

(** ** Handler goroutines *)

(** [(s *ServerStream) SetHeader(kv)]: [None] is the panic. *)
Definition stream_SetHeader (kv : Metadata) (s : stream) : option stream :=
  if ss_hdrStateSent s then None else Some (with_hdr (SetHeader (ss_hdr s) kv) s).

Definition stream_SetTrailer (kv : Metadata) (s : stream) : stream :=
  with_hdr (SetTrailer (ss_hdr s) kv) s.

(** [Header()], which is also what [Trailer()] returns. *)
Definition stream_Header (s : stream) : Metadata := copyMetadata (Some (ss_hdr s)).

(** What [runHandler] does once the handler has returned. *)
Definition finish (l : nat) (s : stream) (status : option Status) (m : mux) : list (fres * mux) :=
  let end_ := {| end_CloseSend := false; end_Status := Some (toProto status);
                 end_Trailer := Some (Snapshot (ss_hdr s)) |} in
  '(r, m) ← endStream (ss_seq s) end_ m;
  let m' := set_threads (delete l (m_threads m)) m in
  [(FHandled, match r with QStuck => m' | _ => update l (cancel_ctx Canceled) m' end)].

(** One step of the goroutine of the stream at [l].  A goroutine stuck in
    [queue] leaves the pool: it never takes another step. *)
Definition handler_step (l : nat) (m : mux) : list (fres * mux) :=
  match m_threads m !! l, m_heap m !! l with
  | Some (Running p), Some s =>
      match p with
      | Return status => finish l s status m
      | Recv k =>
          match ss_inbound s with
          | b :: q => [(FHandled, set_thread l (Running (k (inl b))) (update l (with_inbound q) m))]
          | [] => [(FHandled, set_thread l (InSelect k) m)]
          end
      | Send b k =>
          '(r, m) ← stream_Send l b m;
          [(FHandled,
            match r with
            | QNil => set_thread l (Running (k None)) m
            | QErr e => set_thread l (Running (k (Some e))) m
            | QStuck => set_threads (delete l (m_threads m)) m
            end)]
      | CallSetHeader kv k =>
          match stream_SetHeader kv s with
          | None => [(FPanic "rpc: SetHeader called after header was already sent", m)]
          | Some s' => [(FHandled, set_thread l (Running k) (update l (λ _, s') m))]
          end
      | CallSetTrailer kv k =>
          [(FHandled, set_thread l (Running k) (update l (stream_SetTrailer kv) m))]
      | CallHeader k => [(FHandled, set_thread l (Running (k (stream_Header s))) m)]
      | CtxErr k => [(FHandled, set_thread l (Running (k (ss_ctx s))) m)]
      end
  | Some (InSelect k), Some s =>
      (match ss_inbound s with
       | b :: q => [(FHandled, set_thread l (Running (k (inl b))) (update l (with_inbound q) m))]
       | [] => []
       end) ++
      (if ss_halfClose s then [(FHandled, set_thread l (Running (k (inr EOF))) m)] else []) ++
      (match ss_ctx s with
       | Some e => [(FHandled, set_thread l (Running (k (inr e))) m)]
       | None => []
       end)
  | _, _ => []
  end.

(** ** The transition system *)

(** The sequence number a frame opens. *)
Definition opened (f : Frame) : gset Z :=
  match f_Type f with Some (Frame_Call _) => {[routing_seq (f_Routing f)]} | _ => ∅ end.

(** The field is an int32. *)
Definition frame_seq_ok (f : Frame) : Prop :=
  int32 (routing_seq (f_Routing f)) = routing_seq (f_Routing f).

Definition cancel_all (e : error) (m : mux) : mux :=
  {| m_ctx := Some e; m_done := m_done m; m_streams := m_streams m;
     m_heap := cancel_ctx e <$> m_heap m; m_next := m_next m; m_threads := m_threads m;
     m_reasm := m_reasm m; m_out := m_out m |}.

(** States carry the sequence numbers of the calls received so far.  With
    [fresh], only clients that never reuse a sequence number are considered. *)
Inductive step (fresh : Prop) (srv : Server) (vals : Vals) : mux * gset Z → mux * gset Z → Prop :=
  | step_frame f m m' used :
      m_done m = false → frame_seq_ok f → (fresh → opened f ## used) →
      (FHandled, m') ∈ handleFrame srv vals f m →
      step fresh srv vals (m, used) (m', opened f ∪ used)
  | step_handler l m m' used :
      (FHandled, m') ∈ handler_step l m → step fresh srv vals (m, used) (m', used)
  | step_deadline l s m used :
      m_heap m !! l = Some s → 0 < ss_timeout s →
      step fresh srv vals (m, used) (update l (cancel_ctx DeadlineExceeded) m, used)
  | step_cancel e m used :
      m_ctx m = None → step fresh srv vals (m, used) (cancel_all e m, used)
  | step_shutdown m used :
      step fresh srv vals (m, used) (shutdown m, used).

Definition reachable (fresh : Prop) (srv : Server) (vals : Vals) (s : mux * gset Z) : Prop :=
  rtc (step fresh srv vals) (newMultiplexer, ∅) s.

(** The connection is up: [Serve] is running and its context is not done. *)
Definition up (m : mux) : Prop := m_done m = false ∧ m_ctx m = None.
End server.
