(* ===== verification/RpcServerRun.v ===== *)
(** * Running the server's transition system

    Explicit schedules for [RpcServer.step]: an event names the rule and which
    of its alternatives is taken, and [exec] runs a list of events.  Every
    execution is a sequence of steps ([exec_steps]), so a concrete schedule
    gives a reachable state by evaluation. *)

From Stdlib Require Import Strings.Byte ZArith Lia.
From stdpp Require Import numbers strings gmap fin_maps relations list.
From S2P Require Import Prelude Status Messages Transport Chunks RpcServer.
Open Scope Z_scope.

Inductive event : Type :=
  | EFrame (f : Frame) (alt : nat)
  | EHandler (l : nat) (alt : nat)
  | EDeadline (l : nat)
  | ECancel (e : error)
  | EShutdown.

Definition nth_handled (rs : list (fres * mux)) (alt : nat) : option mux :=
  match rs !! alt with Some (FHandled, m) => Some m | _ => None end.

Section run.
Context {Vals : Type} (srv : @Server Vals) (vals : Vals).

Definition exec1 (strict : bool) (ev : event) (s : mux * gset Z) : option (mux * gset Z) :=
  let '(m, used) := s in
  match ev with
  | EFrame f alt =>
      if m_done m then None
      else if negb (int32 (routing_seq (f_Routing f)) =? routing_seq (f_Routing f)) then None
      else if strict && negb (bool_decide (opened f ## used)) then None
      else m' ← nth_handled (handleFrame srv vals f m) alt; Some (m', opened f ∪ used)
  | EHandler l alt => m' ← nth_handled (handler_step l m) alt; Some (m', used)
  | EDeadline l =>
      s ← m_heap m !! l;
      if 0 <? ss_timeout s then Some (update l (cancel_ctx DeadlineExceeded) m, used) else None
  | ECancel e => match m_ctx m with None => Some (cancel_all e m, used) | Some _ => None end
  | EShutdown => Some (shutdown m, used)
  end.

Fixpoint exec (strict : bool) (evs : list event) (s : mux * gset Z) : option (mux * gset Z) :=
  match evs with
  | [] => Some s
  | ev :: evs => s ← exec1 strict ev s; exec strict evs s
  end.

Lemma nth_handled_elem rs alt m : nth_handled rs alt = Some m → (FHandled, m) ∈ rs.
Proof.
  unfold nth_handled. destruct (rs !! alt) as [[[| |] m']|] eqn:H; try done.
  intros [= ->]. by eapply list_elem_of_lookup_2.
Qed.

Lemma exec1_step (fresh : Prop) strict ev s s' :
  (fresh → strict = true) → exec1 strict ev s = Some s' → step fresh srv vals s s'.
Proof.
  intros Hf. destruct s as [m used], ev as [f alt|l alt|l|e|]; cbn [exec1].
  - destruct (m_done m) eqn:Hd; [done|]. destruct (_ =? _) eqn:Hs; [|done]. cbn [negb].
    destruct (strict && _) eqn:Hst; [done|].
    intros (m' & Hm & [= <-])%bind_Some. apply nth_handled_elem in Hm.
    eapply step_frame; [done|by apply Z.eqb_eq|intros Hfr|done].
    rewrite Hf in Hst by done. cbn in Hst. by apply negb_false_iff, bool_decide_eq_true in Hst.
  - intros (m' & Hm & [= <-])%bind_Some. apply nth_handled_elem in Hm. by eapply step_handler.
  - intros (st & Hst & H)%bind_Some. destruct (0 <? ss_timeout st) eqn:Ht; [|done].
    injection H as <-. eapply step_deadline; [done|lia].
  - destruct (m_ctx m) eqn:Hc; [done|]. intros [= <-]. by apply step_cancel.
  - intros [= <-]. apply step_shutdown.
Qed.

Lemma exec_steps (fresh : Prop) strict evs s s' :
  (fresh → strict = true) → exec strict evs s = Some s' → rtc (step fresh srv vals) s s'.
Proof.
  intros Hf. revert s. induction evs as [|ev evs IH]; intros s; cbn [exec].
  - by intros [= ->].
  - intros (s1 & H1 & H)%bind_Some. eapply rtc_l; [by eapply exec1_step|by apply IH].
Qed.
End run.

(** ** A small service for the examples

    [/demo/Echo] reads one message, sends it back, sets a header after that and
    returns OK. *)

Definition str_bytes (s : string) : bytes := String.list_byte_of_string s.

Definition demo_md (k v : string) : Metadata := {[ k := [v] ]}.

Definition echo_handler : @StreamHandler unit prog view := λ _ _,
  Recv (λ r, match r with
             | inl b => Send b (λ _, CallSetHeader (demo_md "late" "h") (Return (Some OK)))
             | inr _ => Return (Some (Err 13 (Some (ErrorString "no message"))))
             end).

Definition demo_desc : @ServiceDesc unit :=
  {| sd_ServiceName := "demo";
     sd_Methods := [ {| md_Method := "Echo"; md_Kind := MethodKindUnary; md_Handler := echo_handler |} ] |}.

Definition demo_srv : @Server unit := (RegisterService (NewServer []) demo_desc).2.

Definition call_frame (seq : Z) (method : string) (inline : option bytes) : Frame :=
  {| f_Routing := Some {| Sequence := seq |};
     f_Type := Some (Frame_Call (Some
       {| call_Method := method; call_Metadata := None; call_DeadlineMs := 0;
          call_InlineData := inline; call_ProtocolVersion := 1 |})) |}.

Definition data_frame (seq : Z) (b : bytes) : Frame :=
  {| f_Routing := Some {| Sequence := seq |};
     f_Type := Some (Frame_Data (Some {| data_Content := Some (Data_Message b) |})) |}.

Definition close_frame (seq : Z) (close_send : bool) : Frame :=
  {| f_Routing := Some {| Sequence := seq |};
     f_Type := Some (Frame_End (Some
       {| end_CloseSend := close_send; end_Status := None; end_Trailer := None |})) |}.

(** An echo call to its end. *)
Definition echo_run : list event :=
  EFrame (call_frame 3 "/demo/Echo" (Some (str_bytes "hi"))) 0 :: replicate 4 (EHandler 0 0).

(** Sixteen messages for a handler that has not received any. *)
Definition full_run : list event :=
  EFrame (call_frame 3 "/demo/Echo" None) 0 ::
  replicate 16 (EFrame (data_frame 3 (str_bytes "x")) 0).

(** The state a schedule ends in. *)
Definition run_demo (strict : bool) (evs : list event) : mux * gset Z :=
  default (newMultiplexer, ∅) (exec demo_srv tt strict evs (newMultiplexer, ∅)).

Lemma run_demo_reachable strict (fresh : Prop) evs :
  (fresh → strict = true) → exec demo_srv tt strict evs (newMultiplexer, ∅) ≠ None →
  reachable fresh demo_srv tt ((run_demo strict evs).1, (run_demo strict evs).2).
Proof.
  rewrite <- surjective_pairing.
  intros Hf Hne. unfold run_demo, reachable.
  destruct (exec _ _ _ _ _) as [s|] eqn:He; [|done]. cbn. by eapply exec_steps.
Qed.
