(* ===== verification/RpcServerSafety.v ===== *)
(** * The server's output protocol

    What the multiplexer writes for one sequence number, over every
    interleaving of the serve loop and the handler goroutines. *)

From Stdlib Require Import Strings.Byte ZArith Lia.
From stdpp Require Import numbers strings gmap fin_maps relations list.
From S2P Require Import Prelude Status Messages Transport Chunks RpcServer RpcServerRun.
Open Scope Z_scope.

(** ** The language of one sequence: nothing, [End], or [Begin Data*] with an
    optional [End] *)

Inductive phase : Type := PIdle | PBegun | PEnded.

#[export] Instance phase_eq_dec : EqDecision phase.
Proof. solve_decision. Defined.

Definition advance (p : option phase) (t : option ResponseType) : option phase :=
  match p, t with
  | Some PIdle, Some (ResponseFrame_Begin _) => Some PBegun
  | Some PIdle, Some (ResponseFrame_End _) => Some PEnded
  | Some PBegun, Some (ResponseFrame_Data _) => Some PBegun
  | Some PBegun, Some (ResponseFrame_End _) => Some PEnded
  | _, _ => None
  end.

Definition rf_seq (f : ResponseFrame) : Z := routing_seq (rf_Routing f).

(** The frames of one sequence, in wire order. *)
Definition frames_of (seq : Z) (out : list ResponseFrame) : list ResponseFrame :=
  filter (λ f, rf_seq f = seq) out.

Definition phase_of (seq : Z) (out : list ResponseFrame) : option phase :=
  foldl advance (Some PIdle) (map rf_Type (frames_of seq out)).

#[global] Arguments frames_of : simpl never.
#[global] Arguments phase_of : simpl never.

Lemma frames_of_app seq out fs : frames_of seq (out ++ fs) = frames_of seq out ++ frames_of seq fs.
Proof. apply filter_app. Qed.

Lemma phase_of_app seq out fs :
  phase_of seq (out ++ fs) = foldl advance (phase_of seq out) (map rf_Type (frames_of seq fs)).
Proof. unfold phase_of. by rewrite frames_of_app, map_app, foldl_app. Qed.

Lemma frames_of_all seq fs : Forall (λ f, rf_seq f = seq) fs → frames_of seq fs = fs.
Proof.
  unfold frames_of. induction 1 as [|f fs Hf _ IH]; [done|].
  rewrite filter_cons_True by done. by rewrite IH.
Qed.

Lemma frames_of_none seq seq' fs :
  seq ≠ seq' → Forall (λ f, rf_seq f = seq') fs → frames_of seq fs = [].
Proof.
  unfold frames_of. intros Hne. induction 1 as [|f fs Hf _ IH]; [done|].
  rewrite filter_cons_False by congruence. done.
Qed.

(** Appending the frames of one sequence. *)
Definition write_outs (fs : list ResponseFrame) (m : mux) : mux :=
  foldl (λ m f, write_out f m) m fs.

(** ** What the operations do while the connection is up *)

Lemma bind_one {A B} (a : A) (f : A → list B) : ([a] ≫= f) = f a.
Proof. apply app_nil_r. Qed.

(** [write_outs] changes nothing but the output. *)
Lemma write_outs_spec fs m :
  write_outs fs m =
  {| m_ctx := m_ctx m; m_done := m_done m; m_streams := m_streams m; m_heap := m_heap m;
     m_next := m_next m; m_threads := m_threads m; m_reasm := m_reasm m; m_out := m_out m ++ fs |}.
Proof.
  revert m. unfold write_outs. induction fs as [|f fs IH]; intros m; cbn [foldl].
  - rewrite app_nil_r. by destruct m.
  - rewrite IH. unfold write_out; cbn. by rewrite <- app_assoc.
Qed.

Lemma write_outs_cons f fs m : write_outs fs (write_out f m) = write_outs (f :: fs) m.
Proof. done. Qed.

Lemma write_outs_up fs m : up m → up (write_outs fs m).
Proof. rewrite write_outs_spec. done. Qed.

Lemma queue_up f m : up m → queue f m = [(QNil, write_out f m)].
Proof. intros [Hd Hc]. unfold queue. by rewrite Hd, Hc. Qed.

(** The frames of a message. *)
Definition data_frames (seq : Z) (b : bytes) : list ResponseFrame :=
  if len b <=? MessageMax then [mkData seq (Data_Message b)]
  else map (λ c, mkData seq (Data_Chunk
              {| TotalSize := int32 (len b); Offset := int32 c.1; chunk_Data := c.2 |}))
           (fragment ChunkSize b).

Definition begin_frames (seq : Z) (s : stream) : list ResponseFrame :=
  if st_headerSent s then [] else [mkBegin seq (Snapshot (ss_hdr s))].

Lemma send_chunks_up seq total cs m :
  up m →
  send_chunks seq total cs m =
  [(QNil, write_outs (map (λ c, mkData seq (Data_Chunk
      {| TotalSize := total; Offset := int32 c.1; chunk_Data := c.2 |})) cs) m)].
Proof.
  revert m. induction cs as [|c cs IH]; intros m Hup; cbn [send_chunks map]; [done|].
  rewrite queue_up, bind_one by done. rewrite IH by done. by rewrite write_outs_cons.
Qed.

Lemma flushBeginOnce_up l s m :
  up m → m_heap m !! l = Some s → lookupStream (ss_seq s) m = Some l →
  flushBeginOnce l m = [(QNil, write_outs (begin_frames (ss_seq s) s) (update l with_headerSent m))].
Proof.
  intros Hup Hs Hl. unfold flushBeginOnce, begin_frames. rewrite Hs, Hl, Hs.
  destruct (st_headerSent s); cbn [negb]; [done|]. by rewrite queue_up.
Qed.

Lemma stream_Send_up l s b m :
  up m → m_heap m !! l = Some s → lookupStream (ss_seq s) m = Some l →
  stream_Send l b m =
  [(QNil, write_outs (begin_frames (ss_seq s) s ++ data_frames (ss_seq s) b)
            (update l with_headerSent m))].
Proof.
  intros Hup Hs Hl. unfold stream_Send. rewrite Hs.
  rewrite flushBeginOnce_up with (s := s), bind_one by done.
  assert (up (write_outs (begin_frames (ss_seq s) s) (update l with_headerSent m)))
    as Hup' by by apply write_outs_up.
  unfold data_frames. destruct (_ <=? _).
  - rewrite queue_up by done. by rewrite !write_outs_spec; unfold write_out; cbn; rewrite <- app_assoc.
  - rewrite send_chunks_up by done. by rewrite !write_outs_spec; cbn; rewrite <- app_assoc.
Qed.

Lemma stream_Send_gone l s b m :
  m_heap m !! l = Some s → lookupStream (ss_seq s) m = None →
  stream_Send l b m = [(QErr ErrClosedPipe, m)].
Proof.
  intros Hs Hl. unfold stream_Send, flushBeginOnce. by rewrite Hs, Hl, bind_one.
Qed.

Lemma endStream_up_none seq e m :
  up m → lookupStream seq m = None →
  endStream seq e m = [(QNil, write_out (mkEnd seq e) m)].
Proof.
  intros Hup Hl. unfold endStream. rewrite Hl, bind_one.
  unfold lookupStream in Hl. rewrite delete_id by done.
  replace (set_streams (m_streams m) m) with m by by destruct m.
  by rewrite queue_up, bind_one.
Qed.

Lemma endStream_up_some seq e l s m :
  up m → lookupStream seq m = Some l → m_heap m !! l = Some s →
  endStream seq e m =
  [(QNil, write_outs (begin_frames seq s ++ [mkEnd seq e])
            (set_streams (delete seq (m_streams m)) (update l with_headerSent m)))].
Proof.
  intros Hup Hl Hs. unfold endStream, begin_frames. rewrite Hl, Hs.
  destruct (st_headerSent s); cbn [negb].
  - rewrite bind_one. cbv iota. rewrite queue_up, bind_one by done. done.
  - rewrite queue_up, bind_one by done. cbv iota. rewrite queue_up, bind_one by done. done.
Qed.

(** ** The frames an operation writes, in the language of its sequence *)

Lemma rf_seq_mk seq :
  int32 seq = seq →
  (∀ h, rf_seq (mkBegin seq h) = seq) ∧ (∀ c, rf_seq (mkData seq c) = seq) ∧
  (∀ e, rf_seq (mkEnd seq e) = seq).
Proof. intros H. unfold rf_seq; repeat split; intros; exact H. Qed.

Lemma data_frames_seq seq b : int32 seq = seq → Forall (λ f, rf_seq f = seq) (data_frames seq b).
Proof.
  intros H. destruct (rf_seq_mk seq H) as (_ & Hd & _). unfold data_frames.
  destruct (_ <=? _); [by repeat constructor|].
  apply Forall_map, Forall_true. intros c. apply Hd.
Qed.

Lemma begin_frames_seq seq s : int32 seq = seq → Forall (λ f, rf_seq f = seq) (begin_frames seq s).
Proof.
  intros H. unfold begin_frames. destruct (st_headerSent s); [done|].
  by repeat constructor; apply rf_seq_mk.
Qed.

Lemma data_frames_advance seq b :
  foldl advance (Some PBegun) (map rf_Type (data_frames seq b)) = Some PBegun.
Proof.
  unfold data_frames. destruct (_ <=? _); [done|].
  induction (fragment ChunkSize b) as [|c cs IH]; [done|]. exact IH.
Qed.

(** The phase of a stream whose handler is alive. *)
Definition live_phase (s : stream) : phase := if st_headerSent s then PBegun else PIdle.

Lemma begin_frames_advance seq s :
  foldl advance (Some (live_phase s)) (map rf_Type (begin_frames seq s)) = Some PBegun.
Proof. unfold live_phase, begin_frames. by destruct (st_headerSent s). Qed.

(** ** The invariant of an up connection with a client that never reuses a
    sequence number *)

Definition stream_phase (m : mux) (l : nat) (s : stream) : phase :=
  match m_threads m !! l with Some _ => live_phase s | None => PEnded end.

Record Inv (m : mux) (used : gset Z) : Prop := {
  inv_streams q l :
    m_streams m !! q = Some l →
    is_Some (m_threads m !! l) ∧ ∃ s, m_heap m !! l = Some s ∧ ss_seq s = q;
  inv_heap l s :
    m_heap m !! l = Some s → (l < m_next m)%nat ∧ ss_seq s ∈ used ∧ int32 (ss_seq s) = ss_seq s;
  inv_inj l1 l2 s1 s2 :
    m_heap m !! l1 = Some s1 → m_heap m !! l2 = Some s2 → ss_seq s1 = ss_seq s2 → l1 = l2;
  inv_threads l : is_Some (m_threads m !! l) → is_Some (m_heap m !! l);
  inv_phase l s :
    m_heap m !! l = Some s → phase_of (ss_seq s) (m_out m) = Some (stream_phase m l s);
  inv_rejected q :
    q ∈ used → (∀ l s, m_heap m !! l = Some s → ss_seq s ≠ q) →
    phase_of q (m_out m) = Some PEnded;
  inv_unused q : q ∉ used → frames_of q (m_out m) = []
}.

Lemma Inv_init : Inv newMultiplexer ∅.
Proof.
  split; unfold newMultiplexer; cbn; try (intros *; rewrite !lookup_empty); try done.
Qed.

Lemma alter_Some {A} (f : A → A) (l : nat) (h : gmap nat A) x :
  h !! l = Some x → alter f l h = <[l := f x]> h.
Proof.
  intros H. apply map_eq. intros l'. destruct (decide (l = l')) as [->|Hne].
  - by rewrite lookup_alter, lookup_insert, !decide_True, H by done.
  - by rewrite lookup_alter_ne, lookup_insert_ne by done.
Qed.

(** A transition that concerns the stream at [l] only: its record and its
    goroutine change, it writes frames of its own sequence, and the map of
    streams may lose entries. *)
Lemma Inv_change l s s' fs m m' used :
  m_heap m !! l = Some s → ss_seq s' = ss_seq s →
  m_heap m' = <[l := s']> (m_heap m) → m_next m' = m_next m →
  (∀ l', l' ≠ l → m_threads m' !! l' = m_threads m !! l') →
  (∀ q l', m_streams m' !! q = Some l' →
     m_streams m !! q = Some l' ∧ (l' = l → is_Some (m_threads m' !! l))) →
  m_out m' = m_out m ++ fs → Forall (λ f, rf_seq f = ss_seq s) fs →
  foldl advance (Some (stream_phase m l s)) (map rf_Type fs) = Some (stream_phase m' l s') →
  Inv m used → Inv m' used.
Proof.
  intros Hs Hseq Hheap Hnext Hthr Hstr Hout Hfs Hadv [Hst Hhp Hij Hth Hph Hrj Hun].
  assert (∀ l' x, m_heap m' !! l' = Some x →
            ∃ y, m_heap m !! l' = Some y ∧ ss_seq x = ss_seq y) as Hback.
  { intros l' x. rewrite Hheap. intros [(-> & <-)|(? & ?)]%lookup_insert_Some;
      [by exists s|by exists x]. }
  assert (∀ l' y, m_heap m !! l' = Some y →
            ∃ x, m_heap m' !! l' = Some x ∧ ss_seq x = ss_seq y) as Hforth.
  { intros l' y Hy. rewrite Hheap. destruct (decide (l = l')) as [->|Hne].
    - exists s'. rewrite lookup_insert, decide_True by done. split; congruence.
    - exists y. by rewrite lookup_insert_ne. }
  split.
  - intros q l' H. destruct (Hstr _ _ H) as [H0 Hl]. destruct (Hst _ _ H0) as (Ht & y & Hy & <-).
    destruct (Hforth _ _ Hy) as (x & Hx & Hxy). split; [|by exists x].
    destruct (decide (l' = l)) as [->|Hne]; [by apply Hl|by rewrite Hthr].
  - intros l' x (y & Hy & ->)%Hback. rewrite Hnext. by apply Hhp.
  - intros l1 l2 x1 x2 (y1 & H1 & ->)%Hback (y2 & H2 & ->)%Hback. by eapply Hij.
  - intros l' Hl'. destruct (decide (l' = l)) as [->|Hne].
    + destruct (Hforth _ _ Hs) as (x & Hx & _). by exists x.
    + rewrite Hthr in Hl' by done. destruct (Hth _ Hl') as [y Hy].
      destruct (Hforth _ _ Hy) as (x & Hx & _). by exists x.
  - intros l' x Hx. rewrite Hout, phase_of_app. destruct (decide (l = l')) as [<-|Hne].
    + rewrite Hheap, lookup_insert, decide_True in Hx by done. injection Hx as <-.
      by rewrite Hseq, frames_of_all, (Hph _ _ Hs).
    + rewrite Hheap, lookup_insert_ne in Hx by done.
      rewrite (frames_of_none _ (ss_seq s)) by (done || intros ?; eauto). cbn.
      rewrite (Hph _ _ Hx). unfold stream_phase. by rewrite Hthr by congruence.
  - intros q Hq Hno. rewrite Hout, phase_of_app, (frames_of_none _ (ss_seq s)); cbn; [|..|done].
    + apply Hrj; [done|]. intros l' y Hy. destruct (Hforth _ _ Hy) as (x & Hx & <-). by eapply Hno.
    + intros ->. destruct (Hforth _ _ Hs) as (x & Hx & Hxs). by eapply (Hno l).
  - intros q Hq. rewrite Hout, frames_of_app, Hun by done.
    apply (frames_of_none _ (ss_seq s)); [|done]. intros ->. by apply Hq, (Hhp l).
Qed.

(** A change of a stream's fields other than its sequence and its header flag. *)
Lemma Inv_update l f m used :
  (∀ s, ss_seq (f s) = ss_seq s) → (∀ s, st_headerSent (f s) = st_headerSent s) →
  Inv m used → Inv (update l f m) used.
Proof.
  intros Hseq Hhs Hinv. destruct (m_heap m !! l) as [s|] eqn:Hs.
  - eapply (Inv_change l s (f s) []); try done; cbn.
    + by apply alter_Some.
    + intros q l' H. split; [done|]. intros ->. by apply (inv_streams _ _ Hinv) in H as [? _].
    + by rewrite app_nil_r.
    + unfold stream_phase, live_phase; cbn. by rewrite Hhs.
  - replace (update l f m) with m; [done|]. unfold update.
    rewrite alter_id by congruence. by destruct m.
Qed.

Lemma Inv_set_thread l t m used :
  is_Some (m_threads m !! l) → Inv m used → Inv (set_thread l t m) used.
Proof.
  intros [t0 Ht] Hinv. destruct (inv_threads _ _ Hinv l) as [s Hs]; [by exists t0|].
  eapply (Inv_change l s s []); try done; cbn.
  - by rewrite insert_id.
  - intros l' ?. by rewrite lookup_insert_ne.
  - intros q l' H. split; [done|]. intros ->. rewrite lookup_insert, decide_True by done. by eexists.
  - by rewrite app_nil_r.
  - unfold stream_phase; cbn. by rewrite lookup_insert, decide_True, Ht.
Qed.

Lemma Inv_set_reasm r m used : Inv m used → Inv (set_reasm r m) used.
Proof. by intros []. Qed.

Lemma Inv_delete q m used : Inv m used → Inv (set_streams (delete q (m_streams m)) m) used.
Proof.
  intros [Hst Hhp Hij Hth Hph Hrj Hun]. split; cbn; try done.
  intros q' l [_ H]%lookup_delete_Some. by apply Hst.
Qed.

(** A call on a new sequence: refused, or a stream with its goroutine. *)
Lemma Inv_reject q e m used :
  q ∉ used → int32 q = q → Inv m used → Inv (write_out (mkEnd q e) m) ({[q]} ∪ used).
Proof.
  intros Hq Hi [Hst Hhp Hij Hth Hph Hrj Hun].
  assert (∀ q', q' ≠ q → frames_of q' [mkEnd q e] = []) as Hne.
  { intros q' ?. apply (frames_of_none _ q); [done|]. by repeat constructor. }
  assert (frames_of q [mkEnd q e] = [mkEnd q e]) as Heq.
  { apply frames_of_all. by repeat constructor. }
  split; cbn; try done.
  - intros l s Hs. destruct (Hhp _ _ Hs) as (? & ? & ?). split_and!; [done|set_solver|done].
  - intros l s Hs. rewrite phase_of_app, Hne; [by apply Hph|].
    intros <-. by apply Hq, (Hhp l).
  - intros q' Hq' Hno. rewrite phase_of_app. destruct (decide (q' = q)) as [->|Hd].
    + rewrite Heq. unfold phase_of. by rewrite Hun.
    + rewrite Hne by done. apply Hrj; [set_solver|done].
  - intros q' Hq'. rewrite frames_of_app, Hun, Hne by set_solver. done.
Qed.

Lemma Inv_open q s t m used :
  q ∉ used → int32 q = q → ss_seq s = q → st_headerSent s = false → Inv m used →
  Inv (set_thread (m_next m) t (add_stream q s m)) ({[q]} ∪ used).
Proof.
  intros Hq Hi Hsq Hhs [Hst Hhp Hij Hth Hph Hrj Hun].
  assert (∀ l x, m_heap m !! l = Some x → m_next m ≠ l) as Hnew.
  { intros l x Hx <-. apply Hhp in Hx as [? _]. lia. }
  split; cbn.
  - intros q' l [(<- & <-)|(Hne & H)]%lookup_insert_Some.
    + rewrite !lookup_insert, !decide_True by done. split; [by eexists|by exists s].
    + destruct (Hst _ _ H) as (Ht & x & Hx & <-). pose proof (Hnew _ _ Hx).
      rewrite !lookup_insert_ne by done. split; [done|by exists x].
  - intros l x [(<- & <-)|(Hne & H)]%lookup_insert_Some.
    + rewrite Hsq. split_and!; [lia|set_solver|done].
    + destruct (Hhp _ _ H) as (? & ? & ?). split_and!; [lia|set_solver|done].
  - intros l1 l2 x1 x2 [(<- & <-)|(? & H1)]%lookup_insert_Some
      [(<- & <-)|(? & H2)]%lookup_insert_Some He; try done.
    + destruct (Hhp _ _ H2) as (_ & ? & _). congruence.
    + destruct (Hhp _ _ H1) as (_ & ? & _). congruence.
    + by eapply Hij.
  - intros l. rewrite !lookup_insert_is_Some'. intros [->|?]; [by left|right; by apply Hth].
  - intros l x [(<- & <-)|(Hne & H)]%lookup_insert_Some; unfold stream_phase; cbn.
    + rewrite lookup_insert, decide_True by done. unfold phase_of, live_phase.
      by rewrite Hsq, Hun, Hhs.
    + rewrite lookup_insert_ne by done. by apply Hph.
  - intros q' Hq' Hno. apply Hrj.
    + assert (q' ≠ q) as Hd; [|set_solver]. intros ->.
      apply (Hno (m_next m) s); [by rewrite lookup_insert, decide_True|done].
    + intros l x Hx. apply (Hno l x). rewrite lookup_insert_ne; [done|by eapply Hnew].
  - intros q' Hq'. apply Hun. set_solver.
Qed.

(** ** What no operation changes

    The two flags of the connection, and [ServerStream.hdrState], which nothing
    in the package sets. *)

Definition hdr_clear (m : mux) : Prop :=
  map_Forall (λ _ s, ss_hdrStateSent s = false) (m_heap m).

Definition frames_ok (m m' : mux) : Prop :=
  m_ctx m' = m_ctx m ∧ m_done m' = m_done m ∧ (hdr_clear m → hdr_clear m').

#[export] Instance frames_ok_preorder : PreOrder frames_ok.
Proof.
  split; [done|]. intros m1 m2 m3 (? & ? & ?) (? & ? & ?).
  split_and!; [congruence..|eauto].
Qed.

(** Every alternative of an operation started in [m]. *)
Definition keeps {A} (m : mux) (l : list (A * mux)) : Prop :=
  Forall (λ rm, frames_ok m rm.2) l.

Lemma keeps_from {A} m m1 (l : list (A * mux)) : frames_ok m m1 → keeps m1 l → keeps m l.
Proof.
  intros H Hl. eapply Forall_impl; [exact Hl|]. intros rm Hrm. etrans; [exact H|exact Hrm].
Qed.

Lemma keeps_bind {A B} m (l : list (A * mux)) (f : A * mux → list (B * mux)) :
  keeps m l → (∀ rm, keeps rm.2 (f rm)) → keeps m (l ≫= f).
Proof.
  intros Hl Hf. apply Forall_bind. eapply Forall_impl; [exact Hl|].
  intros rm Hrm. eapply keeps_from; [exact Hrm|apply Hf].
Qed.

Lemma keeps_one {A} m (r : A) m' : frames_ok m m' → keeps m [(r, m')].
Proof. intros H. apply Forall_singleton. exact H. Qed.

Lemma frames_ok_update l f m :
  (∀ s, ss_hdrStateSent (f s) = ss_hdrStateSent s) → frames_ok m (update l f m).
Proof.
  intros Hf. split; [done|split; [done|]]. intros Hc l' s'. cbn.
  intros [(-> & s & Hs & ->)|[? Hs]]%lookup_alter_Some.
  - rewrite Hf. by eapply Hc.
  - by eapply Hc.
Qed.

Lemma keeps_update {A} l f (r : A) m :
  (∀ s, ss_hdrStateSent (f s) = ss_hdrStateSent s) → keeps m [(r, update l f m)].
Proof. intros. by apply keeps_one, frames_ok_update. Qed.

Lemma keeps_queue f m : keeps m (queue f m).
Proof.
  unfold queue, keeps.
  destruct (m_done m), (m_ctx m); cbn [app]; repeat (apply Forall_cons; split); done.
Qed.

Lemma keeps_flush l m : keeps m (flushBeginOnce l m).
Proof.
  unfold flushBeginOnce. destruct (m_heap m !! l) as [s|]; [|apply Forall_nil_2].
  destruct (lookupStream _ _) as [l'|]; [|by apply keeps_one].
  set (m1 := update l' with_headerSent m). assert (frames_ok m m1) by by apply frames_ok_update.
  case_match; [|by apply keeps_one].
  by eapply keeps_from; [|apply keeps_queue].
Qed.

Lemma keeps_chunks seq total cs m : keeps m (send_chunks seq total cs m).
Proof.
  revert m. induction cs as [|c cs IH]; intros m; cbn [send_chunks]; [by apply keeps_one|].
  apply keeps_bind; [apply keeps_queue|]. intros [[] m']; [apply IH|by apply keeps_one..].
Qed.

Lemma keeps_send l b m : keeps m (stream_Send l b m).
Proof.
  unfold stream_Send. destruct (m_heap m !! l) as [s|]; [|apply Forall_nil_2].
  apply keeps_bind; [apply keeps_flush|]. intros [[] m']; [|by apply keeps_one..].
  destruct (_ <=? _); [apply keeps_queue|apply keeps_chunks].
Qed.

Lemma keeps_end seq e m : keeps m (endStream seq e m).
Proof.
  unfold endStream. apply keeps_bind.
  - destruct (lookupStream _ _) as [l|]; [|by apply keeps_one].
    destruct (m_heap m !! l) as [st|]; [|by apply keeps_one].
    set (m1 := update l with_headerSent m). assert (frames_ok m m1) by by apply frames_ok_update.
    destruct (negb _); [|by apply keeps_one].
    by eapply keeps_from; [|apply keeps_queue].
  - intros [[|err|] m']; [| |by apply keeps_one];
      (eapply (keeps_from _ (set_streams (delete seq (m_streams m')) m')); [done|];
       apply keeps_bind; [apply keeps_queue|intros [[] m3]; by apply keeps_one]).
Qed.

Lemma keeps_open {V} (srv : @Server V) vals seq call m : keeps m (openStream srv vals seq call m).
Proof.
  unfold openStream. destruct call as [call|]; [|apply keeps_end].
  destruct (findMethod _ _) as [md|]; [|apply keeps_end].
  destruct (lookupStream _ _); [apply keeps_end|].
  set (s := newServerStream _ _ _ _ _). cbn zeta.
  set (m1 := add_stream _ _ _).
  assert (frames_ok m m1) as H1.
  { split_and!; [done..|]. intros Hc. apply map_Forall_insert_2; [done|exact Hc]. }
  apply Forall_bind. apply Forall_impl with (P := frames_ok m).
  - destruct (call_InlineData call) as [d|]; [|by apply Forall_singleton].
    apply Forall_cons; split; [etrans; [exact H1|by apply frames_ok_update]|].
    destruct (ss_ctx s); [by apply Forall_singleton|done].
  - intros m2 Hm2. apply keeps_one. etrans; [exact Hm2|done].
Qed.

Lemma deliverPayload_ok seq p m : Forall (frames_ok m) (deliverPayload seq p m).
Proof.
  unfold deliverPayload. destruct (lookupStream _ _) as [l|]; [|by apply Forall_singleton].
  destruct (m_heap m !! l) as [s|]; [|apply Forall_nil_2].
  apply Forall_app; split.
  - case_decide; [|done]. by apply Forall_singleton, frames_ok_update.
  - destruct (ss_ctx s); [by apply Forall_singleton|done].
Qed.

Lemma keeps_frame {V} (srv : @Server V) vals f m : keeps m (handleFrame srv vals f m).
Proof.
  unfold handleFrame. destruct (f_Type f) as [[call|data|e]|].
  - apply keeps_bind; [apply keeps_open|]. intros [r m']. by apply keeps_one.
  - unfold deliverData. destruct data as [[[[msg|c]|]]|]; try by apply keeps_one.
    + apply Forall_fmap, deliverPayload_ok.
    + cbn [data_Content]. destruct (Reassembler.Reassemble _ _ _ _ _) as [o r].
      destruct o as [[full|]|err|p]; try by apply keeps_one.
      apply (keeps_from _ (set_reasm r m)); [done|]. apply Forall_fmap, deliverPayload_ok.
  - apply keeps_one. destruct e as [e|]; [|done]. unfold handleEnd.
    destruct (lookupStream _ _) as [l|]; [|done].
    destruct (end_CloseSend e); [by apply frames_ok_update|].
    transitivity (update l (cancel_ctx Canceled) m); [by apply frames_ok_update|done].
  - by apply keeps_one.
Qed.

(** A handler step other than the [SetHeader] panic. *)
Lemma keeps_handler l m : hdr_clear m → keeps m (handler_step l m).
Proof.
  intros Hc. unfold handler_step.
  destruct (m_threads m !! l) as [[p|k]|]; [..|apply Forall_nil_2];
    (destruct (m_heap m !! l) as [s|] eqn:Hs; [|apply Forall_nil_2]).
  - assert (∀ f p', (∀ s, ss_hdrStateSent (f s) = ss_hdrStateSent s) →
              frames_ok m (set_thread l p' (update l f m))) as Hup.
    { intros f p' Hf. etrans; [by apply (frames_ok_update l f)|done]. }
    destruct p as [st|k|b k|kv k|kv k|k|k].
    + unfold finish. apply keeps_bind; [apply keeps_end|]. intros [r m']. apply keeps_one. cbn.
      destruct r; try done; (etrans; [|by apply frames_ok_update]; done).
    + destruct (ss_inbound s); apply keeps_one; [done|by apply Hup].
    + apply keeps_bind; [apply keeps_send|]. intros [[] m']; by apply keeps_one.
    + unfold stream_SetHeader. rewrite (Hc l s Hs). apply keeps_one.
      split; [done|split; [done|]]. intros _ l' s'. cbn.
      intros [(-> & s0 & Hs0 & ->)|[? Hs0]]%lookup_alter_Some; [|by eapply Hc].
      cbn. by eapply Hc.
    + apply keeps_one. by apply Hup.
    + by apply keeps_one.
    + by apply keeps_one.
  - apply Forall_app; split; [|apply Forall_app; split].
    + destruct (ss_inbound s) as [|b q]; [apply Forall_nil_2|]. apply keeps_one.
      etrans; [by apply (frames_ok_update l (with_inbound q))|done].
    + destruct (ss_halfClose s); [by apply keeps_one|apply Forall_nil_2].
    + destruct (ss_ctx s); [by apply keeps_one|apply Forall_nil_2].
Qed.

(** No handler step panics when no stream has [hdrState.headerSent] set. *)
Lemma handler_no_panic l m r m' :
  hdr_clear m → (r, m') ∈ handler_step l m → r = FHandled.
Proof.
  intros Hc. unfold handler_step.
  destruct (m_threads m !! l) as [[p|k]|]; [..|by intros ?%not_elem_of_nil];
    (destruct (m_heap m !! l) as [s|] eqn:Hs; [|by intros ?%not_elem_of_nil]).
  - destruct p as [st|k|b k|kv k|kv k|k|k].
    + unfold finish. intros ([? ?] & H & _)%list_elem_of_bind.
      by apply list_elem_of_singleton in H as [= -> _].
    + destruct (ss_inbound s); by intros [= -> _]%list_elem_of_singleton.
    + intros ([? ?] & H & _)%list_elem_of_bind. by apply list_elem_of_singleton in H as [= -> _].
    + unfold stream_SetHeader. rewrite (Hc l s Hs). by intros [= -> _]%list_elem_of_singleton.
    + by intros [= -> _]%list_elem_of_singleton.
    + by intros [= -> _]%list_elem_of_singleton.
    + by intros [= -> _]%list_elem_of_singleton.
  - rewrite !elem_of_app. intros [H|[H|H]].
    + destruct (ss_inbound s); [by apply not_elem_of_nil in H|].
      by apply list_elem_of_singleton in H as [= -> _].
    + destruct (ss_halfClose s); [|by apply not_elem_of_nil in H].
      by apply list_elem_of_singleton in H as [= -> _].
    + destruct (ss_ctx s); [|by apply not_elem_of_nil in H].
      by apply list_elem_of_singleton in H as [= -> _].
Qed.

(** ** Preservation *)

Section reach.
Context {Vals : Type} (srv : @Server Vals) (vals : Vals).

Lemma step_keeps fresh m used m' used' :
  step fresh srv vals (m, used) (m', used') → hdr_clear m →
  hdr_clear m' ∧ (m_done m = true → m_done m' = true) ∧ (m_ctx m ≠ None → m_ctx m' ≠ None).
Proof.
  assert (∀ m', frames_ok m m' → hdr_clear m →
    hdr_clear m' ∧ (m_done m = true → m_done m' = true) ∧ (m_ctx m ≠ None → m_ctx m' ≠ None))
    as Hok.
  { intros m1 (Hc & Hd & Hh) ?. rewrite Hc, Hd. auto. }
  intros Hstep Hc. inversion Hstep as [f ? ? ? _ _ _ Hin|l ? ? ? Hin|l s ? ? Hs Ht| |]; subst.
  - apply Hok; [|done]. apply (proj1 (Forall_forall _ _) (keeps_frame srv vals f m) _ Hin).
  - apply Hok; [|done]. apply (proj1 (Forall_forall _ _) (keeps_handler l m Hc) _ Hin).
  - apply Hok; [by apply frames_ok_update|done].
  - split; [|by split]. intros l s. cbn. rewrite lookup_fmap.
    intros (s0 & Hs0 & ->)%fmap_Some. exact (Hc l s0 Hs0).
  - by split.
Qed.

Lemma reachable_clear fresh s : reachable fresh srv vals s → hdr_clear s.1.
Proof.
  apply (rtc_ind_r (λ s, hdr_clear s.1)); [apply map_Forall_empty|].
  intros [m u] [m' u'] _ Hs Hc. by eapply step_keeps.
Qed.

Lemma lookup_unused q m used : Inv m used → q ∉ used → lookupStream q m = None.
Proof.
  intros Hinv Hq. unfold lookupStream. destruct (m_streams m !! q) as [l|] eqn:Hl; [|done].
  destruct (inv_streams _ _ Hinv _ _ Hl) as (_ & s & Hs & <-).
  by destruct (inv_heap _ _ Hinv _ _ Hs) as (_ & ? & _).
Qed.

(** A stream found by sequence number is the stream of that number. *)
Lemma lookup_own l s m used :
  Inv m used → m_heap m !! l = Some s →
  lookupStream (ss_seq s) m = Some l ∨ lookupStream (ss_seq s) m = None.
Proof.
  intros Hinv Hs. unfold lookupStream.
  destruct (m_streams m !! ss_seq s) as [l'|] eqn:Hl; [left|by right].
  destruct (inv_streams _ _ Hinv _ _ Hl) as (_ & s' & Hs' & He).
  f_equal. by eapply (inv_inj _ _ Hinv).
Qed.

Lemma Inv_openStream q call r m m' used :
  up m → int32 q = q → q ∉ used → Inv m used →
  (r, m') ∈ openStream srv vals q call m → Inv m' ({[q]} ∪ used).
Proof.
  intros Hup Hi Hq Hinv. pose proof (lookup_unused _ _ _ Hinv Hq) as Hl. unfold openStream.
  destruct call as [call|];
    [destruct (findMethod _ _) as [md|]|];
    [rewrite Hl|rewrite endStream_up_none by done..]; cycle 1.
  1,2: by intros [= -> ->]%list_elem_of_singleton; apply Inv_reject.
  cbn zeta. intros (m1 & [= -> ->]%list_elem_of_singleton & Hm1)%list_elem_of_bind.
  set (s := newServerStream _ _ _ _ _) in *.
  set (t := Running _).
  assert (Inv (set_thread (m_next m) t (add_stream q s m)) ({[q]} ∪ used)) as Hopen
    by by apply Inv_open.
  destruct (call_InlineData call) as [d|].
  - apply elem_of_cons in Hm1 as [->|Hm1].
    + by apply (Inv_update (m_next m) (with_inbound [d])
                  (set_thread (m_next m) t (add_stream q s m))).
    + destruct (ss_ctx s); [|by apply not_elem_of_nil in Hm1].
      by apply list_elem_of_singleton in Hm1 as ->.
  - by apply list_elem_of_singleton in Hm1 as ->.
Qed.

Lemma Inv_deliverPayload q p m m' used :
  Inv m used → m' ∈ deliverPayload q p m → Inv m' used.
Proof.
  intros Hinv. unfold deliverPayload.
  destruct (lookupStream _ _) as [l|]; [|by intros ->%list_elem_of_singleton].
  destruct (m_heap m !! l) as [s|]; [|by intros ?%not_elem_of_nil].
  intros [Hm|Hm]%elem_of_app.
  - case_decide; [|by apply not_elem_of_nil in Hm].
    apply list_elem_of_singleton in Hm as ->. by apply Inv_update.
  - destruct (ss_ctx s); [|by apply not_elem_of_nil in Hm].
    by apply list_elem_of_singleton in Hm as ->.
Qed.

Lemma Inv_frame f r m m' used :
  up m → frame_seq_ok f → opened f ## used → Inv m used →
  (r, m') ∈ handleFrame srv vals f m → Inv m' (opened f ∪ used).
Proof.
  intros Hup Hok Hfresh Hinv. unfold handleFrame, opened, frame_seq_ok in *.
  set (q := routing_seq (f_Routing f)) in *.
  destruct (f_Type f) as [[call|data|e]|]; try rewrite (left_id_L ∅ _).
  - intros ([r1 m1] & Hr & Hm1)%list_elem_of_bind.
    apply list_elem_of_singleton in Hr as [= -> ->].
    eapply Inv_openStream; [..|exact Hm1]; [done..|set_solver|done].
  - unfold deliverData. destruct data as [[[[msg|c]|]]|]; cbn [data_Content];
      try by intros [= -> ->]%list_elem_of_singleton.
    + intros (m1 & [= -> ->] & Hm1)%list_elem_of_fmap. by eapply Inv_deliverPayload.
    + destruct (Reassembler.Reassemble _ _ _ _ _) as [[[full|]|err|p] rs];
        try by intros [= -> ->]%list_elem_of_singleton; apply Inv_set_reasm.
      intros (m1 & [= -> ->] & Hm1)%list_elem_of_fmap.
      eapply Inv_deliverPayload; [by apply Inv_set_reasm|exact Hm1].
  - intros [= -> ->]%list_elem_of_singleton. unfold handleEnd.
    destruct e as [e|]; [|done]. destruct (lookupStream q m) as [l|]; [|done].
    destruct (end_CloseSend e); [by apply Inv_update|].
    apply (Inv_delete q (update l (cancel_ctx Canceled) m)). by apply Inv_update.
  - by intros [= -> ->]%list_elem_of_singleton.
Qed.

Lemma Inv_finish l s st r m m' used :
  up m → m_threads m !! l = Some (Running (Return st)) → m_heap m !! l = Some s → Inv m used →
  (r, m') ∈ finish l s st m → Inv m' used.
Proof.
  intros Hup Ht Hs Hinv. unfold finish.
  destruct (inv_heap _ _ Hinv _ _ Hs) as (_ & _ & Hi).
  set (e := {| end_CloseSend := _; end_Status := _; end_Trailer := _ |}).
  destruct (lookup_own _ _ _ _ Hinv Hs) as [Hl|Hl].
  - rewrite endStream_up_some with (l := l) (s := s), bind_one by done.
    rewrite write_outs_spec. intros [= -> ->]%list_elem_of_singleton.
    eapply (Inv_change l s (cancel_ctx Canceled (with_headerSent s))
              (begin_frames (ss_seq s) s ++ [mkEnd (ss_seq s) e])); try done; cbn.
    + rewrite (alter_Some with_headerSent _ _ s) by done.
      rewrite (alter_Some _ _ _ (with_headerSent s)) by by rewrite lookup_insert, decide_True.
      by rewrite insert_insert, decide_True.
    + intros l' ?. by rewrite lookup_delete_ne.
    + intros q l' [Hne Hq]%lookup_delete_Some. split; [done|]. intros ->. destruct Hne.
      destruct (inv_streams _ _ Hinv _ _ Hq) as (_ & s' & Hs' & <-). congruence.
    + apply Forall_app; split; [by apply begin_frames_seq|by apply Forall_singleton].
    + unfold stream_phase; cbn. rewrite lookup_delete, decide_True, Ht by done.
      rewrite map_app, foldl_app, begin_frames_advance. done.
  - rewrite endStream_up_none, bind_one by done. intros [= -> ->]%list_elem_of_singleton.
    eapply (Inv_change l s (cancel_ctx Canceled s) [mkEnd (ss_seq s) e]); try done; cbn.
    + by apply alter_Some.
    + intros l' ?. by rewrite lookup_delete_ne.
    + intros q l' Hq. split; [done|]. intros ->. exfalso.
      destruct (inv_streams _ _ Hinv _ _ Hq) as (_ & s' & Hs' & <-).
      rewrite Hs in Hs'. injection Hs' as ->. unfold lookupStream in Hl. congruence.
    + by apply Forall_singleton.
    + unfold stream_phase, live_phase; cbn. rewrite lookup_delete, decide_True, Ht by done.
      by destruct (st_headerSent s).
Qed.

Lemma Inv_Send l b k s r m m' used :
  up m → m_threads m !! l = Some (Running (Send b k)) → m_heap m !! l = Some s → Inv m used →
  (r, m') ∈ handler_step l m → Inv m' used.
Proof.
  intros Hup Ht Hs Hinv. unfold handler_step. rewrite Ht, Hs.
  destruct (inv_heap _ _ Hinv _ _ Hs) as (_ & _ & Hi).
  destruct (lookup_own _ _ _ _ Hinv Hs) as [Hl|Hl].
  - rewrite stream_Send_up with (s := s), bind_one by done.
    rewrite write_outs_spec. intros [= -> ->]%list_elem_of_singleton.
    eapply (Inv_change l s (with_headerSent s)
              (begin_frames (ss_seq s) s ++ data_frames (ss_seq s) b)); try done; cbn.
    + by apply alter_Some.
    + intros l' ?. by rewrite lookup_insert_ne.
    + intros q l' Hq. split; [done|]. intros ->. rewrite lookup_insert, decide_True by done.
      by eexists.
    + apply Forall_app; split; [by apply begin_frames_seq|by apply data_frames_seq].
    + unfold stream_phase; cbn. rewrite lookup_insert, decide_True, Ht by done.
      by rewrite map_app, foldl_app, begin_frames_advance, data_frames_advance.
  - rewrite stream_Send_gone with (s := s), bind_one by done.
    intros [= -> ->]%list_elem_of_singleton. by apply Inv_set_thread.
Qed.

Lemma Inv_handler l r m m' used :
  up m → hdr_clear m → Inv m used → (r, m') ∈ handler_step l m → Inv m' used.
Proof.
  intros Hup Hc Hinv Hin.
  destruct (m_threads m !! l) as [t|] eqn:Ht;
    [|unfold handler_step in Hin; rewrite Ht in Hin; by apply not_elem_of_nil in Hin].
  destruct (inv_threads _ _ Hinv l) as [s Hs]; [by exists t|].
  assert (∀ p f, (∀ s, ss_seq (f s) = ss_seq s) → (∀ s, st_headerSent (f s) = st_headerSent s) →
            Inv (set_thread l p (update l f m)) used) as Hset.
  { intros p f ? ?. apply (Inv_set_thread l p (update l f m)); [by eexists|by apply Inv_update]. }
  assert (∀ p, Inv (set_thread l p m) used) as Hset0.
  { intros p. by apply Inv_set_thread; [eexists|]. }
  destruct t as [[st|k|b k|kv k|kv k|k|k]|k].
  3: by eapply (Inv_Send l b k s); eauto.
  all: unfold handler_step in Hin; rewrite Ht, Hs in Hin.
  - by eapply Inv_finish.
  - destruct (ss_inbound s); apply list_elem_of_singleton in Hin as [= -> ->]; [done|by apply Hset].
  - unfold stream_SetHeader in Hin. rewrite (Hc l s Hs) in Hin.
    apply list_elem_of_singleton in Hin as [= -> ->].
    replace (update l (λ _, _) m) with (update l (λ s, with_hdr (SetHeader (ss_hdr s) kv) s) m);
      [by apply Hset|].
    unfold update. f_equal. by rewrite !(alter_Some _ _ _ s).
  - apply list_elem_of_singleton in Hin as [= -> ->]. by apply Hset.
  - by apply list_elem_of_singleton in Hin as [= -> ->].
  - by apply list_elem_of_singleton in Hin as [= -> ->].
  - apply elem_of_app in Hin as [Hin|[Hin|Hin]%elem_of_app].
    + destruct (ss_inbound s); [by apply not_elem_of_nil in Hin|].
      apply list_elem_of_singleton in Hin as [= -> ->]. by apply Hset.
    + destruct (ss_halfClose s); [|by apply not_elem_of_nil in Hin].
      by apply list_elem_of_singleton in Hin as [= -> ->].
    + destruct (ss_ctx s); [|by apply not_elem_of_nil in Hin].
      by apply list_elem_of_singleton in Hin as [= -> ->].
Qed.

(** Every reachable state whose connection is up satisfies the invariant. *)
Lemma reachable_Inv s : reachable True srv vals s → up s.1 → Inv s.1 s.2.
Proof.
  intros Hr. assert (hdr_clear s.1 ∧ (up s.1 → Inv s.1 s.2)) as [_ H]; [|exact H].
  revert s Hr. apply rtc_ind_r; [split; [apply map_Forall_empty|intros _; exact Inv_init]|].
  intros [m u] [m' u'] _ Hstep [Hc IH]. cbn in *.
  destruct (step_keeps _ _ _ _ _ Hstep Hc) as (Hc' & Hd & Hx). split; [done|].
  intros Hup'. assert (up m) as Hup.
  { destruct Hup' as [Hd' Hx']. split.
    - destruct (m_done m); [|done]. rewrite Hd in Hd' by done. done.
    - destruct (m_ctx m); [|done]. by destruct Hx. }
  specialize (IH Hup).
  inversion Hstep as [f ? ? ? Hnd Hsq Hfr Hin|l ? ? ? Hin|l s ? ? Hs Ht|? ? ? Hn|]; subst.
  - eapply Inv_frame; eauto.
  - by eapply Inv_handler.
  - by apply Inv_update.
  - by destruct Hup' as [_ ?].
  - by destruct Hup' as [? _].
Qed.
End reach.

(** ** Properties *)

(** [C10] The wire protocol of the server: whatever the handlers do and however
    their steps interleave with the serve loop, as long as the connection is up
    and the client does not reuse sequence numbers, the frames written for each
    sequence are nothing, an [End], or a [Begin] followed by [Data] frames and
    at most one final [End]; nothing is ever written for a sequence that was
    not called; and a called sequence has its [End] exactly when no handler
    goroutine is left running for it. *)
Theorem server_output_protocol {Vals} (srv : @Server Vals) vals m used q
    (Hr : reachable True srv vals (m, used)) (Hup : up m) :
  ∃ p, phase_of q (m_out m) = Some p ∧
       (q ∉ used → frames_of q (m_out m) = []) ∧
       (p = PEnded ↔ q ∈ used ∧
          ∀ l s, m_heap m !! l = Some s → ss_seq s = q → m_threads m !! l = None).
Proof.
  pose proof (reachable_Inv srv vals (m, used) Hr Hup) as Hinv; cbn in Hinv.
  destruct (decide (q ∈ used)) as [Hq|Hq].
  - destruct (decide (map_Exists (λ _ s, ss_seq s = q) (m_heap m))) as [(l & s & Hs & <-)|Hno].
    + exists (stream_phase m l s). split; [by apply (inv_phase _ _ Hinv)|]. split; [done|].
      unfold stream_phase, live_phase. split.
      * intros Hp. split; [done|]. intros l' s' Hs' He.
        rewrite (inv_inj _ _ Hinv _ _ _ _ Hs' Hs He).
        by destruct (m_threads m !! l), (st_headerSent s).
      * intros [_ Hall]. by rewrite (Hall l s).
    + assert (∀ l s, m_heap m !! l = Some s → ss_seq s ≠ q) as Hno'.
      { intros l s Hs He. apply Hno. by exists l, s. }
      exists PEnded. split; [by apply (inv_rejected _ _ Hinv)|]. split; [done|].
      split; [|done]. intros _. split; [done|]. intros l s Hs He. by destruct (Hno' l s).
  - exists PIdle. unfold phase_of. rewrite (inv_unused _ _ Hinv) by done.
    split; [done|]. split; [done|]. split; [done|]. by intros [? _].
Qed.

Lemma server_output_protocol_witness :
  let s := run_demo true echo_run in
  up s.1 ∧ length (m_out s.1) = 3%nat ∧
  ∃ p, phase_of 3 (m_out s.1) = Some p ∧
       (3 ∉ s.2 → frames_of 3 (m_out s.1) = []) ∧
       (p = PEnded ↔ 3 ∈ s.2 ∧
          ∀ l st, m_heap s.1 !! l = Some st → ss_seq st = 3 → m_threads s.1 !! l = None).
Proof.
  cbv zeta. split; [by split; vm_compute|]. split; [by vm_compute|].
  apply (server_output_protocol demo_srv tt).
  - apply run_demo_reachable; [done|by vm_compute].
  - by split; vm_compute.
Defined.

(** [SetHeader] never panics: in every reachable state, even after the
    [Begin] frame has left, no step of a handler panics, because no code sets
    the flag that [SetHeader] tests. *)
Theorem SetHeader_never_panics {Vals} fresh (srv : @Server Vals) vals m used l s kv
    (Hr : reachable fresh srv vals (m, used)) (Hs : m_heap m !! l = Some s) :
  stream_SetHeader kv s = Some (with_hdr (SetHeader (ss_hdr s) kv) s) ∧
  ∀ r m', (r, m') ∈ handler_step l m → r = FHandled.
Proof.
  pose proof (reachable_clear _ _ _ _ Hr) as Hc. split.
  - unfold stream_SetHeader. by rewrite (Hc l s Hs).
  - intros r m'. by apply handler_no_panic.
Qed.
