(* ===== verification/RpcServerProps.v ===== *)
(** * Properties of single operations of the server

    Registration, what a duplicate [Call] does, where headers and trailers
    travel, when the serve loop blocks, what [Recv] may return, and how
    [Serve] ends. *)

From Stdlib Require Import Strings.Byte ZArith Lia.
From stdpp Require Import numbers strings gmap fin_maps relations list.
From S2P Require Import Prelude Status Messages Transport Chunks Channel RpcServer RpcServerRun RpcServerSafety.
Open Scope Z_scope.

(** ** Registration *)

Section register.
Context {Vals : Type}.
Abbreviation methods := (gmap string (@MethodDesc Vals)).

Definition registered (service : string) (m : @MethodDesc Vals) : @MethodDesc Vals :=
  {| md_Method := method_path service (md_Method m); md_Kind := md_Kind m;
     md_Handler := md_Handler m |}.

Definition path_of (service : string) (m : @MethodDesc Vals) : string :=
  method_path service (md_Method m).

Definition register_all (service : string) (ms : list (@MethodDesc Vals)) (reg : methods) : methods :=
  foldl (λ reg m, <[path_of service m := registered service m]> reg) reg ms.

Lemma register_loop_spec service ms (reg : methods) :
  ∃ n, (register_loop service ms reg).2 = register_all service (take n ms) reg ∧
    ((register_loop service ms reg).1 = Ok tt ∧ n = length ms ∨
     ∃ m, ms !! n = Some m ∧
       (register_loop service ms reg).1
         = Panic ("rpc: duplicate method registration: " +:+ path_of service m) ∧
       is_Some (register_all service (take n ms) reg !! path_of service m)).
Proof.
  revert reg. induction ms as [|m ms IH]; intros reg; cbn [register_loop].
  { exists 0%nat. split; [done|by left]. }
  destruct (reg !! method_path service (md_Method m)) as [md|] eqn:Hm.
  - exists 0%nat. split; [done|right]. exists m. split; [done|]. split; [done|by exists md].
  - destruct (IH (<[path_of service m := registered service m]> reg)) as (n & H2 & H1).
    exists (S n). split; [exact H2|].
    destruct H1 as [[H1 ->]|(m' & Hn & H1 & Hdup)]; [by left|right]. by exists m'.
Qed.

Lemma register_loop_ok service ms (reg : methods) :
  (register_loop service ms reg).1 = Ok tt ↔
  NoDup (path_of service <$> ms) ∧ Forall (λ m, reg !! path_of service m = None) ms.
Proof.
  revert reg. induction ms as [|m ms IH]; intros reg; cbn [register_loop].
  { split; [intros _; split; [constructor|done]|done]. }
  rewrite fmap_cons, NoDup_cons, Forall_cons. fold (path_of service m).
  destruct (reg !! path_of service m) as [md|] eqn:Hm.
  - split; [done|intros (_ & ? & _); congruence].
  - rewrite IH. split.
    + intros [Hnd Hall]. split_and!; [|done|done|].
      * intros (m' & He & Hin)%list_elem_of_fmap. rewrite Forall_forall in Hall.
        specialize (Hall m' Hin). by rewrite He, lookup_insert, decide_True in Hall.
      * eapply Forall_impl; [exact Hall|]. by intros m' [? _]%lookup_insert_None.
    + intros ([Hni Hnd] & _ & Hall). split; [done|]. rewrite Forall_forall in Hall |- *.
      intros m' Hin. apply lookup_insert_None. split; [by apply Hall|].
      intros He. apply Hni. rewrite He. by apply list_elem_of_fmap_2.
Qed.

Lemma register_all_lookup service ms (reg : methods) :
  NoDup (path_of service <$> ms) →
  Forall (λ m, register_all service ms reg !! path_of service m = Some (registered service m)) ms.
Proof.
  unfold register_all. induction ms as [|m ms IH] using rev_ind; [done|].
  rewrite fmap_app, NoDup_app, foldl_app. cbn [foldl fmap list_fmap].
  intros (Hnd & Hdisj & _). apply Forall_app; split.
  - specialize (IH Hnd). rewrite Forall_forall in IH |- *. intros m' Hin.
    rewrite lookup_insert_ne; [by apply IH|]. intros He.
    apply (Hdisj (path_of service m')); [by apply list_elem_of_fmap_2|].
    rewrite <- He. by apply list_elem_of_singleton.
  - apply Forall_singleton. by rewrite lookup_insert, decide_True.
Qed.
End register.

(** [RegisterService] succeeds exactly when the paths of the service are
    pairwise distinct and new, and then every method is found under
    ["/service/method"]; otherwise it panics on the first collision, with the
    methods before it left registered. *)
Theorem RegisterService_spec {Vals} (s : @Server Vals) desc :
  let service := sd_ServiceName desc in
  let ms := sd_Methods desc in
  let s' := (RegisterService s desc).2 in
  ((RegisterService s desc).1 = Ok tt ↔
     NoDup (path_of service <$> ms) ∧ Forall (λ m, findMethod s (path_of service m) = None) ms) ∧
  ((RegisterService s desc).1 = Ok tt →
     Forall (λ m, findMethod s' (path_of service m) = Some (registered service m)) ms) ∧
  ((RegisterService s desc).1 ≠ Ok tt → ∃ n m, ms !! n = Some m ∧
     (RegisterService s desc).1
       = Panic ("rpc: duplicate method registration: " +:+ path_of service m) ∧
     srv_methods s' = register_all service (take n ms) (srv_methods s)).
Proof.
  cbn zeta. unfold RegisterService, findMethod.
  pose proof (register_loop_spec (sd_ServiceName desc) (sd_Methods desc) (srv_methods s)) as Hs.
  pose proof (register_loop_ok (sd_ServiceName desc) (sd_Methods desc) (srv_methods s)) as Ho.
  destruct (register_loop _ _ _) as [r reg]; cbn [fst snd srv_methods] in *.
  split; [exact Ho|]. destruct Hs as (n & Hreg & [[-> Hn]|(m & Hn & -> & _)]).
  - split; [|done]. intros _. destruct (proj1 Ho eq_refl) as [Hnd _]. subst n.
    rewrite take_ge in Hreg by done. subst reg. by apply register_all_lookup.
  - split; [done|]. intros _. by exists n, m.
Qed.

(** ** A repeated [Call] *)

(** A second [Call] for a sequence that still has a stream is answered on
    that sequence and takes the first stream with it, whatever the call names:
    the multiplexer drops the stream (every later [Send] of its handler fails
    with a closed pipe, its context stays alive) and writes [Begin] if none was
    sent and an [End] with an error status; when the original handler returns,
    it writes a second [End]. *)
Theorem duplicate_call_ends_original {Vals} (srv : @Server Vals) vals m l s q call st
    (Hup : up m) (Hl : lookupStream q m = Some l) (Hs : m_heap m !! l = Some s)
    (Hq : ss_seq s = q) :
  ∃ code msg m1 m2 trailer,
    handleFrame srv vals {| f_Routing := Some {| Sequence := q |};
                            f_Type := Some (Frame_Call call) |} m = [(FHandled, m1)] ∧
    m_out m1 = m_out m ++ begin_frames q s ++ [mkEnd q (status_end code msg)] ∧
    code ∈ [12; 13] ∧
    lookupStream q m1 = None ∧ m_threads m1 = m_threads m ∧
    m_heap m1 !! l = Some (with_headerSent s) ∧
    (∀ b, stream_Send l b m1 = [(QErr ErrClosedPipe, m1)]) ∧
    finish l (with_headerSent s) st m1 = [(FHandled, m2)] ∧
    m_out m2 = m_out m1 ++ [mkEnd q {| end_CloseSend := false; end_Status := Some (toProto st);
                                       end_Trailer := Some trailer |}].
Proof.
  assert (∃ code msg, code ∈ [12; 13] ∧
    openStream srv vals q call m = endStream q (status_end code msg) m) as (code & msg & Hc & Ho).
  { unfold openStream. destruct call as [call|]; [|eexists 13, _; split; [set_solver|done]].
    destruct (findMethod _ _) as [md|]; [|eexists 12, _; split; [set_solver|done]].
    cbn zeta. rewrite Hl. eexists 13, _. split; [set_solver|done]. }
  set (m1 := write_outs (begin_frames q s ++ [mkEnd q (status_end code msg)])
               (set_streams (delete q (m_streams m)) (update l with_headerSent m))).
  assert (up m1) as Hup1 by (by apply write_outs_up).
  assert (lookupStream q m1 = None) as Hl1.
  { unfold m1, lookupStream. rewrite write_outs_spec. cbn. by rewrite lookup_delete, decide_True. }
  assert (m_heap m1 !! l = Some (with_headerSent s)) as Hs1.
  { unfold m1. rewrite write_outs_spec. cbn. by rewrite lookup_alter, decide_True, Hs. }
  eexists code, msg, m1, _, _. split_and!.
  - unfold handleFrame. cbn [f_Type f_Routing routing_seq Sequence].
    by rewrite Ho, endStream_up_some with (l := l) (s := s), bind_one.
  - unfold m1. by rewrite write_outs_spec.
  - done.
  - done.
  - unfold m1. by rewrite write_outs_spec.
  - done.
  - intros b. apply stream_Send_gone with (s := with_headerSent s); [done|]. cbn. by rewrite Hq.
  - unfold finish. cbn [ss_seq with_headerSent]. rewrite Hq.
    by rewrite endStream_up_none, bind_one by done.
  - done.
Qed.

(** The second call names a method that does not exist. *)
Lemma duplicate_call_ends_original_witness :
  let m := (run_demo true (take 1 echo_run)).1 in
  let f := call_frame 3 "/demo/Nope" None in
  ∃ code msg m1 m2 trailer s,
    handleFrame demo_srv tt f m = [(FHandled, m1)] ∧
    m_out m1 = m_out m ++ begin_frames 3 s ++ [mkEnd 3 (status_end code msg)] ∧
    code ∈ [12; 13] ∧
    lookupStream 3 m1 = None ∧ m_threads m1 = m_threads m ∧
    m_heap m1 !! 0%nat = Some (with_headerSent s) ∧
    (∀ b, stream_Send 0 b m1 = [(QErr ErrClosedPipe, m1)]) ∧
    finish 0 (with_headerSent s) (Some OK) m1 = [(FHandled, m2)] ∧
    m_out m2 = m_out m1 ++ [mkEnd 3 {| end_CloseSend := false;
                                       end_Status := Some (toProto (Some OK));
                                       end_Trailer := Some trailer |}].
Proof.
  cbv zeta. destruct (m_heap (run_demo true (take 1 echo_run)).1 !! 0%nat) as [s|] eqn:Hs.
  - unfold call_frame.
    edestruct (duplicate_call_ends_original demo_srv tt (run_demo true (take 1 echo_run)).1 0 s 3)
      as (code & msg & m1 & m2 & trailer & H); [..|exists code, msg, m1, m2, trailer, s; exact H].
    + by split; vm_compute.
    + by vm_compute.
    + exact Hs.
    + revert Hs. vm_compute. by intros [= <-].
  - exfalso. revert Hs. by vm_compute.
Defined.

(** ** Headers and trailers *)

(** A handler's calls of [SetHeader] ([true]) and [SetTrailer] ([false]). *)
Fixpoint meta_prog (ops : list (bool * Metadata)) (p : prog) : prog :=
  match ops with
  | [] => p
  | (true, kv) :: ops => CallSetHeader kv (meta_prog ops p)
  | (false, kv) :: ops => CallSetTrailer kv (meta_prog ops p)
  end.

(** The metadata of all of them, headers and trailers alike. *)
Definition meta_of (ops : list (bool * Metadata)) (md : Metadata) : Metadata :=
  foldl (λ md op, SetHeader md op.2) md ops.

(** The only step a goroutine can take. *)
Definition hdet (l : nat) (m m' : mux) : Prop := handler_step l m = [(FHandled, m')].

Lemma meta_prog_run l s ops p m :
  m_threads m !! l = Some (Running (meta_prog ops p)) → m_heap m !! l = Some s →
  ss_hdrStateSent s = false →
  ∃ m', rtc (hdet l) m m' ∧ m_threads m' !! l = Some (Running p) ∧
        m_heap m' !! l = Some (with_hdr (meta_of ops (ss_hdr s)) s) ∧
        m_out m' = m_out m ∧ m_streams m' = m_streams m ∧ m_done m' = m_done m ∧ m_ctx m' = m_ctx m.
Proof.
  revert s m. induction ops as [|[h kv] ops IH]; intros s m Ht Hs Hf.
  { exists m. split; [done|]. split; [done|]. split; [|done]. by destruct s. }
  set (s1 := with_hdr (SetHeader (ss_hdr s) kv) s).
  assert (∃ m1, hdet l m m1 ∧ m_threads m1 !! l = Some (Running (meta_prog ops p)) ∧
            m_heap m1 !! l = Some s1 ∧ m_out m1 = m_out m ∧ m_streams m1 = m_streams m ∧
            m_done m1 = m_done m ∧ m_ctx m1 = m_ctx m) as (m1 & H1 & Ht1 & Hs1 & Ho & Hst & Hd & Hc).
  { unfold hdet, handler_step. rewrite Ht, Hs.
    destruct h; cbn [meta_prog]; unfold stream_SetHeader; rewrite ?Hf.
    all: eexists; split; [done|]; cbn; rewrite lookup_insert, decide_True by done; split; [done|];
      split; [|done]; by rewrite lookup_alter, decide_True, Hs by done. }
  destruct (IH s1 m1 Ht1 Hs1 Hf) as (m' & Hr & Ht' & Hs' & Ho' & Hst' & Hd' & Hc').
  exists m'. split; [by eapply rtc_l|]. split; [done|]. split; [by rewrite Hs'; destruct s|].
  split_and!; congruence.
Qed.

(** Headers and trailers are one collection: a handler that sets metadata
    before and after its first [Send] and returns produces a [Begin] whose
    header holds everything set before that [Send], trailers included, and an
    [End] whose trailer holds everything set at all, headers included. *)
Theorem headers_and_trailers_shared l s q m ops1 ops2 b k st
    (Hup : up m) (Hl : lookupStream q m = Some l) (Hs : m_heap m !! l = Some s)
    (Hq : ss_seq s = q) (Hsent : st_headerSent s = false) (Hflag : ss_hdrStateSent s = false)
    (Ht : m_threads m !! l =
      Some (Running (meta_prog ops1 (Send b k))))
    (Hk : k None = meta_prog ops2 (Return st)) :
  ∃ m', rtc (hdet l) m m' ∧ m_threads m' !! l = None ∧ lookupStream q m' = None ∧
    m_out m' = m_out m ++
      [mkBegin q (Snapshot (meta_of ops1 (ss_hdr s)))] ++ data_frames q b ++
      [mkEnd q {| end_CloseSend := false; end_Status := Some (toProto st);
                  end_Trailer := Some (Snapshot (meta_of (ops1 ++ ops2) (ss_hdr s))) |}].
Proof.
  destruct (meta_prog_run l s ops1 _ m Ht Hs Hflag) as (m1 & R1 & Ht1 & Hs1 & Ho1 & Hst1 & Hd1 & Hc1).
  set (s1 := with_hdr (meta_of ops1 (ss_hdr s)) s) in *.
  assert (up m1) as Hup1 by (split; [rewrite Hd1|rewrite Hc1]; apply Hup).
  assert (lookupStream (ss_seq s1) m1 = Some l) as Hl1.
  { unfold lookupStream. rewrite Hst1. cbn. by rewrite Hq. }
  set (m2 := set_thread l (Running (meta_prog ops2 (Return st)))
               (write_outs (begin_frames q s1 ++ data_frames q b) (update l with_headerSent m1))).
  assert (hdet l m1 m2) as R2.
  { unfold hdet, handler_step. rewrite Ht1, Hs1.
    rewrite stream_Send_up with (s := s1), bind_one by done. cbn [ss_seq s1 with_hdr]. by rewrite Hq, Hk. }
  destruct (meta_prog_run l (with_headerSent s1) ops2 (Return st) m2)
    as (m3 & R3 & Ht3 & Hs3 & Ho3 & Hst3 & Hd3 & Hc3).
  { cbn. by rewrite lookup_insert, decide_True. }
  { unfold m2. cbn. rewrite write_outs_spec. cbn. by rewrite lookup_alter, decide_True, Hs1. }
  { done. }
  assert (up m3) as Hup3.
  { unfold m2 in Hd3, Hc3. cbn in Hd3, Hc3. rewrite write_outs_spec in Hd3, Hc3. cbn in Hd3, Hc3.
    split; [rewrite Hd3|rewrite Hc3]; apply Hup1. }
  assert (lookupStream q m3 = Some l) as Hl3.
  { unfold lookupStream. rewrite Hst3. unfold m2. cbn. rewrite write_outs_spec. cbn.
    by rewrite Hst1. }
  eexists. split.
  { etrans; [exact R1|]. eapply rtc_l; [exact R2|]. etrans; [exact R3|]. apply rtc_once.
    unfold hdet, handler_step. rewrite Ht3, Hs3. unfold finish. cbn [ss_seq with_hdr with_headerSent s1].
    rewrite Hq, (endStream_up_some _ _ l _ m3 Hup3 Hl3 Hs3), bind_one. done. }
  rewrite write_outs_spec. cbn. split; [by rewrite lookup_delete, decide_True|].
  split; [unfold lookupStream; cbn; by rewrite lookup_delete, decide_True|].
  rewrite Ho3. unfold m2. cbn. rewrite write_outs_spec. cbn. rewrite Ho1.
  unfold begin_frames at 1. cbn. rewrite Hsent. unfold meta_of. rewrite foldl_app.
  cbn. by rewrite <- !app_assoc.
Qed.

Definition meta_mux (ops1 ops2 : list (bool * Metadata)) : mux :=
  set_thread 0 (Running (meta_prog ops1 (Send (str_bytes "b") (λ _, meta_prog ops2 (Return None)))))
    (add_stream 3 (newServerStream None 0 "/demo/M" 3 None) newMultiplexer).

Lemma headers_and_trailers_shared_witness :
  let ops1 := [(false, demo_md "t" "1")] in
  let ops2 := [(true, demo_md "h" "2")] in
  ∃ m', rtc (hdet 0) (meta_mux ops1 ops2) m' ∧ m_threads m' !! 0%nat = None ∧
    lookupStream 3 m' = None ∧
    m_out m' =
      [mkBegin 3 (Snapshot (meta_of ops1 ∅))] ++ data_frames 3 (str_bytes "b") ++
      [mkEnd 3 {| end_CloseSend := false; end_Status := Some (toProto None);
                  end_Trailer := Some (Snapshot (meta_of (ops1 ++ ops2) ∅)) |}].
Proof.
  cbv zeta. apply (headers_and_trailers_shared 0 (newServerStream None 0 "/demo/M" 3 None) 3
    (meta_mux [(false, demo_md "t" "1")] [(true, demo_md "h" "2")]) _ _ _
    (λ _, meta_prog [(true, demo_md "h" "2")] (Return None))); done.
Defined.

(** ** When the serve loop blocks *)

(** The payload a frame delivers to its stream, once reassembled. *)
Definition payload_of (f : Frame) (m : mux) : option bytes :=
  match f_Type f with
  | Some (Frame_Data (Some {| data_Content := Some (Data_Message b) |})) => Some b
  | Some (Frame_Data (Some {| data_Content := Some (Data_Chunk c) |})) =>
      match (Reassembler.Reassemble (m_reasm m) (int32 (routing_seq (f_Routing f)))
               (TotalSize c) (Offset c) (chunk_Data c)).1 with
      | Ok (Some full) => Some full
      | _ => None
      end
  | _ => None
  end.

Lemma deliverPayload_nil q p m l s :
  lookupStream q m = Some l → m_heap m !! l = Some s →
  deliverPayload q p m = [] ↔ (inbound_cap ≤ length (ss_inbound s))%nat ∧ ss_ctx s = None.
Proof.
  intros Hl Hs. unfold deliverPayload. rewrite Hl, Hs.
  case_decide; destruct (ss_ctx s); cbn; split; try done; try (intros []; done || lia).
  intros _. split; [lia|done].
Qed.

(** A frame that the serve loop cannot take. *)
Lemma blocked_frame {Vals} (srv : @Server Vals) vals m used f :
  Inv m used → up m →
  handleFrame srv vals f m = [] ↔
  ∃ p l s, payload_of f m = Some p ∧ lookupStream (routing_seq (f_Routing f)) m = Some l ∧
    m_heap m !! l = Some s ∧ (inbound_cap ≤ length (ss_inbound s))%nat ∧ ss_ctx s = None.
Proof.
  intros Hinv Hup.
  set (q := routing_seq (f_Routing f)).
  assert (∀ q' e, endStream q' e m ≠ []) as Hend.
  { intros q' e. destruct (lookupStream q' m) as [l|] eqn:Hl; [|by rewrite endStream_up_none].
    destruct (inv_streams _ _ Hinv _ _ Hl) as (_ & s & Hs & _).
    by rewrite endStream_up_some with (l := l) (s := s). }
  assert (∀ q' e (g : qres * mux → list (fres * mux)), (∀ rm, g rm ≠ []) →
            endStream q' e m ≫= g ≠ []) as Hbind.
  { intros q' e g Hg. specialize (Hend q' e).
    destruct (endStream q' e m) as [|rm l]; [done|]. cbn. intros [H _]%app_eq_nil.
    by destruct (Hg rm). }
  assert (∀ p m', m_streams m' = m_streams m → m_heap m' = m_heap m →
    pair FHandled <$> deliverPayload q p m' = [] ↔
    ∃ l s, lookupStream q m = Some l ∧ m_heap m !! l = Some s ∧
      (inbound_cap ≤ length (ss_inbound s))%nat ∧ ss_ctx s = None) as Hdel.
  { intros p m' Hs' Hh'.
    assert (∀ k : list mux, pair FHandled <$> k = [] ↔ k = []) as -> by (intros []; done).
    destruct (lookupStream q m) as [l|] eqn:Hl.
    - destruct (inv_streams _ _ Hinv _ _ Hl) as (_ & s & Hs & _).
      rewrite (deliverPayload_nil q p m' l s); [|unfold lookupStream; by rewrite Hs'|by rewrite Hh'].
      split; [intros [? ?]; by exists l, s|]. intros (l' & s' & [= <-] & Hs1 & ? & ?).
      rewrite Hs in Hs1. by injection Hs1 as <-.
    - unfold deliverPayload, lookupStream in *. rewrite Hs', Hl. split; [done|by intros (? & ? & ? & _)]. }
  unfold handleFrame, payload_of. fold q.
  destruct (f_Type f) as [[call|[[[[msg|c]|]]|]|e]|]; cbn [data_Content deliverData];
    try (split; [done|by intros (? & ? & ? & ? & _)]).
  - split; [|by intros (? & ? & ? & ? & _)]. intros H. exfalso. revert H. unfold openStream.
    destruct call as [call|]; [destruct (findMethod _ _) as [md|]|];
      [|apply Hbind; by intros [[] ?]..].
    cbn zeta. destruct (lookupStream q m) as [l|]; [apply Hbind; by intros [[] ?]|].
    destruct (call_InlineData call); cbn; done.
  - unfold deliverData; cbn [data_Content]. rewrite Hdel by done.
    split; [intros (l & s & ?); by exists msg, l, s|intros (p & l & s & _ & ?); by exists l, s].
  - unfold deliverData; cbn [data_Content].
    destruct (Reassembler.Reassemble _ _ _ _ _) as [[[full|]|err|pn] rs]; cbn [fst];
      try (split; [done|by intros (? & ? & ? & ? & _)]).
    rewrite Hdel by done.
    split; [intros (l & s & ?); by exists full, l, s|intros (p & l & s & _ & ?); by exists l, s].
Qed.

(** Head-of-line blocking: the serve loop blocks on a frame exactly when
    the frame completes a message for a stream whose inbound buffer holds 16
    messages and whose context is alive; no frame of any other stream (nor a
    cancel of this one) is read until that handler receives. *)
Theorem serve_loop_blocks_iff {Vals} (srv : @Server Vals) vals m used f
    (Hr : reachable True srv vals (m, used)) (Hup : up m) :
  handleFrame srv vals f m = [] ↔
  ∃ p l s, payload_of f m = Some p ∧ lookupStream (routing_seq (f_Routing f)) m = Some l ∧
    m_heap m !! l = Some s ∧ (inbound_cap ≤ length (ss_inbound s))%nat ∧ ss_ctx s = None.
Proof. exact (blocked_frame srv vals m used f (reachable_Inv srv vals (m, used) Hr Hup) Hup). Qed.

Lemma serve_loop_blocks_iff_witness :
  let m := (run_demo true full_run).1 in
  let f := data_frame 3 (str_bytes "x") in
  up m ∧
  (handleFrame demo_srv tt f m = [] ↔
   ∃ p l s, payload_of f m = Some p ∧ lookupStream 3 m = Some l ∧
     m_heap m !! l = Some s ∧ (inbound_cap ≤ length (ss_inbound s))%nat ∧ ss_ctx s = None) ∧
  handleFrame demo_srv tt f m = [].
Proof.
  cbv zeta. split; [by split; vm_compute|]. split; [|by vm_compute].
  apply (serve_loop_blocks_iff demo_srv tt _ (run_demo true full_run).2
           (data_frame 3 (str_bytes "x"))).
  - apply run_demo_reachable; [done|by vm_compute].
  - by split; vm_compute.
Defined.

(** ** What [Recv] returns *)

Definition data_then_close (q : Z) (b : bytes) : list Frame :=
  [ {| f_Routing := Some {| Sequence := q |};
       f_Type := Some (Frame_Data (Some {| data_Content := Some (Data_Message b) |})) |};
    {| f_Routing := Some {| Sequence := q |};
       f_Type := Some (Frame_End (Some
         {| end_CloseSend := true; end_Status := None; end_Trailer := None |})) |} ].

(** The end of a client's stream can overtake its last message.  When a
    message and a half-close arrive for a stream with an empty buffer, a handler
    that calls [Recv] after both gets the message; a handler that was already
    blocked in [Recv]'s second [select] (and is scheduled after both) may get
    either the message or [io.EOF], with the message still queued. *)
Theorem half_close_may_overtake {Vals} (srv : @Server Vals) vals m l s b k
    (Hl : lookupStream (ss_seq s) m = Some l) (Hs : m_heap m !! l = Some s)
    (Hin : ss_inbound s = []) (Hctx : ss_ctx s = None) :
  ∃ f1 f2 m1 m2, [f1; f2] = data_then_close (ss_seq s) b ∧
    handleFrame srv vals f1 m = [(FHandled, m1)] ∧
    handleFrame srv vals f2 m1 = [(FHandled, m2)] ∧
    (m_threads m !! l = Some (Running (Recv k)) →
       ∃ m3, handler_step l m2 = [(FHandled, m3)] ∧
             m_threads m3 !! l = Some (Running (k (inl b)))) ∧
    (m_threads m !! l = Some (InSelect k) →
       ∃ m3 m4, handler_step l m2 = [(FHandled, m3); (FHandled, m4)] ∧
             m_threads m3 !! l = Some (Running (k (inl b))) ∧
             m_threads m4 !! l = Some (Running (k (inr EOF))) ∧
             (ss_inbound <$> m_heap m4 !! l) = Some [b]).
Proof.
  set (q := ss_seq s) in *.
  set (m1 := update l (with_inbound [b]) m). set (m2 := update l with_halfClose m1).
  eexists _, _, m1, m2. split; [done|].
  assert (m_heap m2 !! l = Some (with_halfClose (with_inbound [b] s))) as Hs2.
  { unfold m2, m1. cbn. by rewrite !lookup_alter, !decide_True, Hs. }
  split_and!.
  - unfold handleFrame, deliverData, deliverPayload. cbn [f_Type f_Routing routing_seq Sequence data_Content].
    rewrite Hl, Hs, Hin, Hctx. done.
  - unfold handleFrame, handleEnd. cbn [f_Type f_Routing routing_seq Sequence end_CloseSend].
    by unfold lookupStream in *; cbn; rewrite Hl.
  - intros Ht. unfold handler_step. cbn [m_threads m2 m1 update set_heap]. rewrite Ht, Hs2.
    cbn [ss_inbound with_halfClose with_inbound]. eexists. split; [done|].
    cbn. by rewrite lookup_insert, decide_True.
  - intros Ht. unfold handler_step. cbn [m_threads m2 m1 update set_heap]. rewrite Ht, Hs2.
    cbn [ss_inbound ss_halfClose ss_ctx with_halfClose with_inbound]. rewrite Hctx.
    eexists _, _. split; [done|]. cbn.
    rewrite !lookup_insert, !decide_True by done. split; [done|split; [done|]].
    by rewrite !lookup_alter, !decide_True, Hs by done.
Qed.

(** The echo handler, blocked in [Recv]. *)
Lemma half_close_may_overtake_witness :
  let m := (run_demo true [EFrame (call_frame 3 "/demo/Echo" None) 0; EHandler 0 0]).1 in
  let k := λ r : bytes + error, match r with
             | inl b => Send b (λ _, CallSetHeader (demo_md "late" "h") (Return (Some OK)))
             | inr _ => Return (Some (Err 13 (Some (ErrorString "no message")))) end in
  ∃ f1 f2 m1 m2, [f1; f2] = data_then_close 3 (str_bytes "x") ∧
    handleFrame demo_srv tt f1 m = [(FHandled, m1)] ∧
    handleFrame demo_srv tt f2 m1 = [(FHandled, m2)] ∧
    ∃ m3 m4, handler_step 0 m2 = [(FHandled, m3); (FHandled, m4)] ∧
             m_threads m3 !! 0%nat = Some (Running (k (inl (str_bytes "x")))) ∧
             m_threads m4 !! 0%nat = Some (Running (k (inr EOF))) ∧
             (ss_inbound <$> m_heap m4 !! 0%nat) = Some [str_bytes "x"].
Proof.
  cbv zeta.
  set (m := (run_demo true [EFrame (call_frame 3 "/demo/Echo" None) 0; EHandler 0 0]).1).
  set (k := λ r : bytes + error, _).
  edestruct (half_close_may_overtake demo_srv tt m 0
    (newServerStream None 0 "/demo/Echo" 3 None) (str_bytes "x") k)
    as (f1 & f2 & m1 & m2 & Hf & H1 & H2 & _ & H3); [by vm_compute..|].
  exists f1, f2, m1, m2. split; [exact Hf|]. split; [exact H1|]. split; [exact H2|].
  apply H3. by vm_compute.
Defined.

(** ** How [Serve] ends *)

(** [Serve] never returns nil: whenever [Channel.Recv] fails, because the
    channel was closed (for whatever reason, a graceful close included) or the
    context is done, [Serve] returns that error, since the closed-channel error
    is a wrapped one and [isClosed] compares with [==]. *)
Theorem Serve_never_returns_nil {Vals DC} `{Codec Frame} (srv : @Server Vals) vals m
    (c c' : @Channel DC) ctx e
    (Hctx : ctx ∈ [None; Some Canceled; Some DeadlineExceeded])
    (Hrecv : (Fail e, c') ∈ Channel.Recv c ctx) :
  serve_iter srv vals (Fail e) m = [(Returned (Some e), shutdown m)].
Proof.
  unfold serve_iter, isClosed.
  assert (e ≠ EOF ∧ e ≠ ErrClosedPipe) as [He1 He2].
  { apply Recv_inv in Hrecv as [(? & ? & _ & [=] & _)|[(_ & [= ->] & _)|(e' & -> & [= ->] & _)]].
    - done.
    - apply elem_of_cons in Hctx as [?|[?|?%list_elem_of_singleton]%elem_of_cons]; by simplify_eq. }
  by rewrite !bool_decide_eq_false_2.
Qed.
