(* ===== verification/RpcClient.v ===== *)
(** * The RPC client (rpc/client.go, rpc/context.go)

    The allocator of sequence numbers, the table of in-flight streams, the
    dispatch of response frames by the [Attach] goroutine, the four kinds of
    invocation and the [ClientStream] they return.

    As on the server, a pointer to a stream is an allocation number into
    [cl_heap], a [select] gives a list of alternatives, and an empty list is a
    goroutine that stays blocked.  [cl_sent] is the list of frames handed to
    [Channel.SendFrame], whose errors the client drops. *)

From Stdlib Require Import Strings.Byte ZArith Lia.
From stdpp Require Import numbers strings gmap fin_maps relations list.
From S2P Require Import Prelude Status Messages Transport Chunks.
Open Scope Z_scope.

(** [make(chan inboundResp, 16)] in [openStream]. *)
Definition resp_cap : nat := 16.

(** ** Contexts (rpc/context.go) *)

(** What the client reads of a [context.Context]: [Err()], [Deadline()] (as
    [time.Until(dl).Milliseconds()]) and the outgoing header. *)
Record context : Type := {
  ctx_Err : option error;
  ctx_Deadline : option Z;
  ctx_hdr : option Metadata }.

Definition ctxWithOutgoingHeader (ctx : context) (hdr : Metadata) : context :=
  {| ctx_Err := ctx_Err ctx; ctx_Deadline := ctx_Deadline ctx; ctx_hdr := Some hdr |}.

Definition OutgoingHeaderFromCtx (ctx : context) : option Metadata := ctx_hdr ctx.

(** ** State *)

Record inboundResp : Type := { ir_data : bytes; ir_err : option error }.

Record endResult : Type := { er_status : Status; er_err : option error }.

(** [cs_end] is the result, once [endOnce] has stored it and closed [end]. *)
Record clientStream : Type := {
  cs_seq : Z;
  cs_method : string;
  cs_header : Metadata;
  cs_trailer : Metadata;
  cs_inbound : list inboundResp;
  cs_end : option endResult }.

Record client : Type := {
  cl_seqAlloc : Z;                 (* atomic.Uint32 *)
  cl_reasm : Reassembler.state;
  cl_streams : gmap Z nat;
  cl_closeOnce : bool;
  cl_heap : gmap nat clientStream;
  cl_next : nat;
  cl_attached : bool;              (* the Attach goroutine is running *)
  cl_sent : list Frame }.

(** [NewClient], with [Attach] started. *)
Definition NewClient : client :=
  {| cl_seqAlloc := 1; cl_reasm := Reassembler.NewReassembler; cl_streams := ∅;
     cl_closeOnce := false; cl_heap := ∅; cl_next := 0; cl_attached := true; cl_sent := [] |}.

Definition set_reasm (r : Reassembler.state) (c : client) : client :=
  {| cl_seqAlloc := cl_seqAlloc c; cl_reasm := r; cl_streams := cl_streams c;
     cl_closeOnce := cl_closeOnce c; cl_heap := cl_heap c; cl_next := cl_next c;
     cl_attached := cl_attached c; cl_sent := cl_sent c |}.
Definition set_streams (ss : gmap Z nat) (c : client) : client :=
  {| cl_seqAlloc := cl_seqAlloc c; cl_reasm := cl_reasm c; cl_streams := ss;
     cl_closeOnce := cl_closeOnce c; cl_heap := cl_heap c; cl_next := cl_next c;
     cl_attached := cl_attached c; cl_sent := cl_sent c |}.
Definition update (l : nat) (f : clientStream → clientStream) (c : client) : client :=
  {| cl_seqAlloc := cl_seqAlloc c; cl_reasm := cl_reasm c; cl_streams := cl_streams c;
     cl_closeOnce := cl_closeOnce c; cl_heap := alter f l (cl_heap c); cl_next := cl_next c;
     cl_attached := cl_attached c; cl_sent := cl_sent c |}.
Definition sendFrame (f : Frame) (c : client) : client :=
  {| cl_seqAlloc := cl_seqAlloc c; cl_reasm := cl_reasm c; cl_streams := cl_streams c;
     cl_closeOnce := cl_closeOnce c; cl_heap := cl_heap c; cl_next := cl_next c;
     cl_attached := cl_attached c; cl_sent := cl_sent c ++ [f] |}.
Definition detach (c : client) : client :=
  {| cl_seqAlloc := cl_seqAlloc c; cl_reasm := cl_reasm c; cl_streams := cl_streams c;
     cl_closeOnce := cl_closeOnce c; cl_heap := cl_heap c; cl_next := cl_next c;
     cl_attached := false; cl_sent := cl_sent c |}.

Definition with_header (md : Metadata) (s : clientStream) : clientStream :=
  {| cs_seq := cs_seq s; cs_method := cs_method s; cs_header := md; cs_trailer := cs_trailer s;
     cs_inbound := cs_inbound s; cs_end := cs_end s |}.
Definition with_trailer (md : Metadata) (s : clientStream) : clientStream :=
  {| cs_seq := cs_seq s; cs_method := cs_method s; cs_header := cs_header s; cs_trailer := md;
     cs_inbound := cs_inbound s; cs_end := cs_end s |}.
Definition with_inbound (q : list inboundResp) (s : clientStream) : clientStream :=
  {| cs_seq := cs_seq s; cs_method := cs_method s; cs_header := cs_header s;
     cs_trailer := cs_trailer s; cs_inbound := q; cs_end := cs_end s |}.
(** [endOnce.Do]: the first result stays. *)
Definition end_once (r : endResult) (s : clientStream) : clientStream :=
  {| cs_seq := cs_seq s; cs_method := cs_method s; cs_header := cs_header s;
     cs_trailer := cs_trailer s; cs_inbound := cs_inbound s;
     cs_end := match cs_end s with Some r0 => Some r0 | None => Some r end |}.

(** ** Sequence numbers and streams *)

Definition nextSeq (c : client) : Z * client :=
  let n := uint32 (cl_seqAlloc c + 2) in
  (Z.land n 0x7FFFFFFF,
   {| cl_seqAlloc := n; cl_reasm := cl_reasm c; cl_streams := cl_streams c;
      cl_closeOnce := cl_closeOnce c; cl_heap := cl_heap c; cl_next := cl_next c;
      cl_attached := cl_attached c; cl_sent := cl_sent c |}).

Definition openStream (method : string) (c : client) : nat * Z * client :=
  let '(seq, c) := nextSeq c in
  let cs := {| cs_seq := seq; cs_method := method; cs_header := ∅; cs_trailer := ∅;
               cs_inbound := []; cs_end := None |} in
  let l := cl_next c in
  (l, seq,
   {| cl_seqAlloc := cl_seqAlloc c; cl_reasm := cl_reasm c;
      cl_streams := <[seq := l]> (cl_streams c); cl_closeOnce := cl_closeOnce c;
      cl_heap := <[l := cs]> (cl_heap c); cl_next := S l;
      cl_attached := cl_attached c; cl_sent := cl_sent c |}).

Definition cleanupStream (seq : Z) (c : client) : client :=
  set_streams (delete seq (cl_streams c)) c.

(** ** Inbound frames *)

Definition deliver (l : nat) (payload : bytes) (c : client) : list client :=
  match cl_heap c !! l with
  | None => []
  | Some cs =>
      (if decide (length (cs_inbound cs) < resp_cap)%nat
       then [update l (with_inbound (cs_inbound cs ++ [{| ir_data := payload; ir_err := None |}])) c]
       else []) ++
      (match cs_end cs with Some _ => [c] | None => [] end)
  end.

Definition dispatch_begin (l : nat) (b : option Begin) (c : client) : list client :=
  match b with
  | None => [c]
  | Some b =>
      let c := match begin_Header b with
               | Some h => update l (λ cs, with_header (mergeIn (cs_header cs) (map_to_list h)) cs) c
               | None => c end in
      match begin_InlineData b with
      | Some d => if 0 <? len d then deliver l d c else [c]
      | None => [c]
      end
  end.

Definition dispatch_end (l : nat) (seq : Z) (e : option End) (c : client) : client :=
  let c := match e with
           | Some e =>
               match end_Trailer e with
               | Some t => update l (λ cs, with_trailer (mergeIn (cs_trailer cs) (map_to_list t)) cs) c
               | None => c end
           | None => c end in
  let st := match e with
            | Some e => match end_Status e with
                        | Some p => statusFromProto (Some p)
                        | None => OK end
            | None => OK end in
  let c := update l (end_once {| er_status := st; er_err := Status_Err (Some st) |}) c in
  set_streams (delete seq (cl_streams c)) c.

Definition dispatch (f : ResponseFrame) (c : client) : list (res unit * client) :=
  let seq := routing_seq (rf_Routing f) in
  match cl_streams c !! seq with
  | None => [(Ok tt, c)]
  | Some l =>
      match rf_Type f with
      | Some (ResponseFrame_Begin b) => pair (Ok tt) <$> dispatch_begin l b c
      | Some (ResponseFrame_Data d) =>
          match GetContent d with
          | Some (Data_Message m) => pair (Ok tt) <$> deliver l m c
          | Some (Data_Chunk ch) =>
              let '(o, r) := Reassembler.Reassemble (cl_reasm c) (int32 seq) (TotalSize ch)
                               (Offset ch) (chunk_Data ch) in
              let c := set_reasm r c in
              match o with
              | Ok (Some full) => pair (Ok tt) <$> deliver l full c
              | Ok None => [(Ok tt, c)]
              | Fail e => [(Fail e, c)]
              | Panic s => [(Panic s, c)]
              end
          | None => [(Ok tt, c)]
          end
      | Some (ResponseFrame_End e) => [(Ok tt, dispatch_end l seq e c)]
      | None => [(Ok tt, c)]
      end
  end.

(** [failAll(err)]: the streams of the table end with code 14. *)
Definition fail_stream (err : error) (ls : gset nat) (l : nat) (cs : clientStream) : clientStream :=
  if bool_decide (l ∈ ls) then end_once {| er_status := Err 14 (Some err); er_err := Some err |} cs
  else cs.

Definition failAll (err : error) (c : client) : client :=
  if cl_closeOnce c then c else
  let ls := list_to_set (snd <$> map_to_list (cl_streams c)) : gset nat in
  {| cl_seqAlloc := cl_seqAlloc c; cl_reasm := cl_reasm c; cl_streams := ∅; cl_closeOnce := true;
     cl_heap := map_imap (λ l cs, Some (fail_stream err ls l cs)) (cl_heap c);
     cl_next := cl_next c; cl_attached := cl_attached c; cl_sent := cl_sent c |}.

(** One iteration of [Attach], given what [ch.Recv] returned. *)
Inductive ares : Type := AContinue | AReturned (err : option error) | ACrashed (msg : string).

Definition attach_closed (err : error) : bool :=
  bool_decide (err = EOF) || (bool_decide (err = EOF) || bool_decide (err = ErrClosedPipe)).

Definition attach_iter `{Codec ResponseFrame} (r : res bytes) (c : client) : list (ares * client) :=
  match r with
  | Fail err =>
      [(AReturned (if attach_closed err then None else Some err), detach (failAll err c))]
  | Panic s => [(ACrashed s, c)]
  | Ok raw =>
      match unmarshal raw with
      | None => [(AContinue, c)]
      | Some f =>
          '(r, c) ← dispatch f c;
          [(match r with Ok _ => AContinue | Fail e => ACrashed (error_string e)
                       | Panic s => ACrashed s end, c)]
      end
  end.

(** ** Outbound frames *)

Definition mkCall (seq : Z) (call : Call) : Frame :=
  {| f_Routing := Some {| Sequence := int32 seq |}; f_Type := Some (Frame_Call (Some call)) |}.

Definition mkReqData (seq : Z) (d : Content) : Frame :=
  {| f_Routing := Some {| Sequence := int32 seq |};
     f_Type := Some (Frame_Data (Some {| data_Content := Some d |})) |}.

Definition mkReqEnd (seq : Z) (e : End) : Frame :=
  {| f_Routing := Some {| Sequence := int32 seq |}; f_Type := Some (Frame_End (Some e)) |}.

Definition close_send : End :=
  {| end_CloseSend := true; end_Status := None; end_Trailer := None |}.

Definition cancel_end : End :=
  {| end_CloseSend := false;
     end_Status := Some {| pb_Code := 1; pb_Message := "cancelled by client" |};
     end_Trailer := None |}.

Definition sendPayload (seq : Z) (b : bytes) (c : client) : client :=
  if len b <=? MessageMax then sendFrame (mkReqData seq (Data_Message b)) c
  else foldl (λ c (ch : chunk), sendFrame (mkReqData seq (Data_Chunk
         {| TotalSize := int32 (len b); Offset := int32 ch.1; chunk_Data := ch.2 |})) c)
       c (fragment ChunkSize b).

(** [append([]byte(nil), b...)], which is nil for an empty [b]. *)
Definition copy_bytes (b : bytes) : option bytes := match b with [] => None | _ => Some b end.

(** [int32(time.Until(dl).Milliseconds())]. *)
Definition call_deadline (ctx : context) : Z :=
  match ctx_Deadline ctx with Some ms => int32 ms | None => 0 end.

(** The call, the request and the half-close that [invokeUnary] and
    [InvokeServerStreaming] send. *)
Definition send_request (seq : Z) (call : Call) (req : bytes) (c : client) : client :=
  let c := sendFrame (mkCall seq call) c in
  let c := match call_InlineData call with None => sendPayload seq req c | Some _ => c end in
  sendFrame (mkReqEnd seq close_send) c.

Definition unary_call (ctx : context) (method : string) (req : bytes) : Call :=
  {| call_Method := method;
     call_Metadata := metadataFromKV <$> OutgoingHeaderFromCtx ctx;
     call_DeadlineMs := call_deadline ctx;
     call_InlineData := if len req <=? InlineMax then copy_bytes req else None;
     call_ProtocolVersion := 1 |}.

Definition streaming_call (ctx : context) (method : string) (inline : option bytes) (hdr : Metadata) : Call :=
  {| call_Method := method; call_Metadata := Some (metadataFromKV hdr);
     call_DeadlineMs := call_deadline ctx; call_InlineData := inline; call_ProtocolVersion := 1 |}.

(** [invokeUnary] up to its [select]. *)
Definition invokeUnary_open (ctx : context) (method : string) (req : bytes) (c : client)
    : nat * Z * client :=
  let '(l, seq, c) := openStream method c in
  (l, seq, send_request seq (unary_call ctx method req) req c).

(** The [ClientStream]: its stream, its context and [closeSendOnce]. *)
Record ClientStream : Type := { str_cs : nat; str_ctx : context; str_closed : bool }.

Definition InvokeServerStreaming (ctx : context) (method : string) (req : bytes) (hdr : Metadata)
    (c : client) : ClientStream * Status * client :=
  let '(l, seq, c) := openStream method c in
  let inline := if len req <=? InlineMax then copy_bytes req else None in
  ({| str_cs := l; str_ctx := ctx; str_closed := false |}, OK,
   send_request seq (streaming_call ctx method inline hdr) req c).

(** [firstReq] is [None] for nil. *)
Definition InvokeClientStreaming (ctx : context) (method : string) (firstReq : option bytes)
    (hdr : Metadata) (c : client) : ClientStream * Status * client :=
  let '(l, seq, c) := openStream method c in
  let first := default [] firstReq in
  let inline := if (0 <? len first) && (len first <=? InlineMax) then copy_bytes first else None in
  let c := sendFrame (mkCall seq (streaming_call ctx method inline hdr)) c in
  let c := match firstReq, inline with
           | Some b, None => sendPayload seq b c
           | _, _ => c
           end in
  ({| str_cs := l; str_ctx := ctx; str_closed := false |}, OK, c).

Definition InvokeBidiStreaming := InvokeClientStreaming.

(** ** Waiting for the response *)

(** [invokeUnary]'s two selects. *)
Inductive uwait : Type := UWait | UGot (data : bytes).

Inductive uout : Type :=
  | UPending (w : uwait)
  | UReturn (data : option bytes) (status : Status).

Definition unary_select (ctx : option error) (l : nat) (w : uwait) (c : client)
    : list (uout * client) :=
  match cl_heap c !! l with
  | None => []
  | Some cs =>
      (match w with
       | UWait =>
           match cs_inbound cs with
           | r :: q =>
               let c := update l (with_inbound q) c in
               [(match ir_err r with
                 | Some e => UReturn None (Err 13 (Some e))
                 | None => UPending (UGot (ir_data r)) end, c)]
           | [] => []
           end
       | UGot _ => []
       end) ++
      (match cs_end cs with
       | Some r => [(UReturn (match w with UWait => None | UGot d => Some d end) (er_status r), c)]
       | None => []
       end) ++
      (match ctx with Some e => [(UReturn None (Err 4 (Some e)), c)] | None => [] end)
  end.

(** The interceptor chain: interceptors are programs that may invoke the next
    one any number of times. *)
Inductive uprog : Type :=
  | UDone (data : option bytes) (status : Status)
  | UInvoke (ctx : context) (method : string) (req : bytes)
      (k : option bytes → Status → uprog).

Definition InvokeUnary (is_ : list (@UnaryClientInterceptor context bytes uprog))
    (ctx : context) (method : string) (req : bytes) (hdr : option Metadata) : uprog :=
  let ctx := match hdr with Some h => ctxWithOutgoingHeader ctx h | None => ctx end in
  chainUnaryClient is_ (λ ctx method req, UInvoke ctx method req UDone) ctx method req.

(** ** ClientStream *)

Definition Stream_Send (s : ClientStream) (b : bytes) (c : client) : option error * client :=
  match cl_heap c !! str_cs s with
  | Some cs => (None, sendPayload (cs_seq cs) b c)
  | None => (Some ErrClosedPipe, c)
  end.

Definition CloseSend (s : ClientStream) (c : client) : ClientStream * client :=
  if str_closed s then (s, c) else
  let s' := {| str_cs := str_cs s; str_ctx := str_ctx s; str_closed := true |} in
  match cl_heap c !! str_cs s with
  | Some cs => (s', sendFrame (mkReqEnd (cs_seq cs) close_send) c)
  | None => (s', c)
  end.

(** [Recv]: the non-blocking receive, then the [select]. *)
Inductive rwait : Type := RStart | RSelect.

Inductive rout : Type :=
  | RPending (w : rwait)
  | RReturn (data : option bytes) (err : option error).

Definition Stream_Recv (ctx : option error) (l : nat) (w : rwait) (c : client)
    : list (rout * client) :=
  match cl_heap c !! l with
  | None => []
  | Some cs =>
      let receive := match cs_inbound cs with
                     | r :: q => [(RReturn (Some (ir_data r)) (ir_err r), update l (with_inbound q) c)]
                     | [] => [] end in
      match w with
      | RStart => match receive with [] => [(RPending RSelect, c)] | _ => receive end
      | RSelect =>
          receive ++
          (match cs_end cs with
           | Some r =>
               [(RReturn None (if bool_decide (er_err r ≠ None) && negb (Code (er_status r) =? 0)
                               then er_err r else Some EOF), c)]
           | None => []
           end) ++
          (match ctx with Some e => [(RReturn None (Some e), c)] | None => [] end)
      end
  end.

Definition Stream_Header (l : nat) (c : client) : option Metadata :=
  (λ cs, copyMetadata (Some (cs_header cs))) <$> cl_heap c !! l.
Definition Stream_Trailer (l : nat) (c : client) : option Metadata :=
  (λ cs, copyMetadata (Some (cs_trailer cs))) <$> cl_heap c !! l.

(** The goroutine of [watchCancel]. *)
Definition watchCancel (ctx : option error) (l : nat) (c : client) : list client :=
  match cl_heap c !! l with
  | None => []
  | Some cs =>
      (match ctx with Some _ => [sendFrame (mkReqEnd (cs_seq cs) cancel_end) c] | None => [] end) ++
      (match cs_end cs with Some _ => [c] | None => [] end)
  end.

(** ** The transition system *)

(** Steps of the application's goroutines.  [on l] says that the stream at [l]
    may be received from. *)
Inductive app_step (on : nat → Prop) : client → client → Prop :=
  | step_unary ctx method req l seq c c' :
      invokeUnary_open ctx method req c = (l, seq, c') → app_step on c c'
  | step_server_streaming ctx method req hdr s st c c' :
      InvokeServerStreaming ctx method req hdr c = (s, st, c') → app_step on c c'
  | step_client_streaming ctx method req hdr s st c c' :
      InvokeClientStreaming ctx method req hdr c = (s, st, c') → app_step on c c'
  | step_select ctx l w o c c' : on l → (o, c') ∈ unary_select ctx l w c → app_step on c c'
  | step_recv ctx l w o c c' : on l → (o, c') ∈ Stream_Recv ctx l w c → app_step on c c'
  | step_send s b o c c' : Stream_Send s b c = (o, c') → app_step on c c'
  | step_close_send s s' c c' : CloseSend s c = (s', c') → app_step on c c'
  | step_watch ctx l c c' : c' ∈ watchCancel ctx l c → app_step on c c'
  | step_cleanup seq c : app_step on c (cleanupStream seq c).

(** Steps of the [Attach] goroutine. *)
Inductive attach_step : client → client → Prop :=
  | step_frame f c c' : cl_attached c = true → (Ok tt, c') ∈ dispatch f c → attach_step c c'
  | step_detach err c : cl_attached c = true → attach_step c (detach (failAll err c)).

Definition step (c c' : client) : Prop := app_step (λ _, True) c c' ∨ attach_step c c'.

Definition reachable (c : client) : Prop := rtc step NewClient c.
