(* ===== verification/RpcClientProps.v ===== *)
(** * Properties of the client

    The invariant of the stream table, and what it gives: distinct sequence
    numbers, when the [Attach] goroutine blocks, which results a waiting call
    may see, and what happens to calls when and after the transport fails. *)

From Stdlib Require Import Strings.Byte ZArith Lia.
From stdpp Require Import numbers strings gmap fin_maps relations list.
From S2P Require Import Prelude Status Messages Transport Chunks RpcClient.
Open Scope Z_scope.

(** The sequence number of the [n]-th stream, counting from 0. *)
Definition seq_at (n : nat) : Z := (2 * Z.of_nat n + 3) `mod` two31.

Lemma seq_at_odd n : Z.odd (seq_at n) = true ∧ 1 ≤ seq_at n < two31.
Proof.
  unfold seq_at. zconsts. split.
  - rewrite Z.odd_spec. exists ((2 * Z.of_nat n + 3) mod 2147483648 / 2).
    Z.to_euclidean_division_equations. lia.
  - Z.to_euclidean_division_equations. lia.
Qed.

Lemma seq_at_int32 n : int32 (seq_at n) = seq_at n.
Proof. apply int32_id. pose proof (seq_at_odd n). zconsts. lia. Qed.

Lemma seq_at_distinct i j :
  (i < j)%nat → Z.of_nat j - Z.of_nat i < 2 ^ 30 → seq_at i ≠ seq_at j.
Proof.
  unfold seq_at. zconsts. change (2 ^ 30) with 1073741824. intros Hij Hd He.
  Z.to_euclidean_division_equations. lia.
Qed.

Lemma nextSeq_value n c :
  cl_seqAlloc c = uint32 (2 * Z.of_nat n + 1) →
  (nextSeq c).1 = seq_at n ∧ cl_seqAlloc (nextSeq c).2 = uint32 (2 * Z.of_nat (S n) + 1).
Proof.
  intros Ha. unfold nextSeq; cbn [fst snd cl_seqAlloc]. rewrite Ha.
  assert (uint32 (uint32 (2 * Z.of_nat n + 1) + 2) = uint32 (2 * Z.of_nat (S n) + 1)) as ->.
  { unfold uint32. zconsts. rewrite Zplus_mod_idemp_l. f_equal. lia. }
  split; [|done]. change 0x7FFFFFFF with (Z.ones 31). rewrite Z.land_ones by lia.
  unfold seq_at, uint32. zconsts. change (2 ^ 31) with 2147483648.
  Z.to_euclidean_division_equations. lia.
Qed.

(** ** The invariant *)

Record stream_ok (l : nat) (cs : clientStream) : Prop := {
  ok_seq : cs_seq cs = seq_at l;
  ok_cap : (length (cs_inbound cs) ≤ resp_cap)%nat;
  ok_err : Forall (λ r, ir_err r = None) (cs_inbound cs) }.

Record CInv (c : client) : Prop := {
  ci_alloc : cl_seqAlloc c = uint32 (2 * Z.of_nat (cl_next c) + 1);
  ci_heap l cs : cl_heap c !! l = Some cs → (l < cl_next c)%nat ∧ stream_ok l cs;
  ci_all l : (l < cl_next c)%nat → is_Some (cl_heap c !! l);
  ci_streams q l : cl_streams c !! q = Some l → (l < cl_next c)%nat ∧ q = seq_at l;
  ci_attached : cl_closeOnce c = negb (cl_attached c) }.

Lemma CInv_init : CInv NewClient.
Proof. split; cbn; try done. lia. Qed.

(** The heap and the counters decide the invariant. *)
Lemma CInv_update l f c :
  (∀ cs, stream_ok l cs → stream_ok l (f cs)) → CInv c → CInv (update l f c).
Proof.
  intros Hf [Ha Hh Hal Hs Hat]. split; cbn; try done.
  - intros l' cs' [(-> & cs & Hcs & ->)|[? Hcs]]%lookup_alter_Some; [|by apply Hh].
    destruct (Hh _ _ Hcs). split; [done|by apply Hf].
  - intros l' Hl'. destruct (Hal _ Hl') as [cs Hcs].
    destruct (decide (l = l')) as [->|Hne].
    + rewrite lookup_alter, decide_True, Hcs by done. by eexists.
    + rewrite lookup_alter_ne by done. by eexists.
Qed.

Lemma CInv_sendFrame f c : CInv c → CInv (sendFrame f c).
Proof. by intros []. Qed.

Lemma sendPayload_sent seq b c :
  ∃ fs, sendPayload seq b c = foldl (λ c f, sendFrame f c) c fs.
Proof.
  unfold sendPayload. destruct (_ <=? _); [by eexists [_]|].
  exists (map (λ ch, mkReqData seq (Data_Chunk
    {| TotalSize := int32 (len b); Offset := int32 ch.1; chunk_Data := ch.2 |})) (fragment ChunkSize b)).
  generalize (fragment ChunkSize b). intros chs. revert c.
  induction chs as [|ch chs IH]; intros c; [done|]. cbn [foldl map]. apply IH.
Qed.

Lemma send_request_sent seq call req c :
  ∃ fs, send_request seq call req c = foldl (λ c f, sendFrame f c) c fs.
Proof.
  unfold send_request. destruct (call_InlineData call).
  - by exists [mkCall seq call; mkReqEnd seq close_send].
  - destruct (sendPayload_sent seq req (sendFrame (mkCall seq call) c)) as [fs ->].
    exists (mkCall seq call :: fs ++ [mkReqEnd seq close_send]). cbn [foldl]. by rewrite foldl_app.
Qed.

(** Sending appends to [cl_sent] and changes nothing else. *)
Lemma foldl_sendFrame fs c :
  foldl (λ c f, sendFrame f c) c fs =
  {| cl_seqAlloc := cl_seqAlloc c; cl_reasm := cl_reasm c; cl_streams := cl_streams c;
     cl_closeOnce := cl_closeOnce c; cl_heap := cl_heap c; cl_next := cl_next c;
     cl_attached := cl_attached c; cl_sent := cl_sent c ++ fs |}.
Proof.
  revert c. induction fs as [|f fs IH]; intros c; cbn [foldl].
  - rewrite app_nil_r. by destruct c.
  - rewrite IH. unfold sendFrame; cbn. by rewrite <- app_assoc.
Qed.

Lemma CInv_sends fs c : CInv c → CInv (foldl (λ c f, sendFrame f c) c fs).
Proof. rewrite foldl_sendFrame. by intros []. Qed.

Lemma openStream_value method c l seq c' :
  openStream method c = (l, seq, c') → CInv c →
  l = cl_next c ∧ seq = seq_at l ∧ CInv c' ∧ cl_next c' = S l ∧
  cl_attached c' = cl_attached c ∧ cl_sent c' = cl_sent c ∧ cl_reasm c' = cl_reasm c ∧
  cl_streams c' = <[seq := l]> (cl_streams c) ∧
  cl_heap c' = <[l := {| cs_seq := seq; cs_method := method; cs_header := ∅; cs_trailer := ∅;
                         cs_inbound := []; cs_end := None |}]> (cl_heap c).
Proof.
  intros Ho [Ha Hh Hal Hs Hat]. unfold openStream in Ho.
  destruct (nextSeq_value _ _ Ha) as [Hseq Halloc].
  destruct (nextSeq c) as [q c0] eqn:Hn. cbn [fst snd] in *.
  assert (cl_next c0 = cl_next c ∧ cl_streams c0 = cl_streams c ∧ cl_heap c0 = cl_heap c ∧
    cl_closeOnce c0 = cl_closeOnce c ∧ cl_attached c0 = cl_attached c ∧ cl_sent c0 = cl_sent c ∧
    cl_reasm c0 = cl_reasm c)
    as (E1 & E2 & E3 & E4 & E5 & E6 & E7) by (unfold nextSeq in Hn; by simplify_eq).
  injection Ho as <- <- <-. rewrite E1, E2, E3, E4, E5, E6, E7 in *.
  split; [done|]. split; [done|]. split; [|by split_and!].
  split; cbn; try done.
  - intros l cs [(<- & <-)|(? & Hcs)]%lookup_insert_Some.
    + split; [lia|]. split; cbn; [done|lia|constructor].
    + destruct (Hh _ _ Hcs). split; [lia|done].
  - intros l Hl. rewrite lookup_insert_is_Some'.
    destruct (decide (cl_next c = l)); [by left|right; apply Hal; lia].
  - intros q' l [(<- & <-)|(? & Hl)]%lookup_insert_Some; [split; [lia|done]|].
    destruct (Hs _ _ Hl). split; [lia|done].
Qed.

Lemma stream_ok_fields l cs cs' :
  cs_seq cs' = cs_seq cs → cs_inbound cs' = cs_inbound cs → stream_ok l cs → stream_ok l cs'.
Proof. intros E1 E2 [? ? ?]. split; by rewrite ?E1, ?E2. Qed.

Lemma CInv_pop l r q c cs :
  cl_heap c !! l = Some cs → cs_inbound cs = r :: q → CInv c → CInv (update l (with_inbound q) c).
Proof.
  intros Hcs Hin Hc. pose proof (ci_heap _ Hc _ _ Hcs) as [_ [_ Hcap Herr]].
  rewrite Hin in Hcap, Herr. apply Forall_cons in Herr as [_ Herr]. cbn in Hcap.
  apply CInv_update; [|done]. intros cs' [? ? ?]. split; cbn; [done|lia|done].
Qed.

Lemma CInv_deliver l p c c' : CInv c → c' ∈ deliver l p c → CInv c'.
Proof.
  intros Hc. unfold deliver. destruct (cl_heap c !! l) as [cs|] eqn:Hcs;
    [|by intros ?%not_elem_of_nil].
  intros [Hin|Hin]%elem_of_app.
  - case_decide as Hlt; [|by apply not_elem_of_nil in Hin].
    apply list_elem_of_singleton in Hin as ->.
    pose proof (ci_heap _ Hc _ _ Hcs) as [_ [_ _ Herr]].
    apply CInv_update; [|done]. intros cs' [? ? ?]. split; cbn; [done| |].
    + rewrite length_app; cbn. lia.
    + apply Forall_app; split; [done|by apply Forall_singleton].
  - destruct (cs_end cs); [|by apply not_elem_of_nil in Hin].
    by apply list_elem_of_singleton in Hin as ->.
Qed.

Lemma CInv_set_streams ss c : ss ⊆ cl_streams c → CInv c → CInv (set_streams ss c).
Proof.
  intros Hsub [Ha Hh Hal Hs Hat]. split; cbn; try done.
  intros q l Hl. apply Hs. by eapply lookup_weaken.
Qed.

Lemma CInv_dispatch f r c c' : CInv c → (r, c') ∈ dispatch f c → CInv c'.
Proof.
  intros Hc. unfold dispatch.
  assert (∀ rs, CInv (set_reasm rs c)) as Hrs by (intros rs; by destruct Hc).
  destruct (cl_streams c !! _) as [l|]; [|by intros [= -> ->]%list_elem_of_singleton].
  destruct (rf_Type f) as [[b|d|e]|]; [| | |by intros [= -> ->]%list_elem_of_singleton].
  - intros (c1 & [= -> ->] & Hin)%list_elem_of_fmap. revert Hin. unfold dispatch_begin.
    destruct b as [b|]; [|by intros ->%list_elem_of_singleton].
    set (c0 := match begin_Header b with Some _ => _ | None => _ end).
    assert (CInv c0) as Hc0.
    { unfold c0. destruct (begin_Header b); [|done].
      apply CInv_update; [|done]. intros cs. by apply stream_ok_fields. }
    destruct (begin_InlineData b) as [d|]; [|by intros ->%list_elem_of_singleton].
    destruct (0 <? len d); [by apply CInv_deliver|by intros ->%list_elem_of_singleton].
  - destruct (GetContent d) as [[m|ch]|]; [| |by intros [= -> ->]%list_elem_of_singleton].
    + intros (c1 & [= -> ->] & Hin)%list_elem_of_fmap. by eapply CInv_deliver.
    + destruct (Reassembler.Reassemble _ _ _ _ _) as [[[full|]|err|s] rs];
        try (by intros [= -> ->]%list_elem_of_singleton).
      intros (c1 & [= -> ->] & Hin)%list_elem_of_fmap. eapply CInv_deliver; [apply Hrs|done].
  - intros [= -> ->]%list_elem_of_singleton. unfold dispatch_end.
    match goal with |- context [update l (end_once _) ?x] => set (c0 := x) end.
    assert (CInv c0) as Hc0.
    { unfold c0. destruct e as [e|]; [|done]. destruct (end_Trailer e); [|done].
      apply CInv_update; [|done]. intros cs. by apply stream_ok_fields. }
    apply CInv_set_streams; [apply delete_subseteq|].
    apply CInv_update; [|done]. intros cs. by apply stream_ok_fields.
Qed.

Lemma CInv_failAll err c : cl_attached c = true → CInv c → CInv (detach (failAll err c)).
Proof.
  intros Hatt [Ha Hh Hal Hs Hat]. rewrite Hatt in Hat. unfold failAll. rewrite Hat. cbn [negb].
  set (ls := list_to_set _). split; cbn; try done.
  - intros l cs. rewrite map_lookup_imap. intros (cs0 & Hcs0 & [= <-])%bind_Some.
    destruct (Hh _ _ Hcs0) as [Hlt Hok]. split; [done|]. unfold fail_stream.
    destruct (bool_decide _); [by apply (stream_ok_fields l cs0)|done].
  - intros l Hl. rewrite map_lookup_imap. destruct (Hal _ Hl) as [cs ->]. by eexists.
Qed.

Lemma Stream_Send_sent s b c :
  ∃ fs, (Stream_Send s b c).2 = foldl (λ c f, sendFrame f c) c fs.
Proof.
  unfold Stream_Send. destruct (cl_heap c !! str_cs s) as [cs|]; [apply sendPayload_sent|by exists []].
Qed.

Lemma CloseSend_sent s c : ∃ fs, (CloseSend s c).2 = foldl (λ c f, sendFrame f c) c fs.
Proof.
  unfold CloseSend. destruct (str_closed s); [by exists []|].
  destruct (cl_heap c !! str_cs s) as [cs|]; [by eexists [_]|by exists []].
Qed.

(** The clients a [select] of the application leaves behind. *)
Lemma unary_select_inv ctx l w o c c' :
  (o, c') ∈ unary_select ctx l w c →
  c' = c ∨ ∃ cs r q, cl_heap c !! l = Some cs ∧ cs_inbound cs = r :: q ∧
                     c' = update l (with_inbound q) c.
Proof.
  unfold unary_select. destruct (cl_heap c !! l) as [cs|] eqn:Hcs; [|by intros ?%not_elem_of_nil].
  intros [H|[H|H]%elem_of_app]%elem_of_app.
  - destruct w; [|by apply not_elem_of_nil in H].
    destruct (cs_inbound cs) as [|r q] eqn:Hin; [by apply not_elem_of_nil in H|].
    apply list_elem_of_singleton in H as [= _ ->]. right. by exists cs, r, q.
  - destruct (cs_end cs); [|by apply not_elem_of_nil in H].
    apply list_elem_of_singleton in H as [= _ ->]. by left.
  - destruct ctx; [|by apply not_elem_of_nil in H].
    apply list_elem_of_singleton in H as [= _ ->]. by left.
Qed.

Lemma Stream_Recv_inv ctx l w o c c' :
  (o, c') ∈ Stream_Recv ctx l w c →
  c' = c ∨ ∃ cs r q, cl_heap c !! l = Some cs ∧ cs_inbound cs = r :: q ∧
                     c' = update l (with_inbound q) c.
Proof.
  unfold Stream_Recv. destruct (cl_heap c !! l) as [cs|] eqn:Hcs; [|by intros ?%not_elem_of_nil].
  assert (∀ q r x, (o, c') ∈ [(x : rout, update l (with_inbound q) c)] → cs_inbound cs = r :: q →
    c' = c ∨ ∃ cs0 r q, Some cs = Some cs0 ∧ cs_inbound cs0 = r :: q ∧
                     c' = update l (with_inbound q) c) as Hpop.
  { intros q r x [= _ ->]%list_elem_of_singleton Hq. right. by exists cs, r, q. }
  destruct w.
  - destruct (cs_inbound cs) as [|r q] eqn:Hin; [|by intros ?%(Hpop q r)].
    intros [= _ ->]%list_elem_of_singleton. by left.
  - intros [H|[H|H]%elem_of_app]%elem_of_app.
    + destruct (cs_inbound cs) as [|r q] eqn:Hin; [by apply not_elem_of_nil in H|].
      by apply (Hpop q r) in H.
    + destruct (cs_end cs); [|by apply not_elem_of_nil in H].
      apply list_elem_of_singleton in H as [= _ ->]. by left.
    + destruct ctx; [|by apply not_elem_of_nil in H].
      apply list_elem_of_singleton in H as [= _ ->]. by left.
Qed.

Lemma watchCancel_inv ctx l c c' :
  c' ∈ watchCancel ctx l c → c' = c ∨ ∃ f, c' = sendFrame f c.
Proof.
  unfold watchCancel. destruct (cl_heap c !! l) as [cs|]; [|by intros ?%not_elem_of_nil].
  intros [H|H]%elem_of_app.
  - destruct ctx; [|by apply not_elem_of_nil in H]. apply list_elem_of_singleton in H as ->.
    right. by eexists.
  - destruct (cs_end cs); [|by apply not_elem_of_nil in H].
    apply list_elem_of_singleton in H as ->. by left.
Qed.

(** ** The shape of a step: what every transition of the client is *)

Inductive shape (on : nat → Prop) (c : client) : client → Prop :=
  | shape_open method fs l seq c' :
      openStream method c = (l, seq, c') → shape on c (foldl (λ c f, sendFrame f c) c' fs)
  | shape_sends fs : shape on c (foldl (λ c f, sendFrame f c) c fs)
  | shape_pop l cs r q :
      on l → cl_heap c !! l = Some cs → cs_inbound cs = r :: q →
      shape on c (update l (with_inbound q) c)
  | shape_cleanup seq : shape on c (cleanupStream seq c).

Lemma app_step_shape on c c' : app_step on c c' → shape on c c'.
Proof.
  destruct 1 as [ctx method req l seq c c' H|ctx method req hdr s st c c' H
    |ctx method req hdr s st c c' H|ctx l w o c c' Hon H|ctx l w o c c' Hon H
    |s b o c c' H|s s' c c' H|ctx l c c' H|seq c].
  - unfold invokeUnary_open in H. destruct (openStream method c) as [[l0 q] c0] eqn:Ho.
    destruct (send_request_sent q (unary_call ctx method req) req c0) as [fs Hfs].
    rewrite Hfs in H. injection H as _ _ <-. by eapply shape_open.
  - unfold InvokeServerStreaming in H. destruct (openStream method c) as [[l0 q] c0] eqn:Ho.
    edestruct (send_request_sent q) as [fs Hfs].
    rewrite Hfs in H. injection H as _ _ <-. by eapply shape_open.
  - unfold InvokeClientStreaming in H. destruct (openStream method c) as [[l0 q] c0] eqn:Ho.
    cbn zeta in H. set (f := mkCall _ _) in *. injection H as _ _ <-.
    destruct req as [b|]; [case_match|].
    + by apply (shape_open on c method [f] l0 q c0).
    + destruct (sendPayload_sent q b (sendFrame f c0)) as [fs ->].
      by apply (shape_open on c method (f :: fs) l0 q c0).
    + by apply (shape_open on c method [f] l0 q c0).
  - apply unary_select_inv in H as [->|(cs & r & q & ? & ? & ->)];
      [by apply (shape_sends on c [])|by eapply shape_pop].
  - apply Stream_Recv_inv in H as [->|(cs & r & q & ? & ? & ->)];
      [by apply (shape_sends on c [])|by eapply shape_pop].
  - destruct (Stream_Send_sent s b c) as [fs Hfs]. rewrite H in Hfs. cbn in Hfs. subst.
    apply shape_sends.
  - destruct (CloseSend_sent s c) as [fs Hfs]. rewrite H in Hfs. cbn in Hfs. subst.
    apply shape_sends.
  - apply watchCancel_inv in H as [->|[f ->]];
      [by apply (shape_sends on c [])|by apply (shape_sends on c [f])].
  - apply shape_cleanup.
Qed.

Lemma CInv_step c c' : CInv c → step c c' → CInv c'.
Proof.
  intros Hc [[method fs l seq c0 Ho|fs|l cs r q _ Hcs Hin|seq]%app_step_shape|H].
  - destruct (openStream_value _ _ _ _ _ Ho Hc) as (_ & _ & H0 & _). by apply CInv_sends.
  - by apply CInv_sends.
  - by eapply CInv_pop.
  - apply CInv_set_streams; [apply delete_subseteq|done].
  - destruct H as [f c c' Ha H|err c Ha]; [by eapply CInv_dispatch|by apply CInv_failAll].
Qed.

Lemma reachable_CInv c : reachable c → CInv c.
Proof.
  revert c. apply (rtc_ind_r CInv); [apply CInv_init|]. intros c c' _ Hs Hc. by eapply CInv_step.
Qed.

Lemma detached_step c c' : cl_attached c = false → step c c' → app_step (λ _, True) c c'.
Proof. intros Ha [H|H]; [done|]. inversion H; congruence. Qed.

Lemma app_step_mono on c c' : app_step on c c' → app_step (λ _, True) c c'.
Proof.
  destruct 1;
    [eapply step_unary|eapply step_server_streaming|eapply step_client_streaming|eapply step_select
    |eapply step_recv|eapply step_send|eapply step_close_send|eapply step_watch|apply step_cleanup];
    eassumption || exact I.
Qed.

(** The record of a stream the application's step does not receive from. *)
Lemma app_step_frozen on c c' l cs :
  CInv c → ¬ on l → app_step on c c' → cl_heap c !! l = Some cs → cl_heap c' !! l = Some cs.
Proof.
  intros Hc Hon [method fs l0 seq c0 Ho|fs|l0 cs0 r q Hon0 Hcs Hin|seq]%app_step_shape Hl; cbn.
  - rewrite foldl_sendFrame. cbn.
    destruct (openStream_value _ _ _ _ _ Ho Hc) as (-> & _ & _ & _ & _ & _ & _ & _ & ->).
    rewrite lookup_insert_ne; [done|]. intros <-. apply (ci_heap _ Hc) in Hl as [? _]. lia.
  - by rewrite foldl_sendFrame.
  - rewrite lookup_alter_ne; [done|]. by intros ->.
  - done.
Qed.

(** ** Frames of a response *)

Definition resp_frame (seq : Z) (t : ResponseType) : ResponseFrame :=
  {| rf_Routing := Some {| Sequence := seq |}; rf_Type := Some t |}.

Definition resp_data (seq : Z) (b : bytes) : ResponseFrame :=
  resp_frame seq (ResponseFrame_Data (Some {| data_Content := Some (Data_Message b) |})).

Definition resp_end (seq : Z) (st : Status) (trailer : Metadata) : ResponseFrame :=
  resp_frame seq (ResponseFrame_End (Some
    {| end_CloseSend := false; end_Status := Some (toProto (Some st));
       end_Trailer := Some trailer |})).

Definition resp_begin (seq : Z) (header : Metadata) : ResponseFrame :=
  resp_frame seq (ResponseFrame_Begin (Some
    {| begin_Header := Some header; begin_InlineData := None |})).

(** ** Concrete clients for the examples *)

Definition background : context := {| ctx_Err := None; ctx_Deadline := None; ctx_hdr := None |}.

(** [n] server-streaming calls. *)
Fixpoint client_after (n : nat) : client :=
  match n with
  | O => NewClient
  | S n => (InvokeServerStreaming background "/demo/S" [] ∅ (client_after n)).2
  end.

Lemma client_after_reachable n : reachable (client_after n).
Proof.
  induction n as [|n IH]; [apply rtc_refl|]. eapply rtc_r; [exact IH|left].
  cbn [client_after]. destruct (InvokeServerStreaming _ _ _ _ _) as [[s st] c] eqn:H.
  by eapply step_server_streaming.
Qed.

Definition dispatch1 (c : client) (f : ResponseFrame) : client :=
  match dispatch f c with (Ok tt, c') :: _ => c' | _ => c end.

Lemma dispatch1_reachable c f :
  cl_attached c = true → reachable c → reachable (dispatch1 c f).
Proof.
  intros Ha Hc. unfold dispatch1.
  destruct (dispatch f c) as [|[[[]| |] c'] rest] eqn:H; try done.
  eapply rtc_r; [exact Hc|right]. eapply step_frame; [exact Ha|]. rewrite H. apply list_elem_of_here.
Qed.

Lemma dispatch1s_reachable fs : ∀ c,
  Forall (λ i, cl_attached (foldl dispatch1 c (take i fs)) = true) (seq 0 (length fs)) →
  reachable c → reachable (foldl dispatch1 c fs).
Proof.
  induction fs as [|f fs IH]; intros c Ha Hc; [done|]. cbn [foldl length seq] in *.
  apply Forall_cons in Ha as [Ha0 Ha]. apply IH; [|by apply dispatch1_reachable].
  rewrite <- seq_shift, Forall_map in Ha. exact Ha.
Qed.

(** ** Properties *)

(** [C26] Sequence numbers: in every reachable state, the [n]-th stream (from 0)
    has sequence [(2n+3) mod 2^31], which is odd, positive and survives the
    conversion to [int32]; fewer than [2^30] streams apart, two streams have
    different sequences; and the table maps a sequence only to a stream that
    has it, so a response frame reaches the stream it was sent for. *)
Theorem client_sequences c l1 l2 cs1 cs2
    (Hr : reachable c) (H1 : cl_heap c !! l1 = Some cs1) (H2 : cl_heap c !! l2 = Some cs2) :
  cs_seq cs1 = seq_at l1 ∧ Z.odd (cs_seq cs1) = true ∧ 1 ≤ cs_seq cs1 < two31 ∧
  int32 (cs_seq cs1) = cs_seq cs1 ∧
  ((l1 < l2)%nat → Z.of_nat l2 - Z.of_nat l1 < 2 ^ 30 → cs_seq cs1 ≠ cs_seq cs2) ∧
  (∀ q l, cl_streams c !! q = Some l → ∃ cs, cl_heap c !! l = Some cs ∧ cs_seq cs = q).
Proof.
  pose proof (reachable_CInv c Hr) as Hc.
  destruct (ci_heap _ Hc _ _ H1) as [_ [E1 _ _]], (ci_heap _ Hc _ _ H2) as [_ [E2 _ _]].
  rewrite E1, E2. destruct (seq_at_odd l1) as [Ho Hb].
  split_and!; try done; try lia.
  - apply int32_id. zconsts. lia.
  - apply seq_at_distinct.
  - intros q l Hl. destruct (ci_streams _ Hc _ _ Hl) as [Hlt ->].
    destruct (ci_all _ Hc _ Hlt) as [cs Hcs]. exists cs. split; [done|].
    by destruct (ci_heap _ Hc _ _ Hcs) as [_ [? _ _]].
Qed.

Lemma client_sequences_witness :
  let c := client_after 2 in
  ∃ cs1 cs2, cl_heap c !! 0%nat = Some cs1 ∧ cl_heap c !! 1%nat = Some cs2 ∧
  cs_seq cs1 = seq_at 0 ∧ Z.odd (cs_seq cs1) = true ∧ 1 ≤ cs_seq cs1 < two31 ∧
  int32 (cs_seq cs1) = cs_seq cs1 ∧
  ((0 < 1)%nat → Z.of_nat 1 - Z.of_nat 0 < 2 ^ 30 → cs_seq cs1 ≠ cs_seq cs2) ∧
  (∀ q l, cl_streams c !! q = Some l → ∃ cs, cl_heap c !! l = Some cs ∧ cs_seq cs = q).
Proof.
  eexists _, _. split; [vm_compute; reflexivity|]. split; [vm_compute; reflexivity|].
  apply (client_sequences (client_after 2) 0 1); [apply client_after_reachable|by vm_compute..].
Defined.

(** A stream the application has abandoned blocks the whole client: once
    its buffer holds 16 messages and it has not ended, the delivery of one more
    message does not return, whatever the application's other goroutines do
    (open, send, cancel or clean up any stream, receive from any other one);
    the [Attach] goroutine that is delivering is the one that would process
    the stream's [End] and every other stream's frames. *)
Theorem abandoned_stream_blocks_attach c c' l cs payload
    (Hr : reachable c) (Hcs : cl_heap c !! l = Some cs)
    (Hfull : (resp_cap ≤ length (cs_inbound cs))%nat) (Hend : cs_end cs = None)
    (Hsteps : rtc (app_step (λ l', l' ≠ l)) c c') :
  deliver l payload c = [] ∧ deliver l payload c' = [].
Proof.
  assert (∀ c0, cl_heap c0 !! l = Some cs → deliver l payload c0 = []) as Hblock.
  { intros c0 H0. unfold deliver. rewrite H0, Hend.
    rewrite decide_False by lia. done. }
  split; [by apply Hblock|]. apply Hblock.
  apply reachable_CInv in Hr. clear Hfull Hend Hblock.
  induction Hsteps as [|c1 c2 c3 Hs _ IH]; [done|].
  apply IH; [by eapply CInv_step; [|left; eapply app_step_mono]|].
  eapply app_step_frozen; [exact Hr| |exact Hs|exact Hcs]. auto.
Qed.

(** Sixteen unread messages on the first stream; then another call is made. *)
Lemma abandoned_stream_blocks_attach_witness :
  let c := foldl dispatch1 (client_after 1) (replicate 16 (resp_data 3 [x00])) in
  let c' := (InvokeServerStreaming background "/demo/S" [] ∅ c).2 in
  deliver 0 [x01] c = [] ∧ deliver 0 [x01] c' = [].
Proof.
  cbv zeta. set (c := foldl _ _ _).
  destruct (cl_heap c !! 0%nat) as [cs|] eqn:Hcs; [|exfalso; revert Hcs; by vm_compute].
  apply (abandoned_stream_blocks_attach c _ 0 cs).
  - apply dispatch1s_reachable; [by repeat constructor|apply client_after_reachable].
  - exact Hcs.
  - revert Hcs. vm_compute. intros [= <-]. cbn. lia.
  - revert Hcs. vm_compute. by intros [= <-].
  - destruct (InvokeServerStreaming background "/demo/S" [] ∅ c) as [[s st] c2] eqn:H.
    apply rtc_once. by eapply step_server_streaming.
Defined.

(** A dispatch with only one outcome. *)
Definition ddet (f : ResponseFrame) (c c' : client) : Prop := dispatch f c = [(Ok tt, c')].

Fixpoint dispatches (fs : list ResponseFrame) (c c' : client) : Prop :=
  match fs with
  | [] => c = c'
  | f :: fs => ∃ c1, ddet f c c1 ∧ dispatches fs c1 c'
  end.

Lemma dispatches_app fs gs c c1 c' :
  dispatches fs c c1 → dispatches gs c1 c' → dispatches (fs ++ gs) c c'.
Proof.
  revert c. induction fs as [|f fs IH]; intros c; cbn; [by intros ->|].
  intros (c2 & ? & ?) ?. exists c2. split; [done|by apply IH].
Qed.

Definition received (bs : list bytes) : list inboundResp :=
  map (λ b, {| ir_data := b; ir_err := None |}) bs.

Lemma dispatch_data q l cs b c :
  cl_streams c !! q = Some l → cl_heap c !! l = Some cs →
  cs_end cs = None → (length (cs_inbound cs) < resp_cap)%nat →
  ddet (resp_data q b) c (update l (with_inbound (cs_inbound cs ++ received [b])) c).
Proof.
  intros Hq Hl He Hcap. unfold ddet, dispatch, resp_data, resp_frame.
  cbn [rf_Routing rf_Type routing_seq Sequence GetContent data_Content]. rewrite Hq.
  unfold deliver. by rewrite Hl, He, decide_True.
Qed.

Lemma dispatch_datas q l cs bs c :
  cl_streams c !! q = Some l → cl_heap c !! l = Some cs →
  cs_end cs = None → (length (cs_inbound cs) + length bs ≤ resp_cap)%nat →
  ∃ c', dispatches (map (resp_data q) bs) c c' ∧
    cl_streams c' = cl_streams c ∧ cl_attached c' = cl_attached c ∧
    cl_heap c' = <[l := with_inbound (cs_inbound cs ++ received bs) cs]> (cl_heap c).
Proof.
  revert cs c. induction bs as [|b bs IH]; intros cs c Hq Hl He Hcap; cbn [map dispatches].
  - exists c. split_and!; [done..|]. rewrite app_nil_r, insert_id; [done|]. by destruct cs.
  - cbn [length] in Hcap.
    set (cs1 := with_inbound (cs_inbound cs ++ received [b]) cs).
    set (c1 := update l (with_inbound (cs_inbound cs ++ received [b])) c).
    assert (cl_heap c1 !! l = Some cs1) as Hl1.
    { unfold c1. cbn. by rewrite lookup_alter, decide_True, Hl. }
    destruct (IH cs1 c1) as (c' & Hd & Hs & Ha & Hh); [done|done|done| |].
    { cbn. rewrite length_app. cbn. lia. }
    exists c'. split_and!; [|by rewrite Hs|by rewrite Ha|].
    + exists c1. split; [by apply dispatch_data; [| | |lia]|done].
    + rewrite Hh. cbn. rewrite <- app_assoc. cbn [app received map].
      apply map_eq. intros l'. destruct (decide (l = l')) as [->|Hne].
      * by rewrite !lookup_insert, !decide_True.
      * by rewrite !lookup_insert_ne, lookup_alter_ne.
Qed.

(** What the stream holds when its [End] has been dispatched. *)
Definition ended (st : Status) (trailer : Metadata) (cs : clientStream) : clientStream :=
  end_once {| er_status := st; er_err := Status_Err (Some st) |}
    (with_trailer (mergeIn (cs_trailer cs) (map_to_list trailer)) cs).

Lemma dispatch_ended q l cs st t c :
  cl_streams c !! q = Some l → cl_heap c !! l = Some cs →
  ∃ c', ddet (resp_end q st t) c c' ∧ cl_streams c' = delete q (cl_streams c) ∧
    cl_heap c' = <[l := ended st t cs]> (cl_heap c) ∧ cl_attached c' = cl_attached c.
Proof.
  intros Hq Hl. eexists. split.
  { unfold ddet, dispatch, resp_end, resp_frame.
    cbn [rf_Routing rf_Type routing_seq Sequence]. by rewrite Hq. }
  unfold dispatch_end; cbn [end_Trailer end_Status set_streams cl_streams cl_heap cl_attached update].
  split_and!; [done| |done]. unfold statusFromProto, toProto; cbn.
  apply map_eq. intros l'. destruct (decide (l = l')) as [->|Hne].
  - rewrite !lookup_alter, lookup_insert, !decide_True, Hl by done. cbn. unfold ended.
    by destruct st.
  - by rewrite lookup_insert_ne, !lookup_alter_ne.
Qed.

(** A response is collected as it was sent: dispatching [Begin], up to 16
    messages and [End] for a stream in the table leaves exactly those messages
    in the stream's buffer in order, the header and trailer merged from the
    frames, the status of the [End], and no entry in the table; [Recv] then
    returns the messages in order and after them [io.EOF], or the status as an
    error when its code is not 0. *)
Theorem dispatch_response c q l cs header trailer bs st
    (Hq : cl_streams c !! q = Some l) (Hl : cl_heap c !! l = Some cs)
    (Hin : cs_inbound cs = []) (Hend : cs_end cs = None) (Hn : (length bs ≤ resp_cap)%nat) :
  ∃ c', dispatches ([resp_begin q header] ++ map (resp_data q) bs ++ [resp_end q st trailer]) c c' ∧
    cl_streams c' !! q = None ∧
    cl_heap c' !! l = Some
      {| cs_seq := cs_seq cs; cs_method := cs_method cs;
         cs_header := md_union (cs_header cs) header; cs_trailer := md_union (cs_trailer cs) trailer;
         cs_inbound := received bs;
         cs_end := Some {| er_status := st; er_err := Status_Err (Some st) |} |} ∧
    (∀ i b, bs !! i = Some b →
       Stream_Recv None l RStart (update l (with_inbound (received (drop i bs))) c')
         = [(RReturn (Some b) None, update l (with_inbound (received (drop (S i) bs))) c')]) ∧
    Stream_Recv None l RSelect (update l (with_inbound []) c')
      = [(RReturn None (if Code st =? 0 then Some EOF else Some (ErrorString (Message st))),
          update l (with_inbound []) c')].
Proof.
  set (cs1 := with_header (mergeIn (cs_header cs) (map_to_list header)) cs).
  set (c1 := update l (λ cs, with_header (mergeIn (cs_header cs) (map_to_list header)) cs) c).
  assert (ddet (resp_begin q header) c c1) as H1.
  { unfold ddet, dispatch, resp_begin, resp_frame. cbn [rf_Routing rf_Type routing_seq Sequence].
    by rewrite Hq. }
  assert (cl_heap c1 !! l = Some cs1) as Hl1.
  { unfold c1. cbn. by rewrite lookup_alter, decide_True, Hl. }
  destruct (dispatch_datas q l cs1 bs c1) as (c2 & H2 & Hs2 & _ & Hh2); [done|done|done| |].
  { cbn. by rewrite Hin. }
  destruct (dispatch_ended q l (with_inbound (cs_inbound cs1 ++ received bs) cs1) st trailer c2)
    as (c3 & H3 & Hs3 & Hh3 & _).
  { by rewrite Hs2. }
  { by rewrite Hh2, lookup_insert, decide_True. }
  assert (cl_heap c3 !! l = Some
      {| cs_seq := cs_seq cs; cs_method := cs_method cs;
         cs_header := md_union (cs_header cs) header; cs_trailer := md_union (cs_trailer cs) trailer;
         cs_inbound := received bs;
         cs_end := Some {| er_status := st; er_err := Status_Err (Some st) |} |}) as Hl3.
  { rewrite Hh3, lookup_insert, decide_True by done. unfold ended, end_once; cbn.
    by rewrite Hend, Hin, !mergeIn_union. }
  exists c3. split_and!.
  - eapply dispatches_app; [by exists c1|]. eapply dispatches_app; [exact H2|by exists c3].
  - by rewrite Hs3, lookup_delete, decide_True.
  - exact Hl3.
  - intros i b Hb. unfold Stream_Recv. cbn. rewrite lookup_alter, decide_True, Hl3 by done. cbn.
    rewrite (drop_S _ _ _ Hb). cbn. do 2 f_equal. unfold update; cbn. f_equal.
    apply map_eq. intros l'. destruct (decide (l = l')) as [->|Hne].
    + by rewrite !lookup_alter, !decide_True, Hl3.
    + by rewrite !lookup_alter_ne.
  - unfold Stream_Recv. cbn. rewrite lookup_alter, decide_True, Hl3 by done. cbn.
    do 3 f_equal. unfold Status_Err. by destruct (Code st =? 0).
Qed.

Lemma dispatch_response_witness :
  let c := client_after 1 in
  ∃ cs c', dispatches ([resp_begin 3 {["h" := ["1"]]}] ++ map (resp_data 3) [[x01]; [x02]] ++
                       [resp_end 3 OK ∅]) c c' ∧
    cl_streams c' !! 3 = None ∧
    cl_heap c' !! 0%nat = Some
      {| cs_seq := cs_seq cs; cs_method := cs_method cs;
         cs_header := md_union (cs_header cs) {["h" := ["1"]]};
         cs_trailer := md_union (cs_trailer cs) ∅;
         cs_inbound := received [[x01]; [x02]];
         cs_end := Some {| er_status := OK; er_err := Status_Err (Some OK) |} |}.
Proof.
  cbv zeta. destruct (cl_heap (client_after 1) !! 0%nat) as [cs|] eqn:Hcs;
    [|exfalso; revert Hcs; by vm_compute].
  exists cs.
  destruct (dispatch_response (client_after 1) 3 0 cs {["h" := ["1"]]} ∅ [[x01]; [x02]] OK)
    as (c' & H1 & H2 & H3 & _);
    [by vm_compute|exact Hcs|revert Hcs; vm_compute; by intros [= <-]
    |revert Hcs; vm_compute; by intros [= <-]|vm_compute; lia|].
  exists c'. split; [exact H1|]. split; [exact H2|exact H3].
Defined.

(** The end of a response can overtake its last message.  When a message
    and the [End] are both dispatched before the waiting goroutine is scheduled,
    [invokeUnary] may return no data together with the (possibly OK) status,
    and a [Recv] already in its second [select] may return [io.EOF] with the
    message still queued; a [Recv] that starts after both returns the message. *)
Theorem end_may_overtake_response c q l cs b st t
    (Hq : cl_streams c !! q = Some l) (Hl : cl_heap c !! l = Some cs)
    (Hin : cs_inbound cs = []) (Hend : cs_end cs = None) :
  ∃ c2 c3, dispatches [resp_data q b; resp_end q st t] c c2 ∧
    c3 = update l (with_inbound []) c2 ∧
    unary_select None l UWait c2 = [(UPending (UGot b), c3); (UReturn None st, c2)] ∧
    unary_select None l (UGot b) c3 = [(UReturn (Some b) st, c3)] ∧
    Stream_Recv None l RStart c2 = [(RReturn (Some b) None, c3)] ∧
    Stream_Recv None l RSelect c2 =
      [(RReturn (Some b) None, c3);
       (RReturn None (if Code st =? 0 then Some EOF else Some (ErrorString (Message st))), c2)].
Proof.
  destruct (dispatch_datas q l cs [b] c) as (c1 & H1 & Hs1 & _ & Hh1); [done|done|done| |].
  { rewrite Hin. cbn. unfold resp_cap. lia. }
  destruct (dispatch_ended q l (with_inbound (cs_inbound cs ++ received [b]) cs) st t c1)
    as (c2 & H2 & Hs2 & Hh2 & _).
  { by rewrite Hs1. }
  { by rewrite Hh1, lookup_insert, decide_True. }
  exists c2, (update l (with_inbound []) c2).
  assert (cl_heap c2 !! l = Some (ended st t (with_inbound (received [b]) cs))) as Hl2.
  { by rewrite Hh2, lookup_insert, decide_True, Hin. }
  assert (cl_heap (update l (with_inbound []) c2) !! l
          = Some (with_inbound [] (ended st t (with_inbound (received [b]) cs)))) as Hl3.
  { cbn. by rewrite lookup_alter, decide_True, Hl2. }
  split_and!; [|done|..].
  - apply (dispatches_app (map (resp_data q) [b]) [resp_end q st t] c c1); [exact H1|by exists c2].
  - unfold unary_select. rewrite Hl2. cbn. by rewrite Hend.
  - unfold unary_select. rewrite Hl3. cbn. by rewrite Hend.
  - unfold Stream_Recv. by rewrite Hl2.
  - unfold Stream_Recv. rewrite Hl2. cbn. rewrite Hend. cbn. unfold Status_Err.
    by destruct (Code st =? 0).
Qed.

Lemma end_may_overtake_response_witness :
  let c := client_after 1 in
  ∃ c2 c3, dispatches [resp_data 3 [x01]; resp_end 3 OK ∅] c c2 ∧
    c3 = update 0 (with_inbound []) c2 ∧
    unary_select None 0 UWait c2 = [(UPending (UGot [x01]), c3); (UReturn None OK, c2)] ∧
    unary_select None 0 (UGot [x01]) c3 = [(UReturn (Some [x01]) OK, c3)] ∧
    Stream_Recv None 0 RStart c2 = [(RReturn (Some [x01]) None, c3)] ∧
    Stream_Recv None 0 RSelect c2 =
      [(RReturn (Some [x01]) None, c3); (RReturn None (Some EOF), c2)].
Proof.
  cbv zeta. destruct (cl_heap (client_after 1) !! 0%nat) as [cs|] eqn:Hcs;
    [|exfalso; revert Hcs; by vm_compute].
  apply (end_may_overtake_response (client_after 1) 3 0 cs [x01] OK ∅);
    [by vm_compute|exact Hcs|revert Hcs; vm_compute; by intros [= <-]
    |revert Hcs; vm_compute; by intros [= <-]].
Defined.

(** A call made after the transport has failed never returns by itself:
    once [Attach] has returned, [failAll] will not run again, the frames the
    call sends are dropped silently, and whatever steps follow, the [select] of
    [invokeUnary] and of [Recv] on the new stream has no case but the caller's
    context. *)
Theorem invoke_after_teardown_hangs c ctx method req l seq c1 c2
    (Hr : reachable c) (Hdet : cl_attached c = false)
    (Hopen : invokeUnary_open ctx method req c = (l, seq, c1)) (Hsteps : rtc step c1 c2) :
  unary_select None l UWait c2 = [] ∧ Stream_Recv None l RSelect c2 = [] ∧
  (∀ e, unary_select (Some e) l UWait c2 = [(UReturn None (Err 4 (Some e)), c2)]).
Proof.
  apply reachable_CInv in Hr.
  assert (CInv c1) as Hc1 by (eapply CInv_step; [exact Hr|left; by eapply step_unary]).
  unfold invokeUnary_open in Hopen. destruct (openStream method c) as [[l0 q] c0] eqn:Ho.
  destruct (openStream_value _ _ _ _ _ Ho Hr) as (-> & -> & _ & _ & Ha0 & _ & _ & _ & Hh0).
  destruct (send_request_sent (seq_at (cl_next c)) (unary_call ctx method req) req c0) as [fs Hfs].
  rewrite Hfs, foldl_sendFrame in Hopen. injection Hopen as <- <- Hc1'.
  assert (∃ cs, cl_heap c2 !! cl_next c = Some cs ∧ cs_inbound cs = [] ∧ cs_end cs = None)
    as (cs & Hcs & Hin & He).
  { assert (cl_attached c1 = false ∧
      ∃ cs, cl_heap c1 !! cl_next c = Some cs ∧ cs_inbound cs = [] ∧ cs_end cs = None) as [Ha1 H1].
    { subst c1. cbn. rewrite Ha0, Hh0. split; [done|]. eexists.
      by rewrite lookup_insert, decide_True. }
    clear -Hc1 Ha1 H1 Hsteps. induction Hsteps as [|c1 c2 c3 Hs _ IH]; [done|].
    destruct H1 as (cs & Hcs & Hin & He).
    apply IH; [by eapply CInv_step| |].
    - apply (detached_step _ _ Ha1) in Hs as [method fs l seq c0 Ho|fs|l cs0 r q _ ? ?|seq]%app_step_shape;
        rewrite ?foldl_sendFrame; cbn; try done.
      by destruct (openStream_value _ _ _ _ _ Ho Hc1) as (_ & _ & _ & _ & -> & _).
    - exists cs. split; [|done].
      apply (detached_step _ _ Ha1) in Hs as [method fs l seq c0 Ho|fs|l cs0 r q _ H0 Hq|seq]%app_step_shape;
        rewrite ?foldl_sendFrame; cbn; try done.
      + destruct (openStream_value _ _ _ _ _ Ho Hc1) as (-> & _ & _ & _ & _ & _ & _ & _ & ->).
        rewrite lookup_insert_ne; [done|]. intros Heq. rewrite <- Heq in Hcs.
        apply (ci_heap _ Hc1) in Hcs as [? _]. lia.
      + destruct (decide (l = cl_next c)) as [->|Hne]; [congruence|]. by rewrite lookup_alter_ne. }
  unfold unary_select, Stream_Recv. rewrite Hcs, Hin, He. done.
Qed.

Lemma invoke_after_teardown_hangs_witness :
  let c := detach (failAll EOF (client_after 1)) in
  let c1 := (invokeUnary_open background "/demo/U" [] c).2 in
  unary_select None 1 UWait c1 = [] ∧ Stream_Recv None 1 RSelect c1 = [] ∧
  (∀ e, unary_select (Some e) 1 UWait c1 = [(UReturn None (Err 4 (Some e)), c1)]).
Proof.
  cbv zeta. set (c := detach _). set (c1 := (invokeUnary_open _ _ _ c).2).
  apply (invoke_after_teardown_hangs c background "/demo/U" [] 1 5 c1 c1).
  - eapply rtc_r; [apply (client_after_reachable 1)|right; by apply step_detach].
  - done.
  - by vm_compute.
  - apply rtc_refl.
Defined.

(** [C32] Transport failure ends every call in flight: when [Channel.Recv]
    fails, [Attach] empties the table and gives each of its streams that has
    not ended the status 14 with the error's text (the messages already
    buffered stay readable), so that each waiting [invokeUnary] and [Recv] has a
    case to take; other streams keep their result; and [Attach] returns the
    error unless it is [io.EOF] or [io.ErrClosedPipe] itself. *)
Theorem teardown_ends_streams `{Codec ResponseFrame} c err
    (Hr : reachable c) (Hatt : cl_attached c = true) :
  ∃ c', attach_iter (Fail err) c =
          [(AReturned (if decide (err = EOF ∨ err = ErrClosedPipe) then None else Some err), c')] ∧
    cl_streams c' = ∅ ∧ cl_attached c' = false ∧
    (∀ q l cs, cl_streams c !! q = Some l → cl_heap c !! l = Some cs → cs_end cs = None →
       cl_heap c' !! l = Some (end_once {| er_status := Err 14 (Some err); er_err := Some err |} cs) ∧
       unary_select None l UWait c' ≠ [] ∧ Stream_Recv None l RSelect c' ≠ []) ∧
    (∀ l cs, cl_heap c !! l = Some cs → (∀ q, cl_streams c !! q ≠ Some l) ∨ cs_end cs ≠ None →
       cl_heap c' !! l = Some cs).
Proof.
  pose proof (reachable_CInv c Hr) as [_ _ _ _ Hat]. rewrite Hatt in Hat.
  exists (detach (failAll err c)). split_and!.
  - cbn. do 3 f_equal. unfold attach_closed. case_decide as Hd.
    + destruct Hd as [-> | ->]; done.
    + rewrite !bool_decide_eq_false_2 by (contradict Hd; auto). done.
  - unfold failAll. by rewrite Hat.
  - done.
  - intros q l cs Hq Hl He.
    assert (cl_heap (detach (failAll err c)) !! l =
      Some (end_once {| er_status := Err 14 (Some err); er_err := Some err |} cs)) as Hl'.
    { unfold failAll. rewrite Hat. cbn. rewrite map_lookup_imap, Hl. cbn. f_equal.
      unfold fail_stream. rewrite bool_decide_eq_true_2; [done|].
      apply elem_of_list_to_set, list_elem_of_fmap. exists (q, l). split; [done|].
      by apply elem_of_map_to_list. }
    split; [exact Hl'|]. unfold unary_select, Stream_Recv. rewrite Hl'. cbn. rewrite He.
    split; destruct (cs_inbound cs); done.
  - intros l cs Hl Hor. unfold failAll. rewrite Hat. cbn. rewrite map_lookup_imap, Hl. cbn. f_equal.
    unfold fail_stream. case_bool_decide as Hin; [|done].
    destruct Hor as [Hno|He].
    + apply elem_of_list_to_set, list_elem_of_fmap in Hin as ([q l'] & -> & Hin).
      apply elem_of_map_to_list in Hin. by destruct (Hno q).
    + unfold end_once. destruct cs as [? ? ? ? ? [e|]]; done.
Qed.

#[local] Instance no_resp_codec : Codec ResponseFrame :=
  {| marshal := λ _, None; unmarshal := λ _, None |}.

Lemma teardown_ends_streams_witness :
  let c := client_after 1 in
  let err := ErrorString "gone" in
  ∃ c', attach_iter (Fail err) c =
          [(AReturned (if decide (err = EOF ∨ err = ErrClosedPipe) then None else Some err), c')] ∧
    cl_streams c' = ∅ ∧ cl_attached c' = false ∧
    (∀ q l cs, cl_streams c !! q = Some l → cl_heap c !! l = Some cs → cs_end cs = None →
       cl_heap c' !! l = Some (end_once {| er_status := Err 14 (Some err); er_err := Some err |} cs) ∧
       unary_select None l UWait c' ≠ [] ∧ Stream_Recv None l RSelect c' ≠ []) ∧
    (∀ l cs, cl_heap c !! l = Some cs → (∀ q, cl_streams c !! q ≠ Some l) ∨ cs_end cs ≠ None →
       cl_heap c' !! l = Some cs).
Proof. apply teardown_ends_streams; [apply client_after_reachable|done]. Defined.
