(* ===== verification/ClientFrames.v ===== *)
(** * The order of frames of different streams does not matter to the client

    [dispatch] reads and changes only what belongs to the stream of its frame:
    the entry of its sequence, the record of its stream, and its assembler.  So
    the frames of different streams may be taken in any order, as long as those
    of each stream keep theirs.

    The server's model appends the frames of one [Send] at once, whereas the
    code hands them to the writer one at a time, and those of other streams come
    between them ([ServerWriter]): this file is why the client does not notice. *)

From Stdlib Require Import Strings.Byte ZArith Lia.
From stdpp Require Import numbers strings gmap fin_maps relations list.
From S2P Require Import Prelude Status Messages Transport Chunks RpcServer RpcServerSafety RpcClient RpcClientProps.
Open Scope Z_scope.

(** ** Operations on one stream *)

(** Two clients have the same entry of [q], record at [l] and assembler of [q]. *)
Record agree (q : Z) (l : nat) (c d : client) : Prop := {
  ag_streams : cl_streams c !! q = cl_streams d !! q;
  ag_heap : cl_heap c !! l = cl_heap d !! l;
  ag_reasm : cl_reasm c !! q = cl_reasm d !! q
}.

(** They have everything else in common. *)
Record outside (q : Z) (l : nat) (c d : client) : Prop := {
  out_streams q' : q' ≠ q → cl_streams c !! q' = cl_streams d !! q';
  out_heap l' : l' ≠ l → cl_heap c !! l' = cl_heap d !! l';
  out_reasm q' : q' ≠ q → cl_reasm c !! q' = cl_reasm d !! q';
  out_alloc : cl_seqAlloc c = cl_seqAlloc d;
  out_once : cl_closeOnce c = cl_closeOnce d;
  out_next : cl_next c = cl_next d;
  out_attached : cl_attached c = cl_attached d;
  out_sent : cl_sent c = cl_sent d
}.

Lemma agree_refl q l c : agree q l c c.
Proof. done. Qed.

Lemma agree_sym q l c d : agree q l c d → agree q l d c.
Proof. by intros []. Qed.

Lemma agree_trans q l c d e : agree q l c d → agree q l d e → agree q l c e.
Proof. intros [] []. split; congruence. Qed.

Lemma outside_refl q l c : outside q l c c.
Proof. done. Qed.

Lemma outside_trans q l c d e : outside q l c d → outside q l d e → outside q l c e.
Proof.
  intros [] []. split; try congruence.
  - intros q' H. rewrite out_streams0 by done. auto.
  - intros l' H. rewrite out_heap0 by done. auto.
  - intros q' H. rewrite out_reasm0 by done. auto.
Qed.

(** What one stream's operation leaves alone contains every other stream. *)
Lemma outside_agree q l q' l' c d : q ≠ q' → l ≠ l' → outside q l c d → agree q' l' c d.
Proof. intros Hq Hl []. split; auto. Qed.

(** A nondeterministic operation that is about the stream [l] of sequence [q]. *)
Definition local_op (q : Z) (l : nat) (F : client → list client) : Prop :=
  ∀ c c', c' ∈ F c → outside q l c c' ∧ ∀ d, agree q l c d → ∃ d', d' ∈ F d ∧ agree q l c' d'.

Section operations.
Context (q : Z) (l : nat).

Lemma local_ret : local_op q l (λ c, [c]).
Proof. intros c c' ->%list_elem_of_singleton. split; [done|]. intros d Hd. exists d. by rewrite list_elem_of_singleton. Qed.

Lemma local_bind F G : local_op q l F → local_op q l G → local_op q l (λ c, F c ≫= G).
Proof.
  intros HF HG c c' (c1 & HG1 & HF1)%list_elem_of_bind. destruct (HF _ _ HF1) as [HFo HFl], (HG _ _ HG1) as [HGo HGl].
  split; [by eapply outside_trans|]. intros d Hd. destruct (HFl d Hd) as (d1 & Hd1 & Ha1). destruct (HGl d1 Ha1) as (d' & Hd' & Ha').
  exists d'. split; [|done]. apply list_elem_of_bind. by exists d1.
Qed.

Lemma local_update f : local_op q l (λ c, [update l f c]).
Proof.
  intros c c' ->%list_elem_of_singleton. split.
  - split; cbn; try done. intros l' H. by rewrite lookup_alter_ne.
  - intros d [H1 H2 H3]. exists (update l f d). split; [by apply list_elem_of_singleton|].
    split; cbn; try done. by rewrite !lookup_alter, !decide_True, H2.
Qed.

Lemma local_remove : local_op q l (λ c, [set_streams (delete q (cl_streams c)) c]).
Proof.
  intros c c' ->%list_elem_of_singleton. split.
  - split; cbn; try done. intros q' H. by rewrite lookup_delete_ne.
  - intros d []. eexists. split; [by apply list_elem_of_singleton|]. split; cbn; try done. by rewrite !lookup_delete_eq.
Qed.

Lemma local_deliver b : local_op q l (deliver l b).
Proof.
  intros c c'. unfold deliver. destruct (cl_heap c !! l) as [cs|] eqn:Hcs; [|by intros ?%elem_of_nil].
  assert (∀ d, agree q l c d → cl_heap d !! l = Some cs) as Hd by (intros d [_ H _]; by rewrite <- H).
  intros [H|H]%elem_of_app.
  - case_decide as Hroom; [|by apply elem_of_nil in H].
    pose proof (local_update (with_inbound (cs_inbound cs ++ [{| ir_data := b; ir_err := None |}])) c c' H) as [Ho Hl].
    split; [done|]. intros d Ha. destruct (Hl d Ha) as (d' & Hd' & Ha'). exists d'. split; [|done].
    rewrite (Hd d Ha). rewrite decide_True by done. apply elem_of_app. by left.
  - destruct (cs_end cs) eqn:He; [|by apply elem_of_nil in H]. apply list_elem_of_singleton in H as ->.
    split; [done|]. intros d Ha. exists d. split; [|done]. rewrite (Hd d Ha), He. apply elem_of_app. right. by apply list_elem_of_singleton.
Qed.

Lemma local_reassemble total offset data (K : res (option bytes) → client → list client) :
  (∀ o, local_op q l (K o)) →
  local_op q l (λ c, let '(o, r) := Reassembler.Reassemble (cl_reasm c) q total offset data in K o (set_reasm r c)).
Proof.
  intros HK c c' Hin.
  destruct (Reassembler.Reassemble (cl_reasm c) q total offset data) as [o r] eqn:Er.
  destruct (HK o _ _ Hin) as [Ho Hl]. split.
  - eapply outside_trans; [|exact Ho]. split; cbn; try done. intros q' Hq.
    rewrite <- (Reassemble_other (cl_reasm c) q' q total offset data Hq). by rewrite Er.
  - intros d [A1 A2 A3]. destruct (Reassemble_local (cl_reasm c) (cl_reasm d) q total offset data A3) as [E1 E2].
    rewrite Er in E1, E2. cbn in E1, E2.
    destruct (Reassembler.Reassemble (cl_reasm d) q total offset data) as [o' r'] eqn:Ed. cbn in E1, E2. subst o'.
    destruct (Hl (set_reasm r' d)) as (d' & Hd' & Ha'); [by split|]. by exists d'.
Qed.
End operations.

(** ** [dispatch] is one *)

Definition dispatched (f : ResponseFrame) (c : client) : list client :=
  r ← dispatch f c; match r.1 with Ok _ => [r.2] | _ => [] end.

Lemma dispatched_spec f c c' : c' ∈ dispatched f c ↔ (Ok tt, c') ∈ dispatch f c.
Proof.
  unfold dispatched. rewrite list_elem_of_bind. split.
  - intros ([[[]|e|s] c1] & Hin & H); cbn in Hin; [|by apply elem_of_nil in Hin..].
    apply list_elem_of_singleton in Hin as ->. done.
  - intros H. exists (Ok tt, c'). split; [by apply list_elem_of_singleton|done].
Qed.

(** [dispatch] of a frame whose stream is the one at [l]. *)
Definition dispatch_at (f : ResponseFrame) (l : nat) (c : client) : list client :=
  match rf_Type f with
  | Some (ResponseFrame_Begin b) => dispatch_begin l b c
  | Some (ResponseFrame_Data d) =>
      match GetContent d with
      | Some (Data_Message m) => deliver l m c
      | Some (Data_Chunk ch) =>
          let '(o, r) := Reassembler.Reassemble (cl_reasm c) (int32 (rf_seq f)) (TotalSize ch) (Offset ch) (chunk_Data ch) in
          (match o with Ok (Some full) => deliver l full | Ok None => λ c, [c] | _ => λ _, [] end) (set_reasm r c)
      | None => [c]
      end
  | Some (ResponseFrame_End e) => [dispatch_end l (rf_seq f) e c]
  | None => [c]
  end.

Lemma bind_oks (cs : list client) :
  (pair (Ok tt) <$> cs) ≫= (λ r : res unit * client, match r.1 with Ok _ => [r.2] | _ => [] end) = cs.
Proof. induction cs as [|c cs IH]; [done|]. cbn. by f_equal. Qed.

Lemma dispatched_at f l c : cl_streams c !! rf_seq f = Some l → dispatched f c = dispatch_at f l c.
Proof.
  intros Hl. unfold dispatched, dispatch, dispatch_at. unfold rf_seq in *. rewrite Hl.
  destruct (rf_Type f) as [[b|d|e]|]; [apply bind_oks| |done..].
  destruct (GetContent d) as [[m|ch]|]; [apply bind_oks| |done].
  destruct (Reassembler.Reassemble _ _ _ _ _) as [[[full|]|err|s] r]; [apply bind_oks|done..].
Qed.

Lemma dispatched_none f c : cl_streams c !! rf_seq f = None → dispatched f c = [c].
Proof. intros Hl. unfold dispatched, dispatch. unfold rf_seq in *. by rewrite Hl. Qed.

Lemma local_ext q l F G : (∀ c, F c = G c) → local_op q l F → local_op q l G.
Proof.
  intros E HF c c'. rewrite <- E. intros Hin. destruct (HF c c' Hin) as [Ho Hl]. split; [done|].
  intros d Hd. rewrite <- E. by apply Hl.
Qed.

Lemma local_after q l f F : local_op q l F → local_op q l (λ c, F (update l f c)).
Proof.
  intros HF. apply (local_ext q l (λ c, [update l f c] ≫= F)); [intros c; apply bind_one|].
  by apply local_bind; [apply local_update|].
Qed.

Lemma local_begin q l b : local_op q l (dispatch_begin l b).
Proof.
  unfold dispatch_begin. destruct b as [b|]; [|apply local_ret].
  assert (∀ F, local_op q l F → local_op q l (λ c, F match begin_Header b with
    | Some h => update l (λ cs, with_header (mergeIn (cs_header cs) (map_to_list h)) cs) c | None => c end)) as Hh.
  { intros F HF. destruct (begin_Header b) as [h|]; [|done].
    by apply local_after. }
  destruct (begin_InlineData b) as [d|]; [|by apply (Hh (λ c, [c])), local_ret].
  destruct (0 <? len d); [by apply Hh, local_deliver|by apply (Hh (λ c, [c])), local_ret].
Qed.

Lemma local_end q l e : local_op q l (λ c, [dispatch_end l q e c]).
Proof.
  set (st := match e with Some e => match end_Status e with Some p => statusFromProto (Some p) | None => OK end | None => OK end).
  set (mark := end_once {| er_status := st; er_err := Status_Err (Some st) |}).
  assert (∀ F, local_op q l F → local_op q l (λ c, F match e with
    | Some e => match end_Trailer e with
                | Some t => update l (λ cs, with_trailer (mergeIn (cs_trailer cs) (map_to_list t)) cs) c | None => c end
    | None => c end)) as Ht.
  { intros F HF. destruct e as [e|]; [|done]. destruct (end_Trailer e) as [t|]; [|done].
    by apply local_after. }
  apply (Ht (λ c, [set_streams (delete q (cl_streams (update l mark c))) (update l mark c)])).
  apply (local_after q l mark (λ c, [set_streams (delete q (cl_streams c)) c])), local_remove.
Qed.

Lemma local_dispatch f l : int32 (rf_seq f) = rf_seq f → local_op (rf_seq f) l (dispatch_at f l).
Proof.
  intros Hq. unfold dispatch_at. rewrite Hq. destruct (rf_Type f) as [[b|d|e]|]; [apply local_begin| |apply local_end|apply local_ret].
  destruct (GetContent d) as [[m|ch]|]; [apply local_deliver| |apply local_ret].
  apply (local_reassemble _ _ _ _ _ (λ o, match o with Ok (Some full) => deliver l full | Ok None => λ c, [c] | _ => λ _, [] end)).
  intros [[full|]|err|s]; [apply local_deliver|apply local_ret|by intros c c' ?%elem_of_nil..].
Qed.

(** ** Frames of different streams commute *)

Lemma entry_seq c q l : CInv c → cl_streams c !! q = Some l → q = seq_at l ∧ int32 q = q.
Proof. intros Hc Hl. destruct (ci_streams _ Hc _ _ Hl) as [_ ->]. split; [done|apply seq_at_int32]. Qed.

(** A dispatch that leaves the rest alone, and would do the same elsewhere. *)
Lemma dispatched_local f l c c' :
  CInv c → cl_streams c !! rf_seq f = Some l → c' ∈ dispatched f c →
  outside (rf_seq f) l c c' ∧ ∀ d, agree (rf_seq f) l c d → ∃ d', d' ∈ dispatched f d ∧ agree (rf_seq f) l c' d'.
Proof.
  intros Hc Hl Hin. destruct (entry_seq _ _ _ Hc Hl) as [_ Hq]. rewrite (dispatched_at f l c Hl) in Hin.
  destruct (local_dispatch f l Hq _ _ Hin) as [Ho Hd]. split; [done|]. intros d Ha. destruct (Hd d Ha) as (d' & Hd' & Ha').
  exists d'. split; [|done]. rewrite (dispatched_at f l); [done|]. by rewrite <- (ag_streams _ _ _ _ Ha).
Qed.

Lemma outside_sym q l c d : outside q l c d → outside q l d c.
Proof. intros []. split; try done; intros; symmetry; auto. Qed.

(** Clients that agree on two streams and, through others, on everything else. *)
Lemma client_ext q1 l1 q2 l2 c c1 b d1 d :
  agree q1 l1 c d → agree q2 l2 c d →
  outside q2 l2 c1 c → outside q1 l1 b c1 → outside q2 l2 b d1 → outside q1 l1 d1 d → c = d.
Proof.
  intros [S1 H1 R1] [S2 H2 R2] O1 O2 O3 O4.
  assert (cl_streams c = cl_streams d) as Es.
  { apply map_eq. intros q. destruct (decide (q = q1)) as [->|N1]; [done|]. destruct (decide (q = q2)) as [->|N2]; [done|].
    by rewrite <- (out_streams _ _ _ _ O1), <- (out_streams _ _ _ _ O2), (out_streams _ _ _ _ O3), (out_streams _ _ _ _ O4). }
  assert (cl_heap c = cl_heap d) as Eh.
  { apply map_eq. intros l. destruct (decide (l = l1)) as [->|N1]; [done|]. destruct (decide (l = l2)) as [->|N2]; [done|].
    by rewrite <- (out_heap _ _ _ _ O1), <- (out_heap _ _ _ _ O2), (out_heap _ _ _ _ O3), (out_heap _ _ _ _ O4). }
  assert (cl_reasm c = cl_reasm d) as Er.
  { apply map_eq. intros q. destruct (decide (q = q1)) as [->|N1]; [done|]. destruct (decide (q = q2)) as [->|N2]; [done|].
    by rewrite <- (out_reasm _ _ _ _ O1), <- (out_reasm _ _ _ _ O2), (out_reasm _ _ _ _ O3), (out_reasm _ _ _ _ O4). }
  destruct O1, O2, O3, O4, c, d; cbn in *. f_equal; congruence.
Qed.

Lemma CInv_dispatched f c c' : CInv c → c' ∈ dispatched f c → CInv c'.
Proof. intros Hc Hin%dispatched_spec. by eapply CInv_dispatch. Qed.

(** A dispatch leaves the entries of other sequences alone. *)
Lemma dispatched_entry f c c' q :
  CInv c → c' ∈ dispatched f c → q ≠ rf_seq f → cl_streams c' !! q = cl_streams c !! q.
Proof.
  intros Hc Hin Hq. destruct (cl_streams c !! rf_seq f) as [l|] eqn:Hl.
  - destruct (dispatched_local f l c c' Hc Hl Hin) as [Ho _]. by rewrite (out_streams _ _ _ _ Ho).
  - rewrite dispatched_none in Hin by done. by apply list_elem_of_singleton in Hin as ->.
Qed.

Lemma dispatched_commute f g c c1 c2 :
  CInv c → rf_seq f ≠ rf_seq g → c1 ∈ dispatched f c → c2 ∈ dispatched g c1 →
  ∃ d1, d1 ∈ dispatched g c ∧ c2 ∈ dispatched f d1.
Proof.
  intros Hc Hne Hf Hg. pose proof (CInv_dispatched _ _ _ Hc Hf) as Hc1.
  pose proof (dispatched_entry f c c1 (rf_seq g) Hc Hf (not_eq_sym Hne)) as Eg.
  destruct (cl_streams c !! rf_seq f) as [lf|] eqn:Hlf.
  2: { rewrite dispatched_none in Hf by done. apply list_elem_of_singleton in Hf as ->. exists c2. split; [done|].
       rewrite dispatched_none; [by apply list_elem_of_singleton|]. by rewrite (dispatched_entry g c c2). }
  destruct (cl_streams c !! rf_seq g) as [lg|] eqn:Hlg.
  2: { rewrite dispatched_none in Hg by congruence. apply list_elem_of_singleton in Hg as ->. exists c.
       split; [|done]. rewrite dispatched_none by done. by apply list_elem_of_singleton. }
  assert (lf ≠ lg) as Hl.
  { intros <-. apply Hne. destruct (entry_seq _ _ _ Hc Hlf) as [-> _], (entry_seq _ _ _ Hc Hlg) as [-> _]. done. }
  destruct (dispatched_local f lf c c1 Hc Hlf Hf) as [Of Lf].
  destruct (dispatched_local g lg c1 c2 Hc1) as [Og Lg]; [congruence|done|].
  destruct (Lg c) as (d1 & Hd1 & A1); [apply agree_sym; by eapply outside_agree|].
  destruct (dispatched_local g lg c d1 Hc Hlg Hd1) as [Og' _].
  destruct (Lf d1) as (d2 & Hd2 & A2); [by eapply outside_agree, Og'|].
  assert (cl_streams d1 !! rf_seq f = Some lf) as Hlf1 by (by rewrite <- (out_streams _ _ _ _ Og')).
  destruct (dispatched_local f lf d1 d2 (CInv_dispatched _ _ _ Hc Hd1) Hlf1 Hd2) as [Of' _].
  exists d1. split; [done|].
  rewrite (client_ext (rf_seq f) lf (rf_seq g) lg c2 c1 c d1 d2); [done| | |done|done|done|done].
  - eapply agree_trans; [apply agree_sym; by eapply outside_agree, Og|done].
  - eapply agree_trans; [exact A1|]. by eapply outside_agree, Of'.
Qed.

(** ** Lists of frames *)

(** What may become of the client when it takes the frames in turn. *)
Fixpoint dispatched_all (fs : list ResponseFrame) (c : client) : list client :=
  match fs with [] => [c] | f :: fs => c1 ← dispatched f c; dispatched_all fs c1 end.

Lemma dispatched_all_cons f fs c c' :
  c' ∈ dispatched_all (f :: fs) c ↔ ∃ c1, c1 ∈ dispatched f c ∧ c' ∈ dispatched_all fs c1.
Proof. cbn. rewrite list_elem_of_bind. naive_solver. Qed.

Lemma dispatched_all_app fs gs c c' :
  c' ∈ dispatched_all (fs ++ gs) c ↔ ∃ c1, c1 ∈ dispatched_all fs c ∧ c' ∈ dispatched_all gs c1.
Proof.
  revert c. induction fs as [|f fs IH]; intros c.
  - cbn [app dispatched_all]. setoid_rewrite list_elem_of_singleton. naive_solver.
  - cbn [app]. rewrite dispatched_all_cons. setoid_rewrite dispatched_all_cons. setoid_rewrite IH. naive_solver.
Qed.

Lemma CInv_dispatched_all fs c c' : CInv c → c' ∈ dispatched_all fs c → CInv c'.
Proof.
  revert c. induction fs as [|f fs IH]; intros c Hc; [by intros ->%list_elem_of_singleton|].
  rewrite dispatched_all_cons. intros (c1 & Hf & Hfs). eapply IH; [by eapply CInv_dispatched|done].
Qed.

(** A frame moves to the front over frames of other streams. *)
Lemma dispatched_front f gs c c' :
  CInv c → Forall (λ g, rf_seq g ≠ rf_seq f) gs →
  c' ∈ dispatched_all (gs ++ [f]) c → c' ∈ dispatched_all (f :: gs) c.
Proof.
  intros Hc Hall. revert c Hc. induction Hall as [|g gs Hg _ IH]; intros c Hc; [done|].
  cbn [app]. rewrite dispatched_all_cons. intros (c1 & Hc1 & Hrest). pose proof (CInv_dispatched _ _ _ Hc Hc1) as HI.
  apply IH in Hrest; [|done]. apply dispatched_all_cons in Hrest as (c2 & Hf & Hgs).
  destruct (dispatched_commute g f c c1 c2 Hc Hg Hc1 Hf) as (d1 & Hd1 & Hg').
  apply dispatched_all_cons. exists d1. split; [done|]. apply dispatched_all_cons. by exists c2.
Qed.

(** ** Shuffles *)

(** The same frames of each stream in the same order. *)
Definition shuffled (fs gs : list ResponseFrame) : Prop := ∀ q, frames_of q fs = frames_of q gs.

#[export] Instance shuffled_equivalence : Equivalence shuffled.
Proof. split; [by intros fs q|by intros fs gs H q|intros fs gs hs H1 H2 q; by rewrite H1]. Qed.

Lemma frames_of_cons q f fs : frames_of q (f :: fs) = if decide (rf_seq f = q) then f :: frames_of q fs else frames_of q fs.
Proof. unfold frames_of. by rewrite filter_cons. Qed.

Lemma frames_of_nil q fs : frames_of q fs = [] ↔ Forall (λ f, rf_seq f ≠ q) fs.
Proof.
  induction fs as [|f fs IH]; [by split; [constructor|]|]. rewrite frames_of_cons, Forall_cons, <- IH. case_decide; naive_solver.
Qed.

(** The first frame of its stream in a list. *)
Lemma frames_of_split q f fs gs :
  frames_of q gs = f :: fs → ∃ g1 g2, gs = g1 ++ f :: g2 ∧ Forall (λ g, rf_seq g ≠ q) g1 ∧ frames_of q g2 = fs ∧ rf_seq f = q.
Proof.
  induction gs as [|g gs IH]; [done|]. rewrite frames_of_cons. case_decide as Hq.
  - intros [= <- <-]. exists [], gs. split_and!; [done|constructor|done|done].
  - intros H. destruct (IH H) as (g1 & g2 & -> & Hall & Hg & Hf). exists (g :: g1), g2. split_and!; try done. by constructor.
Qed.

Lemma shuffled_dispatched fs : ∀ gs c c',
  CInv c → shuffled fs gs → c' ∈ dispatched_all gs c → c' ∈ dispatched_all fs c.
Proof.
  induction fs as [|f fs IH]; intros gs c c' Hc Hsh Hin.
  - destruct gs as [|g gs]; [done|]. specialize (Hsh (rf_seq g)). rewrite frames_of_cons, decide_True in Hsh by done. done.
  - pose proof (Hsh (rf_seq f)) as Hf. rewrite frames_of_cons, decide_True in Hf by done. symmetry in Hf.
    destruct (frames_of_split _ _ _ _ Hf) as (g1 & g2 & -> & Hall & Hg2 & _).
    replace (g1 ++ f :: g2) with ((g1 ++ [f]) ++ g2) in Hin by (by rewrite <- app_assoc).
    apply dispatched_all_app in Hin as (c1 & H1 & H2). apply dispatched_front in H1; [|done..].
    apply dispatched_all_cons in H1 as (c0 & H0 & H1). apply dispatched_all_cons. exists c0. split; [done|].
    apply (IH (g1 ++ g2)); [by eapply CInv_dispatched| |apply dispatched_all_app; by exists c1].
    intros q. specialize (Hsh q). rewrite frames_of_app, !frames_of_cons in Hsh. rewrite frames_of_app.
    case_decide as Hq; [|done]. subst q.
    assert (frames_of (rf_seq f) g1 = []) as Hn by by apply frames_of_nil.
    rewrite Hn in Hsh |- *. by injection Hsh.
Qed.
