(* ===== verification/ServerWriter.v ===== *)
(** * The writer of the server (rpc/server.go, [queue] and [runWriter])

    [RpcServer] takes a call of [queue] for one step, and the frames that one
    operation queues for one block of the output.  Here the handshake is taken
    apart: a goroutine that has frames to send selects on [m.out], which holds
    256, waits for the [done] of its frame, and goes on with the next one; the
    writer goroutine takes the frames in turn and closes their [done] when
    [SendFrame] has returned, whatever it returned.  While the connection is up
    the two views cannot be told apart by the client. *)

From Stdlib Require Import Strings.Byte ZArith Lia Wellfounded.
From stdpp Require Import numbers strings gmap fin_maps relations list.
From S2P Require Import Prelude Status Messages Transport Chunks RpcServer RpcServerSafety RpcClient RpcClientProps ClientFrames.
Open Scope Z_scope.

(** [make(chan outboundFrame, 256)]. *)
Definition out_cap : nat := 256.

(** A call of [queue]: in the first select, in the second, with its [done] closed. *)
Inductive qphase : Type := QSelect | QWait | QClosed.

(** A goroutine: the frames it has still to queue, the current one first, the
    number of its current call, whether it drops errors, as [endStream] does,
    or stops at the first, as [Send] does, and that error. *)
Record sender : Type := {
  sn_left : list ResponseFrame;
  sn_phase : qphase;
  sn_call : nat;
  sn_drops : bool;
  sn_err : option error
}.

(** An [outboundFrame]; [done] is named by the goroutine and its call. *)
Record outboundFrame : Type := { of_from : nat; of_call : nat; of_frame : ResponseFrame }.

Inductive wphase : Type := WSelect | WSending (x : outboundFrame) | WExited.

Record writer : Type := {
  w_ctx : option error;
  w_done : bool;
  w_out : list outboundFrame;
  w_phase : wphase;
  w_written : list outboundFrame;    (* passed to [SendFrame] *)
  w_senders : list sender
}.

Definition new_sender (drops : bool) (fs : list ResponseFrame) : sender :=
  {| sn_left := fs; sn_phase := QSelect; sn_call := 0; sn_drops := drops; sn_err := None |}.

Definition start (jobs : list (bool * list ResponseFrame)) : writer :=
  {| w_ctx := None; w_done := false; w_out := []; w_phase := WSelect; w_written := [];
     w_senders := (λ j, new_sender j.1 j.2) <$> jobs |}.

Definition with_phase (p : qphase) (s : sender) : sender :=
  {| sn_left := sn_left s; sn_phase := p; sn_call := sn_call s; sn_drops := sn_drops s; sn_err := sn_err s |}.

(** [queue] returns. *)
Definition returned (r : option error) (s : sender) : sender :=
  {| sn_left := match r with
                | Some _ => if sn_drops s then tail (sn_left s) else []
                | None => tail (sn_left s)
                end;
     sn_phase := QSelect; sn_call := S (sn_call s); sn_drops := sn_drops s;
     sn_err := match r with Some e => if sn_drops s then sn_err s else Some e | None => sn_err s end |}.

(** [close(of.done)], which wakes the call that it belongs to. *)
Definition close_done (n : nat) (s : sender) : sender :=
  match sn_phase s with
  | QWait => if decide (sn_call s = n) then with_phase QClosed s else s
  | _ => s
  end.

Definition set_sender (i : nat) (s : sender) (w : writer) : writer :=
  {| w_ctx := w_ctx w; w_done := w_done w; w_out := w_out w; w_phase := w_phase w; w_written := w_written w;
     w_senders := <[i := s]> (w_senders w) |}.

Definition set_out (out : list outboundFrame) (p : wphase) (w : writer) : writer :=
  {| w_ctx := w_ctx w; w_done := w_done w; w_out := out; w_phase := p; w_written := w_written w; w_senders := w_senders w |}.

(** The writer's [SendFrame] returns. *)
Definition sent (x : outboundFrame) (w : writer) : writer :=
  {| w_ctx := w_ctx w; w_done := w_done w; w_out := w_out w; w_phase := WSelect; w_written := w_written w ++ [x];
     w_senders := alter (close_done (of_call x)) (of_from x) (w_senders w) |}.

Inductive writer_step (w : writer) : writer → Prop :=
  | w_accept i s f fs :
      w_senders w !! i = Some s → sn_phase s = QSelect → sn_left s = f :: fs → (length (w_out w) < out_cap)%nat →
      writer_step w (set_sender i (with_phase QWait s)
        (set_out (w_out w ++ [{| of_from := i; of_call := sn_call s; of_frame := f |}]) (w_phase w) w))
  | w_return i s :
      w_senders w !! i = Some s → sn_phase s = QClosed → writer_step w (set_sender i (returned None s) w)
  | w_closed i s f fs :
      w_senders w !! i = Some s → sn_phase s = QSelect → sn_left s = f :: fs → w_done w = true →
      writer_step w (set_sender i (returned (Some ErrClosedPipe) s) w)
  | w_canceled i s f fs e :
      w_senders w !! i = Some s → sn_left s = f :: fs → w_ctx w = Some e →
      writer_step w (set_sender i (returned (Some e) s) w)
  | w_take x rest :
      w_phase w = WSelect → w_out w = x :: rest → writer_step w (set_out rest (WSending x) w)
  | w_sent x : w_phase w = WSending x → writer_step w (sent x w)
  | w_exit : w_phase w = WSelect → w_done w = true ∨ w_ctx w ≠ None → writer_step w (set_out (w_out w) WExited w).

(** [shutdown], and the end of the context. *)
Inductive stop_step (w : writer) : writer → Prop :=
  | stop_shutdown :
      stop_step w {| w_ctx := w_ctx w; w_done := true; w_out := w_out w; w_phase := w_phase w;
                     w_written := w_written w; w_senders := w_senders w |}
  | stop_cancel e :
      w_ctx w = None →
      stop_step w {| w_ctx := Some e; w_done := w_done w; w_out := w_out w; w_phase := w_phase w;
                     w_written := w_written w; w_senders := w_senders w |}.

(** ** Invariant while the connection is up *)

(** The frames that the writer has or will have. *)
Definition pending (w : writer) : list outboundFrame :=
  match w_phase w with WSending x => x :: w_out w | _ => w_out w end.

Definition by_sender (i : nat) (xs : list outboundFrame) : list ResponseFrame :=
  of_frame <$> filter (λ x, of_from x = i) xs.

(** What has not been written. *)
Definition owed (s : sender) : list ResponseFrame :=
  match sn_phase s with QClosed => tail (sn_left s) | _ => sn_left s end.

Record sender_ok (w : writer) (i : nat) (fs : list ResponseFrame) (s : sender) : Prop := {
  so_frames : fs = by_sender i (w_written w) ++ owed s;
  so_pending : filter (λ x, of_from x = i) (pending w) =
    match sn_phase s, sn_left s with
    | QWait, f :: _ => [{| of_from := i; of_call := sn_call s; of_frame := f |}]
    | _, _ => []
    end;
  so_left : sn_phase s ≠ QSelect → sn_left s ≠ [];
  so_err : sn_err s = None
}.

Record writer_up (jobs : list (bool * list ResponseFrame)) (w : writer) : Prop := {
  wu_ctx : w_ctx w = None;
  wu_done : w_done w = false;
  wu_running : w_phase w ≠ WExited;
  wu_length : length (w_senders w) = length jobs;
  wu_known : Forall (λ x, of_from x < length jobs)%nat (w_written w ++ pending w);
  wu_senders i j s : jobs !! i = Some j → w_senders w !! i = Some s → sender_ok w i j.2 s
}.

#[export] Instance qphase_eq_dec : EqDecision qphase.
Proof. solve_decision. Defined.

Lemma writer_up_start jobs : writer_up jobs (start jobs).
Proof.
  split; cbn; try done; [by rewrite length_fmap|].
  intros i j s Hj Hs. rewrite list_lookup_fmap, Hj in Hs. injection Hs as <-. by split.
Qed.

Lemma by_sender_app i xs ys : by_sender i (xs ++ ys) = by_sender i xs ++ by_sender i ys.
Proof. unfold by_sender. by rewrite filter_app, fmap_app. Qed.

Lemma by_sender_one i x : by_sender i [x] = if decide (of_from x = i) then [of_frame x] else [].
Proof. unfold by_sender. rewrite filter_cons. by case_decide. Qed.

(** A step that leaves the frames of a sender alone. *)
Lemma sender_ok_frame w w' i fs s :
  by_sender i (w_written w') = by_sender i (w_written w) →
  filter (λ x, of_from x = i) (pending w') = filter (λ x, of_from x = i) (pending w) →
  sender_ok w i fs s → sender_ok w' i fs s.
Proof. intros E1 E2 []. split; try done; congruence. Qed.

Lemma pending_take x rest w : w_phase w = WSelect → w_out w = x :: rest → pending (set_out rest (WSending x) w) = pending w.
Proof. intros Hp Ho. unfold pending. cbn. by rewrite Hp, Ho. Qed.

Lemma pending_accept i s x w :
  pending (set_sender i s (set_out (w_out w ++ [x]) (w_phase w) w)) = pending w ++ [x].
Proof. unfold pending. cbn. by destruct (w_phase w). Qed.

Lemma pending_sent x w : w_phase w = WSending x → pending w = x :: pending (sent x w).
Proof. intros Hp. unfold pending. cbn. by rewrite Hp. Qed.

Lemma sender_ok_return w i fs s :
  sender_ok w i fs s → sn_phase s = QClosed → sender_ok (set_sender i (returned None s) w) i fs (returned None s).
Proof.
  intros [H1 H2 H3 H4] Hp. unfold owed in H1. rewrite Hp in H1, H2. by split.
Qed.

Lemma sender_ok_accept w i fs s f rest :
  sender_ok w i fs s → sn_phase s = QSelect → sn_left s = f :: rest →
  let x := {| of_from := i; of_call := sn_call s; of_frame := f |} in
  sender_ok (set_sender i (with_phase QWait s) (set_out (w_out w ++ [x]) (w_phase w) w)) i fs (with_phase QWait s).
Proof.
  intros [H1 H2 H3 H4] Hp Hl x. unfold owed in H1. rewrite Hp in H1, H2. split; try done; [|by cbn; rewrite Hl].
  rewrite pending_accept, filter_app, H2, filter_cons_True by done. cbn. by rewrite Hl.
Qed.

(** The sender whose frame has been written was waiting for it. *)
Lemma sender_ok_sent w x i fs s :
  w_phase w = WSending x → sender_ok w i fs s →
  sender_ok (sent x w) i fs (if decide (of_from x = i) then close_done (of_call x) s else s).
Proof.
  intros Hp [H1 H2 H3 H4]. rewrite (pending_sent x w Hp), filter_cons in H2. case_decide as Hi.
  - destruct (sn_phase s) eqn:Hs; [done| |done]. destruct (sn_left s) as [|f rest] eqn:Hl; [done|].
    injection H2 as -> H2. cbn. unfold close_done. rewrite Hs, decide_True by done.
    split; try done; [|by cbn; rewrite Hl].
    unfold owed in *. rewrite Hs, Hl in H1. cbn [sent w_written with_phase sn_phase sn_left]. rewrite by_sender_app, by_sender_one, decide_True, Hl, H1 by done.
    cbn. by rewrite <- app_assoc.
  - split; try done. cbn [sent w_written]. rewrite by_sender_app, by_sender_one, decide_False by done. by rewrite app_nil_r.
Qed.

Lemma writer_up_step jobs w w' : writer_up jobs w → writer_step w w' → writer_up jobs w'.
Proof.
  intros [Hc Hd Hr Hlen Hk Hs] Hstep.
  destruct Hstep as [i s f fs Hi Hp Hl Hroom|i s Hi Hp|i s f fs Hi Hp Hl Hd'|i s f fs e Hi Hl Hc'|x rest Hp Ho|x Hp|Hp [?|?]]; try congruence.
  - apply lookup_lt_Some in Hi as Hlt. rewrite Hlen in Hlt.
    split; cbn; try done; [by rewrite length_insert| |].
    + rewrite pending_accept, app_assoc. apply Forall_app. split; [done|]. by apply Forall_singleton.
    + intros j job s' Hj Hs'. apply list_lookup_insert_Some in Hs' as [(<- & <- & _)|[Hne Hs']].
      * by apply (sender_ok_accept w i job.2 s f fs); [apply (Hs i)| |].
      * eapply sender_ok_frame; [|..|by apply (Hs j)]; [done|].
        rewrite pending_accept, filter_app, (filter_cons_False _ _ []) by (cbn; congruence). by rewrite app_nil_r.
  - split; cbn; try done; [by rewrite length_insert|].
    intros j job s' Hj Hs'. apply list_lookup_insert_Some in Hs' as [(<- & <- & _)|[Hne Hs']].
    + by apply sender_ok_return; [apply (Hs i)|].
    + by eapply sender_ok_frame; [| |apply (Hs j)].
  - split; try done; [by rewrite (pending_take x rest w Hp Ho)|].
    intros j job s' Hj Hs'. eapply sender_ok_frame; [| |by apply (Hs j)]; [done|]. by rewrite (pending_take x rest w Hp Ho).
  - rewrite (pending_sent x w Hp) in Hk. split; try done; [by cbn; rewrite length_alter| |].
    + cbn [sent w_written]. by rewrite <- app_assoc.
    + intros j job s' Hj Hs'. cbn [sent w_senders] in Hs'.
      assert (∃ s, w_senders w !! j = Some s ∧ s' = if decide (of_from x = j) then close_done (of_call x) s else s) as (s & Hsj & ->).
      { rewrite list_lookup_alter in Hs'. case_decide as Hi; [subst j|by exists s'].
        destruct (w_senders w !! of_from x) as [s|]; [|done]. injection Hs' as <-. by exists s. }
      by apply sender_ok_sent; [|apply (Hs j)].
Qed.

(** ** Rest *)

Definition finished (w : writer) : Prop :=
  w_phase w = WSelect ∧ w_out w = [] ∧ Forall (λ s, sn_left s = [] ∧ sn_phase s = QSelect) (w_senders w).

Lemma writer_rest jobs w : writer_up jobs w → finished w ∨ ∃ w', writer_step w w'.
Proof.
  intros [_ _ Hr Hlen _ Hs]. destruct (w_phase w) as [|x|] eqn:Hp; [|right; eexists; by apply w_sent|done].
  destruct (w_out w) as [|x rest] eqn:Ho; [|right; eexists; by apply w_take].
  destruct (decide (Forall (λ s, sn_left s = [] ∧ sn_phase s = QSelect) (w_senders w))) as [|Hn]; [by left|right].
  apply not_Forall_Exists in Hn; [|apply _]. apply Exists_exists in Hn as (s & Hin & Hn).
  apply list_elem_of_lookup in Hin as [i Hi]. destruct (lookup_lt_is_Some_2 jobs i) as [j Hj].
  { rewrite <- Hlen. by eapply lookup_lt_Some. }
  destruct (Hs i j s Hj Hi) as [_ H2 H3 _]. unfold pending in H2. rewrite Hp, Ho in H2. cbn in H2.
  destruct (sn_phase s) eqn:Hph.
  - destruct (sn_left s) as [|f fs] eqn:Hl; [naive_solver|]. eexists. apply (w_accept w i s f fs); try done.
    rewrite Ho. cbn. unfold out_cap. lia.
  - destruct (sn_left s); [by destruct H3|done].
  - eexists. by apply (w_return w i s).
Qed.

Definition sender_work (s : sender) : nat :=
  5 * length (sn_left s) - match sn_phase s with QSelect => 0 | QWait => 3 | QClosed => 4 end.

Definition writer_work (w : writer) : nat :=
  sum_list_with sender_work (w_senders w) + 2 * length (w_out w) + match w_phase w with WSending _ => 1 | _ => 0 end.

Lemma sum_insert {A} (g : A → nat) l i x y :
  l !! i = Some x → (sum_list_with g (<[i := y]> l) + g x = sum_list_with g l + g y)%nat.
Proof.
  revert i. induction l as [|z l IH]; intros [|i]; cbn; try done; [intros [= ->]; lia|]. intros H%IH. unfold insert in H |- *. lia.
Qed.

Lemma sum_alter {A} (g : A → nat) h l i :
  (∀ x, g (h x) ≤ g x)%nat → (sum_list_with g (alter h i l) ≤ sum_list_with g l)%nat.
Proof.
  intros Hh. revert i. induction l as [|x l IH]; intros [|i]; cbn; [lia..| |]; [specialize (Hh x); lia|specialize (IH i)].
  unfold alter in IH |- *. lia.
Qed.

Lemma close_done_work n s : (sender_work (close_done n s) ≤ sender_work s)%nat.
Proof. unfold close_done, sender_work. destruct (sn_phase s) eqn:E; rewrite ?E; try lia. case_decide; cbn; rewrite ?E; lia. Qed.

Lemma writer_step_work jobs w w' : writer_up jobs w → writer_step w w' → (writer_work w' < writer_work w)%nat.
Proof.
  intros [Hc Hd Hr Hlen Hk Hs] Hstep. unfold writer_work.
  destruct Hstep as [i s f fs Hi Hp Hl Hroom|i s Hi Hp|i s f fs Hi Hp Hl Hd'|i s f fs e Hi Hl Hc'|x rest Hp Ho|x Hp|Hp [?|?]]; try congruence;
    cbn [set_sender set_out sent w_senders w_out w_phase].
  - pose proof (sum_insert sender_work _ i s (with_phase QWait s) Hi) as Hsum. rewrite length_app. cbn [length].
    assert (sender_work (with_phase QWait s) + 3 = sender_work s)%nat by (unfold sender_work; cbn; rewrite Hp, Hl; cbn; lia). lia.
  - destruct (lookup_lt_is_Some_2 jobs i) as [j Hj]; [rewrite <- Hlen; by eapply lookup_lt_Some|].
    destruct (Hs i j s Hj Hi) as [_ _ H3 _]. pose proof (sum_insert sender_work _ i s (returned None s) Hi) as Hsum.
    assert (sender_work (returned None s) < sender_work s)%nat; [|lia].
    unfold sender_work. cbn. rewrite Hp in *. destruct (sn_left s) as [|f fs]; [by destruct H3|cbn; lia].
  - rewrite Hp, Ho. cbn. lia.
  - rewrite Hp. pose proof (sum_alter sender_work (close_done (of_call x)) (w_senders w) (of_from x) (close_done_work _)). lia.
Qed.

Lemma writer_sn jobs w : writer_up jobs w → sn writer_step w.
Proof.
  remember (writer_work w) as n eqn:En. revert w En. induction (lt_wf n) as [n _ IH]. intros w -> Hw.
  constructor. intros w' Hs. eapply IH; [by eapply writer_step_work|done|by eapply writer_up_step].
Qed.

(** ** The output is a shuffle of the blocks *)

(** No two goroutines send frames of the same sequence. *)
Definition apart (jobs : list (bool * list ResponseFrame)) : Prop :=
  ∀ i j ji jj f g, jobs !! i = Some ji → jobs !! j = Some jj → f ∈ ji.2 → g ∈ jj.2 → rf_seq f = rf_seq g → i = j.

Lemma frames_of_by q i xs :
  (∀ x, x ∈ xs → rf_seq (of_frame x) = q → of_from x = i) →
  frames_of q (of_frame <$> xs) = frames_of q (by_sender i xs).
Proof.
  unfold by_sender. induction xs as [|x xs IH]; intros Hx; [done|]. cbn [fmap list_fmap]. rewrite frames_of_cons, filter_cons.
  rewrite IH by (intros y Hy; apply Hx; by apply elem_of_cons; right).
  case_decide as Hq; [rewrite decide_True by (apply Hx; [by apply elem_of_cons; left|done]); cbn; by rewrite frames_of_cons, decide_True|].
  case_decide; [|done]. cbn. by rewrite frames_of_cons, decide_False.
Qed.

(** The blocks one after the other, as [RpcServer] appends them. *)
Definition blocks (jobs : list (bool * list ResponseFrame)) : list ResponseFrame := concat (jobs.*2).

Lemma elem_of_blocks f jobs : f ∈ blocks jobs ↔ ∃ i j, jobs !! i = Some j ∧ f ∈ j.2.
Proof.
  unfold blocks. rewrite list_elem_of_In, in_concat. setoid_rewrite <- list_elem_of_In. split.
  - intros (fs & (j & -> & Hj)%list_elem_of_fmap & Hf). apply list_elem_of_lookup in Hj as [i Hi]. by exists i, j.
  - intros (i & j & Hi & Hf). exists j.2. split; [|done]. apply list_elem_of_fmap. exists j. split; [done|]. by eapply list_elem_of_lookup_2.
Qed.

Lemma frames_of_blocks q i j jobs :
  jobs !! i = Some j → (∀ i' j' f, jobs !! i' = Some j' → f ∈ j'.2 → rf_seq f = q → i' = i) →
  frames_of q (blocks jobs) = frames_of q j.2.
Proof.
  intros Hi Honly. rewrite <- (take_drop_middle jobs i j Hi). unfold blocks. rewrite fmap_app, fmap_cons, concat_app. cbn [concat].
  assert (∀ js, (∀ i' j', js !! i' = Some j' → ∃ i0, jobs !! i0 = Some j' ∧ i0 ≠ i) → frames_of q (concat (js.*2)) = []) as Hnone.
  { intros js Hjs. apply frames_of_nil, Forall_forall. intros f Hf Hq. fold (blocks js) in Hf.
    apply elem_of_blocks in Hf as (i' & j' & Hj' & Hf). destruct (Hjs i' j' Hj') as (i0 & Hi0 & Hne). by apply Hne, (Honly i0 j' f). }
  rewrite !frames_of_app, (Hnone (take i jobs)), (Hnone (drop (S i) jobs)); [by rewrite app_nil_r| |].
  - intros i' j'. rewrite lookup_drop. intros H. exists (S i + i')%nat. split; [done|lia].
  - intros i' j' [H ?]%lookup_take_Some. exists i'. split; [done|lia].
Qed.

Lemma writer_shuffled jobs w :
  writer_up jobs w → finished w → apart jobs → shuffled (of_frame <$> w_written w) (blocks jobs).
Proof.
  intros [_ _ _ Hlen Hk Hs] (_ & _ & Hfin) Hap.
  assert (∀ i j, jobs !! i = Some j → by_sender i (w_written w) = j.2) as Hby.
  { intros i j Hj. destruct (lookup_lt_is_Some_2 (w_senders w) i) as [s Hi]; [rewrite Hlen; by eapply lookup_lt_Some|].
    destruct (Hs i j s Hj Hi) as [-> _ _ _]. rewrite Forall_lookup in Hfin. destruct (Hfin i s Hi) as [Hl Hp].
    unfold owed. by rewrite Hp, Hl, app_nil_r. }
  assert (∀ x, x ∈ w_written w → ∃ j, jobs !! of_from x = Some j ∧ of_frame x ∈ j.2) as Hin.
  { intros x Hx. apply Forall_app in Hk as [Hk _]. rewrite Forall_forall in Hk. destruct (lookup_lt_is_Some_2 jobs (of_from x)) as [j Hj]; [by apply Hk|].
    exists j. split; [done|]. rewrite <- (Hby _ _ Hj). apply list_elem_of_fmap. exists x. split; [done|]. by apply list_elem_of_filter. }
  intros q. destruct (decide (Forall (λ f, rf_seq f ≠ q) (blocks jobs))) as [Hno|Hyes].
  - rewrite (proj2 (frames_of_nil q (blocks jobs)) Hno). apply frames_of_nil, Forall_forall. intros f (x & -> & Hx)%list_elem_of_fmap.
    destruct (Hin x Hx) as (j & Hj & Hf). rewrite Forall_forall in Hno. apply Hno, elem_of_blocks. by exists (of_from x), j.
  - apply not_Forall_Exists in Hyes; [|apply _]. apply Exists_exists in Hyes as (f & Hf & Hq).
    apply elem_of_blocks in Hf as (i & j & Hj & Hf).
    assert (rf_seq f = q) as Hq' by (destruct (decide (rf_seq f = q)); [done|by destruct Hq]).
    rewrite (frames_of_by q i), (Hby i j Hj), (frames_of_blocks q i j); [done|done| |].
    + intros i' j' f' Hj' Hf' Hq2. eapply (Hap i' i j' j f' f); try done. congruence.
    + intros x Hx Hq2. destruct (Hin x Hx) as (j' & Hj' & Hf'). eapply (Hap (of_from x) i j' j); [done..|]. congruence.
Qed.

Lemma writer_steps_up jobs w w' : rtc writer_step w w' → writer_up jobs w → writer_up jobs w'.
Proof. induction 1; eauto using writer_up_step. Qed.

(** A call that waits for a writer that has exited. *)
Definition orphaned (i : nat) (w : writer) : Prop :=
  w_phase w = WExited ∧ w_ctx w = None ∧ ∃ s, w_senders w !! i = Some s ∧ sn_phase s = QWait.

Lemma orphaned_step i w w' : orphaned i w → writer_step w w' → orphaned i w' ∧ w_senders w' !! i = w_senders w !! i.
Proof.
  intros (Hp & Hc & s & Hs & Hw) Hstep.
  assert (∀ k s', k ≠ i → orphaned i (set_sender k s' w) ∧ <[k := s']> (w_senders w) !! i = w_senders w !! i) as Hother.
  { intros k s' Hne. assert (<[k := s']> (w_senders w) !! i = w_senders w !! i) as E by (by rewrite list_lookup_insert_ne).
    split; [|done]. split_and!; try done. exists s. cbn. by rewrite E. }
  destruct Hstep as [k s' f fs Hk Hp' Hl Hroom|k s' Hk Hp'|k s' f fs Hk Hp' Hl Hd'|k s' f fs e Hk Hl Hc'|x rest Hp' Ho|x Hp'|Hp' _]; try congruence.
  - assert (k ≠ i) as Hne by (intros ->; congruence).
    destruct (Hother k (with_phase QWait s') Hne) as [(? & ? & ?) ?]. by split.
  - apply Hother. intros ->. congruence.
  - apply Hother. intros ->. congruence.
Qed.

(** ** Properties *)

(** [C4] While the connection is up, taking [queue] for one step, and what an
    operation queues for one block, loses nothing.  Whatever goroutines send, in
    any interleaving: no call fails, what has been written of each goroutine's
    frames is a beginning of them, all is written after finitely many steps
    (of a [SendFrame] that returns), and then, if no two goroutines send on the
    same stream, the client that takes the frames as they were written may come
    to exactly the states to which it may come when it takes them block by block. *)
Theorem writer_shuffles jobs w (Hr : rtc writer_step (start jobs) w) :
  sn writer_step w ∧
  (∀ i j s, jobs !! i = Some j → w_senders w !! i = Some s →
     sn_err s = None ∧ by_sender i (w_written w) `prefix_of` j.2) ∧
  ((∃ w', writer_step w w') ∨
   finished w ∧
   (∀ i j, jobs !! i = Some j → by_sender i (w_written w) = j.2) ∧
   (apart jobs → ∀ c c', CInv c →
      c' ∈ dispatched_all (of_frame <$> w_written w) c ↔ c' ∈ dispatched_all (blocks jobs) c)).
Proof.
  pose proof (writer_steps_up jobs _ _ Hr (writer_up_start jobs)) as Hup. split; [by eapply writer_sn|]. split.
  - intros i j s Hj Hs. destruct (wu_senders _ _ Hup i j s Hj Hs) as [-> _ _ He]. split; [done|]. by eexists.
  - destruct (writer_rest jobs w Hup) as [Hfin|?]; [right|by left]. split; [done|]. split.
    + intros i j Hj. destruct (lookup_lt_is_Some_2 (w_senders w) i) as [s Hs].
      { rewrite (wu_length _ _ Hup). by eapply lookup_lt_Some. }
      destruct (wu_senders _ _ Hup i j s Hj Hs) as [-> _ _ _]. destruct Hfin as (_ & _ & Hfin). rewrite Forall_lookup in Hfin.
      destruct (Hfin i s Hs) as [Hl Hp]. unfold owed. by rewrite Hp, Hl, app_nil_r.
    + intros Hap c c' Hc. pose proof (writer_shuffled jobs w Hup Hfin Hap) as Hsh. split.
      * apply shuffled_dispatched; [done|by symmetry].
      * by apply shuffled_dispatched.
Qed.

(** After the shutdown a call of [queue] may wait forever: [m.out] accepts its
    frame although the writer has returned, and nothing but the context, which
    the end of [Serve] does not touch, wakes it. *)
Theorem queue_orphaned i w w' (Ho : orphaned i w) (Hs : rtc writer_step w w') :
  w_senders w' !! i = w_senders w !! i ∧ orphaned i w'.
Proof.
  induction Hs as [|w w1 w2 H1 _ IH]; [done|]. destruct (orphaned_step i w w1 Ho H1) as [Ho1 E].
  destruct (IH Ho1) as [E2 ?]. split; [congruence|done].
Qed.

(** It comes to this when the shutdown and the writer's return come before the frame. *)
Lemma queue_orphaned_reached jobs drops f fs :
  ∃ w, rtc (λ w w', writer_step w w' ∨ stop_step w w') (start ((drops, f :: fs) :: jobs)) w ∧ orphaned 0 w.
Proof.
  eexists. split.
  - eapply rtc_l; [right; apply stop_shutdown|]. eapply rtc_l; [left; apply w_exit; [done|by left]|].
    apply rtc_once. left. eapply (w_accept _ 0 (new_sender drops (f :: fs))); [done..|]. cbn. unfold out_cap. lia.
  - split_and!; [done..|]. eexists. by split.
Qed.

(** ** Two goroutines, the second between two frames of the first *)

Definition two_jobs : list (bool * list ResponseFrame) :=
  [(false, [resp_data 3 [x01]; resp_data 3 [x02]]); (true, [resp_end 5 OK ∅])].

(** One goroutine queues a frame, the writer sends it, and the call returns. *)
Definition queued (i : nat) (w : writer) : option writer :=
  match w_senders w !! i with
  | Some s =>
      match sn_left s with
      | f :: _ =>
          let x := {| of_from := i; of_call := sn_call s; of_frame := f |} in
          let w := set_sender i (with_phase QWait s) (set_out (w_out w ++ [x]) (w_phase w) w) in
          let w := sent x (set_out [] (WSending x) w) in
          match w_senders w !! i with Some s => Some (set_sender i (returned None s) w) | None => None end
      | [] => None
      end
  | None => None
  end.

Lemma queued_steps i w w' :
  finished w ∨ w_phase w = WSelect ∧ w_out w = [] ∧ (∀ s, w_senders w !! i = Some s → sn_phase s = QSelect) →
  queued i w = Some w' → rtc writer_step w w'.
Proof.
  intros Hw. assert (w_phase w = WSelect ∧ w_out w = [] ∧ (∀ s, w_senders w !! i = Some s → sn_phase s = QSelect)) as (Hp & Ho & Hq).
  { destruct Hw as [(Hp & Ho & Hall)|?]; [|done]. split_and!; try done. intros s Hs. rewrite Forall_lookup in Hall. by apply (Hall i s). }
  unfold queued. destruct (w_senders w !! i) as [s|] eqn:Hs; [|done]. destruct (sn_left s) as [|f fs] eqn:Hl; [done|].
  specialize (Hq s eq_refl). apply lookup_lt_Some in Hs as Hlt. cbn zeta. set (x := {| of_from := i; of_call := sn_call s; of_frame := f |}).
  cbn [sent set_out set_sender w_senders]. rewrite list_lookup_alter, decide_True, list_lookup_insert_eq by done. cbn.
  rewrite decide_True by done. intros [= <-].
  eapply rtc_l; [apply (w_accept w i s f fs Hs Hq Hl); rewrite Ho; cbn; unfold out_cap; lia|].
  eapply rtc_l; [apply (w_take _ x []); [done|cbn; by rewrite Ho]|].
  eapply rtc_l; [by apply (w_sent _ x)|]. apply rtc_once.
  apply (w_return _ i (with_phase QClosed (with_phase QWait s))); [|done].
  cbn. rewrite list_lookup_alter, decide_True, list_lookup_insert_eq by done. cbn. unfold close_done. cbn. by rewrite decide_True.
Qed.

Definition between_1 : writer := default (start two_jobs) (queued 0 (start two_jobs)).
Definition between_2 : writer := default between_1 (queued 1 between_1).
Definition written_between : writer := default between_2 (queued 0 between_2).

Lemma queued_default i w :
  match queued i w, w_phase w, w_out w, sn_phase <$> (w_senders w !! i) with
  | Some _, WSelect, [], Some QSelect => True | _, _, _, _ => False end →
  rtc writer_step w (default w (queued i w)).
Proof.
  destruct (queued i w) as [w'|] eqn:Hq; [|done]. intros H. apply (queued_steps i); [right|by rewrite Hq].
  destruct (w_phase w), (w_out w); try done. split_and!; try done. intros s Hs. rewrite Hs in H. cbn in H. by destruct (sn_phase s).
Qed.

Lemma written_between_reached : rtc writer_step (start two_jobs) written_between.
Proof. etrans; [|etrans]; [apply (queued_default 0)|apply (queued_default 1)|apply (queued_default 0)]; vm_compute; exact I. Qed.

Lemma two_jobs_apart : apart two_jobs.
Proof.
  intros i j ji jj f g Hi Hj Hf Hg Hq. destruct i as [|[|i]], j as [|[|j]]; try done;
    injection Hi as <-; injection Hj as <-; cbn in Hf, Hg; set_unfold; naive_solver.
Qed.

Lemma client_after_ok n : CInv (client_after n).
Proof. apply reachable_CInv, client_after_reachable. Qed.

Lemma writer_shuffles_witness :
  (of_frame <$> w_written written_between) = [resp_data 3 [x01]; resp_end 5 OK ∅; resp_data 3 [x02]] ∧
  sn writer_step written_between ∧
  (∀ c', c' ∈ dispatched_all [resp_data 3 [x01]; resp_end 5 OK ∅; resp_data 3 [x02]] (client_after 2) →
         (λ cs, ir_data <$> cs_inbound cs) <$> cl_heap c' !! 0%nat = Some [[x01]; [x02]] ∧
         cl_streams c' !! 5 = None) ∧
  dispatched_all [resp_data 3 [x01]; resp_end 5 OK ∅; resp_data 3 [x02]] (client_after 2) ≠ [].
Proof.
  destruct (writer_shuffles two_jobs written_between written_between_reached) as (Hsn & _ & H).
  assert (of_frame <$> w_written written_between = [resp_data 3 [x01]; resp_end 5 OK ∅; resp_data 3 [x02]]) as E
    by (vm_compute; reflexivity).
  assert (blocks two_jobs = [resp_data 3 [x01]; resp_data 3 [x02]; resp_end 5 OK ∅]) as Eb by (vm_compute; reflexivity).
  rewrite E, Eb in *. split; [done|]. split; [exact Hsn|].
  destruct H as [[w' Hw]|(_ & _ & H)].
  - exfalso. inversion Hw as [i s ? ? Hi Hp Hl|i s Hi Hp|i s ? ? Hi Hp Hl|i s ? ? ? Hi Hl Hc|? ? Hp Ho|? Hp|Hp Hd]; subst; try discriminate;
      try (destruct i as [|[|i]]; [injection Hi as <-; discriminate..|discriminate]).
    destruct Hd as [Hd|Hd]; [discriminate|by apply Hd].
  - split; [|vm_compute; discriminate]. intros c' Hc'.
    destruct (H two_jobs_apart (client_after 2) c' (client_after_ok 2)) as [Hto _]. specialize (Hto Hc'). clear H Hc'.
    vm_compute in Hto.
    apply list_elem_of_singleton in Hto as ->. split; vm_compute; reflexivity.
Defined.
