(* ===== verification/EndToEnd.v ===== *)
(** * Requests from the client to the server

    The frames of a request, marshaled, prefixed by [Channel.SendFrame], stripped
    by [Channel.Recv], unmarshaled and handled by the server, up to the stream
    that they open and its handler.  [UnaryEnd], [StreamEnd] and [UploadEnd] go on
    from here. *)

From Stdlib Require Import Strings.Byte ZArith Lia.
From stdpp Require Import numbers strings gmap fin_maps relations list.
From S2P Require Import Prelude Status Messages Transport Chunks Channel RpcServer RpcServerRun RpcServerSafety RpcServerProps RpcClient RpcClientProps.
Import Framing.
Open Scope Z_scope.

(** ** The wire *)

Section wire.
Context {M : Type} `{Codec M}.

(** The frame marshals, to at least one byte and less than 4 GiB. *)
Definition sendable (f : M) : Prop :=
  ∃ raw, marshal f = Some raw ∧ 0 < len raw < two32.

(** What the other side's [Recv] returns for the frame. *)
Definition on_wire (f : M) : option bytes :=
  (λ raw, stripLengthPrefix (lengthPrefix raw)) <$> marshal f.

Lemma on_wire_sendable `{!CodecLaws M} f :
  sendable f → ∃ raw, on_wire f = Some raw ∧ unmarshal raw = Some f.
Proof.
  intros (raw & Hm & Hl). exists raw. unfold on_wire. rewrite Hm. cbn.
  split; [|by apply unmarshal_marshal]. f_equal. apply strip_lengthPrefix; lia.
Qed.
End wire.

Lemma feed_length r seq total cs : length (feed r seq total cs).1 = length cs.
Proof.
  revert r. induction cs as [|c cs IH]; intros r; [done|]. cbn [feed].
  destruct (Reassembler.Reassemble _ _ _ _ _) as [o r1]. specialize (IH r1).
  destruct (feed r1 seq total cs) as [os r2]. cbn in *. by f_equal.
Qed.

(** The fragments of a large message reach a reassembler that holds nothing
    for the sequence: the last one completes the message. *)
Lemma feed_fragment r q b :
  r !! q = None → MessageMax < len b →
  ∃ k, feed r q (len b) (fragment ChunkSize b) = (replicate k (Ok None) ++ [Ok (Some b)], delete q r).
Proof.
  intros Hr Hb. exists (length (fragment ChunkSize b) - 1)%nat.
  apply (feed_rest ChunkSize b q _ eq_refl r []); [by unfold partial; rewrite Hr|done|].
  intros Hf. pose proof (fragment_concat ChunkSize b eq_refl) as Hc. rewrite Hf in Hc. cbn in Hc.
  subst b. unfold MessageMax in Hb. cbn in Hb. done.
Qed.

Lemma fragment_int32 b :
  len b < two31 → Forall (λ c : chunk, int32 c.1 = c.1) (fragment ChunkSize b).
Proof.
  intros Hb. eapply Forall_impl; [apply fragment_of; done|].
  intros c (Ho & Hl & Hr & _). apply int32_id. zconsts. lia.
Qed.

(** ** Requests at the server *)

Section requests.
Context {Vals : Type} (srv : @Server Vals) (vals : Vals).

(** The only thing the serve loop can do with each frame. *)
Fixpoint handles (fs : list Frame) (m m' : mux) : Prop :=
  match fs with
  | [] => m = m'
  | f :: fs => ∃ m1, handleFrame srv vals f m = [(FHandled, m1)] ∧ handles fs m1 m'
  end.

Lemma handles_app fs gs m m1 m' :
  handles fs m m1 → handles gs m1 m' → handles (fs ++ gs) m m'.
Proof.
  revert m. induction fs as [|f fs IH]; intros m; cbn; [by intros ->|].
  intros (m2 & ? & ?) ?. exists m2. split; [done|by apply IH].
Qed.

Definition chunk_frame (q total : Z) (c : chunk) : Frame :=
  mkReqData q (Data_Chunk {| TotalSize := total; Offset := int32 c.1; chunk_Data := c.2 |}).

(** Chunks that the reassembler completes into [b]. *)
Lemma handles_chunks q total cs l s b k : ∀ m r',
  int32 q = q → Forall (λ c : chunk, int32 c.1 = c.1) cs →
  lookupStream q m = Some l → m_heap m !! l = Some s → ss_ctx s = None →
  (length (ss_inbound s) < inbound_cap)%nat →
  feed (m_reasm m) q total cs = (replicate k (Ok None) ++ [Ok (Some b)], r') →
  handles (map (chunk_frame q total) cs) m
    (RpcServer.update l (RpcServer.with_inbound (ss_inbound s ++ [b])) (RpcServer.set_reasm r' m)).
Proof.
  revert k. induction cs as [|c cs IH]; intros k m r' Hq Hoff Hl Hs Hctx Hcap Hfeed.
  { cbn in Hfeed. destruct k; done. }
  apply Forall_cons in Hoff as [Hc Hoff]. cbn [feed] in Hfeed. cbn [map handles].
  destruct (Reassembler.Reassemble (m_reasm m) q total c.1 c.2) as [o r1] eqn:Hre.
  destruct (feed r1 q total cs) as [os r2] eqn:Hf. injection Hfeed as Ho <-.
  assert (∀ m1, (match o with
                 | Ok (Some full) => pair FHandled <$> deliverPayload q full (RpcServer.set_reasm r1 m)
                 | Ok None => [(FHandled, RpcServer.set_reasm r1 m)]
                 | Fail e => [(FPanic (error_string e), RpcServer.set_reasm r1 m)]
                 | Panic s => [(FPanic s, RpcServer.set_reasm r1 m)] end = [(FHandled, m1)]) →
            handleFrame srv vals (chunk_frame q total c) m = [(FHandled, m1)]) as Hstep.
  { intros m1 Hm1. unfold handleFrame, chunk_frame, mkReqData.
    cbn [f_Type f_Routing routing_seq Sequence]. unfold deliverData. cbn [data_Content].
    rewrite Hq, Hc. cbn [TotalSize Offset chunk_Data]. rewrite Hq, Hre. exact Hm1. }
  destruct k as [|k]; cbn [replicate app] in Ho; injection Ho as -> Ho.
  - assert (cs = []) as ->.
    { apply length_zero_iff_nil. rewrite <- (feed_length r1 q total), Hf, Ho. done. }
    cbn in Hf. injection Hf as _ <-. eexists. split; [|done]. apply Hstep.
    unfold deliverPayload. cbn [lookupStream m_streams RpcServer.set_reasm m_heap].
    unfold lookupStream in *. cbn. by rewrite Hl, Hs, Hctx, decide_True.
  - exists (RpcServer.set_reasm r1 m). split; [by apply Hstep|].
    apply (IH k (RpcServer.set_reasm r1 m) r2); try done. by rewrite <- Ho.
Qed.

(** The frames [sendPayload] sends for a payload. *)
Definition payload_frames (q : Z) (b : bytes) : list Frame :=
  if len b <=? MessageMax then [mkReqData q (Data_Message b)]
  else map (chunk_frame q (int32 (len b))) (fragment ChunkSize b).

Lemma handles_payload q b m l s :
  int32 q = q → len b < two31 → m_reasm m !! q = None →
  lookupStream q m = Some l → m_heap m !! l = Some s → ss_ctx s = None →
  (length (ss_inbound s) < inbound_cap)%nat →
  ∃ r', handles (payload_frames q b) m
    (RpcServer.update l (RpcServer.with_inbound (ss_inbound s ++ [b])) (RpcServer.set_reasm r' m)).
Proof.
  intros Hq Hb Hr Hl Hs Hctx Hcap. unfold payload_frames.
  destruct (Z.leb_spec (len b) MessageMax) as [Hle|Hgt].
  - exists (m_reasm m). eexists. split; [|done].
    unfold handleFrame, mkReqData. cbn [f_Type f_Routing routing_seq Sequence].
    unfold deliverData, deliverPayload. cbn [data_Content].
    rewrite Hq, Hl, Hs, Hctx, decide_True by done. cbn. by destruct m.
  - destruct (feed_fragment (m_reasm m) q b Hr Hgt) as [k Hf].
    rewrite int32_id by (pose proof (len_nonneg b); zconsts; lia).
    eexists. eapply handles_chunks; try done. by apply fragment_int32.
Qed.

(** The frames of a unary or server-streaming request. *)
Definition request_frames (q : Z) (call : Call) (req : bytes) : list Frame :=
  [mkCall q call] ++
  match call_InlineData call with None => payload_frames q req | Some _ => [] end ++
  [mkReqEnd q close_send].

(** The stream that a call opens. *)
Definition call_stream (q : Z) (call : Call) : stream :=
  newServerStream None (if 0 <? call_DeadlineMs call then durationFromMs (call_DeadlineMs call) else 0)
    (call_Method call) q (call_Metadata call).

Definition call_inbound (call : Call) : list bytes :=
  match call_InlineData call with Some d => [d] | None => [] end.

Definition call_thread (call : Call) (md : MethodDesc) : thread :=
  Running (handler_prog srv vals md {| v_Method := call_Method call; v_Incoming := call_Metadata call |}).

Lemma handles_call q call m md :
  up m → int32 q = q → lookupStream q m = None → findMethod srv (call_Method call) = Some md →
  handleFrame srv vals (mkCall q call) m =
    [(FHandled, set_thread (m_next m) (call_thread call md)
                  (RpcServer.update (m_next m) (RpcServer.with_inbound (call_inbound call))
                     (add_stream q (call_stream q call) m)))].
Proof.
  intros [_ Hc] Hq Hl Hmd. unfold handleFrame, mkCall, RpcServer.openStream.
  cbn [f_Type f_Routing routing_seq Sequence]. rewrite Hq, Hmd, Hl, Hc.
  fold (call_stream q call) (call_thread call md). unfold call_inbound.
  destruct (call_InlineData call) as [d|]; cbn; [done|]. do 2 f_equal.
  unfold set_thread, set_threads, RpcServer.update, RpcServer.set_heap; cbn. f_equal.
  rewrite (alter_Some _ _ _ (call_stream q call)) by by rewrite lookup_insert, decide_True.
  by rewrite insert_insert, decide_True.
Qed.

(** The server's stream once the whole request has been handled. *)
Definition opened_stream (q : Z) (call : Call) (req : bytes) : stream :=
  with_halfClose (RpcServer.with_inbound [req] (call_stream q call)).

Lemma handles_request q call req m md :
  up m → int32 q = q → len req < two31 →
  (call_InlineData call = Some req ∨ call_InlineData call = None) →
  lookupStream q m = None → m_reasm m !! q = None → m_heap m !! m_next m = None →
  findMethod srv (call_Method call) = Some md →
  ∃ m1, handles (request_frames q call req) m m1 ∧ up m1 ∧ m_out m1 = m_out m ∧
    lookupStream q m1 = Some (m_next m) ∧
    m_heap m1 !! m_next m = Some (opened_stream q call req) ∧
    m_threads m1 !! m_next m = Some (Running (handler_prog srv vals md
      {| v_Method := call_Method call; v_Incoming := call_Metadata call |})).
Proof.
  intros Hup Hq Hb Hinl Hl Hr Hh Hmd. set (l := m_next m).
  pose proof (handles_call q call m md Hup Hq Hl Hmd) as H1. fold l in H1.
  set (s := call_stream q call) in *. set (q0 := call_inbound call) in *.
  match type of H1 with _ = [(FHandled, ?x)] => set (m1 := x) in * end.
  assert (m_heap m1 !! l = Some (RpcServer.with_inbound q0 s)) as Hs1.
  { unfold m1. cbn. by rewrite lookup_alter, lookup_insert, !decide_True. }
  assert (lookupStream q m1 = Some l) as Hl1.
  { unfold lookupStream, m1. cbn. by rewrite lookup_insert, decide_True. }
  assert (∃ r', handles (match call_InlineData call with None => payload_frames q req | Some _ => [] end)
            m1 (RpcServer.update l (RpcServer.with_inbound [req]) (RpcServer.set_reasm r' m1)))
    as [r' H2].
  { unfold q0, call_inbound in *. destruct Hinl as [Hi|Hi]; rewrite Hi in *.
    - exists (m_reasm m1). cbn [handles]. unfold RpcServer.update, RpcServer.set_heap.
      cbn [RpcServer.set_reasm m_heap m_ctx m_done m_streams m_next m_threads m_reasm m_out].
      rewrite (alter_Some _ _ _ (RpcServer.with_inbound [req] s)) by done.
      rewrite insert_id by done. by destruct m1.
    - by apply (handles_payload q req m1 l (RpcServer.with_inbound [] s)); [..|unfold inbound_cap; cbn; lia]. }
  set (m2 := RpcServer.update l (RpcServer.with_inbound [req]) (RpcServer.set_reasm r' m1)) in *.
  assert (m_heap m2 !! l = Some (RpcServer.with_inbound [req] s)) as Hs2.
  { unfold m2. cbn [m_heap RpcServer.update RpcServer.set_heap RpcServer.set_reasm].
    by rewrite lookup_alter, decide_True, Hs1. }
  exists (RpcServer.update l with_halfClose m2). split_and!.
  - eapply handles_app; [by exists m1|]. eapply handles_app; [exact H2|].
    eexists. split; [|done]. unfold handleFrame, mkReqEnd, handleEnd.
    cbn [f_Type f_Routing routing_seq Sequence]. rewrite Hq.
    assert (lookupStream q m2 = Some l) as -> by exact Hl1. done.
  - apply Hup.
  - done.
  - exact Hl1.
  - cbn [m_heap RpcServer.update RpcServer.set_heap].
    by rewrite lookup_alter, decide_True, Hs2.
  - cbn. by rewrite lookup_insert, decide_True.
Qed.
End requests.

Lemma sendPayload_frames q b c :
  sendPayload q b c = foldl (λ c f, sendFrame f c) c (payload_frames q b).
Proof.
  unfold sendPayload, payload_frames. destruct (_ <=? _); [done|].
  generalize (fragment ChunkSize b). intros chs. revert c.
  induction chs as [|ch chs IH]; intros c; [done|]. cbn [foldl map]. apply IH.
Qed.

Lemma send_request_frames q call req c :
  send_request q call req c = foldl (λ c f, sendFrame f c) c (request_frames q call req).
Proof.
  unfold send_request, request_frames. rewrite !foldl_app. cbn [foldl]. f_equal.
  destruct (call_InlineData call); [done|]. apply sendPayload_frames.
Qed.

(** ** Serving the frames *)

Section e2e.
Context {Vals : Type} (srv : @Server Vals) (vals : Vals).
Context `{!Codec Frame, !CodecLaws Frame} `{!Codec ResponseFrame, !CodecLaws ResponseFrame}.

(** [Serve] handles the frames as they come off the wire and goes on. *)
Fixpoint serves (fs : list Frame) (m m' : mux) : Prop :=
  match fs with
  | [] => m = m'
  | f :: fs => ∃ raw m1, on_wire f = Some raw ∧
      serve_iter srv vals (Ok raw) m = [(Continue, m1)] ∧ serves fs m1 m'
  end.

Lemma handles_serves fs m m' :
  Forall sendable fs → handles srv vals fs m m' → serves fs m m'.
Proof.
  revert m. induction fs as [|f fs IH]; intros m; [done|].
  intros [Hf Hfs]%Forall_cons (m1 & H1 & H2).
  destruct (on_wire_sendable f Hf) as (raw & Hw & Hu). exists raw, m1. split; [done|].
  split; [|by apply IH]. unfold serve_iter. by rewrite Hu, H1, bind_one.
Qed.
End e2e.

(** ** An example *)

(** A server whose only method reverses the request. *)
Definition rev_cont (r : bytes + error) : prog :=
  match r with
  | inl b => RpcServer.Send (reverse b) (λ _, Return (Some OK))
  | inr _ => Return (Some (Err 13 (Some (ErrorString "no message"))))
  end.

Definition rev_handler : @StreamHandler unit prog view := λ _ _, RpcServer.Recv rev_cont.

Definition rev_md : @MethodDesc unit :=
  {| md_Method := "/demo/Rev"; md_Kind := MethodKindUnary; md_Handler := rev_handler |}.

Definition rev_srv : @Server unit :=
  (RegisterService (NewServer []) {| sd_ServiceName := "demo";
     sd_Methods := [ {| md_Method := "Rev"; md_Kind := MethodKindUnary; md_Handler := rev_handler |} ] |}).2.
