(* ===== verification/Payloads.v ===== *)
(** * The messages that a sequence of frames completes

    Requests and responses carry the same contents, whole messages or chunks,
    and both ends put the chunks of a sequence together with a [Reassembler].
    [payloads] is what comes out of it, one message after the other. *)

From Stdlib Require Import Strings.Byte ZArith Lia.
From stdpp Require Import numbers strings gmap list.
From S2P Require Import Prelude Messages Transport Chunks Channel EndToEnd.
Open Scope Z_scope.

(** [None] when the reassembler would panic. *)
Fixpoint payloads (q : Z) (r : Reassembler.state) (cs : list (option Content)) : option (list bytes) :=
  match cs with
  | [] => Some []
  | c :: cs =>
      match c with
      | Some (Data_Message b) => cons b <$> payloads q r cs
      | Some (Data_Chunk c) =>
          let '(o, r) := Reassembler.Reassemble r q (TotalSize c) (Offset c) (chunk_Data c) in
          match o with
          | Ok (Some b) => cons b <$> payloads q r cs
          | Ok None => payloads q r cs
          | _ => None
          end
      | None => payloads q r cs
      end
  end.

(** The payloads of a sequence depend on the reassembler's entry for it only. *)
Lemma payloads_local q cs : ∀ r r', r !! q = r' !! q → payloads q r cs = payloads q r' cs.
Proof.
  induction cs as [|[[b|ch]|] cs IH]; intros r r' Hr; cbn [payloads]; [done|by rewrite (IH r r')| |by apply IH].
  destruct (Reassemble_local r r' q (TotalSize ch) (Offset ch) (chunk_Data ch) Hr) as [H1 H2].
  destruct (Reassembler.Reassemble r _ _ _ _) as [o r1], (Reassembler.Reassemble r' _ _ _ _) as [o' r1'].
  cbn in H1, H2. subst o'. destruct o as [[b|]|e|s]; [by rewrite (IH r1 r1')|by apply IH|done|done].
Qed.

Definition chunk_content (total : Z) (c : chunk) : option Content :=
  Some (Data_Chunk {| TotalSize := total; Offset := int32 c.1; chunk_Data := c.2 |}).

(** The contents into which either side cuts a message. *)
Definition data_contents (b : bytes) : list (option Content) :=
  if len b <=? MessageMax then [Some (Data_Message b)]
  else map (chunk_content (int32 (len b))) (fragment ChunkSize b).

(** ** Messages and the partial one after them *)

(** [payloads], with the reassembler that is left. *)
Fixpoint collect (q : Z) (r : Reassembler.state) (cs : list (option Content))
    : option (list bytes * Reassembler.state) :=
  match cs with
  | [] => Some ([], r)
  | c :: cs =>
      match c with
      | Some (Data_Message b) => prod_map (cons b) id <$> collect q r cs
      | Some (Data_Chunk c) =>
          let '(o, r) := Reassembler.Reassemble r q (TotalSize c) (Offset c) (chunk_Data c) in
          match o with
          | Ok (Some b) => prod_map (cons b) id <$> collect q r cs
          | Ok None => collect q r cs
          | _ => None
          end
      | None => collect q r cs
      end
  end.

Lemma payloads_collect q cs : ∀ r, payloads q r cs = fst <$> collect q r cs.
Proof.
  induction cs as [|[[b|ch]|] cs IH]; intros r; cbn [payloads collect]; [done| | |by rewrite IH].
  - rewrite IH. by destruct (collect q r cs) as [[? ?]|].
  - destruct (Reassembler.Reassemble _ _ _ _ _) as [[[b|]|e|s] r1]; [|by rewrite IH|done|done].
    rewrite IH. by destruct (collect q r1 cs) as [[? ?]|].
Qed.

Lemma collect_app q cs ds : ∀ r,
  collect q r (cs ++ ds) =
    '(xs, r1) ← collect q r cs; prod_map (app xs) id <$> collect q r1 ds.
Proof.
  induction cs as [|[[b|ch]|] cs IH]; intros r; cbn [app collect]; [| | |by rewrite IH].
  - cbn. by destruct (collect q r ds) as [[? ?]|].
  - rewrite IH. destruct (collect q r cs) as [[xs r1]|]; [|done]. cbn.
    by destruct (collect q r1 ds) as [[? ?]|].
  - destruct (Reassembler.Reassemble _ _ _ _ _) as [[[b|]|e|s] r1]; [|by rewrite IH|done|done].
    rewrite IH. destruct (collect q r1 cs) as [[xs r2]|]; [|done]. cbn.
    by destruct (collect q r2 ds) as [[? ?]|].
Qed.

Lemma collect_local q cs : ∀ r r' xs r1,
  r !! q = r' !! q → collect q r cs = Some (xs, r1) →
  ∃ r1', collect q r' cs = Some (xs, r1') ∧ r1' !! q = r1 !! q.
Proof.
  induction cs as [|[[b|ch]|] cs IH]; intros r r' xs r1 Hr; cbn [collect].
  - intros [= <- <-]. by exists r'.
  - intros ([ys r2] & Hc & [= -> ->])%fmap_Some. destruct (IH r r' ys r2 Hr Hc) as (r1' & -> & ?).
    by exists r1'.
  - destruct (Reassemble_local r r' q (TotalSize ch) (Offset ch) (chunk_Data ch) Hr) as [H1 H2].
    destruct (Reassembler.Reassemble r _ _ _ _) as [o r2], (Reassembler.Reassemble r' _ _ _ _) as [o' r2'].
    cbn in H1, H2. subst o'. destruct o as [[b|]|e|s]; [|by apply IH|done|done].
    intros ([ys r3] & Hc & [= -> ->])%fmap_Some. destruct (IH r2 r2' ys r3 H2 Hc) as (r1' & -> & ?).
    by exists r1'.
  - by apply IH.
Qed.

Lemma collect_feed q total b chs : ∀ r r' k,
  Forall (λ ch : chunk, int32 ch.1 = ch.1) chs →
  feed r q total chs = (replicate k (Ok None) ++ [Ok (Some b)], r') →
  collect q r (map (chunk_content total) chs) = Some ([b], r').
Proof.
  induction chs as [|ch chs IH]; intros r r' k Hoff Hfeed.
  { cbn in Hfeed. by destruct k. }
  apply Forall_cons in Hoff as [Hc Hoff]. cbn [feed] in Hfeed.
  cbn [map collect chunk_content TotalSize Offset chunk_Data].
  rewrite Hc. destruct (Reassembler.Reassemble r q total ch.1 ch.2) as [o r1].
  destruct (feed r1 q total chs) as [os r2] eqn:Hf. injection Hfeed as Ho <-.
  destruct k as [|k]; cbn [replicate app] in Ho; injection Ho as -> Ho.
  - assert (chs = []) as ->.
    { apply length_zero_iff_nil. rewrite <- (feed_length r1 q total), Hf, Ho. done. }
    cbn in Hf. by injection Hf as _ <-.
  - apply (IH r1 r2 k); [done|]. by rewrite Hf, Ho.
Qed.

Lemma payloads_chunks q total b cs chs r r' k :
  Forall (λ ch : chunk, int32 ch.1 = ch.1) chs →
  feed r q total chs = (replicate k (Ok None) ++ [Ok (Some b)], r') →
  payloads q r (map (chunk_content total) chs ++ cs) = cons b <$> payloads q r' cs.
Proof.
  intros Hoff Hfeed. rewrite !payloads_collect, collect_app, (collect_feed q total b chs r r' k) by done.
  cbn. by destruct (collect q r' cs) as [[? ?]|].
Qed.

Lemma payloads_data q b r cs :
  len b < two31 → r !! q = None →
  payloads q r (data_contents b ++ cs) = cons b <$> payloads q r cs.
Proof.
  intros Hb Hr. unfold data_contents. destruct (Z.leb_spec (len b) MessageMax) as [|Hgt]; [done|].
  destruct (feed_fragment r q b Hr Hgt) as [k Hf].
  rewrite int32_id by (pose proof (len_nonneg b); zconsts; lia).
  rewrite (payloads_chunks q (len b) b cs _ r _ k (fragment_int32 b Hb) Hf).
  f_equal. apply payloads_local. by rewrite lookup_delete, decide_True.
Qed.

(** The messages come out as they were cut, followed by what comes after. *)
Lemma payloads_messages_app q bs cs r :
  Forall (λ b, len b < two31) bs → r !! q = None →
  payloads q r (concat (map data_contents bs) ++ cs) = app bs <$> payloads q r cs.
Proof.
  intros Hb Hr. induction Hb as [|b bs Hb _ IH]; cbn [map concat app].
  - by destruct (payloads q r cs).
  - rewrite <- app_assoc, payloads_data, IH by done. by destruct (payloads q r cs).
Qed.

Lemma payloads_messages q bs r :
  Forall (λ b, len b < two31) bs → r !! q = None →
  payloads q r (concat (map data_contents bs) ++ [None]) = Some bs.
Proof. intros. rewrite payloads_messages_app by done. cbn. by rewrite app_nil_r. Qed.

(** ** What a prefix of the contents has completed *)

(** From nothing, the contents complete these messages and leave this partial
    one. *)
Definition collected (q : Z) (cs : list (option Content)) (xs : list bytes)
    (e : option Reassembler.assembler) : Prop :=
  ∃ r, collect q ∅ cs = Some (xs, r) ∧ r !! q = e.

Lemma collected_nil q : collected q [] [] None.
Proof. by exists ∅. Qed.

Lemma collected_fun q cs xs ys e e' : collected q cs xs e → collected q cs ys e' → xs = ys ∧ e = e'.
Proof. intros (r & H & <-) (r' & H' & <-). rewrite H in H'. by injection H' as <- <-. Qed.

(** What comes first completes a prefix. *)
Lemma collected_prefix q cs ds xs ys e e' :
  collected q cs xs e → collected q (cs ++ ds) ys e' → xs `prefix_of` ys.
Proof.
  intros (r & H & _) (r' & H' & _). rewrite collect_app, H in H'. cbn in H'.
  apply fmap_Some in H' as ([zs r2] & _ & [= -> _]). by exists zs.
Qed.

Lemma collected_split q cs ds ys e' :
  collected q (cs ++ ds) ys e' → ∃ xs e, collected q cs xs e.
Proof.
  intros (r' & H' & _). rewrite collect_app in H'. destruct (collect q ∅ cs) as [[xs r]|] eqn:E; [|done].
  by exists xs, (r !! q), r.
Qed.

Lemma collected_app q cs ds xs e : collected q cs xs e → ∀ r ys r',
  r !! q = e → collect q r ds = Some (ys, r') → collected q (cs ++ ds) (xs ++ ys) (r' !! q).
Proof.
  intros (r0 & H & He) r ys r' Hr Hd.
  destruct (collect_local q ds r r0 ys r') as (r1 & H1 & E); [congruence|done|].
  exists r1. by rewrite collect_app, H; cbn; rewrite H1.
Qed.

Lemma collected_none q cs xs e : collected q cs xs e → collected q (cs ++ [None]) xs e.
Proof. intros (r & H & He). exists r. by rewrite collect_app, H; cbn; rewrite app_nil_r. Qed.

Lemma collected_message q cs xs e b :
  collected q cs xs e → collected q (cs ++ [Some (Data_Message b)]) (xs ++ [b]) e.
Proof. intros (r & H & He). exists r. by rewrite collect_app, H. Qed.

Lemma collected_chunk q cs xs r ch o r' :
  collected q cs xs (r !! q) →
  Reassembler.Reassemble r q (TotalSize ch) (Offset ch) (chunk_Data ch) = (Ok o, r') →
  collected q (cs ++ [Some (Data_Chunk ch)]) (xs ++ option_list o) (r' !! q).
Proof.
  intros H HR. apply (collected_app q cs _ xs _ H r _ r'); [done|]. cbn. rewrite HR. by destruct o.
Qed.

(** A chunk that continues what has been collected never fails. *)
Lemma collected_reassembles q cs xs r ch ys e :
  collected q cs xs (r !! q) → collected q (cs ++ [Some (Data_Chunk ch)]) ys e →
  ∃ o, (Reassembler.Reassemble r q (TotalSize ch) (Offset ch) (chunk_Data ch)).1 = Ok o.
Proof.
  intros (r0 & H & He) (r1 & H1 & _). rewrite collect_app, H in H1. cbn in H1.
  destruct (Reassemble_local r r0 q (TotalSize ch) (Offset ch) (chunk_Data ch)) as [-> _]; [done|].
  destruct (Reassembler.Reassemble r0 _ _ _ _) as [[o|x|x] r2]; [by exists o|done|done].
Qed.

(** A whole message, cut into frames or not. *)
Lemma collected_data q cs xs b :
  len b < two31 → collected q cs xs None → collected q (cs ++ data_contents b) (xs ++ [b]) None.
Proof.
  intros Hb H. pose proof (payloads_data q b ∅ [] Hb (lookup_empty q)) as Hp.
  rewrite payloads_collect, app_nil_r in Hp. cbn in Hp.
  apply fmap_Some in Hp as ([ys r] & Hc & Hy). cbn in Hy. subst ys.
  assert (r !! q = None) as Hr.
  { unfold data_contents in Hc. destruct (Z.leb_spec (len b) MessageMax) as [|Hgt].
    - cbn in Hc. by injection Hc as <-.
    - revert Hc. destruct (feed_fragment ∅ q b (lookup_empty q) Hgt) as [k Hf].
      rewrite (int32_id (len b)) by (pose proof (len_nonneg b); zconsts; lia).
      intros Hc. rewrite (collect_feed q (len b) b _ ∅ _ k (fragment_int32 b Hb) Hf) in Hc.
      injection Hc as <-. by rewrite lookup_delete, decide_True. }
  rewrite <- Hr. by apply (collected_app q cs _ xs _ H ∅).
Qed.
