(* ===== verification/StreamEnd.v ===== *)
(** * A server-streaming call from end to end

    [InvokeServerStreaming]'s frames reach the server as those of a unary call
    do ([EndToEnd]); the handler answers with any number of messages and a
    status; and the [ClientStream]'s [Recv] runs concurrently with the
    [Attach] goroutine, which dispatches the response frames of this stream and
    of others.  The inbound channel holds 16 messages: [Attach] blocks when it
    is full, and every interleaving of the two goroutines is considered. *)

From Stdlib Require Import Strings.Byte ZArith Lia.
From stdpp Require Import numbers strings gmap fin_maps relations list.
From S2P Require Import Prelude Status Messages Transport Chunks Channel RpcServer RpcServerRun RpcServerSafety RpcServerProps RpcClient RpcClientProps EndToEnd Payloads.
Open Scope Z_scope.

(** ** A handler that streams *)

(** The handler sends the messages one after the other, whatever it computes
    between them, and returns the status. *)
Fixpoint replies_with (p : prog) (reps : list bytes) (st : option Status) : Prop :=
  match reps with
  | [] => p = Return st
  | b :: reps => ∃ k, p = RpcServer.Send b k ∧ replies_with (k None) reps st
  end.

Definition status_frame (q : Z) (st : option Status) (hdr : Metadata) : ResponseFrame :=
  mkEnd q {| end_CloseSend := false; end_Status := Some (toProto st);
             end_Trailer := Some (Snapshot hdr) |}.

(** The response on the wire: [Begin], the messages, [End]. *)
Definition reply_frames (q : Z) (reps : list bytes) (st : option Status) : list ResponseFrame :=
  mkBegin q (Snapshot ∅) :: concat (map (data_frames q) reps) ++ [status_frame q st ∅].

Lemma write_outs_fields fs m :
  m_heap (write_outs fs m) = m_heap m ∧ m_streams (write_outs fs m) = m_streams m ∧
  m_done (write_outs fs m) = m_done m ∧ m_ctx (write_outs fs m) = m_ctx m ∧
  m_out (write_outs fs m) = m_out m ++ fs.
Proof. by rewrite write_outs_spec. Qed.

Lemma replies_run l q reps st : ∀ p s m,
  up m → lookupStream q m = Some l → m_heap m !! l = Some s → ss_seq s = q →
  m_threads m !! l = Some (Running p) → replies_with p reps st →
  ∃ m', rtc (hdet l) m m' ∧ m_threads m' !! l = None ∧ lookupStream q m' = None ∧
    m_out m' = m_out m ++ begin_frames q s ++ concat (map (data_frames q) reps) ++
      [status_frame q st (ss_hdr s)].
Proof.
  induction reps as [|b reps IH]; intros p s m Hup Hl Hs Hq Ht Hp.
  - cbn in Hp. subst p. eexists. split.
    { apply rtc_once. unfold hdet, handler_step. rewrite Ht, Hs. unfold finish.
      by rewrite Hq, (endStream_up_some _ _ l s m Hup Hl Hs), bind_one. }
    rewrite write_outs_spec. cbn. split; [by rewrite lookup_delete, decide_True|].
    split; [by unfold lookupStream; cbn; rewrite lookup_delete, decide_True|done].
  - destruct Hp as (k & -> & Hk).
    set (m1 := set_thread l (Running (k None))
                 (write_outs (begin_frames q s ++ data_frames q b) (RpcServer.update l with_headerSent m))).
    assert (hdet l m m1) as R1.
    { unfold hdet, handler_step. rewrite Ht, Hs.
      rewrite stream_Send_up with (s := s), bind_one; [by rewrite Hq|done|done|by rewrite Hq]. }
    destruct (write_outs_fields (begin_frames q s ++ data_frames q b)
                (RpcServer.update l with_headerSent m)) as (Eh & Es & Ed & Ec & Eo).
    destruct (IH (k None) (with_headerSent s) m1) as (m' & R2 & Ht' & Hl' & Ho'); try done.
    + split; [exact (eq_trans Ed (proj1 Hup))|exact (eq_trans Ec (proj2 Hup))].
    + unfold lookupStream, m1. cbn. by rewrite Es.
    + unfold m1. cbn. rewrite Eh. cbn. by rewrite lookup_alter, decide_True, Hs.
    + unfold m1. cbn. by rewrite lookup_insert, decide_True.
    + exists m'. split; [by eapply rtc_l|]. split; [done|]. split; [done|].
      rewrite Ho'. unfold m1. cbn. rewrite Eo. cbn. by rewrite <- !app_assoc.
Qed.

(** A handler that receives the request first. *)
Lemma streaming_handler_run l s q m k req reps st :
  up m → lookupStream q m = Some l → m_heap m !! l = Some s → ss_seq s = q →
  m_threads m !! l = Some (Running (RpcServer.Recv k)) → ss_inbound s = [req] →
  st_headerSent s = false → ss_hdr s = ∅ → replies_with (k (inl req)) reps st →
  ∃ m', rtc (hdet l) m m' ∧ m_threads m' !! l = None ∧ m_out m' = m_out m ++ reply_frames q reps st.
Proof.
  intros Hup Hl Hs Hq Ht Hin Hsent Hhdr Hk.
  set (m1 := set_thread l (Running (k (inl req))) (RpcServer.update l (RpcServer.with_inbound []) m)).
  assert (hdet l m m1) as R1.
  { unfold hdet, handler_step. by rewrite Ht, Hs, Hin. }
  destruct (replies_run l q reps st (k (inl req)) (RpcServer.with_inbound [] s) m1)
    as (m' & R2 & Ht' & _ & Ho'); try done.
  { unfold m1. cbn. by rewrite lookup_alter, decide_True, Hs. }
  { unfold m1. cbn. by rewrite lookup_insert, decide_True. }
  exists m'. split; [by eapply rtc_l|]. split; [done|]. rewrite Ho'. unfold begin_frames. cbn.
  by rewrite Hsent, Hhdr.
Qed.

(** ** The response *)

(** The content a response frame carries for its stream's queue. *)
Definition resp_content (f : ResponseFrame) : option Content :=
  match rf_Type f with
  | Some (ResponseFrame_Data d) => GetContent d
  | _ => None
  end.

Lemma data_frames_contents q b : map resp_content (data_frames q b) = data_contents b.
Proof.
  unfold data_frames, data_contents. destruct (_ <=? _); [done|]. by rewrite map_map.
Qed.

Lemma payloads_reply q reps st r :
  int32 q = q → Forall (λ b, len b < two31) reps → r !! q = None →
  payloads q r (map resp_content (reply_frames q reps st)) = Some reps.
Proof.
  intros Hq Hb Hr. unfold reply_frames. cbn [map resp_content mkBegin rf_Type payloads].
  rewrite map_app, concat_map, map_map, (map_ext _ data_contents) by apply data_frames_contents.
  by apply payloads_messages.
Qed.

(** ** [Recv] and [Attach] *)

(** Frames of the stream before its [End], as the server writes them. *)
Definition body_frame (q : Z) (f : ResponseFrame) : Prop :=
  routing_seq (rf_Routing f) = q ∧
  ((∃ h, rf_Type f = Some (ResponseFrame_Begin
            (Some {| begin_Header := Some h; begin_InlineData := None |}))) ∨
   (∃ d, rf_Type f = Some (ResponseFrame_Data d))).

Lemma reply_body q reps :
  int32 q = q → Forall (body_frame q) (mkBegin q (Snapshot ∅) :: concat (map (data_frames q) reps)).
Proof.
  intros Hq. constructor; [split; [done|left; by eexists]|].
  apply Forall_concat, Forall_map, Forall_true. intros b. unfold data_frames.
  assert (∀ c, body_frame q (mkData q c)) by (intros c; split; [done|right; by eexists]).
  destruct (_ <=? _); [by constructor|]. by apply Forall_map, Forall_true.
Qed.

(** The error with which [Recv] reports the end of the stream. *)
Definition ending (st : option Status) : error :=
  if Code (default OK st) =? 0 then EOF else ErrorString (Message (default OK st)).

Section recv.
Context `{!Codec ResponseFrame, !CodecLaws ResponseFrame} (l : nat) (q : Z).

(** The frames still to arrive for the stream, the client, the goroutine in
    [Recv] and the messages it has returned. *)
Definition recv_state : Type := list ResponseFrame * client * rwait * list bytes.

(** One step of [Attach], with a frame of this stream or of another one, or of
    the goroutine that calls [Recv] again and again. *)
Inductive recv_step : recv_state → recv_state → Prop :=
  | step_own f raw fs c c' w got :
      on_wire f = Some raw → (AContinue, c') ∈ attach_iter (Ok raw) c →
      recv_step (f :: fs, c, w, got) (fs, c', w, got)
  | step_other raw f fs c c' w got :
      unmarshal raw = Some f → routing_seq (rf_Routing f) ≠ q →
      int32 (routing_seq (rf_Routing f)) = routing_seq (rf_Routing f) →
      (AContinue, c') ∈ attach_iter (Ok raw) c →
      recv_step (fs, c, w, got) (fs, c', w, got)
  | step_waits fs c c' w w' got :
      (RPending w', c') ∈ Stream_Recv None l w c →
      recv_step (fs, c, w, got) (fs, c', w', got)
  | step_returns b fs c c' w got :
      (RReturn (Some b) None, c') ∈ Stream_Recv None l w c →
      recv_step (fs, c, w, got) (fs, c', RStart, got ++ [b]).

(** The stream is open and its [End] is still to come, or it has ended. *)
Definition phase (st : option Status) (fs : list ResponseFrame) (c : client) (cs : clientStream) : Prop :=
  (cs_end cs = None ∧ cl_streams c !! q = Some l ∧
   ∃ ds, fs = ds ++ [status_frame q st ∅] ∧ Forall (body_frame q) ds) ∨
  (fs = [] ∧
   cs_end cs = Some {| er_status := default OK st; er_err := Status_Err (Some (default OK st)) |}).

(** What has been returned, what is queued and what is still to arrive are
    together what the handler sent. *)
Definition RecvInv (reps : list bytes) (st : option Status) (s : recv_state) : Prop :=
  let '(fs, c, w, got) := s in
  ∃ cs bs ps, cl_heap c !! l = Some cs ∧ cs_inbound cs = received bs ∧
    payloads q (cl_reasm c) (map resp_content fs) = Some ps ∧ got ++ bs ++ ps = reps ∧
    (∀ q', cl_streams c !! q' = Some l → q' = q) ∧
    Forall sendable fs ∧ phase st fs c cs.

Lemma attach_dispatch raw f c c' :
  unmarshal raw = Some f → (AContinue, c') ∈ attach_iter (Ok raw) c → (Ok tt, c') ∈ dispatch f c.
Proof.
  intros Hu. unfold attach_iter. rewrite Hu, list_elem_of_bind.
  intros ([r c1] & Hin & Hd). apply list_elem_of_singleton in Hin.
  destruct r as [[]|e|p]; by simplify_eq.
Qed.

(** *** Frames of other streams *)

(** What the stream relies on is the same in both clients. *)
Definition same_stream (c c' : client) : Prop :=
  cl_heap c' !! l = cl_heap c !! l ∧ cl_reasm c' !! q = cl_reasm c !! q ∧
  cl_streams c' !! q = cl_streams c !! q ∧
  (∀ q', cl_streams c' !! q' = Some l → cl_streams c !! q' = Some l).

Lemma same_refl c : same_stream c c.
Proof. by split_and!. Qed.

#[local] Hint Resolve same_refl : core.

Lemma same_update l' g c : l' ≠ l → same_stream c (RpcClient.update l' g c).
Proof. intros Hne. split; [by cbn; rewrite lookup_alter_ne|done]. Qed.

Lemma same_trans c c1 c2 : same_stream c c1 → same_stream c1 c2 → same_stream c c2.
Proof.
  intros (A1 & B1 & C1 & D1) (A2 & B2 & C2 & D2). split; [congruence|].
  split; [congruence|]. split; [congruence|]. auto.
Qed.

Lemma deliver_other l' b c c' : l' ≠ l → c' ∈ deliver l' b c → same_stream c c'.
Proof.
  intros Hne. unfold deliver. destruct (cl_heap c !! l'); [|by intros ?%elem_of_nil].
  rewrite elem_of_app. intros [H|H].
  - case_decide; [|by apply elem_of_nil in H]. apply list_elem_of_singleton in H as ->.
    by apply same_update.
  - destruct (cs_end _); [|by apply elem_of_nil in H]. by apply list_elem_of_singleton in H as ->.
Qed.

Lemma end_other l' s e c : l' ≠ l → s ≠ q → same_stream c (dispatch_end l' s e c).
Proof.
  intros Hne Hs. unfold dispatch_end.
  match goal with |- same_stream c (RpcClient.set_streams _ (RpcClient.update l' ?g ?x)) =>
    apply (same_trans _ x); [|apply (same_trans _ (RpcClient.update l' g x)); [by apply same_update|]] end.
  - destruct e as [e|]; [destruct (end_Trailer e); [by apply same_update|]|]; apply same_refl.
  - split; [done|]. split; [done|]. split; [by cbn; rewrite lookup_delete_ne|].
    intros q'. cbn. intros [_ H]%lookup_delete_Some. exact H.
Qed.

Lemma begin_other l' b c c' : l' ≠ l → c' ∈ dispatch_begin l' b c → same_stream c c'.
Proof.
  intros Hne. unfold dispatch_begin. destruct b as [b|]; [|by intros ->%list_elem_of_singleton].
  cbv zeta. match goal with |- context [deliver l' _ ?x] => set (c1 := x) end. intros H.
  apply (same_trans _ c1).
  - unfold c1. destruct (begin_Header b); [by apply same_update|done].
  - destruct (begin_InlineData b) as [d|]; [destruct (0 <? len d)|]; [by eapply deliver_other| |];
      by apply list_elem_of_singleton in H as ->.
Qed.

Lemma chunk_other s ch c l' c' :
  l' ≠ l → s ≠ q →
  (Ok tt, c') ∈ (let '(o, r) := Reassembler.Reassemble (cl_reasm c) s (TotalSize ch) (Offset ch) (chunk_Data ch) in
     let c := RpcClient.set_reasm r c in
     match o with
     | Ok (Some full) => pair (Ok tt) <$> deliver l' full c
     | Ok None => [(Ok tt, c)]
     | Fail e => [(Fail e, c)]
     | Panic s => [(Panic s, c)]
     end) → same_stream c c'.
Proof.
  intros Hne Hs.
  pose proof (Reassemble_other (cl_reasm c) q s (TotalSize ch) (Offset ch) (chunk_Data ch) ltac:(done)) as Hr.
  destruct (Reassembler.Reassemble _ _ _ _ _) as [o r]. cbn in Hr.
  assert (same_stream c (RpcClient.set_reasm r c)) as Hsame by by split_and!.
  destruct o as [[b|]|e|p]; intros Hin.
  - apply list_elem_of_fmap in Hin as (c1 & [= ->] & Hin). eapply same_trans; [exact Hsame|].
    by eapply deliver_other.
  - by apply list_elem_of_singleton in Hin as [= ->].
  - by apply list_elem_of_singleton in Hin.
  - by apply list_elem_of_singleton in Hin.
Qed.

Lemma dispatch_other f c c' :
  routing_seq (rf_Routing f) ≠ q → int32 (routing_seq (rf_Routing f)) = routing_seq (rf_Routing f) →
  (∀ q', cl_streams c !! q' = Some l → q' = q) → (Ok tt, c') ∈ dispatch f c → same_stream c c'.
Proof.
  intros Hs Hi Hinj. unfold dispatch.
  destruct (cl_streams c !! _) as [l'|] eqn:Hl; [|by intros [= ->]%list_elem_of_singleton].
  assert (l' ≠ l) as Hne by (intros ->; by apply Hs, Hinj).
  destruct (rf_Type f) as [[b|d|e]|].
  - intros (c1 & [= ->] & Hin)%list_elem_of_fmap. by eapply begin_other.
  - destruct (GetContent d) as [[b|ch]|].
    + intros (c1 & [= ->] & Hin)%list_elem_of_fmap. by eapply deliver_other.
    + rewrite Hi. by apply chunk_other.
    + by intros [= ->]%list_elem_of_singleton.
  - intros [= ->]%list_elem_of_singleton. by apply end_other.
  - by intros [= ->]%list_elem_of_singleton.
Qed.

Lemma RecvInv_same reps st fs c c' w got :
  same_stream c c' → RecvInv reps st (fs, c, w, got) → RecvInv reps st (fs, c', w, got).
Proof.
  intros (Hh & Hr & Hs & Hi) (cs & bs & ps & Hcs & Hin & Hp & Hsum & Hinj & Hw & Hph).
  exists cs, bs, ps. rewrite Hh, (payloads_local q _ _ (cl_reasm c)) by done.
  unfold phase in *. rewrite Hs. split_and!; auto.
Qed.
(** *** Frames of this stream *)

Lemma status_frame_end st t :
  int32 q = q → status_frame q st t = resp_end q (default OK st) (Snapshot t).
Proof.
  intros Hq. unfold status_frame, mkEnd, resp_end, resp_frame. rewrite Hq.
  do 4 f_equal. by destruct st as [[]|].
Qed.

(** After a frame before the [End], the stream is as the payloads say. *)
Lemma RecvInv_body reps st fs ds c c' w got cs' bs' ps' :
  cl_heap c' !! l = Some cs' → cs_inbound cs' = received bs' → cs_end cs' = None →
  cl_streams c' = cl_streams c → cl_streams c !! q = Some l →
  (∀ q', cl_streams c !! q' = Some l → q' = q) →
  payloads q (cl_reasm c') (map resp_content fs) = Some ps' → got ++ bs' ++ ps' = reps →
  Forall sendable fs → fs = ds ++ [status_frame q st ∅] → Forall (body_frame q) ds →
  RecvInv reps st (fs, c', w, got).
Proof.
  intros. exists cs', bs', ps'. split_and!; try done; [by rewrite H2|].
  left. split; [done|]. split; [by rewrite H2|]. by exists ds.
Qed.

Lemma deliver_open b c c' cs :
  cl_heap c !! l = Some cs → cs_end cs = None → c' ∈ deliver l b c →
  c' = RpcClient.update l (RpcClient.with_inbound (cs_inbound cs ++ received [b])) c ∧
  cl_heap c' !! l = Some (RpcClient.with_inbound (cs_inbound cs ++ received [b]) cs).
Proof.
  intros Hcs He. unfold deliver. rewrite Hcs, He, app_nil_r.
  case_decide; [|by intros ?%elem_of_nil]. intros ->%list_elem_of_singleton.
  split; [done|]. cbn. by rewrite lookup_alter, decide_True, Hcs.
Qed.

Lemma RecvInv_data reps st fs ds c c' w got cs bs ps d :
  int32 q = q → cl_heap c !! l = Some cs → cs_inbound cs = received bs → cs_end cs = None →
  cl_streams c !! q = Some l → (∀ q', cl_streams c !! q' = Some l → q' = q) →
  Forall sendable fs → fs = ds ++ [status_frame q st ∅] → Forall (body_frame q) ds →
  payloads q (cl_reasm c) (GetContent d :: map resp_content fs) = Some ps →
  got ++ bs ++ ps = reps →
  (Ok tt, c') ∈ dispatch (resp_frame q (ResponseFrame_Data d)) c → RecvInv reps st (fs, c', w, got).
Proof.
  intros Hq Hcs Hin He Hst Hinj Hsf Hfs Hds. unfold dispatch, resp_frame.
  cbn [rf_Routing rf_Type routing_seq Sequence payloads]. rewrite Hst, Hq.
  assert (∀ b r c1 ps1, payloads q r (map resp_content fs) = Some ps1 → got ++ bs ++ b :: ps1 = reps →
            c1 ∈ deliver l b (RpcClient.set_reasm r c) → RecvInv reps st (fs, c1, w, got)) as Hdel.
  { intros b r c1 ps1 Hp Hsum Hc1. destruct (deliver_open b (RpcClient.set_reasm r c) c1 cs Hcs He Hc1) as [-> Hh].
    eapply (RecvInv_body _ _ _ _ c _ _ _ _ (bs ++ [b]) ps1); try done.
    - cbn. unfold received. by rewrite Hin, map_app.
    - by rewrite <- Hsum, <- app_assoc. }
  destruct (GetContent d) as [[b|ch]|].
  - intros Hp Hsum Hd. apply fmap_Some in Hp as (ps1 & Hp & ->).
    apply list_elem_of_fmap in Hd as (c1 & [= ->] & Hd).
    apply (Hdel b (cl_reasm c) c1 ps1 Hp Hsum). by destruct c.
  - destruct (Reassembler.Reassemble _ _ _ _ _) as [o r]. intros Hp Hsum Hd.
    destruct o as [[b|]|e|s]; [| |done|done].
    + apply fmap_Some in Hp as (ps1 & Hp & ->).
      apply list_elem_of_fmap in Hd as (c1 & [= ->] & Hd). by apply (Hdel b r c1 ps1).
    + apply list_elem_of_singleton in Hd as [= ->]. by eapply (RecvInv_body _ _ _ _ c).
  - intros Hp Hsum Hd. apply list_elem_of_singleton in Hd as [= ->]. by eapply (RecvInv_body _ _ _ _ c).
Qed.

Lemma RecvInv_own reps st f fs c c' w got :
  int32 q = q → RecvInv reps st (f :: fs, c, w, got) → (Ok tt, c') ∈ dispatch f c →
  RecvInv reps st (fs, c', w, got).
Proof.
  intros Hq (cs & bs & ps & Hcs & Hin & Hp & Hsum & Hinj & [Hsf Hsfs]%Forall_cons & Hph) Hd.
  destruct Hph as [(He & Hst & ds & Hfs & Hds)|[? _]]; [|done].
  destruct ds as [|f' ds]; cbn in Hfs; injection Hfs as -> Hfs.
  - subst fs. rewrite status_frame_end in * by done.
    destruct (dispatch_ended q l cs (default OK st) (Snapshot ∅) c Hst Hcs) as (c2 & H2 & Hs2 & Hh2 & _).
    rewrite H2 in Hd. apply list_elem_of_singleton in Hd as [= ->].
    exists (ended (default OK st) (Snapshot ∅) cs), bs, []. cbn in Hp. injection Hp as <-.
    split_and!; try done; [by rewrite Hh2, lookup_insert, decide_True| |].
    + rewrite Hs2. intros q' [_ H]%lookup_delete_Some. by apply Hinj.
    + right. split; [done|]. cbn. by rewrite He.
  - apply Forall_cons in Hds as [[Hrt [[h Hb]|[d Hb]]] Hds].
    + unfold dispatch in Hd. rewrite Hrt, Hst, Hb in Hd. cbn in Hd. cbn [map payloads] in Hp. unfold resp_content at 1 in Hp. rewrite Hb in Hp.
      apply list_elem_of_singleton in Hd as [= ->].
      eapply (RecvInv_body _ _ _ ds c _ _ _ (RpcClient.with_header _ cs) bs ps); try done.
      cbn. by rewrite lookup_alter, decide_True, Hcs.
    + destruct f' as [rt t]; cbn in *. subst t.
      apply (RecvInv_data reps st fs ds c c' w got cs bs ps d); try done.
      unfold dispatch, resp_frame in *. cbn in *. by rewrite Hrt in Hd.
Qed.
(** *** [Recv] *)

Lemma Recv_outcomes reps st fs c w got o c' :
  RecvInv reps st (fs, c, w, got) → (o, c') ∈ Stream_Recv None l w c →
  (o = RPending RSelect ∧ c' = c) ∨
  (∃ b, o = RReturn (Some b) None ∧ RecvInv reps st (fs, c', RStart, got ++ [b])) ∨
  (o = RReturn None (Some (ending st)) ∧ w = RSelect ∧ fs = [] ∧ c' = c).
Proof.
  intros HI. pose proof HI as (cs & bs & ps & Hcs & Hin & Hp & Hsum & Hinj & Hsf & Hph).
  unfold Stream_Recv. rewrite Hcs, Hin, app_nil_r. intros H.
  assert (∀ b bs', bs = b :: bs' →
    RecvInv reps st (fs, RpcClient.update l (RpcClient.with_inbound (received bs')) c, RStart, got ++ [b]))
    as Hget.
  { intros b bs' ->. exists (RpcClient.with_inbound (received bs') cs), bs', ps. split_and!; try done.
    - cbn. by rewrite lookup_alter, decide_True, Hcs.
    - by rewrite <- Hsum, <- app_assoc. }
  destruct w.
  - destruct bs as [|b bs]; apply list_elem_of_singleton in H as [= -> ->]; [by left|].
    right; left. exists b. auto.
  - apply elem_of_app in H as [H|H].
    + destruct bs as [|b bs]; [by apply elem_of_nil in H|].
      apply list_elem_of_singleton in H as [= -> ->]. right; left. exists b. auto.
    + right; right. destruct Hph as [(He & _)|(-> & He)]; rewrite He in H; [by apply elem_of_nil in H|].
      apply list_elem_of_singleton in H as [= -> ->]. split; [|done]. do 2 f_equal.
      unfold ending. cbn. unfold Status_Err. by destruct (Code (default OK st) =? 0).
Qed.

Lemma RecvInv_step reps st s s' : int32 q = q → RecvInv reps st s → recv_step s s' → RecvInv reps st s'.
Proof.
  intros Hq HI Hstep. destruct Hstep as [f raw fs c c' w got Hw Ha|raw f fs c c' w got Hu Hs Hi Ha
    |fs c c' w w' got Hr|b fs c c' w got Hr].
  - pose proof HI as (cs & bs & ps & _ & _ & _ & _ & _ & [Hf _]%Forall_cons & _).
    destruct (on_wire_sendable f Hf) as (raw' & Hw' & Hu).
    rewrite Hw in Hw'. injection Hw' as <-. eapply RecvInv_own; [done|exact HI|].
    by eapply attach_dispatch.
  - eapply RecvInv_same; [|exact HI]. destruct HI as (cs & bs & ps & _ & _ & _ & _ & Hinj & _).
    eapply dispatch_other; [exact Hs|exact Hi|exact Hinj|]. by eapply attach_dispatch.
  - destruct (Recv_outcomes _ _ _ _ _ _ _ _ HI Hr) as [[[= ->] ->]|[(b & ? & _)|(? & _)]]; done.
  - by destruct (Recv_outcomes _ _ _ _ _ _ _ _ HI Hr) as [[? _]|[(b' & [= ->] & ?)|(? & _)]].
Qed.

(** The frame at the head is always dispatched, when there is room. *)
Lemma own_ready reps st f fs c w got cs :
  int32 q = q → RecvInv reps st (f :: fs, c, w, got) → cl_heap c !! l = Some cs → cs_inbound cs = [] →
  ∃ raw c', on_wire f = Some raw ∧ (AContinue, c') ∈ attach_iter (Ok raw) c.
Proof.
  intros Hq (cs' & bs & ps & Hcs & _ & Hp & _ & _ & [Hf _]%Forall_cons & Hph) Hcs' Hin.
  rewrite Hcs' in Hcs. injection Hcs as <-.
  destruct (on_wire_sendable f Hf) as (raw & Hw & Hu).
  assert (∃ c', (Ok tt, c') ∈ dispatch f c) as [c' Hd].
  { destruct Hph as [(He & Hst & ds & Hfs & Hds)|[? _]]; [|done].
    assert (∀ b c0, cl_heap c0 = cl_heap c → ∃ c', (Ok tt, c') ∈ (pair (Ok tt) <$> deliver l b c0)) as Hdel.
    { intros b c0 E. unfold deliver. rewrite E, Hcs', Hin, He, decide_True; [|unfold resp_cap; cbn; lia].
      eexists. apply list_elem_of_here. }
    destruct ds as [|f' ds]; cbn in Hfs; injection Hfs as -> Hfs.
    { unfold dispatch. cbn. rewrite Hq, Hst. eexists. apply list_elem_of_here. }
    apply Forall_cons in Hds as [[Hrt [[h Hb]|[d Hb]]] _]; unfold dispatch; rewrite Hrt, Hst, Hb;
      [eexists; apply list_elem_of_here|]. cbn [map payloads] in Hp. unfold resp_content at 1 in Hp. rewrite Hb in Hp.
    destruct (GetContent d) as [[b|ch]|]; [by apply Hdel| |eexists; apply list_elem_of_here].
    rewrite Hq. destruct (Reassembler.Reassemble _ _ _ _ _) as [o r].
    destruct o as [[b|]|e|s]; [by apply Hdel|eexists; apply list_elem_of_here|done|done]. }
  exists raw, c'. split; [exact Hw|]. unfold attach_iter. rewrite Hu, list_elem_of_bind.
  exists (Ok tt, c'). by split; [apply list_elem_of_here|].
Qed.

(** The queue can always be emptied. *)
Lemma recv_drains reps st fs c w got :
  int32 q = q → RecvInv reps st (fs, c, w, got) →
  ∃ c' w' got' cs, rtc recv_step (fs, c, w, got) (fs, c', w', got') ∧
    RecvInv reps st (fs, c', w', got') ∧ cl_heap c' !! l = Some cs ∧ cs_inbound cs = [].
Proof.
  intros Hq HI. pose proof HI as (cs & bs & ps & Hcs & Hin & _).
  revert c w got cs HI Hcs Hin. induction bs as [|b bs IH]; intros c w got cs HI Hcs Hin.
  - by exists c, w, got, cs.
  - set (c1 := RpcClient.update l (RpcClient.with_inbound (received bs)) c).
    assert (recv_step (fs, c, w, got) (fs, c1, RStart, got ++ [b])) as Hstep.
    { apply step_returns. unfold Stream_Recv. rewrite Hcs, Hin. destruct w; apply list_elem_of_here. }
    destruct (IH c1 RStart (got ++ [b]) (RpcClient.with_inbound (received bs) cs))
      as (c' & w' & got' & cs' & Hr & Hrest).
    + by eapply RecvInv_step.
    + unfold c1. cbn. by rewrite lookup_alter, decide_True, Hcs.
    + done.
    + exists c', w', got', cs'. split; [by eapply rtc_l|done].
Qed.

Lemma recv_completes reps st : int32 q = q → ∀ fs c w got,
  RecvInv reps st (fs, c, w, got) →
  ∃ c', rtc recv_step (fs, c, w, got) ([], c', RSelect, reps) ∧
    Stream_Recv None l RSelect c' = [(RReturn None (Some (ending st)), c')].
Proof.
  intros Hq. induction fs as [|f fs IH]; intros c w got HI;
    destruct (recv_drains _ _ _ _ _ _ Hq HI) as (c1 & w1 & got1 & cs & Hr & HI1 & Hcs & Hin).
  - pose proof HI1 as (cs' & bs & ps & Hcs' & Hin' & Hp & Hsum & _ & _ & Hph).
    rewrite Hcs in Hcs'. injection Hcs' as <-. rewrite Hin in Hin'. cbn in Hp. injection Hp as <-.
    destruct bs; [|done]. rewrite !app_nil_r in Hsum. subst got1.
    assert (Stream_Recv None l RSelect c1 = [(RReturn None (Some (ending st)), c1)]) as Hend.
    { destruct Hph as [(_ & _ & ds & Hds & _)|(_ & He)]; [by destruct ds|].
      unfold Stream_Recv. rewrite Hcs, Hin, He. cbn. unfold ending, Status_Err.
      by destruct (Code (default OK st) =? 0). }
    exists c1. split; [|exact Hend]. destruct w1; [|done]. eapply rtc_r; [exact Hr|].
    apply step_waits. unfold Stream_Recv. rewrite Hcs, Hin. apply list_elem_of_here.
  - destruct (own_ready _ _ _ _ _ _ _ _ Hq HI1 Hcs Hin) as (raw & c2 & Hraw & Ha).
    assert (recv_step (f :: fs, c1, w1, got1) (fs, c2, w1, got1)) as Hstep by by eapply step_own.
    destruct (IH c2 w1 got1 ltac:(by eapply RecvInv_step)) as (c' & Hr' & Hend).
    exists c'. split; [|done]. etrans; [exact Hr|]. by eapply rtc_l.
Qed.

(** From the client [c], with the whole response still to arrive: whatever the
    schedule, [Recv] returns the messages in order, reports an end only when
    every frame has arrived and with the status of the response, and can always
    go on to return all of them and then that end. *)
Definition receives (reps : list bytes) (st : option Status) (c : client) : Prop :=
  ∀ fs c2 w got, rtc recv_step (reply_frames q reps st, c, RStart, []) (fs, c2, w, got) →
    got `prefix_of` reps ∧
    (∀ r err c3, (RReturn r (Some err), c3) ∈ Stream_Recv None l w c2 →
       r = None ∧ err = ending st ∧ fs = []) ∧
    ∃ c3, rtc recv_step (fs, c2, w, got) ([], c3, RSelect, reps) ∧
      Stream_Recv None l RSelect c3 = [(RReturn None (Some (ending st)), c3)].

Lemma RecvInv_receives reps st c :
  int32 q = q → RecvInv reps st (reply_frames q reps st, c, RStart, []) → receives reps st c.
Proof.
  intros Hq H0 fs c2 w got Hr.
  assert (RecvInv reps st (fs, c2, w, got)) as HI.
  { eapply (rtc_ind_r (RecvInv reps st)); [exact H0| |exact Hr]. intros. by eapply RecvInv_step. }
  pose proof HI as (cs & bs & ps & _ & _ & _ & Hsum & _). split_and!.
  - exists (bs ++ ps). by rewrite <- Hsum.
  - intros r err c3 Hin.
    by destruct (Recv_outcomes _ _ _ _ _ _ _ _ HI Hin) as [[? _]|[(b & ? & _)|([= -> ->] & _ & -> & _)]].
  - by apply (recv_completes _ _ Hq fs c2 w got).
Qed.

(** A stream that has just been opened. *)
Lemma opened_RecvInv c method c0 c1 reps st w :
  RpcClient.reachable c → RpcClient.openStream method c = (l, q, c0) →
  cl_heap c1 = cl_heap c0 → cl_streams c1 = cl_streams c0 → cl_reasm c1 = cl_reasm c0 →
  cl_reasm c !! q = None → Forall (λ b, len b < two31) reps → Forall sendable (reply_frames q reps st) →
  int32 q = q ∧ RecvInv reps st (reply_frames q reps st, c1, w, []).
Proof.
  intros Hclient Ho Eh Es Er Hr Hreps Hw. pose proof (reachable_CInv c Hclient) as Hc.
  destruct (openStream_value _ _ _ _ _ Ho Hc) as (_ & Eq & Hc0 & _ & _ & _ & Hre & Hstr & Hheap).
  assert (int32 q = q) as Hq by (rewrite Eq; apply seq_at_int32).
  split; [done|]. eexists _, [], reps. rewrite Eh, Er, Hheap, Hre.
  split_and!; [by rewrite lookup_insert, decide_True|done|by apply payloads_reply|done| |done|].
  - intros q' Hq'. rewrite Es in Hq'. by apply (ci_streams _ Hc0) in Hq' as [_ ->].
  - left. split; [done|]. rewrite Es, Hstr, lookup_insert, decide_True by done.
    split; [done|]. eexists. split; [unfold reply_frames; by rewrite app_comm_cons|].
    by apply reply_body.
Qed.

Lemma opened_receives c method c0 c1 reps st :
  RpcClient.reachable c → RpcClient.openStream method c = (l, q, c0) →
  cl_heap c1 = cl_heap c0 → cl_streams c1 = cl_streams c0 → cl_reasm c1 = cl_reasm c0 →
  cl_reasm c !! q = None → Forall (λ b, len b < two31) reps → Forall sendable (reply_frames q reps st) →
  receives reps st c1.
Proof.
  intros Hc Ho Eh Es Er Hr Hb Hw.
  destruct (opened_RecvInv c method c0 c1 reps st RStart Hc Ho Eh Es Er Hr Hb Hw). by apply RecvInv_receives.
Qed.
End recv.

(** ** The whole call *)

Section e2e.
Context {Vals : Type} (srv : @Server Vals) (vals : Vals).
Context `{!Codec Frame, !CodecLaws Frame} `{!Codec ResponseFrame, !CodecLaws ResponseFrame}.

(** The call of [InvokeServerStreaming]. *)
Definition server_streaming_call (ctx : context) (method : string) (req : bytes) (hdr : Metadata) : Call :=
  streaming_call ctx method (if len req <=? InlineMax then copy_bytes req else None) hdr.

(** [C7] A server-streaming call works end to end, for a request and any
    number of messages of less than 2 GiB each. The frames of
    [InvokeServerStreaming] open the stream and deliver the request and the
    metadata; the handler sends its messages and returns a status. However the
    client's [Attach] goroutine (dispatching these frames and those of other
    streams, and blocking while 16 messages wait) and the goroutine in [Recv]
    interleave, what [Recv] has returned is a prefix of the messages sent, it
    reports an end only when every frame has arrived and with the status the
    handler returned, and from each of these states the two can go on to return
    all the messages and then that end. *)
Theorem server_streaming_end_to_end c ctx method req hdr c1 s q m used md k reps st
    (Hclient : RpcClient.reachable c)
    (Hserver : RpcServer.reachable True srv vals (m, used)) (Hup : up m) (Hfresh : q ∉ used)
    (Hq : q = seq_at (cl_next c))
    (Hreasm1 : m_reasm m !! q = None) (Hreasm2 : cl_reasm c !! q = None)
    (Hreq : len req < two31) (Hreps : Forall (λ b, len b < two31) reps)
    (Hmd : findMethod srv method = Some md)
    (Hhandler : handler_prog srv vals md
       {| v_Method := method; v_Incoming := Some (metadataFromKV hdr) |} = RpcServer.Recv k)
    (Hk : replies_with (k (inl req)) reps st)
    (Hopen : InvokeServerStreaming ctx method req hdr c = (s, OK, c1))
    (Hwire1 : Forall sendable (request_frames q (server_streaming_call ctx method req hdr) req))
    (Hwire2 : Forall sendable (reply_frames q reps st)) :
  ∃ fs m1 m2,
    cl_sent c1 = cl_sent c ++ fs ∧ serves srv vals fs m m1 ∧
    rtc (hdet (m_next m)) m1 m2 ∧ m_threads m2 !! m_next m = None ∧
    m_out m2 = m_out m ++ reply_frames q reps st ∧
    receives (str_cs s) q reps st c1.
Proof using All.
  pose proof (reachable_Inv srv vals (m, used) Hserver Hup) as Hinv; cbn in Hinv.
  pose proof (reachable_CInv c Hclient) as Hc. unfold InvokeServerStreaming in Hopen.
  destruct (RpcClient.openStream method c) as [[l q0] c0] eqn:Ho.
  destruct (openStream_value _ _ _ _ _ Ho Hc) as (-> & Hq0 & _ & _ & _ & Hsent & _).
  rewrite <- Hq in Hq0. subst q0. rewrite send_request_frames, foldl_sendFrame in Hopen.
  injection Hopen as <- <-. assert (int32 q = q) as Hi by (rewrite Hq; apply seq_at_int32).
  assert (m_heap m !! m_next m = None) as Hnew.
  { destruct (m_heap m !! m_next m) as [s0|] eqn:Hs0; [|done].
    apply (inv_heap _ _ Hinv) in Hs0 as [? _]. lia. }
  destruct (handles_request srv vals q (server_streaming_call ctx method req hdr) req m md)
    as (m1 & H1 & Hup1 & Hout1 & Hl1 & Hs1 & Ht1); try done.
  { cbn. destruct (_ <=? _); [|by right]. destruct req; [by right|by left]. }
  { by eapply lookup_unused. }
  cbn [call_Method call_Metadata server_streaming_call streaming_call] in Ht1. rewrite Hhandler in Ht1.
  destruct (streaming_handler_run (m_next m) _ q m1 k req reps st Hup1 Hl1 Hs1 eq_refl Ht1)
    as (m2 & Hrun & Hdone & Hout2); try done.
  eexists _, m1, m2. split; [cbn; by rewrite Hsent|]. split; [by apply handles_serves|].
  split; [exact Hrun|]. split; [exact Hdone|]. split; [by rewrite Hout2, Hout1|].
  by eapply (opened_receives _ _ c _ c0).
Qed.
End e2e.

(** ** An example *)

(** A method that answers with the request twice and the status 9. *)
Definition twice_cont (r : bytes + error) : prog :=
  match r with
  | inl b => RpcServer.Send b (λ _, RpcServer.Send b (λ _, Return (Some (Err 9 (Some (ErrorString "done"))))))
  | inr _ => Return None
  end.

Definition twice_md (name : string) : @MethodDesc unit :=
  {| md_Method := name; md_Kind := MethodKindServerStreaming;
     md_Handler := λ _ _, RpcServer.Recv twice_cont |}.

Definition twice_srv : @Server unit :=
  (RegisterService (NewServer []) {| sd_ServiceName := "demo"; sd_Methods := [twice_md "Twice"] |}).2.

Definition twice_status : option Status := Some (Err 9 (Some (ErrorString "done"))).

Definition ex_stream_requests : list Frame :=
  request_frames 3 (server_streaming_call background "/demo/Twice" (str_bytes "hi") ∅) (str_bytes "hi").

Definition ex_stream_responses : list ResponseFrame :=
  [mkBegin 3 (Snapshot ∅); mkData 3 (Data_Message (str_bytes "hi"));
   mkData 3 (Data_Message (str_bytes "hi")); status_frame 3 twice_status ∅].

Lemma ex_reply : reply_frames 3 [str_bytes "hi"; str_bytes "hi"] twice_status = ex_stream_responses.
Proof. vm_compute. reflexivity. Qed.

#[local] Instance ex_stream_codec1 : Codec Frame := table_codec ex_stream_requests.
#[local] Instance ex_stream_codec2 : Codec ResponseFrame := table_codec ex_stream_responses.
#[local] Instance ex_stream_laws1 : CodecLaws Frame.
Proof. apply table_codec_laws, Nat.leb_le. by vm_compute. Qed.
#[local] Instance ex_stream_laws2 : CodecLaws ResponseFrame.
Proof. apply table_codec_laws, Nat.leb_le. by vm_compute. Qed.

Lemma server_streaming_end_to_end_witness :
  let hi := str_bytes "hi" in
  let '(s, st, c1) := InvokeServerStreaming background "/demo/Twice" hi ∅ NewClient in
  ∃ fs m1 m2,
    cl_sent c1 = [] ++ fs ∧ serves twice_srv tt fs newMultiplexer m1 ∧
    rtc (hdet 0) m1 m2 ∧ m_threads m2 !! 0%nat = None ∧
    m_out m2 = [] ++ reply_frames 3 [hi; hi] twice_status ∧
    receives (str_cs s) 3 [hi; hi] twice_status c1.
Proof.
  cbv zeta. destruct (InvokeServerStreaming background "/demo/Twice" (str_bytes "hi") ∅ NewClient)
    as [[s st] c1] eqn:Hopen.
  apply (server_streaming_end_to_end twice_srv tt NewClient background "/demo/Twice" (str_bytes "hi") ∅ c1 s 3
           newMultiplexer ∅ (twice_md "/demo/Twice") twice_cont
           [str_bytes "hi"; str_bytes "hi"] twice_status).
  - apply rtc_refl.
  - apply rtc_refl.
  - done.
  - set_solver.
  - done.
  - done.
  - done.
  - by vm_compute.
  - by repeat constructor.
  - by vm_compute.
  - by vm_compute.
  - do 2 (eexists; split; [reflexivity|]). reflexivity.
  - rewrite Hopen. vm_compute in Hopen. by injection Hopen as _ <- _.
  - repeat (apply Forall_cons; split; [|]); [..|apply Forall_nil_2; exact I];
      (eexists; split; [vm_compute; reflexivity|by vm_compute]).
  - rewrite ex_reply. unfold ex_stream_responses. rewrite !Forall_cons. split_and!; [..|by apply Forall_nil_2];
      (eexists; split; [vm_compute; reflexivity|by vm_compute]).
Defined.
