(* ===== verification/UnaryEnd.v ===== *)
(** * A unary call from end to end

    The request reaches the handler and the answer comes back as in [EndToEnd]
    and [StreamEnd]; here the goroutine in [invokeUnary] waits for it while the
    [Attach] goroutine dispatches the frames of the answer and those of other
    streams.  Every interleaving of the two is considered, the one in which the
    end of the stream overtakes the reply included. *)

From Stdlib Require Import Strings.Byte ZArith Lia.
From stdpp Require Import numbers strings gmap fin_maps relations list.
From S2P Require Import Prelude Status Messages Transport Chunks Channel RpcServer RpcServerRun RpcServerSafety RpcServerProps RpcClient RpcClientProps EndToEnd Payloads StreamEnd.
Open Scope Z_scope.

(** ** [invokeUnary] and [Attach] *)

Section wait.
Context `{!Codec ResponseFrame, !CodecLaws ResponseFrame} (l : nat) (q : Z).

(** The frames still to arrive for the call, the client, and the goroutine in
    [invokeUnary]: in one of its two [select]s, or returned. *)
Definition unary_state : Type := list ResponseFrame * client * uout.

(** One step of [Attach], with a frame of this call or of another stream, or of
    the goroutine in [invokeUnary], whose context does not end. *)
Inductive unary_step : unary_state → unary_state → Prop :=
  | unary_own f raw fs c c' o :
      on_wire f = Some raw → (AContinue, c') ∈ attach_iter (Ok raw) c →
      unary_step (f :: fs, c, o) (fs, c', o)
  | unary_other raw f fs c c' o :
      unmarshal raw = Some f → routing_seq (rf_Routing f) ≠ q →
      int32 (routing_seq (rf_Routing f)) = routing_seq (rf_Routing f) →
      (AContinue, c') ∈ attach_iter (Ok raw) c →
      unary_step (fs, c, o) (fs, c', o)
  | unary_selects w fs c c' o :
      (o, c') ∈ unary_select None l w c → unary_step (fs, c, UPending w) (fs, c', o).

Definition UnaryInv (rep : bytes) (st : option Status) (s : unary_state) : Prop :=
  let '(fs, c, o) := s in
  match o with
  | UPending UWait => RecvInv l q [rep] st (fs, c, RStart, [])
  | UPending (UGot d) => d = rep ∧ RecvInv l q [rep] st (fs, c, RStart, [rep])
  | UReturn d s => fs = [] ∧ s = default OK st ∧ (d = Some rep ∨ d = None)
  end.

Lemma RecvInv_attach reps st f raw fs c c' got :
  int32 q = q → RecvInv l q reps st (f :: fs, c, RStart, got) → on_wire f = Some raw →
  (AContinue, c') ∈ attach_iter (Ok raw) c → RecvInv l q reps st (fs, c', RStart, got).
Proof. intros Hq HI Hw Ha. eapply RecvInv_step; [exact Hq|exact HI|]. by eapply step_own. Qed.

Lemma RecvInv_attach_other reps st f raw fs c c' got :
  int32 q = q → RecvInv l q reps st (fs, c, RStart, got) → unmarshal raw = Some f →
  routing_seq (rf_Routing f) ≠ q → int32 (routing_seq (rf_Routing f)) = routing_seq (rf_Routing f) →
  (AContinue, c') ∈ attach_iter (Ok raw) c → RecvInv l q reps st (fs, c', RStart, got).
Proof. intros Hq HI Hu Hs Hi Ha. eapply RecvInv_step; [exact Hq|exact HI|]. by eapply step_other. Qed.

(** What the stream of a call holds: the reply is to come, queued or taken. *)
Lemma RecvInv_reply rep st fs c got :
  RecvInv l q [rep] st (fs, c, RStart, got) →
  ∃ cs, cl_heap c !! l = Some cs ∧
    (cs_inbound cs = [] ∧ (got = [] → fs ≠ []) ∨ cs_inbound cs = received [rep] ∧ got = []) ∧
    (cs_end cs = None ∧ fs ≠ [] ∨ fs = [] ∧ ∃ e, cs_end cs = Some e ∧ er_status e = default OK st).
Proof.
  intros (cs & bs & ps & Hcs & Hin & Hp & Hsum & _ & _ & Hph). exists cs. split; [done|]. split.
  - destruct bs as [|b bs].
    + left. split; [done|]. intros -> ->. cbn in Hp. by injection Hp as <-.
    + right. destruct got as [|? got].
      * cbn in Hsum. injection Hsum as -> Hnil. apply app_eq_nil in Hnil as [-> _]. done.
      * cbn in Hsum. injection Hsum as _ Hnil. by apply app_eq_nil in Hnil as [_ ?].
  - destruct Hph as [(He & _ & ds & -> & _)|(-> & He)]; [left|right].
    + split; [done|]. by destruct ds.
    + split; [done|]. by eexists.
Qed.

(** The reply is taken from the queue. *)
Lemma RecvInv_taken rep st fs c cs :
  int32 q = q → RecvInv l q [rep] st (fs, c, RStart, []) → cl_heap c !! l = Some cs →
  cs_inbound cs = received [rep] →
  RecvInv l q [rep] st (fs, RpcClient.update l (RpcClient.with_inbound []) c, RStart, [rep]).
Proof.
  intros Hq HI Hcs Hin. eapply RecvInv_step; [exact Hq|exact HI|].
  apply (step_returns l q rep fs c _ RStart []). unfold Stream_Recv. rewrite Hcs, Hin. apply list_elem_of_here.
Qed.

(** The outcomes of the two [select]s. *)
Lemma unary_outcomes rep st fs c w o c' :
  int32 q = q → UnaryInv rep st (fs, c, UPending w) → (o, c') ∈ unary_select None l w c →
  UnaryInv rep st (fs, c', o) ∧
  match w with UGot _ => ∃ s, o = UReturn (Some rep) s | UWait => True end.
Proof.
  intros Hq HI. unfold unary_select. destruct w as [|d].
  - destruct (RecvInv_reply _ _ _ _ _ HI) as (cs & Hcs & Hin & Hend). rewrite Hcs, app_nil_r.
    intros [H|H]%elem_of_app; (split; [|done]).
    + destruct Hin as [[Hin _]|[Hin _]]; rewrite Hin in H; [by apply elem_of_nil in H|].
      cbn in H. apply list_elem_of_singleton in H as [= -> ->]. split; [done|]. by eapply RecvInv_taken.
    + destruct Hend as [[He _]|(-> & e & He & Hst)]; rewrite He in H; [by apply elem_of_nil in H|].
      apply list_elem_of_singleton in H as [= -> ->]. cbn. auto.
  - destruct HI as [-> HI]. destruct (RecvInv_reply _ _ _ _ _ HI) as (cs & Hcs & _ & Hend).
    rewrite Hcs, app_nil_r, app_nil_l. intros H.
    destruct Hend as [[He _]|(-> & e & He & Hst)]; rewrite He in H; [by apply elem_of_nil in H|].
    apply list_elem_of_singleton in H as [= -> ->]. split; [cbn; auto|by eexists].
Qed.

Lemma UnaryInv_step rep st s s' : int32 q = q → UnaryInv rep st s → unary_step s s' → UnaryInv rep st s'.
Proof.
  intros Hq HI Hs. destruct Hs as [f raw fs c c' o Hw Ha|raw f fs c c' o Hu Hr Hi Ha|w fs c c' o Ho].
  - destruct o as [[|d]|d s]; cbn [UnaryInv] in *; [by eapply RecvInv_attach| |by destruct HI].
    destruct HI as [-> HI]. split; [done|by eapply RecvInv_attach].
  - destruct o as [[|d]|d s]; cbn [UnaryInv] in *; [by eapply RecvInv_attach_other| |done].
    destruct HI as [-> HI]. split; [done|by eapply RecvInv_attach_other].
  - by eapply unary_outcomes.
Qed.

Lemma UnaryInv_steps rep st s s' : int32 q = q → rtc unary_step s s' → UnaryInv rep st s → UnaryInv rep st s'.
Proof. intros Hq. induction 1 as [|s s1 s' H1 _ IH]; [done|]. intros HI. by eapply IH, UnaryInv_step. Qed.

(** Once the reply is taken, it is what the call returns. *)
Lemma taken_returns rep st s s' :
  int32 q = q → rtc unary_step s s' → UnaryInv rep st s →
  (∃ d, s.2 = UPending (UGot d)) ∨ (∃ t, s.2 = UReturn (Some rep) t) →
  (∃ d, s'.2 = UPending (UGot d)) ∨ (∃ t, s'.2 = UReturn (Some rep) t).
Proof.
  intros Hq. induction 1 as [|s s1 s' H1 _ IH]; [done|]. intros HI Hs.
  apply IH; [by eapply UnaryInv_step|]. destruct H1 as [| |w fs c c' o Ho]; [done..|].
  destruct Hs as [[d [= ->]]|[t [=]]]. destruct (unary_outcomes _ _ _ _ _ _ _ Hq HI Ho) as [_ [t ->]].
  right. by exists t.
Qed.

(** With the reply taken, the rest of the frames and the end. *)
Lemma unary_finishes rep st : int32 q = q → ∀ fs c,
  RecvInv l q [rep] st (fs, c, RStart, [rep]) →
  ∃ c', rtc unary_step (fs, c, UPending (UGot rep)) ([], c', UReturn (Some rep) (default OK st)).
Proof.
  intros Hq. induction fs as [|f fs IH]; intros c HI;
    destruct (RecvInv_reply _ _ _ _ _ HI) as (cs & Hcs & Hin & Hend).
  - destruct Hend as [[_ ?]|(_ & e & He & <-)]; [done|]. exists c. apply rtc_once, unary_selects.
    unfold unary_select. rewrite Hcs, He. apply list_elem_of_here.
  - destruct Hin as [[Hin _]|[_ ?]]; [|done].
    destruct (own_ready l q _ _ _ _ _ _ _ _ Hq HI Hcs Hin) as (raw & c1 & Hraw & Ha).
    destruct (IH c1) as [c' Hr]; [by eapply RecvInv_attach|].
    exists c'. eapply rtc_l; [by apply (unary_own f raw)|exact Hr].
Qed.

Lemma unary_completes rep st : int32 q = q → ∀ fs c w,
  UnaryInv rep st (fs, c, UPending w) →
  ∃ c', rtc unary_step (fs, c, UPending w) ([], c', UReturn (Some rep) (default OK st)).
Proof.
  intros Hq. induction fs as [|f fs IH]; intros c [|d] HI; try (destruct HI as [-> HI]; by apply unary_finishes);
    destruct (RecvInv_reply _ _ _ _ _ HI) as (cs & Hcs & Hin & Hend); cbn [UnaryInv] in HI;
    (destruct Hin as [[Hin Hne]|[Hin _]];
     [|destruct (unary_finishes rep st Hq _ _ (RecvInv_taken _ _ _ _ _ Hq HI Hcs Hin)) as [c' Hr];
       exists c'; eapply rtc_l; [apply unary_selects|exact Hr];
       unfold unary_select; rewrite Hcs, Hin; cbn; apply list_elem_of_here]).
  - by destruct Hne.
  - destruct (own_ready l q _ _ _ _ _ _ _ _ Hq HI Hcs Hin) as (raw & c1 & Hraw & Ha).
    destruct (IH c1 UWait) as [c' Hr]; [by eapply RecvInv_attach|].
    exists c'. eapply rtc_l; [by apply (unary_own f raw)|exact Hr].
Qed.

(** The call, with its whole answer still to arrive: whatever the schedule, it
    returns only when every frame has arrived, with the status of the answer and
    either the reply or, if it has not taken the reply by then, no data; a call
    that has taken the reply returns it; and until it has returned it can always
    go on to return the reply with the status. *)
Definition answers (rep : bytes) (st : option Status) (c : client) : Prop :=
  ∀ fs c2 o, rtc unary_step (reply_frames q [rep] st, c, UPending UWait) (fs, c2, o) →
    (∀ d s, o = UReturn d s → fs = [] ∧ s = default OK st ∧ (d = Some rep ∨ d = None)) ∧
    (∀ d, o = UPending (UGot d) → d = rep ∧
       ∀ fs' c3 d' s', rtc unary_step (fs, c2, o) (fs', c3, UReturn d' s') → d' = Some rep) ∧
    (∀ w, o = UPending w →
       ∃ c3, rtc unary_step (fs, c2, o) ([], c3, UReturn (Some rep) (default OK st))).

Lemma UnaryInv_answers rep st c :
  int32 q = q → RecvInv l q [rep] st (reply_frames q [rep] st, c, RStart, []) → answers rep st c.
Proof.
  intros Hq H0 fs c2 o Hr.
  assert (UnaryInv rep st (fs, c2, o)) as HI by by eapply UnaryInv_steps.
  split_and!.
  - by intros d s ->.
  - intros d ->. split; [by destruct HI|]. intros fs' c3 d' s' Hr'.
    destruct (taken_returns _ _ _ _ Hq Hr' HI) as [[? [=]]|[? [= ->]]]; [left; by eexists|done].
  - intros w ->. by apply unary_completes.
Qed.
End wait.

(** ** The whole call *)

Section e2e.
Context {Vals : Type} (srv : @Server Vals) (vals : Vals).
Context `{!Codec Frame, !CodecLaws Frame} `{!Codec ResponseFrame, !CodecLaws ResponseFrame}.

(** [C6] A unary call works end to end, for any payload sizes below 2 GiB (inline,
    single message or chunked in either direction).  The frames that
    [invokeUnary] sends, each marshaled, length-prefixed, stripped and
    unmarshaled, open the stream at a server that has not seen its sequence; the
    handler receives exactly the request and its metadata, and its one run
    writes exactly the frames of its reply and status.  However the goroutine in
    [invokeUnary] and the [Attach] goroutine (with these frames and those of
    other streams) interleave, the call returns only after the last of the
    frames has arrived, always with the handler's status; with the handler's
    reply if it has taken it from its queue before it sees the end, and
    otherwise, when the end has overtaken the reply, with no data; and at every
    moment before it returns it can go on to return the reply and the status.
    The caller's context does not end. *)
Theorem unary_call_end_to_end c ctx method req c1 l q m used md k rep k2 st
    (Hclient : RpcClient.reachable c)
    (Hserver : RpcServer.reachable True srv vals (m, used)) (Hup : up m) (Hfresh : q ∉ used)
    (Hreasm1 : m_reasm m !! q = None) (Hreasm2 : cl_reasm c !! q = None)
    (Hreq : len req < two31) (Hrep : len rep < two31)
    (Hmd : findMethod srv method = Some md)
    (Hhandler : handler_prog srv vals md
       {| v_Method := method; v_Incoming := metadataFromKV <$> ctx_hdr ctx |} = RpcServer.Recv k)
    (Hk : k (inl req) = RpcServer.Send rep k2) (Hk2 : k2 None = Return st)
    (Hopen : invokeUnary_open ctx method req c = (l, q, c1))
    (Hwire1 : Forall sendable (request_frames q (unary_call ctx method req) req))
    (Hwire2 : Forall sendable (reply_frames q [rep] st)) :
  ∃ fs m1 m2,
    cl_sent c1 = cl_sent c ++ fs ∧ serves srv vals fs m m1 ∧
    rtc (hdet (m_next m)) m1 m2 ∧ m_threads m2 !! m_next m = None ∧
    m_out m2 = m_out m ++ reply_frames q [rep] st ∧
    answers l q rep st c1.
Proof using All.
  pose proof (reachable_CInv c Hclient) as Hc.
  pose proof (reachable_Inv srv vals (m, used) Hserver Hup) as Hinv; cbn in Hinv.
  unfold invokeUnary_open in Hopen.
  destruct (RpcClient.openStream method c) as [[l0 q0] c0] eqn:Ho.
  destruct (openStream_value _ _ _ _ _ Ho Hc) as (El & Eq & _ & _ & _ & Hsent & _).
  rewrite send_request_frames, foldl_sendFrame in Hopen. injection Hopen as -> -> <-.
  assert (int32 q = q) as Hq by (rewrite Eq; apply seq_at_int32).
  assert (m_heap m !! m_next m = None) as Hnew.
  { destruct (m_heap m !! m_next m) as [s|] eqn:Hs; [|done].
    apply (inv_heap _ _ Hinv) in Hs as [? _]. lia. }
  destruct (handles_request srv vals q (unary_call ctx method req) req m md)
    as (m1 & H1 & Hup1 & Hout1 & Hl1 & Hs1 & Ht1); try done.
  { unfold unary_call; cbn. destruct (_ <=? _); [|by right]. destruct req; [by right|by left]. }
  { by eapply lookup_unused. }
  cbn [call_Method call_Metadata unary_call] in Ht1. unfold OutgoingHeaderFromCtx in Ht1.
  rewrite Hhandler in Ht1.
  destruct (streaming_handler_run (m_next m) _ q m1 k req [rep] st Hup1 Hl1 Hs1 eq_refl Ht1)
    as (m2 & Hrun & Hdone & Hout2); try done.
  { by exists k2. }
  eexists _, m1, m2. split; [cbn; by rewrite Hsent|]. split; [by apply handles_serves|].
  split; [exact Hrun|]. split; [exact Hdone|]. split; [by rewrite Hout2, Hout1|].
  match goal with |- answers _ _ _ _ ?x =>
    destruct (opened_RecvInv l q c method c0 x [rep] st RStart Hclient Ho eq_refl eq_refl eq_refl) as [_ HI] end;
    [done|by constructor|done|]. by apply UnaryInv_answers.
Qed.
End e2e.

(** ** An example *)

Definition ex_requests : list Frame :=
  request_frames 3 (unary_call background "/demo/Rev" (str_bytes "hi")) (str_bytes "hi").

Definition ex_responses : list ResponseFrame :=
  [mkBegin 3 (Snapshot ∅); mkData 3 (Data_Message (str_bytes "ih")); status_frame 3 (Some OK) ∅].

Lemma ex_unary_reply : reply_frames 3 [str_bytes "ih"] (Some OK) = ex_responses.
Proof. vm_compute. reflexivity. Qed.

#[local] Instance ex_codec1 : Codec Frame := table_codec ex_requests.
#[local] Instance ex_codec2 : Codec ResponseFrame := table_codec ex_responses.
#[local] Instance ex_laws1 : CodecLaws Frame.
Proof. apply table_codec_laws, Nat.leb_le. by vm_compute. Qed.
#[local] Instance ex_laws2 : CodecLaws ResponseFrame.
Proof. apply table_codec_laws, Nat.leb_le. by vm_compute. Qed.

Lemma unary_call_end_to_end_witness :
  let c1 := (invokeUnary_open background "/demo/Rev" (str_bytes "hi") NewClient).2 in
  ∃ fs m1 m2,
    cl_sent c1 = cl_sent NewClient ++ fs ∧ serves rev_srv tt fs newMultiplexer m1 ∧
    rtc (hdet 0) m1 m2 ∧ m_threads m2 !! 0%nat = None ∧
    m_out m2 = [] ++ reply_frames 3 [str_bytes "ih"] (Some OK) ∧
    answers 0 3 (str_bytes "ih") (Some OK) c1.
Proof.
  intros c1.
  apply (unary_call_end_to_end rev_srv tt NewClient background "/demo/Rev" (str_bytes "hi") c1 0 3
           newMultiplexer ∅ rev_md rev_cont (str_bytes "ih") (λ _, Return (Some OK)) (Some OK)).
  - apply rtc_refl.
  - apply rtc_refl.
  - done.
  - set_solver.
  - done.
  - done.
  - by vm_compute.
  - by vm_compute.
  - by vm_compute.
  - by vm_compute.
  - by vm_compute.
  - done.
  - by vm_compute.
  - apply Forall_cons; split; [|apply Forall_cons; split; [|apply Forall_nil_2; exact I]];
      (eexists; split; [vm_compute; reflexivity|by vm_compute]).
  - rewrite ex_unary_reply. unfold ex_responses. rewrite !Forall_cons. split; [|split; [|split; [|by apply Forall_nil_2]]];
      (eexists; split; [vm_compute; reflexivity|by vm_compute]).
Defined.
