(* ===== verification/UploadEnd.v ===== *)
(** * A client-streaming call from end to end

    [InvokeClientStreaming], any number of [Send]s and [CloseSend]; at the
    server the serve loop puts the messages into the stream's inbound channel,
    which holds 16 and blocks it when full, while the handler receives until
    [io.EOF] and answers.  The serve loop (with the frames of other streams
    too), this handler and the handlers of other streams interleave freely. *)

From Stdlib Require Import Strings.Byte ZArith Lia.
From stdpp Require Import numbers strings gmap fin_maps relations list.
From S2P Require Import Prelude Status Messages Transport Chunks Channel RpcServer RpcServerRun RpcServerSafety RpcServerProps RpcClient RpcClientProps EndToEnd Payloads StreamEnd.
Open Scope Z_scope.

(** ** What other streams leave alone *)

Section other.
Context {Vals : Type} (srv : @Server Vals) (vals : Vals) (l : nat) (q : Z).

(** The stream at [l] is the only one with the sequence [q], on a connection
    that is up. *)
Record owns (m : mux) : Prop := {
  o_up : up m;
  o_next : (l < m_next m)%nat;
  o_inj q' : m_streams m !! q' = Some l → q' = q;
  o_seq l' s : m_heap m !! l' = Some s → ss_seq s = q → l' = l }.

(** A step after which the stream, its goroutine, its partial message and its
    registration are as before. *)
Definition undisturbed (m m' : mux) : Prop :=
  owns m → owns m' ∧ m_heap m' !! l = m_heap m !! l ∧ m_threads m' !! l = m_threads m !! l ∧
    m_reasm m' !! q = m_reasm m !! q ∧ m_streams m' !! q = m_streams m !! q.

Lemma und_refl m : undisturbed m m.
Proof. by split. Qed.

Lemma und_trans m1 m2 m3 : undisturbed m1 m2 → undisturbed m2 m3 → undisturbed m1 m3.
Proof.
  intros H1 H2 Ho. destruct (H1 Ho) as (Ho2 & A1 & B1 & C1 & D1).
  destruct (H2 Ho2) as (Ho3 & A2 & B2 & C2 & D2). split_and!; [done|congruence..].
Qed.

#[local] Hint Resolve und_refl : peerrpc.

Lemma und_update l' g m :
  l' ≠ l → (∀ s, m_heap m !! l' = Some s → ss_seq (g s) = ss_seq s) → undisturbed m (RpcServer.update l' g m).
Proof.
  intros Hne Hg [Hup Hn Hi Hs]. split; [|by split; [cbn; rewrite lookup_alter_ne|]]. split; try done.
  cbn. intros l1 s. destruct (decide (l' = l1)) as [->|]; [|rewrite lookup_alter_ne by done; apply Hs].
  rewrite lookup_alter, decide_True by done. intros (s1 & Hs1 & ->)%fmap_Some.
  rewrite (Hg _ Hs1). by apply (Hs l1 s1).
Qed.

Lemma und_writes fs m : undisturbed m (write_outs fs m).
Proof. rewrite write_outs_spec. by intros [Hup Hn Hi Hs]. Qed.

Lemma und_delete q' m : q' ≠ q → undisturbed m (RpcServer.set_streams (delete q' (m_streams m)) m).
Proof.
  intros Hne [Hup Hn Hi Hs]. split; [|by split_and!; cbn; rewrite ?lookup_delete_ne].
  split; try done. cbn. intros q1 [_ H]%lookup_delete_Some. by apply Hi.
Qed.

Lemma und_thread l' t m : l' ≠ l → undisturbed m (set_thread l' t m).
Proof. intros Hne [Hup Hn Hi Hs]. by split_and!; cbn; rewrite ?lookup_insert_ne. Qed.

Lemma und_exit l' m : l' ≠ l → undisturbed m (set_threads (delete l' (m_threads m)) m).
Proof. intros Hne [Hup Hn Hi Hs]. by split_and!; cbn; rewrite ?lookup_delete_ne. Qed.

Lemma und_add s q' m : q' ≠ q → ss_seq s = q' → undisturbed m (add_stream q' s m).
Proof.
  intros Hne Hs' [Hup Hn Hi Hs]. split_and!; cbn; rewrite ?lookup_insert_ne by (done || lia); try done.
  split; cbn; [done|lia| |].
  - intros q1 [(<- & E)|(_ & ?)]%lookup_insert_Some; [lia|by apply Hi].
  - intros l1 s1 [(<- & <-)|(_ & ?)]%lookup_insert_Some; [congruence|by apply Hs].
Qed.

(** Streams found under other sequences. *)
Lemma lookup_elsewhere q' l' m : owns m → lookupStream q' m = Some l' → q' ≠ q → l' ≠ l.
Proof. intros Ho Hl Hne ->. by apply Hne, (o_inj _ Ho). Qed.

(** Operations all of whose outcomes leave the stream alone. *)
Definition calm {A} (m : mux) (xs : list (A * mux)) : Prop :=
  owns m → ∀ r m', (r, m') ∈ xs → undisturbed m m'.

Lemma calm_one {A} m (r : A) m' : undisturbed m m' → calm m [(r, m')].
Proof. by intros H _ r1 m1 [= -> ->]%list_elem_of_singleton. Qed.

Lemma calm_owned {A} m (xs : list (A * mux)) : (owns m → calm m xs) → calm m xs.
Proof. intros H Ho. by apply (H Ho Ho). Qed.

Lemma und_owned m m' : (owns m → undisturbed m m') → undisturbed m m'.
Proof. intros H Ho. by apply (H Ho Ho). Qed.

Lemma calm_same {A} m (r : A) : calm m [(r, m)].
Proof. apply calm_one, und_refl. Qed.

Lemma calm_nil {A} m : calm m ([] : list (A * mux)).
Proof. by intros _ ?? ?%elem_of_nil. Qed.

Lemma calm_bind {A B} m (xs : list (A * mux)) (f : A * mux → list (B * mux)) :
  calm m xs → (∀ r m1, calm m1 (f (r, m1))) → calm m (xs ≫= f).
Proof.
  intros H1 H2 Ho r m' ([r1 m1] & Hf & Hx)%list_elem_of_bind.
  pose proof (H1 Ho _ _ Hx) as H. eapply und_trans; [exact H|].
  apply (H2 r1 m1 (proj1 (H Ho)) r m' Hf).
Qed.

Lemma calm_from {A} m m1 (xs : list (A * mux)) : undisturbed m m1 → calm m1 xs → calm m xs.
Proof.
  intros H1 H2 Ho r m' Hx. eapply und_trans; [exact H1|]. by apply (H2 (proj1 (H1 Ho)) r).
Qed.

Lemma calm_app {A} m (xs ys : list (A * mux)) : calm m xs → calm m ys → calm m (xs ++ ys).
Proof. intros H1 H2 Ho r m' [H|H]%elem_of_app; [by apply (H1 Ho r)|by apply (H2 Ho r)]. Qed.

Lemma calm_fmap {A} m (r : A) (ms : list mux) :
  (owns m → Forall (undisturbed m) ms) → calm m (pair r <$> ms).
Proof.
  intros H Ho r1 m1 (m2 & [= -> ->] & Hin)%list_elem_of_fmap. by eapply Forall_forall in H.
Qed.

Lemma calm_queue f m : calm m (queue f m).
Proof.
  intros Ho r m' H. rewrite queue_up in H by apply Ho. apply list_elem_of_singleton in H as [= -> ->].
  apply (und_writes [f]).
Qed.

Lemma calm_chunks s total cs m : calm m (send_chunks s total cs m).
Proof.
  revert m. induction cs as [|c cs IH]; intros m; cbn [send_chunks]; [apply calm_same|].
  apply calm_bind; [apply calm_queue|]. intros [] m1; [apply IH|apply calm_same..].
Qed.

Lemma calm_end q' e m : q' ≠ q → calm m (endStream q' e m).
Proof.
  intros Hne. unfold endStream. apply calm_bind.
  - apply calm_owned. intros Ho. destruct (lookupStream q' m) as [l'|] eqn:Hl; [|apply calm_same].
    pose proof (lookup_elsewhere _ _ _ Ho Hl Hne) as Hl'.
    destruct (m_heap m !! l') as [s|]; [|apply calm_same].
    apply (calm_from m (RpcServer.update l' with_headerSent m)); [by apply und_update|].
    destruct (st_headerSent s); [apply calm_same|apply calm_queue].
  - intros [] m1.
    all: try apply calm_same.
    all: eapply calm_from; [by apply (und_delete q')|]; apply calm_bind; [apply calm_queue|];
      intros [] m2; apply calm_same.
Qed.

Lemma calm_open q' call m : q' ≠ q → calm m (RpcServer.openStream srv vals q' call m).
Proof.
  intros Hne. unfold RpcServer.openStream. destruct call as [call|]; [|by apply calm_end].
  destruct (findMethod srv _) as [md|]; [|by apply calm_end].
  destruct (lookupStream q' m); [by apply calm_end|].
  apply calm_owned. intros Ho. assert (m_next m ≠ l) as Hl by (pose proof (o_next _ Ho); lia).
  cbv zeta. set (s := newServerStream _ _ _ _ _).
  match goal with |- calm m (?xs ≫= _) => set (ms := xs) end.
  intros _ r m' (m1 & Hf & Hx)%list_elem_of_bind.
  apply list_elem_of_singleton in Hf as [= -> ->].
  eapply und_trans; [|by apply und_thread].
  apply (und_trans _ (add_stream q' s m)).
  - by apply und_add.
  - unfold ms in Hx. destruct (call_InlineData call) as [d|].
    + apply elem_of_cons in Hx as [->|Hx]; [by apply und_update|].
      destruct (ss_ctx _); [|by apply elem_of_nil in Hx]. by apply list_elem_of_singleton in Hx as ->.
    + by apply list_elem_of_singleton in Hx as ->.
Qed.

Lemma und_deliver q' p m : q' ≠ q → owns m → Forall (undisturbed m) (deliverPayload q' p m).
Proof.
  intros Hne Ho. unfold deliverPayload. destruct (lookupStream q' m) as [l'|] eqn:Hl.
  - pose proof (lookup_elsewhere _ _ _ Ho Hl Hne). destruct (m_heap m !! l'); [|by constructor].
    apply Forall_app; split.
    + case_decide; [|by constructor]. constructor; [by apply und_update|by constructor].
    + destruct (ss_ctx _); [|by constructor]. constructor; [apply und_refl|by constructor].
  - constructor; [apply und_refl|by constructor].
Qed.

Lemma calm_data q' d m : q' ≠ q → int32 q' = q' → calm m (deliverData q' d m).
Proof.
  intros Hne Hi. unfold deliverData. destruct d as [d|]; [|apply calm_same].
  destruct (data_Content d) as [[b|ch]|]; [apply calm_fmap, und_deliver, Hne| |apply calm_same].
  rewrite Hi.
  pose proof (Reassemble_other (m_reasm m) q q' (TotalSize ch) (Offset ch) (chunk_Data ch) ltac:(done)) as Hr.
  destruct (Reassembler.Reassemble _ _ _ _ _) as [o r]. cbn in Hr.
  apply (calm_from m (RpcServer.set_reasm r m)).
  - intros [Hup Hn Hj Hs]. by split_and!.
  - destruct o as [[b|]|e|s]; [apply calm_fmap, und_deliver, Hne|apply calm_same..].
Qed.

Lemma und_handleEnd q' e m : q' ≠ q → undisturbed m (handleEnd q' e m).
Proof.
  intros Hne. apply und_owned. intros Ho. unfold handleEnd. destruct e as [e|]; [|apply und_refl].
  destruct (lookupStream q' m) as [l'|] eqn:Hl; [|apply und_refl].
  pose proof (lookup_elsewhere _ _ _ Ho Hl Hne).
  destruct (end_CloseSend e); [by apply und_update|].
  eapply (und_trans _ (RpcServer.update l' (cancel_ctx Canceled) m)); [by apply und_update|].
  by apply (und_delete q').
Qed.

Lemma calm_frame f m :
  routing_seq (f_Routing f) ≠ q → int32 (routing_seq (f_Routing f)) = routing_seq (f_Routing f) →
  calm m (handleFrame srv vals f m).
Proof.
  intros Hne Hi. unfold handleFrame. destruct (f_Type f) as [[call|d|e]|].
  - apply calm_bind; [by apply calm_open|]. intros r m1. apply calm_same.
  - by apply calm_data.
  - by apply calm_one, und_handleEnd.
  - apply calm_same.
Qed.

Lemma calm_Send l' b m : l' ≠ l → calm m (stream_Send l' b m).
Proof.
  intros Hne. unfold stream_Send. destruct (m_heap m !! l') as [s|] eqn:Hs; [|apply calm_nil].
  apply calm_bind.
  - unfold flushBeginOnce. rewrite Hs. destruct (lookupStream (ss_seq s) m) as [l1|] eqn:Hl; [|apply calm_same].
    apply calm_owned. intros Ho. assert (l1 ≠ l) as Hl1.
    { eapply lookup_elsewhere; [exact Ho|exact Hl|]. intros E. by apply Hne, (o_seq _ Ho l' s). }
    apply (calm_from m (RpcServer.update l1 with_headerSent m)); [by apply und_update|].
    destruct (m_heap m !! l1) as [st|]; [destruct (st_headerSent st)|];
      [apply calm_same|apply calm_queue|apply calm_same].
  - intros [] m1; [|apply calm_same..].
    destruct (_ <=? _); [apply calm_queue|apply calm_chunks].
Qed.

Lemma calm_handler l' m : l' ≠ l → calm m (handler_step l' m).
Proof.
  intros Hne. unfold handler_step.
  assert (∀ t g, (∀ s, ss_seq (g s) = ss_seq s) → undisturbed m (set_thread l' t (RpcServer.update l' g m))) as Hset.
  { intros t g Hg. eapply und_trans; [by apply (und_update l' g)|by apply und_thread]. }
  pose proof (λ t, und_thread l' t m Hne) as Hth.
  destruct (m_threads m !! l') as [[[st|k|b k|kv k|kv k|k|k]|k]|]; [..|apply calm_nil];
    destruct (m_heap m !! l') as [s|] eqn:Hs; try apply calm_nil.
  - unfold finish. apply calm_owned. intros Ho. apply calm_bind.
    + apply calm_end. intros E. by apply Hne, (o_seq _ Ho l' s).
    + intros r m1. apply calm_one.
      destruct r; [eapply und_trans; [by apply (und_exit l')|by apply und_update]..|by apply und_exit].
  - destruct (ss_inbound s); [apply calm_one, Hth|]. by apply calm_one, Hset.
  - apply calm_bind; [by apply calm_Send|]. intros [] m1; apply calm_one;
      [by apply und_thread..|by apply und_exit].
  - unfold stream_SetHeader. destruct (ss_hdrStateSent s); [apply calm_same|].
    apply calm_one.
    apply (und_trans _ (RpcServer.update l' (λ _, with_hdr (SetHeader (ss_hdr s) kv) s) m)); [|by apply und_thread].
    apply und_update; [done|]. by intros s1 [= <-]%(eq_trans (eq_sym Hs)).
  - by apply calm_one, Hset.
  - apply calm_one, Hth.
  - apply calm_one, Hth.
  - apply calm_app; [|apply calm_app].
    + destruct (ss_inbound s); [apply calm_nil|by apply calm_one, Hset].
    + destruct (ss_halfClose s); [apply calm_one, Hth|apply calm_nil].
    + destruct (ss_ctx s); [apply calm_one, Hth|apply calm_nil].
Qed.
End other.

(** ** The handler and the serve loop *)

(** The handler receives these messages and [io.EOF], and goes on as [fin]. *)
Fixpoint collects (p : prog) (reqs : list bytes) (fin : prog) : Prop :=
  match reqs with
  | [] => ∃ k, p = RpcServer.Recv k ∧ k (inr EOF) = fin
  | b :: reqs => ∃ k, p = RpcServer.Recv k ∧ collects (k (inl b)) reqs fin
  end.

Lemma collects_recv p reqs fin : collects p reqs fin → ∃ k, p = RpcServer.Recv k.
Proof. destruct reqs; intros (k & -> & _); by exists k. Qed.

(** The goroutine is before or in the [Recv] of the program. *)
Definition receiving (p : prog) (t : thread) : Prop :=
  t = Running p ∨ ∃ k, p = RpcServer.Recv k ∧ t = InSelect k.

(** The content a request frame carries for its stream's queue. *)
Definition req_content (f : Frame) : option Content :=
  match f_Type f with
  | Some (Frame_Data (Some d)) => data_Content d
  | _ => None
  end.

Definition req_frame (q : Z) (d : option Data) : Frame :=
  {| f_Routing := Some {| Sequence := int32 q |}; f_Type := Some (Frame_Data d) |}.

(** What the client sends after the [Call] frame. *)
Definition upload_frames (q : Z) (reqs : list bytes) : list Frame :=
  concat (map (payload_frames q) reqs) ++ [mkReqEnd q close_send].

Lemma payload_frames_contents q b : map req_content (payload_frames q b) = data_contents b.
Proof. unfold payload_frames, data_contents. destruct (_ <=? _); [done|]. by rewrite map_map. Qed.

Lemma payloads_upload q reqs r :
  Forall (λ b, len b < two31) reqs → r !! q = None →
  payloads q r (map req_content (upload_frames q reqs)) = Some reqs.
Proof.
  intros Hb Hr. unfold upload_frames.
  rewrite map_app, concat_map, map_map, (map_ext _ data_contents) by apply payload_frames_contents.
  by apply payloads_messages.
Qed.

Lemma upload_body q reqs :
  Forall (λ f, ∃ d, f = req_frame q d) (concat (map (payload_frames q) reqs)).
Proof.
  apply Forall_concat, Forall_map, Forall_true. intros b. unfold payload_frames.
  destruct (_ <=? _); [constructor; [by eexists|done]|].
  apply Forall_map, Forall_true. intros c. by eexists.
Qed.

Section upload.
Context {Vals : Type} (srv : @Server Vals) (vals : Vals).
Context `{!Codec Frame, !CodecLaws Frame} (l : nat) (q : Z).

(** The frames still to come for the stream, the server, and what the handler
    has received. *)
Definition upload_state : Type := list Frame * mux * list bytes.

(** One step of the serve loop, with a frame of this stream or of another; of
    another stream's handler; or of this handler in [Recv]. *)
Inductive upload_step : upload_state → upload_state → Prop :=
  | up_own f raw fs m m' got :
      on_wire f = Some raw → (Continue, m') ∈ serve_iter srv vals (Ok raw) m →
      upload_step (f :: fs, m, got) (fs, m', got)
  | up_other raw f fs m m' got :
      unmarshal raw = Some f → routing_seq (f_Routing f) ≠ q →
      int32 (routing_seq (f_Routing f)) = routing_seq (f_Routing f) →
      (Continue, m') ∈ serve_iter srv vals (Ok raw) m →
      upload_step (fs, m, got) (fs, m', got)
  | up_handlers l' fs m m' got :
      l' ≠ l → (FHandled, m') ∈ handler_step l' m → upload_step (fs, m, got) (fs, m', got)
  | up_waits k fs m m' got :
      m_threads m !! l = Some (Running (RpcServer.Recv k)) → (FHandled, m') ∈ handler_step l m →
      m_threads m' !! l = Some (InSelect k) → m_heap m' = m_heap m →
      upload_step (fs, m, got) (fs, m', got)
  | up_takes s b rest fs m m' got :
      m_heap m !! l = Some s → ss_inbound s = b :: rest → (FHandled, m') ∈ handler_step l m →
      m_heap m' !! l = Some (RpcServer.with_inbound rest s) →
      upload_step (fs, m, got) (fs, m', got ++ [b]).

(** The handler's [Recv] can return [io.EOF]. *)
Definition sees_eof (m : mux) : Prop :=
  ∃ k m', m_threads m !! l = Some (InSelect k) ∧ (FHandled, m') ∈ handler_step l m ∧
    m_heap m' = m_heap m ∧ m_threads m' !! l = Some (Running (k (inr EOF))).

(** The stream of an upload; nothing has been sent or set yet. *)
Record uploading (s : stream) : Prop := {
  u_ctx : ss_ctx s = None;
  u_seq : ss_seq s = q;
  u_sent : st_headerSent s = false;
  u_hdr : ss_hdr s = ∅ }.

(** The half-close is still to come, or it has been handled. *)
Definition upload_phase (fs : list Frame) (s : stream) : Prop :=
  (ss_halfClose s = false ∧
   ∃ ds, fs = ds ++ [mkReqEnd q close_send] ∧ Forall (λ f, ∃ d, f = req_frame q d) ds) ∨
  (fs = [] ∧ ss_halfClose s = true).

Record upload_inv (reqs : list bytes) (fin : prog) (fs : list Frame) (m : mux) (got : list bytes)
    (s : stream) (ps : list bytes) (p : prog) (t : thread) : Prop := {
  ui_heap : m_heap m !! l = Some s;
  ui_stream : uploading s;
  ui_payloads : payloads q (m_reasm m) (map req_content fs) = Some ps;
  ui_all : got ++ ss_inbound s ++ ps = reqs;
  ui_thread : m_threads m !! l = Some t;
  ui_recv : receiving p t;
  ui_prog : collects p (ss_inbound s ++ ps) fin;
  ui_owns : owns l q m;
  ui_lookup : lookupStream q m = Some l;
  ui_wire : Forall sendable fs;
  ui_phase : upload_phase fs s }.

Arguments ui_heap {_ _ _ _ _ _ _ _ _} _.
Arguments ui_stream {_ _ _ _ _ _ _ _ _} _.
Arguments ui_payloads {_ _ _ _ _ _ _ _ _} _.
Arguments ui_all {_ _ _ _ _ _ _ _ _} _.
Arguments ui_thread {_ _ _ _ _ _ _ _ _} _.
Arguments ui_recv {_ _ _ _ _ _ _ _ _} _.
Arguments ui_prog {_ _ _ _ _ _ _ _ _} _.
Arguments ui_owns {_ _ _ _ _ _ _ _ _} _.
Arguments ui_lookup {_ _ _ _ _ _ _ _ _} _.
Arguments ui_wire {_ _ _ _ _ _ _ _ _} _.
Arguments ui_phase {_ _ _ _ _ _ _ _ _} _.

Definition UInv (reqs : list bytes) (fin : prog) (st : upload_state) : Prop :=
  let '(fs, m, got) := st in ∃ s ps p t, upload_inv reqs fin fs m got s ps p t.

Lemma UInv_undisturbed reqs fin fs m m' got :
  undisturbed l q m m' → UInv reqs fin (fs, m, got) → UInv reqs fin (fs, m', got).
Proof.
  intros Hu (s & ps & p & t & HI). destruct HI as [Hh Hst Hp Hall Ht Hr Hc Ho Hl Hw Hph].
  destruct (Hu Ho) as (Ho' & Eh & Et & Er & Es). exists s, ps, p, t.
  split; try done; [by rewrite Eh|by rewrite (payloads_local q _ _ (m_reasm m))|by rewrite Et|].
  unfold lookupStream in *. by rewrite Es.
Qed.

(** The serve loop has handled a frame of the stream. *)
Lemma UInv_serve reqs fin fs fs' m m' got s s' ps ps' p t :
  upload_inv reqs fin fs' m got s ps p t →
  m_heap m' !! l = Some s' → m_threads m' = m_threads m → m_streams m' = m_streams m → owns l q m' →
  payloads q (m_reasm m') (map req_content fs) = Some ps' → uploading s' →
  ss_inbound s' ++ ps' = ss_inbound s ++ ps → Forall sendable fs → upload_phase fs s' →
  UInv reqs fin (fs, m', got).
Proof.
  intros [Hh Hst Hp Hall Ht Hr Hc Ho Hl Hw Hph] Hh' Et Es Ho' Hp' Hu Hin Hw' Hph'.
  exists s', ps', p, t. split; try done; rewrite ?Hin, ?Et; try done.
  unfold lookupStream in *. by rewrite Es.
Qed.

Lemma owns_update g r m :
  (∀ s, ss_seq (g s) = ss_seq s) → owns l q m →
  owns l q (RpcServer.update l g (RpcServer.set_reasm r m)).
Proof.
  intros Hg [Hup Hn Hi Hs]. split; try done. cbn. intros l1 s.
  destruct (decide (l = l1)) as [->|]; [done|]. rewrite lookup_alter_ne by done. apply Hs.
Qed.

Lemma uploading_inbound bs s : uploading s → uploading (RpcServer.with_inbound bs s).
Proof. by intros []. Qed.

Lemma phase_inbound fs bs s : upload_phase fs s → upload_phase fs (RpcServer.with_inbound bs s).
Proof. done. Qed.

Lemma upload_deliver b m m' s :
  m_heap m !! l = Some s → uploading s → lookupStream q m = Some l → m' ∈ deliverPayload q b m →
  m' = RpcServer.update l (RpcServer.with_inbound (ss_inbound s ++ [b])) m ∧
  m_heap m' !! l = Some (RpcServer.with_inbound (ss_inbound s ++ [b]) s).
Proof.
  intros Hs Hu Hl. unfold deliverPayload. rewrite Hl, Hs, (u_ctx _ Hu), app_nil_r.
  case_decide; [|by intros ?%elem_of_nil]. intros ->%list_elem_of_singleton.
  split; [done|]. cbn. by rewrite lookup_alter, decide_True, Hs.
Qed.

Lemma UInv_data reqs fin fs d m m' got s ps p t :
  int32 q = q → upload_inv reqs fin (req_frame q d :: fs) m got s ps p t → upload_phase fs s →
  (FHandled, m') ∈ deliverData q d m → UInv reqs fin (fs, m', got).
Proof.
  intros Hq HI Hph. pose proof HI as [Hh Hst Hp Hall Ht Hr Hc Ho Hl [Hf Hw]%Forall_cons _].
  cbn [map payloads] in Hp. unfold deliverData.
  assert (∀ b r m1 ps1, payloads q r (map req_content fs) = Some ps1 → ps = b :: ps1 →
            m1 ∈ deliverPayload q b (RpcServer.set_reasm r m) → UInv reqs fin (fs, m1, got)) as Hdel.
  { intros b r m1 ps1 Hp1 -> Hm1.
    destruct (upload_deliver b (RpcServer.set_reasm r m) m1 s Hh Hst Hl Hm1) as [-> Hh1].
    eapply UInv_serve; [exact HI|exact Hh1|done|done|by apply owns_update|exact Hp1| | |done|done].
    - by apply uploading_inbound.
    - cbn. by rewrite <- app_assoc. }
  assert (∀ r, payloads q r (map req_content fs) = Some ps →
            UInv reqs fin (fs, RpcServer.set_reasm r m, got)) as Hkeep.
  { intros r Hp1. eapply UInv_serve; [exact HI|exact Hh|done|done|by destruct Ho|exact Hp1|done..]. }
  destruct d as [d|]; [|intros [= ->]%list_elem_of_singleton; destruct m; by apply (Hkeep m_reasm)].
  unfold req_content at 1 in Hp. cbn [req_frame f_Type] in Hp.
  destruct (data_Content d) as [[b|ch]|].
  - intros (m1 & [= ->] & Hm)%list_elem_of_fmap. apply fmap_Some in Hp as (ps1 & Hp & ->).
    apply (Hdel b (m_reasm m) m1 ps1 Hp eq_refl). by destruct m.
  - rewrite Hq. destruct (Reassembler.Reassemble _ _ _ _ _) as [o r]. destruct o as [[b|]|e|x].
    + intros (m1 & [= ->] & Hm)%list_elem_of_fmap. apply fmap_Some in Hp as (ps1 & Hp & ->).
      by apply (Hdel b r m1 ps1).
    + intros [= ->]%list_elem_of_singleton. by apply Hkeep.
    + done.
    + done.
  - intros [= ->]%list_elem_of_singleton. destruct m. by apply (Hkeep m_reasm).
Qed.

Lemma UInv_own reqs fin f fs m m' got :
  int32 q = q → UInv reqs fin (f :: fs, m, got) → (FHandled, m') ∈ handleFrame srv vals f m →
  UInv reqs fin (fs, m', got).
Proof.
  intros Hq (s & ps & p & t & HI).
  pose proof HI as [Hh Hst Hp Hall Ht Hr Hc Ho Hl [Hf Hw]%Forall_cons [(Hhc & ds & Hds & Hall')|[? _]]];
    [|done].
  destruct ds as [|f' ds]; cbn in Hds; injection Hds as -> Hfs.
  - subst fs. cbn in Hp. injection Hp as <-. unfold handleFrame. cbn. rewrite Hq.
    unfold lookupStream in Hl. unfold lookupStream. rewrite Hl.
    intros [= ->]%list_elem_of_singleton.
    eapply (UInv_serve _ _ [] _ m _ _ s (with_halfClose s) [] []); [exact HI|..]; try done.
    + cbn. by rewrite lookup_alter, decide_True, Hh.
    + replace m with (RpcServer.set_reasm (m_reasm m) m) by by destruct m. by apply owns_update.
    + by destruct Hst.
    + by right.
  - apply Forall_cons in Hall' as [[d ->] Hall']. unfold handleFrame. cbn. rewrite Hq.
    apply (UInv_data _ _ _ _ _ _ _ _ _ _ _ Hq HI). left. split; [done|]. by exists ds.
Qed.

(** *** The handler in [Recv] *)

(** What a step of the handler that is receiving does. *)
Lemma receiving_step p t m m' s k :
  m_threads m !! l = Some t → m_heap m !! l = Some s → ss_ctx s = None →
  p = RpcServer.Recv k → receiving p t → (FHandled, m') ∈ handler_step l m →
  (ss_inbound s = [] ∧ t = Running p ∧ m' = set_thread l (InSelect k) m) ∨
  (∃ b rest, ss_inbound s = b :: rest ∧
     m' = set_thread l (Running (k (inl b))) (RpcServer.update l (RpcServer.with_inbound rest) m)) ∨
  (ss_halfClose s = true ∧ t = InSelect k ∧ m' = set_thread l (Running (k (inr EOF))) m).
Proof.
  intros Ht Hs Hc -> Hr. unfold handler_step. rewrite Ht, Hs.
  destruct Hr as [->|(k' & [= <-] & ->)].
  - destruct (ss_inbound s) as [|b rest]; intros [= ->]%list_elem_of_singleton; [by left|].
    right; left. by exists b, rest.
  - rewrite Hc, app_nil_r, elem_of_app. intros [H|H].
    + destruct (ss_inbound s) as [|b rest]; [by apply elem_of_nil in H|].
      apply list_elem_of_singleton in H as [= ->]. right; left. by exists b, rest.
    + destruct (ss_halfClose s); [|by apply elem_of_nil in H].
      apply list_elem_of_singleton in H as [= ->]. by right; right.
Qed.

Lemma UInv_wait reqs fin fs m got s ps k :
  upload_inv reqs fin fs m got s ps (RpcServer.Recv k) (Running (RpcServer.Recv k)) →
  upload_inv reqs fin fs (set_thread l (InSelect k) m) got s ps (RpcServer.Recv k) (InSelect k).
Proof.
  intros [Hh Hst Hp Hall Ht Hr Hc Ho Hl Hw Hph]. split; try done.
  - cbn. by rewrite lookup_insert, decide_True.
  - right. by exists k.
  - by destruct Ho.
Qed.

Lemma UInv_take reqs fin fs m got s ps p t k b rest :
  upload_inv reqs fin fs m got s ps p t → p = RpcServer.Recv k → ss_inbound s = b :: rest →
  upload_inv reqs fin fs
    (set_thread l (Running (k (inl b))) (RpcServer.update l (RpcServer.with_inbound rest) m))
    (got ++ [b]) (RpcServer.with_inbound rest s) ps (k (inl b)) (Running (k (inl b))).
Proof.
  intros [Hh Hst Hp Hall Ht Hr Hc Ho Hl Hw Hph] -> Hin. rewrite Hin in Hall, Hc.
  destruct Hc as (k' & [= <-] & Hc). split; try done.
  - cbn. by rewrite lookup_alter, decide_True, Hh.
  - by apply uploading_inbound.
  - by rewrite <- Hall, <- app_assoc.
  - cbn. by rewrite lookup_insert, decide_True.
  - by left.
  - pose proof (owns_update (RpcServer.with_inbound rest) (m_reasm m) m ltac:(done) Ho) as [Hup Hn Hi Hs].
    by split.
Qed.

Lemma serve_handled raw f m m' :
  unmarshal raw = Some f → (Continue, m') ∈ serve_iter srv vals (Ok raw) m →
  (FHandled, m') ∈ handleFrame srv vals f m.
Proof.
  intros Hu. unfold serve_iter. rewrite Hu, list_elem_of_bind.
  intros ([r m1] & Hin & Hd). apply list_elem_of_singleton in Hin. destruct r; by simplify_eq.
Qed.

Lemma UInv_step reqs fin st st' : int32 q = q → UInv reqs fin st → upload_step st st' → UInv reqs fin st'.
Proof.
  intros Hq HU Hstep. destruct Hstep as [f raw fs m m' got Hw Hs|raw f fs m m' got Hu Hne Hi Hs
    |l' fs m m' got Hne Hs|k fs m m' got Ht Hs Ht' Hh'|s b rest fs m m' got Hh Hin Hs Hh'].
  - pose proof HU as (s & ps & p & t & HI). pose proof (ui_wire HI) as [Hf _]%Forall_cons.
    destruct (on_wire_sendable f Hf) as (raw' & Hw' & Hu). rewrite Hw in Hw'. injection Hw' as <-.
    eapply UInv_own; [done|exact HU|]. by eapply serve_handled.
  - eapply UInv_undisturbed; [|exact HU]. destruct HU as (s & ps & p & t & HI).
    eapply (calm_frame srv vals l q f m Hne Hi); [exact (ui_owns HI)|]. by eapply serve_handled.
  - eapply UInv_undisturbed; [|exact HU]. destruct HU as (s & ps & p & t & HI).
    by eapply (calm_handler l q l' m Hne (ui_owns HI)).
  - destruct HU as (s & ps & p & t & HI). destruct (collects_recv _ _ _ (ui_prog HI)) as [k' ->].
    pose proof (ui_thread HI) as Ht1. rewrite Ht in Ht1. injection Ht1 as <-.
    destruct (ui_recv HI) as [[= ->]|(k1 & ? & ?)]; [|done].
    unfold handler_step in Hs. rewrite Ht, (ui_heap HI) in Hs.
    destruct (ss_inbound s); apply list_elem_of_singleton in Hs as [= ->].
    + eexists _, _, _, _. by apply UInv_wait.
    + cbn in Ht'. by rewrite lookup_insert, decide_True in Ht'.
  - destruct HU as (s' & ps & p & t & HI). destruct (collects_recv _ _ _ (ui_prog HI)) as [k ->].
    pose proof (ui_heap HI) as Hh1. rewrite Hh in Hh1. injection Hh1 as <-.
    destruct (receiving_step _ _ _ _ _ k (ui_thread HI) Hh
                (u_ctx _ (ui_stream HI)) eq_refl (ui_recv HI) Hs)
      as [(E & _)|[(b' & rest' & E & ->)|(_ & _ & ->)]].
    + by rewrite Hin in E.
    + rewrite Hin in E. injection E as <- <-. eexists _, _, _, _. by eapply UInv_take.
    + cbn in Hh'. rewrite Hh in Hh'. injection Hh' as E. apply (f_equal ss_inbound) in E. cbn in E.
      rewrite Hin in E. apply (f_equal length) in E. cbn in E. lia.
Qed.

(** *** Progress *)

Lemma upload_take reqs fin fs m got s ps p t b rest :
  upload_inv reqs fin fs m got s ps p t → ss_inbound s = b :: rest →
  ∃ m', upload_step (fs, m, got) (fs, m', got ++ [b]) ∧ m_out m' = m_out m ∧
    ∃ p' t', upload_inv reqs fin fs m' (got ++ [b]) (RpcServer.with_inbound rest s) ps p' t'.
Proof.
  intros HI Hin. destruct (collects_recv _ _ _ (ui_prog HI)) as [k ->].
  set (m' := set_thread l (Running (k (inl b))) (RpcServer.update l (RpcServer.with_inbound rest) m)).
  exists m'. split; [|split; [done|]].
  - eapply up_takes; [exact (ui_heap HI)|exact Hin| |].
    + unfold handler_step. rewrite (ui_thread HI), (ui_heap HI).
      destruct (ui_recv HI) as [->|(k' & [= <-] & ->)]; rewrite Hin; apply list_elem_of_here.
    + unfold m'. cbn. by rewrite lookup_alter, decide_True, (ui_heap HI).
  - eexists _, _. by eapply UInv_take.
Qed.

(** The queue can always be emptied. *)
Lemma upload_drains reqs fin fs m got s ps p t :
  upload_inv reqs fin fs m got s ps p t →
  ∃ m' got' s' p' t', rtc upload_step (fs, m, got) (fs, m', got') ∧ m_out m' = m_out m ∧
    ss_inbound s' = [] ∧ upload_inv reqs fin fs m' got' s' ps p' t'.
Proof.
  remember (ss_inbound s) as bs eqn:Hin. revert m got s p t Hin.
  induction bs as [|b bs IH]; intros m got s p t Hin HI.
  - by exists m, got, s, p, t.
  - destruct (upload_take _ _ _ _ _ _ _ _ _ b bs HI) as (m1 & Hstep & Ho & p1 & t1 & HI1); [done|].
    destruct (IH m1 (got ++ [b]) (RpcServer.with_inbound bs s) p1 t1 eq_refl HI1) as (m' & got' & s' & p' & t' & Hr & Ho' & Hrest).
    exists m', got', s', p', t'. split; [by eapply rtc_l|]. split; [congruence|done].
Qed.

(** With an empty queue the serve loop handles the next frame. *)
Lemma upload_ready reqs fin f fs m got s ps p t :
  int32 q = q → upload_inv reqs fin (f :: fs) m got s ps p t → ss_inbound s = [] →
  ∃ m', upload_step (f :: fs, m, got) (fs, m', got) ∧ m_out m' = m_out m.
Proof.
  intros Hq HI Hin. pose proof HI as [Hh Hst Hp Hall Ht Hr Hc Ho Hl [Hf Hw]%Forall_cons Hph].
  destruct (on_wire_sendable f Hf) as (raw & Hwire & Hu).
  assert (∃ m', (FHandled, m') ∈ handleFrame srv vals f m ∧ m_out m' = m_out m) as (m' & Hd & Hout).
  { destruct Hph as [(_ & ds & Hds & Hb)|[? _]]; [|done].
    assert (∀ b m0, m_heap m0 = m_heap m → m_streams m0 = m_streams m → m_out m0 = m_out m →
              ∃ m', (FHandled, m') ∈ (pair FHandled <$> deliverPayload q b m0) ∧ m_out m' = m_out m) as Hdel.
    { intros b m0 Eh Es Eo. unfold deliverPayload, lookupStream in *.
      rewrite Es, Hl, Eh, Hh, decide_True by (rewrite Hin; unfold inbound_cap; cbn; lia).
      eexists. split; [apply list_elem_of_here|done]. }
    destruct ds as [|f' ds]; cbn in Hds; injection Hds as -> Hfs.
    { exists (handleEnd q (Some close_send) m). unfold handleFrame. cbn. rewrite Hq.
      split; [apply list_elem_of_here|]. unfold lookupStream in *. by rewrite Hl. }
    apply Forall_cons in Hb as [[d ->] _]. cbn [map payloads] in Hp. unfold handleFrame, deliverData. cbn.
    unfold req_content at 1 in Hp. cbn in Hp.
    destruct d as [d|]; [|eexists; split; [apply list_elem_of_here|done]].
    destruct (data_Content d) as [[b|ch]|]; [rewrite Hq; by apply Hdel| |eexists; by split; [apply list_elem_of_here|]].
    rewrite !Hq. destruct (Reassembler.Reassemble _ _ _ _ _) as [o r].
    destruct o as [[b|]|e|x]; [by apply Hdel|eexists; by split; [apply list_elem_of_here|]|done|done]. }
  exists m'. split; [|done]. eapply up_own; [exact Hwire|]. unfold serve_iter. rewrite Hu, list_elem_of_bind.
  exists (FHandled, m'). by split; [apply list_elem_of_here|].
Qed.

(** Whatever has happened, the whole upload can be received. *)
Lemma upload_completes reqs fin : int32 q = q → ∀ fs m got,
  UInv reqs fin (fs, m, got) →
  ∃ m' s p t, rtc upload_step (fs, m, got) ([], m', reqs) ∧ m_out m' = m_out m ∧
    ss_inbound s = [] ∧ upload_inv reqs fin [] m' reqs s [] p t.
Proof.
  intros Hq. induction fs as [|f fs IH]; intros m got (s & ps & p & t & HI);
    destruct (upload_drains _ _ _ _ _ _ _ _ _ HI) as (m1 & got1 & s1 & p1 & t1 & Hr & Ho & Hin & HI1).
  - pose proof (ui_payloads HI1) as Hp. cbn in Hp. injection Hp as <-.
    pose proof (ui_all HI1) as Hall. rewrite Hin, !app_nil_r in Hall. subst got1.
    by exists m1, s1, p1, t1.
  - destruct (upload_ready _ _ _ _ _ _ _ _ _ _ Hq HI1 Hin) as (m2 & Hstep & Ho2).
    assert (UInv reqs fin (fs, m2, got1)) as HU2.
    { eapply UInv_step; [done| |exact Hstep]. by exists s1, ps, p1, t1. }
    destruct (IH m2 got1 HU2) as (m' & s' & p' & t' & Hr' & Ho' & Hrest).
    exists m', s', p', t'. split; [|split; [congruence|done]].
    etrans; [exact Hr|]. by eapply rtc_l.
Qed.

(** Then the handler sees [io.EOF] and goes on. *)
Lemma upload_finishes reqs fin m s p t :
  upload_inv reqs fin [] m reqs s [] p t → ss_inbound s = [] →
  ∃ m', rtc (hdet l) m m' ∧ up m' ∧ lookupStream q m' = Some l ∧ m_heap m' !! l = Some s ∧
    m_threads m' !! l = Some (Running fin) ∧ m_out m' = m_out m.
Proof.
  intros HI Hin. pose proof HI as [Hh Hst _ _ Ht Hr Hc Ho Hl _ Hph].
  rewrite Hin in Hc. destruct Hc as (k & -> & <-).
  destruct Hph as [(_ & ds & Hds & _)|[_ Hhc]]; [by destruct ds|].
  assert (∀ m1, m_threads m1 !! l = Some (InSelect k) → m_heap m1 !! l = Some s →
            hdet l m1 (set_thread l (Running (k (inr EOF))) m1)) as Heof.
  { intros m1 Ht1 Hh1. unfold hdet, handler_step. by rewrite Ht1, Hh1, Hin, Hhc, (u_ctx _ Hst). }
  assert (∀ m1, m_heap m1 = m_heap m → m_streams m1 = m_streams m → up m1 → m_out m1 = m_out m →
    let m' := set_thread l (Running (k (inr EOF))) m1 in
    up m' ∧ lookupStream q m' = Some l ∧ m_heap m' !! l = Some s ∧
    m_threads m' !! l = Some (Running (k (inr EOF))) ∧ m_out m' = m_out m) as Hend.
  { intros m1 Eh Es Hup Eo m'. unfold lookupStream, m' in *. cbn. rewrite Es, Eh.
    split_and!; try done. by rewrite lookup_insert, decide_True. }
  destruct Hr as [->|(k' & [= <-] & ->)].
  - eexists. split; [|apply (Hend (set_thread l (InSelect k) m)); [done|done|apply Ho|done]].
    eapply rtc_l; [|apply rtc_once, Heof; [cbn; by rewrite lookup_insert, decide_True|done]].
    unfold hdet, handler_step. by rewrite Ht, Hh, Hin.
  - eexists. split; [apply rtc_once, Heof; [exact Ht|exact Hh]|]. apply Hend; [done|done|apply Ho|done].
Qed.

(** *** All schedules *)

Lemma UInv_eof reqs fin fs m got : UInv reqs fin (fs, m, got) → sees_eof m → fs = [].
Proof.
  intros (s & ps & p & t & HI) (k & m' & Ht & Hs & Eh & Ht').
  destruct (collects_recv _ _ _ (ui_prog HI)) as [k' ->].
  destruct (receiving_step _ _ _ _ _ k' (ui_thread HI) (ui_heap HI) (u_ctx _ (ui_stream HI)) eq_refl
              (ui_recv HI) Hs) as [(_ & -> & _)|[(b & rest & Hin & ->)|(Hhc & _)]].
  - by rewrite (ui_thread HI) in Ht.
  - apply (f_equal (lookup l)) in Eh. cbn in Eh. rewrite lookup_alter, decide_True, (ui_heap HI) in Eh by done.
    injection Eh as E. apply (f_equal ss_inbound) in E. cbn in E. rewrite Hin in E.
    apply (f_equal length) in E. cbn in E. lia.
  - destruct (ui_phase HI) as [(Hno & _)|[-> _]]; [by rewrite Hhc in Hno|done].
Qed.

(** From any state the upload can be received, and the answer sent. *)
Lemma upload_answers reqs fin fs m got reps st :
  int32 q = q → UInv reqs fin (fs, m, got) → replies_with fin reps st →
  ∃ m3 m4, rtc upload_step (fs, m, got) ([], m3, reqs) ∧ rtc (hdet l) m3 m4 ∧
    m_threads m4 !! l = None ∧ m_out m4 = m_out m ++ reply_frames q reps st.
Proof.
  intros Hq HU Hfin.
  destruct (upload_completes reqs fin Hq fs m got HU) as (m3 & s & p & t & Hr & Ho3 & Hin & HI).
  destruct (upload_finishes _ _ _ _ _ _ HI Hin) as (m3' & Hr3 & Hup & Hl & Hh & Ht & Ho3').
  destruct (replies_run l q reps st fin s m3' Hup Hl Hh (u_seq _ (ui_stream HI)) Ht Hfin)
    as (m4 & Hr4 & Ht4 & _ & Ho4).
  exists m3, m4. split; [exact Hr|]. split; [by etrans|]. split; [exact Ht4|].
  rewrite Ho4, Ho3', Ho3. unfold begin_frames. by rewrite (u_sent _ (ui_stream HI)), (u_hdr _ (ui_stream HI)).
Qed.

Lemma UInv_rtc reqs fin st st' : int32 q = q → UInv reqs fin st → rtc upload_step st st' → UInv reqs fin st'.
Proof. intros Hq H0 Hr. induction Hr; [done|]. apply IHHr. by eapply UInv_step. Qed.

Lemma UInv_prefix reqs fin fs m got : UInv reqs fin (fs, m, got) → got `prefix_of` reqs.
Proof. intros (s & ps & p & t & HI). eexists. by rewrite <- (ui_all HI). Qed.
End upload.

(** ** The client *)

(** What [InvokeClientStreaming] sends with the [Call], and right after it. *)
Definition first_inline (firstReq : option bytes) : option bytes :=
  let first := default [] firstReq in
  if (0 <? len first) && (len first <=? InlineMax) then copy_bytes first else None.

Definition first_rest (firstReq : option bytes) : list bytes :=
  match firstReq, first_inline firstReq with Some b, None => [b] | _, _ => [] end.

Lemma first_split firstReq :
  option_list (first_inline firstReq) ++ first_rest firstReq = option_list firstReq.
Proof.
  unfold first_rest, first_inline. destruct firstReq as [[|x b]|]; [done| |done].
  cbn [default]. destruct (_ && _); done.
Qed.

(** [Send] for each message, then [CloseSend]. *)
Definition client_upload (s : ClientStream) (reqs : list bytes) (c : client) : client :=
  (CloseSend s (foldl (λ c b, (Stream_Send s b c).2) c reqs)).2.

Lemma client_upload_sends s reqs c cs :
  cl_heap c !! str_cs s = Some cs → str_closed s = false →
  client_upload s reqs c = foldl (λ c f, sendFrame f c) c (upload_frames (cs_seq cs) reqs).
Proof.
  intros Hcs Hop. unfold client_upload, upload_frames. rewrite foldl_app.
  assert (foldl (λ c b, (Stream_Send s b c).2) c reqs =
          foldl (λ c f, sendFrame f c) c (concat (map (payload_frames (cs_seq cs)) reqs))) as ->.
  { revert c Hcs. induction reqs as [|b reqs IH]; intros c Hcs; [done|].
    cbn [foldl map concat]. rewrite foldl_app. unfold Stream_Send at 2. rewrite Hcs. cbn [snd].
    rewrite sendPayload_frames. apply IH. by rewrite foldl_sendFrame. }
  unfold CloseSend. rewrite Hop, foldl_sendFrame. cbn [cl_heap]. by rewrite Hcs.
Qed.

(** The call of [InvokeClientStreaming]. *)
Definition client_streaming_call (ctx : context) (method : string) (firstReq : option bytes)
    (hdr : Metadata) : Call :=
  streaming_call ctx method (first_inline firstReq) hdr.

Lemma client_streaming_sends ctx method firstReq hdr c s c0 l q c1 :
  InvokeClientStreaming ctx method firstReq hdr c = (s, OK, c0) →
  RpcClient.openStream method c = (l, q, c1) →
  s = {| str_cs := l; str_ctx := ctx; str_closed := false |} ∧
  c0 = foldl (λ c f, sendFrame f c) c1
    (mkCall q (client_streaming_call ctx method firstReq hdr) ::
     concat (map (payload_frames q) (first_rest firstReq))).
Proof.
  intros Hopen Ho. unfold InvokeClientStreaming in Hopen. rewrite Ho in Hopen.
  fold (first_inline firstReq) in Hopen. fold (client_streaming_call ctx method firstReq hdr) in Hopen.
  injection Hopen as <- <-. split; [done|]. cbn [foldl]. unfold first_rest.
  destruct firstReq as [b|]; [|done]. destruct (first_inline (Some b)); [done|].
  cbn [map concat]. by rewrite app_nil_r, sendPayload_frames.
Qed.

(** ** The whole call *)

Section e2e.
Context {Vals : Type} (srv : @Server Vals) (vals : Vals).
Context `{!Codec Frame, !CodecLaws Frame} `{!Codec ResponseFrame, !CodecLaws ResponseFrame}.

(** The server once the [Call] frame has been handled. *)
Lemma upload_opened q call m used md reqs rest fin :
  RpcServer.reachable True srv vals (m, used) → up m → q ∉ used → int32 q = q → m_reasm m !! q = None →
  findMethod srv (call_Method call) = Some md →
  collects (handler_prog srv vals md {| v_Method := call_Method call; v_Incoming := call_Metadata call |})
    reqs fin →
  Forall (λ b, len b < two31) rest → Forall sendable (upload_frames q rest) →
  call_inbound call ++ rest = reqs →
  ∃ m1, handles srv vals [mkCall q call] m m1 ∧ m_out m1 = m_out m ∧
    UInv (m_next m) q reqs fin (upload_frames q rest, m1, []).
Proof.
  intros Hserver Hup Hfresh Hi Hr Hmd Hc Hb Hw Hsum.
  pose proof (reachable_Inv srv vals (m, used) Hserver Hup) as Hinv; cbn in Hinv.
  assert (lookupStream q m = None) as Hl by by eapply lookup_unused.
  pose proof (handles_call srv vals q call m md Hup Hi Hl Hmd) as H1.
  match type of H1 with _ = [(FHandled, ?x)] => set (m1 := x) in * end.
  exists m1. split; [by exists m1|]. split; [done|].
  eexists (RpcServer.with_inbound (call_inbound call) (call_stream q call)), rest, _, (call_thread srv vals call md).
  split.
  - unfold m1. cbn. by rewrite lookup_alter, lookup_insert, !decide_True.
  - by split.
  - by apply payloads_upload.
  - exact Hsum.
  - unfold m1. cbn. by rewrite lookup_insert, decide_True.
  - by left.
  - cbn [ss_inbound RpcServer.with_inbound]. by rewrite Hsum.
  - split; [exact Hup|cbn; lia| |].
    + unfold m1; cbn. intros q' [(? & _)|(_ & Hq')]%lookup_insert_Some; [done|].
      destruct (inv_streams _ _ Hinv _ _ Hq') as (_ & s & Hs & _).
      apply (inv_heap _ _ Hinv) in Hs as [? _]. lia.
    + unfold m1; cbn. intros l' s Hs Hsq. destruct (decide (m_next m = l')) as [|Hne]; [done|].
      rewrite lookup_alter_ne, lookup_insert_ne in Hs by done.
      apply (inv_heap _ _ Hinv) in Hs as (_ & Hu & _). by rewrite Hsq in Hu.
  - unfold m1, lookupStream. cbn. by rewrite lookup_insert, decide_True.
  - exact Hw.
  - left. split; [done|]. eexists. split; [done|]. apply upload_body.
Qed.

End e2e.

(** ** An example *)

(** A method that receives three messages and [io.EOF], and answers with the
    last one and the status OK. *)
Definition last_cont (r : bytes + error) : prog :=
  match r with
  | inl _ => RpcServer.Recv (λ _, RpcServer.Recv (λ r,
      match r with
      | inl b => RpcServer.Recv (λ _, RpcServer.Send b (λ _, Return (Some OK)))
      | inr _ => Return None
      end))
  | inr _ => Return None
  end.

Definition last_md (name : string) : @MethodDesc unit :=
  {| md_Method := name; md_Kind := MethodKindClientStreaming;
     md_Handler := λ _ _, RpcServer.Recv last_cont |}.

Definition last_srv : @Server unit :=
  (RegisterService (NewServer []) {| sd_ServiceName := "demo"; sd_Methods := [last_md "Last"] |}).2.

Definition ex_first : option bytes := Some (str_bytes "a").
Definition ex_more : list bytes := [str_bytes "b"; str_bytes "c"].

Definition ex_upload_requests : list Frame :=
  mkCall 3 (client_streaming_call background "/demo/Last" ex_first ∅) :: upload_frames 3 ex_more.

Definition ex_upload_responses : list ResponseFrame :=
  [mkBegin 3 (Snapshot ∅); mkData 3 (Data_Message (str_bytes "c")); status_frame 3 (Some OK) ∅].

Lemma ex_answer : reply_frames 3 [str_bytes "c"] (Some OK) = ex_upload_responses.
Proof. vm_compute. reflexivity. Qed.

#[local] Instance ex_upload_codec1 : Codec Frame := table_codec ex_upload_requests.
#[local] Instance ex_upload_codec2 : Codec ResponseFrame := table_codec ex_upload_responses.
#[local] Instance ex_upload_laws1 : CodecLaws Frame.
Proof. apply table_codec_laws, Nat.leb_le. by vm_compute. Qed.
#[local] Instance ex_upload_laws2 : CodecLaws ResponseFrame.
Proof. apply table_codec_laws, Nat.leb_le. by vm_compute. Qed.

