(* ===== verification/Connection.v ===== *)
(** * A connection: a client and a server over a reliable, ordered channel

    Any number of calls of any kind run at once: the application's goroutines
    at the client, the [Attach] goroutine, the serve loop and the handler
    goroutines interleave freely, and the frames of both directions are taken
    in the order in which they were handed to the channel.  [EndToEnd],
    [StreamEnd] and [UploadEnd] follow one call to its end; this file says what
    holds of every stream at every moment.

    What the application has sent and received on a stream, and what a handler
    has, are recorded beside the state. *)

From Stdlib Require Import Strings.Byte ZArith Lia.
From stdpp Require Import numbers strings gmap fin_maps relations list.
From S2P Require Import Prelude Status Messages Transport Chunks Channel RpcServer RpcServerRun RpcServerSafety RpcServerProps RpcClient RpcClientProps EndToEnd Payloads StreamEnd UploadEnd.
Open Scope Z_scope.

(** Sequence numbers repeat after 2^30 calls ([client_sequences]). *)
Definition max_streams : nat := Z.to_nat 1073741824.

(** ** The application's operations *)

(** [client_op c l bs c']: an operation on the stream at [l] that sends the
    messages [bs]. *)
Inductive client_op (c : client) : nat → list bytes → client → Prop :=
  | op_unary ctx method req l q c' :
      invokeUnary_open ctx method req c = (l, q, c') → client_op c l [req] c'
  | op_server_streaming ctx method req hdr s st c' :
      InvokeServerStreaming ctx method req hdr c = (s, st, c') → client_op c (str_cs s) [req] c'
  | op_client_streaming ctx method first hdr s st c' :
      InvokeClientStreaming ctx method first hdr c = (s, st, c') →
      client_op c (str_cs s) (option_list first) c'
  | op_send s b c' : Stream_Send s b c = (None, c') → client_op c (str_cs s) [b] c'
  | op_close s s' c' : CloseSend s c = (s', c') → client_op c (str_cs s) [] c'
  | op_select ctx l w o c' : (o, c') ∈ unary_select ctx l w c → client_op c l [] c'
  | op_recv ctx l w o c' : (o, c') ∈ Stream_Recv ctx l w c → client_op c l [] c'
  | op_watch ctx l c' : c' ∈ watchCancel ctx l c → client_op c l [] c'
  | op_cleanup l seq : client_op c l [] (cleanupStream seq c).

(** ** The records *)

(** The messages that have left a queue. *)
Definition popped {A} (q q' : list A) : list A := take (length q - length q') q.

Definition client_queue (c : client) (l : nat) : list bytes :=
  match cl_heap c !! l with Some cs => map ir_data (cs_inbound cs) | None => [] end.

Definition server_queue (m : mux) (l : nat) : list bytes :=
  match m_heap m !! l with Some s => ss_inbound s | None => [] end.

(** The message that a step of the handler has written: nothing when the
    stream was gone and [Send] failed. *)
Definition wrote (m m' : mux) (l : nat) : list bytes :=
  match m_threads m !! l with
  | Some (Running (RpcServer.Send b _)) => if (length (m_out m) <? length (m_out m'))%nat then [b] else []
  | _ => []
  end.

Definition record : Type := nat → list bytes.

Definition note (r : record) (l : nat) (bs : list bytes) : record :=
  λ l', if decide (l' = l) then r l' ++ bs else r l'.

(** ** The connection *)

(** [k_up] and [k_down] count the frames that the serve loop and [Attach] have
    taken; [k_used] holds the sequence numbers the server has seen called. *)
Record conn : Type := {
  k_client : client;
  k_mux : mux;
  k_used : gset Z;
  k_up : nat;
  k_down : nat;
  k_sent : record;   (* by the application, per client stream *)
  k_ret : record;    (* returned to the application *)
  k_got : record;    (* received by the handler, per server stream *)
  k_gave : record    (* sent by the handler *)
}.

Definition newConn : conn :=
  {| k_client := NewClient; k_mux := newMultiplexer; k_used := ∅; k_up := 0; k_down := 0;
     k_sent := λ _, []; k_ret := λ _, []; k_got := λ _, []; k_gave := λ _, [] |}.

Definition small (b : bytes) : Prop := len b < two31.

Section conn.
Context {Vals : Type} (srv : @Server Vals) (vals : Vals).
Context `{!Codec Frame} `{!Codec ResponseFrame}.

Inductive conn_step (k : conn) : conn → Prop :=
  | k_app l bs c' :
      client_op (k_client k) l bs c' → (cl_next c' ≤ max_streams)%nat → Forall small bs →
      conn_step k
        {| k_client := c'; k_mux := k_mux k; k_used := k_used k; k_up := k_up k; k_down := k_down k;
           k_sent := note (k_sent k) l bs;
           k_ret := note (k_ret k) l (popped (client_queue (k_client k) l) (client_queue c' l));
           k_got := k_got k; k_gave := k_gave k |}
  | k_serve f raw m' :
      cl_sent (k_client k) !! k_up k = Some f → sendable f → on_wire f = Some raw →
      (Continue, m') ∈ serve_iter srv vals (Ok raw) (k_mux k) →
      conn_step k
        {| k_client := k_client k; k_mux := m'; k_used := opened f ∪ k_used k; k_up := S (k_up k);
           k_down := k_down k; k_sent := k_sent k; k_ret := k_ret k;
           k_got := k_got k; k_gave := k_gave k |}
  | k_handler l m' :
      (FHandled, m') ∈ handler_step l (k_mux k) → Forall small (wrote (k_mux k) m' l) →
      conn_step k
        {| k_client := k_client k; k_mux := m'; k_used := k_used k; k_up := k_up k; k_down := k_down k;
           k_sent := k_sent k; k_ret := k_ret k;
           k_got := note (k_got k) l (popped (server_queue (k_mux k) l) (server_queue m' l));
           k_gave := note (k_gave k) l (wrote (k_mux k) m' l) |}
  | k_deadline l s :
      m_heap (k_mux k) !! l = Some s → 0 < ss_timeout s →
      conn_step k
        {| k_client := k_client k; k_mux := RpcServer.update l (cancel_ctx DeadlineExceeded) (k_mux k);
           k_used := k_used k; k_up := k_up k; k_down := k_down k; k_sent := k_sent k; k_ret := k_ret k;
           k_got := k_got k; k_gave := k_gave k |}
  | k_attach f raw c' :
      m_out (k_mux k) !! k_down k = Some f → sendable f → on_wire f = Some raw →
      (AContinue, c') ∈ attach_iter (Ok raw) (k_client k) →
      conn_step k
        {| k_client := c'; k_mux := k_mux k; k_used := k_used k; k_up := k_up k; k_down := S (k_down k);
           k_sent := k_sent k; k_ret := k_ret k; k_got := k_got k; k_gave := k_gave k |}.

Definition conn_reachable (k : conn) : Prop := rtc conn_step newConn k.
End conn.

(** ** The frames of one sequence *)

Definition req_seq (f : Frame) : Z := routing_seq (f_Routing f).

(** What a request frame adds to the messages of its stream: the [Call] frame
    may carry the first of them. *)
Definition req_part (f : Frame) : option Content :=
  match f_Type f with
  | Some (Frame_Call (Some call)) => Data_Message <$> call_InlineData call
  | Some (Frame_Data (Some d)) => data_Content d
  | _ => None
  end.

Definition reqs_of (q : Z) (fs : list Frame) : list Frame := filter (λ f, req_seq f = q) fs.

Definition req_parts (q : Z) (fs : list Frame) : list (option Content) := map req_part (reqs_of q fs).

Definition resp_parts (q : Z) (fs : list ResponseFrame) : list (option Content) :=
  map resp_content (frames_of q fs).

#[global] Arguments reqs_of : simpl never.
#[global] Arguments req_parts : simpl never.
#[global] Arguments resp_parts : simpl never.

Lemma reqs_of_app q fs gs : reqs_of q (fs ++ gs) = reqs_of q fs ++ reqs_of q gs.
Proof. apply filter_app. Qed.

Lemma reqs_of_all q fs : Forall (λ f, req_seq f = q) fs → reqs_of q fs = fs.
Proof.
  intros H. unfold reqs_of. induction H as [|f fs Hf _ IH]; [done|].
  rewrite filter_cons_True by done. by rewrite IH.
Qed.

Lemma reqs_of_none q q' fs : q ≠ q' → Forall (λ f, req_seq f = q') fs → reqs_of q fs = [].
Proof.
  intros Hne H. unfold reqs_of. induction H as [|f fs Hf _ IH]; [done|].
  rewrite filter_cons_False by congruence. done.
Qed.

Lemma req_parts_app q fs gs : req_parts q (fs ++ gs) = req_parts q fs ++ req_parts q gs.
Proof. unfold req_parts. by rewrite reqs_of_app, map_app. Qed.

Lemma resp_parts_app q fs gs : resp_parts q (fs ++ gs) = resp_parts q fs ++ resp_parts q gs.
Proof. unfold resp_parts. by rewrite frames_of_app, map_app. Qed.

Definition is_call (f : Frame) : Prop := match f_Type f with Some (Frame_Call _) => True | _ => False end.

#[export] Instance is_call_dec f : Decision (is_call f).
Proof. unfold is_call. destruct (f_Type f) as [[]|]; apply _. Defined.

(** Nothing, or a call followed by frames that are no calls. *)
Definition called (fs : list Frame) : Prop :=
  match fs with [] => True | f :: rest => is_call f ∧ Forall (λ f, ¬ is_call f) rest end.
