(* ===== verification/ConnectionSend.v ===== *)
(** * Connection: what the application has sent

    Each operation of the client, as [effect] says, opens a stream, sends
    frames on one, takes a message from its queue, or does none of these; what
    the application has sent is what the frames of the stream say ([Sends]). *)

From Stdlib Require Import Strings.Byte ZArith Lia.
From stdpp Require Import numbers strings gmap fin_maps relations list.
From S2P Require Import Prelude Status Messages Transport Chunks Channel RpcServer RpcServerRun RpcServerSafety RpcServerProps RpcClient RpcClientProps EndToEnd Payloads StreamEnd UploadEnd Connection.
Open Scope Z_scope.

(** ** The client's operations *)

(** Frames of one stream after its [Call]. *)
Definition stream_frames (q : Z) (fs : list Frame) : Prop :=
  Forall (λ f, req_seq f = q ∧ ¬ is_call f) fs.

(** The frames add these messages to those of the stream. *)
Definition adds (q : Z) (fs : list Frame) (bs : list bytes) : Prop :=
  ∀ cs xs, Forall small bs → collected q cs xs None → collected q (cs ++ map req_part fs) (xs ++ bs) None.

Lemma adds_nil q : adds q [] [].
Proof. intros cs xs _ H. by rewrite !app_nil_r. Qed.

Lemma adds_app q fs gs bs ds : adds q fs bs → adds q gs ds → adds q (fs ++ gs) (bs ++ ds).
Proof.
  intros H1 H2 cs xs [Hb Hd]%Forall_app H. rewrite map_app, !app_assoc. by apply H2, H1.
Qed.

Lemma adds_none q f : req_part f = None → adds q [f] [].
Proof. intros Hf cs xs _ H. cbn. rewrite Hf, app_nil_r. by apply collected_none. Qed.

Lemma adds_payload q b : adds q (payload_frames q b) [b].
Proof.
  intros cs xs [Hb _]%Forall_cons H.
  assert (map req_part (payload_frames q b) = data_contents b) as ->; [|by apply collected_data].
  unfold payload_frames, data_contents. destruct (_ <=? _); [done|]. by rewrite map_map.
Qed.

Lemma adds_call q call :
  adds q [mkCall q call] (option_list (call_InlineData call)).
Proof.
  intros cs xs _ H. cbn. unfold req_part, mkCall. cbn.
  destruct (call_InlineData call); cbn; [by apply collected_message|].
  rewrite app_nil_r. by apply collected_none.
Qed.

Lemma adds_payloads q bs : adds q (concat (map (payload_frames q) bs)) bs.
Proof.
  induction bs as [|b bs IH]; [apply adds_nil|]. apply (adds_app _ _ _ [b] bs); [apply adds_payload|done].
Qed.

Lemma payload_stream_frames q b : int32 q = q → stream_frames q (payload_frames q b).
Proof.
  intros Hq. unfold payload_frames, stream_frames. destruct (_ <=? _).
  - apply Forall_singleton. by split; [|intros []].
  - apply Forall_map, Forall_true. intros c. by split; [|intros []].
Qed.

(** What an operation does to the client. *)
Inductive effect (c : client) (l : nat) (bs : list bytes) : client → Prop :=
  | eff_open q call fs c1 c' method :
      RpcClient.openStream method c = (l, q, c1) → call_Method call = method →
      c' = foldl (λ c f, sendFrame f c) c1 (mkCall q call :: fs) →
      stream_frames q fs → adds q (mkCall q call :: fs) bs → effect c l bs c'
  | eff_send q fs c' :
      (l < cl_next c)%nat → q = seq_at l → c' = foldl (λ c f, sendFrame f c) c fs →
      stream_frames q fs → adds q fs bs → effect c l bs c'
  | eff_none : bs = [] → effect c l bs c
  | eff_pop cs r rest :
      bs = [] → cl_heap c !! l = Some cs → cs_inbound cs = r :: rest →
      effect c l bs (RpcClient.update l (RpcClient.with_inbound rest) c)
  | eff_cleanup seq : bs = [] → effect c l bs (cleanupStream seq c).

Lemma request_effect c l q call req c1 method :
  int32 q = q → RpcClient.openStream method c = (l, q, c1) → call_Method call = method →
  (call_InlineData call = Some req ∨ call_InlineData call = None) →
  effect c l [req] (send_request q call req c1).
Proof.
  intros Hq Ho Hm Hin. rewrite send_request_frames. unfold request_frames.
  set (ps := match call_InlineData call with None => _ | Some _ => _ end).
  apply (eff_open _ _ _ q call (ps ++ [mkReqEnd q close_send]) c1 _ method Ho Hm); [done| |].
  - apply Forall_app; split; [|apply Forall_singleton; by split; [|intros []]].
    unfold ps. destruct (call_InlineData call); [done|]. by apply payload_stream_frames.
  - assert ([req] = (option_list (call_InlineData call) ++
              match call_InlineData call with None => [req] | Some _ => [] end) ++ []) as ->.
    { by destruct Hin as [-> | ->]. }
    apply (adds_app q (mkCall q call :: ps)); [|by apply adds_none].
    apply (adds_app q [mkCall q call]); [apply adds_call|]. unfold ps.
    destruct (call_InlineData call); [apply adds_nil|apply adds_payload].
Qed.

Lemma inline_cases req :
  (if len req <=? InlineMax then copy_bytes req else None) = Some req ∨
  (if len req <=? InlineMax then copy_bytes req else None) = None.
Proof. destruct (_ <=? _); [|by right]. destruct req; [by right|by left]. Qed.

Lemma known_stream c l cs : CInv c → cl_heap c !! l = Some cs → (l < cl_next c)%nat ∧ cs_seq cs = seq_at l.
Proof. intros Hc Hl. destruct (ci_heap _ Hc _ _ Hl) as [? [? _ _]]. done. Qed.

Lemma client_op_effect c l bs c' : CInv c → client_op c l bs c' → effect c l bs c'.
Proof.
  intros Hc. destruct 1 as [ctx method req l q c' H|ctx method req hdr s st c' H
    |ctx method first hdr s st c' H|s b c' H|s s' c' H|ctx l w o c' H|ctx l w o c' H|ctx l c' H|l seq].
  - unfold invokeUnary_open in H. destruct (RpcClient.openStream method c) as [[l0 q0] c1] eqn:Ho.
    injection H as -> -> <-. destruct (openStream_value _ _ _ _ _ Ho Hc) as (-> & Hq & _).
    eapply request_effect; [rewrite Hq; apply seq_at_int32|exact Ho|reflexivity|apply inline_cases].
  - unfold InvokeServerStreaming in H. destruct (RpcClient.openStream method c) as [[l0 q0] c1] eqn:Ho.
    injection H as <- _ <-. destruct (openStream_value _ _ _ _ _ Ho Hc) as (-> & Hq & _).
    eapply request_effect; [rewrite Hq; apply seq_at_int32|exact Ho|reflexivity|apply inline_cases].
  - destruct (RpcClient.openStream method c) as [[l0 q0] c1] eqn:Ho.
    assert (st = OK) as -> by (unfold InvokeClientStreaming in H; rewrite Ho in H; by injection H).
    destruct (client_streaming_sends _ _ _ _ _ _ _ _ _ _ H Ho) as [-> ->].
    destruct (openStream_value _ _ _ _ _ Ho Hc) as (-> & Hq & _).
    eapply (eff_open _ _ _ _ (client_streaming_call ctx method first hdr)); [exact Ho|reflexivity|reflexivity| |].
    + apply Forall_concat, Forall_map, Forall_true. intros b.
      apply payload_stream_frames. rewrite Hq. apply seq_at_int32.
    + rewrite <- first_split. apply (adds_app _ [_]); [apply adds_call|apply adds_payloads].
  - unfold Stream_Send in H. destruct (cl_heap c !! str_cs s) as [cs|] eqn:Hs; [|done].
    injection H as <-. destruct (known_stream _ _ _ Hc Hs) as [Hl Hq]. rewrite sendPayload_frames.
    eapply (eff_send _ _ _ (cs_seq cs)); [done|done|reflexivity| |apply adds_payload].
    apply payload_stream_frames. rewrite Hq. apply seq_at_int32.
  - unfold CloseSend in H. destruct (str_closed s); [injection H as _ <-; by apply eff_none|].
    destruct (cl_heap c !! str_cs s) as [cs|] eqn:Hs; injection H as _ <-; [|by apply eff_none].
    destruct (known_stream _ _ _ Hc Hs) as [Hl Hq].
    apply (eff_send _ _ _ (cs_seq cs) [mkReqEnd (cs_seq cs) close_send]); [done|done|done| |by apply adds_none].
    apply Forall_singleton. split; [|by intros []]. rewrite Hq. apply seq_at_int32.
  - apply unary_select_inv in H as [->|(cs & r & rest & Hs & Hin & ->)];
      [by apply eff_none|by eapply eff_pop].
  - apply Stream_Recv_inv in H as [->|(cs & r & rest & Hs & Hin & ->)];
      [by apply eff_none|by eapply eff_pop].
  - unfold watchCancel in H. destruct (cl_heap c !! l) as [cs|] eqn:Hs; [|by apply elem_of_nil in H].
    destruct (known_stream _ _ _ Hc Hs) as [Hl Hq]. apply elem_of_app in H as [H|H].
    + destruct ctx; [|by apply elem_of_nil in H]. apply list_elem_of_singleton in H as ->.
      apply (eff_send _ _ _ (cs_seq cs) [mkReqEnd (cs_seq cs) cancel_end]); [done|done|done| |by apply adds_none].
      apply Forall_singleton. split; [|by intros []]. rewrite Hq. apply seq_at_int32.
    + destruct (cs_end cs); [|by apply elem_of_nil in H].
      apply list_elem_of_singleton in H as ->. by apply eff_none.
  - by apply eff_cleanup.
Qed.

(** ** What the application has sent *)

Record Sends (c : client) (sent : record) : Prop := {
  se_called q : called (reqs_of q (cl_sent c));
  se_has l : (l < cl_next c)%nat → reqs_of (seq_at l) (cl_sent c) ≠ [];
  se_opened q : reqs_of q (cl_sent c) ≠ [] → ∃ l, (l < cl_next c)%nat ∧ q = seq_at l;
  se_sent l : (l < cl_next c)%nat → collected (seq_at l) (req_parts (seq_at l) (cl_sent c)) (sent l) None;
  se_fresh l : (cl_next c ≤ l)%nat → sent l = [] }.

Lemma note_same r l bs : note r l bs l = r l ++ bs.
Proof. unfold note. by rewrite decide_True. Qed.

Lemma note_other r l bs l' : l' ≠ l → note r l bs l' = r l'.
Proof. intros H. unfold note. by rewrite decide_False. Qed.

Lemma note_nil r l l' : note r l [] l' = r l'.
Proof. unfold note. case_decide; [by subst; rewrite app_nil_r|done]. Qed.

Lemma called_app fs gs q : called fs → fs ≠ [] → stream_frames q gs → called (fs ++ gs).
Proof.
  destruct fs as [|f fs]; [done|]. intros [Hf Hfs] _ Hgs. split; [done|].
  apply Forall_app; split; [done|]. eapply Forall_impl; [exact Hgs|]. by intros g [_ ?].
Qed.

Lemma stream_frames_of q fs : stream_frames q fs → reqs_of q fs = fs ∧ ∀ q', q' ≠ q → reqs_of q' fs = [].
Proof.
  intros H. assert (Forall (λ f, req_seq f = q) fs) as H'.
  { eapply Forall_impl; [exact H|]. by intros f [? _]. }
  split; [by apply reqs_of_all|]. intros q' Hne. by eapply reqs_of_none.
Qed.

Lemma collected_nonempty q cs xs e : collected q cs xs e → xs ≠ [] → cs ≠ [].
Proof. intros (r & H & _) Hne ->. cbn in H. by injection H as <- _. Qed.

Lemma seq_at_inj l l' : (l < max_streams)%nat → (l' < max_streams)%nat → seq_at l = seq_at l' → l = l'.
Proof.
  unfold max_streams. intros H H' E. destruct (decide (l = l')) as [|Hne]; [done|]. exfalso.
  destruct (decide (l < l')%nat) as [Hlt|Hlt].
  - eapply seq_at_distinct; [exact Hlt| |exact E]. change (2 ^ 30) with 1073741824. lia.
  - eapply (seq_at_distinct l' l); [lia| |by symmetry]. change (2 ^ 30) with 1073741824. lia.
Qed.

Lemma Sends_send c sent l q fs bs :
  Sends c sent → (l < cl_next c)%nat → (cl_next c ≤ max_streams)%nat → q = seq_at l →
  stream_frames q fs → adds q fs bs → Forall small bs →
  Sends (foldl (λ c f, sendFrame f c) c fs) (note sent l bs).
Proof.
  intros [Hca Hha Hop Hse Hfr] Hl Hmax -> Hfs Hadd Hbs. rewrite foldl_sendFrame.
  destruct (stream_frames_of _ _ Hfs) as [Hown Hother].
  assert (∀ q', q' ≠ seq_at l → reqs_of q' (cl_sent c ++ fs) = reqs_of q' (cl_sent c)) as Hsame.
  { intros q' Hne. by rewrite reqs_of_app, Hother, app_nil_r by done. }
  split; cbn [cl_sent cl_next].
  - intros q'. destruct (decide (q' = seq_at l)) as [->|Hne]; [|by rewrite Hsame].
    rewrite reqs_of_app, Hown. eapply called_app; [apply Hca|by apply Hha|exact Hfs].
  - intros l' Hl'. rewrite reqs_of_app. intros [H _]%app_eq_nil. by apply (Hha l').
  - intros q'. destruct (decide (q' = seq_at l)) as [->|Hne]; [by exists l|]. rewrite Hsame by done. apply Hop.
  - intros l' Hl'. destruct (decide (l' = l)) as [->|Hne].
    + rewrite note_same, req_parts_app. unfold req_parts at 2. rewrite Hown. by apply Hadd, Hse.
    + rewrite note_other by done. unfold req_parts. rewrite Hsame; [by apply Hse|].
      intros E. apply Hne, seq_at_inj; [lia|lia|done].
  - intros l' Hl'. rewrite note_other by lia. by apply Hfr.
Qed.

Lemma Sends_open c sent l q c1 method call fs bs :
  CInv c → Sends c sent → RpcClient.openStream method c = (l, q, c1) → (cl_next c < max_streams)%nat →
  stream_frames q fs → adds q (mkCall q call :: fs) bs → Forall small bs →
  Sends (foldl (λ c f, sendFrame f c) c1 (mkCall q call :: fs)) (note sent l bs).
Proof.
  intros Hc [Hca Hha Hop Hse Hfr] Ho Hmax Hfs Hadd Hbs.
  destruct (openStream_value _ _ _ _ _ Ho Hc) as (-> & -> & _ & Hn & _ & Hsent & _).
  set (l := cl_next c) in *. set (q := seq_at l) in *.
  rewrite foldl_sendFrame. rewrite Hsent, Hn.
  assert (req_seq (mkCall q call) = q) as Hq by apply seq_at_int32.
  destruct (stream_frames_of _ _ Hfs) as [Hown Hother].
  assert (reqs_of q (mkCall q call :: fs) = mkCall q call :: fs) as Hown1.
  { unfold reqs_of in *. by rewrite filter_cons_True, Hown. }
  assert (∀ q', q' ≠ q → reqs_of q' (mkCall q call :: fs) = []) as Hother1.
  { intros q' Hne. unfold reqs_of in *. rewrite filter_cons_False by congruence. by apply Hother. }
  assert (reqs_of q (cl_sent c) = []) as Hnew.
  { destruct (reqs_of q (cl_sent c)) eqn:E; [done|]. destruct (Hop q) as (l' & Hl' & Heq); [by rewrite E|].
    apply seq_at_inj in Heq; unfold l in *; lia. }
  assert (∀ q', q' ≠ q → reqs_of q' (cl_sent c ++ mkCall q call :: fs) = reqs_of q' (cl_sent c)) as Hsame.
  { intros q' Hne. by rewrite reqs_of_app, Hother1, app_nil_r by done. }
  split; cbn [cl_sent cl_next].
  - intros q'. destruct (decide (q' = q)) as [->|Hne]; [|by rewrite Hsame].
    rewrite reqs_of_app, Hnew, Hown1. split; [done|]. eapply Forall_impl; [exact Hfs|]. by intros g [_ ?].
  - intros l' Hl'. rewrite reqs_of_app. intros [H H']%app_eq_nil.
    destruct (decide (l' = l)) as [->|]; [fold q in H'; by rewrite Hown1 in H'|]. apply (Hha l'); [lia|done].
  - intros q'. destruct (decide (q' = q)) as [->|Hne]; [exists l; split; [lia|done]|]. rewrite Hsame by done.
    intros H. destruct (Hop q' H) as (l' & ? & ?). exists l'. split; [lia|done].
  - intros l' Hl'. destruct (decide (l' = l)) as [->|Hne].
    + rewrite note_same, (Hfr l) by lia. unfold req_parts. fold q. rewrite reqs_of_app, Hnew, Hown1.
      apply (Hadd [] []); [done|apply collected_nil].
    + rewrite note_other by done. unfold req_parts. rewrite Hsame; [apply Hse; lia|].
      intros E. apply Hne, seq_at_inj; unfold l in *; lia || done.
  - intros l' Hl'. rewrite note_other by lia. apply Hfr. lia.
Qed.

(** Only the frames sent and the streams opened matter. *)
Lemma Sends_same c c' sent sent' :
  Sends c sent → cl_sent c' = cl_sent c → cl_next c' = cl_next c → (∀ l, sent' l = sent l) → Sends c' sent'.
Proof.
  intros [H1 H2 H3 H4 H5] Es En E. split; rewrite ?Es, ?En; try done.
  - intros l Hl. rewrite E. by apply H4.
  - intros l Hl. rewrite E. by apply H5.
Qed.
