(* ===== verification/ConnectionServer.v ===== *)
(** * Connection: what the handlers have received and sent

    [Gets]: what the frames taken so far have completed is in the handler's
    hands or in its queue.  [Gives]: what the handler has sent is what its
    frames say.  Both are kept by every step of the server. *)

From Stdlib Require Import Strings.Byte ZArith Lia.
From stdpp Require Import numbers strings gmap fin_maps relations list.
From S2P Require Import Prelude Status Messages Transport Chunks Channel RpcServer RpcServerRun RpcServerSafety RpcServerProps RpcClient RpcClientProps EndToEnd Payloads StreamEnd UploadEnd Connection ConnectionSend.
Open Scope Z_scope.

(** ** The steps of the handlers *)

(** Frames of the server: a [Begin] carries no message. *)
Definition plain (f : ResponseFrame) : Prop :=
  int32 (rf_seq f) = rf_seq f ∧
  match rf_Type f with
  | Some (ResponseFrame_Begin (Some b)) => begin_InlineData b = None
  | _ => True
  end.

(** Frames of one stream that add these messages to those it has sent. *)
Record writes (q : Z) (fs : list ResponseFrame) (bs : list bytes) : Prop := {
  wr_seq : Forall (λ f, rf_seq f = q) fs;
  wr_plain : Forall plain fs;
  wr_adds cs xs : Forall small bs → collected q cs xs None →
    collected q (cs ++ map resp_content fs) (xs ++ bs) None }.

Lemma writes_nil q : writes q [] [].
Proof. split; [constructor..|]. intros cs xs _ H. by rewrite !app_nil_r. Qed.

Lemma writes_app q fs gs bs ds : writes q fs bs → writes q gs ds → writes q (fs ++ gs) (bs ++ ds).
Proof.
  intros [S1 P1 A1] [S2 P2 A2]. split; [by apply Forall_app|by apply Forall_app|].
  intros cs xs [Hb Hd]%Forall_app H. rewrite map_app, !app_assoc. by apply A2, A1.
Qed.

Lemma writes_none q f : plain f → rf_seq f = q → resp_content f = None → writes q [f] [].
Proof.
  intros Hp Hs Hc. split; [by apply Forall_singleton..|].
  intros cs xs _ H. cbn. rewrite Hc, app_nil_r. by apply collected_none.
Qed.

Lemma writes_end q e : int32 q = q → writes q [mkEnd q e] [].
Proof.
  intros Hq. destruct (rf_seq_mk q Hq) as (_ & _ & He). apply writes_none; [|apply He|done].
  split; [by rewrite He|done].
Qed.

Lemma writes_begin q s : int32 q = q → writes q (begin_frames q s) [].
Proof.
  intros Hq. destruct (rf_seq_mk q Hq) as (Hb & _). unfold begin_frames.
  destruct (st_headerSent s); [apply writes_nil|]. apply writes_none; [|apply Hb|done].
  split; [by rewrite Hb|done].
Qed.

Lemma writes_data q b : int32 q = q → writes q (data_frames q b) [b].
Proof.
  intros Hq. split; [by apply data_frames_seq| |].
  - pose proof (data_frames_seq q b Hq) as H. destruct (rf_seq_mk q Hq) as (_ & Hd & _).
    assert (∀ c, plain (mkData q c)) as Hp by (intros c; split; [by rewrite Hd|done]).
    unfold data_frames. destruct (_ <=? _); [by apply Forall_singleton|].
    apply Forall_map, Forall_true. intros c. apply Hp.
  - intros cs xs [Hb _]%Forall_cons H. rewrite data_frames_contents. by apply collected_data.
Qed.

(** A stream after a step of its handler. *)
Record handled (m m' : mux) (l : nat) (s s' : stream) (fs : list ResponseFrame) : Prop := {
  ha_heap : m_heap m' = <[l := s']> (m_heap m);
  ha_seq : ss_seq s' = ss_seq s;
  ha_timeout : ss_timeout s' = ss_timeout s;
  ha_reasm : m_reasm m' = m_reasm m;
  ha_next : m_next m' = m_next m;
  ha_out : m_out m' = m_out m ++ fs;
  ha_queue : popped (ss_inbound s) (ss_inbound s') ++ ss_inbound s' = ss_inbound s;
  ha_streams : (m_streams m' = m_streams m ∧ ss_ctx s' = ss_ctx s) ∨
               (m_streams m' = delete (ss_seq s) (m_streams m) ∧ ss_ctx s' ≠ None) }.

Lemma popped_all {A} (q : list A) : popped q q = [].
Proof. unfold popped. by rewrite Nat.sub_diag. Qed.

Lemma popped_one {A} (x : A) q : popped (x :: q) q = [x].
Proof. unfold popped. cbn [length]. replace (S (length q) - length q)%nat with 1%nat by lia. done. Qed.

Lemma handled_update m l s g t :
  m_heap m !! l = Some s → ss_seq (g s) = ss_seq s → ss_timeout (g s) = ss_timeout s →
  ss_ctx (g s) = ss_ctx s → popped (ss_inbound s) (ss_inbound (g s)) ++ ss_inbound (g s) = ss_inbound s →
  handled m (set_thread l t (RpcServer.update l g m)) l s (g s) [].
Proof.
  intros Hs Hq Ht Hc Hin. split; try done; cbn.
  - by apply alter_Some.
  - by rewrite app_nil_r.
  - by left.
Qed.

Lemma handled_same m l s t : m_heap m !! l = Some s → handled m (set_thread l t m) l s s [].
Proof.
  intros Hs. split; try done; cbn.
  - by rewrite insert_id.
  - by rewrite app_nil_r.
  - by rewrite popped_all.
  - by left.
Qed.

Lemma finish_handled m used l s st r m' :
  up m → Inv m used → m_threads m !! l = Some (Running (Return st)) → m_heap m !! l = Some s →
  (r, m') ∈ finish l s st m →
  ∃ s' fs, handled m m' l s s' fs ∧ writes (ss_seq s) fs [].
Proof.
  intros Hup Hinv Ht Hs. unfold finish. destruct (inv_heap _ _ Hinv _ _ Hs) as (_ & _ & Hi).
  set (e := {| end_CloseSend := _; end_Status := _; end_Trailer := _ |}).
  destruct (lookup_own _ _ _ _ Hinv Hs) as [Hl|Hl].
  - rewrite (endStream_up_some _ e _ _ _ Hup Hl Hs), bind_one, write_outs_spec.
    intros [= -> ->]%list_elem_of_singleton.
    exists (cancel_ctx Canceled (with_headerSent s)), (begin_frames (ss_seq s) s ++ [mkEnd (ss_seq s) e]).
    split; [|apply (writes_app _ _ _ [] []); [by apply writes_begin|by apply writes_end]].
    split; try done; cbn.
    + rewrite (alter_Some with_headerSent _ _ s) by done.
      rewrite (alter_Some _ _ _ (with_headerSent s)) by by rewrite lookup_insert, decide_True.
      by rewrite insert_insert, decide_True.
    + by rewrite popped_all.
    + right. split; [done|]. by destruct (ss_ctx s).
  - rewrite (endStream_up_none _ e _ Hup Hl), bind_one. intros [= -> ->]%list_elem_of_singleton.
    exists (cancel_ctx Canceled s), [mkEnd (ss_seq s) e]. split; [|by apply writes_end].
    split; try done; cbn.
    + by apply alter_Some.
    + by rewrite popped_all.
    + right. split; [by rewrite delete_id|]. by destruct (ss_ctx s).
Qed.

Lemma Send_handled m used l s b k r m' :
  up m → Inv m used → m_threads m !! l = Some (Running (RpcServer.Send b k)) → m_heap m !! l = Some s →
  (r, m') ∈ handler_step l m →
  ∃ s' fs, handled m m' l s s' fs ∧ writes (ss_seq s) fs (wrote m m' l).
Proof.
  intros Hup Hinv Ht Hs. unfold handler_step, wrote. rewrite Ht, Hs.
  destruct (inv_heap _ _ Hinv _ _ Hs) as (_ & _ & Hi).
  destruct (lookup_own _ _ _ _ Hinv Hs) as [Hl|Hl].
  - rewrite stream_Send_up with (s := s), bind_one, write_outs_spec by done.
    intros [= -> ->]%list_elem_of_singleton.
    exists (with_headerSent s), (begin_frames (ss_seq s) s ++ data_frames (ss_seq s) b).
    assert (data_frames (ss_seq s) b ≠ []) as Hne.
    { unfold data_frames. destruct (Z.leb_spec (len b) MessageMax) as [|Hgt]; [done|].
      intros E%map_eq_nil. pose proof (fragment_concat ChunkSize b eq_refl) as Hc. rewrite E in Hc.
      cbn in Hc. subst b. done. }
    assert ((length (m_out m) <? length (m_out m ++ begin_frames (ss_seq s) s ++ data_frames (ss_seq s) b))%nat = true)
      as Hlt.
    { apply Nat.ltb_lt. rewrite !length_app. destruct (data_frames _ b); [done|]. cbn. lia. }
    cbn [m_out set_thread set_threads]. rewrite Hlt.
    split; [|apply (writes_app _ _ _ [] [b]); [by apply writes_begin|by apply writes_data]].
    split; try done; cbn; [by apply alter_Some|by rewrite popped_all|by left].
  - rewrite stream_Send_gone with (s := s), bind_one by done. intros [= -> ->]%list_elem_of_singleton.
    exists s, []. cbn [m_out set_thread set_threads]. rewrite Nat.ltb_irrefl. split; [by apply handled_same|apply writes_nil].
Qed.

Lemma handler_handled m used l m' :
  up m → hdr_clear m → Inv m used → (FHandled, m') ∈ handler_step l m →
  ∃ s s' fs, m_heap m !! l = Some s ∧ handled m m' l s s' fs ∧ writes (ss_seq s) fs (wrote m m' l).
Proof.
  intros Hup Hc Hinv Hin.
  destruct (m_threads m !! l) as [t|] eqn:Ht;
    [|unfold handler_step in Hin; rewrite Ht in Hin; by apply elem_of_nil in Hin].
  destruct (inv_threads _ _ Hinv l) as [s Hs]; [by exists t|]. exists s.
  destruct t as [[st|k|b k|kv k|kv k|k|k]|k].
  3: by destruct (Send_handled _ _ _ _ _ _ _ _ Hup Hinv Ht Hs Hin) as (s' & fs & H); exists s', fs.
  all: unfold wrote; rewrite Ht; unfold handler_step in Hin; rewrite Ht, Hs in Hin.
  - destruct (finish_handled _ _ _ _ _ _ _ Hup Hinv Ht Hs Hin) as (s' & fs & H). by exists s', fs.
  - destruct (ss_inbound s) as [|b rest] eqn:Hq; apply list_elem_of_singleton in Hin as [= ->].
    + exists s, []. split; [done|]. split; [by apply handled_same|apply writes_nil].
    + eexists _, []. split; [done|]. split; [|apply writes_nil].
      apply handled_update; try done. cbn. by rewrite Hq, popped_one.
  - unfold stream_SetHeader in Hin. rewrite (Hc l s Hs) in Hin.
    apply list_elem_of_singleton in Hin as [= ->]. eexists _, []. split; [done|]. split; [|apply writes_nil].
    apply (handled_update m l s (λ _, with_hdr (SetHeader (ss_hdr s) kv) s)); try done. cbn. by rewrite popped_all.
  - apply list_elem_of_singleton in Hin as [= ->]. eexists _, []. split; [done|]. split; [|apply writes_nil].
    apply handled_update; try done. cbn. by rewrite popped_all.
  - apply list_elem_of_singleton in Hin as [= ->]. exists s, []. split; [done|].
    split; [by apply handled_same|apply writes_nil].
  - apply list_elem_of_singleton in Hin as [= ->]. exists s, []. split; [done|].
    split; [by apply handled_same|apply writes_nil].
  - apply elem_of_app in Hin as [Hin|[Hin|Hin]%elem_of_app].
    + destruct (ss_inbound s) as [|b rest] eqn:Hq; [by apply elem_of_nil in Hin|].
      apply list_elem_of_singleton in Hin as [= ->]. eexists _, []. split; [done|]. split; [|apply writes_nil].
      apply handled_update; try done. cbn. by rewrite Hq, popped_one.
    + destruct (ss_halfClose s); [|by apply elem_of_nil in Hin].
      apply list_elem_of_singleton in Hin as [= ->]. exists s, []. split; [done|].
      split; [by apply handled_same|apply writes_nil].
    + destruct (ss_ctx s); [|by apply elem_of_nil in Hin].
      apply list_elem_of_singleton in Hin as [= ->]. exists s, []. split; [done|].
      split; [by apply handled_same|apply writes_nil].
Qed.

(** ** What the handlers have got *)

(** The messages [xs] that the frames taken so far have completed, what the
    handler has received of them, and its queue.  Messages are lost only when
    the deadline of the stream has passed: [deliverPayload] may then drop them. *)
Record got_ok (streams : gmap Z nat) (l : nat) (s : stream) (g xs : list bytes) : Prop := {
  go_sublist : g ++ ss_inbound s `sublist_of` xs;
  go_prefix : ss_ctx s = None ∨ ss_timeout s ≤ 0 → g ++ ss_inbound s `prefix_of` xs;
  go_live : ss_ctx s = None → streams !! ss_seq s = Some l ∧ g ++ ss_inbound s = xs;
  go_deadline : streams !! ss_seq s = Some l → ss_ctx s = None ∨ 0 < ss_timeout s }.

Record Gets (taken : list Frame) (m : mux) (used : gset Z) (got : record) : Prop := {
  ge_used q : q ∈ used → reqs_of q taken ≠ [];
  ge_parts q : ∃ xs, collected q (req_parts q taken) xs (m_reasm m !! q) ∧
    ∀ l s, m_heap m !! l = Some s → ss_seq s = q → got_ok (m_streams m) l s (got l) xs;
  ge_fresh l : (m_next m ≤ l)%nat → got l = [] }.

Lemma Gets_handler taken m m' used got l s s' fs :
  Inv m used → m_heap m !! l = Some s → handled m m' l s s' fs → Gets taken m used got →
  Gets taken m' used (note got l (popped (server_queue m l) (server_queue m' l))).
Proof.
  intros Hinv Hs [Eh Eq Et Er En Eo Equeue Est] [Hu Hp Hf].
  assert (server_queue m l = ss_inbound s) as -> by (unfold server_queue; by rewrite Hs).
  assert (server_queue m' l = ss_inbound s') as ->.
  { unfold server_queue. by rewrite Eh, lookup_insert, decide_True. }
  assert (∀ l1 s1, m_heap m !! l1 = Some s1 → l1 ≠ l → m_streams m' !! ss_seq s1 = m_streams m !! ss_seq s1) as Hother.
  { intros l1 s1 Hs1 Hne. destruct Est as [[-> _]|[-> _]]; [done|]. rewrite lookup_delete_ne; [done|].
    intros E. by apply Hne, (inv_inj _ _ Hinv _ _ s1 s). }
  split; [exact Hu| |].
  - intros q. rewrite Er. destruct (Hp q) as (xs & Hc & Hok). exists xs. split; [done|].
    intros l1 s1 Hs1 Hq1. rewrite Eh in Hs1. apply lookup_insert_Some in Hs1 as [[<- <-]|[Hne Hs1]].
    + rewrite Eq in Hq1. pose proof (Hok l s Hs Hq1) as [O1 O2 O3 O4].
      assert (note got l (popped (ss_inbound s) (ss_inbound s')) l ++ ss_inbound s' = got l ++ ss_inbound s) as Hall.
      { by rewrite note_same, <- app_assoc, Equeue. }
      destruct Est as [[Es Ec]|[Es Ec]].
      * split; rewrite ?Hall, ?Es, ?Eq, ?Et, ?Ec; done.
      * split; rewrite ?Hall, ?Es, ?Eq, ?Et; [done| |done|].
        -- intros [?|?]; [done|]. by apply O2; right.
        -- by rewrite lookup_delete, decide_True.
    + rewrite note_other by done. destruct (Hok l1 s1 Hs1 Hq1) as [O1 O2 O3 O4].
      split; [done|done|..]; by rewrite (Hother l1 s1).
  - intros l1 Hl1. rewrite En in Hl1. pose proof (inv_heap _ _ Hinv _ _ Hs) as [? _].
    rewrite note_other by lia. by apply Hf.
Qed.

(** A frame of the stream [q] has been taken: what remains to be shown is about
    that stream. *)
Lemma Gets_frame taken m m' used used' got f q :
  Gets taken m used got → req_seq f = q → used' ⊆ {[q]} ∪ used → (m_next m ≤ m_next m')%nat →
  (∀ q', q' ≠ q → m_reasm m' !! q' = m_reasm m !! q' ∧ m_streams m' !! q' = m_streams m !! q') →
  (∀ l s, m_heap m' !! l = Some s → ss_seq s ≠ q → m_heap m !! l = Some s) →
  (∀ xs, collected q (req_parts q taken) xs (m_reasm m !! q) →
    (∀ l s, m_heap m !! l = Some s → ss_seq s = q → got_ok (m_streams m) l s (got l) xs) →
    ∃ xs', collected q (req_parts q taken ++ [req_part f]) xs' (m_reasm m' !! q) ∧
      ∀ l s, m_heap m' !! l = Some s → ss_seq s = q → got_ok (m_streams m') l s (got l) xs') →
  Gets (taken ++ [f]) m' used' got.
Proof.
  intros [Hu Hp Hf] Hq Hused Hn Hother Hheap Hown.
  assert (reqs_of q [f] = [f]) as Ef by (apply reqs_of_all; by apply Forall_singleton).
  split.
  - intros q1 [->%elem_of_singleton|H1]%Hused%elem_of_union; rewrite reqs_of_app; intros [H H']%app_eq_nil.
    + by rewrite Ef in H'.
    + by apply (Hu q1).
  - intros q1. rewrite req_parts_app. destruct (decide (q1 = q)) as [->|Hne].
    + destruct (Hp q) as (xs & Hc & Hok). unfold req_parts at 2. rewrite Ef. by apply (Hown xs).
    + destruct (Hp q1) as (xs & Hc & Hok). destruct (Hother q1 Hne) as [-> Es]. exists xs.
      assert (req_parts q1 [f] = []) as ->.
      { unfold req_parts. rewrite (reqs_of_none q1 q [f]); [done|done|by apply Forall_singleton]. }
      rewrite app_nil_r. split; [done|]. intros l s Hs Hs1.
      destruct (Hok l s) as [O1 O2 O3 O4]; [apply Hheap; [done|congruence]|done|].
      split; [done|done|..]; by rewrite Hs1, Es, <- Hs1.
  - intros l Hl. apply Hf. lia.
Qed.

(** *** A call *)

Lemma rejected_call taken m used got f q e :
  Inv m used → q ∉ used → req_seq f = q → is_call f → Gets taken m used got →
  Gets (taken ++ [f]) (write_out (mkEnd q e) m) ({[q]} ∪ used) got.
Proof.
  intros Hinv Hq Hf Hcall HG. apply (Gets_frame taken m _ used _ got f q); try done.
  intros xs Hc Hok.
  assert (∀ l s, m_heap m !! l = Some s → ss_seq s ≠ q) as Hnone.
  { intros l s Hs <-. by destruct (inv_heap _ _ Hinv _ _ Hs) as (_ & ? & _). }
  assert (∃ xs', collected q (req_parts q taken ++ [req_part f]) xs' (m_reasm m !! q)) as [xs' Hxs'].
  { unfold req_part, is_call in *. destruct (f_Type f) as [[[call|]|d|en]|]; try done.
    - destruct (call_InlineData call); eexists; cbn; [by apply collected_message|by apply collected_none].
    - eexists. by apply collected_none. }
  exists xs'. split; [done|]. intros l s Hs Hsq. by destruct (Hnone l s Hs).
Qed.

Lemma accepted_call taken m used got f q call t :
  up m → Inv m used → q ∉ used → req_seq f = q → f_Type f = Some (Frame_Call (Some call)) →
  reqs_of q taken = [] → Gets taken m used got →
  Gets (taken ++ [f])
    (set_thread (m_next m) t
       (RpcServer.update (m_next m) (RpcServer.with_inbound (call_inbound call))
          (add_stream q (call_stream q call) m))) ({[q]} ∪ used) got.
Proof.
  intros Hup Hinv Hq Hf Ht Htaken HG. apply (Gets_frame taken m _ used _ got f q); try done.
  - cbn. lia.
  - intros q' Hne. split; [done|]. cbn. by rewrite lookup_insert_ne.
  - cbn. intros l s Hs Hsq. apply lookup_alter_Some in Hs as [(<- & s0 & Hs0 & ->)|[Hne Hs]].
    + rewrite lookup_insert, decide_True in Hs0 by done. injection Hs0 as <-. by destruct Hsq.
    + by rewrite lookup_insert_ne in Hs.
  - intros xs Hc _. unfold req_parts in *. rewrite Htaken in *. cbn [map app] in *.
    destruct (collected_fun _ _ _ _ _ _ Hc (collected_nil q)) as [-> Hr].
    exists (call_inbound call). split.
    + unfold req_part, call_inbound. rewrite Ht. cbn. rewrite Hr.
      destruct (call_InlineData call) as [d|]; cbn;
        [apply (collected_message q [] []), collected_nil|apply (collected_none q [] []), collected_nil].
    + intros l s Hs Hsq. cbn in Hs. apply lookup_alter_Some in Hs as [(<- & s0 & Hs0 & ->)|[Hne Hs]].
      * rewrite lookup_insert, decide_True in Hs0 by done. injection Hs0 as <-.
        rewrite (ge_fresh _ _ _ _ HG) by done.
        split; cbn; [done|done| |by left]. intros _. by rewrite lookup_insert, decide_True.
      * rewrite lookup_insert_ne in Hs by done. destruct (inv_heap _ _ Hinv _ _ Hs) as (_ & Hu & _).
        by rewrite Hsq in Hu.
Qed.

Lemma handleFrame_call {Vals} (srv : @Server Vals) vals f call m :
  f_Type f = Some (Frame_Call (Some call)) → int32 (req_seq f) = req_seq f →
  handleFrame srv vals f m = handleFrame srv vals (mkCall (req_seq f) call) m.
Proof. intros Ht Hi. unfold handleFrame. rewrite Ht. cbn. by rewrite Hi. Qed.

Lemma serve_call {Vals} (srv : @Server Vals) vals taken m m' used got f :
  up m → Inv m used → req_seq f ∉ used → int32 (req_seq f) = req_seq f → is_call f →
  reqs_of (req_seq f) taken = [] → Gets taken m used got →
  (FHandled, m') ∈ handleFrame srv vals f m →
  Gets (taken ++ [f]) m' (opened f ∪ used) got ∧
  ((∃ e, m' = write_out (mkEnd (req_seq f) e) m) ∨
   (m_out m' = m_out m ∧ (m_next m ≤ m_next m')%nat ∧ ∀ l s, m_heap m' !! l = Some s →
      (l = m_next m ∧ ss_seq s = req_seq f) ∨ m_heap m !! l = Some s)).
Proof.
  intros Hup Hinv Hq Hi Hcall Htaken HG. set (q := req_seq f) in *.
  pose proof (lookup_unused _ _ _ Hinv Hq) as Hl. unfold opened.
  unfold is_call in Hcall. destruct (f_Type f) as [[[call|]|d|e]|] eqn:Ht; try done; fold (req_seq f); fold q.
  - destruct (findMethod srv (call_Method call)) as [md|] eqn:Hmd.
    + rewrite (handleFrame_call _ _ _ _ _ Ht Hi). fold q.
      rewrite (handles_call srv vals q call m md Hup Hi Hl Hmd).
      intros [= ->]%list_elem_of_singleton. split; [by apply accepted_call|]. right. split; [done|].
      split; [cbn; lia|]. cbn. intros l s Hs. apply lookup_alter_Some in Hs as [(<- & s0 & Hs0 & ->)|[Hne Hs]].
      * rewrite lookup_insert, decide_True in Hs0 by done. injection Hs0 as <-. by left.
      * rewrite lookup_insert_ne in Hs by done. by right.
    + unfold handleFrame. rewrite Ht. fold (req_seq f). fold q. unfold RpcServer.openStream. rewrite Hmd.
      rewrite endStream_up_none, bind_one by done. intros [= ->]%list_elem_of_singleton.
      split; [apply rejected_call; try done; by unfold is_call; rewrite Ht|left; by eexists].
  - unfold handleFrame. rewrite Ht. fold (req_seq f). fold q. unfold RpcServer.openStream.
    rewrite endStream_up_none, bind_one by done. intros [= ->]%list_elem_of_singleton.
    split; [apply rejected_call; try done; by unfold is_call; rewrite Ht|left; by eexists].
Qed.

(** *** The other frames *)

Lemma got_push streams l s g xs b :
  streams !! ss_seq s = Some l → got_ok streams l s g xs →
  got_ok streams l (RpcServer.with_inbound (ss_inbound s ++ [b]) s) g (xs ++ [b]).
Proof.
  intros Hreg [O1 O2 O3 O4]. split; cbn; rewrite ?app_assoc; [by apply sublist_app| | |done].
  - intros Hor. assert (ss_ctx s = None) as Hc.
    { destruct Hor as [?|?]; [done|]. destruct (O4 Hreg); [done|lia]. }
    destruct (O3 Hc) as [_ ->]. done.
  - intros Hc. destruct (O3 Hc) as [_ ->]. done.
Qed.

Lemma got_skip streams l s g xs bs :
  ss_ctx s ≠ None → (streams !! ss_seq s = Some l → 0 < ss_timeout s) → got_ok streams l s g xs →
  got_ok streams l s g (xs ++ bs).
Proof.
  intros Hc Hreg [O1 O2 O3 O4]. split; [by apply sublist_inserts_r| |done|done].
  intros [?|Ht]; [done|]. apply prefix_app_r. by apply O2; right.
Qed.

Lemma got_prefix_app streams l s g xs bs :
  streams !! ss_seq s ≠ Some l → got_ok streams l s g xs → got_ok streams l s g (xs ++ bs).
Proof.
  intros Hreg H. apply got_skip; [|done|done]. intros Hc. by destruct (go_live _ _ _ _ _ H Hc).
Qed.

(** What a frame that is no call leaves of the server. *)
Definition kept (m m' : mux) : Prop :=
  m_out m' = m_out m ∧ m_next m' = m_next m ∧
  ∀ l s', m_heap m' !! l = Some s' → ∃ s, m_heap m !! l = Some s ∧ ss_seq s' = ss_seq s.

Lemma kept_update m m0 l g :
  (∀ s, ss_seq (g s) = ss_seq s) → kept m m0 → kept m (RpcServer.update l g m0).
Proof.
  intros Hg (Ho & Hn & Hh). split; [done|]. split; [done|]. cbn.
  intros l1 s1 [(<- & s & Hs & ->)|[_ Hs]]%lookup_alter_Some; [|by apply Hh].
  destruct (Hh _ _ Hs) as (s0 & ? & E). exists s0. split; [done|by rewrite Hg].
Qed.

Lemma kept_refl m : kept m m.
Proof. split; [done|]. split; [done|]. intros l s Hs. by exists s. Qed.

Lemma kept_reasm m r : kept m (RpcServer.set_reasm r m).
Proof. apply (kept_refl m). Qed.

(** A message that the frame completes. *)
Lemma deliver_got taken m used got f q b r m' xs :
  Inv m used → Gets taken m used got → req_seq f = q → ¬ is_call f →
  (∀ q', q' ≠ q → r !! q' = m_reasm m !! q') →
  collected q (req_parts q taken) xs (m_reasm m !! q) →
  collected q (req_parts q taken ++ [req_part f]) (xs ++ [b]) (r !! q) →
  m' ∈ deliverPayload q b (RpcServer.set_reasm r m) →
  Gets (taken ++ [f]) m' used got ∧ kept m m'.
Proof.
  intros Hinv HG Hf Hcall Hr Hc0 Hc Hm'.
  assert (m_reasm m' = r ∧ m_streams m' = m_streams m ∧ kept m m' ∧
    (∀ l s, m_heap m' !! l = Some s → ss_seq s ≠ q → m_heap m !! l = Some s) ∧
    ∀ l s, m_heap m' !! l = Some s → ss_seq s = q →
      (∀ s0, m_heap m !! l = Some s0 → ss_seq s0 = q → got_ok (m_streams m) l s0 (got l) xs) →
      got_ok (m_streams m) l s (got l) (xs ++ [b])) as (Er & Es & Hk & Hother & Hown).
  { unfold deliverPayload in Hm'. unfold lookupStream in Hm'. cbn in Hm'.
    destruct (m_streams m !! q) as [l1|] eqn:Hl1.
    - destruct (inv_streams _ _ Hinv _ _ Hl1) as (_ & s1 & Hs1 & Hq1). rewrite Hs1 in Hm'.
      assert (∀ l s, m_heap m !! l = Some s → ss_seq s = q → l = l1) as Huniq.
      { intros l s Hs Hsq. by eapply (inv_inj _ _ Hinv _ _ s s1); [| |congruence]. }
      apply elem_of_app in Hm' as [Hm'|Hm'].
      + case_decide; [|by apply elem_of_nil in Hm']. apply list_elem_of_singleton in Hm' as ->.
        split_and!; [done|done|by apply kept_update, kept_reasm|..]; cbn.
        * intros l s [(<- & s0 & Hs0 & ->)|[_ Hs]]%lookup_alter_Some Hsq; [|done].
          rewrite Hs1 in Hs0. injection Hs0 as <-. done.
        * intros l s [(<- & s0 & Hs0 & ->)|[Hne Hs]]%lookup_alter_Some Hsq Hok.
          -- rewrite Hs1 in Hs0. injection Hs0 as <-. apply got_push; [by rewrite Hq1|by apply Hok].
          -- by destruct Hne; rewrite (Huniq l s Hs Hsq).
      + destruct (ss_ctx s1) as [e|] eqn:Hctx; [|by apply elem_of_nil in Hm'].
        apply list_elem_of_singleton in Hm' as ->.
        split_and!; [done|done|apply kept_reasm|done|]. cbn. intros l s Hs Hsq Hok.
        pose proof (Hok s Hs Hsq) as HO. assert (l = l1) as -> by by apply (Huniq l s).
        rewrite Hs1 in Hs. injection Hs as <-.
        apply got_skip; [by rewrite Hctx| |done]. intros Hreg.
        destruct (go_deadline _ _ _ _ _ HO Hreg) as [?|?]; [by rewrite Hctx in *|done].
    - apply list_elem_of_singleton in Hm' as ->. split_and!; [done|done|apply kept_reasm|done|].
      cbn. intros l s Hs Hsq Hok. apply got_prefix_app; [by rewrite Hsq, Hl1|by apply Hok]. }
  split; [|done]. destruct Hk as (_ & En & _). apply (Gets_frame taken m _ used _ got f q); try done.
  - set_solver.
  - by rewrite En.
  - intros q' Hne. rewrite Er, Es. split; [by apply Hr|done].
  - intros ys Hys Hok. destruct (collected_fun _ _ _ _ _ _ Hc0 Hys) as [<- _].
    exists (xs ++ [b]). rewrite Er, Es. split; [done|]. intros l s Hs Hsq. apply Hown; [done|done|].
    intros s0 Hs0 Hq0. by apply Hok.
Qed.

(** A frame that completes nothing and is not a call. *)
Lemma silent_frame taken m used got f q r xs :
  Gets taken m used got → req_seq f = q →
  (∀ q', q' ≠ q → r !! q' = m_reasm m !! q') →
  collected q (req_parts q taken) xs (m_reasm m !! q) →
  collected q (req_parts q taken ++ [req_part f]) xs (r !! q) →
  Gets (taken ++ [f]) (RpcServer.set_reasm r m) used got.
Proof.
  intros HG Hf Hr Hc0 Hc. apply (Gets_frame taken m _ used _ got f q); try done.
  - set_solver.
  - intros q' Hne. split; [by apply Hr|done].
  - intros ys Hys Hok. destruct (collected_fun _ _ _ _ _ _ Hc0 Hys) as [<- _]. by exists xs.
Qed.

Lemma serve_data taken m m' used got f d :
  Inv m used → int32 (req_seq f) = req_seq f → f_Type f = Some (Frame_Data d) →
  Gets taken m used got → (FHandled, m') ∈ deliverData (req_seq f) d m →
  Gets (taken ++ [f]) m' used got ∧ kept m m'.
Proof.
  intros Hinv Hi Ht HG. set (q := req_seq f) in *.
  assert (¬ is_call f) as Hcall by (unfold is_call; rewrite Ht; by intros []).
  destruct (ge_parts _ _ _ _ HG q) as (xs & Hc & _).
  assert (req_part f = match d with Some d => data_Content d | None => None end) as Hpart.
  { unfold req_part. by rewrite Ht. }
  assert (req_part f = None → (FHandled, m') ∈ [(FHandled, m)] → Gets (taken ++ [f]) m' used got ∧ kept m m') as Hnone.
  { intros Hp [= ->]%list_elem_of_singleton. split; [|apply kept_refl].
    replace m with (RpcServer.set_reasm (m_reasm m) m) by by destruct m.
    apply (silent_frame taken m used got f q _ xs); try done. rewrite Hp. by apply collected_none. }
  unfold deliverData. destruct d as [d|]; [|by apply Hnone].
  destruct (data_Content d) as [[b|ch]|]; [| |by apply Hnone].
  - intros (m1 & [= ->] & Hm1)%list_elem_of_fmap.
    apply (deliver_got taken m used got f q b (m_reasm m) m1 xs); try done.
    + rewrite Hpart. by apply collected_message.
    + by destruct m.
  - rewrite Hi. pose proof (λ q' Hne, Reassemble_other (m_reasm m) q' q (TotalSize ch) (Offset ch) (chunk_Data ch) Hne) as Hr.
    destruct (Reassembler.Reassemble _ _ _ _ _) as [o r] eqn:HR. cbn in Hr.
    destruct o as [o|e|s]; [|by intros ?%list_elem_of_singleton..].
    pose proof (collected_chunk q _ xs (m_reasm m) ch o r Hc HR) as Hc'. rewrite <- Hpart in Hc'.
    destruct o as [b|].
    + intros (m1 & [= ->] & Hm1)%list_elem_of_fmap.
      by apply (deliver_got taken m used got f q b r m1 xs).
    + intros [= ->]%list_elem_of_singleton. cbn in Hc'. rewrite app_nil_r in Hc'.
      split; [|apply kept_reasm]. by apply (silent_frame taken m used got f q r xs).
Qed.

Lemma serve_end taken m used got f e :
  Inv m used → f_Type f = Some (Frame_End e) → Gets taken m used got →
  Gets (taken ++ [f]) (handleEnd (req_seq f) e m) used got ∧ kept m (handleEnd (req_seq f) e m).
Proof.
  intros Hinv Ht HG. set (q := req_seq f). destruct (ge_parts _ _ _ _ HG q) as (xs & Hc & _).
  assert (req_part f = None) as Hp by (unfold req_part; by rewrite Ht).
  assert (Gets (taken ++ [f]) m used got ∧ kept m m) as Hsame.
  { split; [|apply kept_refl]. replace m with (RpcServer.set_reasm (m_reasm m) m) by by destruct m.
    apply (silent_frame taken m used got f q _ xs); try done. rewrite Hp. by apply collected_none. }
  unfold handleEnd. destruct e as [e|]; [|done].
  destruct (lookupStream q m) as [l1|] eqn:Hl1; [|done].
  destruct (inv_streams _ _ Hinv _ _ Hl1) as (_ & s1 & Hs1 & Hq1).
  destruct (end_CloseSend e).
  - split; [|by apply kept_update, kept_refl]. apply (Gets_frame taken m _ used _ got f q); try done.
    + set_solver.
    + cbn. intros l s [(<- & s0 & Hs0 & ->)|[_ Hs]]%lookup_alter_Some Hsq; [|done].
      rewrite Hs1 in Hs0. injection Hs0 as <-. done.
    + intros ys Hys Hok. exists ys. rewrite Hp. split; [by apply collected_none|]. cbn.
      intros l s [(<- & s0 & Hs0 & ->)|[_ Hs]]%lookup_alter_Some Hsq; [|by apply Hok].
      by destruct (Hok _ _ Hs0 Hsq).
  - split; [|by apply (kept_update m m l1), kept_refl].
    apply (Gets_frame taken m _ used _ got f q); try done.
    + set_solver.
    + cbn. intros q' Hne. by rewrite lookup_delete_ne.
    + cbn. intros l s [(<- & s0 & Hs0 & ->)|[_ Hs]]%lookup_alter_Some Hsq; [|done].
      rewrite Hs1 in Hs0. injection Hs0 as <-. done.
    + intros ys Hys Hok. exists ys. rewrite Hp. split; [by apply collected_none|]. cbn.
      intros l s Hs Hsq.
      assert (∃ s0, m_heap m !! l = Some s0 ∧ ss_seq s0 = q ∧ ss_inbound s = ss_inbound s0 ∧
                ss_timeout s = ss_timeout s0 ∧ ss_ctx s ≠ None) as (s0 & Hs0 & Hq0 & E1 & E2 & E3).
      { apply lookup_alter_Some in Hs as [(<- & s0 & Hs0 & ->)|[Hne Hs]].
        - exists s0. split_and!; try done. cbn. by destruct (ss_ctx s0).
        - exfalso. apply Hne. by eapply (inv_inj _ _ Hinv _ _ s1 s); [| |congruence]. }
      destruct (Hok _ _ Hs0 Hq0) as [O1 O2 O3 O4]. split; rewrite ?E1, ?E2, ?Hsq; try done.
      * intros [?|?]; [done|]. by apply O2; right.
      * by rewrite lookup_delete, decide_True.
Qed.

(** What the server has written is none of a frame's concern but a call's. *)
Lemma serve_other {Vals} (srv : @Server Vals) vals taken m m' used got f :
  Inv m used → int32 (req_seq f) = req_seq f → ¬ is_call f → Gets taken m used got →
  (FHandled, m') ∈ handleFrame srv vals f m →
  Gets (taken ++ [f]) m' (opened f ∪ used) got ∧ kept m m'.
Proof.
  intros Hinv Hi Hcall HG. unfold handleFrame, opened. fold (req_seq f).
  unfold is_call in Hcall. destruct (f_Type f) as [[call|d|e]|] eqn:Ht; [by destruct Hcall|..];
    rewrite (left_id_L ∅ _).
  - by apply serve_data.
  - intros [= ->]%list_elem_of_singleton. by apply serve_end.
  - intros [= ->]%list_elem_of_singleton. split; [|apply kept_refl].
    destruct (ge_parts _ _ _ _ HG (req_seq f)) as (xs & Hc & _).
    replace m with (RpcServer.set_reasm (m_reasm m) m) by by destruct m.
    apply (silent_frame taken m used got f (req_seq f) _ xs); try done.
    unfold req_part. rewrite Ht. by apply collected_none.
Qed.

(** ** What the handlers have sent *)

Record Gives (m : mux) (gave : record) : Prop := {
  gi_parts q : ∃ ys, collected q (resp_parts q (m_out m)) ys None ∧
    ∀ l s, m_heap m !! l = Some s → ss_seq s = q → gave l = ys;
  gi_plain : Forall plain (m_out m);
  gi_fresh l : (m_next m ≤ l)%nat → gave l = [] }.

Lemma resp_parts_own q fs : Forall (λ f, rf_seq f = q) fs → resp_parts q fs = map resp_content fs.
Proof. intros H. unfold resp_parts. by rewrite frames_of_all. Qed.

Lemma resp_parts_other q q' fs : q' ≠ q → Forall (λ f, rf_seq f = q) fs → resp_parts q' fs = [].
Proof. intros Hne H. unfold resp_parts. by rewrite (frames_of_none q' q). Qed.

(** More frames on one sequence, and its stream's record with them. *)
Lemma Gives_writes m m' gave gave' q fs bs :
  Gives m gave → m_out m' = m_out m ++ fs → writes q fs bs → Forall small bs → (m_next m ≤ m_next m')%nat →
  (∀ l s, m_heap m' !! l = Some s → ∃ s0, m_heap m !! l = Some s0 ∧ ss_seq s0 = ss_seq s ∧
     gave' l = gave l ++ (if decide (ss_seq s = q) then bs else [])) →
  (∀ l, (m_next m' ≤ l)%nat → gave' l = gave l) →
  Gives m' gave'.
Proof.
  intros [Hp Hpl Hf] Eo [Ws Wp Wa] Hbs Hn Hheap Hfresh. split.
  - intros q1. rewrite Eo, resp_parts_app. destruct (Hp q1) as (ys & Hc & Hok).
    destruct (decide (q1 = q)) as [->|Hne].
    + exists (ys ++ bs). rewrite (resp_parts_own q fs) by done. split; [by apply Wa|].
      intros l s Hs Hsq. destruct (Hheap l s Hs) as (s0 & Hs0 & Hq0 & ->).
      rewrite decide_True by done. f_equal. by apply (Hok l s0); [|congruence].
    + exists ys. rewrite (resp_parts_other q q1 fs), app_nil_r by done. split; [done|].
      intros l s Hs Hsq. destruct (Hheap l s Hs) as (s0 & Hs0 & Hq0 & ->).
      rewrite decide_False, app_nil_r by congruence. by apply (Hok l s0); [|congruence].
  - rewrite Eo. by apply Forall_app.
  - intros l Hl. rewrite Hfresh by done. apply Hf. lia.
Qed.

Lemma Gives_handler m m' used gave l s s' fs bs :
  Inv m used → m_heap m !! l = Some s → handled m m' l s s' fs → writes (ss_seq s) fs bs →
  Forall small bs → Gives m gave → Gives m' (note gave l bs).
Proof.
  intros Hinv Hs [Eh Eq Et Er En Eo Equeue Est] Hw Hbs HG.
  apply (Gives_writes m m' gave _ (ss_seq s) fs bs); try done.
  - by rewrite En.
  - intros l1 s1 Hs1. rewrite Eh in Hs1. apply lookup_insert_Some in Hs1 as [[<- <-]|[Hne Hs1]].
    + exists s. rewrite note_same, decide_True by done. done.
    + exists s1. split; [done|]. split; [done|]. rewrite note_other, decide_False, app_nil_r; [done| |done].
      intros E. by apply Hne, (inv_inj _ _ Hinv _ _ s s1).
  - intros l1 Hl1. rewrite En in Hl1. pose proof (inv_heap _ _ Hinv _ _ Hs) as [? _].
    rewrite note_other by lia. done.
Qed.

Lemma Gives_kept m m' gave : kept m m' → Gives m gave → Gives m' gave.
Proof.
  intros (Eo & En & Hh) HG. apply (Gives_writes m m' gave gave 0 [] []); try done.
  - by rewrite Eo, app_nil_r.
  - apply writes_nil.
  - by rewrite En.
  - intros l s Hs. destruct (Hh l s Hs) as (s0 & ? & E). exists s0. split; [done|].
    split; [done|]. case_decide; by rewrite app_nil_r.
Qed.

Lemma Gives_rejected m gave q e : int32 q = q → Gives m gave → Gives (write_out (mkEnd q e) m) gave.
Proof.
  intros Hq HG. apply (Gives_writes m _ gave gave q [mkEnd q e] []); try done; [by apply writes_end|].
  intros l s Hs. exists s. case_decide; by rewrite app_nil_r.
Qed.

Lemma Gives_opened m m' used gave q :
  Inv m used → q ∉ used → Gives m gave → m_out m' = m_out m → (m_next m ≤ m_next m')%nat →
  (∀ l s, m_heap m' !! l = Some s → (l = m_next m ∧ ss_seq s = q) ∨ m_heap m !! l = Some s) →
  Gives m' gave.
Proof.
  intros Hinv Hq [Hp Hpl Hf] Eo Hn Hheap. split; rewrite ?Eo; [|done|].
  - intros q1. destruct (Hp q1) as (ys & Hc & Hok). exists ys. split; [done|].
    intros l s Hs Hsq. destruct (Hheap l s Hs) as [[-> E]|Hs0]; [|by apply (Hok l s)].
    assert (q1 = q) as -> by congruence. unfold resp_parts in Hc. rewrite (inv_unused _ _ Hinv q Hq) in Hc.
    destruct (collected_fun _ _ _ _ _ _ Hc (collected_nil q)) as [-> _]. by apply Hf.
  - intros l Hl. apply Hf. lia.
Qed.
