(* ===== verification/ConnectionReturn.v ===== *)
(** * Connection: what the application has received

    [Returns]: the messages that the response frames have completed have been
    returned or are in the queue of the stream, as long as it is registered;
    every operation of the client and every [dispatch] keeps it. *)

From Stdlib Require Import Strings.Byte ZArith Lia.
From stdpp Require Import numbers strings gmap fin_maps relations list.
From S2P Require Import Prelude Status Messages Transport Chunks Channel RpcServer RpcServerRun RpcServerSafety RpcServerProps RpcClient RpcClientProps EndToEnd Payloads StreamEnd UploadEnd Connection ConnectionSend ConnectionServer.
Open Scope Z_scope.

(** ** What the application has received *)

Record Returns (taken : list ResponseFrame) (c : client) (ret : record) : Prop := {
  re_parts l cs : cl_heap c !! l = Some cs → ∃ bs xs e,
    cs_inbound cs = received bs ∧ collected (seq_at l) (resp_parts (seq_at l) taken) xs e ∧
    ret l ++ bs `prefix_of` xs ∧
    (cl_streams c !! seq_at l = Some l →
       e = cl_reasm c !! seq_at l ∧ ret l ++ bs = xs ∧ cs_end cs = None);
  re_reasm q : frames_of q taken = [] → cl_reasm c !! q = None;
  re_fresh l : (cl_next c ≤ l)%nat → ret l = [] }.

Lemma client_queue_at c l cs bs :
  cl_heap c !! l = Some cs → cs_inbound cs = received bs → client_queue c l = bs.
Proof.
  intros Hs Hin. unfold client_queue. rewrite Hs, Hin. unfold received. rewrite map_map. apply map_id.
Qed.

(** Operations that leave the queues alone. *)
Lemma Returns_same taken c c' ret ret' :
  Returns taken c ret → cl_heap c' = cl_heap c → cl_reasm c' = cl_reasm c → cl_next c' = cl_next c →
  cl_streams c' ⊆ cl_streams c → (∀ l, ret' l = ret l) → Returns taken c' ret'.
Proof.
  intros [Hp Hr Hf] Eh Er En Es E. split; rewrite ?Eh, ?Er, ?En.
  - intros l cs Hs. destruct (Hp l cs Hs) as (bs & xs & e & ? & ? & ? & Hreg). rewrite E.
    exists bs, xs, e. split_and!; try done. intros Hreg'. apply Hreg. by eapply lookup_weaken.
  - done.
  - intros l Hl. rewrite E. by apply Hf.
Qed.

Lemma Returns_pop taken c ret l cs r rest :
  CInv c → Returns taken c ret → cl_heap c !! l = Some cs → cs_inbound cs = r :: rest →
  Returns taken (RpcClient.update l (RpcClient.with_inbound rest) c) (note ret l [ir_data r]).
Proof.
  intros Hc [Hp Hr Hf] Hs Hin. split; cbn; [|done|].
  - intros l1 cs1 [(<- & cs0 & Hs0 & ->)|[Hne Hs1]]%lookup_alter_Some.
    + rewrite Hs in Hs0. injection Hs0 as <-. destruct (Hp l cs Hs) as (bs & xs & e & Eb & Hcl & Hpre & Hreg).
      rewrite Hin in Eb. destruct bs as [|b bs]; cbn in Eb; [done|]. injection Eb as -> ->.
      exists bs, xs, e. rewrite note_same, <- app_assoc. done.
    + destruct (Hp l1 cs1 Hs1) as (bs & xs & e & ?). exists bs, xs, e. by rewrite note_other.
  - intros l1 Hl1. destruct (ci_heap _ Hc _ _ Hs) as [? _]. rewrite note_other by lia. by apply Hf.
Qed.

Lemma Returns_open taken c ret c1 c' l q method :
  CInv c → Returns taken c ret → RpcClient.openStream method c = (l, q, c1) → (l < max_streams)%nat →
  frames_of q taken = [] →
  cl_heap c' = cl_heap c1 → cl_streams c' = cl_streams c1 → cl_reasm c' = cl_reasm c1 → cl_next c' = cl_next c1 →
  Returns taken c' ret.
Proof.
  intros Hc [Hp Hr Hf] Ho Hmax Hnew Eh Es Er En.
  destruct (openStream_value _ _ _ _ _ Ho Hc) as (El & Eq & _ & En1 & _ & _ & Er1 & Es1 & Eh1).
  split; rewrite ?Eh, ?Es, ?Er, ?En, ?Eh1, ?Es1, ?Er1, ?En1.
  - intros l1 cs1 [(<- & <-)|(Hne & Hs1)]%lookup_insert_Some.
    + exists [], [], None. rewrite (Hf l) by lia. unfold resp_parts. rewrite <- Eq, Hnew.
      split; [done|]. split; [apply collected_nil|]. split; [done|]. intros _. by rewrite Hr.
    + destruct (Hp l1 cs1 Hs1) as (bs & xs & e & Hin & Hcl & Hpre & Hreg). exists bs, xs, e.
      split_and!; try done. intros H. apply Hreg.
      destruct (ci_heap _ Hc _ _ Hs1) as [Hl1 _]. rewrite lookup_insert_ne in H; [done|].
      rewrite Eq. intros E. apply Hne, seq_at_inj; [done|lia|done].
  - done.
  - intros l1 Hl1. apply Hf. lia.
Qed.

Lemma Returns_effect taken c ret l bs c' :
  CInv c → Returns taken c ret → effect c l bs c' → (cl_next c' ≤ max_streams)%nat →
  frames_of (seq_at (cl_next c)) taken = [] ∨ cl_next c' = cl_next c →
  Returns taken c' (note ret l (popped (client_queue c l) (client_queue c' l))).
Proof.
  intros Hc HR Heff Hmax Hnew.
  assert (cl_heap c' !! l = cl_heap c !! l → ∀ l1, note ret l (popped (client_queue c l) (client_queue c' l)) l1 = ret l1) as Hsame.
  { intros E l1. unfold client_queue. rewrite E, popped_all. apply note_nil. }
  destruct Heff as [q call fs c1 c' method Ho _ -> _ _|q fs c' _ _ -> _ _|_|cs r rest _ Hs Hin|seq _].
  - destruct (openStream_value _ _ _ _ _ Ho Hc) as (El & Eq & _ & En1 & _ & _ & _ & _ & Eh1).
    rewrite foldl_sendFrame in *. cbn [cl_next] in *. rewrite En1 in *.
    destruct Hnew as [Hnew|?]; [|lia].
    assert (client_queue c l = []) as ->.
    { unfold client_queue. destruct (cl_heap c !! l) as [cs|] eqn:Hs; [|done].
      apply (ci_heap _ Hc) in Hs as [? _]. lia. }
    eapply (Returns_same taken _ _ ret); [|done..|by intros l1; apply note_nil].
    eapply Returns_open; [exact Hc|exact HR|exact Ho|lia| |done..]. by rewrite Eq, El.
  - rewrite foldl_sendFrame in *. by apply (Returns_same taken c _ ret); [| | | | |apply Hsame].
  - by apply (Returns_same taken c _ ret); [| | | | |apply Hsame].
  - destruct (re_parts _ _ _ HR l cs Hs) as (bs' & xs & e & Eb & _). rewrite Hin in Eb.
    destruct bs' as [|b bs']; cbn in Eb; [done|]. injection Eb as -> ->.
    rewrite (client_queue_at c l cs (b :: bs')) by done.
    rewrite (client_queue_at _ l (RpcClient.with_inbound (received bs') cs) bs');
      [|cbn; by rewrite lookup_alter, decide_True, Hs|done].
    rewrite popped_one. by eapply (Returns_pop taken c ret l cs {| ir_data := b; ir_err := None |}).
  - apply (Returns_same taken c _ ret); try done; [apply delete_subseteq|by apply Hsame].
Qed.

(** *** A response frame *)

(** A frame of the stream at [l]: what remains to be shown is about it. *)
Lemma Returns_frame taken c c' ret f q l :
  CInv c → Returns taken c ret → (cl_next c ≤ max_streams)%nat → rf_seq f = q → cl_streams c !! q = Some l →
  cl_next c' = cl_next c → (∀ l1, l1 ≠ l → cl_heap c' !! l1 = cl_heap c !! l1) →
  (∀ q', q' ≠ q → cl_reasm c' !! q' = cl_reasm c !! q' ∧ cl_streams c' !! q' = cl_streams c !! q') →
  (∀ cs bs, cl_heap c !! l = Some cs → cs_inbound cs = received bs →
     collected q (resp_parts q taken) (ret l ++ bs) (cl_reasm c !! q) → cs_end cs = None →
     ∃ cs' bs' xs' e', cl_heap c' !! l = Some cs' ∧ cs_inbound cs' = received bs' ∧
       collected q (resp_parts q taken ++ [resp_content f]) xs' e' ∧ ret l ++ bs' = xs' ∧
       (cl_streams c' !! q = Some l → e' = cl_reasm c' !! q ∧ cs_end cs' = None)) →
  Returns (taken ++ [f]) c' ret.
Proof.
  intros Hc [Hp Hr Hf] Hmax Hq Hl En Hother Hmaps Hown.
  destruct (ci_streams _ Hc _ _ Hl) as [Hlt Eq]. destruct (ci_all _ Hc l Hlt) as [cs Hs].
  destruct (Hp l cs Hs) as (bs & xs & e & Hin & Hcl & _ & Hreg). rewrite <- Eq in *.
  destruct (Hreg Hl) as (-> & <- & Hend).
  destruct (Hown cs bs Hs Hin Hcl Hend) as (cs' & bs' & xs' & e' & Hs' & Hin' & Hcl' & Ex & Hreg').
  assert (frames_of q [f] = [f]) as Ef by (by apply frames_of_all, Forall_singleton).
  split.
  - intros l1 cs1 Hs1. destruct (decide (l1 = l)) as [->|Hne].
    + rewrite Hs' in Hs1. injection Hs1 as <-. exists bs', xs', e'. rewrite <- Eq, resp_parts_app.
      unfold resp_parts at 2. rewrite Ef. split_and!; try done; [by rewrite Ex|].
      intros H. destruct (Hreg' H) as [? ?]. done.
    + rewrite Hother in Hs1 by done. destruct (Hp l1 cs1 Hs1) as (bs1 & xs1 & e1 & ? & ? & ? & Hreg1).
      assert (seq_at l1 ≠ q) as Hne1.
      { rewrite Eq. intros E. destruct (ci_heap _ Hc _ _ Hs1) as [? _]. apply Hne, seq_at_inj; [lia|lia|done]. }
      exists bs1, xs1, e1. rewrite resp_parts_app, (resp_parts_other q (seq_at l1) [f]), app_nil_r
        by (done || by apply Forall_singleton).
      by destruct (Hmaps _ Hne1) as [-> ->].
  - intros q1 H1. destruct (decide (q1 = q)) as [->|Hne].
    + rewrite frames_of_app, Ef in H1. by apply app_eq_nil in H1 as [_ ?].
    + destruct (Hmaps q1 Hne) as [-> _]. apply Hr. rewrite frames_of_app in H1. by apply app_eq_nil in H1 as [? _].
  - intros l1 Hl1. rewrite En in Hl1. by apply Hf.
Qed.

(** A frame of no stream of the table. *)
Lemma Returns_dropped taken c ret f :
  CInv c → Returns taken c ret → cl_streams c !! rf_seq f = None →
  (∃ xs e, collected (rf_seq f) (resp_parts (rf_seq f) (taken ++ [f])) xs e) →
  Returns (taken ++ [f]) c ret.
Proof.
  intros Hc [Hp Hr Hf] Hl (xs' & e' & Hcl'). split; [| |done].
  - intros l cs Hs. destruct (Hp l cs Hs) as (bs & xs & e & Hin & Hcl & Hpre & Hreg).
    destruct (decide (seq_at l = rf_seq f)) as [E|Hne].
    + exists bs, xs', e'. rewrite E in *. split_and!; try done; [|by rewrite Hl].
      etrans; [exact Hpre|]. rewrite resp_parts_app in Hcl'. by eapply collected_prefix.
    + exists bs, xs, e. by rewrite resp_parts_app, (resp_parts_other (rf_seq f) (seq_at l) [f]), app_nil_r
        by (done || by apply Forall_singleton).
  - intros q H. rewrite frames_of_app in H. apply app_eq_nil in H as [? _]. by apply Hr.
Qed.

Lemma deliver_returns taken c c' ret f q l b r :
  CInv c → Returns taken c ret → (cl_next c ≤ max_streams)%nat → rf_seq f = q → cl_streams c !! q = Some l →
  (∀ q', q' ≠ q → r !! q' = cl_reasm c !! q') →
  (∀ xs, collected q (resp_parts q taken) xs (cl_reasm c !! q) →
     collected q (resp_parts q taken ++ [resp_content f]) (xs ++ [b]) (r !! q)) →
  c' ∈ deliver l b (RpcClient.set_reasm r c) → Returns (taken ++ [f]) c' ret.
Proof.
  intros Hc HR Hmax Hq Hl Hr Hcol Hd.
  destruct (ci_streams _ Hc _ _ Hl) as [Hlt Eq]. destruct (ci_all _ Hc l Hlt) as [cs Hs].
  destruct (re_parts _ _ _ HR l cs Hs) as (bs & xs & e & Hin & _ & _ & Hreg). rewrite <- Eq in Hreg.
  destruct (Hreg Hl) as (_ & _ & Hend).
  destruct (deliver_open l b (RpcClient.set_reasm r c) c' cs Hs Hend Hd) as [-> Hh].
  apply (Returns_frame taken c _ ret f q l); try done.
  - cbn. intros l1 Hne. by rewrite lookup_alter_ne.
  - intros q' Hne. split; [by apply Hr|done].
  - intros cs0 bs0 Hs0 Hin0 Hcl0 Hend0. rewrite Hs in Hs0. injection Hs0 as <-.
    eexists _, (bs0 ++ [b]), _, _. split; [exact Hh|]. split.
    { cbn. rewrite Hin0. unfold received. by rewrite map_app. }
    split; [by apply Hcol|]. rewrite app_assoc. done.
Qed.

Lemma deliver_next l b c c' : c' ∈ deliver l b c → cl_next c' = cl_next c ∧ cl_sent c' = cl_sent c.
Proof.
  unfold deliver. destruct (cl_heap c !! l) as [cs|]; [|by intros ?%elem_of_nil].
  intros [H|H]%elem_of_app.
  - case_decide; [|by apply elem_of_nil in H]. by apply list_elem_of_singleton in H as ->.
  - destruct (cs_end cs); [|by apply elem_of_nil in H]. by apply list_elem_of_singleton in H as ->.
Qed.

Lemma dispatch_next f r c c' :
  (r, c') ∈ dispatch f c → cl_next c' = cl_next c ∧ cl_sent c' = cl_sent c.
Proof.
  unfold dispatch. destruct (cl_streams c !! _) as [l|]; [|by intros [= _ ->]%list_elem_of_singleton].
  destruct (rf_Type f) as [[b|d|e]|]; [| | |by intros [= _ ->]%list_elem_of_singleton].
  - intros (c1 & [= _ ->] & H)%list_elem_of_fmap. unfold dispatch_begin in H.
    destruct b as [b|]; [|by apply list_elem_of_singleton in H as ->].
    destruct (begin_Header b), (begin_InlineData b) as [d|]; try destruct (0 <? len d);
      try (by apply list_elem_of_singleton in H as ->); by apply deliver_next in H.
  - destruct (GetContent d) as [[b|ch]|]; [| |by intros [= _ ->]%list_elem_of_singleton].
    + intros (c1 & [= _ ->] & H)%list_elem_of_fmap. by apply deliver_next in H.
    + destruct (Reassembler.Reassemble _ _ _ _ _) as [[[b|]|x|x] rs];
        try by intros [= _ ->]%list_elem_of_singleton.
      intros (c1 & [= _ ->] & H)%list_elem_of_fmap. by apply deliver_next in H.
  - intros [= _ ->]%list_elem_of_singleton. unfold dispatch_end.
    by destruct e as [e|]; [destruct (end_Trailer e)|].
Qed.

(** A frame that completes no message. *)
Lemma quiet_returns taken c ret f q l g r :
  CInv c → Returns taken c ret → (cl_next c ≤ max_streams)%nat → rf_seq f = q → cl_streams c !! q = Some l →
  (∀ cs, cs_inbound (g cs) = cs_inbound cs ∧ cs_end (g cs) = cs_end cs) →
  (∀ q', q' ≠ q → r !! q' = cl_reasm c !! q') →
  (∀ xs, collected q (resp_parts q taken) xs (cl_reasm c !! q) →
     collected q (resp_parts q taken ++ [resp_content f]) xs (r !! q)) →
  Returns (taken ++ [f]) (RpcClient.update l g (RpcClient.set_reasm r c)) ret.
Proof.
  intros Hc HR Hmax Hq Hl Hg Hr Hcol. apply (Returns_frame taken c _ ret f q l); try done.
  - cbn. intros l1 Hne. by rewrite lookup_alter_ne.
  - intros q' Hne. split; [by apply Hr|done].
  - intros cs bs Hs Hin Hcl Hend. destruct (Hg cs) as [E1 E2].
    eexists (g cs), bs, _, _. split; [cbn; by rewrite lookup_alter, decide_True, Hs|].
    split; [by rewrite E1|]. split; [by apply Hcol|]. split; [done|]. by rewrite E2.
Qed.

Lemma end_returns taken c ret f q l e :
  CInv c → Returns taken c ret → (cl_next c ≤ max_streams)%nat → rf_seq f = q → cl_streams c !! q = Some l →
  resp_content f = None → Returns (taken ++ [f]) (dispatch_end l q e c) ret.
Proof.
  intros Hc HR Hmax Hq Hl Hnone. unfold dispatch_end.
  match goal with |- Returns _ (RpcClient.set_streams _ (RpcClient.update l ?g ?x)) _ =>
    set (g0 := g); set (c0 := x) end.
  assert (∃ g, (∀ cs, cs_inbound (g cs) = cs_inbound cs) ∧ c0 = RpcClient.update l g c) as (g1 & Hg1 & ->).
  { unfold c0. destruct e as [e|]; [destruct (end_Trailer e) as [t|]|].
    - by eexists (λ cs, RpcClient.with_trailer _ cs).
    - exists id. split; [done|]. unfold RpcClient.update. rewrite alter_id by done. by destruct c.
    - exists id. split; [done|]. unfold RpcClient.update. rewrite alter_id by done. by destruct c. }
  apply (Returns_frame taken c _ ret f q l); try done; cbn.
  - intros l1 Hne. by rewrite !lookup_alter_ne.
  - intros q' Hne. by rewrite lookup_delete_ne.
  - intros cs bs Hs Hin Hcl Hend. eexists (g0 (g1 cs)), bs, _, _. rewrite Hnone.
    split; [by rewrite !lookup_alter, !decide_True, Hs|]. split; [unfold g0; cbn; by rewrite Hg1|].
    split; [by apply collected_none|]. split; [done|]. by rewrite lookup_delete, decide_True.
Qed.

Lemma Returns_dispatch taken c c' ret f :
  CInv c → Returns taken c ret → (cl_next c ≤ max_streams)%nat → plain f →
  (∃ xs e, collected (rf_seq f) (resp_parts (rf_seq f) (taken ++ [f])) xs e) →
  (Ok tt, c') ∈ dispatch f c → Returns (taken ++ [f]) c' ret.
Proof.
  intros Hc HR Hmax [Hi Hplain] Hcol. unfold dispatch. fold (rf_seq f). set (q := rf_seq f) in *.
  destruct (cl_streams c !! q) as [l|] eqn:Hl; [|by intros [= ->]%list_elem_of_singleton; apply Returns_dropped].
  assert (∀ g, (∀ cs, cs_inbound (g cs) = cs_inbound cs ∧ cs_end (g cs) = cs_end cs) →
    resp_content f = None → Returns (taken ++ [f]) (RpcClient.update l g c) ret) as Hquiet.
  { intros g Hg Hnone. replace c with (RpcClient.set_reasm (cl_reasm c) c) at 2 by by destruct c.
    apply (quiet_returns taken c ret f q); try done. rewrite Hnone. intros xs. apply collected_none. }
  assert (resp_content f = None → Returns (taken ++ [f]) c ret) as Hsame.
  { intros Hnone. replace c with (RpcClient.update l id c).
    - by apply Hquiet.
    - unfold RpcClient.update. rewrite alter_id by done. by destruct c. }
  pose proof (eq_refl (resp_content f)) as Hf. unfold resp_content at 2 in Hf.
  destruct (rf_Type f) as [[b|d|e]|]; [| | |by intros [= ->]%list_elem_of_singleton; apply Hsame].
  - intros (c1 & [= ->] & Hc1)%list_elem_of_fmap.
    destruct b as [b|]; [|by apply list_elem_of_singleton in Hc1 as ->; apply Hsame].
    unfold dispatch_begin in Hc1. rewrite Hplain in Hc1.
    apply list_elem_of_singleton in Hc1 as ->. destruct (begin_Header b); [|by apply Hsame]. by apply Hquiet.
  - destruct (GetContent d) as [[b|ch]|]; [| |by intros [= ->]%list_elem_of_singleton; apply Hsame].
    + intros (c1 & [= ->] & Hc1)%list_elem_of_fmap.
      apply (deliver_returns taken c c1 ret f q l b (cl_reasm c)); try done; [|by destruct c].
      intros xs H. rewrite Hf. by apply collected_message.
    + rewrite Hi.
      pose proof (λ q' Hne, Reassemble_other (cl_reasm c) q' q (TotalSize ch) (Offset ch) (chunk_Data ch) Hne) as Hr.
      destruct (Reassembler.Reassemble _ _ _ _ _) as [o r] eqn:HR'. cbn in Hr.
      destruct o as [o|x|x]; [|by intros ?%list_elem_of_singleton..].
      assert (∀ xs, collected q (resp_parts q taken) xs (cl_reasm c !! q) →
        collected q (resp_parts q taken ++ [resp_content f]) (xs ++ option_list o) (r !! q)) as Hch.
      { intros xs H. rewrite Hf. by eapply collected_chunk. }
      destruct o as [b|].
      * intros (c1 & [= ->] & Hc1)%list_elem_of_fmap. by apply (deliver_returns taken c c1 ret f q l b r).
      * intros [= ->]%list_elem_of_singleton.
        replace (RpcClient.set_reasm r c) with (RpcClient.update l id (RpcClient.set_reasm r c)).
        -- apply (quiet_returns taken c ret f q); try done. intros xs H. rewrite <- (app_nil_r xs). by apply Hch.
        -- unfold RpcClient.update. rewrite alter_id by done. by destruct c.
  - intros [= ->]%list_elem_of_singleton. by apply end_returns.
Qed.
