(* ===== verification/ConnectionProps.v ===== *)
(** * Every stream of a connection is in order

    The invariant of [Connection], put together from what the client
    ([ConnectionSend], [ConnectionReturn]) and the server ([ConnectionServer])
    keep. *)

From Stdlib Require Import Strings.Byte ZArith Lia.
From stdpp Require Import numbers strings gmap fin_maps relations list.
From S2P Require Import Prelude Status Messages Transport Chunks Channel RpcServer RpcServerRun RpcServerSafety RpcServerProps RpcClient RpcClientProps EndToEnd Payloads StreamEnd UploadEnd Connection ConnectionSend ConnectionServer ConnectionReturn.
Open Scope Z_scope.

(** ** The whole connection *)

Lemma client_op_step c l bs c' : client_op c l bs c' → app_step (λ _, True) c c'.
Proof.
  destruct 1; [by eapply step_unary|by eapply step_server_streaming|by eapply step_client_streaming
    |by eapply step_send|by eapply step_close_send|by eapply step_select|by eapply step_recv
    |by eapply step_watch|by apply step_cleanup].
Qed.

Lemma effect_sent c l bs c' : CInv c → effect c l bs c' → ∃ fs, cl_sent c' = cl_sent c ++ fs.
Proof.
  intros Hc [q call fs c1 c2 method Ho _ -> _ _|q fs c2 _ _ -> _ _|_|cs r rest _ _ _|seq _];
    rewrite ?foldl_sendFrame; cbn; try (by exists []; rewrite app_nil_r); [|by eexists].
  destruct (openStream_value _ _ _ _ _ Ho Hc) as (_ & _ & _ & _ & _ & -> & _). by eexists.
Qed.

Lemma effect_next c l bs c' :
  CInv c → effect c l bs c' → cl_next c' = cl_next c ∨ cl_next c' = S (cl_next c).
Proof.
  intros Hc [q call fs c1 c2 method Ho _ -> _ _|q fs c2 _ _ -> _ _|_|cs r rest _ _ _|seq _];
    try (rewrite foldl_sendFrame; by left); try by left.
  destruct (openStream_value _ _ _ _ _ Ho Hc) as (-> & _ & _ & En & _). right. rewrite foldl_sendFrame. exact En.
Qed.

Lemma effect_Sends c sent l bs c' :
  CInv c → Sends c sent → effect c l bs c' → (cl_next c' ≤ max_streams)%nat → Forall small bs →
  Sends c' (note sent l bs).
Proof.
  intros Hc HS Heff Hmax Hbs.
  assert (∀ c1, cl_sent c1 = cl_sent c → cl_next c1 = cl_next c → bs = [] → Sends c1 (note sent l bs)) as Hsame.
  { intros c1 Es En ->. apply (Sends_same c c1 sent); [done..|]. intros l1. apply note_nil. }
  destruct Heff as [q call fs c1 c2 method Ho _ -> Hfs Hadd|q fs c2 Hl Hq -> Hfs Hadd|E|cs r rest E Hs Hin|seq E];
    [| |by apply Hsame..].
  - destruct (openStream_value _ _ _ _ _ Ho Hc) as (El & _ & _ & En & _).
    rewrite foldl_sendFrame in Hmax. cbn in Hmax. rewrite En in Hmax.
    eapply Sends_open; [exact Hc|exact HS|exact Ho|lia|done..].
  - rewrite foldl_sendFrame in Hmax. by eapply Sends_send.
Qed.

(** Steps of the server keep the connection up. *)
Lemma frame_up {Vals} (srv : @Server Vals) vals f m m' :
  (FHandled, m') ∈ handleFrame srv vals f m → hdr_clear m → up m → up m' ∧ hdr_clear m'.
Proof.
  intros H Hc [Hd Hx]. pose proof (proj1 (Forall_forall _ _) (keeps_frame srv vals f m) _ H) as (E1 & E2 & E3).
  cbn in *. split; [split; congruence|auto].
Qed.

Lemma handler_up l m m' : (FHandled, m') ∈ handler_step l m → hdr_clear m → up m → up m' ∧ hdr_clear m'.
Proof.
  intros H Hc [Hd Hx]. pose proof (proj1 (Forall_forall _ _) (keeps_handler l m Hc) _ H) as (E1 & E2 & E3).
  cbn in *. split; [split; congruence|auto].
Qed.

Record KInv (k : conn) : Prop := {
  ki_client : CInv (k_client k);
  ki_max : (cl_next (k_client k) ≤ max_streams)%nat;
  ki_mux : Inv (k_mux k) (k_used k);
  ki_clear : hdr_clear (k_mux k);
  ki_conn : up (k_mux k);
  ki_upto : (k_up k ≤ length (cl_sent (k_client k)))%nat;
  ki_downto : (k_down k ≤ length (m_out (k_mux k)))%nat;
  ki_sends : Sends (k_client k) (k_sent k);
  ki_gets : Gets (take (k_up k) (cl_sent (k_client k))) (k_mux k) (k_used k) (k_got k);
  ki_gives : Gives (k_mux k) (k_gave k);
  ki_returns : Returns (take (k_down k) (m_out (k_mux k))) (k_client k) (k_ret k) }.

Lemma KInv_init : KInv newConn.
Proof.
  assert (∀ q, collected q [] [] None) as Hnil by apply collected_nil.
  split; cbn; try done.
  - apply CInv_init.
  - unfold max_streams. lia.
  - apply Inv_init.
  - split; cbn; try done. intros l Hl. lia.
  - split; cbn; [set_solver| |done]. intros q. by exists [].
  - split; cbn; [|done|done]. intros q. by exists [].
Qed.

(** *** One step *)

Lemma k_app_inv k l bs c' :
  KInv k → client_op (k_client k) l bs c' → (cl_next c' ≤ max_streams)%nat → Forall small bs →
  KInv {| k_client := c'; k_mux := k_mux k; k_used := k_used k; k_up := k_up k; k_down := k_down k;
          k_sent := note (k_sent k) l bs;
          k_ret := note (k_ret k) l (popped (client_queue (k_client k) l) (client_queue c' l));
          k_got := k_got k; k_gave := k_gave k |}.
Proof.
  intros [Hc Hmax Hm Hcl Hup Hu Hd Hse Hge Hgi Hre] Hop Hmax' Hbs.
  pose proof (client_op_effect _ _ _ _ Hc Hop) as Heff.
  destruct (effect_sent _ _ _ _ Hc Heff) as [fs Es].
  split; cbn; try done.
  - eapply CInv_step; [exact Hc|]. left. by eapply client_op_step.
  - rewrite Es, length_app. lia.
  - by eapply effect_Sends.
  - rewrite Es, take_app_le by lia. done.
  - eapply Returns_effect; [done|done|exact Heff|done|].
    destruct (decide (cl_next c' = cl_next (k_client k))) as [?|Hne]; [by right|left].
    assert (cl_next (k_client k) < max_streams)%nat as Hlt.
    { destruct (effect_next _ _ _ _ Hc Heff); [done|lia]. }
    set (q := seq_at (cl_next (k_client k))).
    assert (q ∉ k_used k) as Hq.
    { intros Hin%(ge_used _ _ _ _ Hge). destruct (se_opened _ _ Hse q) as (l' & Hl' & E).
      - intros E. apply Hin. rewrite <- (take_drop (k_up k) (cl_sent (k_client k))), reqs_of_app in E.
        by apply app_eq_nil in E as [? _].
      - apply seq_at_inj in E; [lia|lia|lia]. }
    pose proof (inv_unused _ _ Hm q Hq) as E.
    rewrite <- (take_drop (k_down k) (m_out (k_mux k))), frames_of_app in E. by apply app_eq_nil in E as [? _].
Qed.

Lemma k_handler_inv k l m' :
  KInv k → (FHandled, m') ∈ handler_step l (k_mux k) → Forall small (wrote (k_mux k) m' l) →
  KInv {| k_client := k_client k; k_mux := m'; k_used := k_used k; k_up := k_up k; k_down := k_down k;
          k_sent := k_sent k; k_ret := k_ret k;
          k_got := note (k_got k) l (popped (server_queue (k_mux k) l) (server_queue m' l));
          k_gave := note (k_gave k) l (wrote (k_mux k) m' l) |}.
Proof.
  intros [Hc Hmax Hm Hcl Hup Hu Hd Hse Hge Hgi Hre] Hh Hw.
  destruct (handler_handled _ _ _ _ Hup Hcl Hm Hh) as (s & s' & fs & Hs & Hha & Hwr).
  destruct (handler_up _ _ _ Hh Hcl Hup) as [Hup' Hcl'].
  split; cbn; try done.
  - exact (Inv_handler _ _ _ _ _ Hup Hcl Hm Hh).
  - rewrite (ha_out _ _ _ _ _ _ Hha), length_app. lia.
  - by eapply Gets_handler.
  - by eapply Gives_handler.
  - rewrite (ha_out _ _ _ _ _ _ Hha), take_app_le by lia. done.
Qed.

(** The frame that the serve loop takes next. *)
Lemma next_request k f :
  KInv k → cl_sent (k_client k) !! k_up k = Some f →
  take (S (k_up k)) (cl_sent (k_client k)) = take (k_up k) (cl_sent (k_client k)) ++ [f] ∧
  int32 (req_seq f) = req_seq f ∧
  (is_call f → reqs_of (req_seq f) (take (k_up k) (cl_sent (k_client k))) = [] ∧ req_seq f ∉ k_used k) ∧
  ∃ xs e, collected (req_seq f)
    (req_parts (req_seq f) (take (k_up k) (cl_sent (k_client k))) ++ [req_part f]) xs e.
Proof.
  intros HK Hf. set (sent := cl_sent (k_client k)) in *. set (taken := take (k_up k) sent).
  assert (sent = (taken ++ [f]) ++ drop (S (k_up k)) sent) as Esent.
  { unfold taken. by rewrite <- (take_S_r _ _ _ Hf), take_drop. }
  assert (reqs_of (req_seq f) [f] = [f]) as Ef by (by apply reqs_of_all, Forall_singleton).
  assert (reqs_of (req_seq f) sent ≠ []) as Hne.
  { rewrite Esent, !reqs_of_app, Ef. by destruct (reqs_of (req_seq f) taken). }
  destruct (se_opened _ _ (ki_sends _ HK) (req_seq f) Hne) as (l & Hl & Hq).
  split; [by apply take_S_r|]. split; [|split].
  - rewrite Hq. apply seq_at_int32.
  - intros Hcall. assert (reqs_of (req_seq f) taken = []) as E.
    { pose proof (se_called _ _ (ki_sends _ HK) (req_seq f)) as H. fold sent in H.
      rewrite Esent, !reqs_of_app, Ef in H. destruct (reqs_of (req_seq f) taken) as [|g rest]; [done|].
      destruct H as [_ H]. apply Forall_app in H as [[_ [? _]%Forall_cons]%Forall_app _]. done. }
    split; [done|]. by intros Hin%(ge_used _ _ _ _ (ki_gets _ HK)).
  - pose proof (se_sent _ _ (ki_sends _ HK) l Hl) as H. rewrite <- Hq in H. fold sent in H.
    rewrite Esent, !req_parts_app in H. apply collected_split in H.
    unfold req_parts at 2 in H. by rewrite Ef in H.
Qed.

Lemma k_serve_inv {Vals} (srv : @Server Vals) vals k f m' :
  KInv k → cl_sent (k_client k) !! k_up k = Some f → (FHandled, m') ∈ handleFrame srv vals f (k_mux k) →
  KInv {| k_client := k_client k; k_mux := m'; k_used := opened f ∪ k_used k; k_up := S (k_up k);
          k_down := k_down k; k_sent := k_sent k; k_ret := k_ret k;
          k_got := k_got k; k_gave := k_gave k |}.
Proof.
  intros HK Hf Hh. destruct (next_request k f HK Hf) as (Etake & Hi & Hfirst & _).
  destruct HK as [Hc Hmax Hm Hcl Hup Hu Hd Hse Hge Hgi Hre].
  destruct (frame_up _ _ _ _ _ Hh Hcl Hup) as [Hup' Hcl'].
  set (taken := take (k_up k) (cl_sent (k_client k))) in *.
  assert (k_up k < length (cl_sent (k_client k)))%nat as Hlt by by apply lookup_lt_Some in Hf.
  assert (opened f ## k_used k) as Hfresh.
  { unfold opened, is_call, req_seq in *. destruct (f_Type f) as [[]|]; try apply disjoint_empty_l.
    destruct (Hfirst I). set_solver. }
  assert (Gets (taken ++ [f]) m' (opened f ∪ k_used k) (k_got k) ∧ Gives m' (k_gave k) ∧
          ∃ gs, m_out m' = m_out (k_mux k) ++ gs) as (Hge' & Hgi' & gs & Eo).
  { destruct (decide (is_call f)) as [Hcall|Hcall].
    - destruct (Hfirst Hcall) as [Hnone Hunused].
      destruct (serve_call srv vals taken _ m' _ _ f Hup Hm Hunused Hi Hcall Hnone Hge Hh)
        as [H [[e ->]|(Eo & Hn & Hheap)]]; (split; [done|]).
      + split; [by apply Gives_rejected|by eexists].
      + split; [by eapply Gives_opened; [exact Hm|exact Hunused|..]|]. exists []. by rewrite app_nil_r.
    - destruct (serve_other srv vals taken _ m' _ _ f Hm Hi Hcall Hge Hh) as [H Hk]. split; [done|].
      split; [by eapply Gives_kept|]. exists []. by rewrite app_nil_r, (proj1 Hk). }
  split; cbn; rewrite ?Etake, ?Eo; try done.
  - exact (Inv_frame srv vals f _ _ _ _ Hup Hi Hfresh Hm Hh).
  - rewrite length_app. lia.
  - by rewrite take_app_le by lia.
Qed.

Lemma Gets_deadline taken m used got l s :
  m_heap m !! l = Some s → 0 < ss_timeout s → Gets taken m used got →
  Gets taken (RpcServer.update l (cancel_ctx DeadlineExceeded) m) used got.
Proof.
  intros Hs Ht [Hu Hp Hf]. split; [done| |done]. intros q. destruct (Hp q) as (xs & Hc & Hok).
  exists xs. split; [done|]. cbn.
  intros l1 s1 [(<- & s0 & Hs0 & ->)|[_ Hs1]]%lookup_alter_Some Hq; [|by apply Hok].
  rewrite Hs in Hs0. injection Hs0 as <-. destruct (Hok l s Hs Hq) as [O1 O2 O3 O4].
  assert (ss_ctx (cancel_ctx DeadlineExceeded s) ≠ None) as Hctx by (cbn; by destruct (ss_ctx s)).
  split; [done| |done|by right]. intros [?|?]; [done|]. cbn in *. lia.
Qed.

Lemma k_deadline_inv k l s :
  KInv k → m_heap (k_mux k) !! l = Some s → 0 < ss_timeout s →
  KInv {| k_client := k_client k; k_mux := RpcServer.update l (cancel_ctx DeadlineExceeded) (k_mux k);
          k_used := k_used k; k_up := k_up k; k_down := k_down k; k_sent := k_sent k; k_ret := k_ret k;
          k_got := k_got k; k_gave := k_gave k |}.
Proof.
  intros [Hc Hmax Hm Hcl Hup Hu Hd Hse Hge Hgi Hre] Hs Ht. split; cbn; try done.
  - by apply Inv_update.
  - by eapply (frames_ok_update l (cancel_ctx DeadlineExceeded) (k_mux k)).
  - by eapply Gets_deadline.
  - by eapply Gives_kept, Hgi; apply kept_update, kept_refl.
Qed.

(** The frame that [Attach] takes next. *)
Lemma next_response k f :
  KInv k → m_out (k_mux k) !! k_down k = Some f →
  take (S (k_down k)) (m_out (k_mux k)) = take (k_down k) (m_out (k_mux k)) ++ [f] ∧ plain f ∧
  ∃ xs e, collected (rf_seq f) (resp_parts (rf_seq f) (take (k_down k) (m_out (k_mux k)) ++ [f])) xs e.
Proof.
  intros HK Hf. pose proof (take_S_r _ _ _ Hf) as Etake. split; [done|]. split.
  - eapply Forall_lookup_1; [exact (gi_plain _ _ (ki_gives _ HK))|exact Hf].
  - destruct (gi_parts _ _ (ki_gives _ HK) (rf_seq f)) as (ys & Hc & _). rewrite <- Etake.
    rewrite <- (take_drop (S (k_down k)) (m_out (k_mux k))), resp_parts_app in Hc.
    by eapply collected_split.
Qed.

Lemma k_attach_inv k f c' :
  KInv k → m_out (k_mux k) !! k_down k = Some f → (Ok tt, c') ∈ dispatch f (k_client k) →
  KInv {| k_client := c'; k_mux := k_mux k; k_used := k_used k; k_up := k_up k; k_down := S (k_down k);
          k_sent := k_sent k; k_ret := k_ret k; k_got := k_got k; k_gave := k_gave k |}.
Proof.
  intros HK Hf Hd. destruct (next_response k f HK Hf) as (Etake & Hpl & Hcol).
  destruct HK as [Hc Hmax Hm Hcl Hup Hu Hdn Hse Hge Hgi Hre].
  assert (k_down k < length (m_out (k_mux k)))%nat as Hlt by by apply lookup_lt_Some in Hf.
  destruct (dispatch_next _ _ _ _ Hd) as [En Es].
  split; cbn; rewrite ?Etake, ?En, ?Es; try done.
  - by eapply CInv_dispatch.
  - by apply (Sends_same (k_client k) c' (k_sent k)).
  - by eapply Returns_dispatch.
Qed.

(** What has been taken of a stream's messages, at either end. *)
Lemma taken_got k l ls s :
  KInv k → (l < cl_next (k_client k))%nat → m_heap (k_mux k) !! ls = Some s → ss_seq s = seq_at l →
  ∃ xs, xs `prefix_of` k_sent k l ∧ (k_up k = length (cl_sent (k_client k)) → xs = k_sent k l) ∧
    got_ok (m_streams (k_mux k)) ls s (k_got k ls) xs.
Proof.
  intros HK Hl Hs Hq. destruct (ge_parts _ _ _ _ (ki_gets _ HK) (seq_at l)) as (xs & Hc & Hok).
  pose proof (se_sent _ _ (ki_sends _ HK) l Hl) as Hall. exists xs. split_and!; [| |by apply Hok].
  - eapply collected_prefix; [exact Hc|]. rewrite <- req_parts_app, take_drop. exact Hall.
  - intros E. rewrite E, take_ge in Hc by done. by destruct (collected_fun _ _ _ _ _ _ Hc Hall).
Qed.

Lemma taken_returned k l ls cs s :
  KInv k → cl_heap (k_client k) !! l = Some cs → m_heap (k_mux k) !! ls = Some s → ss_seq s = seq_at l →
  ∃ ys bs, ys `prefix_of` k_gave k ls ∧ (k_down k = length (m_out (k_mux k)) → ys = k_gave k ls) ∧
    cs_inbound cs = received bs ∧ k_ret k l ++ bs `prefix_of` ys ∧
    (cl_streams (k_client k) !! seq_at l = Some l → k_ret k l ++ bs = ys).
Proof.
  intros HK Hl Hs Hq. destruct (re_parts _ _ _ (ki_returns _ HK) l cs Hl) as (bs & ys & e & Hin & Hc & Hpre & Hreg).
  destruct (gi_parts _ _ (ki_gives _ HK) (seq_at l)) as (zs & Hall & Hz). rewrite (Hz ls s Hs Hq).
  exists ys, bs. split_and!; try done.
  - eapply collected_prefix; [exact Hc|]. rewrite <- resp_parts_app, take_drop. exact Hall.
  - intros E. rewrite E, take_ge in Hc by done. by destruct (collected_fun _ _ _ _ _ _ Hc Hall).
  - intros H. by destruct (Hreg H) as (_ & ? & _).
Qed.

Section props.
Context {Vals : Type} (srv : @Server Vals) (vals : Vals).
Context `{!Codec Frame, !CodecLaws Frame} `{!Codec ResponseFrame, !CodecLaws ResponseFrame}.

Lemma KInv_step k k' : KInv k → conn_step srv vals k k' → KInv k'.
Proof.
  intros HK. destruct 1 as [l bs c' Hop Hmax Hbs|f raw m' Hf Hs Hw Hh|l m' Hh Hb|l s Hs Ht|f raw c' Hf Hs Hw Hd].
  - by apply k_app_inv.
  - destruct (on_wire_sendable f Hs) as (raw' & Hw' & Hu). rewrite Hw in Hw'. injection Hw' as <-.
    eapply k_serve_inv; [done..|]. by eapply serve_handled.
  - by apply k_handler_inv.
  - by eapply k_deadline_inv.
  - destruct (on_wire_sendable f Hs) as (raw' & Hw' & Hu). rewrite Hw in Hw'. injection Hw' as <-.
    eapply k_attach_inv; [done..|]. by eapply attach_dispatch.
Qed.

Lemma conn_reachable_inv k : conn_reachable srv vals k → KInv k.
Proof.
  revert k. apply (rtc_ind_r KInv); [apply KInv_init|]. intros k k' _ Hs HK. by eapply KInv_step.
Qed.

(** A client stream and the server's stream of the same sequence number. *)
Definition paired (k : conn) (l ls : nat) (cs : clientStream) (s : stream) : Prop :=
  cl_heap (k_client k) !! l = Some cs ∧ m_heap (k_mux k) !! ls = Some s ∧ ss_seq s = cs_seq cs.

(** [C1] Any number of calls of any kind run at once, their frames interleaved in
    any order that the goroutines produce: on every stream the handler receives
    a subsequence of the messages the application sent, in order and none
    twice; a prefix of them unless the call had a deadline that passed, and all
    of them, once the frames have been taken, while the call is alive.  In the
    other direction the application receives a prefix of what the handler sent,
    and everything once the frames have been taken, while the stream is
    registered. *)
Theorem connection_in_order k l ls cs s :
  conn_reachable srv vals k → paired k l ls cs s →
  k_got k ls `sublist_of` k_sent k l ∧
  (ss_ctx s = None ∨ ss_timeout s ≤ 0 → k_got k ls `prefix_of` k_sent k l) ∧
  (ss_ctx s = None → k_up k = length (cl_sent (k_client k)) → k_got k ls ++ ss_inbound s = k_sent k l) ∧
  k_ret k l `prefix_of` k_gave k ls ∧
  (cl_streams (k_client k) !! cs_seq cs = Some l → k_down k = length (m_out (k_mux k)) →
   k_ret k l ++ map ir_data (cs_inbound cs) = k_gave k ls).
Proof.
  intros HK%conn_reachable_inv (Hl & Hls & Hq).
  destruct (known_stream _ _ _ (ki_client _ HK) Hl) as [Hlt Hcs]. rewrite Hcs in Hq |- *.
  destruct (taken_got k l ls s HK Hlt Hls Hq) as (xs & Hpre & Hall & [O1 O2 O3 _]).
  destruct (taken_returned k l ls cs s HK Hl Hls Hq) as (ys & bs & Hpre' & Hall' & Hin & Hret & Hreg).
  split_and!.
  - destruct Hpre as [zs ->]. apply sublist_inserts_r. etrans; [|exact O1]. by apply sublist_inserts_r.
  - intros H. etrans; [|exact Hpre]. etrans; [|by apply O2]. by apply prefix_app_r.
  - intros Hc Hup. rewrite <- (Hall Hup). by apply O3.
  - etrans; [|exact Hpre']. etrans; [|exact Hret]. by apply prefix_app_r.
  - intros Hr Hdown. rewrite <- (Hall' Hdown), <- (Hreg Hr), Hin. unfold received. by rewrite map_map, map_id.
Qed.

Lemma opens_handled q call m qr m1 :
  up m → lookupStream q m = None → (qr, m1) ∈ RpcServer.openStream srv vals q call m → qr = QNil.
Proof.
  intros Hup Hl. unfold RpcServer.openStream. rewrite Hl.
  destruct call as [call|]; [|by rewrite endStream_up_none by done; intros [= -> _]%list_elem_of_singleton].
  destruct (findMethod srv (call_Method call));
    [|by rewrite endStream_up_none by done; intros [= -> _]%list_elem_of_singleton].
  by intros (m2 & [= -> _]%list_elem_of_singleton & _)%list_elem_of_bind.
Qed.

Lemma next_handled k f r m' :
  KInv k → cl_sent (k_client k) !! k_up k = Some f → (r, m') ∈ handleFrame srv vals f (k_mux k) → r = FHandled.
Proof.
  intros HK Hf. destruct (next_request k f HK Hf) as (_ & Hi & Hfirst & xs & e & Hcol).
  destruct (ge_parts _ _ _ _ (ki_gets _ HK) (req_seq f)) as (ys & Hys & _).
  unfold handleFrame, is_call, req_part in *. fold (req_seq f). destruct (f_Type f) as [[call|d|en]|].
  - destruct (Hfirst I) as [_ Hq]. pose proof (lookup_unused _ _ _ (ki_mux _ HK) Hq) as Hl.
    intros ([qr m1] & [= -> ->]%list_elem_of_singleton & Hin)%list_elem_of_bind.
    by rewrite (opens_handled _ _ _ _ _ (ki_conn _ HK) Hl Hin).
  - unfold deliverData. destruct d as [d|]; [|by intros [= -> _]%list_elem_of_singleton].
    destruct (data_Content d) as [[b|ch]|]; [by intros (? & [= -> _] & _)%list_elem_of_fmap| |
      by intros [= -> _]%list_elem_of_singleton].
    rewrite Hi. destruct (collected_reassembles _ _ _ _ _ _ _ Hys Hcol) as [o E].
    destruct (Reassembler.Reassemble _ _ _ _ _) as [o' r']. cbn in E. subst o'.
    destruct o; [by intros (? & [= -> _] & _)%list_elem_of_fmap|by intros [= -> _]%list_elem_of_singleton].
  - by intros [= -> _]%list_elem_of_singleton.
  - by intros [= -> _]%list_elem_of_singleton.
Qed.

Lemma next_dispatched k f r c' :
  KInv k → m_out (k_mux k) !! k_down k = Some f → (r, c') ∈ dispatch f (k_client k) → r = Ok tt.
Proof.
  intros HK Hf. destruct (next_response k f HK Hf) as (_ & [Hi _] & xs & e & Hcol).
  unfold dispatch. fold (rf_seq f). set (q := rf_seq f) in *.
  destruct (cl_streams (k_client k) !! q) as [l|] eqn:Hl; [|by intros [= -> _]%list_elem_of_singleton].
  destruct (ci_streams _ (ki_client _ HK) _ _ Hl) as [Hlt Eq].
  destruct (ci_all _ (ki_client _ HK) l Hlt) as [cs Hs].
  destruct (re_parts _ _ _ (ki_returns _ HK) l cs Hs) as (bs & ys & e' & _ & Hys & _ & Hreg).
  rewrite <- Eq in *. destruct (Hreg Hl) as (-> & _ & _).
  assert (resp_parts q [f] = [resp_content f]) as Ef.
  { unfold resp_parts. by rewrite frames_of_all by by apply Forall_singleton. }
  rewrite resp_parts_app, Ef in Hcol. unfold resp_content in Hcol.
  destruct (rf_Type f) as [[b|d|en]|].
  - by intros (? & [= -> _] & _)%list_elem_of_fmap.
  - destruct (GetContent d) as [[b|ch]|]; [by intros (? & [= -> _] & _)%list_elem_of_fmap| |
      by intros [= -> _]%list_elem_of_singleton].
    rewrite Hi. destruct (collected_reassembles _ _ _ _ _ _ _ Hys Hcol) as [o E].
    destruct (Reassembler.Reassemble _ _ _ _ _) as [o' r']. cbn in E. subst o'.
    destruct o; [by intros (? & [= -> _] & _)%list_elem_of_fmap|by intros [= -> _]%list_elem_of_singleton].
  - by intros [= -> _]%list_elem_of_singleton.
  - by intros [= -> _]%list_elem_of_singleton.
Qed.

(** [C9] Neither end brings the other down: whatever calls run and however their
    frames interleave, the serve loop and [Attach] come through the next frame,
    whatever alternatives they have, with no panic of the reassembler and no
    return. *)
Theorem connection_never_crashes k :
  conn_reachable srv vals k →
  (∀ f raw r m', cl_sent (k_client k) !! k_up k = Some f → unmarshal raw = Some f →
     (r, m') ∈ serve_iter srv vals (Ok raw) (k_mux k) → r = Continue) ∧
  (∀ f raw r c', m_out (k_mux k) !! k_down k = Some f → unmarshal raw = Some f →
     (r, c') ∈ attach_iter (Ok raw) (k_client k) → r = AContinue).
Proof.
  intros HK%conn_reachable_inv. split.
  - intros f raw r m' Hf Hu. unfold serve_iter. rewrite Hu.
    intros ([r1 m1] & [= -> ->]%list_elem_of_singleton & Hin)%list_elem_of_bind.
    by rewrite (next_handled k f r1 m1 HK Hf Hin).
  - intros f raw r c' Hf Hu. unfold attach_iter. rewrite Hu.
    intros ([r1 c1] & [= -> ->]%list_elem_of_singleton & Hin)%list_elem_of_bind.
    by rewrite (next_dispatched k f r1 c1 HK Hf Hin).
Qed.
End props.

(** ** An example *)

(** Calls of every kind, and one of each of the goroutines' steps. *)
Inductive move : Type :=
  | MUnary (method : string) (req : bytes)
  | MOpen (method : string) (first : option bytes)
  | MSend (l : nat) (b : bytes)
  | MSelect (l : nat) (w : uwait)
  | MRecv (l : nat) (w : rwait)
  | MServe
  | MHandler (l : nat)
  | MAttach.

Section run.
Context {Vals : Type} (srv : @Server Vals) (vals : Vals).
Context `{!Codec Frame} `{!Codec ResponseFrame}.

(** An operation of the application that has sent [bs]. *)
Definition exec_app (l : nat) (bs : list bytes) (c' : client) (k : conn) : option conn :=
  if decide (Z.of_nat (cl_next c') ≤ 1073741824 ∧ Forall (λ b, len b < two31) bs) then
    Some {| k_client := c'; k_mux := k_mux k; k_used := k_used k; k_up := k_up k; k_down := k_down k;
            k_sent := note (k_sent k) l bs;
            k_ret := note (k_ret k) l (popped (client_queue (k_client k) l) (client_queue c' l));
            k_got := k_got k; k_gave := k_gave k |}
  else None.

Definition stream_of (l : nat) : ClientStream := {| str_cs := l; str_ctx := background; str_closed := false |}.

(** The first alternative of the step. *)
Definition exec (mv : move) (k : conn) : option conn :=
  match mv with
  | MUnary method req =>
      let '(l, _, c') := invokeUnary_open background method req (k_client k) in exec_app l [req] c' k
  | MOpen method first =>
      let '(s, _, c') := InvokeClientStreaming background method first ∅ (k_client k) in
      exec_app (str_cs s) (option_list first) c' k
  | MSend l b =>
      match Stream_Send (stream_of l) b (k_client k) with
      | (None, c') => exec_app l [b] c' k
      | _ => None
      end
  | MSelect l w => '(_, c') ← head (unary_select None l w (k_client k)); exec_app l [] c' k
  | MRecv l w => '(_, c') ← head (Stream_Recv None l w (k_client k)); exec_app l [] c' k
  | MServe =>
      f ← cl_sent (k_client k) !! k_up k; raw ← marshal f; body ← on_wire f;
      r ← head (serve_iter srv vals (Ok body) (k_mux k));
      match r with
      | (Continue, m') =>
          if decide (0 < len raw < two32) then
            Some {| k_client := k_client k; k_mux := m'; k_used := opened f ∪ k_used k; k_up := S (k_up k);
                    k_down := k_down k; k_sent := k_sent k; k_ret := k_ret k;
                    k_got := k_got k; k_gave := k_gave k |}
          else None
      | _ => None
      end
  | MHandler l =>
      r ← head (handler_step l (k_mux k));
      match r with
      | (FHandled, m') =>
          if decide (Forall (λ b, len b < two31) (wrote (k_mux k) m' l)) then
            Some {| k_client := k_client k; k_mux := m'; k_used := k_used k; k_up := k_up k; k_down := k_down k;
                    k_sent := k_sent k; k_ret := k_ret k;
                    k_got := note (k_got k) l (popped (server_queue (k_mux k) l) (server_queue m' l));
                    k_gave := note (k_gave k) l (wrote (k_mux k) m' l) |}
          else None
      | _ => None
      end
  | MAttach =>
      f ← m_out (k_mux k) !! k_down k; raw ← marshal f; body ← on_wire f;
      r ← head (attach_iter (Ok body) (k_client k));
      match r with
      | (AContinue, c') =>
          if decide (0 < len raw < two32) then
            Some {| k_client := c'; k_mux := k_mux k; k_used := k_used k; k_up := k_up k; k_down := S (k_down k);
                    k_sent := k_sent k; k_ret := k_ret k; k_got := k_got k; k_gave := k_gave k |}
          else None
      | _ => None
      end
  end.

Fixpoint exec_all (mvs : list move) (k : conn) : option conn :=
  match mvs with [] => Some k | mv :: mvs => k' ← exec mv k; exec_all mvs k' end.

Lemma exec_app_step l bs c' k k' :
  client_op (k_client k) l bs c' → exec_app l bs c' k = Some k' → conn_step srv vals k k'.
Proof.
  intros Hop. unfold exec_app. case_decide as Hd; [|done]. intros [= <-]. destruct Hd as [Hn Hl].
  apply k_app; [done|unfold max_streams; lia|done].
Qed.

Lemma move_step mv k k' : exec mv k = Some k' → conn_step srv vals k k'.
Proof.
  destruct mv as [method req|method first|l b|l w|l w| |l|]; cbn [exec].
  - destruct (invokeUnary_open background method req (k_client k)) as [[l q] c'] eqn:E.
    apply exec_app_step. by eapply op_unary.
  - destruct (InvokeClientStreaming background method first ∅ (k_client k)) as [[st ok] c'] eqn:E.
    apply exec_app_step. by eapply op_client_streaming.
  - destruct (Stream_Send (stream_of l) b (k_client k)) as [[e|] c'] eqn:E; [done|].
    apply exec_app_step. by apply (op_send _ (stream_of l)).
  - intros ([o c'] & Hh%head_Some_elem_of & H)%bind_Some. revert H. apply exec_app_step. by eapply op_select.
  - intros ([o c'] & Hh%head_Some_elem_of & H)%bind_Some. revert H. apply exec_app_step. by eapply op_recv.
  - intros (f & Hf & (raw & Hm & (body & Hw & ([r m'] & Hh%head_Some_elem_of & H)%bind_Some)%bind_Some)%bind_Some)%bind_Some.
    destruct r; try done. case_decide; [|done]. injection H as <-. eapply k_serve; [done|by exists raw|done..].
  - intros ([r m'] & Hh%head_Some_elem_of & H)%bind_Some. destruct r; try done.
    case_decide; [|done]. injection H as <-. by eapply k_handler.
  - intros (f & Hf & (raw & Hm & (body & Hw & ([r m'] & Hh%head_Some_elem_of & H)%bind_Some)%bind_Some)%bind_Some)%bind_Some.
    destruct r; try done. case_decide; [|done]. injection H as <-. eapply k_attach; [done|by exists raw|done..].
Qed.

Lemma exec_all_reachable mvs k k' :
  conn_reachable srv vals k → exec_all mvs k = Some k' → conn_reachable srv vals k'.
Proof.
  revert k. induction mvs as [|mv mvs IH]; intros k Hk; cbn [exec_all]; [by intros [= <-]|].
  intros (k1 & H1%move_step & H)%bind_Some. apply (IH k1); [|done]. by eapply rtc_r.
Qed.
End run.

(** Two calls of [/demo/Rev], whose frames and handlers interleave. *)
Definition conn_moves : list move :=
  [MUnary "/demo/Rev" (str_bytes "hi"); MServe; MUnary "/demo/Rev" (str_bytes "abc"); MHandler 0;
   MServe; MServe; MHandler 1; MHandler 1; MServe; MHandler 0; MAttach; MAttach; MSelect 1 UWait;
   MHandler 0; MAttach].

Definition conn_responses (q : Z) (b : bytes) : list ResponseFrame :=
  [mkBegin q (Snapshot ∅); mkData q (Data_Message b);
   mkEnd q {| end_CloseSend := false; end_Status := Some (toProto (Some OK));
              end_Trailer := Some (Snapshot ∅) |}].

#[local] Instance conn_codec1 : Codec Frame := table_codec
  (request_frames (seq_at 0) (unary_call background "/demo/Rev" (str_bytes "hi")) (str_bytes "hi") ++
   request_frames (seq_at 1) (unary_call background "/demo/Rev" (str_bytes "abc")) (str_bytes "abc")).
#[local] Instance conn_codec2 : Codec ResponseFrame := table_codec
  (conn_responses (seq_at 0) (str_bytes "ih") ++ conn_responses (seq_at 1) (str_bytes "cba")).
#[local] Instance conn_laws1 : CodecLaws Frame.
Proof. apply table_codec_laws, Nat.leb_le. by vm_compute. Qed.
#[local] Instance conn_laws2 : CodecLaws ResponseFrame.
Proof. apply table_codec_laws, Nat.leb_le. by vm_compute. Qed.

Definition conn_after (n : nat) : conn := default newConn (exec_all rev_srv tt (take n conn_moves) newConn).

Lemma conn_after_reachable n :
  is_Some (exec_all rev_srv tt (take n conn_moves) newConn) → conn_reachable rev_srv tt (conn_after n).
Proof.
  intros [k Hk]. unfold conn_after. rewrite Hk. cbn. by eapply exec_all_reachable; [apply rtc_refl|].
Qed.

(** The second call, answered and returned while the first is under way. *)
Lemma connection_in_order_witness :
  ∃ cs s, k_sent (conn_after 13) 1%nat = [str_bytes "abc"] ∧ ss_ctx s = None ∧
    k_got (conn_after 13) 1%nat `prefix_of` k_sent (conn_after 13) 1%nat ∧
    k_got (conn_after 13) 1%nat ++ ss_inbound s = k_sent (conn_after 13) 1%nat ∧
    k_ret (conn_after 13) 1%nat = [str_bytes "cba"] ∧
    k_ret (conn_after 13) 1%nat `prefix_of` k_gave (conn_after 13) 1%nat ∧ paired (conn_after 13) 1 1 cs s.
Proof.
  assert (conn_reachable rev_srv tt (conn_after 13)) as Hk.
  { apply conn_after_reachable. vm_compute. by eexists. }
  destruct (cl_heap (k_client (conn_after 13)) !! 1%nat) as [cs|] eqn:Hcs; [|by vm_compute in Hcs].
  destruct (m_heap (k_mux (conn_after 13)) !! 1%nat) as [s|] eqn:Hs; [|by vm_compute in Hs].
  exists cs, s. pose proof Hcs as Hcs'. pose proof Hs as Hs'. vm_compute in Hcs', Hs'.
  injection Hcs' as Ecs. injection Hs' as Es.
  assert (paired (conn_after 13) 1 1 cs s) as Hp.
  { split; [done|]. split; [done|]. by rewrite <- Ecs, <- Es. }
  assert (ss_ctx s = None) as Hctx by by rewrite <- Es.
  destruct (connection_in_order rev_srv tt _ _ _ _ _ Hk Hp) as (_ & Hpre & Hall & Hret & _).
  split; [by vm_compute|]. split; [done|]. split; [by apply Hpre; left|].
  split; [apply Hall; [done|by vm_compute]|]. split; [by vm_compute|]. by split.
Defined.

(** A frame of each direction is on its way. *)
Lemma connection_never_crashes_witness :
  ∃ f g, cl_sent (k_client (conn_after 8)) !! k_up (conn_after 8) = Some f ∧
    m_out (k_mux (conn_after 8)) !! k_down (conn_after 8) = Some g ∧
    (∀ raw r m', unmarshal raw = Some f →
       (r, m') ∈ serve_iter rev_srv tt (Ok raw) (k_mux (conn_after 8)) → r = Continue) ∧
    (∀ raw r c', unmarshal raw = Some g →
       (r, c') ∈ attach_iter (Ok raw) (k_client (conn_after 8)) → r = AContinue).
Proof.
  assert (conn_reachable rev_srv tt (conn_after 8)) as Hk.
  { apply conn_after_reachable. vm_compute. by eexists. }
  destruct (connection_never_crashes rev_srv tt _ Hk) as [Hserve Hattach].
  destruct (cl_sent (k_client (conn_after 8)) !! k_up (conn_after 8)) as [f|] eqn:Hf; [|by vm_compute in Hf].
  destruct (m_out (k_mux (conn_after 8)) !! k_down (conn_after 8)) as [g|] eqn:Hg; [|by vm_compute in Hg].
  exists f, g. split; [done|]. split; [done|].
  split; [intros raw r m'; by apply Hserve|intros raw r c'; by apply Hattach].
Defined.
