(* ===== verification/ConnectionTrace.v ===== *)
(** * What a handler has received and sent is a run of its program

    On a connection ([Connection]) the records of each of the server's streams
    are those of a run of the handler that is registered for its method, so that
    what is true of the runs of a handler is true of every stream it serves,
    among any number of other calls.  With [ConnectionProps] it becomes a
    property of what the application at the client receives. *)

From Stdlib Require Import Strings.Byte ZArith Lia.
From stdpp Require Import numbers strings gmap fin_maps relations list.
From S2P Require Import Prelude Status Messages Transport Chunks Channel RpcServer RpcServerRun RpcServerSafety RpcServerProps RpcClient RpcClientProps EndToEnd Payloads StreamEnd UploadEnd Connection ConnectionSend ConnectionServer ConnectionReturn ConnectionProps.
Open Scope Z_scope.

(** [follows p got gave p']: the program has received [got], has sent [gave],
    and what is left of it is [p']. *)
Inductive follows (p : prog) : list bytes → list bytes → prog → Prop :=
  | fo_start : follows p [] [] p
  | fo_recv got gave k b : follows p got gave (RpcServer.Recv k) → follows p (got ++ [b]) gave (k (inl b))
  | fo_recv_error got gave k e : follows p got gave (RpcServer.Recv k) → follows p got gave (k (inr e))
  | fo_send got gave b k : follows p got gave (RpcServer.Send b k) → follows p got (gave ++ [b]) (k None)
  | fo_send_error got gave b k e : follows p got gave (RpcServer.Send b k) → follows p got gave (k (Some e))
  | fo_set_header got gave kv k : follows p got gave (CallSetHeader kv k) → follows p got gave k
  | fo_set_trailer got gave kv k : follows p got gave (CallSetTrailer kv k) → follows p got gave k
  | fo_header got gave md k : follows p got gave (CallHeader k) → follows p got gave (k md)
  | fo_ctx got gave e k : follows p got gave (CtxErr k) → follows p got gave (k e).

(** The goroutine is at the program, or in its [Recv], or has returned. *)
Definition thread_at (t : option thread) (p : prog) : Prop :=
  match t with
  | Some (Running p') => p' = p
  | Some (InSelect k) => p = RpcServer.Recv k
  | None => True
  end.

(** What a step of the goroutine at [l] leaves. *)
Record moved (m m' : mux) (l : nat) (s s' : stream) : Prop := {
  mo_heap : m_heap m' = <[l := s']> (m_heap m);
  mo_method : ss_method s' = ss_method s;
  mo_threads l' : l' ≠ l → m_threads m' !! l' = m_threads m !! l';
  mo_follows p0 got gave p :
    follows p0 got gave p → thread_at (m_threads m !! l) p →
    ∃ p', follows p0 (got ++ popped (ss_inbound s) (ss_inbound s')) (gave ++ wrote m m' l) p' ∧
      thread_at (m_threads m' !! l) p' }.

Lemma moved_to m m' l s s' t t' ds ws :
  m_threads m !! l = Some t → m_heap m' = <[l := s']> (m_heap m) → ss_method s' = ss_method s →
  m_threads m' = <[l := t']> (m_threads m) ∨ m_threads m' = delete l (m_threads m) ∧ t' = t →
  popped (ss_inbound s) (ss_inbound s') = ds → wrote m m' l = ws →
  (∀ p0 got gave p, follows p0 got gave p → thread_at (Some t) p →
     ∃ p', follows p0 (got ++ ds) (gave ++ ws) p' ∧ thread_at (Some t') p') →
  moved m m' l s s'.
Proof.
  intros Ht Hh Hm Hth <- <- Hf. split; [done|done| |].
  - intros l' Hne. destruct Hth as [->|[-> _]]; [by rewrite lookup_insert_ne|by rewrite lookup_delete_ne].
  - intros p0 got gave p Hp. rewrite Ht. intros Hat. destruct (Hf _ _ _ _ Hp Hat) as (p' & Hp' & Hat').
    exists p'. split; [done|]. destruct Hth as [->|[-> _]]; [by rewrite lookup_insert, decide_True|].
    by rewrite lookup_delete, decide_True.
Qed.

(** A step that takes no message and sends none. *)
Lemma moved_quiet m m' l s s' p p' :
  m_threads m !! l = Some (Running p) → m_heap m' = <[l := s']> (m_heap m) → ss_method s' = ss_method s →
  m_threads m' = <[l := Running p']> (m_threads m) → ss_inbound s' = ss_inbound s →
  (∀ b k, p ≠ RpcServer.Send b k) →
  (∀ p0 got gave, follows p0 got gave p → follows p0 got gave p') →
  moved m m' l s s'.
Proof.
  intros Ht Hh Hm Hth Hin Hno Hf. eapply (moved_to _ _ _ _ _ _ _ [] []); [done..|by left| | |].
  - rewrite Hin. apply popped_all.
  - unfold wrote. rewrite Ht. by destruct p; try destruct (Hno _ _ eq_refl).
  - intros p0 got gave p1 Hp <-. exists p'. rewrite !app_nil_r. split; [by apply Hf|done].
Qed.

Lemma finish_moved m used l s st r m' :
  up m → Inv m used → m_threads m !! l = Some (Running (Return st)) → m_heap m !! l = Some s →
  (r, m') ∈ finish l s st m → ∃ s', moved m m' l s s'.
Proof.
  intros Hup Hinv Ht Hs. unfold finish.
  set (e := {| end_CloseSend := _; end_Status := _; end_Trailer := _ |}).
  assert (∀ m1 s1, m_heap m1 = <[l := s1]> (m_heap m) → ss_method s1 = ss_method s → ss_inbound s1 = ss_inbound s →
    m_threads m1 = delete l (m_threads m) → moved m m1 l s s1) as Hdone.
  { intros m1 s1 Hh Hm Hin Hth. eapply (moved_to _ _ _ _ _ _ (Running (Return st)) [] []); [done..|by right| | |].
    - rewrite Hin. apply popped_all.
    - unfold wrote. by rewrite Ht.
    - intros p0 got gave p1 Hp <-. exists (Return st). by rewrite !app_nil_r. }
  destruct (lookup_own _ _ _ _ Hinv Hs) as [Hl|Hl].
  - rewrite (endStream_up_some _ e _ _ _ Hup Hl Hs), bind_one, write_outs_spec.
    intros [= -> ->]%list_elem_of_singleton. exists (cancel_ctx Canceled (with_headerSent s)).
    apply Hdone; try done. cbn. rewrite (alter_Some with_headerSent _ _ s) by done.
    rewrite (alter_Some _ _ _ (with_headerSent s)) by by rewrite lookup_insert, decide_True.
    by rewrite insert_insert, decide_True.
  - rewrite (endStream_up_none _ e _ Hup Hl), bind_one. intros [= -> ->]%list_elem_of_singleton.
    exists (cancel_ctx Canceled s). apply Hdone; try done. cbn. by apply alter_Some.
Qed.

Lemma data_frames_nonempty q b : data_frames q b ≠ [].
Proof.
  unfold data_frames. destruct (Z.leb_spec (len b) MessageMax) as [|Hgt]; [done|].
  intros E%map_eq_nil. pose proof (fragment_concat ChunkSize b eq_refl) as Hc. rewrite E in Hc.
  cbn in Hc. by subst b.
Qed.

Lemma Send_moved m used l s b k r m' :
  up m → Inv m used → m_threads m !! l = Some (Running (RpcServer.Send b k)) → m_heap m !! l = Some s →
  (r, m') ∈ handler_step l m → ∃ s', moved m m' l s s'.
Proof.
  intros Hup Hinv Ht Hs. unfold handler_step. rewrite Ht, Hs.
  destruct (lookup_own _ _ _ _ Hinv Hs) as [Hl|Hl].
  - rewrite stream_Send_up with (s := s), bind_one, write_outs_spec by done.
    intros [= -> ->]%list_elem_of_singleton. exists (with_headerSent s).
    eapply (moved_to _ _ _ _ _ _ (Running (k None)) [] [b]); [done|cbn; by apply alter_Some|done|by left|apply popped_all| |].
    + unfold wrote. rewrite Ht. cbn [m_out set_thread set_threads]. rewrite (proj2 (Nat.ltb_lt _ _)); [done|].
      rewrite !length_app. pose proof (data_frames_nonempty (ss_seq s) b). destruct (data_frames _ b); [done|]. cbn. lia.
    + intros p0 got gave p Hp <-. exists (k None). rewrite app_nil_r. split; [by eapply fo_send|done].
  - rewrite stream_Send_gone with (s := s), bind_one by done. intros [= -> ->]%list_elem_of_singleton. exists s.
    eapply (moved_to _ _ _ _ _ _ (Running (k (Some ErrClosedPipe))) [] []);
      [done|cbn; by rewrite insert_id|done|by left|apply popped_all| |].
    + unfold wrote. rewrite Ht. cbn [m_out set_thread set_threads]. by rewrite Nat.ltb_irrefl.
    + intros p0 got gave p Hp <-. eexists. rewrite !app_nil_r. split; [by eapply fo_send_error|done].
Qed.

(** A message that the goroutine takes, from [Recv] or its [select]. *)
Lemma taken_moved m l s t k b rest :
  m_threads m !! l = Some t → t = Running (RpcServer.Recv k) ∨ t = InSelect k → m_heap m !! l = Some s →
  ss_inbound s = b :: rest →
  moved m (set_thread l (Running (k (inl b))) (RpcServer.update l (RpcServer.with_inbound rest) m)) l s
    (RpcServer.with_inbound rest s).
Proof.
  intros Ht Hk Hs Hq. eapply (moved_to _ _ _ _ _ _ (Running (k (inl b))) [b] []);
    [exact Ht|cbn; by apply alter_Some|done|by left|cbn; by rewrite Hq, popped_one| |].
  - unfold wrote. rewrite Ht. by destruct Hk as [-> | ->].
  - intros p0 got gave p Hp Hat. exists (k (inl b)). rewrite app_nil_r. split; [|done]. apply fo_recv.
    by destruct Hk as [-> | ->]; cbn in Hat; subst.
Qed.

(** The end or an error that [Recv]'s [select] returns. *)
Lemma select_moved m l s k e :
  m_threads m !! l = Some (InSelect k) → m_heap m !! l = Some s →
  moved m (set_thread l (Running (k (inr e))) m) l s s.
Proof.
  intros Ht Hs. eapply (moved_to _ _ _ _ _ _ (Running (k (inr e))) [] []);
    [exact Ht|cbn; by rewrite insert_id|done|by left|apply popped_all|unfold wrote; by rewrite Ht|].
  intros p0 got gave p Hp Hat. cbn in Hat. subst p. eexists. rewrite !app_nil_r. split; [by apply fo_recv_error|done].
Qed.

Lemma handler_moved m used l m' :
  up m → hdr_clear m → Inv m used → (FHandled, m') ∈ handler_step l m →
  ∃ s s', m_heap m !! l = Some s ∧ moved m m' l s s'.
Proof.
  intros Hup Hc Hinv Hin.
  destruct (m_threads m !! l) as [t|] eqn:Ht;
    [|unfold handler_step in Hin; rewrite Ht in Hin; by apply elem_of_nil in Hin].
  destruct (inv_threads _ _ Hinv l) as [s Hs]; [by exists t|]. exists s.
  destruct t as [[st|k|b k|kv k|kv k|k|k]|k].
  3: by destruct (Send_moved _ _ _ _ _ _ _ _ Hup Hinv Ht Hs Hin) as [s' H]; exists s'.
  all: unfold handler_step in Hin; rewrite Ht, Hs in Hin.
  - destruct (finish_moved _ _ _ _ _ _ _ Hup Hinv Ht Hs Hin) as [s' H]. by exists s'.
  - destruct (ss_inbound s) as [|b rest] eqn:Hq; apply list_elem_of_singleton in Hin as [= ->].
    + exists s. split; [done|]. eapply (moved_to _ _ _ _ _ _ (InSelect k) [] []);
        [exact Ht|cbn; by rewrite insert_id|done|by left|apply popped_all|unfold wrote; by rewrite Ht|].
      intros p0 got gave p Hp Hat. cbn in Hat. subst p. eexists. rewrite !app_nil_r. split; [exact Hp|done].
    + eexists. split; [done|]. eapply taken_moved; [exact Ht|by left|done|done].
  - unfold stream_SetHeader in Hin. rewrite (Hc l s Hs) in Hin. apply list_elem_of_singleton in Hin as [= ->].
    eexists. split; [done|]. eapply (moved_quiet _ _ _ _ (with_hdr (SetHeader (ss_hdr s) kv) s) _ k);
      [exact Ht|cbn; by erewrite alter_Some|done..|by intros; eapply fo_set_header].
  - apply list_elem_of_singleton in Hin as [= ->]. eexists. split; [done|].
    eapply (moved_quiet _ _ _ _ (stream_SetTrailer kv s) _ k); [exact Ht|cbn; by erewrite alter_Some|done..|].
    by intros; eapply fo_set_trailer.
  - apply list_elem_of_singleton in Hin as [= ->]. exists s. split; [done|].
    eapply (moved_quiet _ _ _ _ s _ (k (stream_Header s))); [exact Ht|cbn; by rewrite insert_id|done..|].
    by intros; eapply fo_header.
  - apply list_elem_of_singleton in Hin as [= ->]. exists s. split; [done|].
    eapply (moved_quiet _ _ _ _ s _ (k (ss_ctx s))); [exact Ht|cbn; by rewrite insert_id|done..|].
    by intros; eapply fo_ctx.
  - apply elem_of_app in Hin as [Hin|[Hin|Hin]%elem_of_app].
    + destruct (ss_inbound s) as [|b rest] eqn:Hq; [by apply elem_of_nil in Hin|].
      apply list_elem_of_singleton in Hin as [= ->]. eexists. split; [done|].
      eapply taken_moved; [exact Ht|by right|done|done].
    + destruct (ss_halfClose s); [|by apply elem_of_nil in Hin].
      apply list_elem_of_singleton in Hin as [= ->]. exists s. split; [done|by apply select_moved].
    + destruct (ss_ctx s); [|by apply elem_of_nil in Hin].
      apply list_elem_of_singleton in Hin as [= ->]. exists s. split; [done|by apply select_moved].
Qed.

(** ** Frames *)

(** The goroutines stay, and so do the methods of the streams. *)
Definition same_methods (m m' : mux) : Prop :=
  m_threads m' = m_threads m ∧
  ∀ l s', m_heap m' !! l = Some s' → ∃ s, m_heap m !! l = Some s ∧ ss_method s' = ss_method s.

Lemma same_methods_refl m : same_methods m m.
Proof. split; [done|]. intros l s Hs. by exists s. Qed.

Lemma same_methods_update m l g :
  (∀ s, ss_method (g s) = ss_method s) → same_methods m (RpcServer.update l g m).
Proof.
  intros Hg. split; [done|]. cbn. intros l1 s1 [(<- & s & Hs & ->)|[_ Hs]]%lookup_alter_Some; [|by exists s1].
  exists s. split; [done|apply Hg].
Qed.

Lemma deliverPayload_methods q b m m' : m' ∈ deliverPayload q b m → same_methods m m'.
Proof.
  unfold deliverPayload. destruct (lookupStream q m) as [l|].
  - destruct (m_heap m !! l) as [s|]; [|by intros ?%elem_of_nil]. intros [H|H]%elem_of_app.
    + case_decide; [|by apply elem_of_nil in H]. apply list_elem_of_singleton in H as ->.
      by apply same_methods_update.
    + destruct (ss_ctx s); [|by apply elem_of_nil in H]. apply list_elem_of_singleton in H as ->.
      apply same_methods_refl.
  - intros ->%list_elem_of_singleton. apply same_methods_refl.
Qed.

Lemma handleEnd_methods q e m : same_methods m (handleEnd q e m).
Proof.
  unfold handleEnd. destruct e as [e|]; [|apply same_methods_refl].
  destruct (lookupStream q m) as [l|]; [|apply same_methods_refl].
  destruct (end_CloseSend e); [by apply same_methods_update|].
  by apply (same_methods_update m l (cancel_ctx Canceled)).
Qed.

Section runs.
Context {Vals : Type} (srv : @Server Vals) (vals : Vals).

(** [go m.runHandler(...)]: what every stream's goroutine runs. *)
Definition Runs (m : mux) (got gave : record) : Prop :=
  ∀ l s, m_heap m !! l = Some s → ∃ md v p,
    findMethod srv (ss_method s) = Some md ∧ v_Method v = ss_method s ∧
    follows (handler_prog srv vals md v) (got l) (gave l) p ∧ thread_at (m_threads m !! l) p.

Lemma Runs_same m m' got gave : same_methods m m' → Runs m got gave → Runs m' got gave.
Proof.
  intros [Et Hh] HR l s' Hs'. destruct (Hh l s' Hs') as (s & Hs & ->).
  destruct (HR l s Hs) as (md & v & p & ?). exists md, v, p. by rewrite Et.
Qed.

Lemma Runs_handler m m' l s s' got gave :
  m_heap m !! l = Some s → moved m m' l s s' → Runs m got gave →
  Runs m' (note got l (popped (server_queue m l) (server_queue m' l))) (note gave l (wrote m m' l)).
Proof.
  intros Hs [Eh Em Et Hf] HR l1 s1 Hs1.
  assert (server_queue m l = ss_inbound s) as -> by (unfold server_queue; by rewrite Hs).
  assert (server_queue m' l = ss_inbound s') as ->.
  { unfold server_queue. by rewrite Eh, lookup_insert, decide_True. }
  rewrite Eh in Hs1. apply lookup_insert_Some in Hs1 as [[<- <-]|[Hne Hs1]].
  - destruct (HR l s Hs) as (md & v & p & H1 & H2 & H3 & H4). destruct (Hf _ _ _ _ H3 H4) as (p' & H3' & H4').
    exists md, v, p'. by rewrite Em, !note_same.
  - destruct (HR l1 s1 Hs1) as (md & v & p & ?). exists md, v, p. rewrite !note_other, Et by done. done.
Qed.

(** A frame that is no call, and a call. *)
Lemma Runs_frame m m' used got gave f :
  up m → Inv m used → req_seq f ∉ used ∨ ¬ is_call f → int32 (req_seq f) = req_seq f →
  got (m_next m) = [] → gave (m_next m) = [] →
  (FHandled, m') ∈ handleFrame srv vals f m → Runs m got gave → Runs m' got gave.
Proof.
  intros Hup Hinv Hcall Hi Hg1 Hg2 Hh HR. unfold is_call in Hcall.
  destruct (f_Type f) as [[call|d|e]|] eqn:Ht.
  - destruct Hcall as [Hq|[]]; [|done]. pose proof (lookup_unused _ _ _ Hinv Hq) as Hl.
    assert (∀ e, (FHandled, m') ∈ (endStream (req_seq f) e m ≫=
      (λ '(r, m), [(match r with QStuck => FStuck | _ => FHandled end, m)])) → Runs m' got gave) as Hrej.
    { intros e. rewrite endStream_up_none, bind_one by done. by intros [= ->]%list_elem_of_singleton. }
    destruct call as [call|].
    + destruct (findMethod srv (call_Method call)) as [md|] eqn:Hmd.
      * rewrite (handleFrame_call _ _ _ _ _ Ht Hi), (handles_call srv vals _ call m md Hup Hi Hl Hmd) in Hh.
        apply list_elem_of_singleton in Hh as [= ->]. intros l s Hs. cbn in Hs |- *.
        apply lookup_alter_Some in Hs as [(<- & s0 & Hs0 & ->)|[Hne Hs]].
        -- rewrite lookup_insert, decide_True in Hs0 by done. injection Hs0 as <-.
           exists md, {| v_Method := call_Method call; v_Incoming := call_Metadata call |}. eexists.
           rewrite Hg1, Hg2, lookup_insert, decide_True by done. by split_and!; [done|done|apply fo_start|].
        -- rewrite lookup_insert_ne in Hs by done. destruct (HR l s Hs) as (md1 & v & p & ?).
           exists md1, v, p. by rewrite lookup_insert_ne.
      * unfold handleFrame in Hh. rewrite Ht in Hh. fold (req_seq f) in Hh. unfold RpcServer.openStream in Hh.
        rewrite Hmd in Hh. by eapply Hrej.
    + unfold handleFrame in Hh. rewrite Ht in Hh. by eapply Hrej.
  - unfold handleFrame in Hh. rewrite Ht in Hh. unfold deliverData in Hh. clear Hcall Hg1 Hg2.
    assert ((FHandled, m') ∈ [(FHandled, m)] → Runs m' got gave) as Hsame.
    { by intros [= ->]%list_elem_of_singleton. }
    assert (∀ b r, (FHandled, m') ∈ pair FHandled <$> deliverPayload (req_seq f) b (RpcServer.set_reasm r m) → Runs m' got gave)
      as Hdel.
    { intros b r (m1 & [= ->] & Hm1)%list_elem_of_fmap. apply deliverPayload_methods in Hm1.
      by eapply Runs_same; [exact Hm1|]. }
    destruct d as [d|]; [|by apply Hsame]. destruct (data_Content d) as [[b|ch]|]; [| |by apply Hsame].
    + apply (Hdel b (m_reasm m)). by destruct m.
    + destruct (Reassembler.Reassemble _ _ _ _ _) as [[[b|]|x|x] r]; [by apply (Hdel b r)| |by apply list_elem_of_singleton in Hh..].
      by apply list_elem_of_singleton in Hh as [= ->].
  - unfold handleFrame in Hh. rewrite Ht in Hh. apply list_elem_of_singleton in Hh as [= ->].
    eapply Runs_same; [apply handleEnd_methods|done].
  - unfold handleFrame in Hh. rewrite Ht in Hh. by apply list_elem_of_singleton in Hh as [= ->].
Qed.

Context `{!Codec Frame, !CodecLaws Frame} `{!Codec ResponseFrame, !CodecLaws ResponseFrame}.

Lemma conn_runs k : conn_reachable srv vals k → KInv k ∧ Runs (k_mux k) (k_got k) (k_gave k).
Proof.
  revert k. apply (rtc_ind_r (λ k, KInv k ∧ Runs (k_mux k) (k_got k) (k_gave k))).
  { split; [apply KInv_init|]. intros l s Hs. by cbn in Hs. }
  intros k k' _ Hstep [HK HR]. split; [by eapply KInv_step|].
  destruct Hstep as [l bs c' _ _ _|f raw m' Hf Hs Hw Hh|l m' Hh _|l s _ _|f raw c' _ _ _ _]; cbn; [done| | | |done].
  - destruct (on_wire_sendable f Hs) as (raw' & Hw' & Hu). rewrite Hw in Hw'. injection Hw' as <-.
    assert ((FHandled, m') ∈ handleFrame srv vals f (k_mux k)) as Hf1 by by eapply serve_handled.
    destruct (next_request k f HK Hf) as (_ & Hi & Hfirst & _).
    eapply (Runs_frame _ _ (k_used k) _ _ f); [apply HK|apply HK| |done|..|exact Hf1|exact HR].
    + destruct (decide (is_call f)) as [Hc|]; [left; by apply Hfirst|by right].
    + by apply (ge_fresh _ _ _ _ (ki_gets _ HK)).
    + by apply (gi_fresh _ _ (ki_gives _ HK)).
  - destruct (handler_moved _ _ _ _ (ki_conn _ HK) (ki_clear _ HK) (ki_mux _ HK) Hh) as (s & s' & Hs & Hm).
    by eapply Runs_handler.
  - eapply Runs_same; [by apply same_methods_update|done].
Qed.

(** A stream with the stream it is paired with. *)
Lemma stream_run k l ls cs s :
  KInv k → Runs (k_mux k) (k_got k) (k_gave k) → paired k l ls cs s →
  ∃ md v p got gave, findMethod srv (ss_method s) = Some md ∧ v_Method v = ss_method s ∧
    follows (handler_prog srv vals md v) got gave p ∧
    got `sublist_of` k_sent k l ∧ (ss_ctx s = None ∨ ss_timeout s ≤ 0 → got `prefix_of` k_sent k l) ∧
    k_ret k l `prefix_of` gave.
Proof.
  intros HK HR (Hl & Hls & Hq).
  destruct (HR ls s Hls) as (md & v & p & Hmd & Hv & Hf & _).
  destruct (known_stream _ _ _ (ki_client _ HK) Hl) as [Hlt Hcs]. rewrite Hcs in Hq.
  destruct (taken_got k l ls s HK Hlt Hls Hq) as (xs & Hpre & _ & [O1 O2 _ _]).
  destruct (taken_returned k l ls cs s HK Hl Hls Hq) as (ys & bs & Hpre' & _ & _ & Hret & _).
  exists md, v, p, (k_got k ls), (k_gave k ls). split_and!; [done..| | |].
  - destruct Hpre as [zs ->]. apply sublist_inserts_r. etrans; [|exact O1]. by apply sublist_inserts_r.
  - intros H. etrans; [|exact Hpre]. etrans; [|by apply O2]. by apply prefix_app_r.
  - etrans; [|exact Hpre']. etrans; [|exact Hret]. by apply prefix_app_r.
Qed.

(** A server's streams are runs of its handlers, and the calls of a client
    are conversations with them.  Whatever else goes on over the connection, for
    each stream of the client that the server has opened there is a handler
    registered for its method, and a run of this handler, such that the handler
    has received a subsequence of what the application has sent (a prefix of it
    unless a deadline has passed), and the application has received a prefix of
    what this run has sent.  So what is true of all runs of a handler is true of
    every call of its method. *)
Theorem calls_are_runs k l ls cs s :
  conn_reachable srv vals k → paired k l ls cs s →
  ∃ md v p got gave, findMethod srv (ss_method s) = Some md ∧ v_Method v = ss_method s ∧
    follows (handler_prog srv vals md v) got gave p ∧
    got `sublist_of` k_sent k l ∧ (ss_ctx s = None ∨ ss_timeout s ≤ 0 → got `prefix_of` k_sent k l) ∧
    k_ret k l `prefix_of` gave.
Proof. intros Hk Hp. destruct (conn_runs k Hk) as [HK HR]. by eapply stream_run. Qed.
End runs.

#[local] Existing Instances conn_codec1 conn_codec2 conn_laws1 conn_laws2.

(** The second call of the example. *)
Lemma calls_are_runs_witness :
  ∃ cs s md v p got gave, paired (conn_after 13) 1 1 cs s ∧
    findMethod rev_srv (ss_method s) = Some md ∧ v_Method v = ss_method s ∧
    follows (handler_prog rev_srv tt md v) got gave p ∧ got `sublist_of` [str_bytes "abc"] ∧
    [str_bytes "cba"] `prefix_of` gave.
Proof.
  assert (conn_reachable rev_srv tt (conn_after 13)) as Hk.
  { apply conn_after_reachable. vm_compute. by eexists. }
  destruct (cl_heap (k_client (conn_after 13)) !! 1%nat) as [cs|] eqn:Hcs; [|by vm_compute in Hcs].
  destruct (m_heap (k_mux (conn_after 13)) !! 1%nat) as [s|] eqn:Hs; [|by vm_compute in Hs].
  assert (paired (conn_after 13) 1 1 cs s) as Hp.
  { split; [done|]. split; [done|]. vm_compute in Hcs, Hs. injection Hcs as <-. by injection Hs as <-. }
  destruct (calls_are_runs rev_srv tt (conn_after 13) 1 1 cs s Hk Hp)
    as (md & v & p & got & gave & Hmd & Hv & Hf & Hsub & _ & Hret).
  exists cs, s, md, v, p, got, gave. split_and!; [done..| |].
  - by assert (k_sent (conn_after 13) 1%nat = [str_bytes "abc"]) as <- by by vm_compute.
  - by assert (k_ret (conn_after 13) 1%nat = [str_bytes "cba"]) as <- by by vm_compute.
Defined.
