(* ===== verification/ConnectionMethods.v ===== *)
(** * Who answers a call

    On a connection ([Connection]) the frames of a stream carry a sequence number
    and no method.  Here the method that the application has called is carried
    through: what it receives on a stream has been sent by the handler that the
    server has registered for this method, which has received nothing but what
    the application has sent on the same stream. *)

From Stdlib Require Import Strings.Byte ZArith Lia.
From stdpp Require Import numbers strings gmap fin_maps relations list.
From S2P Require Import Prelude Status Messages Transport Chunks Channel RpcServer RpcServerRun RpcServerSafety RpcServerProps RpcClient RpcClientProps EndToEnd Payloads StreamEnd UploadEnd Connection ConnectionSend ConnectionServer ConnectionReturn ConnectionProps ConnectionTrace.
Open Scope Z_scope.

(** ** The sequence and the method of each stream, at both ends *)

Definition calls (c : client) : gmap nat (Z * string) := (λ cs, (cs_seq cs, cs_method cs)) <$> cl_heap c.

Definition services (m : mux) : gmap nat (Z * string) := (λ s, (ss_seq s, ss_method s)) <$> m_heap m.

Lemma fmap_alter_same {A B} (h : A → B) (g : A → A) (l : nat) (M : gmap nat A) :
  (∀ x, h (g x) = h x) → h <$> alter g l M = h <$> M.
Proof.
  intros Hg. apply map_eq. intros l'. rewrite !lookup_fmap, lookup_alter. case_decide as E; [subst l'|done].
  destruct (M !! l) as [x|]; [|done]. cbn. by rewrite Hg.
Qed.

Lemma calls_update l g c :
  (∀ cs, cs_seq (g cs) = cs_seq cs ∧ cs_method (g cs) = cs_method cs) → calls (RpcClient.update l g c) = calls c.
Proof. intros Hg. apply fmap_alter_same. intros cs. by destruct (Hg cs) as [-> ->]. Qed.

Lemma services_update l g m :
  (∀ s, ss_seq (g s) = ss_seq s ∧ ss_method (g s) = ss_method s) → services (RpcServer.update l g m) = services m.
Proof. intros Hg. apply fmap_alter_same. intros s. by destruct (Hg s) as [-> ->]. Qed.

(** *** The client *)

Lemma calls_deliver l b c c' : c' ∈ deliver l b c → calls c' = calls c.
Proof.
  unfold deliver. destruct (cl_heap c !! l) as [cs|]; [|by intros ?%elem_of_nil]. intros [H|H]%elem_of_app.
  - case_decide; [|by apply elem_of_nil in H]. apply list_elem_of_singleton in H as ->. by apply calls_update.
  - destruct (cs_end cs); [|by apply elem_of_nil in H]. by apply list_elem_of_singleton in H as ->.
Qed.

Lemma calls_dispatch f r c c' : (r, c') ∈ dispatch f c → calls c' = calls c.
Proof.
  unfold dispatch. destruct (cl_streams c !! _) as [l|]; [|by intros [= _ ->]%list_elem_of_singleton].
  assert (∀ l h, calls (RpcClient.update l (λ cs, with_header (h cs) cs) c) = calls c) as Hh by (intros; by apply calls_update).
  assert (∀ l h, calls (RpcClient.update l (λ cs, with_trailer (h cs) cs) c) = calls c) as Ht by (intros; by apply calls_update).
  destruct (rf_Type f) as [[b|d|e]|]; [| | |by intros [= _ ->]%list_elem_of_singleton].
  - intros (c1 & [= _ ->] & H)%list_elem_of_fmap. unfold dispatch_begin in H.
    destruct b as [b|]; [|by apply list_elem_of_singleton in H as ->].
    destruct (begin_Header b), (begin_InlineData b) as [d|]; try destruct (0 <? len d);
      try (apply list_elem_of_singleton in H as ->; done || apply Hh); apply calls_deliver in H; rewrite H; done || apply Hh.
  - destruct (GetContent d) as [[b|ch]|]; [| |by intros [= _ ->]%list_elem_of_singleton].
    + intros (c1 & [= _ ->] & H)%list_elem_of_fmap. by apply calls_deliver in H.
    + destruct (Reassembler.Reassemble _ _ _ _ _) as [[[b|]|x|x] rs];
        try by intros [= _ ->]%list_elem_of_singleton.
      intros (c1 & [= _ ->] & H)%list_elem_of_fmap. by apply calls_deliver in H.
  - intros [= _ ->]%list_elem_of_singleton. unfold dispatch_end, calls. cbn [set_streams cl_heap].
    change (calls (RpcClient.update l (end_once {| er_status := match e with Some e => match end_Status e with
      Some p => statusFromProto (Some p) | None => OK end | None => OK end; er_err := Status_Err (Some (match e with Some e => match end_Status e with
      Some p => statusFromProto (Some p) | None => OK end | None => OK end)) |})
      (match e with Some e => match end_Trailer e with
       | Some t => RpcClient.update l (λ cs, with_trailer (mergeIn (cs_trailer cs) (map_to_list t)) cs) c | None => c end | None => c end)) = calls c).
    rewrite calls_update by (intros cs; unfold end_once; by destruct (cs_end cs)).
    destruct e as [e|]; [|done]. destruct (end_Trailer e); [apply Ht|done].
Qed.

(** An operation of the application opens at most one stream, and says so in
    the frames that it sends. *)
Lemma calls_effect c l bs c' :
  CInv c → effect c l bs c' →
  ∃ fs, cl_sent c' = cl_sent c ++ fs ∧ (∀ i p, calls c !! i = Some p → calls c' !! i = Some p) ∧
    ∀ f call, f ∈ fs → f_Type f = Some (Frame_Call (Some call)) → ∃ i, calls c' !! i = Some (req_seq f, call_Method call).
Proof.
  intros Hc. destruct 1 as [q call fs c1 c2 method Ho Hm -> Hfs _|q fs c2 Hl Hq -> Hfs _|_|cs r rest _ _ _|seq _].
  - destruct (openStream_value _ _ _ _ _ Ho Hc) as (El & Eq & _ & _ & _ & Es & _ & _ & Eh).
    rewrite foldl_sendFrame. exists (mkCall q call :: fs). unfold calls. cbn [cl_sent cl_heap]. rewrite Es, Eh, fmap_insert.
    split; [done|]. split.
    + intros i p Hi. rewrite lookup_insert_ne; [done|]. intros <-. rewrite lookup_fmap in Hi.
      destruct (cl_heap c !! l) as [cs|] eqn:Hl; [|done]. apply (ci_heap _ Hc) in Hl as [? _]. lia.
    + intros f call' [->|Hf]%elem_of_cons Ht.
      * injection Ht as <-. exists l. rewrite lookup_insert_eq. cbn. unfold req_seq. cbn. by rewrite Eq, seq_at_int32, Hm.
      * unfold stream_frames in Hfs. rewrite Forall_forall in Hfs. destruct (Hfs f Hf) as [_ Hn]. destruct Hn. unfold is_call. by rewrite Ht.
  - rewrite foldl_sendFrame. exists fs. split; [done|]. split; [done|]. intros f call Hf Ht.
    unfold stream_frames in Hfs. rewrite Forall_forall in Hfs. destruct (Hfs f Hf) as [_ Hn]. destruct Hn. unfold is_call. by rewrite Ht.
  - exists []. rewrite app_nil_r. split; [done|]. split; [done|]. by intros f call ?%elem_of_nil.
  - exists []. rewrite app_nil_r. split; [done|]. rewrite calls_update by done. split; [done|]. by intros f call ?%elem_of_nil.
  - exists []. rewrite app_nil_r. split; [done|]. split; [done|]. by intros f call ?%elem_of_nil.
Qed.

(** *** The server *)

Lemma services_deliver q b m m' : m' ∈ deliverPayload q b m → services m' = services m ∧ m_out m' = m_out m.
Proof.
  unfold deliverPayload. destruct (lookupStream q m) as [l|]; [|by intros ->%list_elem_of_singleton].
  destruct (m_heap m !! l) as [s|]; [|by intros ?%elem_of_nil]. intros [H|H]%elem_of_app.
  - case_decide; [|by apply elem_of_nil in H]. apply list_elem_of_singleton in H as ->. by rewrite services_update.
  - destruct (ss_ctx s); [|by apply elem_of_nil in H]. by apply list_elem_of_singleton in H as ->.
Qed.

Lemma services_end q e m : services (handleEnd q e m) = services m ∧ m_out (handleEnd q e m) = m_out m.
Proof.
  unfold handleEnd. destruct e as [e|]; [|done]. destruct (lookupStream q m) as [l|]; [|done].
  destruct (end_CloseSend e); [by rewrite services_update|].
  split; [|done]. by apply (services_update l (cancel_ctx Canceled) m).
Qed.

Section methods.
Context {Vals : Type} (srv : @Server Vals) (vals : Vals).

Lemma services_frame f m m' used :
  up m → Inv m used → req_seq f ∉ used ∨ ¬ is_call f → int32 (req_seq f) = req_seq f →
  (FHandled, m') ∈ handleFrame srv vals f m →
  (∃ gs, m_out m' = m_out m ++ gs ∧ Forall (λ g, resp_content g = None) gs) ∧
  (services m' = services m ∨
   ∃ call, f_Type f = Some (Frame_Call (Some call)) ∧ services m !! m_next m = None ∧
     services m' = <[m_next m := (req_seq f, call_Method call)]> (services m)).
Proof.
  intros Hup Hinv Hcall Hi Hh. unfold is_call in Hcall.
  assert (m_out m' = m_out m → ∃ gs, m_out m' = m_out m ++ gs ∧ Forall (λ g, resp_content g = None) gs) as Hnil.
  { intros ->. exists []. by rewrite app_nil_r. }
  assert (services m' = services m ∧ m_out m' = m_out m → (∃ gs, m_out m' = m_out m ++ gs ∧ Forall (λ g, resp_content g = None) gs) ∧
    (services m' = services m ∨ ∃ call, f_Type f = Some (Frame_Call (Some call)) ∧ services m !! m_next m = None ∧
     services m' = <[m_next m := (req_seq f, call_Method call)]> (services m))) as Hsame by (intros [? ?]; auto).
  destruct (f_Type f) as [[call|d|e]|] eqn:Ht; cycle 1.
  - apply Hsame. unfold handleFrame in Hh. rewrite Ht in Hh. unfold deliverData in Hh.
    assert (∀ b r, (FHandled, m') ∈ pair FHandled <$> deliverPayload (req_seq f) b (RpcServer.set_reasm r m) →
      services m' = services m ∧ m_out m' = m_out m) as Hdel.
    { intros b r (m1 & [= ->] & Hm1)%list_elem_of_fmap. by apply services_deliver in Hm1. }
    destruct d as [d|]; [|by apply list_elem_of_singleton in Hh as [= ->]].
    destruct (data_Content d) as [[b|ch]|]; [| |by apply list_elem_of_singleton in Hh as [= ->]].
    + apply (Hdel b (m_reasm m)). by destruct m.
    + destruct (Reassembler.Reassemble _ _ _ _ _) as [[[b|]|x|x] r]; [by apply (Hdel b r)| |by apply list_elem_of_singleton in Hh..].
      by apply list_elem_of_singleton in Hh as [= ->].
  - apply Hsame. unfold handleFrame in Hh. rewrite Ht in Hh. apply list_elem_of_singleton in Hh as [= ->]. apply services_end.
  - apply Hsame. unfold handleFrame in Hh. rewrite Ht in Hh. by apply list_elem_of_singleton in Hh as [= ->].
  - destruct Hcall as [Hq|[]]; [|done]. pose proof (lookup_unused _ _ _ Hinv Hq) as Hl.
    assert (∀ e, (FHandled, m') ∈ (endStream (req_seq f) e m ≫=
      (λ '(r, m), [(match r with QStuck => FStuck | _ => FHandled end, m)])) →
      m' = write_out (mkEnd (req_seq f) e) m) as Hrej.
    { intros e. rewrite endStream_up_none, bind_one by done. by intros [= ->]%list_elem_of_singleton. }
    assert (∀ e, m' = write_out (mkEnd (req_seq f) e) m → (∃ gs, m_out m' = m_out m ++ gs ∧ Forall (λ g, resp_content g = None) gs) ∧
      services m' = services m) as Hend.
    { intros e ->. split; [|done]. exists [mkEnd (req_seq f) e]. split; [done|]. by apply Forall_singleton. }
    destruct call as [call|].
    + destruct (findMethod srv (call_Method call)) as [md|] eqn:Hmd.
      * rewrite (handleFrame_call _ _ _ _ _ Ht Hi), (handles_call srv vals _ call m md Hup Hi Hl Hmd) in Hh.
        apply list_elem_of_singleton in Hh as [= ->]. split; [by apply Hnil|]. right. exists call. split; [done|]. split.
        -- unfold services. rewrite lookup_fmap. destruct (m_heap m !! m_next m) as [s|] eqn:Hs; [|done].
           destruct (inv_heap _ _ Hinv _ _ Hs) as (? & _). lia.
        -- transitivity (services (RpcServer.update (m_next m) (RpcServer.with_inbound (call_inbound call))
             (add_stream (req_seq f) (call_stream (req_seq f) call) m))); [done|].
           rewrite services_update by done. unfold services. cbn. by rewrite fmap_insert.
      * unfold handleFrame in Hh. rewrite Ht in Hh. fold (req_seq f) in Hh. unfold RpcServer.openStream in Hh.
        rewrite Hmd in Hh. destruct (Hend _ (Hrej _ Hh)). auto.
    + unfold handleFrame in Hh. rewrite Ht in Hh. fold (req_seq f) in Hh. destruct (Hend _ (Hrej _ Hh)). auto.
Qed.

Lemma services_handler l m m' used :
  up m → hdr_clear m → Inv m used → (FHandled, m') ∈ handler_step l m →
  services m' = services m ∧ ∃ s fs, m_heap m !! l = Some s ∧ m_out m' = m_out m ++ fs ∧ Forall (λ f, rf_seq f = ss_seq s) fs.
Proof.
  intros Hup Hc Hinv Hh. destruct (handler_handled _ _ _ _ Hup Hc Hinv Hh) as (s & s' & fs & Hs & Hha & [Hq _ _]).
  destruct (handler_moved _ _ _ _ Hup Hc Hinv Hh) as (s1 & s1' & Hs1 & [Hm1 Hm2 _ _]).
  assert (s1 = s) as -> by congruence.
  assert (s1' = s') as -> by (apply (f_equal (lookup l)) in Hm1; rewrite (ha_heap _ _ _ _ _ _ Hha), !lookup_insert_eq in Hm1; by injection Hm1).
  split; [|exists s, fs; split; [done|]; split; [by apply Hha|done]].
  unfold services. rewrite Hm1, fmap_insert, (ha_seq _ _ _ _ _ _ Hha), Hm2. apply insert_id. by rewrite lookup_fmap, Hs.
Qed.

(** ** The invariant *)

Record Methods (k : conn) : Prop := {
  me_calls f call : f ∈ cl_sent (k_client k) → f_Type f = Some (Frame_Call (Some call)) →
    ∃ i, calls (k_client k) !! i = Some (req_seq f, call_Method call);
  me_services ls p : services (k_mux k) !! ls = Some p → ∃ i, calls (k_client k) !! i = Some p;
  me_out f : f ∈ m_out (k_mux k) → resp_content f ≠ None → ∃ ls method, services (k_mux k) !! ls = Some (rf_seq f, method)
}.

Context `{!Codec Frame, !CodecLaws Frame} `{!Codec ResponseFrame, !CodecLaws ResponseFrame}.

Lemma Methods_step k k' : KInv k → Methods k → conn_step srv vals k k' → Methods k'.
Proof.
  intros HK [Mc Ms Mo] Hstep.
  destruct Hstep as [l bs c' Hop _ _|f raw m' Hf Hs Hw Hh|l m' Hh _|l s _ _|f raw c' Hf Hs Hw Hh].
  - destruct (calls_effect _ _ _ _ (ki_client _ HK) (client_op_effect _ _ _ _ (ki_client _ HK) Hop)) as (fs & Es & Hold & Hnew).
    split; cbn; [|intros ls p Hp; destruct (Ms ls p Hp) as [i Hi]; eauto|done].
    intros f call Hin Ht. rewrite Es in Hin. apply elem_of_app in Hin as [Hin|Hin]; [|by eapply Hnew].
    destruct (Mc f call Hin Ht) as [i Hi]. eauto.
  - destruct (on_wire_sendable f Hs) as (raw' & Hw' & Hu). rewrite Hw in Hw'. injection Hw' as <-.
    assert ((FHandled, m') ∈ handleFrame srv vals f (k_mux k)) as Hf1 by by eapply serve_handled.
    destruct (next_request k f HK Hf) as (_ & Hi & Hfirst & _).
    destruct (services_frame f _ m' (k_used k) (ki_conn _ HK) (ki_mux _ HK)) as [(gs & Eo & Hgs) Hsv]; [|done|done|].
    { destruct (decide (is_call f)) as [Hc|]; [left; by apply Hfirst|by right]. }
    split; cbn; [done| |].
    + intros ls p. destruct Hsv as [->|(call & Ht & _ & ->)]; [apply Ms|].
      intros [[_ <-]|[_ Hp]]%lookup_insert_Some; [|by eapply Ms]. eapply Mc; [by eapply list_elem_of_lookup_2|done].
    + intros g. rewrite Eo. intros [Hg|Hg]%elem_of_app Hc; [|rewrite Forall_forall in Hgs; by destruct Hc; apply Hgs].
      destruct (Mo g Hg Hc) as (ls & method & Hls). exists ls, method. destruct Hsv as [->|(call & _ & Hnone & ->)]; [done|].
      rewrite lookup_insert_ne; [done|congruence].
  - destruct (services_handler _ _ _ _ (ki_conn _ HK) (ki_clear _ HK) (ki_mux _ HK) Hh) as (Es & s & fs & Hs & Eo & Hfs).
    split; cbn; rewrite ?Es; try done. intros g. rewrite Eo. intros [Hg|Hg]%elem_of_app Hc; [by apply Mo|].
    rewrite Forall_forall in Hfs. exists l, (ss_method s). rewrite (Hfs g Hg). unfold services. by rewrite lookup_fmap, Hs.
  - assert (services (RpcServer.update l (cancel_ctx DeadlineExceeded) (k_mux k)) = services (k_mux k)) as E
      by by apply services_update.
    split; cbn [k_client k_mux]; rewrite ?E; done.
  - destruct (on_wire_sendable f Hs) as (raw' & Hw' & Hu). rewrite Hw in Hw'. injection Hw' as <-.
    assert ((Ok tt, c') ∈ dispatch f (k_client k)) as Hd by by eapply attach_dispatch.
    pose proof (calls_dispatch _ _ _ _ Hd) as Ec. destruct (dispatch_next _ _ _ _ Hd) as [_ Es].
    split; cbn; rewrite ?Ec, ?Es; done.
Qed.

Lemma conn_methods k : conn_reachable srv vals k → Methods k.
Proof.
  intros Hk. enough (KInv k ∧ Methods k) as [_ ?] by done. revert k Hk.
  apply (rtc_ind_r (λ k, KInv k ∧ Methods k)).
  { split; [apply KInv_init|]. split; cbn; [by intros f call ?%elem_of_nil|by intros ls p|by intros f ?%elem_of_nil]. }
  intros k k' _ Hstep [HK HM]. split; [by eapply KInv_step|by eapply Methods_step].
Qed.

(** Frames that carry nothing add up to nothing. *)
Lemma collected_silent q cs xs e : Forall (λ c, c = None) cs → collected q cs xs e → xs = [].
Proof.
  intros Hall. assert (∀ r, collect q r cs = Some ([], r)) as E.
  { induction Hall as [|c cs -> _ IH]; intros r; [done|]. cbn. by rewrite IH. }
  intros (r & H & _). rewrite E in H. by injection H.
Qed.

(** The stream of the server from which something has come. *)
Lemma answering_stream k l cs :
  conn_reachable srv vals k → cl_heap (k_client k) !! l = Some cs → k_ret k l ++ client_queue (k_client k) l ≠ [] →
  ∃ ls s, paired k l ls cs s ∧ ss_method s = cs_method cs.
Proof.
  intros Hk Hl Hne. pose proof (conn_reachable_inv srv vals k Hk) as HK. destruct (conn_methods k Hk) as [_ Ms Mo].
  destruct (known_stream _ _ _ (ki_client _ HK) Hl) as [Hlt Hq].
  destruct (re_parts _ _ _ (ki_returns _ HK) l cs Hl) as (bs & xs & e & Hin & Hc & Hpre & _).
  rewrite (client_queue_at _ _ _ _ Hl Hin) in Hne.
  destruct (decide (Forall (λ c, c = None) (resp_parts (seq_at l) (take (k_down k) (m_out (k_mux k)))))) as [Hno|Hyes].
  { rewrite (collected_silent _ _ _ _ Hno Hc) in Hpre. by apply prefix_nil_inv in Hpre. }
  apply not_Forall_Exists in Hyes; [|apply _]. apply Exists_exists in Hyes as (c & Hcin & Hcne).
  unfold resp_parts in Hcin. apply list_elem_of_In, in_map_iff in Hcin as (f & <- & Hf%list_elem_of_In).
  unfold frames_of in Hf. apply list_elem_of_filter in Hf as [Hfq Hf]. apply (subseteq_take _ _) in Hf.
  destruct (Mo f Hf Hcne) as (ls & method & Hls). destruct (Ms _ _ Hls) as [i Hi].
  unfold services in Hls. rewrite lookup_fmap in Hls. destruct (m_heap (k_mux k) !! ls) as [s|] eqn:Hs; [|done]. injection Hls as Esq Em.
  unfold calls in Hi. rewrite lookup_fmap in Hi. destruct (cl_heap (k_client k) !! i) as [csi|] eqn:Hci; [|done]. injection Hi as Ecq Ecm.
  destruct (known_stream _ _ _ (ki_client _ HK) Hci) as [Hilt Hiq].
  assert (i = l) as ->.
  { apply seq_at_inj; [|..]; [pose proof (ki_max _ HK); lia|pose proof (ki_max _ HK); lia|congruence]. }
  assert (csi = cs) as -> by congruence. exists ls, s. split; [split_and!; [done|done|congruence]|congruence].
Qed.

Lemma stream_answer k l ls cs s :
  KInv k → Runs srv vals (k_mux k) (k_got k) (k_gave k) → paired k l ls cs s → ss_method s = cs_method cs →
  ∃ md v p got gave, findMethod srv (cs_method cs) = Some md ∧ v_Method v = cs_method cs ∧
    follows (handler_prog srv vals md v) got gave p ∧ got `sublist_of` k_sent k l ∧
    k_ret k l ++ client_queue (k_client k) l `prefix_of` gave.
Proof.
  intros HK HR Hp Em. destruct Hp as (Hl & Hls & Hq). destruct (HR ls s Hls) as (md & v & p & Hmd & Hv & Hf & _). rewrite Em in *.
  destruct (known_stream _ _ _ (ki_client _ HK) Hl) as [Hlt Hcs]. rewrite Hcs in Hq.
  destruct (taken_got k l ls s HK Hlt Hls Hq) as (xs & Hpre & _ & [O1 _ _ _]).
  destruct (taken_returned k l ls cs s HK Hl Hls Hq) as (ys & bs & Hpre' & _ & Hin & Hret & _).
  exists md, v, p, (k_got k ls), (k_gave k ls). rewrite (client_queue_at _ _ _ _ Hl Hin). split_and!; [done..| |].
  - destruct Hpre as [zs ->]. apply sublist_inserts_r. etrans; [|exact O1]. by apply sublist_inserts_r.
  - by etrans.
Qed.

Lemma answered k l cs :
  conn_reachable srv vals k → cl_heap (k_client k) !! l = Some cs →
  k_ret k l ++ client_queue (k_client k) l = [] ∨
  ∃ md v p got gave, findMethod srv (cs_method cs) = Some md ∧ v_Method v = cs_method cs ∧
    follows (handler_prog srv vals md v) got gave p ∧ got `sublist_of` k_sent k l ∧
    k_ret k l ++ client_queue (k_client k) l `prefix_of` gave.
Proof.
  intros Hk Hl. destruct (decide (k_ret k l ++ client_queue (k_client k) l = [])) as [|Hne]; [by left|right].
  destruct (answering_stream k l cs Hk Hl Hne) as (ls & s & Hp & Em). destruct (conn_runs srv vals k Hk) as [HK HR].
  by apply (stream_answer k l ls cs s HK HR).
Qed.

(** [C2] Who answers a call.  Whatever else goes on over the connection, the
    messages that the application has received on a stream, or that wait there for
    it, are a beginning of what a run of the handler that the server has registered
    for the method it called has sent, and this run has received nothing but
    messages that the application has sent on this stream, in order and none twice.
    On a stream of a method that is not registered nothing ever arrives. *)
Theorem answered_by_method k l cs (Hk : conn_reachable srv vals k) (Hl : cl_heap (k_client k) !! l = Some cs) :
  (k_ret k l ++ client_queue (k_client k) l = [] ∨
   ∃ md v p got gave, findMethod srv (cs_method cs) = Some md ∧ v_Method v = cs_method cs ∧
     follows (handler_prog srv vals md v) got gave p ∧ got `sublist_of` k_sent k l ∧
     k_ret k l ++ client_queue (k_client k) l `prefix_of` gave) ∧
  (findMethod srv (cs_method cs) = None → k_ret k l ++ client_queue (k_client k) l = []).
Proof.
  pose proof (answered k l cs Hk Hl) as H. split; [done|]. intros Hnone.
  destruct H as [?|(md & v & p & got & gave & Hmd & _)]; [done|congruence].
Qed.
End methods.

#[local] Existing Instances conn_codec1 conn_codec2 conn_laws1 conn_laws2.

(** The second call of the example of [ConnectionProps]. *)
Lemma answered_by_method_witness :
  ∃ cs md v p got gave, cl_heap (k_client (conn_after 13)) !! 1%nat = Some cs ∧ cs_method cs = "/demo/Rev"%string ∧
    findMethod rev_srv "/demo/Rev" = Some md ∧ v_Method v = "/demo/Rev"%string ∧
    follows (handler_prog rev_srv tt md v) got gave p ∧ got `sublist_of` [str_bytes "abc"] ∧
    [str_bytes "cba"] `prefix_of` gave.
Proof.
  assert (conn_reachable rev_srv tt (conn_after 13)) as Hk.
  { apply conn_after_reachable. vm_compute. by eexists. }
  destruct (cl_heap (k_client (conn_after 13)) !! 1%nat) as [cs|] eqn:Hcs; [|by vm_compute in Hcs].
  assert (cs_method cs = "/demo/Rev"%string) as Hm by (vm_compute in Hcs; by injection Hcs as <-).
  assert (k_sent (conn_after 13) 1%nat = [str_bytes "abc"]) as Hsent by by vm_compute.
  assert (k_ret (conn_after 13) 1%nat ++ client_queue (k_client (conn_after 13)) 1 = [str_bytes "cba"]) as Hret by by vm_compute.
  destruct (answered_by_method rev_srv tt (conn_after 13) 1 cs Hk Hcs) as [[Hnil|(md & v & p & got & gave & Hmd & Hv & Hf & Hsub & Hpre)] _].
  - pose proof (eq_trans (eq_sym Hret) Hnil) as Hno. discriminate.
  - exists cs, md, v, p, got, gave. rewrite <- Hm. split; [reflexivity|]. split; [reflexivity|].
    split; [exact Hmd|]. split; [exact Hv|]. split; [exact Hf|]. split; [rewrite <- Hsent; exact Hsub|rewrite <- Hret; exact Hpre].
Defined.
