(* ===== verification/ConnectionProgress.v ===== *)
(** * A connection never gets stuck by itself

    The goroutines of the SDK on a connection, the serve loop, the handlers and
    [Attach], without the application at the client: however they are
    scheduled, they come to rest after finitely many steps, and at rest
    everything has been taken except what waits for a handler to be sent more,
    or for the application to receive.

    What the server queues is taken by its writer goroutine, and what the client
    sends by the channel ([RpcServer], [Channel]); the steps here take them to
    keep up, as they do while the DataChannel drains. *)

From Stdlib Require Import Strings.Byte ZArith Lia.
From stdpp Require Import numbers strings gmap fin_maps relations list.
From S2P Require Import Prelude Status Messages Transport Chunks Channel RpcServer RpcServerRun RpcServerSafety RpcServerProps RpcClient RpcClientProps EndToEnd Payloads StreamEnd UploadEnd Connection ConnectionSend ConnectionServer ConnectionReturn ConnectionProps ConnectionTrace.
Open Scope Z_scope.

(** ** Programs and goroutines run for finitely many steps *)

(** A program and what may be left of it after one operation. *)
Inductive prog_next : prog → prog → Prop :=
  | pn_recv k r : prog_next (RpcServer.Recv k) (k r)
  | pn_send b k e : prog_next (RpcServer.Send b k) (k e)
  | pn_set_header kv k : prog_next (CallSetHeader kv k) k
  | pn_set_trailer kv k : prog_next (CallSetTrailer kv k) k
  | pn_header k md : prog_next (CallHeader k) (k md)
  | pn_ctx k e : prog_next (CtxErr k) (k e).

(** A goroutine reads, or goes into its [select] first. *)
Inductive thread_next : thread → thread → Prop :=
  | tn_run p p' : prog_next p p' → thread_next (Running p) (Running p')
  | tn_block k : thread_next (Running (RpcServer.Recv k)) (InSelect k)
  | tn_wake k r : thread_next (InSelect k) (Running (k r)).

Lemma running_sn p : sn thread_next (Running p).
Proof.
  induction p as [st|k IH|b k IH|kv k IH|kv k IH|k IH|k IH]; constructor; intros t Ht; inversion Ht as [? ? Hp| |]; subst;
    try (inversion Hp; subst; auto).
  constructor. intros t' Ht'. inversion Ht'; subst. apply IH.
Qed.

Lemma thread_sn t : sn thread_next t.
Proof.
  destruct t as [p|k]; [apply running_sn|]. constructor. intros t' Ht. inversion Ht; subst. apply running_sn.
Qed.

(** One of the goroutines takes a step, or ends. *)
Definition threads_next (T T' : gmap nat thread) : Prop :=
  ∃ l t, T !! l = Some t ∧ (T' = delete l T ∨ ∃ t', thread_next t t' ∧ T' = <[l := t']> T).

Lemma threads_sn T : sn threads_next T.
Proof.
  induction T as [|l t T Hl HT] using map_ind.
  { constructor. intros T' (l & t & H & _). by rewrite lookup_empty in H. }
  revert T HT Hl. induction (thread_sn t) as [t _ IHt]. intros T HT. induction HT as [T HT IHT]. intros Hl.
  constructor. intros T' (l1 & t1 & H & Hstep).
  apply lookup_insert_Some in H as [[<- <-]|[Hne H1]].
  - destruct Hstep as [->|(t' & Ht & ->)].
    + rewrite delete_insert_id by done. by constructor.
    + rewrite insert_insert, decide_True by done. apply IHt; [done|by constructor|done].
  - assert (∀ T1, T1 = delete l1 T ∨ (∃ t', thread_next t1 t' ∧ T1 = <[l1 := t']> T) → T1 !! l = None → sn threads_next (<[l := t]> T1)) as Hgo.
    { intros T1 H. apply IHT. by exists l1, t1. }
    destruct Hstep as [->|(t' & Ht & ->)].
    + rewrite delete_insert_ne by done. apply Hgo; [by left|]. rewrite lookup_delete_ne by done. done.
    + rewrite insert_insert_ne by done. apply Hgo; [right; by exists t'|]. by rewrite lookup_insert_ne by done.
Qed.

(** ** A step of a handler *)

Lemma handler_next m used l m' :
  up m → Inv m used → (FHandled, m') ∈ handler_step l m → threads_next (m_threads m) (m_threads m').
Proof.
  intros Hup Hinv Hin.
  destruct (m_threads m !! l) as [t|] eqn:Ht;
    [|unfold handler_step in Hin; rewrite Ht in Hin; by apply elem_of_nil in Hin].
  destruct (inv_threads _ _ Hinv l) as [s Hs]; [by exists t|]. exists l, t. split; [done|].
  assert (∀ p p', t = Running p → prog_next p p' → m_threads m' = <[l := Running p']> (m_threads m) →
    m_threads m' = delete l (m_threads m) ∨ ∃ t', thread_next t t' ∧ m_threads m' = <[l := t']> (m_threads m)) as Hrun.
  { intros p p' -> Hp E. right. exists (Running p'). split; [by apply tn_run|done]. }
  unfold handler_step in Hin. rewrite Ht, Hs in Hin.
  destruct t as [[st|k|b k|kv k|kv k|k|k]|k].
  - left. unfold finish in Hin. set (e := {| end_CloseSend := _; end_Status := _; end_Trailer := _ |}) in Hin.
    destruct (lookup_own _ _ _ _ Hinv Hs) as [Hl|Hl]; revert Hin.
    + rewrite (endStream_up_some _ e _ _ _ Hup Hl Hs), bind_one, write_outs_spec. by intros [= ->]%list_elem_of_singleton.
    + rewrite (endStream_up_none _ e _ Hup Hl), bind_one. by intros [= ->]%list_elem_of_singleton.
  - destruct (ss_inbound s) as [|b rest]; apply list_elem_of_singleton in Hin as [= ->].
    + right. exists (InSelect k). by split; [constructor|].
    + eapply Hrun; [done|apply pn_recv|done].
  - destruct (lookup_own _ _ _ _ Hinv Hs) as [Hl|Hl]; revert Hin.
    + rewrite stream_Send_up with (s := s), bind_one, write_outs_spec by done.
      intros [= ->]%list_elem_of_singleton. eapply Hrun; [done|apply pn_send|done].
    + rewrite stream_Send_gone with (s := s), bind_one by done.
      intros [= ->]%list_elem_of_singleton. eapply Hrun; [done|apply pn_send|done].
  - destruct (stream_SetHeader kv s); apply list_elem_of_singleton in Hin as [= ->].
    eapply Hrun; [done|apply pn_set_header|done].
  - apply list_elem_of_singleton in Hin as [= ->]. eapply Hrun; [done|apply pn_set_trailer|done].
  - apply list_elem_of_singleton in Hin as [= ->]. eapply Hrun; [done|apply pn_header|done].
  - apply list_elem_of_singleton in Hin as [= ->]. eapply Hrun; [done|apply pn_ctx|done].
  - right. apply elem_of_app in Hin as [Hin|[Hin|Hin]%elem_of_app].
    + destruct (ss_inbound s) as [|b rest]; [by apply elem_of_nil in Hin|]. apply list_elem_of_singleton in Hin as [= ->].
      eexists. by split; [apply tn_wake|].
    + destruct (ss_halfClose s); [|by apply elem_of_nil in Hin]. apply list_elem_of_singleton in Hin as [= ->].
      eexists. by split; [apply tn_wake|].
    + destruct (ss_ctx s); [|by apply elem_of_nil in Hin]. apply list_elem_of_singleton in Hin as [= ->].
      eexists. by split; [apply tn_wake|].
Qed.

(** The goroutine waits for its client: it is in the [select] of [Recv], and no
    case of it is ready. *)
Definition awaits (t : thread) (s : stream) : Prop :=
  ∃ k, t = InSelect k ∧ ss_inbound s = [] ∧ ss_halfClose s = false ∧ ss_ctx s = None.

(** A goroutine that does not can take a step. *)
Lemma handler_ready m used l t s :
  up m → hdr_clear m → Inv m used → m_threads m !! l = Some t → m_heap m !! l = Some s →
  awaits t s ∨ ∃ m', (FHandled, m') ∈ handler_step l m.
Proof.
  intros Hup Hc Hinv Ht Hs. unfold handler_step. rewrite Ht, Hs.
  destruct t as [[st|k|b k|kv k|kv k|k|k]|k]; try (right; eexists; apply list_elem_of_singleton; reflexivity).
  - right. unfold finish. set (e := {| end_CloseSend := _; end_Status := _; end_Trailer := _ |}).
    destruct (lookup_own _ _ _ _ Hinv Hs) as [Hl|Hl].
    + rewrite (endStream_up_some _ e _ _ _ Hup Hl Hs), bind_one, write_outs_spec. eexists. by apply list_elem_of_singleton.
    + rewrite (endStream_up_none _ e _ Hup Hl), bind_one. eexists. by apply list_elem_of_singleton.
  - right. destruct (ss_inbound s); eexists; by apply list_elem_of_singleton.
  - right. destruct (lookup_own _ _ _ _ Hinv Hs) as [Hl|Hl].
    + rewrite stream_Send_up with (s := s), bind_one, write_outs_spec by done. eexists. by apply list_elem_of_singleton.
    + rewrite stream_Send_gone with (s := s), bind_one by done. eexists. by apply list_elem_of_singleton.
  - right. unfold stream_SetHeader. rewrite (Hc l s Hs). eexists. by apply list_elem_of_singleton.
  - destruct (ss_inbound s) as [|b rest] eqn:E1; [|right; eexists; apply elem_of_app; left; by apply list_elem_of_singleton].
    destruct (ss_halfClose s) eqn:E2; [right; eexists; apply elem_of_app; right; apply elem_of_app; left; by apply list_elem_of_singleton|].
    destruct (ss_ctx s) eqn:E3; [right; eexists; apply elem_of_app; right; apply elem_of_app; right; by apply list_elem_of_singleton|].
    left. by exists k.
Qed.

(** ** What [Attach] cannot take *)

(** A message for a stream of which the application has not received. *)
Definition unread (f : ResponseFrame) (c : client) : Prop :=
  ∃ l cs, cl_streams c !! rf_seq f = Some l ∧ cl_heap c !! l = Some cs ∧
    (resp_cap ≤ length (cs_inbound cs))%nat ∧ cs_end cs = None.

Lemma deliver_blocked l b c cs :
  cl_heap c !! l = Some cs → deliver l b c = [] → (resp_cap ≤ length (cs_inbound cs))%nat ∧ cs_end cs = None.
Proof.
  intros Hs. unfold deliver. rewrite Hs. case_decide; [done|]. destruct (cs_end cs); [done|]. intros _. split; [lia|done].
Qed.

Lemma dispatch_blocked f c : CInv c → dispatch f c = [] → unread f c.
Proof.
  intros Hc. unfold dispatch, unread. fold (rf_seq f). destruct (cl_streams c !! rf_seq f) as [l|] eqn:Hl; [|done].
  destruct (ci_streams _ Hc _ _ Hl) as [Hlt _]. destruct (ci_all _ Hc l Hlt) as [cs Hs].
  assert (∀ b c1 cs1, cl_heap c1 !! l = Some cs1 → cs_inbound cs1 = cs_inbound cs → cs_end cs1 = cs_end cs →
    pair (Ok tt) <$> deliver l b c1 = ([] : list (res unit * client)) →
    ∃ l0 cs0, Some l = Some l0 ∧ cl_heap c !! l0 = Some cs0 ∧ (resp_cap ≤ length (cs_inbound cs0))%nat ∧ cs_end cs0 = None) as Hdel.
  { intros b c1 cs1 Hs1 E1 E2 E%fmap_nil_inv. destruct (deliver_blocked _ _ _ _ Hs1 E) as [H1 H2].
    exists l, cs. by rewrite <- E1, <- E2. }
  destruct (rf_Type f) as [[b|d|e]|]; [| |done|done].
  - unfold dispatch_begin. destruct b as [b|]; [|done].
    destruct (begin_InlineData b) as [d|]; [|by destruct (begin_Header b)].
    destruct (0 <? len d); [|by destruct (begin_Header b)].
    destruct (begin_Header b) as [h|]; [|by apply (Hdel d c cs)].
    apply (Hdel _ _ (with_header (mergeIn (cs_header cs) (map_to_list h)) cs)); [|done..].
    cbn. by rewrite lookup_alter, decide_True, Hs.
  - destruct (GetContent d) as [[b|ch]|]; [by apply (Hdel b c cs)| |done].
    destruct (Reassembler.Reassemble _ _ _ _ _) as [[[full|]|err|pn] r]; [|done..].
    by apply (Hdel full (RpcClient.set_reasm r c) cs).
Qed.

(** ** Handlers whose messages fit their length field

    as long as those they receive do. *)

Fixpoint small_prog (p : prog) : Prop :=
  match p with
  | Return _ => True
  | RpcServer.Recv k => ∀ r, match r with inl b => small b | inr _ => True end → small_prog (k r)
  | RpcServer.Send b k => small b ∧ ∀ e, small_prog (k e)
  | CallSetHeader _ k | CallSetTrailer _ k => small_prog k
  | CallHeader k => ∀ md, small_prog (k md)
  | CtxErr k => ∀ e, small_prog (k e)
  end.

Lemma follows_small p0 got gave p : small_prog p0 → follows p0 got gave p → Forall small got → small_prog p.
Proof.
  intros H0 H. induction H as [|got gave k b _ IH|got gave k e _ IH|got gave b k _ IH|got gave b k e _ IH|got gave kv k _ IH
    |got gave kv k _ IH|got gave md k _ IH|got gave e k _ IH]; intros Hg; [done| |by apply IH..].
  apply Forall_app in Hg as [Hg [Hb _]%Forall_cons]. by apply (IH Hg).
Qed.

Section progress.
Context {Vals : Type} (srv : @Server Vals) (vals : Vals).
Context `{!Codec Frame, !CodecLaws Frame} `{!Codec ResponseFrame, !CodecLaws ResponseFrame}.

Definition small_server : Prop :=
  ∀ method md v, findMethod srv method = Some md → small_prog (handler_prog srv vals md v).

(** The application's messages fit, so do those the handlers have received. *)
Lemma sent_small k l : conn_reachable srv vals k → Forall small (k_sent k l).
Proof.
  intros H. revert l. revert k H. apply (rtc_ind_r (λ k, ∀ l, Forall small (k_sent k l))); [done|].
  intros k k' _ Hs IH l. destruct Hs as [l0 bs c' _ _ Hb| | | |]; cbn; try apply IH.
  unfold note. case_decide; [|apply IH]. by apply Forall_app.
Qed.

Lemma got_small k l s : conn_reachable srv vals k → m_heap (k_mux k) !! l = Some s → Forall small (k_got k l).
Proof.
  intros Hk Hs. destruct (conn_runs srv vals k Hk) as [HK _]. destruct (inv_heap _ _ (ki_mux _ HK) _ _ Hs) as (_ & Hu & _).
  pose proof (ge_used _ _ _ _ (ki_gets _ HK) _ Hu) as Hne.
  destruct (se_opened _ _ (ki_sends _ HK) (ss_seq s)) as (lc & Hlt & Hq).
  { intros E. rewrite <- (take_drop (k_up k) (cl_sent (k_client k))), reqs_of_app in E. by apply app_eq_nil in E as [? _]. }
  destruct (taken_got k lc l s HK Hlt Hs Hq) as (xs & Hpre & _ & [O1 _ _ _]).
  apply Forall_forall. intros b Hb. pose proof (sent_small k lc Hk) as Hall. rewrite Forall_forall in Hall. apply Hall.
  destruct Hpre as [zs ->]. apply elem_of_app. left. eapply elem_of_submseteq; [|by apply sublist_submseteq].
  apply elem_of_app. by left.
Qed.

Lemma wrote_small k l m' : small_server → conn_reachable srv vals k → Forall small (wrote (k_mux k) m' l).
Proof.
  intros Hsmall Hk. destruct (conn_runs srv vals k Hk) as [HK HR]. unfold wrote.
  destruct (m_threads (k_mux k) !! l) as [[[st|kr|b kr|kv kr|kv kr|kr|kr]|kr]|] eqn:Ht; try done.
  destruct (_ <? _)%nat; [|done]. destruct (inv_threads _ _ (ki_mux _ HK) l) as [s Hs]; [by rewrite Ht; eexists|].
  destruct (HR l s Hs) as (md & v & p & Hmd & _ & Hf & Hat). rewrite Ht in Hat. cbn in Hat. subst p.
  apply Forall_singleton. apply (follows_small _ _ _ _ (Hsmall _ _ _ Hmd) Hf). by eapply got_small.
Qed.

(** ** The steps of the SDK *)

(** The steps of [conn_step] that are not the application's and no deadline. *)
Inductive sdk_step (k : conn) : conn → Prop :=
  | sdk_serve f raw m' :
      cl_sent (k_client k) !! k_up k = Some f → sendable f → on_wire f = Some raw →
      (Continue, m') ∈ serve_iter srv vals (Ok raw) (k_mux k) →
      sdk_step k
        {| k_client := k_client k; k_mux := m'; k_used := opened f ∪ k_used k; k_up := S (k_up k);
           k_down := k_down k; k_sent := k_sent k; k_ret := k_ret k; k_got := k_got k; k_gave := k_gave k |}
  | sdk_handler l m' :
      (FHandled, m') ∈ handler_step l (k_mux k) → Forall small (wrote (k_mux k) m' l) →
      sdk_step k
        {| k_client := k_client k; k_mux := m'; k_used := k_used k; k_up := k_up k; k_down := k_down k;
           k_sent := k_sent k; k_ret := k_ret k;
           k_got := note (k_got k) l (popped (server_queue (k_mux k) l) (server_queue m' l));
           k_gave := note (k_gave k) l (wrote (k_mux k) m' l) |}
  | sdk_attach f raw c' :
      m_out (k_mux k) !! k_down k = Some f → sendable f → on_wire f = Some raw →
      (AContinue, c') ∈ attach_iter (Ok raw) (k_client k) →
      sdk_step k
        {| k_client := c'; k_mux := k_mux k; k_used := k_used k; k_up := k_up k; k_down := S (k_down k);
           k_sent := k_sent k; k_ret := k_ret k; k_got := k_got k; k_gave := k_gave k |}.

Lemma sdk_conn k k' : sdk_step k k' → conn_step srv vals k k'.
Proof.
  destruct 1 as [f raw m' H1 H2 H3 H4|l m' H1 H2|f raw c' H1 H2 H3 H4];
    [by apply (k_serve srv vals k f raw m')|by apply k_handler|by apply (k_attach srv vals k f raw c')].
Qed.

Lemma sdk_reachable k k' : conn_reachable srv vals k → rtc sdk_step k k' → conn_reachable srv vals k'.
Proof. intros Hk H. induction H as [|k1 k2 k3 Hs%sdk_conn _ IH]; [done|]. apply IH. by eapply rtc_r. Qed.

(** What a step leaves to do: fewer frames for the serve loop, or shorter
    programs, or fewer frames for [Attach]. *)
Definition up_left (k : conn) : nat := length (cl_sent (k_client k)) - k_up k.
Definition down_left (k : conn) : nat := length (m_out (k_mux k)) - k_down k.

Lemma sdk_step_left k k' :
  KInv k → sdk_step k k' →
  (up_left k' < up_left k)%nat ∨
  up_left k' = up_left k ∧
    (threads_next (m_threads (k_mux k)) (m_threads (k_mux k')) ∨
     m_threads (k_mux k') = m_threads (k_mux k) ∧ (down_left k' < down_left k)%nat).
Proof.
  intros HK. unfold up_left, down_left. destruct 1 as [f raw m' H1 H2 H3 H4|l m' H1 H2|f raw c' H1 H2 H3 H4]; cbn.
  - left. apply lookup_lt_Some in H1. lia.
  - right. split; [done|left]. by apply (handler_next _ _ _ _ (ki_conn _ HK) (ki_mux _ HK) H1).
  - right. destruct (on_wire_sendable f H2) as (raw' & Hw & Hu). rewrite H3 in Hw. injection Hw as <-.
    unfold attach_iter in H4. rewrite Hu in H4.
    apply list_elem_of_bind in H4 as ([r c1] & [= _ <-]%list_elem_of_singleton & Hd).
    destruct (dispatch_next _ _ _ _ Hd) as [_ ->]. split; [done|right; split; [done|]]. apply lookup_lt_Some in H1. lia.
Qed.

Lemma sdk_sn k : KInv k → sn sdk_step k.
Proof.
  remember (up_left k) as n eqn:En. revert k En. induction n as [n IHn] using lt_wf_ind.
  intros k. remember (m_threads (k_mux k)) as T eqn:ET. revert k ET. induction (threads_sn T) as [T _ IHT].
  intros k. remember (down_left k) as d eqn:Ed. revert k Ed. induction d as [d IHd] using lt_wf_ind.
  intros k Ed ET En HK. constructor. intros k' Hs. assert (KInv k') as HK' by by eapply KInv_step, sdk_conn.
  destruct (sdk_step_left k k' HK Hs) as [Hlt|(E & [Ht|[Et Hlt]])].
  - by eapply IHn; [rewrite En|..].
  - eapply IHT; [unfold flip; rewrite ET; exact Ht|done|by rewrite E|done].
  - eapply IHd; [rewrite Ed; exact Hlt|done|by rewrite Et|by rewrite E|done].
Qed.

(** Every frame for the serve loop has been taken, every handler awaits its
    client, and the frames for [Attach] have been taken up to one whose stream
    the application has not read. *)
Definition settled (k : conn) : Prop :=
  k_up k = length (cl_sent (k_client k)) ∧
  (∀ l t, m_threads (k_mux k) !! l = Some t → ∃ s, m_heap (k_mux k) !! l = Some s ∧ awaits t s) ∧
  (k_down k = length (m_out (k_mux k)) ∨ ∃ f, m_out (k_mux k) !! k_down k = Some f ∧ unread f (k_client k)).

Lemma handlers_settle k :
  conn_reachable srv vals k → small_server →
  (∀ l t, m_threads (k_mux k) !! l = Some t → ∃ s, m_heap (k_mux k) !! l = Some s ∧ awaits t s) ∨ ∃ k', sdk_step k k'.
Proof.
  intros Hk Hsmall. destruct (conn_runs srv vals k Hk) as [HK HR]. pose proof (ki_mux _ HK) as Hinv.
  assert (∀ T : gmap nat thread, (∀ l t, T !! l = Some t → m_threads (k_mux k) !! l = Some t) →
    (∀ l t, T !! l = Some t → ∃ s, m_heap (k_mux k) !! l = Some s ∧ awaits t s) ∨ ∃ k', sdk_step k k') as Hall; [|by apply Hall].
  intros T. induction T as [|l t T Hl IH] using map_ind; intros Hsub; [left; intros l t; by rewrite lookup_empty|].
  destruct IH as [IH|?]; [intros l' t' H; apply Hsub; rewrite lookup_insert_ne; [done|congruence]| |by right].
  pose proof (Hsub l t ltac:(by rewrite lookup_insert, decide_True)) as Ht.
  destruct (inv_threads _ _ Hinv l) as [s Hs]; [by eexists|].
  destruct (handler_ready _ _ _ _ _ (ki_conn _ HK) (ki_clear _ HK) Hinv Ht Hs) as [Haw|[m' Hm]].
  - left. intros l' t' [[<- <-]|[_ ?]]%lookup_insert_Some; [by exists s|by apply IH].
  - right. eexists. apply (sdk_handler k l m' Hm). by apply wrote_small.
Qed.

(** The serve loop takes the next frame, or a handler can take a message. *)
Lemma serve_settles k :
  conn_reachable srv vals k → small_server → Forall sendable (cl_sent (k_client k)) →
  k_up k = length (cl_sent (k_client k)) ∨ ∃ k', sdk_step k k'.
Proof.
  intros Hk Hsmall Hall. destruct (conn_runs srv vals k Hk) as [HK HR]. pose proof (ki_upto _ HK) as Hle.
  destruct (cl_sent (k_client k) !! k_up k) as [f|] eqn:Hf;
    [right|left; apply lookup_ge_None in Hf; lia].
  pose proof (Forall_lookup_1 _ _ _ _ Hall Hf) as Hsend. destruct (on_wire_sendable f Hsend) as (raw & Hw & Hu).
  destruct (handleFrame srv vals f (k_mux k)) as [|[r m'] rest] eqn:Hh.
  - apply (blocked_frame srv vals _ _ f (ki_mux _ HK) (ki_conn _ HK)) in Hh as (b & l & s & _ & Hl & Hs & Hcap & _).
    destruct (inv_streams _ _ (ki_mux _ HK) _ _ Hl) as [[t Ht] _].
    destruct (handler_ready _ _ _ _ _ (ki_conn _ HK) (ki_clear _ HK) (ki_mux _ HK) Ht Hs) as [(kt & _ & E & _)|[m' Hm]].
    { rewrite E in Hcap. cbn in Hcap. unfold inbound_cap in Hcap. lia. }
    eexists. apply (sdk_handler k l m' Hm). by apply wrote_small.
  - assert ((r, m') ∈ handleFrame srv vals f (k_mux k)) as Hin by (rewrite Hh; by left).
    pose proof (next_handled srv vals k f r m' HK Hf Hin) as ->.
    eexists. apply (sdk_serve k f raw m' Hf Hsend Hw). unfold serve_iter. rewrite Hu.
    apply list_elem_of_bind. exists (FHandled, m'). split; [by apply list_elem_of_singleton|done].
Qed.

Lemma attach_settles k :
  conn_reachable srv vals k → Forall sendable (m_out (k_mux k)) →
  (k_down k = length (m_out (k_mux k)) ∨ ∃ f, m_out (k_mux k) !! k_down k = Some f ∧ unread f (k_client k)) ∨
  ∃ k', sdk_step k k'.
Proof.
  intros Hk Hall. destruct (conn_runs srv vals k Hk) as [HK _]. pose proof (ki_downto _ HK) as Hle.
  destruct (m_out (k_mux k) !! k_down k) as [f|] eqn:Hf;
    [|left; left; apply lookup_ge_None in Hf; lia].
  pose proof (Forall_lookup_1 _ _ _ _ Hall Hf) as Hsend. destruct (on_wire_sendable f Hsend) as (raw & Hw & Hu).
  destruct (dispatch f (k_client k)) as [|[r c'] rest] eqn:Hd.
  - left. right. exists f. split; [done|]. apply dispatch_blocked; [apply HK|done].
  - right. assert ((r, c') ∈ dispatch f (k_client k)) as Hin by (rewrite Hd; by left).
    pose proof (next_dispatched k f r c' HK Hf Hin) as ->.
    eexists. apply (sdk_attach k f raw c' Hf Hsend Hw). unfold attach_iter. rewrite Hu.
    apply list_elem_of_bind. exists (Ok tt, c'). split; [by apply list_elem_of_singleton|done].
Qed.

(** [C3] The SDK never gets stuck by itself.  Whatever calls are in progress and
    whatever the schedule, the goroutines of the two ends take finitely many
    steps on a connection when the application does nothing.  They come to rest
    only when the serve loop has taken every frame, every handler has returned
    or waits in [Recv] for a message, a half-close or a cancel that its client
    has not sent, and [Attach] has taken every frame or holds one for a stream
    whose queue the application has left full.  In particular, a stream whose
    handler is slow holds up the serve loop only until the handler receives, and
    once the client has closed its side the handler returns. *)
Theorem connection_settles k (Hk : conn_reachable srv vals k) (Hsmall : small_server) :
  sn sdk_step k ∧
  ∀ k', rtc sdk_step k k' → Forall sendable (cl_sent (k_client k')) → Forall sendable (m_out (k_mux k')) →
    settled k' ∨ ∃ k'', sdk_step k' k''.
Proof.
  destruct (conn_runs srv vals k Hk) as [HK _]. split; [by apply sdk_sn|].
  intros k' Hr H1 H2. pose proof (sdk_reachable k k' Hk Hr) as Hk'.
  destruct (serve_settles k' Hk' Hsmall H1) as [?|?]; [|by right].
  destruct (handlers_settle k' Hk' Hsmall) as [?|?]; [|by right].
  destruct (attach_settles k' Hk' H2) as [?|?]; [left; by split_and!|by right].
Qed.
End progress.

#[local] Existing Instances conn_codec1 conn_codec2 conn_laws1 conn_laws2.

Lemma sendable_all {M} `{Codec M} (fs : list M) :
  forallb (λ f, if marshal f is Some raw then (0 <? len raw) && (len raw <? two32) else false) fs = true → Forall sendable fs.
Proof.
  intros Hall. apply Forall_forall. intros f Hin. rewrite forallb_forall in Hall.
  specialize (Hall f ltac:(by apply list_elem_of_In)). unfold sendable. destruct (marshal f) as [raw|]; [|done].
  apply andb_true_iff in Hall as [H1%Z.ltb_lt H2%Z.ltb_lt]. by exists raw.
Qed.

(** Two calls under way, with frames for the serve loop. *)
Lemma connection_settles_witness :
  conn_reachable rev_srv tt (conn_after 5) ∧ small_server rev_srv tt ∧ sn (sdk_step rev_srv tt) (conn_after 5) ∧
  ∃ k', sdk_step rev_srv tt (conn_after 5) k'.
Proof.
  assert (conn_reachable rev_srv tt (conn_after 5)) as Hk.
  { apply conn_after_reachable. vm_compute. by eexists. }
  assert (small_server rev_srv tt) as Hsmall.
  { intros method md v Hmd. unfold findMethod in Hmd.
    change (srv_methods rev_srv) with (<["/demo/Rev"%string := rev_md]> (∅ : gmap string (@MethodDesc unit))) in Hmd.
    apply lookup_insert_Some in Hmd as [[_ <-]|[_ Hmd]]; [|by rewrite lookup_empty in Hmd].
    change (small_prog (RpcServer.Recv rev_cont)). intros [b|e] Hb; cbn; [|done]. split; [|done]. unfold small, len in *. rewrite length_reverse. exact Hb. }
  split; [exact Hk|]. split; [exact Hsmall|].
  destruct (connection_settles rev_srv tt (conn_after 5) Hk Hsmall) as [Hsn H]. split; [exact Hsn|].
  destruct (H (conn_after 5) (rtc_refl _ _)) as [(Hup & _)|Hstep].
  - apply sendable_all. vm_compute. reflexivity.
  - apply sendable_all. vm_compute. reflexivity.
  - vm_compute in Hup. discriminate.
  - exact Hstep.
Defined.
