(* ===== verification/SignalStore.v ===== *)
(** * The signaling store (signalserver/store/store.go, memory.go)

    The operations of [Memory] as the atomic sections its locks make: [Join]
    is two of them, [Leave] up to four, [Send] and [Stats] one each.  [Join]
    and [Leave] compose their sections for the sequential use; [step] lets the
    sections of concurrent calls interleave.  Services and peers are objects in
    a store of their own, as pointers to them outlive the tables. *)

From Stdlib Require Import ZArith Lia.
From stdpp Require Import numbers strings gmap fin_maps relations list.
From S2P Require Import Prelude.
Open Scope Z_scope.

Definition MaxPeersPerService : nat := 10.
Definition inbox_cap : nat := 32.

(** ** Data *)

Record Peer : Type := { ID : string; Service : string }.

#[export] Instance Peer_eq_dec : EqDecision Peer.
Proof. solve_decision. Defined.

Definition ErrPeerAlreadyExists : error := ErrorString "store: peer already exists in service".
Definition ErrServiceFull : error := ErrorString "store: service is full".

Section store.
Context {Body : Type}.

Record SignalMessage : Type := { sm_Service : string; sm_SenderID : string; sm_Body : Body }.

Record memoryPeer : Type := {
  mp_id : string;
  mp_service : string;
  mp_inbox : list SignalMessage;
  mp_inboxClosed : bool }.

(** A service object: [peers]. *)
Abbreviation memoryService := (gmap string nat).

Record Memory : Type := {
  services : gmap string nat;
  svc_heap : gmap nat memoryService;
  peer_heap : gmap nat memoryPeer;
  next : nat }.

Definition NewMemory : Memory :=
  {| services := ∅; svc_heap := ∅; peer_heap := ∅; next := 0 |}.

(** A sender's peer and service objects; the receiver is the peer's inbox. *)
Record memorySender : Type := { sx_peer : nat; sx_service : nat }.

Definition set_svc (l : nat) (s : memoryService) (m : Memory) : Memory :=
  {| services := services m; svc_heap := <[l := s]> (svc_heap m); peer_heap := peer_heap m;
     next := next m |}.

Definition set_peer (l : nat) (p : memoryPeer) (m : Memory) : Memory :=
  {| services := services m; svc_heap := svc_heap m; peer_heap := <[l := p]> (peer_heap m);
     next := next m |}.

Definition peers_of (l : nat) (m : Memory) : memoryService := default ∅ (svc_heap m !! l).

(** ** Join *)

(** Under [m.mu]. *)
Definition serviceForJoin (serviceID : string) (m : Memory) : nat * Memory :=
  match services m !! serviceID with
  | Some l => (l, m)
  | None =>
      let l := next m in
      (l, {| services := <[serviceID := l]> (services m); svc_heap := <[l := ∅]> (svc_heap m);
             peer_heap := peer_heap m; next := S l |})
  end.

(** Under [svc.mu]. *)
Definition join_insert (peer : Peer) (svc : nat) (m : Memory) : (memorySender + error) * Memory :=
  let peers := peers_of svc m in
  match peers !! ID peer with
  | Some _ => (inr ErrPeerAlreadyExists, m)
  | None =>
      if decide (MaxPeersPerService ≤ size peers)%nat then (inr ErrServiceFull, m)
      else
        let l := next m in
        let mp := {| mp_id := ID peer; mp_service := Service peer; mp_inbox := [];
                     mp_inboxClosed := false |} in
        (inl {| sx_peer := l; sx_service := svc |},
         {| services := services m; svc_heap := <[svc := <[ID peer := l]> peers]> (svc_heap m);
            peer_heap := <[l := mp]> (peer_heap m); next := S l |})
  end.

Definition Join (peer : Peer) (m : Memory) : (memorySender + error) * Memory :=
  if bool_decide (Service peer = ""%string) || bool_decide (ID peer = ""%string)
  then (inr ErrPeerAlreadyExists, m)
  else let '(svc, m) := serviceForJoin (Service peer) m in join_insert peer svc m.

(** ** Leave *)

(** Under [svc.mu]: the removed peer, and whether the service is now empty. *)
Definition leave_remove (peer : Peer) (svc : nat) (m : Memory) : option (nat * bool) * Memory :=
  let peers := peers_of svc m in
  match peers !! ID peer with
  | None => (None, m)
  | Some mp =>
      let peers := delete (ID peer) peers in
      (Some (mp, bool_decide (size peers = 0%nat)), set_svc svc peers m)
  end.

(** Under [mp.closeMu].  Closing a closed channel panics. *)
Definition close_inbox (mp : nat) (m : Memory) : Memory :=
  match peer_heap m !! mp with
  | Some p =>
      if mp_inboxClosed p then m
      else set_peer mp {| mp_id := mp_id p; mp_service := mp_service p; mp_inbox := mp_inbox p;
                          mp_inboxClosed := true |} m
  | None => m
  end.

(** Under [m.mu]. *)
Definition leave_gc (peer : Peer) (m : Memory) : Memory :=
  match services m !! Service peer with
  | Some s =>
      if decide (size (peers_of s m) = 0%nat)
      then {| services := delete (Service peer) (services m); svc_heap := svc_heap m;
              peer_heap := peer_heap m; next := next m |}
      else m
  | None => m
  end.

Definition Leave (peer : Peer) (m : Memory) : Memory :=
  match services m !! Service peer with
  | None => m
  | Some svc =>
      match leave_remove peer svc m with
      | (None, m) => m
      | (Some (mp, empty), m) =>
          let m := close_inbox mp m in
          if empty then leave_gc peer m else m
      end
  end.

(** ** Send, Close, Recv, Stats *)

(** The non-blocking send on one inbox; sending on a closed channel panics. *)
Definition push (msg : SignalMessage) (p : memoryPeer) : res memoryPeer :=
  if mp_inboxClosed p then Panic "send on closed channel"
  else if decide (length (mp_inbox p) < inbox_cap)%nat
  then Ok {| mp_id := mp_id p; mp_service := mp_service p; mp_inbox := mp_inbox p ++ [msg];
             mp_inboxClosed := false |}
  else Ok p.

(** The loop over the peers of the service, in some order. *)
Fixpoint broadcast (from : string) (msg : SignalMessage) (ps : list (string * nat)) (m : Memory)
    : res unit * Memory :=
  match ps with
  | [] => (Ok tt, m)
  | (id, l) :: ps =>
      if bool_decide (id = from) then broadcast from msg ps m
      else match peer_heap m !! l with
           | None => broadcast from msg ps m
           | Some p =>
               match push msg p with
               | Ok p' => broadcast from msg ps (set_peer l p' m)
               | Panic s => (Panic s, m)
               | Fail e => (Fail e, m)
               end
           end
  end.

Definition Send (sx : memorySender) (body : Body) (m : Memory) : res unit * Memory :=
  match peer_heap m !! sx_peer sx with
  | None => (Ok tt, m)
  | Some p =>
      let msg := {| sm_Service := mp_service p; sm_SenderID := mp_id p; sm_Body := body |} in
      broadcast (mp_id p) msg (map_to_list (peers_of (sx_service sx) m)) m
  end.

Definition Close (sx : memorySender) (m : Memory) : Memory :=
  match peer_heap m !! sx_peer sx with
  | None => m
  | Some p => Leave {| ID := mp_id p; Service := mp_service p |} m
  end.

(** Receiving from the inbox: a message, or the end once it is closed and
    drained; [None] blocks. *)
Definition Recv (mp : nat) (m : Memory) : option (option SignalMessage * Memory) :=
  p ← peer_heap m !! mp;
  match mp_inbox p with
  | msg :: q =>
      Some (Some msg, set_peer mp {| mp_id := mp_id p; mp_service := mp_service p; mp_inbox := q;
                                     mp_inboxClosed := mp_inboxClosed p |} m)
  | [] => if mp_inboxClosed p then Some (None, m) else None
  end.

Record Stats : Type := { st_Services : nat; st_Peers : nat; st_ServicePeers : gmap string nat }.

Definition stats (m : Memory) : Stats :=
  let counts := (λ l, size (peers_of l m)) <$> services m in
  {| st_Services := size (services m); st_Peers := foldr Nat.add 0%nat (snd <$> map_to_list counts);
     st_ServicePeers := counts |}.

(** ** Concurrent calls *)

(** What a call has left to do between two of its sections. *)
Inductive pending : Type :=
  | PJoin (peer : Peer) (svc : nat)
  | PRemove (peer : Peer) (svc : nat)
  | PClose (peer : Peer) (mp : nat) (empty : bool)
  | PGc (peer : Peer).

Record conc : Type := {
  c_mem : Memory;
  c_pending : list pending;
  c_joined : list (Peer * memorySender) }.    (* the sessions [Join] has returned *)

Definition conc_init : conc := {| c_mem := NewMemory; c_pending := []; c_joined := [] |}.

Inductive step : conc → conc → Prop :=
  | step_join1 peer m ps js svc m' :
      Service peer ≠ ""%string → ID peer ≠ ""%string → serviceForJoin (Service peer) m = (svc, m') →
      step {| c_mem := m; c_pending := ps; c_joined := js |}
           {| c_mem := m'; c_pending := PJoin peer svc :: ps; c_joined := js |}
  | step_join2 peer svc m ps1 ps2 js r m' :
      join_insert peer svc m = (r, m') →
      step {| c_mem := m; c_pending := ps1 ++ PJoin peer svc :: ps2; c_joined := js |}
           {| c_mem := m'; c_pending := ps1 ++ ps2;
              c_joined := match r with inl sx => (peer, sx) :: js | inr _ => js end |}
  | step_leave1 peer svc m ps js :
      services m !! Service peer = Some svc →
      step {| c_mem := m; c_pending := ps; c_joined := js |}
           {| c_mem := m; c_pending := PRemove peer svc :: ps; c_joined := js |}
  | step_leave2 peer svc m ps1 ps2 js r m' :
      leave_remove peer svc m = (r, m') →
      step {| c_mem := m; c_pending := ps1 ++ PRemove peer svc :: ps2; c_joined := js |}
           {| c_mem := m';
              c_pending := ps1 ++ match r with
                                  | Some (mp, empty) => PClose peer mp empty :: ps2
                                  | None => ps2 end;
              c_joined := js |}
  | step_leave3 peer mp empty m ps1 ps2 js :
      step {| c_mem := m; c_pending := ps1 ++ PClose peer mp empty :: ps2; c_joined := js |}
           {| c_mem := close_inbox mp m;
              c_pending := ps1 ++ (if empty : bool then PGc peer :: ps2 else ps2); c_joined := js |}
  | step_leave4 peer m ps1 ps2 js :
      step {| c_mem := m; c_pending := ps1 ++ PGc peer :: ps2; c_joined := js |}
           {| c_mem := leave_gc peer m; c_pending := ps1 ++ ps2; c_joined := js |}
  | step_send peer sx body m ps js r m' :
      (peer, sx) ∈ js → Send sx body m = (Ok r, m') →
      step {| c_mem := m; c_pending := ps; c_joined := js |}
           {| c_mem := m'; c_pending := ps; c_joined := js |}
  | step_recv mp m ps js r m' :
      Recv mp m = Some (r, m') →
      step {| c_mem := m; c_pending := ps; c_joined := js |}
           {| c_mem := m'; c_pending := ps; c_joined := js |}.

Definition reachable (c : conc) : Prop := rtc step conc_init c.
End store.
