(* ===== verification/SignalStoreProps.v ===== *)
(** * Properties of the signaling store

    The invariant of the store under every interleaving of its locked
    sections, the refinement of a table of inboxes by the sequential
    operations, and what the code does not protect against. *)

From Stdlib Require Import ZArith Lia.
From stdpp Require Import numbers strings gmap fin_maps relations list.
From S2P Require Import Prelude SignalStore.
Open Scope Z_scope.

Section inv.
Context {Body : Type}.
Abbreviation Memory := (@Memory Body).
Abbreviation conc := (@conc Body).
Implicit Types m : Memory.

(** ** The invariant

    [names] gives each service object the identifier it was created for. *)

(** The peer object [l] is the peer [id] of the service object [s]. *)
Definition member m (s : nat) (id : string) (l : nat) : Prop :=
  ∃ ps, svc_heap m !! s = Some ps ∧ ps !! id = Some l.

Definition inbox_ok (p : @memoryPeer Body) : Prop :=
  (length (mp_inbox p) ≤ inbox_cap)%nat ∧
  Forall (λ msg, sm_SenderID msg ≠ mp_id p ∧ sm_Service msg = mp_service p) (mp_inbox p).

Record WF (names : gmap nat string) m : Prop := {
  wf_svc s ps : svc_heap m !! s = Some ps → (s < next m)%nat ∧ (size ps ≤ MaxPeersPerService)%nat;
  wf_services id s : services m !! id = Some s → names !! s = Some id;
  wf_names s id : names !! s = Some id → (s < next m)%nat;
  wf_member s id l : member m s id l →
    ∃ p, peer_heap m !! l = Some p ∧ mp_id p = id ∧ mp_inboxClosed p = false ∧
         names !! s = Some (mp_service p);
  wf_inj s1 s2 id1 id2 l : member m s1 id1 l → member m s2 id2 l → s1 = s2;
  wf_peer l p : peer_heap m !! l = Some p → (l < next m)%nat ∧ inbox_ok p }.

Lemma WF_init : WF ∅ NewMemory.
Proof.
  split; try (unfold NewMemory; cbn; intros *; rewrite lookup_empty; done).
  - intros s id l (ps & H & _). done.
  - intros s1 s2 id1 id2 l (ps & H & _). done.
Qed.

(** [m'] comes later than [m]: objects keep their identity, and an object that
    is not a member never becomes one. *)
Record ext (names names' : gmap nat string) m m' : Prop := {
  ext_names : names ⊆ names';
  ext_next : (next m ≤ next m')%nat;
  ext_peer l p : peer_heap m !! l = Some p →
    ∃ p', peer_heap m' !! l = Some p' ∧ mp_id p' = mp_id p ∧ mp_service p' = mp_service p;
  ext_member s id l : (l < next m)%nat → member m' s id l → member m s id l }.

Lemma ext_refl names m : ext names names m m.
Proof. split; [done|done|intros l p H; by exists p|done]. Qed.

(** A change of one peer object that keeps its identity and its state of
    closing (unless it is not a member). *)
Lemma WF_set_peer names l p p' m :
  WF names m → peer_heap m !! l = Some p → mp_id p' = mp_id p → mp_service p' = mp_service p →
  inbox_ok p' → (mp_inboxClosed p' = mp_inboxClosed p ∨ ∀ s id, ¬ member m s id l) →
  WF names (set_peer l p' m) ∧ ext names names m (set_peer l p' m).
Proof.
  intros [Hsv Hs Hn Hm Hi Hp] Hl Hid Hsvc Hin Hcl. split.
  - split; cbn; try done.
    + intros s id l' Hmem. destruct (Hm _ _ _ Hmem) as (q & Hq & Hqid & Hqc & Hqn).
      destruct (decide (l = l')) as [<-|Hne].
      * exists p'. rewrite lookup_insert, decide_True by done. rewrite Hl in Hq. injection Hq as <-.
        rewrite Hid, Hsvc. split; [done|split; [done|split; [|done]]].
        destruct Hcl as [->|Hno]; [done|]. by destruct (Hno s id).
      * exists q. by rewrite lookup_insert_ne.
    + intros l' q [(<- & <-)|(Hne & Hq)]%lookup_insert_Some; [|by apply Hp].
      split; [by apply (Hp l p)|done].
  - split; cbn; try done. intros l' q Hq. destruct (decide (l = l')) as [<-|Hne].
    + exists p'. rewrite lookup_insert, decide_True by done. rewrite Hl in Hq. by injection Hq as <-.
    + exists q. by rewrite lookup_insert_ne.
Qed.

Lemma WF_serviceForJoin names id m s m' :
  WF names m → serviceForJoin id m = (s, m') →
  ∃ names', WF names' m' ∧ ext names names' m m' ∧ names' !! s = Some id.
Proof.
  intros HWF Hj. unfold serviceForJoin in Hj. destruct (services m !! id) as [l|] eqn:Hl.
  - injection Hj as <- <-. exists names. split; [done|]. split; [apply ext_refl|].
    by eapply wf_services.
  - injection Hj as <- <-. destruct HWF as [Hsv Hs Hn Hm Hi Hp].
    assert (names !! next m = None) as Hfresh.
    { destruct (names !! next m) eqn:E; [|done]. apply Hn in E. lia. }
    assert (svc_heap m !! next m = None) as Hfresh2.
    { destruct (svc_heap m !! next m) eqn:E; [|done]. apply Hsv in E as [? _]. lia. }
    assert (∀ s i l, member
       {| services := <[id:=next m]> (services m); svc_heap := <[next m:=∅]> (svc_heap m);
          peer_heap := peer_heap m; next := S (next m) |} s i l → member m s i l) as Hmem.
    { intros s i l (ps & H & Hps). cbn in H. apply lookup_insert_Some in H as [(<- & <-)|(Hne & H)];
        [by rewrite lookup_empty in Hps|by exists ps]. }
    exists (<[next m := id]> names). split; [|split].
    + split; cbn.
      * intros s ps [(<- & <-)|(Hne & H)]%lookup_insert_Some.
        { rewrite map_size_empty. unfold MaxPeersPerService. lia. }
        apply Hsv in H. lia.
      * intros i s [(<- & <-)|(Hne & H)]%lookup_insert_Some.
        { by rewrite lookup_insert, decide_True. }
        apply Hs in H. rewrite lookup_insert_ne; [done|]. intros <-. congruence.
      * intros s i [(<- & <-)|(Hne & H)]%lookup_insert_Some; [lia|]. apply Hn in H. lia.
      * intros s i l H%Hmem. destruct (Hm _ _ _ H) as (p & ? & ? & ? & Hna).
        exists p. rewrite lookup_insert_ne; [done|]. intros <-. congruence.
      * intros s1 s2 i1 i2 l H1%Hmem H2%Hmem. by eapply Hi.
      * intros l p H. apply Hp in H as [? ?]. split; [lia|done].
    + split; cbn; [by apply insert_subseteq|lia|intros l p H; by exists p|intros; by apply Hmem].
    + by rewrite lookup_insert, decide_True.
Qed.

Lemma peers_of_member s m id l : peers_of s m !! id = Some l → member m s id l.
Proof.
  unfold peers_of. destruct (svc_heap m !! s) as [ps|] eqn:H; cbn; [|done]. intros ?. by exists ps.
Qed.

Lemma WF_join_insert names peer s m r m' :
  WF names m → names !! s = Some (Service peer) → join_insert peer s m = (r, m') →
  WF names m' ∧ ext names names m m' ∧
  (∀ sx, r = inl sx → sx_service sx = s ∧
     peer_heap m' !! sx_peer sx = Some {| mp_id := ID peer; mp_service := Service peer;
                                          mp_inbox := []; mp_inboxClosed := false |}).
Proof.
  intros HWF Hna Hj. pose proof HWF as [Hsv Hs Hn Hm Hi Hp]. unfold join_insert in Hj.
  destruct (peers_of s m !! ID peer) as [l0|] eqn:Hl0.
  { injection Hj as <- <-. split; [done|]. split; [apply ext_refl|done]. }
  destruct (decide _) as [Hfull|Hfull].
  { injection Hj as <- <-. split; [done|]. split; [apply ext_refl|done]. }
  injection Hj as <- <-. set (l := next m). set (mp := {| mp_id := _; mp_service := _ |}).
  set (m' := {| services := services m |}).
  assert (∀ s' i l', member m' s' i l' → (s' = s ∧ i = ID peer ∧ l' = l) ∨ member m s' i l') as Hmem.
  { intros s' i l' (ps & H & Hps). cbn in H.
    apply lookup_insert_Some in H as [(<- & <-)|(Hne & H)]; [|right; by exists ps].
    apply lookup_insert_Some in Hps as [(<- & <-)|(Hne & H)]; [by left|right].
    by apply peers_of_member. }
  assert (∀ s' i, ¬ member m s' i l) as Hnew.
  { intros s' i H. destruct (Hm _ _ _ H) as (p & Hpl & _). apply Hp in Hpl as [? _]. unfold l in *. lia. }
  split; [|split].
  - split; cbn.
    + intros s' ps [(<- & <-)|(Hne & H)]%lookup_insert_Some.
      * split; [apply Hn in Hna; lia|]. rewrite map_size_insert_None by done. lia.
      * apply Hsv in H. lia.
    + done.
    + intros s' i H%Hn. lia.
    + intros s' i l' [(-> & -> & ->)|H]%Hmem.
      * exists mp. by rewrite lookup_insert, decide_True.
      * destruct (Hm _ _ _ H) as (p & Hpl & ?). exists p. rewrite lookup_insert_ne; [done|].
        intros <-. by apply (Hnew s' i).
    + intros s1 s2 i1 i2 l' [(-> & -> & ->)|H1]%Hmem [(-> & -> & Heq)|H2]%Hmem; try done.
      * by apply Hnew in H2.
      * subst. by apply Hnew in H1.
      * by eapply Hi.
    + intros l' p [(<- & <-)|(Hne & H)]%lookup_insert_Some.
      * split; [unfold l; lia|]. split; cbn; [lia|done].
      * apply Hp in H as [? ?]. split; [lia|done].
  - split; cbn; [done|lia| |].
    + intros l' p H. exists p. rewrite lookup_insert_ne; [done|]. intros <-. apply Hp in H. unfold l in *. lia.
    + intros s' i l' Hlt [(-> & -> & ->)|H]%Hmem; [unfold l in *; lia|done].
  - intros sx [= <-]. cbn. split; [done|]. by rewrite lookup_insert, decide_True.
Qed.

Lemma WF_leave_remove names peer s m r m' :
  WF names m → leave_remove peer s m = (r, m') →
  WF names m' ∧ ext names names m m' ∧
  (∀ mp e, r = Some (mp, e) → (mp < next m')%nat ∧ ∀ s' id, ¬ member m' s' id mp).
Proof.
  intros HWF Hr. pose proof HWF as [Hsv Hs Hn Hm Hi Hp]. unfold leave_remove in Hr.
  destruct (peers_of s m !! ID peer) as [mp|] eqn:Hmp; injection Hr as <- <-;
    [|split; [done|split; [apply ext_refl|done]]].
  apply peers_of_member in Hmp as Hmem0. destruct Hmem0 as (ps0 & Hps0 & Hid0).
  assert (∀ s' i l', member (set_svc s (delete (ID peer) (peers_of s m)) m) s' i l' →
    member m s' i l' ∧ ¬ (s' = s ∧ i = ID peer)) as Hmem.
  { intros s' i l' (ps & H & Hps). cbn in H. apply lookup_insert_Some in H as [(<- & <-)|(Hne & H)].
    - apply lookup_delete_Some in Hps as [Hne Hps]. split; [by apply peers_of_member|]. intros [_ ?]; congruence.
    - split; [by exists ps|]. intros [? _]; congruence. }
  split; [|split].
  - split; cbn; try done.
    + intros s' ps [(<- & <-)|(Hne & H)]%lookup_insert_Some; [|by apply Hsv].
      destruct (Hsv _ _ Hps0). split; [done|]. unfold peers_of. rewrite Hps0. cbn.
      rewrite map_size_delete_Some by (by eexists). lia.
    + intros s' i l' [H _]%Hmem. by apply Hm.
    + intros s1 s2 i1 i2 l' [H1 _]%Hmem [H2 _]%Hmem. by eapply Hi.
  - split; cbn; [done|done|intros l p H; by exists p|]. intros s' i l' _ [H _]%Hmem. done.
  - intros mp' e [= <- <-]. cbn. assert (member m s (ID peer) mp) as Hmp' by by exists ps0.
    destruct (Hm _ _ _ Hmp') as (p & Hpl & Hpid & _). split; [by apply (Hp mp p)|].
    intros s' i [H Hne]%Hmem. apply Hne. split; [by eapply Hi|].
    destruct (Hm _ _ _ H) as (p' & Hpl' & Hpid' & _). congruence.
Qed.

Lemma WF_close_inbox names mp m :
  WF names m → (∀ s id, ¬ member m s id mp) →
  WF names (close_inbox mp m) ∧ ext names names m (close_inbox mp m).
Proof.
  intros HWF Hno. unfold close_inbox. destruct (peer_heap m !! mp) as [p|] eqn:Hp;
    [|split; [done|apply ext_refl]].
  destruct (mp_inboxClosed p); [split; [done|apply ext_refl]|].
  apply (WF_set_peer names mp p); try done; [|by right].
  by apply (wf_peer _ _ HWF) in Hp as [_ ?].
Qed.

Lemma WF_leave_gc names peer m :
  WF names m → WF names (leave_gc peer m) ∧ ext names names m (leave_gc peer m).
Proof.
  intros HWF. unfold leave_gc. destruct (services m !! Service peer) as [s|];
    [|split; [done|apply ext_refl]].
  destruct (decide _); [|split; [done|apply ext_refl]].
  destruct HWF as [Hsv Hs Hn Hm Hi Hp]. split; [|split; cbn; try done; intros l p H; by exists p].
  split; cbn; try done. intros i s' [_ H]%lookup_delete_Some. by apply Hs.
Qed.

Lemma ext_trans n1 n2 n3 m1 m2 m3 : ext n1 n2 m1 m2 → ext n2 n3 m2 m3 → ext n1 n3 m1 m3.
Proof.
  intros [A1 B1 C1 D1] [A2 B2 C2 D2]. split.
  - by etrans.
  - lia.
  - intros l p (p2 & H2 & E1 & E2)%C1. apply C2 in H2 as (p3 & H3 & E3 & E4).
    exists p3. split; [done|]. split; congruence.
  - intros s id l Hl H. apply D1; [done|]. apply D2; [lia|done].
Qed.

Lemma WF_broadcast names s from msg ps m :
  WF names m → sm_SenderID msg = from → names !! s = Some (sm_Service msg) →
  Forall (λ e, member m s e.1 e.2) ps →
  ∃ m', broadcast from msg ps m = (Ok tt, m') ∧ WF names m' ∧ ext names names m m'.
Proof.
  intros HWF Hfrom Hname. revert m HWF. induction ps as [|[id l] ps IH]; intros m HWF Hall.
  { exists m. split; [done|]. split; [done|apply ext_refl]. }
  apply Forall_cons in Hall as [Hmem Hall]. cbn [broadcast fst snd] in *.
  case_bool_decide as Hid; [by apply IH|].
  destruct (wf_member _ _ HWF _ _ _ Hmem) as (p & Hp & Hpid & Hcl & Hpn). rewrite Hp.
  unfold push. rewrite Hcl. pose proof (wf_peer _ _ HWF _ _ Hp) as [_ [Hcap Hin]].
  destruct (decide _) as [Hlt|Hge].
  - set (p' := {| mp_id := mp_id p; mp_service := mp_service p; mp_inbox := mp_inbox p ++ [msg];
                  mp_inboxClosed := false |}).
    destruct (WF_set_peer names l p p' m) as [HWF' Hext]; [done..| | |].
    { split; cbn; [rewrite length_app; cbn; lia|]. apply Forall_app. split; [done|].
      apply Forall_singleton. split; [congruence|]. congruence. }
    { left. by rewrite Hcl. }
    destruct (IH (set_peer l p' m) HWF') as (m' & Hb & HWF'' & Hext').
    { eapply Forall_impl; [exact Hall|]. intros [id' l'] (ps' & H1 & H2). by exists ps'. }
    exists m'. split; [done|]. split; [done|by eapply ext_trans].
  - destruct (IH (set_peer l p m)) as (m' & Hb & HWF' & Hext').
    { apply (WF_set_peer names l p p m); try done. by left. }
    { eapply Forall_impl; [exact Hall|]. intros [id' l'] (ps' & H1 & H2). by exists ps'. }
    exists m'. split; [done|]. split; [done|]. eapply ext_trans; [|exact Hext'].
    apply (WF_set_peer names l p p m); try done. by left.
Qed.

(** A session: the peer that joined and the sender it got. *)
Definition session_ok (names : gmap nat string) m (js : Peer * memorySender) : Prop :=
  names !! sx_service js.2 = Some (Service js.1) ∧
  ∃ p, peer_heap m !! sx_peer js.2 = Some p ∧ mp_id p = ID js.1 ∧ mp_service p = Service js.1.

Lemma WF_Send names peer sx body m :
  WF names m → session_ok names m (peer, sx) →
  ∃ m', Send sx body m = (Ok tt, m') ∧ WF names m' ∧ ext names names m m'.
Proof.
  intros HWF [Hna (p & Hp & Hid & Hsv)]. unfold Send. cbn in *. rewrite Hp.
  apply (WF_broadcast names (sx_service sx)); [done|done|by cbn; rewrite Hsv|].
  apply Forall_forall. intros [id l] H%elem_of_map_to_list. by apply peers_of_member.
Qed.

Lemma WF_Recv names mp m r m' :
  WF names m → Recv mp m = Some (r, m') → WF names m' ∧ ext names names m m'.
Proof.
  intros HWF. unfold Recv. intros (p & Hp & H)%bind_Some.
  pose proof (wf_peer _ _ HWF _ _ Hp) as [_ [Hcap Hin]].
  destruct (mp_inbox p) as [|msg q] eqn:Hq.
  - destruct (mp_inboxClosed p); [|done]. injection H as _ <-. split; [done|apply ext_refl].
  - injection H as _ <-. apply Forall_cons in Hin as [_ Hin]. cbn in Hcap.
    apply (WF_set_peer names mp p); try done; [|by left]. split; cbn; [lia|done].
Qed.

(** ** Concurrent calls *)

Definition pending_ok (names : gmap nat string) m (t : pending) : Prop :=
  match t with
  | PJoin peer s => names !! s = Some (Service peer)
  | PClose _ mp _ => (mp < next m)%nat ∧ ∀ s id, ¬ member m s id mp
  | _ => True
  end.

Definition SInv (c : conc) : Prop :=
  ∃ names, WF names (c_mem c) ∧ Forall (pending_ok names (c_mem c)) (c_pending c) ∧
           Forall (session_ok names (c_mem c)) (c_joined c).

Lemma pending_ok_ext names names' m m' t :
  ext names names' m m' → pending_ok names m t → pending_ok names' m' t.
Proof.
  intros [Hn Hx _ Hm]. destruct t as [peer s|peer s|peer mp e|peer]; cbn; try done.
  - intros H. by eapply lookup_weaken.
  - intros [Hlt Hno]. split; [lia|]. intros s id H. by eapply Hno, Hm.
Qed.

Lemma session_ok_ext names names' m m' js :
  ext names names' m m' → session_ok names m js → session_ok names' m' js.
Proof.
  intros [Hn _ Hp _] [H1 (p & H2 & E1 & E2)]. split; [by eapply lookup_weaken|].
  apply Hp in H2 as (p' & ? & ? & ?). exists p'. split; [done|]. split; congruence.
Qed.

Lemma pendings_ext names names' m m' ps :
  ext names names' m m' → Forall (pending_ok names m) ps → Forall (pending_ok names' m') ps.
Proof. intros Hext Hps. eapply Forall_impl; [exact Hps|]. intros t. by apply pending_ok_ext. Qed.

(** The invariant of the next state, whose sessions are old or new. *)
Lemma SInv_intro names names' (c : conc) m' ps js :
  Forall (session_ok names (c_mem c)) (c_joined c) → WF names' m' → ext names names' (c_mem c) m' →
  Forall (pending_ok names' m') ps → Forall (λ j, j ∈ c_joined c ∨ session_ok names' m' j) js →
  SInv {| c_mem := m'; c_pending := ps; c_joined := js |}.
Proof.
  intros Hjs HWF' Hext Hps Hj. exists names'. split; [done|]. split; [done|].
  eapply Forall_impl; [exact Hj|]. intros j [Hin|Hok]; [|done].
  rewrite Forall_forall in Hjs. eapply session_ok_ext; [exact Hext|by apply Hjs].
Qed.

Lemma SInv_step c c' : SInv c → step c c' → SInv c'.
Proof.
  intros (names & HWF & Hpd & Hjs) Hstep.
  pose proof (λ names' m' ps js, SInv_intro names names' c m' ps js Hjs) as Hgo.
  pose proof (λ names' m' ps, pendings_ext names names' (c_mem c) m' ps) as Hpe.
  assert (∀ js' : list (Peer * memorySender), js' = c_joined c → ∀ names' m',
    Forall (λ j, j ∈ c_joined c ∨ session_ok names' m' j) js') as Hsame.
  { intros js' -> names' m'. apply Forall_forall. auto. }
  destruct Hstep as [peer m ps js s m' _ _ H|peer s m ps1 ps2 js r m' H|peer s m ps js H
    |peer s m ps1 ps2 js r m' H|peer mp e m ps1 ps2 js|peer m ps1 ps2 js
    |peer sx body m ps js r m' Hin H|mp m ps js r m' H]; cbn in *.
  - destruct (WF_serviceForJoin _ _ _ _ _ HWF H) as (names' & HWF' & Hext & Hna).
    apply (Hgo names'); [done|done| |by apply Hsame]. apply Forall_cons. split; [done|by apply Hpe].
  - apply Forall_app in Hpd as [Hpd1 [Hok Hpd2]%Forall_cons].
    destruct (WF_join_insert _ _ _ _ _ _ HWF Hok H) as (HWF' & Hext & Hr).
    apply (Hgo names); [done|done| |].
    + apply Forall_app; split; by apply Hpe.
    + destruct r as [sx|e]; [|by apply Hsame]. apply Forall_cons; split; [|by apply Hsame].
      right. destruct (Hr sx eq_refl) as [Hs Hp]. split; cbn; [by rewrite Hs|]. by eexists.
  - apply (Hgo names); [done|apply ext_refl| |by apply Hsame]. by apply Forall_cons.
  - apply Forall_app in Hpd as [Hpd1 [_ Hpd2]%Forall_cons].
    destruct (WF_leave_remove _ _ _ _ _ _ HWF H) as (HWF' & Hext & Hr).
    apply (Hgo names); [done|done| |by apply Hsame]. apply Forall_app; split; [by apply Hpe|].
    destruct r as [[mp e]|]; [|by apply Hpe]. apply Forall_cons; split; [by apply (Hr mp e)|by apply Hpe].
  - apply Forall_app in Hpd as [Hpd1 [[_ Hno] Hpd2]%Forall_cons].
    destruct (WF_close_inbox names mp m HWF Hno) as [HWF' Hext].
    apply (Hgo names); [done|done| |by apply Hsame]. apply Forall_app; split; [by apply Hpe|].
    destruct e; [|by apply Hpe]. apply Forall_cons; split; [done|by apply Hpe].
  - apply Forall_app in Hpd as [Hpd1 [_ Hpd2]%Forall_cons].
    destruct (WF_leave_gc names peer m HWF) as [HWF' Hext].
    apply (Hgo names); [done|done| |by apply Hsame]. apply Forall_app; split; by apply Hpe.
  - rewrite Forall_forall in Hjs. pose proof (Hjs _ Hin) as Hok.
    destruct (WF_Send names peer sx body m HWF Hok) as (m'' & H' & HWF' & Hext).
    rewrite H in H'. injection H' as -> ->.
    apply (Hgo names); [done|done|by apply Hpe|by apply Hsame].
  - destruct (WF_Recv _ _ _ _ _ HWF H) as [HWF' Hext].
    apply (Hgo names); [done|done|by apply Hpe|by apply Hsame].
Qed.

Lemma reachable_SInv (c : conc) : reachable c → SInv c.
Proof.
  revert c. apply (rtc_ind_r SInv).
  - exists ∅. split; [apply WF_init|done].
  - intros c c' _ Hs Hc. by eapply SInv_step.
Qed.
End inv.

(** ** Properties *)

(** [C38] The store is safe under every interleaving of the locked sections of
    concurrent calls: a broadcast by any session never sends on a closed
    channel; no service object holds more than 10 peers; no inbox holds more
    than 32 messages; and every message in a peer's inbox was sent by a peer
    with another id and in the peer's own service. *)
Theorem store_safety {Body} (c : @conc Body) (Hr : reachable c) :
  (∀ peer sx body, (peer, sx) ∈ c_joined c → ∃ m', Send sx body (c_mem c) = (Ok tt, m')) ∧
  (∀ s ps, svc_heap (c_mem c) !! s = Some ps → (size ps ≤ MaxPeersPerService)%nat) ∧
  (∀ l p, peer_heap (c_mem c) !! l = Some p →
     (length (mp_inbox p) ≤ inbox_cap)%nat ∧
     Forall (λ msg, sm_SenderID msg ≠ mp_id p ∧ sm_Service msg = mp_service p) (mp_inbox p)).
Proof.
  destruct (reachable_SInv c Hr) as (names & HWF & _ & Hjs). split_and!.
  - intros peer sx body Hin. rewrite Forall_forall in Hjs.
    destruct (WF_Send names peer sx body _ HWF (Hjs _ Hin)) as (m' & H & _). by exists m'.
  - intros s ps H. by apply (wf_svc _ _ HWF) in H as [_ ?].
  - intros l p H. by apply (wf_peer _ _ HWF) in H as [_ ?].
Qed.

(** Two peers join and the first broadcasts: one message waits. *)
Definition ex_join (id : string) (m : @Memory nat) : @Memory nat :=
  (Join {| ID := id; Service := "s" |} m).2.

Lemma store_safety_witness :
  let m := (Send {| sx_peer := 1; sx_service := 0 |} 7%nat (ex_join "b" (ex_join "a" NewMemory))).2 in
  let js := [({| ID := "b"; Service := "s" |}, {| sx_peer := 2; sx_service := 0 |});
             ({| ID := "a"; Service := "s" |}, {| sx_peer := 1; sx_service := 0 |})] in
  let c := {| c_mem := m; c_pending := []; c_joined := js |} in
  (∀ peer sx body, (peer, sx) ∈ c_joined c → ∃ m', Send sx body (c_mem c) = (Ok tt, m')) ∧
  (∀ s ps, svc_heap (c_mem c) !! s = Some ps → (size ps ≤ MaxPeersPerService)%nat) ∧
  (∀ l p, peer_heap (c_mem c) !! l = Some p →
     (length (mp_inbox p) ≤ inbox_cap)%nat ∧
     Forall (λ msg, sm_SenderID msg ≠ mp_id p ∧ sm_Service msg = mp_service p) (mp_inbox p)).
Proof.
  intros m js c. apply (store_safety c). unfold reachable, c, js.
  eapply rtc_l; [apply (step_join1 {| ID := "a"; Service := "s" |} _ [] [] 0
                          (serviceForJoin "s" NewMemory).2); done|].
  eapply rtc_l; [apply (step_join2 {| ID := "a"; Service := "s" |} 0 _ [] [] []
                   (inl {| sx_peer := 1; sx_service := 0 |}) (ex_join "a" NewMemory)); reflexivity|].
  eapply rtc_l; [apply (step_join1 {| ID := "b"; Service := "s" |} _ [] _ 0 (ex_join "a" NewMemory)); done|].
  eapply rtc_l; [apply (step_join2 {| ID := "b"; Service := "s" |} 0 _ [] [] _
                   (inl {| sx_peer := 2; sx_service := 0 |}) (ex_join "b" (ex_join "a" NewMemory)));
                 reflexivity|].
  eapply rtc_l; [|apply rtc_refl].
  apply (step_send {| ID := "a"; Service := "s" |} {| sx_peer := 1; sx_service := 0 |} 7%nat _ _ _ tt m).
  - by apply list_elem_of_further, list_elem_of_here.
  - reflexivity.
Defined.
