(* ===== verification/SignalStoreSpec.v ===== *)
(** * The signaling store refines a table of inboxes

    [Join], [Leave] and [Send] as operations on a table from services to peers to
    inboxes, and the proof that [Memory]'s, called one at a time, implement
    them; for the servers and clients of [SignalServer] and [SignalEnd].
    [SignalStoreTrace] says what all calls of the store return. *)

From Stdlib Require Import ZArith Lia.
From stdpp Require Import numbers strings gmap fin_maps relations list.
From S2P Require Import Prelude SignalStore SignalStoreProps.
Open Scope Z_scope.

Section spec.
Context {Body : Type}.
Abbreviation Memory := (@Memory Body).
Abbreviation inbox := (list (@SignalMessage Body)).
Abbreviation table := (gmap string (gmap string inbox)).
Implicit Types (m : Memory) (a : table).

(** ** The specification *)

Definition spec_join (peer : Peer) a : option error * table :=
  if bool_decide (Service peer = ""%string) || bool_decide (ID peer = ""%string)
  then (Some ErrPeerAlreadyExists, a)
  else
    let ps := default ∅ (a !! Service peer) in
    match ps !! ID peer with
    | Some _ => (Some ErrPeerAlreadyExists, a)
    | None =>
        if decide (MaxPeersPerService ≤ size ps)%nat then (Some ErrServiceFull, a)
        else (None, <[Service peer := <[ID peer := []]> ps]> a)
    end.

(** Leaving drops the peer, and its service with the last peer. *)
Definition spec_leave (peer : Peer) a : table :=
  match a !! Service peer with
  | None => a
  | Some ps =>
      match ps !! ID peer with
      | None => a
      | Some _ =>
          let ps := delete (ID peer) ps in
          if decide (ps = ∅) then delete (Service peer) a else <[Service peer := ps]> a
      end
  end.

(** Broadcast to the others; a full inbox drops the message. *)
Definition spec_push (from : string) (msg : SignalMessage) (id : string) (q : inbox) : inbox :=
  if bool_decide (id = from) then q
  else if decide (length q < inbox_cap)%nat then q ++ [msg] else q.

Definition spec_send (peer : Peer) (body : Body) a : table :=
  let msg := {| sm_Service := Service peer; sm_SenderID := ID peer; sm_Body := body |} in
  match a !! Service peer with
  | None => a
  | Some ps => <[Service peer := map_imap (λ id q, Some (spec_push (ID peer) msg id q)) ps]> a
  end.

(** ** The abstraction *)

Definition inbox_of m (l : nat) : inbox :=
  match peer_heap m !! l with Some p => mp_inbox p | None => [] end.

Definition abs m : table := (λ s, inbox_of m <$> peers_of s m) <$> services m.

(** Between calls, a registered service has an object, and is not empty. *)
Record SWF m : Prop := {
  swf_wf : ∃ names, WF names m;
  swf_some id s : services m !! id = Some s → is_Some (svc_heap m !! s);
  swf_nonempty id s : services m !! id = Some s → peers_of s m ≠ ∅ }.

Lemma abs_lookup m id s :
  services m !! id = Some s → abs m !! id = Some (inbox_of m <$> peers_of s m).
Proof. intros H. unfold abs. by rewrite lookup_fmap, H. Qed.

Lemma abs_lookup_none m id : services m !! id = None → abs m !! id = None.
Proof. intros H. unfold abs. by rewrite lookup_fmap, H. Qed.

Lemma services_inj m id1 id2 s :
  SWF m → services m !! id1 = Some s → services m !! id2 = Some s → id1 = id2.
Proof.
  intros [[names HWF] _ _] H1%(wf_services _ _ HWF) H2%(wf_services _ _ HWF). congruence.
Qed.

Lemma SWF_init : SWF NewMemory.
Proof. split; [exists ∅; apply WF_init|done|done]. Qed.

(** ** How an operation changes the table *)

Definition same_service (s : nat) m m' : Prop :=
  inbox_of m' <$> peers_of s m' = inbox_of m <$> peers_of s m.

Lemma same_service_intro s m m' :
  svc_heap m' !! s = svc_heap m !! s → (∀ id l, member m s id l → inbox_of m' l = inbox_of m l) →
  same_service s m m'.
Proof.
  intros Hs Hl. unfold same_service, peers_of. rewrite Hs. apply map_eq. intros id.
  rewrite !lookup_fmap. destruct (svc_heap m !! s) as [ps|] eqn:Hps; [|done]. cbn.
  destruct (ps !! id) as [l|] eqn:Hid; [|done]. cbn. f_equal. apply (Hl id). by exists ps.
Qed.

Lemma abs_insert id s m m' :
  services m' = <[id := s]> (services m) →
  (∀ id' s', id' ≠ id → services m !! id' = Some s' → same_service s' m m') →
  abs m' = <[id := inbox_of m' <$> peers_of s m']> (abs m).
Proof.
  intros Hs Hsame. unfold abs. rewrite Hs. apply map_eq. intros i.
  rewrite lookup_fmap. destruct (decide (i = id)) as [->|Hne].
  - by rewrite !lookup_insert, !decide_True.
  - rewrite !lookup_insert_ne, lookup_fmap by done.
    destruct (services m !! i) as [s'|] eqn:Hi; [|done]. cbn. f_equal. by eapply Hsame.
Qed.

Lemma abs_delete id m m' :
  services m' = delete id (services m) →
  (∀ id' s', id' ≠ id → services m !! id' = Some s' → same_service s' m m') →
  abs m' = delete id (abs m).
Proof.
  intros Hs Hsame. unfold abs. rewrite Hs. apply map_eq. intros i.
  rewrite lookup_fmap. destruct (decide (i = id)) as [->|Hne].
  - by rewrite !lookup_delete, !decide_True.
  - rewrite !lookup_delete_ne, lookup_fmap by done.
    destruct (services m !! i) as [s'|] eqn:Hi; [|done]. cbn. f_equal. by eapply Hsame.
Qed.

(** ** Join *)

(** [join_insert] into the service [s] of [m1], which is the registered service
    or a new one. *)
Lemma join_insert_refines names peer s m :
  WF names m → names !! s = Some (Service peer) → services m !! Service peer = Some s →
  (∀ id s', services m !! id = Some s' → is_Some (svc_heap m !! s')) →
  (∀ id s', id ≠ Service peer → services m !! id = Some s' → peers_of s' m ≠ ∅) →
  let '(r, m') := join_insert peer s m in
  match r with
  | inl sx => peers_of s m !! ID peer = None ∧ (size (peers_of s m) < MaxPeersPerService)%nat ∧
      SWF m' ∧ abs m' = <[Service peer := <[ID peer := []]> (inbox_of m <$> peers_of s m)]> (abs m) ∧
      services m' = services m ∧ sx_service sx = s ∧ peers_of s m' !! ID peer = Some (sx_peer sx)
  | inr e => m' = m ∧ peers_of s m ≠ ∅ ∧
      (is_Some (peers_of s m !! ID peer) ∧ e = ErrPeerAlreadyExists ∨
       peers_of s m !! ID peer = None ∧
         (MaxPeersPerService ≤ size (peers_of s m))%nat ∧ e = ErrServiceFull)
  end.
Proof.
  intros HWF Hna Hs Hsome Hne. destruct (join_insert peer s m) as [r m'] eqn:Hj.
  destruct (WF_join_insert _ _ _ _ _ _ HWF Hna Hj) as (HWF' & _ & _). unfold join_insert in Hj.
  destruct (peers_of s m !! ID peer) as [l0|] eqn:Hl0.
  { injection Hj as <- <-. split; [done|]. split; [intros He; by rewrite He in Hl0|].
    left. split; [by eexists|done]. }
  destruct (decide _) as [Hfull|Hfull].
  { injection Hj as <- <-. split; [done|]. split; [|by right].
    intros He. rewrite He, map_size_empty in Hfull. unfold MaxPeersPerService in Hfull. lia. }
  injection Hj as <- <-. set (m' := {| services := services m |}) in *.
  assert (peers_of s m' = <[ID peer := next m]> (peers_of s m)) as Hp.
  { unfold m', peers_of at 1. cbn. by rewrite lookup_insert, decide_True. }
  assert (∀ l p, peer_heap m !! l = Some p → inbox_of m' l = inbox_of m l) as Hi.
  { intros l p Hl. apply (wf_peer _ _ HWF) in Hl as [? _]. unfold inbox_of, m'. cbn.
    by rewrite lookup_insert_ne by lia. }
  assert (∀ s', s' ≠ s → same_service s' m m' ∧ peers_of s' m' = peers_of s' m) as Hoth.
  { intros s' Hd. assert (svc_heap m' !! s' = svc_heap m !! s') as He
      by (unfold m'; cbn; by rewrite lookup_insert_ne).
    split; [|unfold peers_of; by rewrite He]. apply same_service_intro; [done|].
    intros id l Hm. destruct (wf_member _ _ HWF _ _ _ Hm) as (p & Hl & _). by eapply Hi. }
  assert (∀ id s', id ≠ Service peer → services m !! id = Some s' → s' ≠ s) as Hdiff.
  { intros id s' Hid Hs' ->. apply (wf_services _ _ HWF) in Hs'. congruence. }
  split; [done|]. split; [lia|]. split; [|split; [|split; [done|split; [done|]]]].
  - split; [by exists names| |].
    + intros id s' Hs'. unfold m'; cbn. destruct (decide (s = s')) as [->|Hd].
      * rewrite lookup_insert, decide_True by done. by eexists.
      * rewrite lookup_insert_ne by done. by apply (Hsome id).
    + intros id s' Hs'. change (services m !! id = Some s') in Hs'.
      destruct (decide (id = Service peer)) as [->|Hid].
      * assert (s' = s) as -> by congruence. rewrite Hp. apply insert_non_empty.
      * destruct (Hoth s') as [_ ->]; [by eapply Hdiff|]. by eapply Hne.
  - rewrite (abs_insert (Service peer) s m m').
    + f_equal. rewrite Hp, fmap_insert. f_equal.
      * unfold inbox_of, m'; cbn. by rewrite lookup_insert, decide_True.
      * apply map_eq. intros id. rewrite !lookup_fmap.
        destruct (peers_of s m !! id) as [l|] eqn:Hl; [|done]. cbn. f_equal.
        apply peers_of_member in Hl. destruct (wf_member _ _ HWF _ _ _ Hl) as (p & Hl' & _).
        by eapply Hi.
    + unfold m'; cbn. by rewrite insert_id.
    + intros id s' Hid Hs'. apply Hoth. by eapply Hdiff.
  - by rewrite Hp, lookup_insert, decide_True.
Qed.

Lemma join_refines peer m :
  SWF m →
  let '(r, m') := Join peer m in
  let '(e, a') := spec_join peer (abs m) in
  SWF m' ∧ abs m' = a' ∧
  match r with
  | inl sx => e = None ∧ services m' !! Service peer = Some (sx_service sx) ∧
              peers_of (sx_service sx) m' !! ID peer = Some (sx_peer sx)
  | inr err => e = Some err ∧ m' = m
  end.
Proof.
  intros HS. pose proof HS as [[names HWF] Hsome Hne]. unfold Join, spec_join.
  destruct (bool_decide (Service peer = "") || bool_decide (ID peer = "")); [done|].
  destruct (serviceForJoin (Service peer) m) as [s m1] eqn:Hsj.
  destruct (WF_serviceForJoin _ _ _ _ _ HWF Hsj) as (names1 & HWF1 & Hext1 & Hna).
  unfold serviceForJoin in Hsj. destruct (services m !! Service peer) as [l|] eqn:Hl;
    injection Hsj as <- <-.
  - pose proof (join_insert_refines names1 peer l m HWF1 Hna Hl Hsome (λ id s' _, Hne id s')) as Hj.
    destruct (join_insert peer l m) as [[sx|e] m2]; rewrite (abs_lookup _ _ _ Hl); cbn;
      rewrite lookup_fmap, map_size_fmap.
    + destruct Hj as (-> & Hlt & HS2 & Habs & Hsv & <- & Hp). cbn.
      rewrite decide_False by lia. by rewrite Hsv.
    + destruct Hj as (-> & _ & [[[l0 ->] ->]|(-> & Hge & ->)]); cbn; [done|]. by rewrite decide_True.
  - set (m1 := {| services := <[Service peer := next m]> (services m) |}) in *.
    assert (peers_of (next m) m1 = ∅) as Hempty.
    { unfold peers_of, m1; cbn. by rewrite lookup_insert, decide_True. }
    assert (∀ id s', id ≠ Service peer → services m1 !! id = Some s' →
      services m !! id = Some s' ∧ s' ≠ next m) as Hold.
    { intros id s' Hid Hs'. unfold m1 in Hs'; cbn in Hs'. rewrite lookup_insert_ne in Hs' by done.
      split; [done|]. intros ->. apply (wf_services _ _ HWF), (wf_names _ _ HWF) in Hs'. lia. }
    assert (abs m1 = <[Service peer := ∅]> (abs m)) as Habs1.
    { rewrite (abs_insert (Service peer) (next m) m m1); [|done|].
      - by rewrite Hempty, fmap_empty.
      - intros id s' Hid Hs'. apply same_service_intro; [|done]. unfold m1; cbn.
        rewrite lookup_insert_ne; [done|]. intros <-.
        apply (wf_services _ _ HWF), (wf_names _ _ HWF) in Hs'. lia. }
    assert (services m1 !! Service peer = Some (next m)) as P1.
    { unfold m1; cbn. by rewrite lookup_insert, decide_True. }
    assert (∀ id s', services m1 !! id = Some s' → is_Some (svc_heap m1 !! s')) as P2.
    { intros id s' Hs'. unfold m1 in *; cbn in *. apply lookup_insert_is_Some'.
      apply lookup_insert_Some in Hs' as [(_ & <-)|(Hid & Hs')]; [by left|right; by apply (Hsome id)]. }
    assert (∀ id s', id ≠ Service peer → services m1 !! id = Some s' → peers_of s' m1 ≠ ∅) as P3.
    { intros id s' Hid Hs'. destruct (Hold _ _ Hid Hs') as [Hs0 Hd].
      unfold m1, peers_of; cbn. rewrite lookup_insert_ne by done. by apply (Hne id). }
    pose proof (join_insert_refines names1 peer (next m) m1 HWF1 Hna P1 P2 P3) as Hj.
    destruct (join_insert peer (next m) m1) as [[sx|e] m2]; rewrite (abs_lookup_none _ _ Hl); cbn.
    + destruct Hj as (_ & Hlt & HS2 & Habs & Hsv & Hsx & Hp).
      rewrite Hempty, map_size_empty in *. rewrite lookup_empty. cbn.
      rewrite decide_False by lia. rewrite Hsx. split; [done|]. split; [|split; [done|split; [|done]]].
      * by rewrite Habs, fmap_empty, Habs1, insert_insert, decide_True.
      * by rewrite Hsv.
    + by destruct Hj as (_ & Hne' & _).
Qed.

Lemma join_SWF peer m : SWF m → SWF (Join peer m).2.
Proof.
  intros H. pose proof (join_refines peer m H) as Hj.
  destruct (Join peer m) as [r m'], (spec_join peer (abs m)) as [e a']. by destruct Hj.
Qed.

(** ** Leave *)

Lemma close_inbox_same mp m :
  services (close_inbox mp m) = services m ∧ svc_heap (close_inbox mp m) = svc_heap m ∧
  ∀ l, inbox_of (close_inbox mp m) l = inbox_of m l.
Proof.
  unfold close_inbox. destruct (peer_heap m !! mp) as [p|] eqn:Hp; [|done].
  destruct (mp_inboxClosed p); [done|]. split; [done|]. split; [done|].
  intros l. unfold inbox_of; cbn. destruct (decide (mp = l)) as [<-|Hne].
  - by rewrite lookup_insert, decide_True, Hp.
  - by rewrite lookup_insert_ne.
Qed.

Lemma leave_refines peer m : SWF m → SWF (Leave peer m) ∧ abs (Leave peer m) = spec_leave peer (abs m).
Proof.
  intros HS. pose proof HS as [[names HWF] Hsome Hne]. unfold Leave, spec_leave.
  destruct (services m !! Service peer) as [s|] eqn:Hs; [|by rewrite (abs_lookup_none _ _ Hs)].
  rewrite (abs_lookup _ _ _ Hs), lookup_fmap.
  destruct (leave_remove peer s m) as [r m1] eqn:Hlr.
  destruct (WF_leave_remove _ _ _ _ _ _ HWF Hlr) as (HWF1 & _ & Hr). unfold leave_remove in Hlr.
  destruct (peers_of s m !! ID peer) as [mp|] eqn:Hmp; injection Hlr as <- <-; [|done].
  cbn [fmap option_fmap option_map]. set (ps := delete (ID peer) (peers_of s m)) in *.
  set (m1 := set_svc s ps m) in *.
  destruct (Hr mp _ eq_refl) as [_ Hno]. destruct (WF_close_inbox names mp m1 HWF1 Hno) as [HWF2 _].
  destruct (close_inbox_same mp m1) as (Hsv & Hsh & Hin). set (m2 := close_inbox mp m1) in *.
  assert (peers_of s m2 = ps) as Hps.
  { unfold peers_of. rewrite Hsh. unfold m1; cbn. by rewrite lookup_insert, decide_True. }
  assert (∀ s', s' ≠ s → svc_heap m2 !! s' = svc_heap m !! s') as Hsh'.
  { intros s' Hd. rewrite Hsh. unfold m1; cbn. by rewrite lookup_insert_ne. }
  assert (∀ l, inbox_of m2 l = inbox_of m l) as Hin' by (intros l; by rewrite Hin).
  assert (∀ id s', id ≠ Service peer → services m !! id = Some s' → s' ≠ s) as Hdiff.
  { intros id s' Hid Hs' ->. apply Hid. by eapply services_inj. }
  assert (∀ id s', id ≠ Service peer → services m !! id = Some s' → same_service s' m m2) as Hsame.
  { intros id s' Hid Hs'. apply same_service_intro; [by eapply Hsh', Hdiff|done]. }
  assert (delete (ID peer) (inbox_of m <$> peers_of s m) = inbox_of m2 <$> ps) as ->.
  { unfold ps. rewrite fmap_delete. f_equal. apply map_fmap_ext. auto. }
  assert (∀ id s', services m2 !! id = Some s' → is_Some (svc_heap m2 !! s')) as Hsome2.
  { intros id s' Hs'. rewrite Hsv in Hs'. change (services m !! id = Some s') in Hs'.
    destruct (decide (s' = s)) as [->|Hd]; [|rewrite Hsh' by done; by eapply Hsome].
    rewrite Hsh. unfold m1; cbn. rewrite lookup_insert, decide_True by done. by eexists. }
  assert (∀ id s', id ≠ Service peer → services m2 !! id = Some s' → peers_of s' m2 ≠ ∅) as Hne2.
  { intros id s' Hid Hs'. rewrite Hsv in Hs'. change (services m !! id = Some s') in Hs'.
    unfold peers_of. rewrite Hsh' by by eapply Hdiff. by eapply Hne. }
  case_bool_decide as He.
  - apply map_size_empty_iff in He. rewrite decide_True by by rewrite He, fmap_empty.
    pose proof (proj1 (WF_leave_gc names peer m2 HWF2)) as HWF3. revert HWF3.
    unfold leave_gc. rewrite Hsv. change (services m1) with (services m). rewrite Hs.
    rewrite decide_True by by rewrite Hps, He. intros HWF3. split; [split; cbn|].
    + by exists names.
    + intros id s' [_ H]%lookup_delete_Some. eapply Hsome2. by rewrite Hsv.
    + intros id s' [Hid H]%lookup_delete_Some. eapply (Hne2 id); [done|by rewrite Hsv].
    + by apply abs_delete.
  - assert (ps ≠ ∅) as Hnz by (intros H; apply He; by rewrite H).
    rewrite decide_False by by intros H%fmap_empty_inv.
    split; [split; [by exists names|done|]|].
    + intros id s' Hs'. destruct (decide (id = Service peer)) as [->|Hid]; [|by eapply Hne2].
      rewrite Hsv in Hs'. change (services m !! Service peer = Some s') in Hs'.
      assert (s' = s) as -> by congruence. by rewrite Hps.
    + rewrite <- Hps. apply abs_insert; [|done]. rewrite Hsv. by rewrite insert_id.
Qed.

(** ** Send *)

Definition open_peer m (l : nat) : Prop :=
  ∃ p, peer_heap m !! l = Some p ∧ mp_inboxClosed p = false.

Lemma broadcast_inboxes from msg ps : ∀ m,
  NoDup ps.*2 → Forall (open_peer m) ps.*2 →
  ∃ m', broadcast from msg ps m = (Ok tt, m') ∧ services m' = services m ∧ svc_heap m' = svc_heap m ∧
    (∀ l, l ∉ ps.*2 → peer_heap m' !! l = peer_heap m !! l) ∧
    (∀ id l, (id, l) ∈ ps → inbox_of m' l = spec_push from msg id (inbox_of m l)).
Proof.
  induction ps as [|[id l] ps IH]; intros m Hnd Hall.
  { exists m. split_and!; try done. intros id l H. by apply not_elem_of_nil in H. }
  cbn [fmap list_fmap snd] in *.
  apply Forall_cons in Hall as [(p & Hp & Hcl) Hall]. apply NoDup_cons in Hnd as [Hnin Hnd].
  assert (∃ m1, broadcast from msg ((id, l) :: ps) m = broadcast from msg ps m1 ∧
    services m1 = services m ∧ svc_heap m1 = svc_heap m ∧
    (∀ l', l' ≠ l → peer_heap m1 !! l' = peer_heap m !! l') ∧
    inbox_of m1 l = spec_push from msg id (inbox_of m l)) as (m1 & E & A & B & C & D).
  { assert (inbox_of m l = mp_inbox p) as Hi by (unfold inbox_of; by rewrite Hp).
    cbn [broadcast]. unfold spec_push. rewrite Hp, Hi. case_bool_decide; [by exists m|].
    unfold push. rewrite Hcl. destruct (decide _) as [Hlt|Hge]; eexists; (split; [done|]).
    all: split; [done|split; [done|split]]; [intros l' ?; cbn; by rewrite lookup_insert_ne|].
    all: unfold inbox_of; cbn; by rewrite lookup_insert, decide_True. }
  destruct (IH m1 Hnd) as (m' & Hb & A' & B' & C' & D').
  { rewrite Forall_forall in Hall |- *. intros l' Hl'. destruct (Hall _ Hl') as (q & Hq & ?).
    exists q. rewrite C; [done|]. by intros ->. }
  exists m'. rewrite E. split_and!; [done|congruence|congruence| |].
  - intros l' [Hl' Hps]%not_elem_of_cons. rewrite C' by done. by apply C.
  - intros id' l' [[= -> ->]|Hin]%elem_of_cons.
    + rewrite <- D. unfold inbox_of. by rewrite C'.
    + rewrite (D' _ _ Hin). f_equal. unfold inbox_of. rewrite C; [done|]. intros ->. apply Hnin.
      apply list_elem_of_fmap. by exists (id', l).
Qed.

(** A session whose peer is registered. *)
Definition live_session m (peer : Peer) (sx : memorySender) : Prop :=
  services m !! Service peer = Some (sx_service sx) ∧
  peers_of (sx_service sx) m !! ID peer = Some (sx_peer sx).

Lemma send_refines peer sx body m :
  SWF m → live_session m peer sx →
  ∃ m', Send sx body m = (Ok tt, m') ∧ SWF m' ∧ abs m' = spec_send peer body (abs m).
Proof.
  intros HS [Hs Hp]. pose proof HS as [[names HWF] Hsome Hne].
  set (s := sx_service sx) in *. pose proof (wf_services _ _ HWF _ _ Hs) as Hna.
  pose proof (peers_of_member _ _ _ _ Hp) as Hmem.
  destruct (wf_member _ _ HWF _ _ _ Hmem) as (p & Hpl & Hpid & _ & Hpn).
  assert (mp_service p = Service peer) as Hpsv by congruence.
  destruct (WF_Send names peer sx body m HWF) as (m' & HSend & HWF' & _).
  { split; [done|]. exists p. done. }
  exists m'. split; [done|]. unfold Send in HSend. rewrite Hpl, Hpid, Hpsv in HSend. fold s in HSend.
  set (msg := {| sm_Service := Service peer; sm_SenderID := ID peer; sm_Body := body |}) in *.
  destruct (broadcast_inboxes (ID peer) msg (map_to_list (peers_of s m)) m)
    as (m'' & Hb & Hsv & Hsh & Hother & Hin).
  { apply NoDup_fmap_2_strong; [|apply NoDup_map_to_list].
    intros [id1 l1] [id2 l2] H1%elem_of_map_to_list H2%elem_of_map_to_list; cbn. intros <-.
    apply peers_of_member in H1, H2. destruct (wf_member _ _ HWF _ _ _ H1) as (q & ? & ? & _).
    destruct (wf_member _ _ HWF _ _ _ H2) as (q' & ? & ? & _). congruence. }
  { apply Forall_forall. intros l ([id l'] & -> & H%elem_of_map_to_list)%list_elem_of_fmap.
    apply peers_of_member in H. destruct (wf_member _ _ HWF _ _ _ H) as (q & ? & _ & ? & _). by exists q. }
  rewrite HSend in Hb. injection Hb as <-.
  assert (∀ s', peers_of s' m' = peers_of s' m) as Hps by (intros s'; unfold peers_of; by rewrite Hsh).
  split; [split|].
  - by exists names.
  - intros id s'. rewrite Hsv, Hsh. apply Hsome.
  - intros id s'. rewrite Hsv, Hps. apply Hne.
  - unfold spec_send. rewrite (abs_lookup _ _ _ Hs). fold msg.
    rewrite (abs_insert (Service peer) s m m').
    + f_equal. rewrite Hps. apply map_eq. intros id. rewrite map_lookup_imap, !lookup_fmap.
      destruct (peers_of s m !! id) as [l|] eqn:Hl; [|done]. cbn. f_equal.
      apply Hin. by apply elem_of_map_to_list.
    + by rewrite Hsv, insert_id.
    + intros id' s' Hid Hs'. apply same_service_intro; [by rewrite Hsh|].
      intros id l Hm. unfold inbox_of. rewrite Hother; [done|].
      intros ([id2 l2] & -> & H%elem_of_map_to_list)%list_elem_of_fmap.
      apply peers_of_member in H. assert (s' = s) as -> by apply (wf_inj _ _ HWF _ _ _ _ _ Hm H).
      apply Hid. by eapply services_inj.
Qed.
End spec.

Arguments abs {Body} _.

(** Two peers of the examples. *)
Definition p_a : Peer := {| ID := "a"; Service := "s" |}.
Definition p_b : Peer := {| ID := "b"; Service := "s" |}.
