(* ===== verification/SignalStoreTrace.v ===== *)
(** * The signaling store, observed by its clients

    What [Store] promises, said without tables, locks and objects: a list of
    sessions, in the order in which they joined, each with its queue and whether
    it is still registered.  The results of every sequence of calls of the
    memory store ([Join], [Leave], [Send], [Close], [Recv], [Stats]) are the
    ones this specification computes. *)

From Stdlib Require Import ZArith Lia.
From stdpp Require Import numbers strings gmap fin_maps relations list.
From S2P Require Import Prelude SignalStore SignalStoreProps SignalStoreSpec.
Open Scope Z_scope.

Section trace.
Context {Body : Type}.
Abbreviation Memory := (@Memory Body).
Abbreviation message := (@SignalMessage Body).
Implicit Types m : Memory.

(** ** The specification *)

(** A session: its peer, the incarnation of the service that it joined (a
    service lives from its first join until its last peer leaves), what waits in
    its inbox, and whether it is registered; the inbox of one that is not is
    closed. *)
Record session : Type := { ss_peer : Peer; ss_gen : nat; ss_queue : list message; ss_open : bool }.

Implicit Types (s : session) (ss : list session).

Definition registered (peer : Peer) s : bool := ss_open s && bool_decide (ss_peer s = peer).
Definition in_service (service : string) s : bool :=
  ss_open s && bool_decide (Service (ss_peer s) = service).

Definition shut s : session :=
  {| ss_peer := ss_peer s; ss_gen := ss_gen s; ss_queue := ss_queue s; ss_open := false |}.
Definition with_queue (q : list message) s : session :=
  {| ss_peer := ss_peer s; ss_gen := ss_gen s; ss_queue := q; ss_open := ss_open s |}.

(** The result is the number of the new session. *)
Definition spec_joined (peer : Peer) ss : (nat + error) * list session :=
  if bool_decide (Service peer = ""%string) || bool_decide (ID peer = ""%string)
  then (inr ErrPeerAlreadyExists, ss)
  else if existsb (registered peer) ss then (inr ErrPeerAlreadyExists, ss)
  else if decide (MaxPeersPerService ≤ length (filter (λ s, in_service (Service peer) s) ss))%nat
  then (inr ErrServiceFull, ss)
  else
    let gen := from_option ss_gen (length ss) (List.find (in_service (Service peer)) ss) in
    (inl (length ss), ss ++ [{| ss_peer := peer; ss_gen := gen; ss_queue := []; ss_open := true |}]).

(** The session of that name, if there is one, is closed; what waits in its
    inbox stays readable. *)
Definition spec_left (peer : Peer) ss : list session :=
  (λ s, if registered peer s then shut s else s) <$> ss.

(** A broadcast by session [x]: to the sessions that are registered in the same
    incarnation of its service under another name and have room. *)
Definition spec_reached (x s : session) : bool :=
  ss_open s && bool_decide (ss_gen s = ss_gen x) && negb (bool_decide (ID (ss_peer s) = ID (ss_peer x))).

(** A full inbox drops the message. *)
Definition push_queue (msg : message) (q : list message) : list message :=
  if decide (length q < inbox_cap)%nat then q ++ [msg] else q.

Definition spec_deliver (x : session) (msg : message) s : session :=
  if spec_reached x s then with_queue (push_queue msg (ss_queue s)) s else s.

Definition spec_sent (x : session) (body : Body) ss : list session :=
  let msg := {| sm_Service := Service (ss_peer x); sm_SenderID := ID (ss_peer x); sm_Body := body |} in
  spec_deliver x msg <$> ss.

Definition spec_counts ss : gmap string nat :=
  foldr (λ s c, if ss_open s
                then <[Service (ss_peer s) := S (default 0%nat (c !! Service (ss_peer s)))]> c
                else c) ∅ ss.

Definition spec_statistics ss : Stats :=
  {| st_Services := size (spec_counts ss); st_Peers := length (filter (λ s, ss_open s) ss);
     st_ServicePeers := spec_counts ss |}.

(** ** Calls and what they return *)

(** A session is named by its number. *)
Inductive call : Type :=
  | CJoin (peer : Peer)
  | CLeave (peer : Peer)
  | CSend (k : nat) (body : Body)
  | CClose (k : nat)
  | CRecv (k : nat)
  | CStats.

Inductive result : Type :=
  | RJoined (k : nat)
  | RRefused (err : error)
  | ROk
  | RPanic
  | RMessage (msg : message)
  | REnd
  | RBlocks
  | RStats (st : Stats)
  | RNoSession.

Definition spec_call ss (c : call) : result * list session :=
  match c with
  | CJoin peer =>
      let '(r, ss) := spec_joined peer ss in
      (match r with inl k => RJoined k | inr err => RRefused err end, ss)
  | CLeave peer => (ROk, spec_left peer ss)
  | CSend k body =>
      match ss !! k with Some x => (ROk, spec_sent x body ss) | None => (RNoSession, ss) end
  | CClose k =>
      match ss !! k with Some x => (ROk, spec_left (ss_peer x) ss) | None => (RNoSession, ss) end
  | CRecv k =>
      match ss !! k with
      | Some x =>
          match ss_queue x with
          | msg :: q => (RMessage msg, <[k := with_queue q x]> ss)
          | [] => (if ss_open x then RBlocks else REnd, ss)
          end
      | None => (RNoSession, ss)
      end
  | CStats => (RStats (spec_statistics ss), ss)
  end.

Fixpoint spec_results ss (cs : list call) : list result :=
  match cs with [] => [] | c :: cs => let '(r, ss) := spec_call ss c in r :: spec_results ss cs end.

(** The memory store, with the senders and receivers it has handed out. *)
Definition run_call (st : Memory * list memorySender) (c : call) : result * (Memory * list memorySender) :=
  let '(m, js) := st in
  match c with
  | CJoin peer =>
      let '(r, m) := Join peer m in
      match r with
      | inl sx => (RJoined (length js), (m, js ++ [sx]))
      | inr err => (RRefused err, (m, js))
      end
  | CLeave peer => (ROk, (Leave peer m, js))
  | CSend k body =>
      match js !! k with
      | Some sx => let '(r, m) := Send sx body m in (match r with Ok _ => ROk | _ => RPanic end, (m, js))
      | None => (RNoSession, st)
      end
  | CClose k =>
      match js !! k with Some sx => (ROk, (Close sx m, js)) | None => (RNoSession, st) end
  | CRecv k =>
      match js !! k with
      | Some sx =>
          match Recv (sx_peer sx) m with
          | Some (Some msg, m) => (RMessage msg, (m, js))
          | Some (None, m) => (REnd, (m, js))
          | None => (RBlocks, st)
          end
      | None => (RNoSession, st)
      end
  | CStats => (RStats (stats m), st)
  end.

Fixpoint results (st : Memory * list memorySender) (cs : list call) : list result :=
  match cs with [] => [] | c :: cs => let '(r, st) := run_call st c in r :: results st cs end.

(** ** The simulation *)

(** The peer object of a session. *)
Definition object s : memoryPeer :=
  {| mp_id := ID (ss_peer s); mp_service := Service (ss_peer s); mp_inbox := ss_queue s;
     mp_inboxClosed := negb (ss_open s) |}.

Implicit Types (zs : list (memorySender * session)).

(** The sessions with their handles: the tables hold exactly the open ones. *)
Record Sim m zs : Prop := {
  sim_names : ∃ names, WF names m ∧
    ∀ sx s, (sx, s) ∈ zs → names !! sx_service sx = Some (Service (ss_peer s));
  sim_heap sx s : (sx, s) ∈ zs → peer_heap m !! sx_peer sx = Some (object s);
  sim_nodup : NoDup ((λ z, sx_peer z.1) <$> zs);
  sim_peers svc id l : peers_of svc m !! id = Some l ↔
    ∃ s, ({| sx_peer := l; sx_service := svc |}, s) ∈ zs ∧ ss_open s = true ∧ ID (ss_peer s) = id;
  sim_services S svc : services m !! S = Some svc ↔
    ∃ sx s, (sx, s) ∈ zs ∧ ss_open s = true ∧ Service (ss_peer s) = S ∧ sx_service sx = svc;
  sim_gen sx s sx' s' : (sx, s) ∈ zs → (sx', s') ∈ zs → ss_gen s = ss_gen s' ↔ sx_service sx = sx_service sx';
  sim_gen_lt sx s : (sx, s) ∈ zs → (ss_gen s < length zs)%nat }.

Lemma Sim_init : Sim NewMemory [].
Proof.
  split; try (intros * []%not_elem_of_nil).
  - exists ∅. split; [apply WF_init|by intros ?? []%not_elem_of_nil].
  - constructor.
  - intros. unfold peers_of. cbn. rewrite !lookup_empty. cbn. rewrite lookup_empty.
    split; [done|]. by intros (? & []%not_elem_of_nil & _).
  - intros. cbn. rewrite lookup_empty. split; [done|]. by intros (? & ? & []%not_elem_of_nil & _).
Qed.

(** A handle is one session. *)
Lemma sim_inj m zs sx s sx' s' :
  Sim m zs → (sx, s) ∈ zs → (sx', s') ∈ zs → sx_peer sx = sx_peer sx' → sx = sx' ∧ s = s'.
Proof.
  intros H [i Hi]%list_elem_of_lookup [j Hj]%list_elem_of_lookup Heq.
  assert (i = j) as ->.
  { eapply (NoDup_lookup _ i j (sx_peer sx) (sim_nodup _ _ H)); rewrite list_lookup_fmap.
    - by rewrite Hi.
    - rewrite Hj. cbn. by rewrite Heq. }
  rewrite Hi in Hj. by injection Hj as -> ->.
Qed.

(** Of the open sessions, those of one service share its object. *)
Lemma sim_same_service m zs sx s sx' s' :
  Sim m zs → (sx, s) ∈ zs → (sx', s') ∈ zs → ss_open s = true → ss_open s' = true →
  Service (ss_peer s) = Service (ss_peer s') → sx_service sx = sx_service sx'.
Proof.
  intros H Hz Hz' Ho Ho' Heq.
  assert (services m !! Service (ss_peer s) = Some (sx_service sx)) as H1 by (apply (sim_services _ _ H); naive_solver).
  assert (services m !! Service (ss_peer s) = Some (sx_service sx')) as H2 by (apply (sim_services _ _ H); naive_solver).
  congruence.
Qed.

Lemma registered_spec peer s : registered peer s = true ↔ ss_open s = true ∧ ss_peer s = peer.
Proof. unfold registered. rewrite andb_true_iff, bool_decide_eq_true. done. Qed.

Lemma in_service_spec S s : in_service S s = true ↔ ss_open s = true ∧ Service (ss_peer s) = S.
Proof. unfold in_service. rewrite andb_true_iff, bool_decide_eq_true. done. Qed.

(** Who is registered, by the tables. *)
Lemma sim_registered m zs sx s peer :
  Sim m zs → (sx, s) ∈ zs →
  registered peer s = true ↔
    services m !! Service peer = Some (sx_service sx) ∧
    peers_of (sx_service sx) m !! ID peer = Some (sx_peer sx).
Proof.
  intros H Hz. rewrite registered_spec. split.
  - intros [Ho <-]. split; [apply (sim_services _ _ H); naive_solver|].
    apply (sim_peers _ _ H). exists s. by destruct sx.
  - intros [Hs Hp]. apply (sim_peers _ _ H) in Hp as (s' & Hz' & Ho & Hid).
    destruct (sim_inj _ _ _ _ _ _ H Hz Hz' eq_refl) as [_ <-]. split; [done|].
    destruct (sim_names _ _ H) as (names & HWF & Hn). apply (wf_services _ _ HWF) in Hs.
    apply Hn in Hz. destruct (ss_peer s), peer; cbn in *. congruence.
Qed.

(** ** A change of the sessions that keeps their names *)

Lemma elem_of_change (f : memorySender → session → session) zs sx s' :
  (sx, s') ∈ (λ z, (z.1, f z.1 z.2)) <$> zs ↔ ∃ s, s' = f sx s ∧ (sx, s) ∈ zs.
Proof.
  rewrite list_elem_of_fmap. split.
  - intros ([sx0 s] & [= -> ->] & Hz). by exists s.
  - intros (s & -> & Hz). by exists (sx, s).
Qed.

Lemma Sim_change (f : memorySender → session → session) m m' zs :
  Sim m zs →
  (∀ sx s, ss_peer (f sx s) = ss_peer s ∧ ss_gen (f sx s) = ss_gen s) →
  (∀ names, WF names m → (∀ sx s, (sx, s) ∈ zs → names !! sx_service sx = Some (Service (ss_peer s))) →
    WF names m') →
  (∀ sx s, (sx, s) ∈ zs → peer_heap m' !! sx_peer sx = Some (object (f sx s))) →
  (∀ svc id l, peers_of svc m' !! id = Some l ↔
     ∃ s, ({| sx_peer := l; sx_service := svc |}, s) ∈ zs ∧
       ss_open (f {| sx_peer := l; sx_service := svc |} s) = true ∧ ID (ss_peer s) = id) →
  (∀ S svc, services m' !! S = Some svc ↔
     ∃ sx s, (sx, s) ∈ zs ∧ ss_open (f sx s) = true ∧ Service (ss_peer s) = S ∧ sx_service sx = svc) →
  Sim m' ((λ z, (z.1, f z.1 z.2)) <$> zs).
Proof.
  intros H Hf HWF Hh Hp Hs. split.
  - destruct (sim_names _ _ H) as (names & HW & Hn). exists names. split; [by apply HWF|].
    intros sx s' (s & -> & Hz)%elem_of_change. rewrite (proj1 (Hf _ _)). by apply Hn.
  - intros sx s' (s & -> & Hz)%elem_of_change. by apply Hh.
  - rewrite <- list_fmap_compose. apply (sim_nodup _ _ H).
  - intros svc id l. rewrite Hp. setoid_rewrite elem_of_change. split.
    + intros (s & ? & ? & <-). eexists. split_and!; [by exists s|done|]. by rewrite (proj1 (Hf _ _)).
    + intros (? & (s & -> & ?) & ? & <-). exists s. by rewrite (proj1 (Hf _ _)).
  - intros S svc. rewrite Hs. setoid_rewrite elem_of_change. split.
    + intros (sx & s & ? & ? & <- & <-). exists sx. eexists. split_and!; [by exists s|done| |done].
      by rewrite (proj1 (Hf _ _)).
    + intros (sx & ? & (s & -> & ?) & ? & <- & <-). exists sx, s. by rewrite (proj1 (Hf _ _)).
  - intros sx s1 sx' s2 (s & -> & Hz)%elem_of_change (s' & -> & Hz')%elem_of_change.
    rewrite !(proj2 (Hf _ _)). by apply (sim_gen _ _ H).
  - intros sx s1 (s & -> & Hz)%elem_of_change. rewrite (proj2 (Hf _ _)), length_fmap.
    by apply (sim_gen_lt _ _ H) in Hz.
Qed.

(** One of the inboxes only. *)
Lemma Sim_inboxes (f : memorySender → session → session) m m' zs :
  Sim m zs →
  (∀ sx s, ss_peer (f sx s) = ss_peer s ∧ ss_gen (f sx s) = ss_gen s ∧ ss_open (f sx s) = ss_open s) →
  (∀ names, WF names m → (∀ sx s, (sx, s) ∈ zs → names !! sx_service sx = Some (Service (ss_peer s))) →
    WF names m') →
  (∀ sx s, (sx, s) ∈ zs → peer_heap m' !! sx_peer sx = Some (object (f sx s))) →
  services m' = services m → svc_heap m' = svc_heap m →
  Sim m' ((λ z, (z.1, f z.1 z.2)) <$> zs).
Proof.
  intros H Hf HWF Hh Hs Hv. apply (Sim_change f m m' zs); try done.
  - intros sx s. destruct (Hf sx s) as (? & ? & ?). done.
  - intros svc id l. unfold peers_of. rewrite Hv. change (default ∅ (svc_heap m !! svc)) with (peers_of svc m).
    rewrite (sim_peers _ _ H). f_equiv. intros s. by rewrite (proj2 (proj2 (Hf _ _))).
  - intros S svc. rewrite Hs, (sim_services _ _ H). f_equiv. intros sx. f_equiv. intros s.
    by rewrite (proj2 (proj2 (Hf _ _))).
Qed.

(** ** Leave and Close *)

Lemma WF_Leave names peer m : WF names m → WF names (Leave peer m).
Proof.
  intros HWF. unfold Leave. destruct (services m !! Service peer) as [svc|]; [|done].
  destruct (leave_remove peer svc m) as [[[mp empty]|] m1] eqn:Hr;
    destruct (WF_leave_remove _ _ _ _ _ _ HWF Hr) as (HWF1 & _ & Hno); [|done].
  destruct (WF_close_inbox names mp m1 HWF1) as [HWF2 _]; [by apply (Hno mp empty)|].
  destruct empty; [|done]. by apply WF_leave_gc.
Qed.

Definition closed (p : @memoryPeer Body) : memoryPeer :=
  {| mp_id := mp_id p; mp_service := mp_service p; mp_inbox := mp_inbox p; mp_inboxClosed := true |}.

(** What [Leave] does to the tables when the peer is there. *)
Lemma leave_effect peer m svc mp p :
  services m !! Service peer = Some svc → peers_of svc m !! ID peer = Some mp →
  peer_heap m !! mp = Some p → mp_inboxClosed p = false →
  let ps := delete (ID peer) (peers_of svc m) in
  svc_heap (Leave peer m) = <[svc := ps]> (svc_heap m) ∧
  peer_heap (Leave peer m) = <[mp := closed p]> (peer_heap m) ∧
  services (Leave peer m) = (if decide (ps = ∅) then delete (Service peer) (services m) else services m).
Proof.
  intros Hs Hp Hh Hc. cbv zeta. unfold Leave, leave_remove. rewrite Hs, Hp.
  unfold close_inbox. cbn [peer_heap set_svc]. rewrite Hh, Hc.
  set (ps := delete (ID peer) (peers_of svc m)).
  case_bool_decide as He.
  - unfold leave_gc. cbn [services set_peer set_svc]. rewrite Hs. unfold peers_of.
    cbn [svc_heap set_peer set_svc]. rewrite lookup_insert, (decide_True (P:=svc = svc)) by done.
    cbn [default from_option id]. rewrite (decide_True (P:=size ps = 0%nat)) by done.
    by rewrite (decide_True (P:=ps = ∅)) by by apply map_size_empty_iff.
  - rewrite decide_False; [done|]. intros ->. by rewrite map_size_empty in He.
Qed.

Lemma leave_absent peer m :
  (∀ svc, services m !! Service peer = Some svc → peers_of svc m !! ID peer = None) → Leave peer m = m.
Proof.
  intros H. unfold Leave. destruct (services m !! Service peer) as [svc|] eqn:Hs; [|done].
  unfold leave_remove. by rewrite (H svc).
Qed.

Lemma leave_sim m zs peer :
  Sim m zs →
  Sim (Leave peer m) ((λ z, (z.1, if registered peer z.2 then shut z.2 else z.2)) <$> zs).
Proof.
  intros H. destruct (services m !! Service peer ≫= λ svc, (svc,.) <$> peers_of svc m !! ID peer)
    as [[svc mp]|] eqn:Hlook.
  2: { rewrite leave_absent.
       - assert ((λ z, (z.1, if registered peer z.2 then shut z.2 else z.2)) <$> zs = zs) as ->; [|done].
         rewrite <- (list_fmap_id zs) at 2. apply list_fmap_ext. intros i [sx s] Hz%list_elem_of_lookup_2. cbn.
         destruct (registered peer s) eqn:Hr; [|done].
         apply (sim_registered _ _ _ _ _ H Hz) in Hr as [Hs Hp].
         rewrite Hs in Hlook. cbn in Hlook. by rewrite Hp in Hlook.
       - intros svc Hs. rewrite Hs in Hlook. cbn in Hlook. by destruct (peers_of svc m !! ID peer). }
  apply bind_Some in Hlook as (svc0 & Hs & Hp). apply fmap_Some in Hp as (mp0 & Hp & [= -> ->]).
  pose proof Hp as (s0 & Hz0 & Ho0 & Hid0)%(sim_peers _ _ H).
  set (sx0 := {| sx_peer := mp0; sx_service := svc0 |}) in *.
  pose proof (sim_heap _ _ H _ _ Hz0) as Hh0. cbn in Hh0.
  destruct (leave_effect peer m svc0 mp0 (object s0) Hs Hp Hh0) as (Ev & Eh & Es); [by cbn; rewrite Ho0|].
  set (ps := delete (ID peer) (peers_of svc0 m)) in *.
  assert (∀ sx s, (sx, s) ∈ zs → registered peer s = true ↔ sx_peer sx = mp0) as Hreg.
  { intros sx s Hz. rewrite (sim_registered _ _ _ _ _ H Hz). split.
    - intros [Hs' Hp']. rewrite Hs in Hs'. injection Hs' as ->. rewrite Hp in Hp'. congruence.
    - intros Heq. by destruct (sim_inj _ _ _ _ _ _ H Hz Hz0 Heq) as [-> _]. }
  assert (∀ sx s, (sx, s) ∈ zs → ss_open (if registered peer s then shut s else s) = true ↔
    ss_open s = true ∧ sx_peer sx ≠ mp0) as Hopen.
  { intros sx s Hz. rewrite <- (Hreg _ _ Hz). destruct (registered peer s); cbn; naive_solver. }
  assert (∀ svc id l, peers_of svc (Leave peer m) !! id = Some l ↔
    peers_of svc m !! id = Some l ∧ l ≠ mp0) as Hpeers.
  { intros svc id l.
    assert (peers_of svc (Leave peer m) = if decide (svc0 = svc) then ps else peers_of svc m) as ->.
    { unfold peers_of at 1. rewrite Ev. destruct (decide (svc0 = svc)) as [->|Hne].
      - by rewrite lookup_insert, decide_True.
      - by rewrite lookup_insert_ne. }
    assert (∀ svc' id', peers_of svc' m !! id' = Some mp0 → svc' = svc0 ∧ id' = ID peer) as Huniq.
    { intros svc' id' (s' & Hz' & _ & <-)%(sim_peers _ _ H).
      destruct (sim_inj _ _ _ _ _ _ H Hz' Hz0 eq_refl) as [[= ->] ->]. done. }
    destruct (decide (svc0 = svc)) as [<-|Hd]; [unfold ps; rewrite lookup_delete_Some|]; split.
    - intros [Hne Hl]. split; [done|]. intros ->. apply Hne. by destruct (Huniq _ _ Hl).
    - intros [Hl Hne]. split; [|done]. intros <-. congruence.
    - intros Hl. split; [done|]. intros ->. apply Hd. by destruct (Huniq _ _ Hl).
    - by intros [Hl _]. }
  apply (Sim_change (λ _ s, if registered peer s then shut s else s) m (Leave peer m) zs H).
  - intros sx s. by destruct (registered peer s).
  - intros names HWF _. by apply WF_Leave.
  - intros sx s Hz. rewrite Eh. destruct (registered peer s) eqn:Hr.
    + apply (Hreg _ _ Hz) in Hr. destruct (sim_inj _ _ _ _ _ _ H Hz Hz0 Hr) as [-> ->].
      by rewrite lookup_insert, decide_True.
    + rewrite lookup_insert_ne; [by apply (sim_heap _ _ H)|]. intros Heq.
      apply eq_sym, (Hreg _ _ Hz) in Heq. congruence.
  - intros svc id l. rewrite Hpeers, (sim_peers _ _ H). split.
    + intros [(s & Hz & Ho & Hid) Hne]. exists s. by rewrite (Hopen _ _ Hz).
    + intros (s & Hz & Ho & Hid). rewrite (Hopen _ _ Hz) in Ho. destruct Ho. split; [by exists s|done].
  - intros S svc. rewrite Es. split.
    + intros Hsv. assert (services m !! S = Some svc ∧ (ps = ∅ → S ≠ Service peer)) as [Hsv' Hne].
      { case_decide; [|done]. by apply lookup_delete_Some in Hsv as [? ?]. }
      destruct (decide (S = Service peer)) as [->|HS].
      * rewrite Hs in Hsv'. injection Hsv' as <-.
        destruct (map_choose ps) as (id & l & Hl); [naive_solver|].
        assert (peers_of svc0 (Leave peer m) !! id = Some l) as Hl'
          by (unfold peers_of; rewrite Ev, lookup_insert, decide_True; done).
        apply Hpeers in Hl' as [(s & Hz & Ho & Hid)%(sim_peers _ _ H) Hlne].
        exists {| sx_peer := l; sx_service := svc0 |}, s. rewrite (Hopen _ _ Hz). split_and!; try done.
        assert (services m !! Service (ss_peer s) = Some svc0) as Hss
          by (apply (sim_services _ _ H); eexists _, s; by split_and!).
        destruct (sim_names _ _ H) as (names & HWF & _).
        apply (wf_services _ _ HWF) in Hss, Hs. congruence.
      * apply (sim_services _ _ H) in Hsv' as (sx & s & Hz & Ho & <- & <-). exists sx, s.
        rewrite (Hopen _ _ Hz). split_and!; try done. intros Heq.
        apply (Hreg _ _ Hz), registered_spec in Heq as [_ <-]. done.
    + intros (sx & s & Hz & Ho & <- & <-). rewrite (Hopen _ _ Hz) in Ho. destruct Ho as [Ho Hne].
      assert (services m !! Service (ss_peer s) = Some (sx_service sx)) as Hss
        by (apply (sim_services _ _ H); by exists sx, s).
      case_decide as He; [|done]. apply lookup_delete_Some. split; [|done]. intros Heq.
      rewrite <- Heq, Hs in Hss. injection Hss as Hsvc.
      assert (peers_of svc0 (Leave peer m) !! ID (ss_peer s) = Some (sx_peer sx)) as Hl.
      { apply Hpeers. split; [|done]. apply (sim_peers _ _ H). exists s. rewrite Hsvc. by destruct sx. }
      unfold peers_of in Hl. rewrite Ev, lookup_insert, decide_True in Hl by done. cbn in Hl.
      by rewrite He, lookup_empty in Hl.
Qed.

(** ** Recv *)

Lemma recv_sim m zs k sx s :
  Sim m zs → zs !! k = Some (sx, s) →
  match ss_queue s with
  | msg :: q => ∃ m', Recv (sx_peer sx) m = Some (Some msg, m') ∧ Sim m' (<[k := (sx, with_queue q s)]> zs)
  | [] => Recv (sx_peer sx) m = if ss_open s then None else Some (None, m)
  end.
Proof.
  intros H Hk. pose proof (list_elem_of_lookup_2 _ _ _ Hk) as Hz.
  pose proof (sim_heap _ _ H _ _ Hz) as Hh. unfold Recv. rewrite Hh. cbn.
  destruct (ss_queue s) as [|msg q] eqn:Hq; [by destruct (ss_open s)|].
  eexists. split; [done|]. set (m' := set_peer _ _ m).
  assert (<[k := (sx, with_queue q s)]> zs =
    (λ z, (z.1, if decide (sx_peer z.1 = sx_peer sx) then with_queue (tail (ss_queue z.2)) z.2 else z.2)) <$> zs) as ->.
  { apply list_eq. intros i. rewrite list_lookup_fmap. destruct (decide (i = k)) as [->|Hne].
    - rewrite list_lookup_insert_eq by (by eapply lookup_lt_Some). rewrite Hk. cbn.
      rewrite decide_True by done. by rewrite Hq.
    - rewrite list_lookup_insert_ne by done. destruct (zs !! i) as [[sx' s']|] eqn:Hi; [|done]. cbn.
      rewrite decide_False; [done|]. intros Heq. apply Hne.
      eapply (NoDup_lookup _ i k (sx_peer sx) (sim_nodup _ _ H)); rewrite list_lookup_fmap.
      + rewrite Hi. cbn. by rewrite Heq.
      + by rewrite Hk. }
  set (f := λ (z : memorySender) s, if decide (sx_peer z = sx_peer sx) then with_queue (tail (ss_queue s)) s else s).
  apply (Sim_inboxes f m m' zs H); unfold f.
  - intros sx' s'. by case_decide.
  - intros names HWF _. eapply (WF_Recv names (sx_peer sx) m (Some msg)); [done|].
    unfold Recv. rewrite Hh. cbn. by rewrite Hq.
  - intros sx' s' Hz'. unfold m'. cbn. case_decide as Heq.
    + destruct (sim_inj _ _ _ _ _ _ H Hz' Hz Heq) as [-> ->].
      rewrite lookup_insert, decide_True by done. unfold object. cbn. by rewrite Hq.
    + rewrite lookup_insert_ne by done. by apply (sim_heap _ _ H).
  - done.
  - done.
Qed.

(** ** Send *)

Lemma send_sim m zs sx x body :
  Sim m zs → (sx, x) ∈ zs →
  let msg := {| sm_Service := Service (ss_peer x); sm_SenderID := ID (ss_peer x); sm_Body := body |} in
  ∃ m', Send sx body m = (Ok tt, m') ∧
    Sim m' ((λ z, (z.1, spec_deliver x msg z.2)) <$> zs).
Proof.
  intros H Hx msg. pose proof (sim_heap _ _ H _ _ Hx) as Hh.
  destruct (sim_names _ _ H) as (names & HWF & Hn).
  assert (∀ names, WF names m → (∀ sx s, (sx, s) ∈ zs → names !! sx_service sx = Some (Service (ss_peer s))) →
    ∃ m', Send sx body m = (Ok tt, m') ∧ WF names m' ∧ ext names names m m') as Hsend.
  { intros ns Hw Hns. apply (WF_Send ns (ss_peer x)); [done|]. split; [by apply Hns|by eexists]. }
  destruct (Hsend names HWF Hn) as (m' & HSend & HWF' & Hext). exists m'. split; [done|].
  pose proof HSend as Hb. unfold Send in Hb. rewrite Hh in Hb. cbn [mp_id mp_service object] in Hb. fold msg in Hb.
  set (svc := sx_service sx) in *.
  destruct (broadcast_inboxes (ID (ss_peer x)) msg (map_to_list (peers_of svc m)) m)
    as (m'' & Hb' & Hsv & Hsh & Hother & Hin).
  { apply NoDup_fmap_2_strong; [|apply NoDup_map_to_list].
    intros [id1 l1] [id2 l2] H1%elem_of_map_to_list H2%elem_of_map_to_list; cbn. intros <-.
    apply (sim_peers _ _ H) in H1 as (s1 & Hz1 & _ & <-), H2 as (s2 & Hz2 & _ & <-).
    by destruct (sim_inj _ _ _ _ _ _ H Hz1 Hz2 eq_refl) as [_ ->]. }
  { apply Forall_forall. intros l ([id l'] & -> & Hl%elem_of_map_to_list)%list_elem_of_fmap.
    apply (sim_peers _ _ H) in Hl as (s1 & Hz1 & Ho & _). apply (sim_heap _ _ H) in Hz1.
    eexists. split; [exact Hz1|]. cbn. by rewrite Ho. }
  rewrite Hb in Hb'. injection Hb' as <-.
  apply (Sim_inboxes (λ _, spec_deliver x msg) m m' zs H); unfold spec_deliver.
  - intros sx' s'. by destruct (spec_reached x s').
  - intros ns Hw Hns. destruct (Hsend ns Hw Hns) as (m2 & H2 & ? & _). rewrite HSend in H2. by injection H2 as <-.
  - intros sx' s' Hz'. pose proof (sim_heap _ _ H _ _ Hz') as Hh'.
    destruct (ss_open s' && bool_decide (ss_gen s' = ss_gen x)) eqn:Hmem.
    + apply andb_true_iff in Hmem as [Ho Hg%bool_decide_eq_true].
      apply (sim_gen _ _ H _ _ _ _ Hz' Hx) in Hg. fold svc in Hg.
      assert (peers_of svc m !! ID (ss_peer s') = Some (sx_peer sx')) as Hp.
      { apply (sim_peers _ _ H). exists s'. rewrite <- Hg. by destruct sx'. }
      destruct (ext_peer _ _ _ _ Hext _ _ Hh') as (p' & Hp' & Hpid & Hpsv).
      assert (mp_inboxClosed p' = false) as Hcl.
      { assert (member m' svc (ID (ss_peer s')) (sx_peer sx')) as Hm
          by (apply peers_of_member; unfold peers_of; by rewrite Hsh).
        destruct (wf_member _ _ HWF' _ _ _ Hm) as (q & Hq & _ & ? & _). congruence. }
      assert (mp_inbox p' = spec_push (ID (ss_peer x)) msg (ID (ss_peer s')) (ss_queue s')) as Hq.
      { apply elem_of_map_to_list in Hp. apply Hin in Hp. unfold inbox_of in Hp. by rewrite Hp', Hh' in Hp. }
      rewrite Hp'. f_equal. unfold spec_reached. rewrite Ho, (bool_decide_true (ss_gen s' = ss_gen x))
        by (by apply (sim_gen _ _ H _ _ _ _ Hz' Hx)). unfold spec_push in Hq. cbn [andb].
      destruct p' as [i v b c]. cbn in *. subst.
      case_bool_decide; unfold object; cbn; by rewrite Ho.
    + unfold spec_reached. rewrite Hmem. cbn [andb]. rewrite Hother; [done|].
      intros ([id l] & Hl & Hp%elem_of_map_to_list)%list_elem_of_fmap. cbn in Hl. subst l.
      apply (sim_peers _ _ H) in Hp as (s'' & Hz'' & Ho & _).
      destruct (sim_inj _ _ _ _ _ _ H Hz' Hz'' eq_refl) as [Hsx <-]. rewrite Ho in Hmem.
      cbn [andb] in Hmem. apply bool_decide_eq_false in Hmem. apply Hmem.
      apply (sim_gen _ _ H _ _ _ _ Hz' Hx). by rewrite Hsx.
  - done.
  - done.
Qed.

(** ** Join *)

Lemma WF_Join names peer m sx m' :
  WF names m → Join peer m = (inl sx, m') →
  ∃ names', WF names' m' ∧ names ⊆ names' ∧ names' !! sx_service sx = Some (Service peer).
Proof.
  intros HWF. unfold Join. destruct (_ || _); [done|].
  destruct (serviceForJoin (Service peer) m) as [svc m1] eqn:Hsj. intros Hj.
  destruct (WF_serviceForJoin _ _ _ _ _ HWF Hsj) as (names1 & HWF1 & Hext & Hna).
  destruct (WF_join_insert _ _ _ _ _ _ HWF1 Hna Hj) as (HWF2 & _ & Hsx).
  destruct (Hsx sx eq_refl) as [-> _]. exists names1. split_and!; [done| |done]. by apply (ext_names _ _ _ _ Hext).
Qed.

(** The state after a successful join of the service object [svc] by a new peer
    object [l]. *)
Definition after_join (peer : Peer) (svc l : nat) m m' : Prop :=
  services m' = <[Service peer := svc]> (services m) ∧
  (∀ v, peers_of v m' = if decide (v = svc) then <[ID peer := l]> (peers_of svc m) else peers_of v m) ∧
  peer_heap m' = <[l := {| mp_id := ID peer; mp_service := Service peer; mp_inbox := [];
                           mp_inboxClosed := false |}]> (peer_heap m) ∧
  (next m ≤ l)%nat.

Lemma no_peers_room {T} (a b : T) : (if decide (MaxPeersPerService ≤ 0)%nat then a else b) = b.
Proof. by rewrite decide_False by (unfold MaxPeersPerService; lia). Qed.

Lemma join_effect names peer m :
  WF names m → Service peer ≠ ""%string → ID peer ≠ ""%string →
  let svc := default (next m) (services m !! Service peer) in
  match peers_of svc m !! ID peer with
  | Some _ => Join peer m = (inr ErrPeerAlreadyExists, m)
  | None =>
      if decide (MaxPeersPerService ≤ size (peers_of svc m))%nat
      then Join peer m = (inr ErrServiceFull, m)
      else ∃ l m', Join peer m = (inl {| sx_peer := l; sx_service := svc |}, m') ∧ after_join peer svc l m m'
  end.
Proof.
  intros HWF HS HI. cbv zeta. unfold Join. rewrite !bool_decide_false by done. cbn [orb].
  unfold serviceForJoin. destruct (services m !! Service peer) as [svc|] eqn:Hs; cbn [default from_option id].
  - unfold join_insert. destruct (peers_of svc m !! ID peer) as [?|] eqn:Hp; [done|].
    destruct (decide _) as [?|?]; [done|]. eexists _, _. split; [done|]. split_and!; cbn; [|..|done|done].
    + by rewrite insert_id.
    + intros s. unfold peers_of at 1. cbn. case_decide as Heq.
      * by rewrite Heq, lookup_insert, decide_True.
      * by rewrite lookup_insert_ne.
  - assert (svc_heap m !! next m = None) as Hfresh.
    { destruct (svc_heap m !! next m) eqn:E; [|done]. apply (wf_svc _ _ HWF) in E as [? _]. lia. }
    assert (peers_of (next m) m = ∅) as -> by (unfold peers_of; by rewrite Hfresh).
    rewrite lookup_empty, map_size_empty, no_peers_room.
    unfold join_insert. set (m1 := {| services := _; next := S (next m) |}).
    assert (peers_of (next m) m1 = ∅) as -> by (unfold peers_of; cbn; by rewrite lookup_insert, decide_True).
    rewrite lookup_empty, map_size_empty, no_peers_room.
    eexists _, _. split; [done|]. split_and!; cbn; [done| |done|lia].
    intros s. unfold peers_of. cbn. rewrite insert_insert, decide_True by done. case_decide as Heq.
    + by rewrite Heq, lookup_insert, decide_True, Hfresh.
    + by rewrite lookup_insert_ne.
Qed.

Lemma Sim_added m m' zs peer svc l g :
  Sim m zs → peers_of svc m !! ID peer = None →
  (∀ v, services m !! Service peer = Some v → v = svc) →
  after_join peer svc l m m' →
  (∀ names, WF names m → ∃ names', WF names' m' ∧ names ⊆ names' ∧ names' !! svc = Some (Service peer)) →
  (∀ sx s, (sx, s) ∈ zs → ss_gen s = g ↔ sx_service sx = svc) → (g ≤ length zs)%nat →
  Sim m' (zs ++ [({| sx_peer := l; sx_service := svc |},
                  {| ss_peer := peer; ss_gen := g; ss_queue := []; ss_open := true |})]).
Proof.
  intros H Hfree Hsvc (Es & Ep & Eh & Hl) HWF Hg Hglt.
  set (sx0 := {| sx_peer := l; sx_service := svc |}). set (s0 := {| ss_peer := peer; ss_gen := g |}).
  assert (∀ sx s, (sx, s) ∈ zs → sx_peer sx ≠ l) as Hne.
  { intros sx s Hz Heq. apply (sim_heap _ _ H) in Hz. destruct (sim_names _ _ H) as (names & HW & _).
    apply (wf_peer _ _ HW) in Hz as [? _]. lia. }
  assert (∀ sx s, (sx, s) ∈ zs ++ [(sx0, s0)] ↔ (sx, s) ∈ zs ∨ sx = sx0 ∧ s = s0) as Hin.
  { intros sx s. rewrite elem_of_app, list_elem_of_singleton. naive_solver. }
  split.
  - destruct (sim_names _ _ H) as (names & HW & Hn). destruct (HWF names HW) as (names' & HW' & Hsub & Hnew).
    exists names'. split; [done|]. intros sx s [Hz|[-> ->]]%Hin; [|done].
    eapply lookup_weaken; [by apply Hn|done].
  - intros sx s [Hz|[-> ->]]%Hin; rewrite Eh.
    + rewrite lookup_insert_ne by (apply not_eq_sym; by eapply Hne). by apply (sim_heap _ _ H).
    + by rewrite lookup_insert, decide_True.
  - rewrite fmap_app. apply NoDup_app. split_and!; [apply (sim_nodup _ _ H)| |apply NoDup_singleton].
    intros k ([sx s] & -> & Hz)%list_elem_of_fmap. cbn. rewrite list_elem_of_singleton. by eapply Hne.
  - intros svc' id l'. rewrite Ep. setoid_rewrite Hin.
    assert (peers_of svc' m !! id = Some l' ↔ ∃ s, ({| sx_peer := l'; sx_service := svc' |}, s) ∈ zs ∧
      ss_open s = true ∧ ID (ss_peer s) = id) as Hold by apply (sim_peers _ _ H).
    destruct (decide (svc' = svc)) as [->|Hd].
    + rewrite lookup_insert_Some. split.
      * intros [[<- <-]|[_ Hp]]; [exists s0; by split_and!; [right|..]|].
        apply Hold in Hp as (s & ? & ? & ?). exists s. split_and!; [by left|done..].
      * intros (s & [Hz|[[= ->] ->]] & Ho & Hid); [|by left].
        assert (peers_of svc m !! id = Some l') by (apply Hold; by exists s).
        right. split; [|done]. intros <-. congruence.
    + rewrite Hold. split.
      * intros (s & ? & ? & ?). exists s. split_and!; [by left|done..].
      * intros (s & [Hz|[[=] _]] & Ho & Hid); [by exists s|done].
  - intros S svc'. rewrite Es, lookup_insert_Some. setoid_rewrite Hin. split.
    + intros [[<- <-]|[_ (sx & s & ? & ? & ? & ?)%(sim_services _ _ H)]].
      * exists sx0, s0. split_and!; [by right|done..].
      * exists sx, s. split_and!; [by left|done..].
    + intros (sx & s & [Hz|[-> ->]] & Ho & <- & <-); [|by left].
      assert (services m !! Service (ss_peer s) = Some (sx_service sx)) as Hs
        by (apply (sim_services _ _ H); by exists sx, s).
      destruct (decide (Service peer = Service (ss_peer s))) as [Heq|Hd]; [left|by right].
      split; [done|]. rewrite <- Heq in Hs. by rewrite (Hsvc _ Hs).
  - intros sx s sx' s' [Hz|[-> ->]]%Hin [Hz'|[-> ->]]%Hin; cbn.
    + by apply (sim_gen _ _ H).
    + by apply Hg.
    + rewrite !(eq_comm g), (eq_comm svc). by apply Hg.
    + done.
  - intros sx s [Hz|[-> ->]]%Hin; rewrite length_app; cbn; [apply (sim_gen_lt _ _ H) in Hz|]; lia.
Qed.

Lemma spec_find zs S :
  match List.find (in_service S) zs.*2 with
  | Some s => ∃ sx, (sx, s) ∈ zs ∧ ss_open s = true ∧ Service (ss_peer s) = S
  | None => ∀ sx s, (sx, s) ∈ zs → ss_open s = true → Service (ss_peer s) ≠ S
  end.
Proof.
  destruct (List.find _ _) as [s|] eqn:Hf.
  - apply find_some in Hf as [Hin [? ?]%in_service_spec].
    apply list_elem_of_In, list_elem_of_fmap in Hin as ([sx s'] & -> & Hz). by exists sx.
  - intros sx s Hz Ho Hs. assert (in_service S s = false) as Hn.
    { apply (find_none _ _ Hf s), list_elem_of_In, list_elem_of_fmap. by exists (sx, s). }
    assert (in_service S s = true) as Ht by by apply in_service_spec. congruence.
Qed.

(** The service object of a name, the next new one if there is none. *)
Definition svc_of (S : string) m : nat := default (next m) (services m !! S).

Lemma sim_svc m zs sx s S :
  Sim m zs → (sx, s) ∈ zs → ss_open s = true → Service (ss_peer s) = S ↔ sx_service sx = svc_of S m.
Proof.
  intros H Hz Ho. destruct (sim_names _ _ H) as (names & HWF & Hn). pose proof (Hn _ _ Hz) as Hname.
  assert (services m !! Service (ss_peer s) = Some (sx_service sx)) as Hs
    by (apply (sim_services _ _ H); by exists sx, s).
  unfold svc_of. split.
  - intros <-. by rewrite Hs.
  - destruct (services m !! S) as [svc|] eqn:Hsv; cbn; intros Heq.
    + apply (wf_services _ _ HWF) in Hsv. congruence.
    + rewrite Heq in Hname. apply (wf_names _ _ HWF) in Hname. lia.
Qed.

Lemma sim_taken m zs peer :
  Sim m zs →
  existsb (registered peer) zs.*2 = bool_decide (is_Some (peers_of (svc_of (Service peer) m) m !! ID peer)).
Proof.
  intros H. apply eq_true_iff_eq. rewrite bool_decide_eq_true, existsb_exists. split.
  - intros (s & Hin & Hr). apply list_elem_of_In, list_elem_of_fmap in Hin as ([sx s'] & -> & Hz).
    apply (sim_registered _ _ _ _ _ H Hz) in Hr as [Hs Hp]. unfold svc_of. rewrite Hs. by eexists.
  - intros [l (s & Hz & Ho & Hid)%(sim_peers _ _ H)]. exists s. split.
    + apply list_elem_of_In, list_elem_of_fmap. by eexists (_, s).
    + apply registered_spec. split; [done|]. pose proof (proj2 (sim_svc _ _ _ _ _ H Hz Ho) eq_refl) as HS.
      destruct (ss_peer s), peer. cbn in *. congruence.
Qed.

Lemma filter_bool (P : session → bool) s ss :
  filter (λ s, P s) (s :: ss) = if P s then s :: filter (λ s, P s) ss else filter (λ s, P s) ss.
Proof. rewrite filter_cons. case_decide as H; destruct (P s); done. Qed.

Lemma filter_snd (P : session → bool) zs :
  length (filter (λ s, P s) zs.*2) = length (filter (λ z, P z.2) zs).
Proof.
  induction zs as [|[sx s] zs IH]; [done|]. rewrite fmap_cons, !filter_cons. cbn [snd].
  case_decide; cbn; by rewrite IH.
Qed.

(** A service object holds the open sessions of its name. *)
Lemma sim_size m zs S :
  Sim m zs → size (peers_of (svc_of S m) m) = length (filter (λ s, in_service S s) zs.*2).
Proof.
  intros H. rewrite filter_snd. set (L := (λ z, ID (ss_peer z.2)) <$> filter (λ z, in_service S z.2) zs).
  assert (∀ sx s, (sx, s) ∈ filter (λ z, in_service S z.2) zs ↔
    (sx, s) ∈ zs ∧ ss_open s = true ∧ sx_service sx = svc_of S m) as Hf.
  { intros sx s. rewrite list_elem_of_filter. cbn. rewrite Is_true_true, in_service_spec. split.
    - intros [[Ho HS] Hz]. split_and!; try done. by apply (sim_svc _ _ _ _ _ H Hz Ho).
    - intros (Hz & Ho & Hs). split_and!; try done. by apply (sim_svc _ _ _ _ _ H Hz Ho). }
  assert (NoDup L) as Hnd.
  { apply NoDup_fmap_2_strong.
    - intros [sx s] [sx' s'] [Hz [Ho Hs]]%Hf [Hz' [Ho' Hs']]%Hf Heq. cbn in Heq.
      assert (peers_of (svc_of S m) m !! ID (ss_peer s) = Some (sx_peer sx)) as H1
        by (apply (sim_peers _ _ H); exists s; rewrite <- Hs; by destruct sx).
      assert (peers_of (svc_of S m) m !! ID (ss_peer s') = Some (sx_peer sx')) as H2
        by (apply (sim_peers _ _ H); exists s'; rewrite <- Hs'; by destruct sx').
      rewrite Heq, H2 in H1. injection H1 as H1.
      by destruct (sim_inj _ _ _ _ _ _ H Hz' Hz H1) as [-> ->].
    - apply NoDup_filter. by eapply NoDup_fmap_1, (sim_nodup _ _ H). }
  assert (dom (peers_of (svc_of S m) m) = list_to_set L) as Hdom.
  { apply set_eq. intros id. rewrite elem_of_dom, elem_of_list_to_set. unfold L. rewrite list_elem_of_fmap. split.
    - intros [l (s & Hz & Ho & <-)%(sim_peers _ _ H)]. eexists (_, s). split; [done|]. by apply Hf.
    - intros ([sx s] & -> & (Hz & Ho & Hs)%Hf). exists (sx_peer sx). apply (sim_peers _ _ H).
      exists s. rewrite <- Hs. by destruct sx. }
  rewrite <- size_dom, Hdom, size_list_to_set by done. unfold L. by rewrite length_fmap.
Qed.

Lemma join_sim m zs peer :
  Sim m zs →
  match Join peer m, spec_joined peer zs.*2 with
  | (inl sx, m'), (inl k, ss') => k = length zs ∧ ∃ s, ss' = zs.*2 ++ [s] ∧ Sim m' (zs ++ [(sx, s)])
  | (inr e, m'), (inr e', ss') => e = e' ∧ m' = m ∧ ss' = zs.*2
  | _, _ => False
  end.
Proof.
  intros H. destruct (sim_names _ _ H) as (names & HWF & Hn). unfold spec_joined.
  destruct (bool_decide (Service peer = "")%string) eqn:HS; [by unfold Join; rewrite HS|].
  destruct (bool_decide (ID peer = "")%string) eqn:HI; [by unfold Join; rewrite HS, HI|].
  apply bool_decide_eq_false in HS, HI. cbn [orb]. pose proof (join_effect names peer m HWF HS HI) as Hj.
  cbv zeta in Hj. fold (svc_of (Service peer) m) in Hj. set (svc := svc_of (Service peer) m) in *.
  rewrite (sim_taken m zs peer H), <- (sim_size m zs (Service peer) H). fold svc.
  destruct (peers_of svc m !! ID peer) as [l0|] eqn:Hp; [by rewrite bool_decide_true, Hj|].
  rewrite bool_decide_false by by intros [].
  destruct (decide _) as [Hfull|Hroom]; [by rewrite Hj|]. destruct Hj as (l & m' & Hj & Hafter).
  rewrite Hj. split; [by rewrite length_fmap|]. eexists. split; [done|].
  apply (Sim_added m m'); try done.
  - intros v Hv. unfold svc, svc_of. by rewrite Hv.
  - intros ns Hns. apply (WF_Join ns peer m _ m' Hns Hj).
  - intros sx s Hz. pose proof (spec_find zs (Service peer)) as Hfind.
    destruct (List.find _ _) as [s0|]; cbn.
    + destruct Hfind as (sx0 & Hz0 & Ho0 & HS0). rewrite (sim_gen _ _ H _ _ _ _ Hz Hz0).
      apply (sim_svc _ _ _ _ _ H Hz0 Ho0) in HS0. by rewrite HS0.
    + pose proof (sim_gen_lt _ _ H _ _ Hz). rewrite length_fmap. split; [lia|]. intros Hsv. exfalso.
      unfold svc, svc_of in Hsv. destruct (services m !! Service peer) as [v|] eqn:Hv; cbn in Hsv.
      * apply (sim_services _ _ H) in Hv as (sx1 & s1 & Hz1 & Ho1 & HS1 & _). by eapply Hfind.
      * pose proof (wf_names _ _ HWF _ _ (Hn _ _ Hz)). lia.
  - pose proof (spec_find zs (Service peer)) as Hfind. destruct (List.find _ _) as [s0|]; cbn; [|by rewrite length_fmap].
    destruct Hfind as (sx0 & Hz0 & _). apply (sim_gen_lt _ _ H) in Hz0. lia.
Qed.

(** ** Stats *)

Lemma spec_counts_lookup ss S :
  spec_counts ss !! S =
    match length (filter (λ s, in_service S s) ss) with 0%nat => None | n => Some n end.
Proof.
  induction ss as [|s ss IH]; [done|]. rewrite filter_bool. cbn [spec_counts foldr].
  fold (spec_counts ss). unfold in_service at 1. destruct (ss_open s); cbn; [|exact IH].
  case_bool_decide as HS; cbn.
  - rewrite HS, lookup_insert, decide_True by done. f_equal. rewrite IH. by destruct (length _).
  - by rewrite lookup_insert_ne.
Qed.

Definition total (c : gmap string nat) : nat := foldr Nat.add 0%nat (snd <$> map_to_list c).

Lemma total_fresh c i n : c !! i = None → total (<[i := n]> c) = (n + total c)%nat.
Proof.
  intros Hc. unfold total.
  rewrite (foldr_permutation_proper' eq Nat.add 0%nat _ ((i, n) :: map_to_list c).*2); [done|].
  by apply fmap_Permutation, map_to_list_insert.
Qed.

Lemma total_bump c i : total (<[i := S (default 0%nat (c !! i))]> c) = S (total c).
Proof.
  destruct (c !! i) as [n|] eqn:Hc; cbn; [|by rewrite total_fresh].
  rewrite <- (insert_delete_eq c i). rewrite total_fresh by apply lookup_delete_eq.
  rewrite <- (insert_delete_id c i n Hc) at 2. rewrite total_fresh by apply lookup_delete_eq. lia.
Qed.

Lemma total_counts ss : total (spec_counts ss) = length (filter (λ s, ss_open s) ss).
Proof.
  induction ss as [|s ss IH]; [done|]. rewrite filter_bool. cbn [spec_counts foldr].
  fold (spec_counts ss). destruct (ss_open s); cbn; [|exact IH]. by rewrite total_bump, IH.
Qed.

Lemma stats_sim m zs : Sim m zs → stats m = spec_statistics zs.*2.
Proof.
  intros H. assert ((λ l, size (peers_of l m)) <$> services m = spec_counts zs.*2) as Hc.
  { apply map_eq. intros S. rewrite lookup_fmap, spec_counts_lookup, <- (sim_size m zs S H).
    unfold svc_of. destruct (services m !! S) as [svc|] eqn:Hs; cbn.
    - destruct (size (peers_of svc m)) eqn:Hsz; [|done]. exfalso.
      apply map_size_empty_iff in Hsz. apply (sim_services _ _ H) in Hs as (sx & s & Hz & Ho & _ & <-).
      assert (peers_of (sx_service sx) m !! ID (ss_peer s) = Some (sx_peer sx)) as Hp
        by (apply (sim_peers _ _ H); exists s; by destruct sx).
      by rewrite Hsz, lookup_empty in Hp.
    - destruct (sim_names _ _ H) as (names & HWF & _). unfold peers_of.
      destruct (svc_heap m !! next m) eqn:Hv; [|done].
      apply (wf_svc _ _ HWF) in Hv as [? _]. lia. }
  unfold stats, spec_statistics. rewrite Hc. f_equal; [by rewrite <- Hc, map_size_fmap|apply total_counts].
Qed.

(** ** One call, and all *)

Lemma call_sim m zs c :
  Sim m zs →
  ∃ r m' zs', run_call (m, zs.*1) c = (r, (m', zs'.*1)) ∧ spec_call zs.*2 c = (r, zs'.*2) ∧ Sim m' zs'.
Proof.
  intros H.
  assert (∀ k, zs.*1 !! k = fst <$> zs !! k ∧ zs.*2 !! k = snd <$> zs !! k) as Hk
    by (intros k; by rewrite !list_lookup_fmap).
  assert (∀ (f : memorySender → session → session), ((λ z, (z.1, f z.1 z.2)) <$> zs).*1 = zs.*1) as Hfst
    by (intros f; by rewrite <- list_fmap_compose).
  assert (∀ (g : session → session), ((λ z, (z.1, g z.2)) <$> zs).*2 = g <$> zs.*2) as Hsnd
    by (intros g; by rewrite <- !list_fmap_compose).
  destruct c as [peer|peer|k body|k|k|]; cbn [run_call spec_call].
  - pose proof (join_sim m zs peer H) as Hj.
    destruct (Join peer m) as [[sx|e] m'], (spec_joined peer zs.*2) as [[k|e'] ss']; try done.
    + destruct Hj as (-> & s & -> & HS). eexists _, _, (zs ++ [(sx, s)]). split_and!; [..|exact HS].
      * by rewrite length_fmap, fmap_app.
      * by rewrite fmap_app.
    + destruct Hj as (-> & -> & ->). by eexists _, _, zs.
  - eexists _, _, _. split_and!; [..|by apply (leave_sim m zs peer)].
    + by rewrite (Hfst (λ _ s, if registered peer s then shut s else s)).
    + by rewrite (Hsnd (λ s, if registered peer s then shut s else s)).
  - destruct (Hk k) as [-> ->]. destruct (zs !! k) as [[sx x]|] eqn:Hz; cbn; [|by eexists _, _, zs].
    destruct (send_sim m zs sx x body H) as (m' & -> & HS); [by eapply list_elem_of_lookup_2|].
    eexists _, _, _. split_and!; [..|exact HS].
    + by rewrite (Hfst (λ _, spec_deliver x _)).
    + by rewrite (Hsnd (spec_deliver x _)).
  - destruct (Hk k) as [-> ->]. destruct (zs !! k) as [[sx x]|] eqn:Hz; cbn; [|by eexists _, _, zs].
    pose proof (sim_heap _ _ H _ _ (list_elem_of_lookup_2 _ _ _ Hz)) as Hh.
    eexists _, _, _. split_and!; [..|by apply (leave_sim m zs (ss_peer x))].
    + rewrite (Hfst (λ _ s, if registered (ss_peer x) s then shut s else s)). unfold Close. rewrite Hh. cbn.
      by destruct (ss_peer x).
    + by rewrite (Hsnd (λ s, if registered (ss_peer x) s then shut s else s)).
  - destruct (Hk k) as [-> ->]. destruct (zs !! k) as [[sx x]|] eqn:Hz; cbn; [|by eexists _, _, zs].
    pose proof (recv_sim m zs k sx x H Hz) as Hr. destruct (ss_queue x) as [|msg q] eqn:Hq.
    + rewrite Hr. destruct (ss_open x); by eexists _, _, zs.
    + destruct Hr as (m' & -> & HS). eexists _, _, _. split_and!; [..|exact HS].
      * rewrite list_fmap_insert. cbn. rewrite list_insert_id; [done|]. by rewrite list_lookup_fmap, Hz.
      * by rewrite list_fmap_insert.
  - rewrite (stats_sim m zs H). by eexists _, _, zs.
Qed.

Lemma results_sim cs : ∀ m zs, Sim m zs → results (m, zs.*1) cs = spec_results zs.*2 cs.
Proof.
  induction cs as [|c cs IH]; intros m zs H; [done|]. cbn [results spec_results].
  destruct (call_sim m zs c H) as (r & m' & zs' & -> & -> & H'). f_equal. by apply IH.
Qed.
End trace.

Arguments call : clear implicits.
Arguments result : clear implicits.

(** [C16] Refinement, observed from outside: whatever joins, leaves, broadcasts,
    closes, receives and statistics are asked of the memory store one after the
    other, through any of the senders and receivers it has handed out, also of
    sessions that have left, it returns what the list of sessions returns. So
    [Join] fails exactly on an empty name, a name that is registered or a full
    service; a broadcast never panics and reaches exactly the registered peers
    of the same incarnation of the service, other than the sender's name, whose
    inbox has room; [Leave] and [Close] close the inbox of whichever session is
    registered under the name at that time; and [Recv] gives what was queued, in
    order, then blocks while the session is registered and ends once it is
    not. *)
Theorem store_refines {Body} (cs : list (call Body)) :
  results (NewMemory, []) cs = spec_results [] cs.
Proof. apply (results_sim cs NewMemory []), Sim_init. Qed.

(** A session that leaves reads what was queued and then the end; the second
    close of a departed session removes the session that has taken its name. *)
Definition demo_calls : list (call nat) :=
  [CJoin p_a; CJoin p_b; CSend 0 7%nat; CClose 1; CRecv 1; CRecv 1; CRecv 0;
   CJoin p_b; CRecv 2; CClose 1; CRecv 2; CSend 1 8%nat; CRecv 0; CStats].

Lemma store_refines_witness :
  results (NewMemory, []) demo_calls =
  [RJoined 0; RJoined 1; ROk; ROk;
   RMessage {| sm_Service := "s"; sm_SenderID := "a"; sm_Body := 7%nat |}; REnd; RBlocks;
   RJoined 2; RBlocks; ROk; REnd; ROk;
   RMessage {| sm_Service := "s"; sm_SenderID := "b"; sm_Body := 8%nat |};
   RStats {| st_Services := 1; st_Peers := 1; st_ServicePeers := {[ "s"%string := 1%nat ]} |}].
Proof. etrans; [exact (store_refines demo_calls)|by vm_compute]. Defined.
