(* ===== verification/SignalWire.v ===== *)
(** * Signaling messages and their frames (signal/local.go, signal/ws.go,
    signalserver/ws.go, gen/proto/peerrpc/signaling)

    The two forms of a signaling message, the conversions between them, and the
    length-prefixed WebSocket frames, which the client and the server implement
    in the same way.  [proto.Marshal] and [proto.Unmarshal] are the [Codec]. *)

From Stdlib Require Import Strings.Byte ZArith Lia.
From stdpp Require Import numbers strings gmap list pretty.
From S2P Require Import Prelude Messages.
Open Scope Z_scope.

(** ** The generated types *)

Module Pb.
Record AnnounceRequest : Type := { PeerId : string; PeerPubkey : option bytes; Role : Z }.
Record IceCandidate : Type := { Candidate : string; SdpMid : string; SdpMlineIndex : Z }.

(** The [oneof] body; a wrapper may hold a nil message. *)
Inductive Body : Type :=
  | SignalMessage_Announce (m : option AnnounceRequest)
  | SignalMessage_Offer (sdp : option string)
  | SignalMessage_Answer (sdp : option string)
  | SignalMessage_Candidate (m : option IceCandidate)
  | SignalMessage_Leave (reason : option string)
  | SignalMessage_Ping (timestamp : option Z).

Record SignalMessage : Type := { Service : string; body : option Body }.

Definition GetAnnounce (m : SignalMessage) : option AnnounceRequest :=
  match body m with Some (SignalMessage_Announce a) => a | _ => None end.

Definition with_Service (s : string) (m : SignalMessage) : SignalMessage :=
  {| Service := s; body := body m |}.

#[global] Instance AnnounceRequest_eq_dec : EqDecision AnnounceRequest.
Proof. solve_decision. Defined.
#[global] Instance IceCandidate_eq_dec : EqDecision IceCandidate.
Proof. solve_decision. Defined.
#[global] Instance Body_eq_dec : EqDecision Body.
Proof. solve_decision. Defined.
#[global] Instance SignalMessage_eq_dec : EqDecision SignalMessage.
Proof. solve_decision. Defined.
End Pb.

(** ** The types of package signal *)

(** [RoleUnspecified] to [RoleBridge]. *)
Definition RoleClient : Z := 1.
Definition RoleServer : Z := 2.

Record AnnounceRequest : Type := { PeerID : string; PeerPubkey : option bytes; Role : Z }.
Record IceCandidate : Type := { Candidate : string; SdpMid : string; SdpMLineIndex : Z }.

Record SignalBody : Type := {
  Announce : option AnnounceRequest;
  Offer : option string;
  Answer : option string;
  Cand : option IceCandidate;
  Leave : option string;
  Ping : option Z }.

Record SignalMessage : Type := { Service : string; Body : SignalBody }.

Definition empty_body : SignalBody :=
  {| Announce := None; Offer := None; Answer := None; Cand := None; Leave := None; Ping := None |}.

(** ** Conversions *)

Definition toProtoMessage (msg : SignalMessage) : Pb.SignalMessage + error :=
  let mk b := inl {| Pb.Service := ""; Pb.body := Some b |} in
  let b := Body msg in
  match Announce b with
  | Some a => mk (Pb.SignalMessage_Announce (Some
      {| Pb.PeerId := PeerID a; Pb.PeerPubkey := PeerPubkey a; Pb.Role := int32 (Role a) |}))
  | None =>
  match Offer b with
  | Some sdp => mk (Pb.SignalMessage_Offer (Some sdp))
  | None =>
  match Answer b with
  | Some sdp => mk (Pb.SignalMessage_Answer (Some sdp))
  | None =>
  match Cand b with
  | Some c => mk (Pb.SignalMessage_Candidate (Some
      {| Pb.Candidate := Candidate c; Pb.SdpMid := SdpMid c; Pb.SdpMlineIndex := SdpMLineIndex c |}))
  | None =>
  match Leave b with
  | Some reason => mk (Pb.SignalMessage_Leave (Some reason))
  | None =>
  match Ping b with
  | Some t => mk (Pb.SignalMessage_Ping (Some t))
  | None => inr (ErrorString "signal: unknown body type")
  end end end end end end.

Definition fromProtoMessage (pb : Pb.SignalMessage) : option SignalMessage :=
  let mk b := Some {| Service := Pb.Service pb; Body := b |} in
  match Pb.body pb with
  | Some (Pb.SignalMessage_Announce m) =>
      mk {| Announce := Some match m with
              | Some a => {| PeerID := Pb.PeerId a; PeerPubkey := Pb.PeerPubkey a; Role := Pb.Role a |}
              | None => {| PeerID := ""; PeerPubkey := None; Role := 0 |} end;
            Offer := None; Answer := None; Cand := None; Leave := None; Ping := None |}
  | Some (Pb.SignalMessage_Offer m) =>
      mk {| Announce := None; Offer := Some (default ""%string m); Answer := None; Cand := None;
            Leave := None; Ping := None |}
  | Some (Pb.SignalMessage_Answer m) =>
      mk {| Announce := None; Offer := None; Answer := Some (default ""%string m); Cand := None;
            Leave := None; Ping := None |}
  | Some (Pb.SignalMessage_Candidate m) =>
      mk {| Announce := None; Offer := None; Answer := None;
            Cand := Some match m with
              | Some c => {| Candidate := Pb.Candidate c; SdpMid := Pb.SdpMid c;
                             SdpMLineIndex := Pb.SdpMlineIndex c |}
              | None => {| Candidate := ""; SdpMid := ""; SdpMLineIndex := 0 |} end;
            Leave := None; Ping := None |}
  | Some (Pb.SignalMessage_Leave m) =>
      mk {| Announce := None; Offer := None; Answer := None; Cand := None;
            Leave := Some (default ""%string m); Ping := None |}
  | Some (Pb.SignalMessage_Ping m) =>
      mk {| Announce := None; Offer := None; Answer := None; Cand := None; Leave := None;
            Ping := Some (default 0 m) |}
  | None => None
  end.

(** ** Frames *)

Section frames.
Context `{Codec Pb.SignalMessage}.

(** What [conn.ReadMessage] returned: the data, or an error and whether it is a
    normal closure ([websocket.IsCloseError] with 1000 or 1001). *)
Definition ws_read : Type := bytes + (error * bool).

Definition decode_frame (data : bytes) : Pb.SignalMessage + error :=
  match data with
  | b0 :: b1 :: b2 :: b3 :: rest =>
      let length := of_be32 b0 b1 b2 b3 in
      if uint32 (len data - 4) <? length
      then inr (ErrorString ("ws frame truncated: want " +:+ pretty length +:+
                             " payload bytes, got " +:+ pretty (len data - 4)))
      else match unmarshal (take (Z.to_nat length) rest) with
           | Some msg => inl msg
           | None => inr (wrapf "ws unmarshal: " (ErrorString "proto"))
           end
  | _ => inr (ErrorString ("ws frame too short: " +:+ pretty (len data) +:+ " bytes"))
  end.

(** [readFrame] of signal/ws.go. *)
Definition client_readFrame (r : ws_read) : Pb.SignalMessage + error :=
  match r with inr (err, _) => inr err | inl data => decode_frame data end.

(** [readFrame] of signalserver/ws.go: a normal closure is [io.EOF]. *)
Definition server_readFrame (r : ws_read) : Pb.SignalMessage + error :=
  match r with
  | inr (err, normal) => inr (if normal then EOF else err)
  | inl data => decode_frame data
  end.

(** [writeFrame] of both: the frame handed to [WriteMessage]. *)
Definition writeFrame (msg : Pb.SignalMessage) : bytes + error :=
  match marshal msg with
  | None => inr (wrapf "ws marshal: " (ErrorString "proto"))
  | Some payload => inl (be32 (uint32 (len payload)) ++ payload)
  end.

(** The outbound pump of [Exchange] for one message. *)
Definition pump_out (service : string) (msg : SignalMessage) : option (bytes + error) :=
  match toProtoMessage msg with
  | inr _ => None
  | inl pb => Some (writeFrame (Pb.with_Service service pb))
  end.

(** [Exchange]'s first frame. *)
Definition announce_frame (service peerID : string) : bytes + error :=
  writeFrame {| Pb.Service := service;
                Pb.body := Some (Pb.SignalMessage_Announce (Some
                  {| Pb.PeerId := peerID; Pb.PeerPubkey := None; Pb.Role := RoleClient |})) |}.

(** The inbound pump for one frame: the inbox of the session, the channel being
    closed on an error. *)
Definition in_cap : nat := 32.

Definition pump_in (r : ws_read) (inbox : list SignalMessage) : option (list SignalMessage) :=
  match client_readFrame r with
  | inr _ => None
  | inl pb =>
      match fromProtoMessage pb with
      | None => Some inbox
      | Some sm => Some (if decide (length inbox < in_cap)%nat then inbox ++ [sm] else inbox)
      end
  end.

(** ** Lemmas *)

Lemma decode_writeFrame `{!CodecLaws Pb.SignalMessage} msg frame :
  writeFrame msg = inl frame → len frame < two32 → decode_frame frame = inl msg.
Proof.
  unfold writeFrame. destruct (marshal msg) as [payload|] eqn:Hm; [|done]. intros Heq Hl.
  assert (frame = be32 (uint32 (len payload)) ++ payload) as -> by congruence.
  assert (len (be32 (uint32 (len payload)) ++ payload) = 4 + len payload) as Hlen
    by (by rewrite len_app, len_be32).
  rewrite Hlen in Hl. pose proof (len_nonneg payload).
  rewrite (uint32_id (len payload)) in * by lia.
  unfold be32 in *. cbn [app] in *. unfold decode_frame. rewrite of_be32_be32, Hlen.
  rewrite !uint32_id by lia. rewrite (proj2 (Z.ltb_ge _ _)) by lia.
  unfold len. rewrite Nat2Z.id, take_ge by lia. by rewrite (unmarshal_marshal _ _ Hm).
Qed.
End frames.

(** ** Properties *)

(** What survives of a body: the first field that is set, the role as an int32. *)
Definition first_body (b : SignalBody) : SignalBody :=
  match Announce b with
  | Some a => {| Announce := Some {| PeerID := PeerID a; PeerPubkey := PeerPubkey a;
                                     Role := int32 (Role a) |};
                 Offer := None; Answer := None; Cand := None; Leave := None; Ping := None |}
  | None =>
  match Offer b with
  | Some _ => {| Announce := None; Offer := Offer b; Answer := None; Cand := None; Leave := None; Ping := None |}
  | None =>
  match Answer b with
  | Some _ => {| Announce := None; Offer := None; Answer := Answer b; Cand := None; Leave := None; Ping := None |}
  | None =>
  match Cand b with
  | Some _ => {| Announce := None; Offer := None; Answer := None; Cand := Cand b; Leave := None; Ping := None |}
  | None =>
  match Leave b with
  | Some _ => {| Announce := None; Offer := None; Answer := None; Cand := None; Leave := Leave b; Ping := None |}
  | None => {| Announce := None; Offer := None; Answer := None; Cand := None; Leave := None; Ping := Ping b |}
  end end end end end.

Lemma from_to msg pb service :
  toProtoMessage msg = inl pb →
  fromProtoMessage (Pb.with_Service service pb)
    = Some {| Service := service; Body := first_body (Body msg) |}.
Proof.
  unfold toProtoMessage, first_body.
  destruct (Announce (Body msg)) as [[]|]; [by intros [= <-]|].
  destruct (Offer (Body msg)); [by intros [= <-]|].
  destruct (Answer (Body msg)); [by intros [= <-]|].
  destruct (Cand (Body msg)) as [[]|]; [by intros [= <-]|].
  destruct (Leave (Body msg)); [by intros [= <-]|].
  destruct (Ping (Body msg)); by intros [= <-].
Qed.

(** A signaling message survives the way from one client through the
    server to another: a message with a body goes out as a frame that the
    server decodes to the same message addressed to the sender's service; the
    frame the server forwards for it is delivered to a session with room in its
    buffer as one message with the same body (the first field set, if several
    are); and a message without a body is dropped without an error. *)
Theorem signal_message_delivered `{CodecLaws Pb.SignalMessage} service msg frame :
  pump_out service msg = Some (inl frame) → len frame < two32 →
  Body msg ≠ empty_body ∧
  ∃ pb, server_readFrame (inl frame) = inl pb ∧ Pb.Service pb = service ∧
    (∀ service' frame' inbox, writeFrame (Pb.with_Service service' pb) = inl frame' →
       len frame' < two32 → (length inbox < in_cap)%nat →
       pump_in (inl frame') inbox =
         Some (inbox ++ [{| Service := service'; Body := first_body (Body msg) |}])) ∧
    (∀ msg0, Body msg0 = empty_body → pump_out service msg0 = None).
Proof.
  unfold pump_out. destruct (toProtoMessage msg) as [pb|] eqn:Hto; [|done]. intros [= Hw] Hl.
  split; [intros Hb; unfold toProtoMessage in Hto; by rewrite Hb in Hto|].
  exists (Pb.with_Service service pb). split; [|split; [done|split]].
  - cbn. by apply decode_writeFrame.
  - intros service' frame' inbox Hw' Hl' Hcap. unfold pump_in. cbn.
    rewrite (decode_writeFrame _ _ Hw') by done. 
    change (Pb.with_Service service' (Pb.with_Service service pb)) with (Pb.with_Service service' pb).
    rewrite (from_to msg pb service') by done. by rewrite decide_True.
  - intros msg0 Hb. unfold toProtoMessage. by rewrite Hb.
Qed.

Definition ex_offer : SignalMessage :=
  {| Service := ""; Body := {| Announce := None; Offer := Some "v=0"%string; Answer := None;
                               Cand := None; Leave := None; Ping := None |} |}.

#[local] Instance ex_codec : Codec Pb.SignalMessage :=
  table_codec [{| Pb.Service := "s"; Pb.body := Some (Pb.SignalMessage_Offer (Some "v=0"%string)) |}].
#[local] Instance ex_laws : CodecLaws Pb.SignalMessage.
Proof. apply table_codec_laws, Nat.leb_le. by vm_compute. Qed.

Lemma signal_message_delivered_witness :
  ∃ frame, pump_out "s" ex_offer = Some (inl frame) ∧
  Body ex_offer ≠ empty_body ∧
  ∃ pb, server_readFrame (inl frame) = inl pb ∧ Pb.Service pb = "s"%string ∧
    (∀ service' frame' inbox, writeFrame (Pb.with_Service service' pb) = inl frame' →
       len frame' < two32 → (length inbox < in_cap)%nat →
       pump_in (inl frame') inbox =
         Some (inbox ++ [{| Service := service'; Body := first_body (Body ex_offer) |}])) ∧
    (∀ msg0, Body msg0 = empty_body → pump_out "s" msg0 = None).
Proof.
  eexists. split; [vm_compute; reflexivity|].
  apply (signal_message_delivered "s" ex_offer); [vm_compute; reflexivity|by vm_compute].
Defined.

(** How many fields of the union are set. *)
Definition fields_set (b : SignalBody) : nat :=
  ((if Announce b then 1 else 0) + (if Offer b then 1 else 0) + (if Answer b then 1 else 0) +
   (if Cand b then 1 else 0) + (if Leave b then 1 else 0) + (if Ping b then 1 else 0))%nat.

(** The role of an announcement is an [int32] of the wire. *)
Definition wire_role (pb : Pb.SignalMessage) : Prop :=
  match Pb.GetAnnounce pb with Some a => -two31 ≤ Pb.Role a < two31 | None => True end.

(** The union of a message that was read from the wire. *)
Definition tagged (m : SignalMessage) : Prop :=
  fields_set (Body m) = 1%nat ∧ match Announce (Body m) with Some a => -two31 ≤ Role a < two31 | None => True end.

(** What a body of the wire says, wrapper by wrapper: the field of that name
    holds the contents of the wrapped message, read with the nil-safe getters of
    the generated code. *)
Definition says (w : Pb.Body) (b : SignalBody) : Prop :=
  match w with
  | Pb.SignalMessage_Announce a => ∃ r, Announce b = Some r ∧
      PeerID r = from_option Pb.PeerId ""%string a ∧ PeerPubkey r = a ≫= Pb.PeerPubkey ∧
      Role r = from_option Pb.Role 0 a
  | Pb.SignalMessage_Offer sdp => Offer b = Some (default ""%string sdp)
  | Pb.SignalMessage_Answer sdp => Answer b = Some (default ""%string sdp)
  | Pb.SignalMessage_Candidate c => ∃ r, Cand b = Some r ∧
      Candidate r = from_option Pb.Candidate ""%string c ∧ SdpMid r = from_option Pb.SdpMid ""%string c ∧
      SdpMLineIndex r = from_option Pb.SdpMlineIndex 0 c
  | Pb.SignalMessage_Leave reason => Leave b = Some (default ""%string reason)
  | Pb.SignalMessage_Ping t => Ping b = Some (default 0 t)
  end.

(** The body with a nil message replaced by the empty one, which its encoding
    cannot be told from. *)
Definition filled (w : Pb.Body) : Pb.Body :=
  match w with
  | Pb.SignalMessage_Announce None =>
      Pb.SignalMessage_Announce (Some {| Pb.PeerId := ""; Pb.PeerPubkey := None; Pb.Role := 0 |})
  | Pb.SignalMessage_Offer None => Pb.SignalMessage_Offer (Some ""%string)
  | Pb.SignalMessage_Answer None => Pb.SignalMessage_Answer (Some ""%string)
  | Pb.SignalMessage_Candidate None =>
      Pb.SignalMessage_Candidate (Some {| Pb.Candidate := ""; Pb.SdpMid := ""; Pb.SdpMlineIndex := 0 |})
  | Pb.SignalMessage_Leave None => Pb.SignalMessage_Leave (Some ""%string)
  | Pb.SignalMessage_Ping None => Pb.SignalMessage_Ping (Some 0)
  | w => w
  end.

Lemma wire_decoded pb w :
  Pb.body pb = Some w → wire_role pb →
  ∃ m, fromProtoMessage pb = Some m ∧ Service m = Pb.Service pb ∧ tagged m ∧ says w (Body m) ∧
    toProtoMessage m = inl {| Pb.Service := ""; Pb.body := Some (filled w) |}.
Proof.
  unfold wire_role, Pb.GetAnnounce, fromProtoMessage, tagged, toProtoMessage. intros -> Hrole.
  destruct w as [[a|]|[]|[]|[c|]|[]|[]]; (eexists; split; [reflexivity|]); cbn in *;
    split_and!; try done; try (zconsts; lia); try (by eexists); rewrite ?int32_id by (zconsts; lia); try done;
    by destruct a || by destruct c.
Qed.

Lemma tagged_first m : tagged m → first_body (Body m) = Body m ∧ ∃ pb, toProtoMessage m = inl pb.
Proof.
  destruct m as [s [an o a c l p]]. unfold tagged, fields_set, first_body, toProtoMessage. cbn. intros [H1 Hr].
  destruct an as [[]|], o, a, c as [[]|], l, p; try done; (split; [|by eexists]); cbn in *;
    rewrite ?int32_id by (zconsts; lia); reflexivity.
Qed.

(** [C33] The bodies of the wire and of the package are the same up to nil
    messages. A message of the wire is dropped exactly when it has no body.
    Otherwise what [fromProtoMessage] gives has one field of the union set, the
    one of the wire's tag, with every field of the wrapped message, and the
    sender's service; converted back it is the body it came from. Conversely
    every message of the package with one field set is converted to a body
    which reads as that very message. *)
Theorem wire_bodies_roundtrip :
  (∀ pb, fromProtoMessage pb = None ↔ Pb.body pb = None) ∧
  (∀ pb w, Pb.body pb = Some w → wire_role pb →
     ∃ m, fromProtoMessage pb = Some m ∧ Service m = Pb.Service pb ∧ tagged m ∧ says w (Body m) ∧
       toProtoMessage m = inl {| Pb.Service := ""; Pb.body := Some (filled w) |}) ∧
  (∀ m, tagged m →
     ∃ pb, toProtoMessage m = inl pb ∧ fromProtoMessage (Pb.with_Service (Service m) pb) = Some m) ∧
  (∀ m, Body m = empty_body ↔ ∃ err, toProtoMessage m = inr err).
Proof.
  split_and!.
  - intros [s [[]|]]; done.
  - intros. by apply wire_decoded.
  - intros m Hm. destruct (tagged_first m Hm) as (Hf & pb & Hto). exists pb. split; [done|].
    rewrite (from_to m pb _ Hto), Hf. by destruct m.
  - intros [s [an o a c l p]]. unfold toProtoMessage, empty_body. cbn. split.
    + intros [= -> -> -> -> -> ->]. by eexists.
    + intros [err Herr]. by destruct an, o, a, c, l, p.
Qed.

(** A candidate of the wire, and an announcement of the package. *)
Definition ex_candidate : Pb.SignalMessage :=
  {| Pb.Service := "s"; Pb.body := Some (Pb.SignalMessage_Candidate (Some
       {| Pb.Candidate := "c"; Pb.SdpMid := "0"; Pb.SdpMlineIndex := 3 |})) |}.
Definition ex_announce : SignalMessage :=
  {| Service := "s"; Body := {| Announce := Some {| PeerID := "p"; PeerPubkey := Some []; Role := 2 |};
       Offer := None; Answer := None; Cand := None; Leave := None; Ping := None |} |}.

Lemma wire_bodies_roundtrip_witness :
  (∃ m, fromProtoMessage ex_candidate = Some m ∧ Service m = "s"%string ∧
     ∃ c, Cand (Body m) = Some c ∧ SdpMLineIndex c = 3 ∧
       toProtoMessage m = inl (Pb.with_Service "" ex_candidate)) ∧
  (∃ pb, toProtoMessage ex_announce = inl pb ∧ fromProtoMessage (Pb.with_Service "s" pb) = Some ex_announce).
Proof.
  destruct wire_bodies_roundtrip as (_ & Hfrom & Hto & _). split.
  - destruct (Hfrom ex_candidate _ eq_refl I) as (m & Hm & Hs & _ & (c & Hc & _ & _ & Hi) & Hback).
    exists m. split; [done|]. split; [done|]. exists c. by split_and!.
  - apply (Hto ex_announce). by split; [vm_compute|vm_compute; split; [done|]].
Defined.
