(* ===== verification/SignalServer.v ===== *)
(** * The WebSocket signaling server (signalserver/ws.go)

    One connection as a state machine over the store: the announce, the read
    loop that broadcasts, the pump that writes the inbox back, and the two-step
    end (the sender is closed, the pump drains, the deferred [Leave] runs).
    Then the two ways in which a session can be lost. *)

From Stdlib Require Import Strings.Byte ZArith Lia.
From stdpp Require Import numbers strings gmap fin_maps relations list.
From S2P Require Import Prelude Messages SignalStore SignalStoreProps SignalStoreSpec SignalWire.
Open Scope Z_scope.

Abbreviation WMemory := (@SignalStore.Memory Pb.SignalMessage).
Abbreviation WSend := (SignalStore.Send).

(** A connection: before the announce, serving, draining its inbox after the
    read loop has ended, and over. *)
Inductive ws_conn : Type :=
  | WsAnnounce
  | WsServing (peer : Peer) (sx : memorySender)
  | WsDraining (peer : Peer) (sx : memorySender)
  | WsDone.

(** Steps 1 of [serveWebSocket]: the first frame must be a usable announce. *)
Definition ws_announce (frame : Pb.SignalMessage + error) (m : WMemory) : ws_conn * WMemory :=
  match frame with
  | inr _ => (WsDone, m)
  | inl msg =>
      match Pb.GetAnnounce msg with
      | None => (WsDone, m)
      | Some a =>
          let service := Pb.Service msg in
          let peerID := Pb.PeerId a in
          if bool_decide (service = ""%string) || bool_decide (peerID = ""%string) then (WsDone, m)
          else
            let peer := {| ID := peerID; SignalStore.Service := service |} in
            match Join peer m with
            | (inr _, m) => (WsDone, m)
            | (inl sx, m) => (WsServing peer sx, m)
            end
      end
  end.

(** One turn of the read loop: broadcast, or close the sender. *)
Definition ws_read (peer : Peer) (sx : memorySender) (frame : Pb.SignalMessage + error) (m : WMemory)
    : ws_conn * WMemory :=
  match frame with
  | inr _ => (WsDraining peer sx, Close sx m)
  | inl msg =>
      (WsServing peer sx, (WSend sx (Pb.with_Service (SignalStore.Service peer) msg) m).2)
  end.

(** One turn of the pump goroutine: the frame it writes. [None] blocks, and
    [Some None] is the end of the pump. *)
Definition ws_pump `{Codec Pb.SignalMessage} (sx : memorySender) (m : WMemory)
    : option (option (bytes + error) * WMemory) :=
  '(r, m) ← Recv (sx_peer sx) m;
  Some (match r with Some msg => Some (writeFrame (sm_Body msg)) | None => None end, m).

(** After [<-done]: the deferred [Leave]. *)
Definition ws_finish (peer : Peer) (m : WMemory) : ws_conn * WMemory := (WsDone, SignalStore.Leave peer m).

(** ** A reconnecting peer *)

Lemma close_live (m : WMemory) peer sx :
  SWF m → live_session m peer sx → Close sx m = SignalStore.Leave peer m.
Proof.
  intros [[names HWF] _ _] [Hs Hp]. pose proof (wf_services _ _ HWF _ _ Hs) as Hna.
  apply peers_of_member in Hp. destruct (wf_member _ _ HWF _ _ _ Hp) as (p & Hpl & Hid & _ & Hpn).
  unfold Close. rewrite Hpl. destruct peer as [id service]; cbn in *.
  assert (mp_service p = service) as -> by congruence. by rewrite Hid.
Qed.

(** [Leave] of a registered peer closes its inbox. *)
Lemma leave_closes (m : WMemory) peer sx :
  SWF m → live_session m peer sx →
  ∃ p, peer_heap (SignalStore.Leave peer m) !! sx_peer sx = Some p ∧ mp_inboxClosed p = true.
Proof.
  intros [[names HWF] _ _] [Hs Hp]. unfold SignalStore.Leave. rewrite Hs.
  unfold leave_remove. rewrite Hp. apply peers_of_member in Hp.
  destruct (wf_member _ _ HWF _ _ _ Hp) as (p & Hpl & _ & Hcl & _).
  set (m1 := set_svc _ _ m).
  assert (∃ p', peer_heap (close_inbox (sx_peer sx) m1) !! sx_peer sx = Some p' ∧
    mp_inboxClosed p' = true) as (p' & Hp' & Hcl').
  { unfold close_inbox, m1; cbn. rewrite Hpl, Hcl. cbn. rewrite lookup_insert, decide_True by done.
    by eexists. }
  exists p'. split; [|done]. case_bool_decide; [|done].
  unfold leave_gc. destruct (services _ !! _); [|done]. by repeat case_match.
Qed.

Lemma leave_frees peer (m : WMemory) sx names :
  SWF m → WF names m → live_session m peer sx →
  let ps := default ∅ (abs (SignalStore.Leave peer m) !! SignalStore.Service peer) in
  ps !! ID peer = None ∧ (size ps < MaxPeersPerService)%nat.
Proof.
  intros HS HWF [Hs Hp]. cbv zeta.
  destruct (leave_refines peer m HS) as [_ ->]. unfold spec_leave.
  rewrite (abs_lookup _ _ _ Hs), lookup_fmap, Hp. cbn.
  assert (size (peers_of (sx_service sx) m) ≤ MaxPeersPerService)%nat as Hsz.
  { unfold peers_of. destruct (svc_heap m !! sx_service sx) as [ps|] eqn:E; cbn.
    - by apply (wf_svc _ _ HWF) in E as [_ ?].
    - rewrite map_size_empty. lia. }
  case_decide as He.
  - rewrite lookup_delete, decide_True by done. cbn. rewrite lookup_empty, map_size_empty.
    unfold MaxPeersPerService. split; [done|lia].
  - rewrite lookup_insert, decide_True by done. cbn. rewrite lookup_delete, decide_True by done.
    split; [done|]. rewrite map_size_delete_Some; [|rewrite lookup_fmap, Hp; by eexists].
    rewrite map_size_fmap. assert (size (peers_of (sx_service sx) m) ≠ 0)%nat; [|lia].
    intros Hz%map_size_empty_iff. by rewrite Hz in Hp.
Qed.

(** A peer that reconnects while its old connection is going away is cut
    off.  The old connection's read loop has closed its sender, which frees the
    id; the peer announces again and is admitted; then the old connection's
    deferred [Leave] removes the new session, although nothing has ended it:
    its inbox is closed, so the server stops forwarding to it, and the table no
    longer holds the id. *)
Theorem reconnected_peer_evicted (m : WMemory) peer sx1 err msg a
    (HS : SWF m) (Hlive : live_session m peer sx1)
    (Hid : ID peer ≠ ""%string) (Hsv : SignalStore.Service peer ≠ ""%string)
    (Hann : Pb.GetAnnounce msg = Some a) (Hmsg : Pb.Service msg = SignalStore.Service peer)
    (Ha : Pb.PeerId a = ID peer) :
  ∃ m1 sx2 m2 m3,
    ws_read peer sx1 (inr err) m = (WsDraining peer sx1, m1) ∧
    ws_announce (inl msg) m1 = (WsServing peer sx2, m2) ∧ live_session m2 peer sx2 ∧
    ws_finish peer m2 = (WsDone, m3) ∧
    (∃ p, peer_heap m3 !! sx_peer sx2 = Some p ∧ mp_inboxClosed p = true) ∧
    default ∅ (abs m3 !! SignalStore.Service peer) !! ID peer = None.
Proof.
  destruct (swf_wf _ HS) as [names HWF].
  set (m1 := SignalStore.Leave peer m).
  destruct (leave_refines peer m HS) as [HS1 _]. fold m1 in HS1.
  destruct (leave_frees peer m sx1 names HS HWF Hlive) as [Hfree Hroom]. fold m1 in Hfree, Hroom.
  pose proof (join_refines peer m1 HS1) as Hj. unfold spec_join in Hj.
  rewrite !bool_decide_eq_false_2 in Hj by done. cbn [orb] in Hj. rewrite Hfree in Hj.
  rewrite decide_False in Hj by lia.
  destruct (Join peer m1) as [[sx2|e] m2] eqn:HJ; [|by destruct Hj as (_ & _ & [=] & _)].
  destruct Hj as (HS2 & _ & _ & Hl1 & Hl2).
  destruct (swf_wf _ HS2) as [names2 HWF2].
  exists m1, sx2, m2, (SignalStore.Leave peer m2). split; [|split; [|split; [done|split; [done|split]]]].
  - unfold ws_read, m1. by rewrite (close_live m peer sx1).
  - unfold ws_announce. rewrite Hann, Hmsg, Ha, !bool_decide_eq_false_2 by done. cbn [orb].
    destruct peer; cbn in *. by rewrite HJ.
  - by apply leave_closes.
  - by destruct (leave_frees peer m2 sx2 names2 HS2 HWF2).
Qed.

Definition ex_ann : Pb.SignalMessage :=
  {| Pb.Service := "s"; Pb.body := Some (Pb.SignalMessage_Announce
       (Some {| Pb.PeerId := "a"; Pb.PeerPubkey := None; Pb.Role := 1 |})) |}.

Lemma reconnected_peer_evicted_witness :
  let m := (Join p_a (NewMemory : WMemory)).2 in
  ∃ m1 sx2 m2 m3,
    ws_read p_a {| sx_peer := 1; sx_service := 0 |} (inr EOF) m
      = (WsDraining p_a {| sx_peer := 1; sx_service := 0 |}, m1) ∧
    ws_announce (inl ex_ann) m1 = (WsServing p_a sx2, m2) ∧ live_session m2 p_a sx2 ∧
    ws_finish p_a m2 = (WsDone, m3) ∧
    (∃ p, peer_heap m3 !! sx_peer sx2 = Some p ∧ mp_inboxClosed p = true) ∧
    default ∅ (abs m3 !! SignalStore.Service p_a) !! ID p_a = None.
Proof.
  apply (reconnected_peer_evicted (Join p_a (NewMemory : WMemory)).2 p_a
           {| sx_peer := 1; sx_service := 0 |} EOF ex_ann
           {| Pb.PeerId := "a"; Pb.PeerPubkey := None; Pb.Role := 1 |}); try done.
  apply (join_SWF p_a), SWF_init.
Defined.

(** ** A join that meets the collection of an emptied service *)

Definition step_state (m : WMemory) (ps : list pending) (js : list (Peer * memorySender)) : conc :=
  {| c_mem := m; c_pending := ps; c_joined := js |}.

(** Two peers can join the same service and never see each other.  While
    a [Leave] that has emptied the service is on its way to collect it, a
    [Join] that has already looked the service up inserts its peer into the
    collected object; the next peer to join gets a new object.  Both sessions
    are established, no call is pending, but a broadcast by either never
    reaches the other, and the first peer's [Leave] and [Close] do nothing: its
    inbox is never closed, so its connection's [<-done] waits for ever. *)
Theorem joined_peer_orphaned :
  ∃ (c : @conc Pb.SignalMessage) a b sa sb,
    reachable c ∧ c_pending c = [] ∧ SignalStore.Service a = SignalStore.Service b ∧
    c_joined c = [(b, sb); (a, sa); (b, {| sx_peer := 1; sx_service := 0 |})] ∧
    (∀ body, ∃ m', WSend sa body (c_mem c) = (Ok tt, m') ∧ Recv (sx_peer sb) m' = None) ∧
    (∀ body, ∃ m', WSend sb body (c_mem c) = (Ok tt, m') ∧ Recv (sx_peer sa) m' = None) ∧
    SignalStore.Leave a (c_mem c) = c_mem c ∧ Close sa (c_mem c) = c_mem c.
Proof.
  set (m0 := (Join p_b (NewMemory : WMemory)).2).
  set (m1 := (leave_remove p_b 0 m0).2).
  set (m2 := close_inbox 1 m1).
  set (m3 := leave_gc p_b m2).
  set (m4 := (join_insert p_a 0 m3).2).
  set (m5 := (serviceForJoin "s" m4).2).
  set (m6 := (join_insert p_b 3 m5).2).
  set (sb0 := {| sx_peer := 1; sx_service := 0 |}).
  set (sa := {| sx_peer := 2; sx_service := 0 |}). set (sb := {| sx_peer := 4; sx_service := 3 |}).
  exists (step_state m6 [] [(p_b, sb); (p_a, sa); (p_b, sb0)]), p_a, p_b, sa, sb.
  split; [|by repeat split; try (intros body; eexists; split; vm_compute; reflexivity)].
  unfold reachable.
  eapply rtc_l; [apply (step_join1 p_b _ [] [] 0 (serviceForJoin "s" NewMemory).2); done|].
  eapply rtc_l; [apply (step_join2 p_b 0 _ [] [] [] (inl sb0) m0); reflexivity|].
  eapply rtc_l; [apply (step_leave1 p_b 0); reflexivity|].
  eapply rtc_l; [apply (step_leave2 p_b 0 _ [] [] _ (Some (1%nat, true)) m1); reflexivity|].
  cbn [app].
  eapply rtc_l; [apply (step_join1 p_a _ _ _ 0 m1); done|].
  eapply rtc_l; [apply (step_leave3 p_b 1 true m1 [PJoin p_a 0] [])|]. cbn [app].
  eapply rtc_l; [apply (step_leave4 p_b m2 [PJoin p_a 0] [])|]. cbn [app].
  eapply rtc_l; [apply (step_join2 p_a 0 _ [] [] _ (inl sa) m4); reflexivity|]. cbn [app].
  eapply rtc_l; [apply (step_join1 p_b _ _ _ 3 m5); done|].
  eapply rtc_l; [apply (step_join2 p_b 3 _ [] [] _ (inl sb) m6); reflexivity|].
  apply rtc_refl.
Qed.
