(* ===== verification/Session.v ===== *)
(** * Buffered channels and [Session.Send] (signal/local.go, [Session])

    What the two signaling backends share: Go's buffered channels, and the
    [select] of [Send], which is the same code over either backend. *)

From Stdlib Require Import ZArith.
From stdpp Require Import numbers strings list.
From S2P Require Import Prelude SignalWire.

(** The capacity of the channels of a session, in both backends. *)
Definition chan_cap : nat := 32.

(** A buffered Go channel. *)
Record chan (A : Type) : Type := { queue : list A; closed : bool }.
Arguments queue {A} _.
Arguments closed {A} _.
Arguments Build_chan {A} _ _.

Section chan.
Context {A : Type}.

Definition make_chan : chan A := {| queue := []; closed := false |}.

Definition enqueue (m : A) (c : chan A) : chan A := {| queue := queue c ++ [m]; closed := closed c |}.

Definition set_queue (q : list A) (c : chan A) : chan A := {| queue := q; closed := closed c |}.

Definition close (c : chan A) : chan A := {| queue := queue c; closed := true |}.

Definition has_room (c : chan A) : Prop := (length (queue c) < chan_cap)%nat.

#[export] Instance has_room_dec c : Decision (has_room c).
Proof. unfold has_room. apply _. Defined.

(** What the [select] of [Send] may do: a message accepted, an error, a panic;
    it blocks when no outcome is possible. [ctx] is the caller's context error,
    [out] and [done] are the session's. *)
Inductive Send_outcome (ctx : option error) (out : chan A) (done : bool) : res unit → Prop :=
  | send_accept : closed out = false → has_room out → Send_outcome ctx out done (Ok tt)
  | send_closed : closed out = true → Send_outcome ctx out done (Panic "send on closed channel")
  | send_done : done = true → Send_outcome ctx out done (Fail (ErrorString "signal: session closed"))
  | send_ctx e : ctx = Some e → Send_outcome ctx out done (Fail e).

(** The states in which [Send] blocks. *)
Lemma Send_blocks ctx out done :
  (∀ r, ¬ Send_outcome ctx out done r) ↔
  closed out = false ∧ ¬ has_room out ∧ done = false ∧ ctx = None.
Proof.
  split.
  - intros Hno. destruct (closed out) eqn:Hc; [exfalso; eapply Hno, send_closed, Hc|].
    destruct (decide (has_room out)) as [Hr|]; [exfalso; by eapply Hno, send_accept|].
    destruct done; [exfalso; by eapply Hno, send_done|].
    destruct ctx as [e|]; [exfalso; by eapply (Hno (Fail e)), send_ctx|done].
  - intros (Hc & Hr & Hd & He) r. destruct 1; congruence.
Qed.
End chan.

(** The two checks that come first in both [Exchange]s. *)
Definition exchange_args (service peerID : string) : option error :=
  if decide (service = ""%string) then Some (ErrorString "signal: empty service")
  else if decide (peerID = ""%string) then Some (ErrorString "signal: empty peer id")
  else None.
