(* ===== verification/SignalClient.v ===== *)
(** * A session over a WebSocket (signal/ws.go, [WS.Exchange])

    The session [Exchange] returns, with its two pump goroutines, as a
    transition system.  Of the connection, [ReadMessage] returns the frames that
    arrived, in order, and an error once the connection is closed or lost;
    [WriteMessage] may fail at any time, and does after [conn.Close].
    The write mutex is never contended: only the outbound pump writes. *)

From Stdlib Require Import Strings.Byte ZArith Lia.
From stdpp Require Import numbers strings list relations.
From S2P Require Import Prelude Messages SignalWire Session.

(** ** Data *)

Inductive ws_message : Type := BinaryMessage (frame : bytes) | CloseMessage.

(** The outbound pump in its [select], with a message, and after its return; the
    inbound pump in [readFrame], with a message, after [close(in)], and after the
    deferred [cancel]. *)
Inductive opump : Type := OLoop | OWrite (msg : SignalMessage) | OExit.
Inductive ipump : Type := ILoop | IPush (msg : SignalMessage) | IReturn | IExit.

(** How far [Close] has come: [cancel()], [conn.Close()], [close(s.done)]. *)
Inductive closing : Type := COpen | CCanceled | CConn | CClosed.

#[export] Instance closing_eq_dec : EqDecision closing.
Proof. solve_decision. Defined.

(** The connection: frames [ReadMessage] has yet to return, why it was lost, our
    [Close], the messages written and the frames read. *)
Record conn : Type := {
  frames : list bytes;
  lost : option (error * bool);
  conn_closed : bool;
  wire : list ws_message;
  read : list bytes }.

(** The last four fields are the history of the session: the messages [Send]
    accepted, those the outbound pump is done with, those that entered the
    inbox, and those the application received. *)
Record session : Type := {
  service : string;
  peerID : string;
  out : chan SignalMessage;
  in_ : chan SignalMessage;
  done : bool;
  canceled : bool;
  ws : conn;
  outbound : opump;
  inbound : ipump;
  cleanup : closing;
  sent : list SignalMessage;
  cast : list SignalMessage;
  took : list SignalMessage;
  got : list SignalMessage }.

(** ** Field updates *)

Definition with_out (c : chan SignalMessage) (s : session) : session :=
  {| service := service s; peerID := peerID s; out := c; in_ := in_ s; done := done s; canceled := canceled s;
     ws := ws s; outbound := outbound s; inbound := inbound s; cleanup := cleanup s;
     sent := sent s; cast := cast s; took := took s; got := got s |}.

Definition with_in (c : chan SignalMessage) (s : session) : session :=
  {| service := service s; peerID := peerID s; out := out s; in_ := c; done := done s; canceled := canceled s;
     ws := ws s; outbound := outbound s; inbound := inbound s; cleanup := cleanup s;
     sent := sent s; cast := cast s; took := took s; got := got s |}.

Definition with_cancel (s : session) : session :=
  {| service := service s; peerID := peerID s; out := out s; in_ := in_ s; done := done s; canceled := true;
     ws := ws s; outbound := outbound s; inbound := inbound s; cleanup := cleanup s;
     sent := sent s; cast := cast s; took := took s; got := got s |}.

Definition with_done (s : session) : session :=
  {| service := service s; peerID := peerID s; out := out s; in_ := in_ s; done := true; canceled := canceled s;
     ws := ws s; outbound := outbound s; inbound := inbound s; cleanup := cleanup s;
     sent := sent s; cast := cast s; took := took s; got := got s |}.

Definition with_ws (c : conn) (s : session) : session :=
  {| service := service s; peerID := peerID s; out := out s; in_ := in_ s; done := done s; canceled := canceled s;
     ws := c; outbound := outbound s; inbound := inbound s; cleanup := cleanup s;
     sent := sent s; cast := cast s; took := took s; got := got s |}.

Definition with_outbound (p : opump) (s : session) : session :=
  {| service := service s; peerID := peerID s; out := out s; in_ := in_ s; done := done s; canceled := canceled s;
     ws := ws s; outbound := p; inbound := inbound s; cleanup := cleanup s;
     sent := sent s; cast := cast s; took := took s; got := got s |}.

Definition with_inbound (p : ipump) (s : session) : session :=
  {| service := service s; peerID := peerID s; out := out s; in_ := in_ s; done := done s; canceled := canceled s;
     ws := ws s; outbound := outbound s; inbound := p; cleanup := cleanup s;
     sent := sent s; cast := cast s; took := took s; got := got s |}.

Definition with_cleanup (c : closing) (s : session) : session :=
  {| service := service s; peerID := peerID s; out := out s; in_ := in_ s; done := done s; canceled := canceled s;
     ws := ws s; outbound := outbound s; inbound := inbound s; cleanup := c;
     sent := sent s; cast := cast s; took := took s; got := got s |}.

Definition with_past (snt cst tk gt : list SignalMessage) (s : session) : session :=
  {| service := service s; peerID := peerID s; out := out s; in_ := in_ s; done := done s; canceled := canceled s;
     ws := ws s; outbound := outbound s; inbound := inbound s; cleanup := cleanup s;
     sent := sent s ++ snt; cast := cast s ++ cst; took := took s ++ tk; got := got s ++ gt |}.

Definition written (m : ws_message) (c : conn) : conn :=
  {| frames := frames c; lost := lost c; conn_closed := conn_closed c; wire := wire c ++ [m]; read := read c |}.

Definition take_frame (f : bytes) (fs : list bytes) (c : conn) : conn :=
  {| frames := fs; lost := lost c; conn_closed := conn_closed c; wire := wire c; read := read c ++ [f] |}.

Definition close_conn (c : conn) : conn :=
  {| frames := frames c; lost := lost c; conn_closed := true; wire := wire c; read := read c |}.

Definition arrive (f : bytes) (c : conn) : conn :=
  {| frames := frames c ++ [f]; lost := lost c; conn_closed := conn_closed c; wire := wire c; read := read c |}.

Definition lose (e : error * bool) (c : conn) : conn :=
  {| frames := frames c; lost := Some e; conn_closed := conn_closed c; wire := wire c; read := read c |}.

Section client.
Context `{Codec Pb.SignalMessage}.

(** ** Exchange *)

Inductive conn_event : Type := Dialed (url : string) | Wrote (frame : bytes) | ConnClosed.

Definition new_session (srv peer : string) (announce : bytes) : session :=
  {| service := srv; peerID := peer; out := make_chan; in_ := make_chan; done := false; canceled := false;
     ws := {| frames := []; lost := None; conn_closed := false; wire := [BinaryMessage announce]; read := [] |};
     outbound := OLoop; inbound := ILoop; cleanup := COpen; sent := []; cast := []; took := []; got := [] |}.

(** [wsURL] is what the method of that name returned, [dial] and [write] the
    errors of [DialContext] and of the first [WriteMessage]; the events are what
    happens to the connection. *)
Definition Exchange (wsURL : string + error) (dial write : option error) (srv peer : string)
    : (session + error) * list conn_event :=
  match exchange_args srv peer with
  | Some err => (inr err, [])
  | None =>
  match wsURL with
  | inr err => (inr err, [])
  | inl url =>
  match dial with
  | Some err => (inr (wrapf ("signal: ws dial " +:+ quote url +:+ ": ") err), [])
  | None =>
  match announce_frame srv peer with
  | inr err => (inr (wrapf "signal: send announce: " err), [Dialed url; ConnClosed])
  | inl frame =>
  match write with
  | Some err => (inr (wrapf "signal: send announce: " err), [Dialed url; ConnClosed])
  | None => (inl (new_session srv peer frame), [Dialed url; Wrote frame])
  end end end end end.

(** ** The pumps *)

(** What the inbound pump does with the result of [conn.ReadMessage]. *)
Definition received (r : ws_read) (s : session) : session :=
  match client_readFrame r with
  | inr _ => with_inbound IReturn (with_in (close (in_ s)) s)
  | inl pb =>
      match fromProtoMessage pb with
      | None => with_inbound ILoop s
      | Some sm => with_inbound (IPush sm) s
      end
  end.

(** The non-blocking send on the inbox. *)
Definition push (m : SignalMessage) (s : session) : session :=
  with_inbound ILoop
    (if decide (has_room (in_ s)) then with_past [] [] [m] [] (with_in (enqueue m (in_ s)) s) else s).

(** The steps of the session's goroutines and of a [Close] that has begun. *)
Inductive pump_step : session → session → Prop :=
  | out_take s m q : outbound s = OLoop → queue (out s) = m :: q →
      pump_step s (with_outbound (OWrite m) (with_out (set_queue q (out s)) s))
  | out_half_close s : outbound s = OLoop → queue (out s) = [] → closed (out s) = true →
      conn_closed (ws s) = false →
      pump_step s (with_outbound OExit (with_ws (written CloseMessage (ws s)) s))
  | out_half_close_err s : outbound s = OLoop → queue (out s) = [] → closed (out s) = true →
      pump_step s (with_outbound OExit s)
  | out_ctx s : outbound s = OLoop → canceled s = true → pump_step s (with_outbound OExit s)
  | out_skip s m : outbound s = OWrite m → pump_out (service s) m = None →
      pump_step s (with_outbound OLoop (with_past [] [m] [] [] s))
  | out_marshal s m e : outbound s = OWrite m → pump_out (service s) m = Some (inr e) →
      pump_step s (with_outbound OExit s)
  | out_write s m f : outbound s = OWrite m → pump_out (service s) m = Some (inl f) →
      conn_closed (ws s) = false →
      pump_step s (with_outbound OLoop (with_past [] [m] [] [] (with_ws (written (BinaryMessage f) (ws s)) s)))
  | out_write_err s m f : outbound s = OWrite m → pump_out (service s) m = Some (inl f) →
      pump_step s (with_outbound OExit s)
  | in_frame s f fs : inbound s = ILoop → frames (ws s) = f :: fs →
      pump_step s (received (inl f) (with_ws (take_frame f fs (ws s)) s))
  | in_error s e : inbound s = ILoop → conn_closed (ws s) = true ∨ lost (ws s) = Some e →
      pump_step s (received (inr e) s)
  | in_push s m : inbound s = IPush m → pump_step s (push m s)
  | in_cancel s : inbound s = IReturn → pump_step s (with_inbound IExit (with_cancel s))
  | close_ws s : cleanup s = CCanceled →
      pump_step s (with_cleanup CConn (with_ws (close_conn (ws s)) s))
  | close_done s : cleanup s = CConn → pump_step s (with_cleanup CClosed (with_done s)).

(** The application, the caller's context, and the network. *)
Definition accept (m : SignalMessage) (s : session) : session :=
  let m := {| Service := service s; Body := Body m |} in
  with_past [m] [] [] [] (with_out (enqueue m (out s)) s).

Inductive env_step : session → session → Prop :=
  | send s m : Send_outcome None (out s) (done s) (Ok tt) → env_step s (accept m s)
  | receive s m q : queue (in_ s) = m :: q →
      env_step s (with_past [] [] [] [m] (with_in (set_queue q (in_ s)) s))
  | begin_close s : cleanup s = COpen → env_step s (with_cleanup CCanceled (with_cancel s))
  | ctx_done s : env_step s (with_cancel s)
  | net_frame s f : lost (ws s) = None → conn_closed (ws s) = false →
      env_step s (with_ws (arrive f (ws s)) s)
  | net_lost s e : lost (ws s) = None → env_step s (with_ws (lose e (ws s)) s).

Definition step (s s' : session) : Prop := pump_step s s' ∨ env_step s s'.

(** The states of a session that [Exchange] returned. *)
Definition reachable (s : session) : Prop :=
  ∃ url srv peer s0 evs, Exchange (inl url) None None srv peer = (inl s0, evs) ∧ rtc step s0 s.

(** ** The invariant *)

(** The frame the outbound pump makes of a message, if any. *)
Definition frame_of (srv : string) (m : SignalMessage) : option bytes :=
  match pump_out srv m with Some (inl f) => Some f | _ => None end.

(** The message the inbound pump makes of a frame, if any. *)
Definition message_of (f : bytes) : option SignalMessage :=
  match client_readFrame (inl f) with inl pb => fromProtoMessage pb | inr _ => None end.

Definition held_out (p : opump) : list SignalMessage := match p with OWrite m => [m] | _ => [] end.
Definition held_in (p : ipump) : list SignalMessage := match p with IPush m => [m] | _ => [] end.

Definition in_closed (p : ipump) : bool := match p with IReturn | IExit => true | _ => false end.
Definition conn_gone (c : closing) : bool := match c with CConn | CClosed => true | _ => false end.

Record session_ok (s : session) : Prop := {
  ok_wire : ∃ announce, announce_frame (service s) (peerID s) = inl announce ∧
    wire (ws s) = BinaryMessage announce :: map BinaryMessage (omap (frame_of (service s)) (cast s));
  ok_out : ∃ rest, sent s = cast s ++ rest ∧
    (outbound s ≠ OExit → rest = held_out (outbound s) ++ queue (out s));
  ok_in : took s ++ held_in (inbound s) `sublist_of` omap message_of (read (ws s));
  ok_got : took s = got s ++ queue (in_ s);
  ok_out_open : closed (out s) = false;
  ok_in_closed : closed (in_ s) = in_closed (inbound s);
  ok_done : done s = bool_decide (cleanup s = CClosed);
  ok_conn : conn_closed (ws s) = conn_gone (cleanup s);
  ok_canceled : cleanup s ≠ COpen ∨ inbound s = IExit → canceled s = true;
  ok_lost : in_closed (inbound s) = true → lost (ws s) ≠ None ∨ conn_gone (cleanup s) = true ∨
    ∃ f e, f ∈ read (ws s) ∧ decode_frame f = inr e }.

Lemma omap_snoc {A B} (g : A → option B) l x o :
  g x = o → omap g (l ++ [x]) = omap g l ++ option_list o.
Proof. intros <-. rewrite omap_app. cbn. by destruct (g x). Qed.

Lemma frame_skip srv m : pump_out srv m = None → frame_of srv m = None.
Proof. unfold frame_of. by intros ->. Qed.

Lemma frame_write srv m f : pump_out srv m = Some (inl f) → frame_of srv m = Some f.
Proof. unfold frame_of. by intros ->. Qed.

Lemma ws_ok_new srv peer announce :
  announce_frame srv peer = inl announce → session_ok (new_session srv peer announce).
Proof.
  intros Ha. split; cbn; try done; [by exists announce|by exists []|by intros [?|?]].
Qed.

Lemma ws_ok_push m s : inbound s = IPush m → session_ok s → session_ok (push m s).
Proof.
  intros Hi [Hw Ho Hin Hg Hoo Hic Hd Hc Hca Hl]. rewrite Hi in *. cbn in *. unfold push.
  destruct (decide (has_room (in_ s))); split; cbn in *; rewrite ?app_nil_r in *; try done.
  - by rewrite Hg, <- app_assoc.
  - intros [?|?]; auto; done.
  - etrans; [|exact Hin]. by apply sublist_inserts_r.
  - intros [?|?]; auto; done.
Qed.

Lemma ws_ok_frame f fs s :
  inbound s = ILoop → frames (ws s) = f :: fs → session_ok s →
  session_ok (received (inl f) (with_ws (take_frame f fs (ws s)) s)).
Proof.
  intros Hi Hf [Hw Ho Hin Hg Hoo Hic Hd Hc Hca Hl]. rewrite Hi in *. cbn in *. rewrite app_nil_r in Hin.
  assert (message_of f = match decode_frame f with inl pb => fromProtoMessage pb | inr _ => None end) as Hm by done.
  unfold received. cbn. destruct (decode_frame f) as [pb|e] eqn:Hdec.
  2: { split; cbn; rewrite ?omap_app, ?app_nil_r; cbn; rewrite ?Hm, ?app_nil_r; try done.
       - intros [?|?]; auto; done.
       - intros _. right. right. exists f, e. split; [set_solver|done]. }
  destruct (fromProtoMessage pb) as [sm|] eqn:Hsm; split; cbn;
    rewrite ?omap_app, ?app_nil_r; cbn; rewrite ?Hm, ?app_nil_r; try done; try (by intros [?|?]; auto).
  by apply sublist_app.
Qed.

Lemma ws_ok_error e s :
  inbound s = ILoop → conn_closed (ws s) = true ∨ lost (ws s) = Some e → session_ok s →
  session_ok (received (inr e) s).
Proof.
  intros Hi Hend [Hw Ho Hin Hg Hoo Hic Hd Hc Hca Hl]. rewrite Hi in *. destruct e as [e nm].
  split; cbn in *; rewrite ?app_nil_r in *; try done.
  - intros [?|?]; auto; done.
  - intros _. destruct Hend as [Hcl|Hlo]; [right; left; congruence|left; congruence].
Qed.

Lemma ws_ok_pump s s' : pump_step s s' → session_ok s → session_ok s'.
Proof.
  intros Hs Hok. destruct Hs as [s m q Hp Hq|s Hp Hq Hcl Hcc|s Hp Hq Hcl|s Hp Hcx|s m Hp Hf|s m e Hp Hf
    |s m f Hp Hf Hcc|s m f Hp Hf|s f fs Hp Hf|s e Hp He|s m Hp|s Hp|s Hp|s Hp];
    [..|by apply ws_ok_frame|by apply ws_ok_error|by apply ws_ok_push| | |];
    destruct Hok as [(ann & Ha & Hw) (rest & Ho & Hor) Hin Hg Hoo Hic Hd Hc Hca Hl];
    rewrite ?Hp, ?Hq, ?Hcl in *; try done;
    split; cbn in *; rewrite ?app_nil_r in *; try done;
    try (by exists ann); try (by exists rest); try (by intros [?|?]; auto).
  - exists rest. split; [done|]. intros _. by apply Hor.
  - exists ann. by rewrite (omap_snoc _ _ _ _ (frame_skip _ _ Hf)), app_nil_r.
  - exists (queue (out s)). by rewrite <- app_assoc, Ho, Hor.
  - exists ann. by rewrite (omap_snoc _ _ _ _ (frame_write _ _ _ Hf)), map_app, Hw.
  - exists (queue (out s)). by rewrite <- app_assoc, Ho, Hor.
  - by right; left.
Qed.

Lemma ws_ok_env s s' : env_step s s' → session_ok s → session_ok s'.
Proof.
  intros Hs Hok. destruct Hs as [s m Hsend|s m q Hq|s Hcl|s|s f Hf Hcc|s e He];
    destruct Hok as [(ann & Ha & Hw) (rest & Ho & Hor) Hin Hg Hoo Hic Hd Hc Hca Hl];
    rewrite ?Hcl in *; split; cbn in *; rewrite ?app_nil_r in *; try done;
    try (by exists ann); try (by exists rest).
  - exists (rest ++ [{| Service := service s; Body := Body m |}]). rewrite Ho, <- app_assoc.
    split; [done|]. intros Hx. by rewrite (Hor Hx), <- app_assoc.
  - by rewrite Hg, Hq, <- app_assoc.
  - by left.
Qed.

Lemma ws_ok_steps s s' : rtc step s s' → session_ok s → session_ok s'.
Proof.
  induction 1 as [|s s1 s' [Hs|Hs] _ IH]; [done| |]; intros Hok; apply IH;
    [by eapply ws_ok_pump|by eapply ws_ok_env].
Qed.

Lemma ws_reachable_ok s : reachable s → session_ok s.
Proof.
  intros (url & srv & peer & s0 & evs & HE & Hr). eapply ws_ok_steps; [exact Hr|].
  unfold Exchange in HE. destruct (exchange_args srv peer); [done|].
  destruct (announce_frame srv peer) as [ann|] eqn:Ha; [|done]. simplify_eq. by eapply ws_ok_new.
Qed.

(** ** What a session transmits *)

(** [C28] The streams of a WebSocket session. Whatever the pumps, the network, the
    application and [Close] do, the messages written to the connection are the
    announcement and then, in the order of the [Send]s and without repetition,
    the frames of the messages accepted so far that have a body; and what
    [Receive] has given and will give is, in order, a selection of the messages
    in the frames read. [Send] never panics, since nothing closes its channel:
    the close frame of the half-close is never written. *)
Theorem ws_session_streams s (Hr : reachable s) :
  (∃ announce, announce_frame (service s) (peerID s) = inl announce ∧
     wire (ws s) = map BinaryMessage (announce :: omap (frame_of (service s)) (cast s))) ∧
  cast s `prefix_of` sent s ∧
  got s ++ queue (in_ s) `sublist_of` omap message_of (read (ws s)) ∧
  (∀ ctx msg, ¬ Send_outcome ctx (out s) (done s) (Panic msg)) ∧
  CloseMessage ∉ wire (ws s).
Proof.
  destruct (ws_reachable_ok s Hr) as [(ann & Ha & Hw) (rest & Ho & _) Hin Hg Hoo _ _ _ _ _].
  split_and!.
  - by exists ann.
  - by exists rest.
  - rewrite <- Hg. etrans; [|exact Hin]. by apply sublist_inserts_r.
  - intros ctx msg Hs. inversion Hs. congruence.
  - rewrite Hw. intros Hc. apply elem_of_cons in Hc as [Hc|Hc]; [done|].
    by apply list_elem_of_fmap in Hc as (f & ? & _).
Qed.

(** ** How a session ends *)

(** What the goroutines have left to do without a new message. *)
Definition work (s : session) : nat :=
  (2 * length (queue (out s)) + match outbound s with OLoop => 1 | OWrite _ => 2 | OExit => 0 end +
  (2 * length (frames (ws s)) + match inbound s with ILoop => 2 | IPush _ => 3 | IReturn => 1 | IExit => 0 end) +
  match cleanup s with CCanceled => 2 | CConn => 1 | _ => 0 end)%nat.

Lemma ws_work_received r s : inbound s = ILoop →
  (work (received r s) ≤ match r with inl _ => work s + 1 | inr _ => work s - 1 end)%nat.
Proof.
  intros Hi. unfold received, work. destruct r as [f|[e nm]]; cbn.
  - destruct (decode_frame f) as [pb|]; cbn; [destruct (fromProtoMessage pb); cbn|]; rewrite Hi; lia.
  - rewrite Hi. lia.
Qed.

Lemma ws_work_decreases s s' : pump_step s s' → (work s' < work s)%nat.
Proof.
  intros Hs. destruct Hs as [s m q Hp Hq|s Hp Hq Hcl Hcc|s Hp Hq Hcl|s Hp Hcx|s m Hp Hf|s m e Hp Hf
    |s m f Hp Hf Hcc|s m f Hp Hf|s f fs Hp Hf|s e Hp He|s m Hp|s Hp|s Hp|s Hp].
  9: { pose proof (ws_work_received (inl f) (with_ws (take_frame f fs (ws s)) s) Hp) as Hle.
       cbn in Hle. unfold work in *. cbn in *. rewrite Hf in *. cbn [length]. lia. }
  9: { pose proof (ws_work_received (inr e) s Hp) as Hle. cbn in Hle. unfold work in *. rewrite Hp in *. lia. }
  all: unfold work, push in *; cbn; try case_decide; cbn; rewrite ?Hp, ?Hq; cbn [length]; lia.
Qed.

Lemma ws_work_bounds n s s' : nsteps pump_step n s s' → (n + work s' ≤ work s)%nat.
Proof. induction 1 as [|n s s1 s' H1 _ IH]; [done|]. apply ws_work_decreases in H1. lia. Qed.

(** The connection is closed or lost, or [Close] was called. *)
Definition ending (s : session) : Prop := lost (ws s) ≠ None ∨ cleanup s ≠ COpen.

Lemma ws_idle_pumps s :
  session_ok s → nf pump_step s → ending s →
  inbound s = IExit ∧ outbound s = OExit ∧ (cleanup s = COpen ∨ cleanup s = CClosed).
Proof.
  intros [_ _ _ _ _ _ _ Hc Hca _] Hnf He.
  assert (∀ s', ¬ pump_step s s') as Hno by (intros s' Hs; apply Hnf; by exists s').
  assert (cleanup s = COpen ∨ cleanup s = CClosed) as Hcl.
  { destruct (cleanup s) eqn:E; auto; exfalso; eapply Hno; [by apply close_ws|by apply close_done]. }
  assert (inbound s = IExit) as Hi.
  { destruct (inbound s) as [|m| |] eqn:Hi; [|by destruct (Hno _ (in_push s m Hi))
      |by destruct (Hno _ (in_cancel s Hi))|done].
    destruct He as [Hl|Hn].
    - destruct (lost (ws s)) as [e|] eqn:El; [|done]. destruct (Hno _ (in_error s e Hi (or_intror El))).
    - destruct Hcl as [|Hcl]; [done|].
      destruct (Hno _ (in_error s (EOF, false) Hi ltac:(left; by rewrite Hc, Hcl))). }
  split; [done|split; [|done]].
  destruct (outbound s) as [|m|] eqn:Ho; [by destruct (Hno _ (out_ctx s Ho (Hca (or_intror Hi))))| |done].
  destruct (pump_out (service s) m) as [[f|e]|] eqn:Hf.
  - destruct (Hno _ (out_write_err s m f Ho Hf)).
  - destruct (Hno _ (out_marshal s m e Ho Hf)).
  - destruct (Hno _ (out_skip s m Ho Hf)).
Qed.

(** The pumps neither begin a [Close] nor mend the connection. *)
Lemma ws_ending_steps s s' : rtc pump_step s s' →
  (ending s → ending s') ∧ (cleanup s = COpen ↔ cleanup s' = COpen).
Proof.
  assert (∀ r s, lost (ws (received r s)) = lost (ws s) ∧ cleanup (received r s) = cleanup s) as Hrc.
  { intros r s0. unfold received. destruct (client_readFrame r) as [pb|]; [destruct (fromProtoMessage pb)|]; done. }
  assert (∀ m s, lost (ws (push m s)) = lost (ws s) ∧ cleanup (push m s) = cleanup s) as Hpu.
  { intros m s0. unfold push. by case_decide. }
  induction 1 as [|s s1 s' H1 _ [IH1 IH2]]; [done|].
  assert ((ending s → ending s1) ∧ (cleanup s = COpen ↔ cleanup s1 = COpen)) as [Ha Hb];
    [|split; [auto|by rewrite Hb]].
  unfold ending.
  destruct H1 as [s m q Hp Hq|s Hp Hq Hcl Hcc|s Hp Hq Hcl|s Hp Hcx|s m Hp Hf|s m e Hp Hf
    |s m f Hp Hf Hcc|s m f Hp Hf|s f fs Hp Hf|s e Hp He|s m Hp|s Hp|s Hp|s Hp];
    rewrite ?(proj1 (Hrc _ _)), ?(proj2 (Hrc _ _)), ?(proj1 (Hpu _ _)), ?(proj2 (Hpu _ _)); cbn;
    try done; rewrite Hp; (split; [intros _; by right|by split]).
Qed.

(** [C24] A WebSocket session ends. Its goroutines and a [Close] that has begun
    take at most [work s] steps before they wait for a message. Once the
    connection is lost or [Close] was called, they stop only when both pumps
    have returned, the channel of [Receive] is closed with its messages still
    readable, and [Close] has returned. *)
Theorem ws_session_ends s (Hr : reachable s) :
  sn pump_step s ∧
  (∀ n s', nsteps pump_step n s s' → (n ≤ work s)%nat) ∧
  (ending s → ∀ s', rtc pump_step s s' → nf pump_step s' →
     outbound s' = OExit ∧ inbound s' = IExit ∧ closed (in_ s') = true ∧
     took s' = got s' ++ queue (in_ s') ∧
     if decide (cleanup s = COpen) then cleanup s' = COpen ∧ done s' = false
     else cleanup s' = CClosed ∧ done s' = true ∧ conn_closed (ws s') = true).
Proof.
  split_and!.
  - apply (wf_projected (R1:=flip pump_step) lt work); [|apply lt_wf]. intros s1 s2. apply ws_work_decreases.
  - intros n s' Hn. apply ws_work_bounds in Hn. lia.
  - intros He s' Hs Hnf.
    assert (session_ok s') as Hok.
    { eapply ws_ok_steps; [|by apply ws_reachable_ok]. eapply rtc_subrel; [|exact Hs]. by left. }
    pose proof (ws_ending_steps s s' Hs) as (He' & Hcl).
    destruct (ws_idle_pumps s' Hok Hnf (He' He)) as (Hi & Ho & Hcc).
    destruct Hok as [_ _ _ Hg _ Hic Hd Hc _ _]. split_and!; try done; [by rewrite Hic, Hi|].
    destruct (decide (cleanup s = COpen)) as [E|E]; [rewrite Hd; apply Hcl in E; by rewrite E|].
    destruct Hcc as [Hcc|Hcc]; [by apply Hcl in Hcc|]. by rewrite Hd, Hc, Hcc.
Qed.

(** ** What [Send] means once the outbound pump has returned *)

Lemma ended_step s s' : step s s' → outbound s = OExit →
  outbound s' = OExit ∧ wire (ws s') = wire (ws s) ∧
  ∃ more, sent s' = sent s ++ more ∧ queue (out s') = queue (out s) ++ more.
Proof.
  intros [Hs|Hs] Ho.
  - assert (sent s = sent s ++ [] ∧ queue (out s) = queue (out s) ++ []) as [H1 H2] by (by rewrite !app_nil_r).
    destruct Hs; try congruence; try (split; [done|split; [done|by exists []]]).
    + unfold received. cbn. destruct (decode_frame f); [destruct (fromProtoMessage _)|];
        (split; [done|split; [done|by exists []]]).
    + destruct e as [e nm]. split; [done|split; [done|by exists []]].
    + unfold push. case_decide; (split; [done|split; [done|]]); exists []; cbn; by rewrite ?app_nil_r.
  - destruct Hs; (split; [done|split; [done|]]); try (by exists []; cbn; rewrite ?app_nil_r). by eexists.
Qed.

Lemma ended_steps s s' : rtc step s s' → outbound s = OExit →
  outbound s' = OExit ∧ wire (ws s') = wire (ws s) ∧
  ∃ more, sent s' = sent s ++ more ∧ queue (out s') = queue (out s) ++ more.
Proof.
  induction 1 as [|s s1 s' H1 _ IH]; intros Ho.
  - split; [done|split; [done|]]. exists []. by rewrite !app_nil_r.
  - destruct (ended_step s s1 H1 Ho) as (Ho1 & Hw1 & m1 & Hs1 & Hq1).
    destruct (IH Ho1) as (Ho2 & Hw2 & m2 & Hs2 & Hq2). split; [done|]. split; [congruence|].
    exists (m1 ++ m2). by rewrite Hs2, Hs1, Hq2, Hq1, <- !app_assoc.
Qed.

(** Messages lost without an error. Once the outbound pump has returned (the
    connection failed, or the context was canceled), nothing is ever written
    again and what [Send] accepts stays in its channel; yet until the last
    section of [Close] a [Send] has no way to fail: it succeeds while the
    channel has room, and blocks when it is full. After [Close] the [select]
    may still accept the message instead of returning the error. *)
Theorem ws_send_lost s s' (Hr : reachable s) (Ho : outbound s = OExit) (Hs : rtc step s s') :
  wire (ws s') = wire (ws s) ∧ cast s' `prefix_of` sent s' ∧
  (∃ more, sent s' = sent s ++ more ∧ queue (out s') = queue (out s) ++ more) ∧
  (∀ r, Send_outcome None (out s') (done s') r ↔
     (r = Ok tt ∧ has_room (out s')) ∨
     (r = Fail (ErrorString "signal: session closed") ∧ cleanup s' = CClosed)).
Proof.
  destruct (ended_steps s s' Hs Ho) as (_ & Hw & Hmore).
  destruct (ws_ok_steps s s' Hs (ws_reachable_ok s Hr)) as [_ (rest & Hc & _) _ _ Hoo _ Hd _ _ _].
  split; [done|]. split; [by exists rest|]. split; [done|]. intros r. split.
  - destruct 1; [by left|congruence| |done]. right. split; [done|].
    rewrite Hd in *. by eapply bool_decide_eq_true_1.
  - intros [[-> Hroom]|[-> Hcl]]; [by apply send_accept|]. apply send_done.
    by rewrite Hd, bool_decide_eq_true_2.
Qed.

End client.

(** ** Examples *)

Definition ex_msg (sdp : string) : SignalMessage :=
  {| Service := ""; Body := {| Announce := None; Offer := Some sdp; Answer := None; Cand := None;
                               Leave := None; Ping := None |} |}.

(** A codec that knows the announcement of peer p and one offer. *)
#[local] Instance ex_ws_codec : Codec Pb.SignalMessage := table_codec
  [{| Pb.Service := "s"; Pb.body := Some (Pb.SignalMessage_Announce (Some
      {| Pb.PeerId := "p"; Pb.PeerPubkey := None; Pb.Role := RoleClient |})) |};
   {| Pb.Service := "s"; Pb.body := Some (Pb.SignalMessage_Offer (Some "v=0"%string)) |}].

Definition ex_start : session :=
  match Exchange (inl "ws://h/ws"%string) None None "s" "p" with
  | (inl s, _) => s
  | (inr _, _) => new_session "" "" []
  end.

Lemma ex_reachable s : rtc step ex_start s → reachable s.
Proof.
  intros Hr. exists "ws://h/ws"%string, "s"%string, "p"%string, ex_start.
  eexists. split; [vm_compute; reflexivity|exact Hr].
Qed.

Definition ex_stamped : SignalMessage := {| Service := "s"; Body := Body (ex_msg "v=0") |}.

(** An offer is sent and written; one arrives, is read and received. *)
Definition ex_sent : session := accept (ex_msg "v=0") ex_start.
Definition ex_taken : session :=
  with_outbound (OWrite ex_stamped) (with_out (set_queue [] (out ex_sent)) ex_sent).
Definition ex_frame : bytes := default [] (frame_of "s" (ex_msg "v=0")).
Definition ex_written : session :=
  with_outbound OLoop (with_past [] [ex_stamped] [] []
    (with_ws (written (BinaryMessage ex_frame) (ws ex_taken)) ex_taken)).
Definition ex_arrived : session := with_ws (arrive ex_frame (ws ex_written)) ex_written.
Definition ex_in : session := received (inl ex_frame) (with_ws (take_frame ex_frame [] (ws ex_arrived)) ex_arrived).
Definition ex_pushed : session := push ex_stamped ex_in.

Lemma ex_pushed_steps : rtc step ex_start ex_pushed.
Proof.
  eapply rtc_l; [right; apply (send _ (ex_msg "v=0")), send_accept;
                 [by vm_compute|by apply (bool_decide_unpack _); vm_compute]|].
  eapply rtc_l; [left; apply (out_take ex_sent ex_stamped []); by vm_compute|].
  eapply rtc_l; [left; apply (out_write ex_taken ex_stamped ex_frame); by vm_compute|].
  eapply rtc_l; [right; apply (net_frame ex_written ex_frame); by vm_compute|].
  eapply rtc_l; [left; apply (in_frame ex_arrived ex_frame []); by vm_compute|].
  eapply rtc_l; [left; apply (in_push ex_in ex_stamped); by vm_compute|]. apply rtc_refl.
Qed.

Lemma ws_session_streams_witness :
  length (wire (ws ex_pushed)) = 2%nat ∧ length (queue (in_ ex_pushed)) = 1%nat ∧
  cast ex_pushed `prefix_of` sent ex_pushed ∧ CloseMessage ∉ wire (ws ex_pushed).
Proof.
  split; [by vm_compute|]. split; [by vm_compute|].
  destruct (ws_session_streams ex_pushed (ex_reachable _ ex_pushed_steps)) as (_ & Hp & _ & _ & Hc).
  by split.
Defined.

(** The connection is lost. *)
Definition ex_lost : session := with_ws (lose (EOF, false) (ws ex_pushed)) ex_pushed.

Lemma ex_lost_steps : rtc step ex_start ex_lost.
Proof. eapply rtc_r; [exact ex_pushed_steps|right; by apply (net_lost ex_pushed (EOF, false))]. Qed.

Lemma ws_session_ends_witness :
  work ex_lost = 3%nat ∧
  ∀ s', rtc pump_step ex_lost s' → nf pump_step s' →
    outbound s' = OExit ∧ inbound s' = IExit ∧ closed (in_ s') = true ∧
    took s' = got s' ++ queue (in_ s') ∧ cleanup s' = COpen ∧ done s' = false.
Proof.
  split; [by vm_compute|].
  apply (ws_session_ends ex_lost (ex_reachable _ ex_lost_steps)). left. by vm_compute.
Defined.

(** Both pumps have returned, and then thirty-two messages are sent. *)
Definition ex_ended : session :=
  with_outbound OExit (with_inbound IExit (with_cancel (with_inbound IReturn (with_in (close (in_ ex_lost)) ex_lost)))).
Definition ex_full : session := Nat.iter 32 (accept (ex_msg "v=0")) ex_ended.

Lemma ex_ended_steps : rtc step ex_start ex_ended.
Proof.
  etrans; [exact ex_lost_steps|].
  eapply rtc_l; [left; apply (in_error ex_lost (EOF, false)); [by vm_compute|right; by vm_compute]|].
  eapply rtc_l; [left; apply in_cancel; by vm_compute|].
  eapply rtc_l; [left; apply out_ctx; by vm_compute|]. apply rtc_refl.
Qed.

Lemma ex_full_steps n : (n ≤ 32)%nat → rtc step ex_ended (Nat.iter n (accept (ex_msg "v=0")) ex_ended).
Proof.
  assert (∀ n, length (queue (out (Nat.iter n (accept (ex_msg "v=0")) ex_ended))) = n ∧
    closed (out (Nat.iter n (accept (ex_msg "v=0")) ex_ended)) = false) as Hn.
  { clear n. induction n as [|n [IH1 IH2]]; [done|].
    change (Nat.iter (S n) _ _) with (accept (ex_msg "v=0") (Nat.iter n (accept (ex_msg "v=0")) ex_ended)).
    unfold accept at 1 3. cbn [out with_past with_out enqueue queue closed]. rewrite length_app, IH1. cbn [length].
    split; [lia|done]. }
  induction n as [|n IH]; intros Hle; [apply rtc_refl|].
  eapply rtc_r; [apply IH; lia|]. right. apply send, send_accept; [apply Hn|].
  eapply Nat.le_lt_trans; [apply Nat.eq_le_incl, Hn|unfold chan_cap; lia].
Qed.

Lemma ws_send_lost_witness :
  cleanup ex_full = COpen ∧ wire (ws ex_full) = wire (ws ex_ended) ∧
  (∀ r, Send_outcome None (out ex_full) (done ex_full) r ↔
     (r = Ok tt ∧ has_room (out ex_full)) ∨
     (r = Fail (ErrorString "signal: session closed") ∧ cleanup ex_full = CClosed)) ∧
  ¬ has_room (out ex_full).
Proof.
  split; [by vm_compute|].
  destruct (ws_send_lost ex_ended ex_full (ex_reachable _ ex_ended_steps) eq_refl (ex_full_steps 32 ltac:(lia)))
    as (Hw & _ & _ & Hs).
  split; [exact Hw|]. split; [exact Hs|]. unfold has_room, chan_cap. vm_compute. lia.
Defined.
