(* ===== verification/SignalEnd.v ===== *)
(** * Signaling from client to client

    Two clients of signal/ws.go, the server of signalserver/ws.go and the store
    of signalserver/store, composed: the announcements, the read loop of one
    connection, the pump of the other, and the client's inbound pump. *)

From Stdlib Require Import Strings.Byte ZArith Lia.
From stdpp Require Import numbers strings gmap fin_maps relations list.
From S2P Require Import Prelude Messages SignalStore SignalStoreProps SignalStoreSpec SignalWire SignalServer Session.
Open Scope Z_scope.

Section compose.
Context `{Codec Pb.SignalMessage}.

(** The read loop of [serveWebSocket] over what [conn.ReadMessage] returns, up to
    the error that ends it. *)
Fixpoint ws_loop (peer : Peer) (sx : memorySender) (rs : list SignalWire.ws_read) (m : WMemory)
    : ws_conn * WMemory :=
  match rs with
  | [] => (WsServing peer sx, m)
  | r :: rs =>
      match ws_read peer sx (server_readFrame r) m with
      | (WsServing peer sx, m) => ws_loop peer sx rs m
      | (c, m) => (c, m)
      end
  end.

(** Up to [n] turns of the pump goroutine: the frames it writes, until it would
    block, or ends at a closed inbox or a failed [writeFrame]. *)
Fixpoint ws_drain (n : nat) (sx : memorySender) (m : WMemory) : list bytes * WMemory :=
  match n with
  | O => ([], m)
  | S n =>
      match ws_pump sx m with
      | Some (Some (inl f), m) => let '(fs, m) := ws_drain n sx m in (f :: fs, m)
      | Some (_, m) => ([], m)
      | None => ([], m)
      end
  end.

(** The client's inbound pump over the frames it reads. *)
Definition client_loop (fs : list bytes) (inbox : list SignalMessage) : option (list SignalMessage) :=
  foldl (λ q f, q ← q; pump_in (inl f) q) (Some inbox) fs.

(** ** Sending leaves the sessions in place *)

Lemma broadcast_tables from msg ps (m : WMemory) :
  services (broadcast from msg ps m).2 = services m ∧ svc_heap (broadcast from msg ps m).2 = svc_heap m.
Proof.
  revert m. induction ps as [|[id l] ps IH]; intros m; [done|]. cbn.
  case_bool_decide; [apply IH|]. destruct (peer_heap m !! l) as [p|]; [|apply IH].
  destruct (push msg p) as [p'| |]; [|done..]. destruct (IH (set_peer l p' m)) as [-> ->]. done.
Qed.

Lemma send_tables sx body (m : WMemory) :
  services (WSend sx body m).2 = services m ∧ svc_heap (WSend sx body m).2 = svc_heap m.
Proof. unfold SignalStore.Send. destruct (peer_heap m !! sx_peer sx); [apply broadcast_tables|done]. Qed.

Lemma live_session_send peer sx sx' body (m : WMemory) :
  live_session m peer sx → live_session (WSend sx' body m).2 peer sx.
Proof. unfold live_session, peers_of. by destruct (send_tables sx' body m) as [-> ->]. Qed.

Lemma live_session_join peer sx peer' sx' (m m' : WMemory) :
  live_session m peer sx → SignalStore.Service peer' = SignalStore.Service peer → ID peer' ≠ ID peer →
  Join peer' m = (inl sx', m') → live_session m' peer sx.
Proof.
  intros [Hs Hp] Hsv Hid. unfold Join, serviceForJoin, join_insert. rewrite Hsv.
  destruct (_ || _); [done|]. rewrite Hs. destruct (peers_of _ m !! ID peer'); [done|].
  case_decide; [done|]. intros [= <- <-].
  split; [done|]. unfold peers_of in *. cbn. rewrite lookup_insert, decide_True by done. cbn.
  by rewrite lookup_insert_ne.
Qed.

Lemma live_inbox peer sx (m : WMemory) :
  live_session m peer sx →
  ∃ ps, abs m !! SignalStore.Service peer = Some ps ∧ ps !! ID peer = Some (inbox_of m (sx_peer sx)).
Proof.
  intros [Hs Hp]. exists (inbox_of m <$> peers_of (sx_service sx) m).
  split; [by apply abs_lookup|]. by rewrite lookup_fmap, Hp.
Qed.

Lemma live_peer peer sx (m : WMemory) :
  SWF m → live_session m peer sx → is_Some (peer_heap m !! sx_peer sx).
Proof.
  intros [[names HWF] _ _] [_ Hp]. apply peers_of_member in Hp.
  destruct (wf_member _ _ HWF _ _ _ Hp) as (p & -> & _). by eexists.
Qed.

(** ** One broadcast, between two live sessions of a service *)

Definition stored (srv from : string) (pb : Pb.SignalMessage) : @SignalStore.SignalMessage Pb.SignalMessage :=
  {| sm_Service := srv; sm_SenderID := from; sm_Body := Pb.with_Service srv pb |}.

Lemma send_between a sa b sb pb (m : WMemory) :
  SWF m → live_session m a sa → live_session m b sb →
  SignalStore.Service a = SignalStore.Service b → ID a ≠ ID b →
  (length (inbox_of m (sx_peer sb)) < inbox_cap)%nat →
  ∃ m', ws_read a sa (inl pb) m = (WsServing a sa, m') ∧ SWF m' ∧
    live_session m' a sa ∧ live_session m' b sb ∧
    inbox_of m' (sx_peer sa) = inbox_of m (sx_peer sa) ∧
    inbox_of m' (sx_peer sb) = inbox_of m (sx_peer sb) ++ [stored (SignalStore.Service b) (ID a) pb].
Proof.
  intros HS Ha Hb Hsv Hid Hroom. unfold ws_read.
  set (body := Pb.with_Service (SignalStore.Service a) pb).
  destruct (send_refines a sa body m HS Ha) as (m' & HSend & HS' & Habs).
  pose proof (live_session_send a sa sa body m Ha) as Ha'.
  pose proof (live_session_send b sb sa body m Hb) as Hb'.
  rewrite HSend in *. cbn [snd] in *. exists m'. split; [done|].
  destruct (live_inbox a sa m Ha) as (ps & Hps & Hpa), (live_inbox b sb m Hb) as (ps' & Hps' & Hpb).
  destruct (live_inbox a sa m' Ha') as (qs & Hqs & Hqa), (live_inbox b sb m' Hb') as (qs' & Hqs' & Hqb).
  rewrite Hsv in Hps, Hqs. assert (ps' = ps) as -> by congruence. assert (qs' = qs) as -> by congruence.
  rewrite Habs in Hqs. unfold spec_send in Hqs. rewrite Hsv, Hps, lookup_insert, decide_True in Hqs by done.
  injection Hqs as <-. rewrite map_lookup_imap, Hpa in Hqa. rewrite map_lookup_imap, Hpb in Hqb.
  cbn in Hqa, Hqb. unfold spec_push in *. rewrite bool_decide_eq_true_2 in Hqa by done.
  rewrite bool_decide_eq_false_2 in Hqb by congruence. rewrite decide_True in Hqb by done.
  injection Hqa as <-. injection Hqb as <-. unfold stored, body. rewrite Hsv. by split_and!.
Qed.

(** ** The three loops *)

Lemma loop_between a sa b sb fs pbs :
  Forall2 (λ f pb, decode_frame f = inl pb) fs pbs → ∀ m : WMemory,
  SWF m → live_session m a sa → live_session m b sb →
  SignalStore.Service a = SignalStore.Service b → ID a ≠ ID b →
  (length (inbox_of m (sx_peer sb)) + length pbs ≤ inbox_cap)%nat →
  ∃ m', ws_loop a sa (inl <$> fs) m = (WsServing a sa, m') ∧ SWF m' ∧ live_session m' b sb ∧
    inbox_of m' (sx_peer sa) = inbox_of m (sx_peer sa) ∧
    inbox_of m' (sx_peer sb) = inbox_of m (sx_peer sb) ++ (stored (SignalStore.Service b) (ID a) <$> pbs).
Proof.
  induction 1 as [|f pb fs pbs Hf _ IH]; intros m HS Ha Hb Hsv Hid Hlen; cbn [length fmap list_fmap] in *.
  { exists m. by rewrite app_nil_r. }
  destruct (send_between a sa b sb pb m HS Ha Hb Hsv Hid) as (m1 & Hr & HS1 & Ha1 & Hb1 & Hia & Hib); [lia|].
  destruct (IH m1 HS1 Ha1 Hb1 Hsv Hid) as (m' & Hl & HS' & Hb' & Hia' & Hib').
  { rewrite Hib, length_app. cbn. lia. }
  exists m'. cbn [ws_loop]. cbn [server_readFrame]. rewrite Hf, Hr. split; [done|]. split; [done|]. split; [done|].
  split; [congruence|]. by rewrite Hib', Hib, <- app_assoc.
Qed.

Lemma drain_inbox sx msgs fs :
  Forall2 (λ msg f, writeFrame (sm_Body msg) = inl f) msgs fs → ∀ m : WMemory,
  is_Some (peer_heap m !! sx_peer sx) → inbox_of m (sx_peer sx) = msgs →
  (ws_drain (length msgs) sx m).1 = fs ∧ inbox_of (ws_drain (length msgs) sx m).2 (sx_peer sx) = [].
Proof.
  induction 1 as [|msg f msgs fs Hf _ IH]; intros m [p Hp] Hi; [done|].
  assert (mp_inbox p = msg :: msgs) as Hq by (unfold inbox_of in Hi; by rewrite Hp in Hi).
  cbn [length ws_drain]. unfold ws_pump, Recv. rewrite Hp. cbn [mbind option_bind]. rewrite Hq. cbn [mbind option_bind].
  rewrite Hf. set (m1 := set_peer _ _ m).
  destruct (IH m1) as [H1 H2].
  - unfold m1. cbn. rewrite lookup_insert, decide_True by done. by eexists.
  - unfold m1, inbox_of. cbn. by rewrite lookup_insert, decide_True.
  - destruct (ws_drain (length msgs) sx m1) as [gs m2]. cbn in *. by subst.
Qed.

Lemma client_reads fs ds q :
  Forall2 (λ f d, match decode_frame f with inl pb => fromProtoMessage pb = Some d | inr _ => False end) fs ds →
  (length q + length ds ≤ in_cap)%nat →
  foldl (λ q f, q ← q; pump_in (inl f) q) (Some q) fs = Some (q ++ ds).
Proof.
  intros HF. revert q. induction HF as [|f d fs ds Hf _ IH]; intros q Hlen; cbn [foldl length] in *.
  { by rewrite app_nil_r. }
  cbn [mbind option_bind]. unfold pump_in at 2. cbn [client_readFrame].
  destruct (decode_frame f) as [pb|]; [|done]. rewrite Hf, decide_True by lia.
  rewrite IH by (rewrite length_app; cbn; lia). by rewrite <- app_assoc.
Qed.

(** ** Announcing *)

Context `{!CodecLaws Pb.SignalMessage}.

Definition peer_at (srv id : string) : Peer := {| ID := id; SignalStore.Service := srv |}.

Lemma announce_joins srv a frame (m : WMemory) :
  SWF m → exchange_args srv a = None → announce_frame srv a = inl frame → len frame < two32 →
  let ps := default ∅ (abs m !! srv) in
  ps !! a = None → (size ps < MaxPeersPerService)%nat →
  ∃ sx m', ws_announce (server_readFrame (inl frame)) m = (WsServing (peer_at srv a) sx, m') ∧
    Join (peer_at srv a) m = (inl sx, m') ∧ SWF m' ∧ live_session m' (peer_at srv a) sx ∧
    abs m' = <[srv := <[a := []]> ps]> (abs m).
Proof.
  intros HS Hargs Hf Hlen ps Hfree Hroom.
  assert (srv ≠ ""%string ∧ a ≠ ""%string) as [Hsv Ha]
    by (unfold exchange_args in Hargs; repeat case_decide; done).
  pose proof (join_refines (peer_at srv a) m HS) as Hj. unfold spec_join in Hj. cbn in Hj. fold ps in Hj.
  rewrite !bool_decide_eq_false_2 in Hj by done. cbn [orb] in Hj. rewrite Hfree in Hj.
  rewrite decide_False in Hj by lia.
  destruct (Join (peer_at srv a) m) as [[sx|e] m'] eqn:HJ; [|by destruct Hj as (_ & _ & [=] & _)].
  destruct Hj as (HS' & Habs & _ & Hl1 & Hl2). exists sx, m'. split; [|by split_and!].
  unfold announce_frame in Hf. cbn [server_readFrame]. rewrite (decode_writeFrame _ _ Hf) by done. cbn.
  rewrite !bool_decide_eq_false_2 by done. cbn [orb]. unfold peer_at in HJ. by rewrite HJ.
Qed.

(** What a client's outbound pump writes, and the other ends make of it. *)
Lemma pump_frame srv msg f :
  pump_out srv msg = Some (inl f) → len f < two32 →
  ∃ pb, decode_frame f = inl pb ∧ writeFrame (Pb.with_Service srv pb) = inl f ∧
    fromProtoMessage pb = Some {| Service := srv; Body := first_body (Body msg) |}.
Proof.
  unfold pump_out. destruct (toProtoMessage msg) as [pb|] eqn:Hto; [|done]. intros [= Hw] Hl.
  exists (Pb.with_Service srv pb). split_and!; [by apply decode_writeFrame|done|by apply from_to].
Qed.

Lemma pump_frames srv ms fs :
  Forall2 (λ msg f, pump_out srv msg = Some (inl f) ∧ len f < two32) ms fs →
  ∃ pbs, length pbs = length ms ∧
    Forall2 (λ f pb, decode_frame f = inl pb) fs pbs ∧
    (∀ from, Forall2 (λ msg f, writeFrame (sm_Body msg) = inl f) (stored srv from <$> pbs) fs) ∧
    Forall2 (λ f d, match decode_frame f with inl pb => fromProtoMessage pb = Some d | inr _ => False end)
      fs ((λ msg, {| Service := srv; Body := first_body (Body msg) |}) <$> ms).
Proof.
  induction 1 as [|msg f ms fs [Hp Hl] _ (pbs & Hlen & H1 & H2 & H3)]; [by exists []|].
  destruct (pump_frame srv msg f Hp Hl) as (pb & Hd & Hw & Hfrom).
  exists (pb :: pbs). split_and!; [by cbn; rewrite Hlen|by constructor| |].
  - intros from. constructor; [done|apply H2].
  - cbn. constructor; [by rewrite Hd|done].
Qed.
End compose.

(** [C17] Signaling from client to client. Two clients announce themselves in a
    service with room for both, under free and different names; the server
    admits them from the bytes of their first frames. Whatever messages the one
    then sends (up to the capacity of the inboxes), the server's read loop takes
    the frames its outbound pump wrote, nothing comes back to the sender, and
    the frames the server writes to the other make its inbound pump deliver
    exactly these messages, in order, each with the body it had and the name of
    the service. *)
Theorem signaling_end_to_end `{CodecLaws Pb.SignalMessage} (m : WMemory) srv a b fa fb ms fs
    (HS : SWF m) (Hab : a ≠ b) (Harga : exchange_args srv a = None) (Hargb : exchange_args srv b = None)
    (Hfa : announce_frame srv a = inl fa) (Hfb : announce_frame srv b = inl fb)
    (Hla : len fa < two32) (Hlb : len fb < two32)
    (Ha : default ∅ (abs m !! srv) !! a = None) (Hb : default ∅ (abs m !! srv) !! b = None)
    (Hroom : (size (default ∅ (abs m !! srv)) + 2 ≤ MaxPeersPerService)%nat)
    (Hms : Forall2 (λ msg f, pump_out srv msg = Some (inl f) ∧ len f < two32) ms fs)
    (Hlen : (length ms ≤ inbox_cap)%nat) :
  ∃ sa sb m1 m2 m3 m4 gs,
    ws_announce (server_readFrame (inl fa)) m = (WsServing (peer_at srv a) sa, m1) ∧
    ws_announce (server_readFrame (inl fb)) m1 = (WsServing (peer_at srv b) sb, m2) ∧
    ws_loop (peer_at srv a) sa (inl <$> fs) m2 = (WsServing (peer_at srv a) sa, m3) ∧
    inbox_of m3 (sx_peer sa) = [] ∧
    ws_drain (length ms) sb m3 = (gs, m4) ∧ inbox_of m4 (sx_peer sb) = [] ∧
    client_loop gs [] = Some ((λ msg, {| Service := srv; Body := first_body (Body msg) |}) <$> ms).
Proof.
  destruct (announce_joins srv a fa m HS Harga Hfa Hla Ha) as (sa & m1 & Ha1 & _ & HS1 & Hlive1 & Habs1); [lia|].
  assert (default ∅ (abs m1 !! srv) = <[a := []]> (default ∅ (abs m !! srv))) as Hps1
    by (by rewrite Habs1, lookup_insert, decide_True).
  destruct (announce_joins srv b fb m1 HS1 Hargb Hfb Hlb) as (sb & m2 & Hb2 & HJ2 & HS2 & Hlive2 & Habs2).
  { rewrite Hps1. by rewrite lookup_insert_ne. }
  { rewrite Hps1, map_size_insert_None by done. lia. }
  assert (live_session m2 (peer_at srv a) sa) as Hlive2a by (apply (live_session_join _ _ (peer_at srv b) sb m1); [done|done|by apply not_eq_sym|done]).
  destruct (live_inbox _ _ _ Hlive2a) as (psa & Hpsa & Hia), (live_inbox _ _ _ Hlive2) as (psb & Hpsb & Hib).
  rewrite Habs2 in Hpsa, Hpsb. cbn in *. rewrite lookup_insert, decide_True in Hpsa, Hpsb by done.
  injection Hpsa as <-. injection Hpsb as <-.
  rewrite lookup_insert_ne, Hps1, lookup_insert, decide_True in Hia by done. injection Hia as Hia.
  rewrite lookup_insert, decide_True in Hib by done. injection Hib as Hib.
  destruct (pump_frames srv ms fs Hms) as (pbs & Hlp & Hd & Hw & Hc).
  destruct (loop_between (peer_at srv a) sa (peer_at srv b) sb fs pbs Hd m2 HS2 Hlive2a Hlive2)
    as (m3 & Hloop & HS3 & Hlive3 & Hia3 & Hib3); [done|done|rewrite <- Hib; cbn; lia|].
  rewrite <- Hib in Hib3. cbn in Hib3.
  destruct (drain_inbox sb (stored srv a <$> pbs) fs (Hw a) m3 (live_peer _ _ _ HS3 Hlive3) Hib3) as [Hg Hi4].
  rewrite length_fmap, Hlp in Hg, Hi4. destruct (ws_drain (length ms) sb m3) as [gs m4] eqn:Hdr.
  cbn in Hg, Hi4. subst gs. exists sa, sb, m1, m2, m3, m4, fs. split_and!; try done; [congruence|].
  unfold client_loop. apply (client_reads fs _ [] Hc). rewrite length_fmap. exact Hlen.
Qed.

(** ** An example *)

Definition ex_announce_pb (id : string) : Pb.SignalMessage :=
  {| Pb.Service := "s"; Pb.body := Some (Pb.SignalMessage_Announce (Some
      {| Pb.PeerId := id; Pb.PeerPubkey := None; Pb.Role := RoleClient |})) |}.

Definition ex_offer_pb (sdp : string) : Pb.SignalMessage :=
  {| Pb.Service := "s"; Pb.body := Some (Pb.SignalMessage_Offer (Some sdp)) |}.

Definition ex_sends (sdp : string) : SignalMessage :=
  {| Service := ""; Body := {| Announce := None; Offer := Some sdp; Answer := None; Cand := None;
                               Leave := None; Ping := None |} |}.

#[local] Instance ex_end_codec : Codec Pb.SignalMessage :=
  table_codec [ex_announce_pb "a"; ex_announce_pb "b"; ex_offer_pb "x"; ex_offer_pb "y"].
#[local] Instance ex_end_laws : CodecLaws Pb.SignalMessage.
Proof. apply table_codec_laws, Nat.leb_le. by vm_compute. Qed.

Definition ex_bytes (r : bytes + error) : bytes := match r with inl b => b | inr _ => [] end.

Lemma signaling_end_to_end_witness :
  ∃ sa sb m1 m2 m3 m4 gs,
    ws_announce (server_readFrame (inl (ex_bytes (announce_frame "s" "a")))) NewMemory = (WsServing (peer_at "s" "a") sa, m1) ∧
    ws_announce (server_readFrame (inl (ex_bytes (announce_frame "s" "b")))) m1 = (WsServing (peer_at "s" "b") sb, m2) ∧
    ws_loop (peer_at "s" "a") sa
      (inl <$> [ex_bytes (writeFrame (ex_offer_pb "x")); ex_bytes (writeFrame (ex_offer_pb "y"))]) m2
      = (WsServing (peer_at "s" "a") sa, m3) ∧
    inbox_of m3 (sx_peer sa) = [] ∧
    ws_drain 2 sb m3 = (gs, m4) ∧ inbox_of m4 (sx_peer sb) = [] ∧
    client_loop gs [] = Some [{| Service := "s"; Body := Body (ex_sends "x") |};
                              {| Service := "s"; Body := Body (ex_sends "y") |}].
Proof.
  apply (signaling_end_to_end NewMemory "s" "a" "b" (ex_bytes (announce_frame "s" "a")) (ex_bytes (announce_frame "s" "b"))
    [ex_sends "x"; ex_sends "y"] [ex_bytes (writeFrame (ex_offer_pb "x")); ex_bytes (writeFrame (ex_offer_pb "y"))]);
    [apply SWF_init|done|by vm_compute|by vm_compute|by vm_compute|by vm_compute|by vm_compute|by vm_compute
    |by vm_compute|by vm_compute|apply Nat.leb_le; by vm_compute| |apply Nat.leb_le; by vm_compute].
  repeat constructor; by vm_compute.
Defined.
