(* ===== verification/SignalLocal.v ===== *)
(** * The in-process signaling backend (signal/local.go)

    [Session], [Local] and the two pump goroutines of each session, as a
    transition system over shared objects: service objects, sessions with their
    three channels, and the messages, which sessions pass by pointer.  The
    sections under a lock are one step each; [Close] is its sequence of steps. *)

From Stdlib Require Import ZArith Lia.
From stdpp Require Import numbers strings gmap fin_maps relations list.
From S2P Require Import Prelude SignalWire Session.

(** ** Data *)

(** The outbound pump, in its [select] or holding a message it broadcasts, and
    the inbound pump, in its outer or its inner [select]. *)
Inductive opump : Type := OLoop | OCast (msg : nat) | OExit.
Inductive ipump : Type := ILoop | IPush (msg : nat) | IExit.

(** How far [Close] has come: [cancel], the locked section of [leave], the
    close of the inbox, the collection of the service, [close(out)],
    [close(done)]. *)
Inductive closing : Type :=
  | COpen | CCanceled | CRemoved (empty : bool) | CGc (empty : bool) | COut | CDone | CClosed.

#[export] Instance opump_eq_dec : EqDecision opump.
Proof. solve_decision. Defined.
#[export] Instance ipump_eq_dec : EqDecision ipump.
Proof. solve_decision. Defined.
#[export] Instance closing_eq_dec : EqDecision closing.
Proof. solve_decision. Defined.

(** A [Session] with its [localPeer] and pumps.  The last four fields are its
    history: the messages [Send] accepted, those the pump has broadcast, those
    that entered the inbox with the session they came from, and those the
    application has received. *)
Record session : Type := {
  service : string;
  peerID : string;
  svc : nat;
  out : chan nat;
  inbox : chan nat;
  in_ : chan nat;
  done : bool;
  canceled : bool;
  outbound : opump;
  inbound : ipump;
  cleanup : closing;
  sent : list nat;
  cast : list nat;
  took : list (nat * nat);
  got : list nat }.

Record localService : Type := { id : string; peers : gmap string nat }.

Record Local : Type := {
  services : gmap string nat;
  svc_heap : gmap nat localService;
  sessions : gmap nat session;
  messages : gmap nat SignalMessage;
  pending : list (string * string * nat);      (* [Exchange] between its two locks *)
  next : nat }.

Definition NewLocal : Local :=
  {| services := ∅; svc_heap := ∅; sessions := ∅; messages := ∅; pending := []; next := 0 |}.

(** ** Field updates *)

Definition with_out (c : chan nat) (s : session) : session :=
  {| service := service s; peerID := peerID s; svc := svc s; out := c; inbox := inbox s; in_ := in_ s;
     done := done s; canceled := canceled s; outbound := outbound s; inbound := inbound s;
     cleanup := cleanup s; sent := sent s; cast := cast s; took := took s; got := got s |}.
Definition with_inbox (c : chan nat) (s : session) : session :=
  {| service := service s; peerID := peerID s; svc := svc s; out := out s; inbox := c; in_ := in_ s;
     done := done s; canceled := canceled s; outbound := outbound s; inbound := inbound s;
     cleanup := cleanup s; sent := sent s; cast := cast s; took := took s; got := got s |}.
Definition with_in (c : chan nat) (s : session) : session :=
  {| service := service s; peerID := peerID s; svc := svc s; out := out s; inbox := inbox s; in_ := c;
     done := done s; canceled := canceled s; outbound := outbound s; inbound := inbound s;
     cleanup := cleanup s; sent := sent s; cast := cast s; took := took s; got := got s |}.
Definition with_done (s : session) : session :=
  {| service := service s; peerID := peerID s; svc := svc s; out := out s; inbox := inbox s; in_ := in_ s;
     done := true; canceled := canceled s; outbound := outbound s; inbound := inbound s;
     cleanup := cleanup s; sent := sent s; cast := cast s; took := took s; got := got s |}.
Definition with_cancel (s : session) : session :=
  {| service := service s; peerID := peerID s; svc := svc s; out := out s; inbox := inbox s; in_ := in_ s;
     done := done s; canceled := true; outbound := outbound s; inbound := inbound s;
     cleanup := cleanup s; sent := sent s; cast := cast s; took := took s; got := got s |}.
Definition with_outbound (p : opump) (s : session) : session :=
  {| service := service s; peerID := peerID s; svc := svc s; out := out s; inbox := inbox s; in_ := in_ s;
     done := done s; canceled := canceled s; outbound := p; inbound := inbound s;
     cleanup := cleanup s; sent := sent s; cast := cast s; took := took s; got := got s |}.
Definition with_inbound (p : ipump) (s : session) : session :=
  {| service := service s; peerID := peerID s; svc := svc s; out := out s; inbox := inbox s; in_ := in_ s;
     done := done s; canceled := canceled s; outbound := outbound s; inbound := p;
     cleanup := cleanup s; sent := sent s; cast := cast s; took := took s; got := got s |}.
Definition with_cleanup (c : closing) (s : session) : session :=
  {| service := service s; peerID := peerID s; svc := svc s; out := out s; inbox := inbox s; in_ := in_ s;
     done := done s; canceled := canceled s; outbound := outbound s; inbound := inbound s;
     cleanup := c; sent := sent s; cast := cast s; took := took s; got := got s |}.
Definition with_sent (m : nat) (s : session) : session :=
  {| service := service s; peerID := peerID s; svc := svc s; out := out s; inbox := inbox s; in_ := in_ s;
     done := done s; canceled := canceled s; outbound := outbound s; inbound := inbound s;
     cleanup := cleanup s; sent := sent s ++ [m]; cast := cast s; took := took s; got := got s |}.
Definition with_cast (m : nat) (s : session) : session :=
  {| service := service s; peerID := peerID s; svc := svc s; out := out s; inbox := inbox s; in_ := in_ s;
     done := done s; canceled := canceled s; outbound := outbound s; inbound := inbound s;
     cleanup := cleanup s; sent := sent s; cast := cast s ++ [m]; took := took s; got := got s |}.
Definition with_took (from m : nat) (s : session) : session :=
  {| service := service s; peerID := peerID s; svc := svc s; out := out s; inbox := inbox s; in_ := in_ s;
     done := done s; canceled := canceled s; outbound := outbound s; inbound := inbound s;
     cleanup := cleanup s; sent := sent s; cast := cast s; took := took s ++ [(from, m)]; got := got s |}.
Definition with_got (m : nat) (s : session) : session :=
  {| service := service s; peerID := peerID s; svc := svc s; out := out s; inbox := inbox s; in_ := in_ s;
     done := done s; canceled := canceled s; outbound := outbound s; inbound := inbound s;
     cleanup := cleanup s; sent := sent s; cast := cast s; took := took s; got := got s ++ [m] |}.

Definition set_session (l : nat) (s : session) (L : Local) : Local :=
  {| services := services L; svc_heap := svc_heap L; sessions := <[l := s]> (sessions L);
     messages := messages L; pending := pending L; next := next L |}.
Definition set_svc (v : nat) (s : localService) (L : Local) : Local :=
  {| services := services L; svc_heap := <[v := s]> (svc_heap L); sessions := sessions L;
     messages := messages L; pending := pending L; next := next L |}.
Definition set_message (p : nat) (m : SignalMessage) (L : Local) : Local :=
  {| services := services L; svc_heap := svc_heap L; sessions := sessions L;
     messages := <[p := m]> (messages L); pending := pending L; next := next L |}.
Definition set_pending (ps : list (string * string * nat)) (L : Local) : Local :=
  {| services := services L; svc_heap := svc_heap L; sessions := sessions L; messages := messages L;
     pending := ps; next := next L |}.

(** ** Exchange *)

(** Under [l.mu]. *)
Definition serviceForExchange (service : string) (L : Local) : nat * Local :=
  match services L !! service with
  | Some v => (v, L)
  | None =>
      let v := next L in
      (v, {| services := <[service := v]> (services L);
             svc_heap := <[v := {| id := service; peers := ∅ |}]> (svc_heap L);
             sessions := sessions L; messages := messages L; pending := pending L; next := S v |})
  end.

Definition new_session (srv peer : string) (v : nat) : session :=
  {| service := srv; peerID := peer; svc := v; out := make_chan; inbox := make_chan; in_ := make_chan;
     done := false; canceled := false; outbound := OLoop; inbound := ILoop; cleanup := COpen;
     sent := []; cast := []; took := []; got := [] |}.

(** Under [svc.mu], and the start of the session. *)
Definition exchange_insert (srv peer : string) (v : nat) (L : Local) : (nat + error) * Local :=
  match svc_heap L !! v with
  | None => (inr (ErrorString "nil service"), L)
  | Some s =>
      match peers s !! peer with
      | Some _ => (inr (ErrorString ("signal: peer " +:+ quote peer +:+ " already in service " +:+ quote srv)), L)
      | None =>
          let l := next L in
          (inl l, {| services := services L;
                     svc_heap := <[v := {| id := id s; peers := <[peer := l]> (peers s) |}]> (svc_heap L);
                     sessions := <[l := new_session srv peer v]> (sessions L);
                     messages := messages L; pending := pending L; next := S l |})
      end
  end.

(** [Exchange] alone. *)
Definition Exchange (srv peer : string) (L : Local) : (nat + error) * Local :=
  match exchange_args srv peer with
  | Some err => (inr err, L)
  | None => let '(v, L) := serviceForExchange srv L in exchange_insert srv peer v L
  end.

(** ** Send *)

(** [msg.Service = s.service], before the [select]. *)
Definition stamp (s : session) (p : nat) (L : Local) : Local :=
  match messages L !! p with
  | Some m => set_message p {| Service := service s; Body := Body m |} L
  | None => L
  end.

Definition accept (m : nat) (s : session) : session := with_sent m (with_out (enqueue m (out s)) s).

(** ** Broadcast *)

(** The non-blocking send on one inbox; sending on a closed channel panics. *)
Definition push (from m : nat) (s : session) : res session :=
  if closed (inbox s) then Panic "send on closed channel"
  else if decide (has_room (inbox s))
  then Ok (with_took from m (with_inbox (enqueue m (inbox s)) s))
  else Ok s.

(** The loop over the peers of the service, in some order. *)
Fixpoint cast_loop (from : nat) (fromid : string) (m : nat) (ps : list (string * nat)) (L : Local)
    : res Local :=
  match ps with
  | [] => Ok L
  | (pid, l) :: ps =>
      if decide (pid = fromid) then cast_loop from fromid m ps L
      else match sessions L !! l with
           | None => cast_loop from fromid m ps L
           | Some s =>
               match push from m s with
               | Ok s' => cast_loop from fromid m ps (set_session l s' L)
               | Fail e => Fail e
               | Panic msg => Panic msg
               end
           end
  end.

Definition broadcast (l : nat) (s : session) (m : nat) (ps : list (string * nat)) (L : Local) : res Local :=
  cast_loop l (peerID s) m ps (set_session l (with_cast m (with_outbound OLoop s)) L).

(** ** Close *)

(** The first section of [leave], under [svc.mu]. *)
Definition leave_remove (l : nat) (s : session) (L : Local) : Local :=
  match svc_heap L !! svc s with
  | None => L
  | Some v =>
      let ps := delete (peerID s) (peers v) in
      set_session l (with_cleanup (CRemoved (bool_decide (ps = ∅))) s)
        (set_svc (svc s) {| id := id v; peers := ps |} L)
  end.

(** The last section, under [l.mu]; [s.peers] is read without its lock. *)
Definition leave_gc (sid : string) (L : Local) : Local :=
  match services L !! sid with
  | Some v =>
      if decide (peers <$> svc_heap L !! v = Some ∅)
      then {| services := delete sid (services L); svc_heap := svc_heap L; sessions := sessions L;
              messages := messages L; pending := pending L; next := next L |}
      else L
  | None => L
  end.

(** ** Stats *)

Record Stats : Type := { st_Services : nat; st_Peers : nat; st_ServicePeers : gmap string nat }.

Definition stats (L : Local) : Stats :=
  let counts := (λ v, from_option (λ s, size (peers s)) 0%nat (svc_heap L !! v)) <$> services L in
  {| st_Services := size (services L); st_Peers := foldr Nat.add 0%nat (snd <$> map_to_list counts);
     st_ServicePeers := counts |}.

(** ** Steps *)

(** The steps of a session's goroutines that touch nothing else: the pumps, and
    [Close] between its locked sections. *)
Inductive pump_step : session → session → Prop :=
  | out_read s m q : outbound s = OLoop → queue (out s) = m :: q →
      pump_step s (with_outbound (OCast m) (with_out (set_queue q (out s)) s))
  | out_end s : outbound s = OLoop → (queue (out s) = [] ∧ closed (out s) = true) ∨ canceled s = true →
      pump_step s (with_outbound OExit s)
  | in_read s m q : inbound s = ILoop → queue (inbox s) = m :: q →
      pump_step s (with_inbound (IPush m) (with_inbox (set_queue q (inbox s)) s))
  | in_end s : inbound s = ILoop → (queue (inbox s) = [] ∧ closed (inbox s) = true) ∨ canceled s = true →
      pump_step s (with_inbound IExit (with_in (close (in_ s)) s))
  | in_push s m : inbound s = IPush m → has_room (in_ s) →
      pump_step s (with_inbound ILoop (with_in (enqueue m (in_ s)) s))
  | in_push_end s m : inbound s = IPush m → canceled s = true →
      pump_step s (with_inbound IExit (with_in (close (in_ s)) s))
  | close_inbox s e : cleanup s = CRemoved e →
      pump_step s (with_cleanup (CGc e) (with_inbox (close (inbox s)) s))
  | skip_gc s : cleanup s = CGc false → pump_step s (with_cleanup COut s)
  | close_out s : cleanup s = COut → pump_step s (with_cleanup CDone (with_out (close (out s)) s))
  | close_done s : cleanup s = CDone → pump_step s (with_cleanup CClosed (with_done s)).

(** What the application does with a session: receive, and call [Close]. *)
Inductive user_step : session → session → Prop :=
  | receive s m q : queue (in_ s) = m :: q →
      user_step s (with_got m (with_in (set_queue q (in_ s)) s))
  | cancel s : cleanup s = COpen → user_step s (with_cleanup CCanceled (with_cancel s)).

Inductive step : Local → Local → Prop :=
  | step_pump l s s' L : sessions L !! l = Some s → pump_step s s' → step L (set_session l s' L)
  | step_user l s s' L : sessions L !! l = Some s → user_step s s' → step L (set_session l s' L)
  | step_alloc p m L : messages L !! p = None → step L (set_message p m L)
  | step_stamp l s p L : sessions L !! l = Some s → step L (stamp s p L)
  | step_send l s p L : sessions L !! l = Some s → Send_outcome None (out s) (done s) (Ok tt) →
      step L (set_session l (accept p s) L)
  | step_broadcast l s v m ps L L' :
      sessions L !! l = Some s → outbound s = OCast m → svc_heap L !! svc s = Some v →
      ps ≡ₚ map_to_list (peers v) → broadcast l s m ps L = Ok L' → step L L'
  | step_remove l s L : sessions L !! l = Some s → cleanup s = CCanceled → step L (leave_remove l s L)
  | step_gc l s L : sessions L !! l = Some s → cleanup s = CGc true →
      step L (set_session l (with_cleanup COut s) (leave_gc (service s) L))
  | step_exchange1 srv peer v L L' :
      exchange_args srv peer = None → serviceForExchange srv L = (v, L') →
      step L (set_pending ((srv, peer, v) :: pending L) L')
  | step_exchange2 srv peer v ps1 ps2 r L L' :
      pending L = ps1 ++ (srv, peer, v) :: ps2 → exchange_insert srv peer v L = (r, L') →
      step L (set_pending (ps1 ++ ps2) L').

Definition reachable (L : Local) : Prop := rtc step NewLocal L.
