(* ===== verification/SignalLocalProps.v ===== *)
(** * Properties of the in-process signaling backend

    The invariants of the channels of one session and of the tables, preserved
    by every step, and from them: what a session receives and that its pumps
    deliver, that no channel is closed twice or sent on after its close by the
    backend, and what [Send] may do around [Close]. *)

From Stdlib Require Import ZArith Lia Wellfounded.Lexicographic_Product Relations.Relation_Operators.
From stdpp Require Import numbers strings gmap fin_maps relations list.
From S2P Require Import Prelude SignalWire Session SignalLocal.

(** ** One session *)

Definition held_out (p : opump) : list nat := match p with OCast m => [m] | _ => [] end.
Definition held_in (p : ipump) : list nat := match p with IPush m => [m] | _ => [] end.

(** [Close] has passed its locked section, the close of the inbox, of [out]. *)
Definition removed (c : closing) : bool := match c with COpen | CCanceled => false | _ => true end.
Definition inbox_gone (c : closing) : bool :=
  match c with CGc _ | COut | CDone | CClosed => true | _ => false end.
Definition out_gone (c : closing) : bool := match c with CDone | CClosed => true | _ => false end.

Record session_ok (s : session) : Prop := {
  ok_out : ∃ rest, sent s = cast s ++ rest ∧
    (outbound s ≠ OExit → rest = held_out (outbound s) ++ queue (out s));
  ok_in : ∃ rest, (took s).*2 = got s ++ queue (in_ s) ++ rest ∧
    (inbound s ≠ IExit → rest = held_in (inbound s) ++ queue (inbox s));
  ok_out_closed : closed (out s) = out_gone (cleanup s);
  ok_inbox_closed : closed (inbox s) = inbox_gone (cleanup s);
  ok_in_closed : closed (in_ s) = bool_decide (inbound s = IExit);
  ok_done : done s = bool_decide (cleanup s = CClosed);
  ok_canceled : canceled s = negb (bool_decide (cleanup s = COpen));
  ok_exit : outbound s = OExit ∨ inbound s = IExit → cleanup s ≠ COpen;
  ok_caps : (length (queue (out s)) ≤ chan_cap)%nat ∧ (length (queue (inbox s)) ≤ chan_cap)%nat ∧
            (length (queue (in_ s)) ≤ chan_cap)%nat }.

(** What other sessions and the tables see of a session. *)
Definition same_seen (s s' : session) : Prop :=
  service s' = service s ∧ peerID s' = peerID s ∧ svc s' = svc s ∧ took s' = took s ∧
  cast s' = cast s ∧ removed (cleanup s') = removed (cleanup s).

Lemma session_ok_new srv peer v : session_ok (new_session srv peer v).
Proof.
  split; try done; try (exists []; by split); [by intros [?|?]|unfold chan_cap; cbn; lia].
Qed.

(** A pump that ends finds its session no longer open. *)
Ltac exits Hc Hca Hend :=
  intros _ E; rewrite E, bool_decide_eq_true_2 in Hca by done; rewrite E in Hc; cbn in *;
  intuition congruence.

Lemma session_ok_pump s s' : pump_step s s' → session_ok s → session_ok s' ∧ same_seen s s'.
Proof.
  intros Hs [(ro & Ho & Hor) (ri & Hi & Hir) Hoc Hic Hnc Hd Hca Hex (Hc1 & Hc2 & Hc3)].
  destruct Hs as [s m q Hp Hq|s Hp Hend|s m q Hp Hq|s Hp Hend|s m Hp Hq|s m Hp Hend|s e Hp|s Hp|s Hp|s Hp];
    (split; [|unfold same_seen; cbn; by rewrite ?Hp]); split; cbn in *;
    rewrite ?Hp, ?Hq in *; cbn in *; try done; try (by exists ro); try (by exists ri); try lia;
    try (intros [?|?]; [by auto|by auto]).
  - exists ro. split; [done|]. intros _. by apply Hor.
  - exits Hoc Hca Hend.
  - exists ri. split; [done|]. intros _. by apply Hir.
  - exits Hic Hca Hend.
  - exists (queue (inbox s)). split; [|done]. by rewrite Hi, (Hir ltac:(done)), <- !app_assoc.
  - rewrite length_app. unfold has_room in *. cbn. lia.
  - exits Hic Hca Hend.
Qed.

Lemma session_ok_user s s' : user_step s s' → session_ok s → session_ok s' ∧ same_seen s s'.
Proof.
  intros Hs [(ro & Ho & Hor) (ri & Hi & Hir) Hoc Hic Hnc Hd Hca Hex (Hc1 & Hc2 & Hc3)].
  destruct Hs as [s m q Hq|s Hp]; (split; [|unfold same_seen; cbn; by rewrite ?Hp]); split; cbn in *;
    rewrite ?Hp, ?Hq in *; cbn in *; try done; try (by exists ro); try (by exists ri); try lia.
  exists ri. by rewrite <- app_assoc.
Qed.

Lemma session_ok_accept p s :
  Send_outcome None (out s) (done s) (Ok tt) → session_ok s → session_ok (accept p s) ∧ same_seen s (accept p s).
Proof.
  intros Hs [(ro & Ho & Hor) Hi Hoc Hic Hnc Hd Hca Hex (Hc1 & Hc2 & Hc3)].
  inversion Hs as [Hcl Hroom| | |]; subst. split; [|done]. split; try done; cbn.
  - exists (ro ++ [p]). rewrite Ho, app_assoc. split; [done|]. intros Hne.
    by rewrite (Hor Hne), app_assoc.
  - rewrite length_app. unfold has_room in *. cbn. lia.
Qed.

Lemma session_ok_push from m s :
  session_ok s → has_room (inbox s) →
  session_ok (with_took from m (with_inbox (enqueue m (inbox s)) s)).
Proof.
  intros [Ho (ri & Hi & Hir) Hoc Hic Hnc Hd Hca Hex (Hc1 & Hc2 & Hc3)] Hroom. split; try done; cbn.
  - exists (ri ++ [m]). rewrite fmap_app, Hi. cbn. rewrite <- !app_assoc. split; [done|].
    intros Hne. by rewrite (Hir Hne), <- app_assoc.
  - rewrite length_app. unfold has_room in *. cbn. lia.
Qed.

Lemma session_ok_cast m s :
  outbound s = OCast m → session_ok s → session_ok (with_cast m (with_outbound OLoop s)).
Proof.
  intros Hp [(ro & Ho & Hor) Hi Hoc Hic Hnc Hd Hca Hex Hc]. split; try done; cbn.
  - rewrite Hp in Hor. cbn in Hor. exists (queue (out s)). split; [|done].
    by rewrite Ho, (Hor ltac:(done)), <- app_assoc.
  - intros [?|?]; [done|by auto].
Qed.

(** [Close] goes on without touching the channels. *)
Lemma session_ok_cleanup c s :
  session_ok s → cleanup s ≠ COpen → cleanup s ≠ CClosed → c ≠ COpen → c ≠ CClosed →
  out_gone c = out_gone (cleanup s) → inbox_gone c = inbox_gone (cleanup s) →
  session_ok (with_cleanup c s).
Proof.
  intros [Ho Hi Hoc Hic Hnc Hd Hca Hex Hc] H1 H2 H3 H4 H5 H6. split; try done; cbn; try congruence.
  - by rewrite Hd, !bool_decide_eq_false_2.
  - by rewrite Hca, !bool_decide_eq_false_2.
Qed.

(** ** The tables *)

Definition from_session (q : nat) (p : session) : list nat := (filter (λ e, e.1 = q) (took p)).*2.

Record WF (L : Local) : Prop := {
  wf_member v s pid l : svc_heap L !! v = Some s → peers s !! pid = Some l →
    ∃ p, sessions L !! l = Some p ∧ svc p = v ∧ peerID p = pid ∧ removed (cleanup p) = false;
  wf_session l p : sessions L !! l = Some p →
    session_ok p ∧ (l < next L)%nat ∧
    ∃ s, svc_heap L !! svc p = Some s ∧ id s = service p ∧
         (removed (cleanup p) = false → peers s !! peerID p = Some l);
  wf_svc v s : svc_heap L !! v = Some s → (v < next L)%nat;
  wf_services sid v : services L !! sid = Some v → ∃ s, svc_heap L !! v = Some s ∧ id s = sid;
  wf_pending srv peer v : (srv, peer, v) ∈ pending L → ∃ s, svc_heap L !! v = Some s ∧ id s = srv;
  wf_took l p q m : sessions L !! l = Some p → (q, m) ∈ took p →
    q ≠ l ∧ ∃ p', sessions L !! q = Some p' ∧ svc p' = svc p;
  wf_from l p q p' : sessions L !! l = Some p → sessions L !! q = Some p' →
    from_session q p `sublist_of` cast p' }.

Lemma local_WF_init : WF NewLocal.
Proof. split; unfold NewLocal; cbn; intros *; rewrite ?lookup_empty; try done; by intros ?%elem_of_nil. Qed.

Lemma lookup_set_session l s L l' p :
  sessions (set_session l s L) !! l' = Some p ↔
  (l' = l ∧ p = s) ∨ (l' ≠ l ∧ sessions L !! l' = Some p).
Proof. cbn. rewrite lookup_insert_Some. naive_solver. Qed.

(** A step of one session that the others do not see. *)
Lemma WF_set_session l s s' L :
  WF L → sessions L !! l = Some s → session_ok s' → same_seen s s' → WF (set_session l s' L).
Proof.
  intros [Hm Hs Hv Hsv Hp Ht Hf] Hl Hok (E1 & E2 & E3 & E4 & E5 & E6).
  assert (∀ l' p, sessions (set_session l s' L) !! l' = Some p →
    ∃ p0, sessions L !! l' = Some p0 ∧ same_seen p0 p ∧ (session_ok p0 → session_ok p)) as Hback.
  { intros l' p [[-> ->]|[Hne H]]%lookup_set_session; [by exists s|by exists p]. }
  assert (∀ l' p, sessions L !! l' = Some p →
    ∃ p1, sessions (set_session l s' L) !! l' = Some p1 ∧ same_seen p p1) as Hfwd.
  { intros l' p H. destruct (decide (l' = l)) as [->|Hne].
    - exists s'. rewrite lookup_set_session. split; [by left|]. by simplify_eq.
    - exists p. rewrite lookup_set_session. split; [by right|done]. }
  split; try done.
  - intros v sv pid l' Hsv' Hps. destruct (Hm v sv pid l' Hsv' Hps) as (p & Hp1 & Hp2 & Hp3 & Hp4).
    destruct (Hfwd l' p Hp1) as (p1 & H1 & F1 & F2 & F3 & F4 & F5 & F6). exists p1.
    split; [done|]. split_and!; congruence.
  - intros l' p (p0 & H0 & (F1 & F2 & F3 & F4 & F5 & F6) & Hpok)%Hback.
    destruct (Hs l' p0 H0) as (Hok0 & Hlt & sv & G1 & G2 & G3). split; [by apply Hpok|].
    split; [done|]. exists sv. split; [by rewrite F3|]. split; [congruence|]. rewrite F6, F2. done.
  - intros l' p q m (p0 & H0 & (F1 & F2 & F3 & F4 & F5 & F6) & _)%Hback Hin. rewrite F4 in Hin.
    destruct (Ht l' p0 q m H0 Hin) as (Hne & p' & Hq & Hsvc). split; [done|].
    destruct (Hfwd q p' Hq) as (p1 & H1 & G1 & G2 & G3 & _). exists p1. split; [done|]. congruence.
  - intros l' p q p' (p0 & H0 & (F1 & F2 & F3 & F4 & F5 & F6) & _)%Hback
      (p0' & H0' & (G1 & G2 & G3 & G4 & G5 & G6) & _)%Hback.
    unfold from_session. rewrite F4, G5. by apply (Hf l' p0 q p0').
Qed.

(** ** Broadcasts *)

(** What one target of a broadcast becomes. *)
Definition offered (q m : nat) (s : session) : session :=
  if decide (has_room (inbox s)) then with_took q m (with_inbox (enqueue m (inbox s)) s) else s.

Definition targets (fid : string) (ps : list (string * nat)) : list nat :=
  (filter (λ e, e.1 ≠ fid) ps).*2.

Lemma offered_cases q m s (P : session → Prop) :
  P s → (has_room (inbox s) → P (with_took q m (with_inbox (enqueue m (inbox s)) s))) → P (offered q m s).
Proof. intros H1 H2. unfold offered. destruct (decide _); auto. Qed.

Lemma offered_seen q m s :
  service (offered q m s) = service s ∧ peerID (offered q m s) = peerID s ∧ svc (offered q m s) = svc s ∧
  cast (offered q m s) = cast s ∧ cleanup (offered q m s) = cleanup s.
Proof. unfold offered. by destruct (decide _). Qed.

Definition same_tables (L L' : Local) : Prop :=
  services L' = services L ∧ svc_heap L' = svc_heap L ∧ messages L' = messages L ∧
  pending L' = pending L ∧ next L' = next L.

Definition open_inbox (L : Local) (l : nat) : Prop :=
  ∃ p, sessions L !! l = Some p ∧ closed (inbox p) = false.

Lemma targets_cons fid pid l ps :
  targets fid ((pid, l) :: ps) = if decide (pid = fid) then targets fid ps else l :: targets fid ps.
Proof.
  unfold targets. rewrite filter_cons. cbn. destruct (decide (pid = fid)) as [H|H].
  - by rewrite decide_False by tauto.
  - by rewrite decide_True.
Qed.

Lemma targets_subset fid ps l : l ∈ targets fid ps → l ∈ ps.*2.
Proof.
  unfold targets. rewrite !list_elem_of_fmap. intros (e & -> & [_ H]%list_elem_of_filter). by exists e.
Qed.

(** Each peer of the service but the sender is offered the message once, in
    whatever order the loop visits them. *)
Lemma cast_loop_spec q fid m ps L :
  NoDup ps.*2 → Forall (open_inbox L) ps.*2 →
  ∃ L', cast_loop q fid m ps L = Ok L' ∧ same_tables L L' ∧
    ∀ l, sessions L' !! l =
         (λ p, if decide (l ∈ targets fid ps) then offered q m p else p) <$> sessions L !! l.
Proof.
  revert L. induction ps as [|[pid l] ps IH]; intros L; cbn [fmap list_fmap].
  { intros _ _. exists L. split; [done|]. split; [done|]. intros l. cbn. by destruct (sessions L !! l). }
  intros [Hnin Hnd]%NoDup_cons [Hop Hall]%Forall_cons. cbn [cast_loop snd] in *.
  rewrite targets_cons. destruct (decide (pid = fid)) as [->|Hne]; [by apply IH|].
  destruct Hop as (p & Hp & Hcl). rewrite Hp. unfold push. rewrite Hcl.
  assert ((if decide (has_room (inbox p)) then Ok (with_took q m (with_inbox (enqueue m (inbox p)) p)) else Ok p)
    = Ok (offered q m p)) as -> by (unfold offered; by destruct (decide _)).
  destruct (IH (set_session l (offered q m p) L)) as (L' & HL' & Htab & Hspec); [done| |].
  { eapply Forall_impl; [exact Hall|]. intros l' (p' & Hp' & Hc'). destruct (decide (l' = l)) as [->|Hl].
    - exists (offered q m p). split; [apply lookup_set_session; by left|]. simplify_eq.
      by apply (offered_cases q m p (λ s, closed (inbox s) = false)).
    - exists p'. split; [apply lookup_set_session; by right|done]. }
  exists L'. split; [done|]. split; [done|]. intros l'. rewrite Hspec. cbn. destruct (decide (l' = l)) as [->|Hl].
  - rewrite lookup_insert, decide_True, Hp by done. cbn. rewrite decide_False.
    + by rewrite decide_True by apply list_elem_of_here.
    + by intros ?%targets_subset.
  - rewrite lookup_insert_ne by done. destruct (sessions L !! l') as [p'|]; [|done]. cbn.
    apply (f_equal Some). destruct (decide (l' ∈ targets fid ps)) as [Hin|Hout].
    + by rewrite decide_True by (by apply list_elem_of_further).
    + rewrite decide_False; [done|]. by intros [?|?]%elem_of_cons.
Qed.

(** What a broadcast of [m] by session [l] makes of session [l']. *)
Definition after (l m : nat) (ts : list nat) (l' : nat) (p : session) : session :=
  if decide (l' = l) then with_cast m (with_outbound OLoop p)
  else if decide (l' ∈ ts) then offered l m p else p.

Lemma after_seen l m ts l' p :
  let p' := after l m ts l' p in
  service p' = service p ∧ peerID p' = peerID p ∧ svc p' = svc p ∧ cleanup p' = cleanup p.
Proof.
  unfold after. destruct (decide (l' = l)); [done|]. destruct (decide (l' ∈ ts)); [|done].
  destruct (offered_seen l m p) as (? & ? & ? & ? & ?). done.
Qed.

Lemma targets_member L l s v ps l' :
  WF L → sessions L !! l = Some s → svc_heap L !! svc s = Some v → ps ≡ₚ map_to_list (peers v) →
  l' ∈ targets (peerID s) ps →
  l' ≠ l ∧ ∃ p, sessions L !! l' = Some p ∧ svc p = svc s ∧ closed (inbox p) = false.
Proof.
  intros HWF Hl Hv Hps Hin. unfold targets in Hin.
  apply list_elem_of_fmap in Hin as ([pid l0] & -> & [Hne Hin]%list_elem_of_filter). cbn in *.
  rewrite Hps in Hin. apply elem_of_map_to_list in Hin.
  destruct (wf_member _ HWF _ _ _ _ Hv Hin) as (p & Hp & Hsv & Hid & Hrm).
  split; [intros ->; simplify_eq|]. exists p. split; [done|]. split; [done|].
  destruct (wf_session _ HWF _ _ Hp) as (Hok & _). rewrite (ok_inbox_closed _ Hok).
  by destruct (cleanup p).
Qed.

(** The sessions a broadcast is offered to. *)
Lemma targets_iff L l s v ps l' p :
  WF L → sessions L !! l = Some s → svc_heap L !! svc s = Some v → ps ≡ₚ map_to_list (peers v) →
  sessions L !! l' = Some p →
  l' ∈ targets (peerID s) ps ↔ svc p = svc s ∧ removed (cleanup p) = false ∧ peerID p ≠ peerID s.
Proof.
  intros HWF Hl Hv Hps Hp. unfold targets. rewrite list_elem_of_fmap. split.
  - intros ([pid l2] & -> & [Hid Hin]%list_elem_of_filter). cbn in *. rewrite Hps in Hin.
    apply elem_of_map_to_list in Hin. destruct (wf_member _ HWF _ _ _ _ Hv Hin) as (p' & ? & ? & ? & ?).
    by simplify_eq.
  - intros (Hsv & Hrm & Hid). exists (peerID p, l'). split; [done|]. apply list_elem_of_filter. cbn.
    destruct (wf_session _ HWF l' p Hp) as (_ & _ & v' & Hv' & _ & Hin). rewrite Hsv in Hv'. simplify_eq.
    rewrite Hps, elem_of_map_to_list. split; [done|by apply Hin].
Qed.

(** A broadcast never panics, and reaches each other peer of the service. *)
Lemma broadcast_spec L l s v m ps :
  WF L → sessions L !! l = Some s → svc_heap L !! svc s = Some v → ps ≡ₚ map_to_list (peers v) →
  ∃ L', broadcast l s m ps L = Ok L' ∧ same_tables L L' ∧
    ∀ l', sessions L' !! l' = after l m (targets (peerID s) ps) l' <$> sessions L !! l'.
Proof.
  intros HWF Hl Hv Hps. unfold broadcast.
  destruct (cast_loop_spec l (peerID s) m ps (set_session l (with_cast m (with_outbound OLoop s)) L))
    as (L' & HL' & Htab & Hspec).
  - apply NoDup_fmap_2_strong; [|rewrite Hps; apply NoDup_map_to_list].
    intros [pid1 l1] [pid2 l2]. rewrite Hps, !elem_of_map_to_list. cbn. intros H1 H2 <-.
    destruct (wf_member _ HWF _ _ _ _ Hv H1) as (p1 & ? & _ & <- & _).
    destruct (wf_member _ HWF _ _ _ _ Hv H2) as (p2 & ? & _ & <- & _). by simplify_eq.
  - apply Forall_forall. intros l1 H1. apply list_elem_of_fmap in H1 as ([pid l2] & -> & H1). cbn.
    rewrite Hps in H1. apply elem_of_map_to_list in H1.
    destruct (wf_member _ HWF _ _ _ _ Hv H1) as (p & Hp & _ & _ & Hrm).
    destruct (wf_session _ HWF _ _ Hp) as (Hok & _).
    assert (closed (inbox p) = false) as Hcl
      by (rewrite (ok_inbox_closed _ Hok); by destruct (cleanup p)).
    destruct (decide (l2 = l)) as [->|Hne].
    + exists (with_cast m (with_outbound OLoop s)). split; [apply lookup_set_session; by left|]. by simplify_eq.
    + exists p. split; [apply lookup_set_session; by right|done].
  - exists L'. split; [done|]. split; [done|]. intros l'. rewrite Hspec. cbn. unfold after.
    destruct (decide (l' = l)) as [->|Hne].
    + rewrite lookup_insert, decide_True, Hl by done. cbn. rewrite decide_False; [done|].
      intros Hin. by destruct (targets_member L l s v ps l HWF Hl Hv Hps Hin) as [? _].
    + by rewrite lookup_insert_ne by done.
Qed.

Lemma after_took l m ts l' p q m' :
  (q, m') ∈ took (after l m ts l' p) → (q, m') ∈ took p ∨ (q = l ∧ l' ≠ l ∧ l' ∈ ts).
Proof.
  unfold after. destruct (decide (l' = l)); [by left|]. destruct (decide (l' ∈ ts)); [|by left].
  unfold offered. destruct (decide _); [|by left]. cbn.
  intros [?|[= -> _]%list_elem_of_singleton]%elem_of_app; [by left|by right].
Qed.

Lemma after_from l m ts l' p q :
  from_session q (after l m ts l' p) = from_session q p ∨
  (q = l ∧ from_session q (after l m ts l' p) = from_session q p ++ [m]).
Proof.
  unfold after. destruct (decide (l' = l)); [by left|]. destruct (decide (l' ∈ ts)); [|by left].
  unfold offered. destruct (decide _); [|by left]. unfold from_session. cbn.
  rewrite filter_app, filter_cons, filter_nil. cbn. destruct (decide (l = q)) as [<-|Hne].
  - right. by rewrite fmap_app.
  - left. by rewrite app_nil_r.
Qed.

Lemma local_WF_broadcast L l s v m ps L' :
  WF L → sessions L !! l = Some s → outbound s = OCast m → svc_heap L !! svc s = Some v →
  ps ≡ₚ map_to_list (peers v) → broadcast l s m ps L = Ok L' → WF L'.
Proof.
  intros HWF Hl Hout Hv Hps Hb. set (ts := targets (peerID s) ps).
  destruct (broadcast_spec L l s v m ps HWF Hl Hv Hps) as (L1 & Hb1 & (T1 & T2 & T3 & T4 & T5) & Hspec).
  rewrite Hb in Hb1. injection Hb1 as <-. fold ts in Hspec.
  assert (∀ l' p, sessions L' !! l' = Some p → ∃ p0, sessions L !! l' = Some p0 ∧ p = after l m ts l' p0)
    as Hback by (intros l' p; rewrite Hspec; intros (p0 & -> & ->)%fmap_Some; by exists p0).
  assert (∀ l' p, sessions L !! l' = Some p → sessions L' !! l' = Some (after l m ts l' p)) as Hfwd
    by (intros l' p H; by rewrite Hspec, H).
  pose proof HWF as [Hm Hs Hvv Hsv Hp Ht Hf]. split.
  - intros v' sv pid l' Hsv' Hpid. rewrite T2 in Hsv'.
    destruct (Hm _ _ _ _ Hsv' Hpid) as (p & Hp1 & <- & <- & Hp4).
    destruct (after_seen l m ts l' p) as (A1 & A2 & A3 & A4).
    exists (after l m ts l' p). split; [by apply Hfwd|]. by rewrite A2, A3, A4.
  - intros l' p (p0 & H0 & ->)%Hback. destruct (Hs l' p0 H0) as (Hok & Hlt & sv & G).
    destruct (after_seen l m ts l' p0) as (A1 & A2 & A3 & A4).
    split; [|split; [by rewrite T5|exists sv; by rewrite A1, A2, A3, A4, T2]].
    unfold after. destruct (decide (l' = l)) as [->|Hne]; [simplify_eq; by apply session_ok_cast|].
    destruct (decide (l' ∈ ts)); [|done]. apply (offered_cases l m p0); [done|].
    intros Hr. by apply session_ok_push.
  - rewrite T2, T5. apply Hvv.
  - rewrite T1, T2. apply Hsv.
  - rewrite T2, T4. apply Hp.
  - intros l' p q m' (p0 & H0 & ->)%Hback Hin.
    destruct (after_seen l m ts l' p0) as (_ & _ & A3 & _).
    apply after_took in Hin as [Hold|(-> & Hne & Hts)].
    + destruct (Ht l' p0 q m' H0 Hold) as (Hne & p' & Hq & Hsvc). split; [done|].
      exists (after l m ts q p'). split; [by apply Hfwd|].
      destruct (after_seen l m ts q p') as (_ & _ & B3 & _). congruence.
    + split; [done|]. exists (after l m ts l s). split; [by apply Hfwd|].
      destruct (after_seen l m ts l s) as (_ & _ & B3 & _).
      destruct (targets_member L l s v ps l' HWF Hl Hv Hps Hts) as (_ & p1 & Hp1 & Hsvc & _).
      simplify_eq. congruence.
  - intros l' p q p' (p0 & H0 & ->)%Hback (p0' & H0' & ->)%Hback.
    pose proof (Hf l' p0 q p0' H0 H0') as Hsub.
    pose proof (after_from l m ts l' p0 q) as Hfrom.
    unfold after at 2. destruct (decide (q = l)) as [->|Hne].
    + cbn. destruct Hfrom as [->|[_ ->]]; [by apply sublist_inserts_r|by apply sublist_app].
    + destruct Hfrom as [->|[? _]]; [|done]. destruct (decide (q ∈ ts)); [|done].
      destruct (offered_seen l m p0') as (_ & _ & _ & -> & _). done.
Qed.

(** ** The tables change *)

(** [leave] takes the peer out of its service. *)
(** The tables after the first section of [leave], against those before. *)
Definition removed_from (L : Local) (l : nat) (s : session) (v : localService) (c : closing) : Local :=
  set_session l (with_cleanup c s) (set_svc (svc s) {| id := id v; peers := delete (peerID s) (peers v) |} L).

Lemma removed_back L l s v c l' p :
  sessions L !! l = Some s → sessions (removed_from L l s v c) !! l' = Some p →
  ∃ p0, sessions L !! l' = Some p0 ∧ service p = service p0 ∧ peerID p = peerID p0 ∧ svc p = svc p0 ∧
    took p = took p0 ∧ cast p = cast p0.
Proof.
  intros Hl [[-> ->]|[Hne H]]%lookup_set_session; [by exists s|by exists p].
Qed.

Lemma removed_heap L l s v c v' sv :
  svc_heap L !! svc s = Some v → svc_heap L !! v' = Some sv →
  ∃ sv', svc_heap (removed_from L l s v c) !! v' = Some sv' ∧ id sv' = id sv ∧
    peers sv' = if decide (v' = svc s) then delete (peerID s) (peers v) else peers sv.
Proof.
  intros Hsvc Hv'. cbn. destruct (decide (v' = svc s)) as [->|Hne].
  - eexists. rewrite lookup_insert, decide_True by done. by simplify_eq.
  - exists sv. by rewrite lookup_insert_ne.
Qed.

Lemma WF_remove L l s :
  WF L → sessions L !! l = Some s → cleanup s = CCanceled → WF (leave_remove l s L).
Proof.
  intros [Hm Hs Hv Hsv Hp Ht Hf] Hl Hc. unfold leave_remove.
  destruct (Hs l s Hl) as (Hok & Hlt & v & Hsvc & Hid & Hpid). rewrite Hsvc.
  set (c := CRemoved _). change (WF (removed_from L l s v c)).
  assert (∀ v' sv, svc_heap L !! v' = Some sv → _) as Hheap by (intros v' sv; exact (removed_heap L l s v c v' sv Hsvc)).
  assert (∀ l' p, _ → _) as Hback by (intros l' p; exact (removed_back L l s v c l' p Hl)).
  split.
  - intros v' sv pid l' H Hps. cbn in H. apply lookup_insert_Some in H as [[<- <-]|[Hne H]].
    + cbn in Hps. apply lookup_delete_Some in Hps as [Hne Hps].
      destruct (Hm _ _ _ _ Hsvc Hps) as (p & Hp1 & ?). exists p. split; [|done].
      apply lookup_set_session. right. split; [|done]. intros ->. naive_solver congruence.
    + destruct (Hm _ _ _ _ H Hps) as (p & Hp1 & Hp2 & Hp3). exists p. split; [|done].
      apply lookup_set_session. right. split; [|done]. intros ->. simplify_eq.
  - intros l' p Hlp. destruct (decide (l' = l)) as [->|Hne].
    + apply lookup_set_session in Hlp as [[_ ->]|[? _]]; [|done].
      split; [apply session_ok_cleanup; try done; by rewrite Hc|]. split; [done|].
      eexists. cbn. by rewrite lookup_insert, decide_True.
    + apply lookup_set_session in Hlp as [[? _]|[_ Hlp]]; [done|].
      destruct (Hs l' p Hlp) as (Hok' & Hlt' & sv & G1 & G2 & G3). split; [done|]. split; [done|].
      destruct (Hheap (svc p) sv G1) as (sv' & F2 & F3 & F4). exists sv'.
      split; [done|]. split; [congruence|]. intros Hrm. rewrite F4.
      destruct (decide (svc p = svc s)) as [E|_]; [|by apply G3].
      rewrite E in G1. simplify_eq. rewrite lookup_delete_ne; [by apply G3|].
      intros E2. specialize (G3 Hrm). rewrite <- E2, Hpid in G3 by (by rewrite Hc). congruence.
  - intros v' sv H. cbn in H. apply lookup_insert_Some in H as [[<- _]|[_ H]]; by eapply Hv.
  - intros sid v' H. destruct (Hsv sid v' H) as (sv & G1 & G2).
    destruct (Hheap v' sv G1) as (sv' & F2 & F3 & _). exists sv'. split; [done|congruence].
  - intros srv peer v' H. destruct (Hp srv peer v' H) as (sv & G1 & G2).
    destruct (Hheap v' sv G1) as (sv' & F2 & F3 & _). exists sv'. split; [done|congruence].
  - intros l' p q m (p0 & H0 & E1 & E2 & E3 & E4 & E5)%Hback Hin. rewrite E4 in Hin.
    destruct (Ht l' p0 q m H0 Hin) as (Hne & p' & Hq & Hsc). split; [done|].
    destruct (decide (q = l)) as [->|Hql].
    + exists (with_cleanup c s). split; [apply lookup_set_session; by left|]. cbn. congruence.
    + exists p'. split; [apply lookup_set_session; by right|congruence].
  - intros l' p q p' (p0 & H0 & E1 & E2 & E3 & E4 & E5)%Hback
      (p0' & H0' & F1 & F2 & F3 & F4 & F5)%Hback. unfold from_session. rewrite E4, F5.
    by apply (Hf l' p0 q p0').
Qed.

(** Only the table of names or the messages change. *)
Lemma WF_names L L' :
  WF L → services L' ⊆ services L → svc_heap L' = svc_heap L → sessions L' = sessions L →
  (∀ t, t ∈ pending L' → t ∈ pending L) → next L' = next L → WF L'.
Proof.
  intros [Hm Hs Hv Hsv Hp Ht Hf] E1 E2 E3 E4 E5. split; rewrite ?E2, ?E3, ?E5; try done.
  - intros sid v H. by eapply Hsv, lookup_weaken.
  - intros srv peer v H. by eapply Hp, E4.
Qed.

Lemma WF_gc L sid : WF L → WF (leave_gc sid L) ∧ sessions (leave_gc sid L) = sessions L.
Proof.
  intros HWF. unfold leave_gc. destruct (services L !! sid) as [v|]; [|done].
  destruct (decide _); [|done]. split; [|done]. eapply WF_names; try done. cbn. apply delete_subseteq.
Qed.

Lemma WF_serviceForExchange L srv v L' :
  WF L → serviceForExchange srv L = (v, L') →
  WF L' ∧ pending L' = pending L ∧ ∃ s, svc_heap L' !! v = Some s ∧ id s = srv.
Proof.
  intros HWF. unfold serviceForExchange. destruct (services L !! srv) as [v0|] eqn:Hsrv; intros [= <- <-].
  { split; [done|]. split; [done|]. by apply (wf_services _ HWF). }
  pose proof HWF as [Hm Hs Hv Hsv Hp Ht Hf].
  assert (∀ v s, svc_heap L !! v = Some s → v ≠ next L) as Hnew by (intros v s H ->; apply Hv in H; lia).
  split; [|split; [done|eexists; cbn; by rewrite lookup_insert, decide_True]]. split; cbn.
  - intros v s pid l [[<- <-]|[Hne H]]%lookup_insert_Some Hps; [cbn in Hps; by rewrite lookup_empty in Hps|by eapply Hm].
  - intros l p H. destruct (Hs l p H) as (Hok & Hlt & s & G1 & G2). split; [done|]. split; [lia|].
    exists s. rewrite lookup_insert_ne; [done|]. intros E. by apply (Hnew _ _ G1).
  - intros v s [[<- _]|[_ H]]%lookup_insert_Some; [lia|]. apply Hv in H. lia.
  - intros sid v [[<- <-]|[_ H]]%lookup_insert_Some.
    + eexists. by rewrite lookup_insert, decide_True.
    + destruct (Hsv sid v H) as (s & G1 & G2). exists s. rewrite lookup_insert_ne; [done|].
      intros E. by apply (Hnew _ _ G1).
  - intros srv' peer v H. destruct (Hp srv' peer v H) as (s & G1 & G2). exists s.
    rewrite lookup_insert_ne; [done|]. intros E. by apply (Hnew _ _ G1).
  - done.
  - done.
Qed.

Lemma WF_exchange_insert L srv peer v r L' :
  WF L → (srv, peer, v) ∈ pending L → exchange_insert srv peer v L = (r, L') →
  WF L' ∧ pending L' = pending L.
Proof.
  intros HWF Hin. unfold exchange_insert.
  destruct (svc_heap L !! v) as [s|] eqn:Hsv; [|by intros [= <- <-]].
  destruct (peers s !! peer) as [|] eqn:Hps; intros [= <- <-]; [done|]. split; [|done].
  pose proof HWF as [Hm Hs Hv Hsvs Hp Ht Hf]. destruct (Hp _ _ _ Hin) as (s' & Hs' & Hid). simplify_eq.
  set (n := next L).
  assert (∀ l p, sessions L !! l = Some p → l ≠ n) as Hnew
    by (intros l p H ->; apply Hs in H as (_ & H & _); unfold n in *; lia).
  assert (∀ v' sv, svc_heap L !! v' = Some sv → ∃ sv',
    <[v := {| id := id s; peers := <[peer := n]> (peers s) |}]> (svc_heap L) !! v' = Some sv' ∧ id sv' = id sv ∧
    ∀ pid l, peers sv !! pid = Some l → peers sv' !! pid = Some l) as Hheap.
  { intros v' sv Hv'. destruct (decide (v' = v)) as [->|Hne].
    - eexists. rewrite lookup_insert, decide_True by done. simplify_eq. split; [done|]. split; [done|].
      intros pid l H. cbn. rewrite lookup_insert_ne; [done|]. intros ->. congruence.
    - exists sv. by rewrite lookup_insert_ne. }
  split; cbn.
  - intros v' sv pid l [[<- <-]|[Hne H]]%lookup_insert_Some Hpid.
    + cbn in Hpid. apply lookup_insert_Some in Hpid as [[<- <-]|[Hne Hpid]].
      * eexists. by rewrite lookup_insert, decide_True.
      * destruct (Hm _ _ _ _ Hsv Hpid) as (p & G1 & G2). exists p.
        rewrite lookup_insert_ne; [done|]. intros E. by apply (Hnew _ _ G1).
    + destruct (Hm _ _ _ _ H Hpid) as (p & G1 & G2). exists p.
      rewrite lookup_insert_ne; [done|]. intros E. by apply (Hnew _ _ G1).
  - intros l p [[<- <-]|[Hne H]]%lookup_insert_Some.
    + split; [apply session_ok_new|]. split; [lia|]. eexists. cbn. rewrite lookup_insert, decide_True by done.
      split; [done|]. split; [done|]. intros _. cbn. by rewrite lookup_insert, decide_True.
    + destruct (Hs l p H) as (Hok & Hlt & sv & G1 & G2 & G3). split; [done|]. split; [lia|].
      destruct (Hheap _ _ G1) as (sv' & F1 & F2 & F3). exists sv'. split; [done|]. split; [congruence|auto].
  - intros v' sv [[<- _]|[_ H]]%lookup_insert_Some; [apply Hv in Hsv; lia|]. apply Hv in H. lia.
  - intros sid v' H. destruct (Hsvs sid v' H) as (sv & G1 & G2).
    destruct (Hheap _ _ G1) as (sv' & F1 & F2 & _). exists sv'. split; [done|congruence].
  - intros srv' peer' v' H. destruct (Hp _ _ _ H) as (sv & G1 & G2).
    destruct (Hheap _ _ G1) as (sv' & F1 & F2 & _). exists sv'. split; [done|congruence].
  - intros l p q m [[<- <-]|[Hne H]]%lookup_insert_Some Hq; [by apply elem_of_nil in Hq|].
    destruct (Ht l p q m H Hq) as (Hql & p' & G1 & G2). split; [done|]. exists p'.
    rewrite lookup_insert_ne; [done|]. intros E. by apply (Hnew _ _ G1).
  - intros l p q p' [[<- <-]|[Hne H]]%lookup_insert_Some Hq; [apply sublist_nil_l|].
    apply lookup_insert_Some in Hq as [[<- <-]|[_ Hq]]; [|by apply (Hf l p q p')].
    assert (from_session n p = []) as ->; [|apply sublist_nil_l]. unfold from_session.
    destruct (filter _ (took p)) as [|[q m] es] eqn:E; [done|].
    assert ((q, m) ∈ filter (λ e, e.1 = n) (took p)) as [Hq Hqm]%list_elem_of_filter
      by (rewrite E; apply list_elem_of_here).
    cbn in Hq. subst q. destruct (Ht l p n m H Hqm) as (_ & p' & G & _). by apply Hnew in G.
Qed.

Lemma WF_ok L l s : WF L → sessions L !! l = Some s → session_ok s.
Proof. intros HWF Hl. by apply (wf_session _ HWF) in Hl as [? _]. Qed.

Lemma WF_step L L' : WF L → step L L' → WF L'.
Proof.
  intros HWF Hst.
  destruct Hst as [l s s' L Hl Hs|l s s' L Hl Hs|p m L _|l s p L Hl|l s p L Hl Hs|l s v m ps L L' Hl Ho Hv Hps Hb
    |l s L Hl Hc|l s L Hl Hc|srv peer v L L' _ Hs|srv peer v ps1 ps2 r L L' Hp Hs].
  - destruct (session_ok_pump s s' Hs) as [Hok Hseen]; [by eapply WF_ok|].
    by eapply WF_set_session.
  - destruct (session_ok_user s s' Hs) as [Hok Hseen]; [by eapply WF_ok|].
    by eapply WF_set_session.
  - by eapply WF_names.
  - unfold stamp. destruct (messages L !! p); [|done]. by eapply WF_names.
  - destruct (session_ok_accept p s Hs) as [Hok Hseen]; [by eapply WF_ok|].
    by eapply WF_set_session.
  - by eapply local_WF_broadcast.
  - by apply WF_remove.
  - destruct (WF_gc L (service s) HWF) as [HWF' Hsess]. eapply WF_set_session; [done|by rewrite Hsess| |].
    + apply session_ok_cleanup; try done; rewrite ?Hc; try done. exact (WF_ok L l s HWF Hl).
    + unfold same_seen. cbn. by rewrite Hc.
  - destruct (WF_serviceForExchange L srv v L' HWF Hs) as (HWF' & Hpend & Hv).
    pose proof HWF' as [Hm Hss Hvv Hsv Hp Ht Hf]. split; try done. cbn. intros srv' peer' v' [[= -> -> ->]|H]%elem_of_cons.
    + done.
    + eapply Hp. by rewrite Hpend.
  - destruct (WF_exchange_insert L srv peer v r L' HWF) as [HWF' Hpend]; [|done|].
    + rewrite Hp. apply elem_of_app. right. apply list_elem_of_here.
    + eapply WF_names; try done. cbn. intros t Ht. rewrite Hpend, Hp.
      apply elem_of_app in Ht as [?|?]; apply elem_of_app; [by left|right]. by apply list_elem_of_further.
Qed.

Lemma reachable_WF L : reachable L → WF L.
Proof.
  intros Hr. refine (rtc_ind_r (R:=step) WF NewLocal local_WF_init _ L Hr).
  intros y z _ Hs Hy. by eapply WF_step.
Qed.

(** ** Termination of the pumps *)

Open Scope nat_scope.

(** The steps that need no application: the pumps with their broadcasts, and the
    rest of a [Close] that has begun. *)
Inductive internal_step : Local → Local → Prop :=
  | internal_pump l s s' L : sessions L !! l = Some s → pump_step s s' → internal_step L (set_session l s' L)
  | internal_cast l s v m ps L L' :
      sessions L !! l = Some s → outbound s = OCast m → svc_heap L !! svc s = Some v →
      ps ≡ₚ map_to_list (peers v) → broadcast l s m ps L = Ok L' → internal_step L L'
  | internal_remove l s L : sessions L !! l = Some s → cleanup s = CCanceled → internal_step L (leave_remove l s L)
  | internal_gc l s L : sessions L !! l = Some s → cleanup s = CGc true →
      internal_step L (set_session l (with_cleanup COut s) (leave_gc (service s) L)).

Lemma internal_is_step L L' : internal_step L L' → step L L'.
Proof. intros []; by econstructor. Qed.

(** What the outbound pump has to do, and what the rest of the session has. *)
Definition out_work (s : session) : nat :=
  2 * length (queue (out s)) + match outbound s with OLoop => 1 | OCast _ => 2 | OExit => 0 end.

Definition in_work (s : session) : nat :=
  2 * length (queue (inbox s)) + match inbound s with ILoop => 1 | IPush _ => 2 | IExit => 0 end +
  match cleanup s with
  | COpen => 6 | CCanceled => 5 | CRemoved _ => 4 | CGc _ => 3 | COut => 2 | CDone => 1 | CClosed => 0 end.

Definition total (f : session → nat) (m : gmap nat session) : nat := map_fold (λ _ s n, f s + n) 0 m.

Lemma total_insert f m l s s' :
  m !! l = Some s → total f (<[l := s']> m) + f s = total f m + f s'.
Proof.
  intros Hl. unfold total.
  rewrite (map_fold_delete_L _ _ l s' (<[l := s']> m)) by (try intros; try lia; by rewrite lookup_insert, decide_True).
  rewrite (map_fold_delete_L _ _ l s m) by (done || intros; lia).
  rewrite delete_insert_eq. lia.
Qed.

Lemma total_ext f m m' :
  (∀ l, f <$> m !! l = f <$> m' !! l) → total f m = total f m'.
Proof.
  intros H. unfold total. assert (f <$> m = f <$> m') as Heq by (apply map_eq; intros l; by rewrite !lookup_fmap).
  assert (∀ k : gmap nat session, map_fold (λ _ s n, f s + n) 0 k = map_fold (λ _ a n, a + n) 0 (f <$> k)) as Hk
    by (intros k; by rewrite map_fold_fmap).
  by rewrite !Hk, Heq.
Qed.

Lemma pump_work s s' : pump_step s s' →
  (out_work s' < out_work s ∨ out_work s' = out_work s ∧ in_work s' < in_work s).
Proof.
  unfold out_work, in_work.
  intros [s0 m q Hp Hq|s0 Hp _|s0 m q Hp Hq|s0 Hp _|s0 m Hp Hq|s0 m Hp _|s0 e Hp|s0 Hp|s0 Hp|s0 Hp];
    cbn; rewrite ?Hp, ?Hq; cbn; try (left; lia); right; (split; [done|]); lia.
Qed.

Definition less (L' L : Local) : Prop :=
  total out_work (sessions L') < total out_work (sessions L) ∨
  total out_work (sessions L') = total out_work (sessions L) ∧
  total in_work (sessions L') < total in_work (sessions L).

Lemma less_set_session l s s' L :
  sessions L !! l = Some s →
  out_work s' < out_work s ∨ out_work s' = out_work s ∧ in_work s' < in_work s →
  less (set_session l s' L) L.
Proof.
  intros Hl Hw. unfold less. cbn.
  pose proof (total_insert out_work _ l s s' Hl). pose proof (total_insert in_work _ l s s' Hl). lia.
Qed.

Lemma internal_less L L' : WF L → internal_step L L' → less L' L.
Proof.
  intros HWF Hst.
  destruct Hst as [l s s' L Hl Hs|l s v m ps L L' Hl Ho Hv Hps Hb|l s L Hl Hc|l s L Hl Hc].
  - apply (less_set_session l s); [done|]. by apply pump_work.
  - left. destruct (broadcast_spec L l s v m ps HWF Hl Hv Hps) as (L1 & Hb1 & _ & Hspec).
    rewrite Hb in Hb1. injection Hb1 as <-.
    pose proof (total_insert out_work _ l s (with_cast m (with_outbound OLoop s)) Hl) as Hsum.
    rewrite (total_ext out_work (sessions L') (<[l := with_cast m (with_outbound OLoop s)]> (sessions L))).
    { unfold out_work in *. rewrite Ho in Hsum. cbn in *. lia. }
    intros l'. rewrite Hspec. unfold after. destruct (decide (l' = l)) as [->|Hne].
    + by rewrite lookup_insert, decide_True, Hl by done.
    + rewrite lookup_insert_ne by done. destruct (sessions L !! l') as [p|]; [|done]. cbn.
      destruct (decide _); [|done]. unfold offered. by destruct (decide _).
  - destruct (wf_session _ HWF _ _ Hl) as (_ & _ & v & Hv & _). unfold leave_remove. rewrite Hv.
    eapply (less_set_session l s _ (set_svc (svc s) _ L)); [done|].
    right. unfold out_work, in_work. cbn. rewrite Hc. lia.
  - destruct (WF_gc L (service s) HWF) as [_ Hsess]. unfold less. cbn. rewrite Hsess.
    apply (less_set_session l s _ L Hl). right. unfold out_work, in_work. cbn. rewrite Hc. lia.
Qed.

Lemma less_wf : well_founded less.
Proof.
  apply (wf_projected (R1:=less) (slexprod nat nat lt lt)
    (λ L, (total out_work (sessions L), total in_work (sessions L)))).
  - intros L' L [H|[H1 H2]]; [by left|]. rewrite H1. by right.
  - apply wf_slexprod; apply lt_wf.
Qed.

Lemma internal_sn L : WF L → sn internal_step L.
Proof.
  induction (less_wf L) as [L _ IH]. intros HWF. constructor. intros L' Hs. apply IH.
  - by apply internal_less.
  - by eapply WF_step, internal_is_step.
Qed.

(** ** Properties *)

(** [C30] What the application receives from a session of the in-process backend,
    under any interleaving: the messages that entered its inbox, in that order;
    each came from another session of the same service; and those of one sender
    are among the messages that sender sent, in the order it sent them, none of
    them twice. *)
Theorem local_delivery L l p (Hr : reachable L) (Hl : sessions L !! l = Some p) :
  (∃ rest, (took p).*2 = got p ++ rest) ∧
  Forall (λ e, e.1 ≠ l ∧ ∃ q, sessions L !! e.1 = Some q ∧ service q = service p) (took p) ∧
  (∀ q sq, sessions L !! q = Some sq → from_session q p `sublist_of` sent sq).
Proof.
  pose proof (reachable_WF L Hr) as HWF. split_and!.
  - destruct (ok_in _ (WF_ok L l p HWF Hl)) as (rest & -> & _). by eexists.
  - apply Forall_forall. intros [q m] Hin. destruct (wf_took _ HWF l p q m Hl Hin) as (Hne & sq & Hq & Hsv).
    split; [done|]. exists sq. split; [done|].
    destruct (wf_session _ HWF q sq Hq) as (_ & _ & v & Hv & <- & _).
    destruct (wf_session _ HWF l p Hl) as (_ & _ & v' & Hv' & <- & _). rewrite Hsv in Hv. congruence.
  - intros q sq Hq. etrans; [by apply (wf_from _ HWF l p q sq)|].
    destruct (ok_out _ (WF_ok L q sq HWF Hq)) as (rest & -> & _). by apply sublist_inserts_r.
Qed.

(** One broadcast, for whatever order the range over the peers takes: it
    never sends on a closed channel; every session that is still in the service
    under another peer id gets the message exactly once, at the end of its
    inbox, or not at all when its inbox is full; no other session changes. *)
Theorem local_broadcast L l s v m ps (Hr : reachable L) (Hl : sessions L !! l = Some s)
    (Hv : svc_heap L !! svc s = Some v) (Hps : ps ≡ₚ map_to_list (peers v)) :
  ∃ L', broadcast l s m ps L = Ok L' ∧
    ∀ l' p, sessions L !! l' = Some p → l' ≠ l →
      sessions L' !! l' = Some
        (if decide (svc p = svc s ∧ removed (cleanup p) = false ∧ peerID p ≠ peerID s ∧ has_room (inbox p))
         then with_took l m (with_inbox (enqueue m (inbox p)) p) else p).
Proof.
  pose proof (reachable_WF L Hr) as HWF.
  destruct (broadcast_spec L l s v m ps HWF Hl Hv Hps) as (L' & HL' & _ & Hspec).
  exists L'. split; [done|]. intros l' p Hp Hne. rewrite Hspec, Hp. cbn. apply (f_equal Some).
  unfold after. rewrite decide_False by done.
  pose proof (targets_iff L l s v ps l' p HWF Hl Hv Hps Hp) as Hiff.
  unfold offered. destruct (decide (l' ∈ _)) as [Hin|Hout]; destruct (decide (has_room (inbox p))) as [Hroom|Hroom];
    destruct (decide (_ ∧ _ ∧ _ ∧ _)) as [?|Hn]; try done; exfalso; tauto.
Qed.

(** A session all of whose goroutines are idle. *)
Lemma idle_session L l p :
  WF L → nf internal_step L → sessions L !! l = Some p → (∀ m, outbound p ≠ OCast m) ∧ ∀ p', ¬ pump_step p p'.
Proof.
  intros HWF Hnf Hl. split.
  - intros m Hm. destruct (wf_session _ HWF l p Hl) as (_ & _ & v & Hv & _).
    destruct (broadcast_spec L l p v m (map_to_list (peers v)) HWF Hl Hv) as (L' & HL' & _); [done|].
    apply Hnf. exists L'. by eapply (internal_cast l p v m).
  - intros p' Hp. apply Hnf. eexists. by eapply (internal_pump l p p').
Qed.

(** An idle session that is open has sent and received all it could. *)
Lemma idle_open L l p :
  WF L → nf internal_step L → sessions L !! l = Some p → cleanup p = COpen →
  queue (out p) = [] ∧ cast p = sent p ∧ (has_room (in_ p) → (took p).*2 = got p ++ queue (in_ p)).
Proof.
  intros HWF Hnf Hl Hc. destruct (idle_session L l p HWF Hnf Hl) as [Hcast Hno].
  destruct (WF_ok L l p HWF Hl) as [(ro & Ho & Hor) (ri & Hi & Hir) _ _ _ _ _ Hex _].
  assert (outbound p = OLoop ∧ queue (out p) = []) as [Hout Hq].
  { destruct (outbound p) as [|m|] eqn:Hout; [|by destruct (Hcast m)|by destruct Hex; [left|]].
    destruct (queue (out p)) as [|m q] eqn:Hq; [done|]. destruct (Hno _ (out_read p m q Hout Hq)). }
  rewrite Hout, Hq in Hor. split; [done|]. split.
  - by rewrite Ho, (Hor ltac:(done)), app_nil_r.
  - intros Hroom. destruct (inbound p) as [|m|] eqn:Hin; [| |by destruct Hex; [right|]].
    + destruct (queue (inbox p)) as [|m q] eqn:Hqi; [|destruct (Hno _ (in_read p m q Hin Hqi))].
      by rewrite Hi, (Hir ltac:(done)), app_nil_r.
    + destruct (Hno _ (in_push p m Hin Hroom)).
Qed.

(** [C19] The pumps deliver, and [Close] returns. From any reachable state the
    goroutines of the backend run for finitely many steps; when none can move,
    every message that the [Send] of an open session accepted has been
    broadcast, all that entered its inbox has been received or waits in the
    channel of [Receive], unless that is full; and a session whose [Close] was
    called has been closed, its pumps have returned and its channels are
    closed. *)
Theorem local_pumps_deliver L (Hr : reachable L) :
  sn internal_step L ∧
  (nf internal_step L → ∀ l p, sessions L !! l = Some p →
     if decide (cleanup p = COpen)
     then cast p = sent p ∧ (has_room (in_ p) → (took p).*2 = got p ++ queue (in_ p))
     else cleanup p = CClosed ∧ outbound p = OExit ∧ inbound p = IExit ∧
          closed (out p) = true ∧ closed (inbox p) = true ∧ closed (in_ p) = true).
Proof.
  pose proof (reachable_WF L Hr) as HWF. split; [by apply internal_sn|]. intros Hnf l p Hl.
  destruct (idle_session L l p HWF Hnf Hl) as [Hcast Hno].
  destruct (WF_ok L l p HWF Hl) as [_ _ Hoc Hic Hnc _ Hca _ _].
  destruct (decide (cleanup p = COpen)) as [Hc|Hc]; [by destruct (idle_open L l p HWF Hnf Hl Hc) as (_ & ? & ?)|].
  rewrite bool_decide_eq_false_2 in Hca by done. cbn in Hca.
  assert (cleanup p = CClosed) as Hcl.
  { destruct (cleanup p) as [| |e|[]| | |] eqn:E; try done.
    - destruct (wf_session _ HWF l p Hl) as (_ & _ & v & Hv & _).
      destruct Hnf. eexists. by eapply (internal_remove l p).
    - destruct (Hno _ (close_inbox p e E)).
    - destruct Hnf. eexists. by eapply (internal_gc l p).
    - destruct (Hno _ (skip_gc p E)).
    - destruct (Hno _ (close_out p E)).
    - destruct (Hno _ (close_done p E)). }
  assert (outbound p = OExit) as Hoe.
  { destruct (outbound p) as [|m|] eqn:E; [|by destruct (Hcast m)|done].
    destruct (Hno _ (out_end p E ltac:(by right))). }
  assert (inbound p = IExit) as Hie.
  { destruct (inbound p) as [|m|] eqn:E; [| |done].
    - destruct (Hno _ (in_end p E ltac:(by right))).
    - destruct (Hno _ (in_push_end p m E ltac:(done))). }
  rewrite Hoc, Hic, Hnc, Hcl. split_and!; try done. by apply bool_decide_eq_true_2.
Qed.

(** [Send] around [Close]. Until [Close] reaches its last section a [Send]
    never panics; after [Close] has returned, no [Send] is accepted, and the
    [select] finds two of its cases ready: it returns the error "session
    closed" or panics by sending on the closed channel. *)
Theorem send_around_close L l s ctx (Hr : reachable L) (Hl : sessions L !! l = Some s) :
  (out_gone (cleanup s) = false → ∀ msg, ¬ Send_outcome ctx (out s) (done s) (Panic msg)) ∧
  (cleanup s = CClosed →
     ¬ Send_outcome ctx (out s) (done s) (Ok tt) ∧
     Send_outcome ctx (out s) (done s) (Fail (ErrorString "signal: session closed")) ∧
     Send_outcome ctx (out s) (done s) (Panic "send on closed channel")).
Proof.
  pose proof (WF_ok L l s (reachable_WF L Hr) Hl) as Hok.
  pose proof (ok_out_closed _ Hok) as Ho. pose proof (ok_done _ Hok) as Hd. split.
  - intros Hg msg Hs. inversion Hs. congruence.
  - intros Hc. rewrite Hc in Ho, Hd. cbn in Ho. rewrite bool_decide_eq_true_2 in Hd by done. split_and!.
    + intros Hs. inversion Hs. congruence.
    + by apply send_done.
    + by apply send_closed.
Qed.

(** ** A run *)

Lemma set_pending_id L : set_pending (pending L) L = L.
Proof. by destruct L. Qed.

(** A call of [Exchange] that no other call overtakes. *)
Lemma reachable_Exchange srv peer r L L' :
  exchange_args srv peer = None → pending L = [] → Exchange srv peer L = (r, L') → reachable L → reachable L'.
Proof.
  intros Ha Hp HE Hr. unfold Exchange in HE. rewrite Ha in HE.
  destruct (serviceForExchange srv L) as [v L1] eqn:Hs.
  assert (pending L1 = []) as Hp1
    by (unfold serviceForExchange in Hs; destruct (services L !! srv); by simplify_eq).
  set (L2 := set_pending [(srv, peer, v)] L1).
  assert (exchange_insert srv peer v L2 = (r, set_pending [(srv, peer, v)] L')) as HE2.
  { unfold exchange_insert in *. cbn. destruct (svc_heap L1 !! v) as [s|]; [|by simplify_eq].
    destruct (peers s !! peer); by simplify_eq. }
  eapply rtc_r; [eapply rtc_r; [exact Hr|by apply (step_exchange1 srv peer v L L1)]|].
  rewrite Hp. fold L2. replace L' with (set_pending ([] ++ []) (set_pending [(srv, peer, v)] L')).
  - by apply (step_exchange2 srv peer v [] [] r).
  - assert (pending L' = []) as Hp'; [|destruct L'; cbn in *; by subst].
    unfold exchange_insert in HE. destruct (svc_heap L1 !! v) as [s|]; [|by simplify_eq].
    destruct (peers s !! peer); by simplify_eq.
Qed.

Definition sess (l : nat) (L : Local) : session := default (new_session "" "" 0) (sessions L !! l).

(** Peers a and b join, a sends message 7, it is broadcast, and b receives it. *)
Definition ex_first : Local := (Exchange "s" "a" NewLocal).2.
Definition ex_joined : Local := (Exchange "s" "b" ex_first).2.
Definition ex_sent : Local := set_session 1 (accept 7 (sess 1 ex_joined)) ex_joined.
Definition ex_read : Local :=
  set_session 1 (with_outbound (OCast 7) (with_out (set_queue [] (out (sess 1 ex_sent))) (sess 1 ex_sent))) ex_sent.
Definition ex_cast : Local :=
  match broadcast 1 (sess 1 ex_read) 7 [("a"%string, 1); ("b"%string, 2)] ex_read with Ok L => L | _ => ex_read end.
Definition ex_pumped : Local :=
  set_session 2 (with_inbound (IPush 7) (with_inbox (set_queue [] (inbox (sess 2 ex_cast))) (sess 2 ex_cast))) ex_cast.
Definition ex_waiting : Local :=
  set_session 2 (with_inbound ILoop (with_in (enqueue 7 (in_ (sess 2 ex_pumped))) (sess 2 ex_pumped))) ex_pumped.
Definition ex_received : Local :=
  set_session 2 (with_got 7 (with_in (set_queue [] (in_ (sess 2 ex_waiting))) (sess 2 ex_waiting))) ex_waiting.

Lemma ex_joined_reachable : reachable ex_joined.
Proof.
  apply (reachable_Exchange "s" "b" (inl 2) ex_first); [reflexivity..|].
  apply (reachable_Exchange "s" "a" (inl 1) NewLocal); [reflexivity..|apply rtc_refl].
Qed.

Lemma ex_read_reachable : reachable ex_read.
Proof.
  eapply rtc_r; [eapply rtc_r; [exact ex_joined_reachable|]|].
  - apply (step_send 1 (sess 1 ex_joined) 7); [by vm_compute|].
    apply send_accept; [reflexivity|]. unfold has_room. by vm_compute; lia.
  - apply (step_pump 1 (sess 1 ex_sent)); [by vm_compute|]. by apply out_read.
Qed.

Lemma ex_received_reachable : reachable ex_received.
Proof.
  eapply rtc_r; [eapply rtc_r; [eapply rtc_r; [eapply rtc_r; [exact ex_read_reachable|]|]|]|].
  - apply (step_broadcast 1 (sess 1 ex_read) {| id := "s"; peers := <["a"%string:=1]> (<["b"%string:=2]> ∅) |} 7
             [("a"%string, 1); ("b"%string, 2)]); [by vm_compute..| |by vm_compute].
    by vm_compute.
  - apply (step_pump 2 (sess 2 ex_cast)); [by vm_compute|]. by apply in_read.
  - apply (step_pump 2 (sess 2 ex_pumped)); [by vm_compute|]. apply in_push; [by vm_compute|].
    unfold has_room. vm_compute; lia.
  - apply (step_user 2 (sess 2 ex_waiting)); [by vm_compute|]. by apply receive.
Qed.

Lemma local_delivery_witness :
  got (sess 2 ex_received) = [7] ∧
  (∃ rest, (took (sess 2 ex_received)).*2 = got (sess 2 ex_received) ++ rest) ∧
  Forall (λ e, e.1 ≠ 2 ∧ ∃ q, sessions ex_received !! e.1 = Some q ∧ service q = service (sess 2 ex_received))
    (took (sess 2 ex_received)) ∧
  (∀ q sq, sessions ex_received !! q = Some sq → from_session q (sess 2 ex_received) `sublist_of` sent sq).
Proof.
  split; [reflexivity|].
  apply (local_delivery ex_received 2); [exact ex_received_reachable|by vm_compute].
Defined.

Lemma local_broadcast_witness :
  ∃ L', broadcast 1 (sess 1 ex_read) 7 [("a"%string, 1); ("b"%string, 2)] ex_read = Ok L' ∧
    ∀ l' p, sessions ex_read !! l' = Some p → l' ≠ 1 →
      sessions L' !! l' = Some
        (if decide (svc p = svc (sess 1 ex_read) ∧ removed (cleanup p) = false ∧
                    peerID p ≠ peerID (sess 1 ex_read) ∧ has_room (inbox p))
         then with_took 1 7 (with_inbox (enqueue 7 (inbox p)) p) else p).
Proof.
  apply (local_broadcast ex_read 1 _ {| id := "s"; peers := <["a"%string:=1]> (<["b"%string:=2]> ∅) |});
    [exact ex_read_reachable|by vm_compute..].
Defined.

Lemma local_pumps_deliver_witness : sn internal_step ex_received.
Proof. exact (proj1 (local_pumps_deliver ex_received ex_received_reachable)). Defined.

(** The session of a single peer is closed. *)
Definition ex_canceled : Local := set_session 1 (with_cleanup CCanceled (with_cancel (sess 1 ex_first))) ex_first.
Definition ex_removed : Local := leave_remove 1 (sess 1 ex_canceled) ex_canceled.
Definition ex_inbox_closed : Local :=
  set_session 1 (with_cleanup (CGc true) (with_inbox (close (inbox (sess 1 ex_removed))) (sess 1 ex_removed))) ex_removed.
Definition ex_collected : Local :=
  set_session 1 (with_cleanup COut (sess 1 ex_inbox_closed)) (leave_gc (service (sess 1 ex_inbox_closed)) ex_inbox_closed).
Definition ex_out_closed : Local :=
  set_session 1 (with_cleanup CDone (with_out (close (out (sess 1 ex_collected))) (sess 1 ex_collected))) ex_collected.
Definition ex_closed : Local :=
  set_session 1 (with_cleanup CClosed (with_done (sess 1 ex_out_closed))) ex_out_closed.

Lemma ex_closed_reachable : reachable ex_closed.
Proof.
  assert (reachable ex_first) as Hr.
  { apply (reachable_Exchange "s" "a" (inl 1) NewLocal ex_first); [reflexivity..|apply rtc_refl]. }
  unfold reachable in *. etrans; [exact Hr|].
  eapply rtc_l; [apply (step_user 1 (sess 1 ex_first)); [by vm_compute|by apply cancel]|].
  eapply rtc_l; [apply (step_remove 1 (sess 1 ex_canceled)); by vm_compute|].
  eapply rtc_l; [apply (step_pump 1 (sess 1 ex_removed)); [by vm_compute|by apply (close_inbox _ true)]|].
  eapply rtc_l; [apply (step_gc 1 (sess 1 ex_inbox_closed)); by vm_compute|].
  eapply rtc_l; [apply (step_pump 1 (sess 1 ex_collected)); [by vm_compute|by apply close_out]|].
  eapply rtc_l; [apply (step_pump 1 (sess 1 ex_out_closed)); [by vm_compute|by apply close_done]|].
  apply rtc_refl.
Qed.

Lemma send_around_close_witness :
  services ex_closed = ∅ ∧
  ¬ Send_outcome None (out (sess 1 ex_closed)) (done (sess 1 ex_closed)) (Ok tt) ∧
  Send_outcome None (out (sess 1 ex_closed)) (done (sess 1 ex_closed)) (Fail (ErrorString "signal: session closed")) ∧
  Send_outcome None (out (sess 1 ex_closed)) (done (sess 1 ex_closed)) (Panic "send on closed channel").
Proof.
  split; [by vm_compute|].
  apply (send_around_close ex_closed 1 (sess 1 ex_closed) None ex_closed_reachable); by vm_compute.
Defined.

(** An [Exchange] that looked the service up before its last peer left inserts
    its peer after the service was collected: the next peer meets a new one. *)
Theorem local_peer_orphaned :
  let '(v, L1) := serviceForExchange "s" ex_canceled in
  let L2 := leave_gc "s" (leave_remove 1 (sess 1 L1) L1) in
  let '(r, L3) := exchange_insert "s" "b" v L2 in
  let '(r', L4) := Exchange "s" "c" L3 in
  r = inl 2 ∧ r' = inl 4 ∧ svc (sess 2 L4) ≠ svc (sess 4 L4) ∧
  service (sess 2 L4) = "s"%string ∧ service (sess 4 L4) = "s"%string ∧ services L4 = {["s"%string := 3]}.
Proof. by vm_compute. Qed.
