(* ===== verification/Base58.v ===== *)
(** * Base58 (peerrpc/base58.go)

    The encoder with its fixed-size digit buffer and the decoder with its
    [big.Int], and that each is the inverse of the other. *)

From Stdlib Require Import Strings.Byte ZArith Lia.
From stdpp Require Import numbers strings list.
From S2P Require Import Prelude.
Open Scope Z_scope.

(** Go strings are byte sequences. *)
Definition base58Alphabet : bytes :=
  String.list_byte_of_string "123456789ABCDEFGHJKLMNPQRSTUVWXYZabcdefghijkmnopqrstuvwxyz".

Definition alpha (d : Z) : byte := nth (Z.to_nat d) base58Alphabet x00.

(** [init]: 128 entries, -1 outside the alphabet. *)
Definition base58Index : list Z :=
  foldl (λ t i, <[Z.to_nat (Z_of_byte (alpha (Z.of_nat i))) := Z.of_nat i]> t) (replicate 128 (-1)) (seq 0 58).

(** The number of leading elements equal to [x], and the rest. *)
Fixpoint leading {A} `{EqDecision A} (x : A) (l : list A) : nat :=
  match l with y :: l => if decide (y = x) then S (leading x l) else 0 | [] => 0 end.

(** ** encodeBase58 *)

(** The loop over the buffer for one byte, from its end: [carry] comes in on
    the right and goes out on the left. *)
Fixpoint mul_add (encoded : list Z) (carry : Z) : list Z * Z :=
  match encoded with
  | [] => ([], carry)
  | d :: ds =>
      let '(ds, carry) := mul_add ds carry in
      let carry := carry + 256 * d in (carry mod 58 :: ds, carry / 58)
  end.

Definition encode_loop (bs : bytes) (encoded : list Z) : list Z :=
  foldl (λ enc byt, (mul_add enc (Z_of_byte byt)).1) encoded bs.

Definition encodeBase58 (b : bytes) : bytes :=
  if decide (b = []) then []
  else
    let zeros := leading x00 b in
    let size := ((length b - zeros) * 138 / 100 + 1)%nat in
    let encoded := encode_loop (drop zeros b) (replicate size 0) in
    let lead := leading 0 encoded in
    replicate zeros (alpha 0) ++ (alpha <$> drop lead encoded).

(** ** decodeBase58 *)

(** [c >= 128 || base58Index[c] < 0]: the digit of a character. *)
Definition digit (c : byte) : option Z :=
  if (128 <=? Z_of_byte c) || (nth (Z.to_nat (Z_of_byte c)) base58Index (-1) <? 0)
  then None else Some (nth (Z.to_nat (Z_of_byte c)) base58Index (-1)).

Fixpoint decode_loop (s : bytes) (acc : Z) : option Z :=
  match s with
  | [] => Some acc
  | c :: s => match digit c with Some d => decode_loop s (acc * 58 + d) | None => None end
  end.

(** [acc.Bytes()]: big-endian, no leading zero byte.  A positive [n] has
    [log2 n + 1] bits, so as many divisions by 256 reach 0. *)
Fixpoint be_bytes (fuel : nat) (n : Z) : bytes :=
  match fuel with
  | O => []
  | S fuel => if n =? 0 then [] else be_bytes fuel (n / 256) ++ [byte_of_Z n]
  end.

Definition big_Bytes (n : Z) : bytes := be_bytes (S (Z.to_nat (Z.log2 n))) n.

Definition decodeBase58 (s : bytes) : res bytes :=
  if decide (s = []) then Ok []
  else
    let zeros := leading (alpha 0) s in
    match decode_loop (drop zeros s) 0 with
    | None => Fail (ErrorString "peerrpc: invalid base58 character")
    | Some acc => Ok (replicate zeros x00 ++ big_Bytes acc)
    end.

Example encode_hello :
  encodeBase58 (String.list_byte_of_string "Hello") = String.list_byte_of_string "9Ajdvzr".
Proof. vm_compute. reflexivity. Qed.

Arguments digit : simpl never.
Arguments alpha : simpl never.

(** ** Positional notation *)

Definition digits_of (B : Z) (ds : list Z) : Prop := Forall (λ d, 0 ≤ d < B) ds.

Definition val (B : Z) (ds : list Z) : Z := foldl (λ v d, v * B + d) 0 ds.

Arguments val : simpl never.

Lemma foldl_val B v ds :
  foldl (λ v d, v * B + d) v ds = v * B ^ len ds + val B ds.
Proof.
  revert v. unfold val. induction ds as [|d ds IH] using rev_ind; intros v.
  - cbn. change (len []) with 0. rewrite Z.pow_0_r. lia.
  - rewrite !foldl_app. cbn. rewrite (IH v), (IH 0), len_snoc. rewrite Z.pow_add_r, Z.pow_1_r by (pose proof (len_nonneg ds); lia).
    lia.
Qed.

Lemma val_cons B d ds : val B (d :: ds) = d * B ^ len ds + val B ds.
Proof. unfold val at 1. cbn. apply foldl_val. Qed.

Lemma val_snoc B ds d : val B (ds ++ [d]) = val B ds * B + d.
Proof. unfold val. by rewrite foldl_app. Qed.

Lemma val_bounds B ds : 1 < B → digits_of B ds → 0 ≤ val B ds < B ^ len ds.
Proof.
  intros HB. induction 1 as [|d ds Hd _ IH]; [done|]. rewrite val_cons.
  pose proof (len_nonneg ds).
  rewrite len_cons.
  rewrite Z.pow_add_r, Z.pow_1_r by lia. nia.
Qed.

Lemma val_leading B ds : val B (drop (leading 0 ds) ds) = val B ds.
Proof.
  induction ds as [|d ds IH]; [done|]. cbn. destruct (decide (d = 0)) as [->|]; [|done].
  cbn. rewrite IH, val_cons. lia.
Qed.

(** No leading zero. *)
Definition canonical (ds : list Z) : Prop := head ds ≠ Some 0.

Lemma leading_canonical ds : canonical (drop (leading 0 ds) ds).
Proof.
  induction ds as [|d ds IH]; [done|]. cbn. destruct (decide (d = 0)); [done|].
  cbn. by intros [= ->].
Qed.

Lemma canonical_bounds B d ds :
  1 < B → digits_of B (d :: ds) → canonical (d :: ds) → B ^ len ds ≤ val B (d :: ds).
Proof.
  intros HB Hds Hc. apply Forall_cons in Hds as [Hd Hds].
  assert (d ≠ 0) by (intros ->; by apply Hc). rewrite val_cons.
  pose proof (val_bounds B ds HB Hds). nia.
Qed.

Lemma canonical_len B ds1 ds2 :
  1 < B → digits_of B ds1 → digits_of B ds2 → canonical ds1 → val B ds1 = val B ds2 →
  len ds1 ≤ len ds2.
Proof.
  intros HB H1 H2 Hc Heq. destruct ds1 as [|d ds1]; [apply len_nonneg|].
  pose proof (canonical_bounds B d ds1 HB H1 Hc). pose proof (val_bounds B ds2 HB H2).
  assert (B ^ len ds1 < B ^ len ds2) as Hlt by lia.
  apply Z.pow_lt_mono_r_iff in Hlt; [|lia|apply len_nonneg].
  rewrite len_cons. lia.
Qed.

Lemma val_inj_len B ds1 : ∀ ds2,
  1 < B → digits_of B ds1 → digits_of B ds2 → len ds1 = len ds2 → val B ds1 = val B ds2 → ds1 = ds2.
Proof.
  induction ds1 as [|d1 ds1 IH] using rev_ind; intros ds2 HB H1 H2 Hl Heq.
  - symmetry. by apply len_0.
  - destruct ds2 as [|d2 ds2 _] using rev_ind; [rewrite len_snoc in Hl; pose proof (len_nonneg ds1); rewrite len_nil in Hl; lia|].
    rewrite !val_snoc in Heq. rewrite !len_snoc in Hl.
    apply Forall_app in H1 as [H1 [Hd1 _]%Forall_cons]. apply Forall_app in H2 as [H2 [Hd2 _]%Forall_cons].
    assert (val B ds1 = val B ds2) as Hv.
    { apply (f_equal (λ x, x / B)) in Heq. by rewrite !Z.div_add_l, !Z.div_small, !Z.add_0_r in Heq by lia. }
    assert (d1 = d2) as -> by lia.
    rewrite (IH ds2); [done|done|done|done|lia|done].
Qed.

(** A number has one representation without a leading zero. *)
Lemma canonical_unique B ds1 ds2 :
  1 < B → digits_of B ds1 → digits_of B ds2 → canonical ds1 → canonical ds2 →
  val B ds1 = val B ds2 → ds1 = ds2.
Proof.
  intros HB H1 H2 Hc1 Hc2 Heq. apply (val_inj_len B); try done.
  pose proof (canonical_len B ds1 ds2 HB H1 H2 Hc1 Heq).
  pose proof (canonical_len B ds2 ds1 HB H2 H1 Hc2 (eq_sym Heq)). lia.
Qed.

(** ** The alphabet *)

Definition digit_ok (c : byte) : bool :=
  match digit c with Some d => bool_decide (alpha d = c) && (0 <=? d) && (d <? 58) | None => true end.

Lemma alpha_digit c d : digit c = Some d → alpha d = c ∧ 0 ≤ d < 58.
Proof.
  assert (digit_ok c = true) as H by (destruct c; vm_compute; reflexivity).
  unfold digit_ok in H. intros Hd. rewrite Hd in H.
  apply andb_prop in H as [[H H1]%andb_prop H2]. apply bool_decide_eq_true_1 in H.
  apply Z.leb_le in H1. apply Z.ltb_lt in H2. done.
Qed.

Definition alpha_ok (d : Z) : bool := bool_decide (digit (alpha d) = Some d).

Lemma digit_alpha d : 0 ≤ d < 58 → digit (alpha d) = Some d.
Proof.
  intros Hd. assert (forallb alpha_ok (seqZ 0 58) = true) as H by (vm_compute; reflexivity).
  rewrite forallb_forall in H. apply (bool_decide_eq_true_1 (digit (alpha d) = Some d)), H.
  apply list_elem_of_In, elem_of_seqZ. lia.
Qed.

Lemma alpha_zero d : 0 ≤ d < 58 → alpha d = alpha 0 → d = 0.
Proof. intros Hd H. pose proof (digit_alpha d Hd) as Hx. rewrite H in Hx. by injection Hx. Qed.

(** ** The encoder *)

Lemma mul_add_spec ds c ds' c' :
  digits_of 58 ds → 0 ≤ c → mul_add ds c = (ds', c') →
  length ds' = length ds ∧ digits_of 58 ds' ∧ 0 ≤ c' ∧
  c' * 58 ^ len ds + val 58 ds' = 256 * val 58 ds + c.
Proof.
  intros Hds Hc. revert ds' c'. induction Hds as [|d ds Hd Hds IH]; intros ds' c'; cbn.
  - intros [= <- <-]. change (len (@nil Z)) with 0. unfold val. cbn. repeat split; [constructor|lia|lia].
  - destruct (mul_add ds c) as [ds1 c1] eqn:E. intros [= <- <-].
    destruct (IH ds1 c1 eq_refl) as (Hl & Hd1 & Hc1 & Hv).
    pose proof (Z.mod_pos_bound (c1 + 256 * d) 58 ltac:(lia)).
    split; [by cbn; rewrite Hl|]. split; [by apply Forall_cons|].
    split; [apply Z.div_pos; lia|]. rewrite !val_cons, len_cons.
    replace (len ds1) with (len ds) by (unfold len; by rewrite Hl).
    rewrite Z.pow_add_r, Z.pow_1_r by (try apply len_nonneg; lia).
    pose proof (Z.div_mod (c1 + 256 * d) 58 ltac:(lia)). nia.
Qed.

Lemma mul_add_fits ds c :
  digits_of 58 ds → 0 ≤ c → 256 * val 58 ds + c < 58 ^ len ds →
  let ds' := (mul_add ds c).1 in
  length ds' = length ds ∧ digits_of 58 ds' ∧ val 58 ds' = 256 * val 58 ds + c.
Proof.
  intros Hds Hc Hlt. destruct (mul_add ds c) as [ds' c'] eqn:E. cbn.
  destruct (mul_add_spec ds c ds' c' Hds Hc E) as (Hl & Hd & Hc' & Hv).
  pose proof (val_bounds 58 ds' ltac:(lia) Hd). 
  destruct (decide (c' = 0)) as [->|Hne]; [by split_and!; try lia|].
  assert (1 * 58 ^ len ds ≤ c' * 58 ^ len ds) by (apply Z.mul_le_mono_nonneg_r; [by apply Z.pow_nonneg|lia]).
  lia.
Qed.

Definition bval (b : bytes) : Z := val 256 (Z_of_byte <$> b).

Lemma bytes_digits b : digits_of 256 (Z_of_byte <$> b).
Proof. apply Forall_fmap, Forall_true. intros x. apply Z_of_byte_range. Qed.

Lemma bval_bounds b : 0 ≤ bval b < 256 ^ len b.
Proof.
  pose proof (val_bounds 256 _ ltac:(lia) (bytes_digits b)) as H.
  unfold len in *. by rewrite length_fmap in H.
Qed.

Lemma bval_snoc b x : bval (b ++ [x]) = 256 * bval b + Z_of_byte x.
Proof. unfold bval. rewrite fmap_app. cbn. rewrite val_snoc. lia. Qed.

Lemma val_zeros n : val 58 (replicate n 0) = 0.
Proof. induction n as [|n IH]; [done|]. cbn. by rewrite val_cons, IH. Qed.

(** The buffer holds the number read so far as long as it is large enough. *)
Lemma encode_loop_spec bs n :
  256 ^ len bs ≤ 58 ^ Z.of_nat n →
  let ds := encode_loop bs (replicate n 0) in
  length ds = n ∧ digits_of 58 ds ∧ val 58 ds = bval bs.
Proof.
  induction bs as [|x bs IH] using rev_ind; intros Hn; cbv zeta.
  - cbn. rewrite length_replicate, val_zeros. split; [done|]. split; [|done].
    apply Forall_replicate. lia.
  - unfold encode_loop. rewrite foldl_app. cbn. rewrite len_snoc, Z.pow_add_r in Hn by (try apply len_nonneg; lia).
    destruct IH as (Hl & Hd & Hv); [lia|]. fold (encode_loop bs (replicate n 0)).
    pose proof (Z_of_byte_range x). pose proof (bval_bounds bs).
    destruct (mul_add_fits (encode_loop bs (replicate n 0)) (Z_of_byte x) Hd) as (Hl' & Hd' & Hv');
      [lia|rewrite Hv; unfold len; rewrite Hl; lia|].
    rewrite Hl', Hv', Hv, bval_snoc. by split.
Qed.

(** [n * 138 / 100 + 1] base-58 digits hold [n] bytes: 256^100 < 58^138. *)
Lemma size_enough n : 256 ^ Z.of_nat n ≤ 58 ^ Z.of_nat (n * 138 / 100 + 1)%nat.
Proof.
  set (k := (n * 138 / 100 + 1)%nat).
  assert (n * 138 < 100 * k)%nat as Hk.
  { unfold k. pose proof (Nat.div_mod (n * 138) 100 ltac:(lia)).
    pose proof (Nat.mod_upper_bound (n * 138) 100 ltac:(lia)). lia. }
  apply Z.le_ngt. intros Hlt.
  assert ((58 ^ Z.of_nat k) ^ 100 < (256 ^ Z.of_nat n) ^ 100) as Hp
    by (apply Z.pow_lt_mono_l; [lia|split; [apply Z.pow_nonneg; lia|done]]). clear Hlt.
  rewrite <- !Z.pow_mul_r in Hp by lia.
  assert (256 ^ (Z.of_nat n * 100) ≤ 58 ^ (138 * Z.of_nat n)) as H1.
  { rewrite Z.mul_comm, !Z.pow_mul_r by lia. apply Z.pow_le_mono_l. split; [by apply Z.pow_nonneg|].
    apply Z.leb_le. vm_compute. reflexivity. }
  assert (58 ^ (138 * Z.of_nat n) ≤ 58 ^ (Z.of_nat k * 100)) by (apply Z.pow_le_mono_r; lia).
  lia.
Qed.

(** ** The decoder *)

Lemma leading_split {A} `{EqDecision A} (x : A) l :
  l = replicate (leading x l) x ++ drop (leading x l) l ∧ head (drop (leading x l) l) ≠ Some x.
Proof.
  induction l as [|y l [IH1 IH2]]; [done|]. cbn. destruct (decide (y = x)) as [->|Hne]; cbn.
  - split; [by f_equal|done].
  - split; [done|]. by intros [= ->].
Qed.

Lemma leading_replicate {A} `{EqDecision A} (x : A) n l :
  head l ≠ Some x → leading x (replicate n x ++ l) = n ∧ drop n (replicate n x ++ l) = l.
Proof.
  intros Hl. split.
  - induction n as [|n IH]; cbn; [|by rewrite decide_True, IH by done].
    destruct l as [|y l]; [done|]. cbn. rewrite decide_False; [done|]. by intros ->.
  - by rewrite drop_app_length' by (by rewrite length_replicate).
Qed.

Lemma decode_loop_spec ds : ∀ acc,
  digits_of 58 ds → decode_loop (alpha <$> ds) acc = Some (foldl (λ v d, v * 58 + d) acc ds).
Proof.
  induction ds as [|d ds IH]; intros acc Hds; [done|].
  apply Forall_cons in Hds as [Hd Hds]. cbn. rewrite digit_alpha by done. by apply IH.
Qed.

Lemma decode_loop_inv s : ∀ acc v,
  decode_loop s acc = Some v →
  ∃ ds, s = alpha <$> ds ∧ digits_of 58 ds ∧ v = foldl (λ v d, v * 58 + d) acc ds.
Proof.
  induction s as [|c s IH]; intros acc v; cbn.
  - intros [= <-]. exists []. split; [done|]. split; [constructor|done].
  - destruct (digit c) as [d|] eqn:Hd; [|done]. intros H.
    destruct (IH _ _ H) as (ds & -> & Hds & ->). apply alpha_digit in Hd as [<- Hd].
    exists (d :: ds). split; [done|]. split; [by apply Forall_cons|done].
Qed.

Lemma be_bytes_spec fuel : ∀ n,
  0 ≤ n < 2 ^ Z.of_nat fuel →
  bval (be_bytes fuel n) = n ∧ head (be_bytes fuel n) ≠ Some x00.
Proof.
  induction fuel as [|fuel IH]; intros n Hn.
  { change (2 ^ Z.of_nat 0) with 1 in Hn. split; [change (bval (be_bytes 0 n)) with 0; lia|done]. }
  cbn. destruct (Z.eqb_spec n 0) as [->|Hne]; [done|].
  rewrite Nat2Z.inj_succ, Z.pow_succ_r in Hn by lia.
  assert (0 ≤ n / 256 < 2 ^ Z.of_nat fuel) as Hq.
  { split; [apply Z.div_pos; lia|]. apply Z.div_lt_upper_bound; lia. }
  destruct (IH (n / 256) Hq) as [Hv Hh]. split.
  - rewrite bval_snoc, Hv, Z_of_byte_of_Z. pose proof (Z.div_mod n 256). lia.
  - destruct (be_bytes fuel (n / 256)) as [|b bs] eqn:E; [|done]. cbn.
    intros [= H]. apply (f_equal Z_of_byte) in H. rewrite Z_of_byte_of_Z in H.
    change (Z_of_byte x00) with 0 in H. change (bval []) with 0 in Hv.
    pose proof (Z.div_mod n 256). lia.
Qed.

Lemma big_Bytes_spec n : 0 ≤ n → bval (big_Bytes n) = n ∧ head (big_Bytes n) ≠ Some x00.
Proof.
  intros Hn. apply be_bytes_spec. split; [done|].
  destruct (decide (n = 0)) as [->|]; [done|].
  rewrite Nat2Z.inj_succ, Z2Nat.id by apply Z.log2_nonneg. apply Z.log2_spec. lia.
Qed.

#[local] Instance Z_of_byte_Inj : Inj (=) (=) Z_of_byte := Z_of_byte_inj.

Lemma fmap_Z_of_byte_inj (b1 b2 : bytes) : Z_of_byte <$> b1 = Z_of_byte <$> b2 → b1 = b2.
Proof. apply (inj (fmap Z_of_byte)). Qed.

Lemma bytes_canonical b : head b ≠ Some x00 → canonical (Z_of_byte <$> b).
Proof.
  destruct b as [|x b]; [done|]. unfold canonical. cbn. intros H [= Hx]. apply H.
  f_equal. by apply Z_of_byte_inj.
Qed.

(** The two halves of both functions: the leading zeros and a number without. *)
Lemma encode_digits b :
  ∃ z t ds, b = replicate z x00 ++ t ∧ head t ≠ Some x00 ∧
    encodeBase58 b = replicate z (alpha 0) ++ (alpha <$> ds) ∧
    digits_of 58 ds ∧ canonical ds ∧ val 58 ds = bval t.
Proof.
  destruct (leading_split x00 b) as [Hb Hh].
  set (z := leading x00 b) in *. set (t := drop z b) in *.
  set (n := ((length b - z) * 138 / 100 + 1)%nat).
  assert (256 ^ len t ≤ 58 ^ Z.of_nat n) as Hsz.
  { unfold len, t. rewrite length_drop. apply size_enough. }
  destruct (encode_loop_spec t n Hsz) as (_ & Hd & Hv).
  exists z, t, (drop (leading 0 (encode_loop t (replicate n 0))) (encode_loop t (replicate n 0))).
  split; [done|]. split; [done|]. split.
  - unfold encodeBase58. destruct (decide (b = [])) as [->|]; [|done]. vm_compute. reflexivity.
  - split; [by apply Forall_drop|]. split; [apply leading_canonical|]. by rewrite val_leading.
Qed.

Lemma decode_digits z ds :
  digits_of 58 ds → canonical ds →
  decodeBase58 (replicate z (alpha 0) ++ (alpha <$> ds)) = Ok (replicate z x00 ++ big_Bytes (val 58 ds)).
Proof.
  intros Hd Hc.
  assert (head (alpha <$> ds) ≠ Some (alpha 0)) as Hh.
  { destruct ds as [|d ds]; [done|]. cbn. intros [= H]. apply Forall_cons in Hd as [Hd _].
    apply alpha_zero in H; [|done]. subst. by apply Hc. }
  unfold decodeBase58. destruct (decide _) as [Hnil|_].
  - apply app_nil in Hnil as [Hz Hs]. apply fmap_nil_inv in Hs as ->.
    destruct z; [done|done].
  - destruct (leading_replicate (alpha 0) z _ Hh) as [-> ->]. by rewrite decode_loop_spec.
Qed.

(** ** Property *)

(** The decoder is the inverse of the encoder, both ways: a string decodes
    to [b] exactly when it is the encoding of [b].  So every byte string round
    trips, leading zeros included, no two strings decode to the same bytes, and
    what is not an encoding is rejected with an error.  In particular the
    encoder's buffer of [n * 138 / 100 + 1] digits is always large enough. *)
Theorem base58_inverse (s b : bytes) : decodeBase58 s = Ok b ↔ s = encodeBase58 b.
Proof.
  split.
  - unfold decodeBase58. destruct (decide (s = [])) as [->|Hs]; [by intros [= <-]|].
    destruct (leading_split (alpha 0) s) as [Heq Hh]. set (z := leading (alpha 0) s) in *.
    destruct (decode_loop (drop z s) 0) as [v|] eqn:Hl; [|done]. intros [= <-].
    apply decode_loop_inv in Hl as (ds & Hds & Hd & ->). rewrite Hds in Hh, Heq. fold (val 58 ds).
    pose proof (val_bounds 58 ds ltac:(lia) Hd) as [Hv _].
    destruct (big_Bytes_spec _ Hv) as [Hbv Hbh].
    destruct (encode_digits (replicate z x00 ++ big_Bytes (val 58 ds)))
      as (z' & t & ds' & Hb & Ht & -> & Hd' & Hc' & Hv').
    destruct (leading_replicate x00 z _ Hbh) as [Hz1 Ht1].
    destruct (leading_replicate x00 z' _ Ht) as [Hz2 Ht2]. rewrite Hb in Hz1, Ht1.
    assert (z' = z) as -> by congruence. assert (t = big_Bytes (val 58 ds)) as -> by congruence.
    assert (ds' = ds) as ->; [|by rewrite Heq at 1].
    apply (canonical_unique 58); [lia|done|done|done| |congruence].
    unfold canonical. intros H. apply Hh. destruct ds; [done|]. cbn in *. congruence.
  - intros ->. destruct (encode_digits b) as (z & t & ds & -> & Ht & -> & Hd & Hc & Hv).
    rewrite decode_digits by done. do 2 f_equal. rewrite Hv.
    destruct (big_Bytes_spec (bval t)) as [H1 H2]; [apply bval_bounds|].
    apply fmap_Z_of_byte_inj, (canonical_unique 256); try apply bytes_digits; try by apply bytes_canonical.
    + lia.
    + done.
Qed.
