(* ===== verification/Target.v ===== *)
(** * Target URIs (peerrpc/target.go)

    The parser and the printer, with the parts of [net/url] and [strings] they
    use, and which targets round trip. *)

From Stdlib Require Import Strings.Byte ZArith Lia.
From stdpp Require Import numbers strings list.
From S2P Require Import Prelude.
Open Scope Z_scope.

(** Go strings are byte sequences. *)
Definition go (s : string) : bytes := String.list_byte_of_string s.

(** ** strings *)

Definition HasPrefix (s prefix : bytes) : bool := bool_decide (take (length prefix) s = prefix).

Fixpoint Index (s sep : bytes) : option nat :=
  if HasPrefix s sep then Some 0%nat
  else match s with [] => None | _ :: s => S <$> Index s sep end.

(** [strings.Cut] at one byte. *)
Fixpoint Cut (c : byte) (s : bytes) : bytes * bytes :=
  match s with
  | [] => ([], [])
  | x :: s => if decide (x = c) then ([], s) else let '(a, b) := Cut c s in (x :: a, b)
  end.

(** The pieces that repeated cuts at [c] give. *)
Fixpoint pieces (c : byte) (s : bytes) : list bytes :=
  match s with
  | [] => [[]]
  | x :: s =>
      if decide (x = c) then [] :: pieces c s
      else match pieces c s with p :: ps => (x :: p) :: ps | [] => [[x]] end
  end.

Fixpoint join (c : byte) (ps : list bytes) : bytes :=
  match ps with [] => [] | [p] => p | p :: ps => p ++ c :: join c ps end.

(** [strings.TrimSpace] of ASCII text. *)
Definition is_space (c : byte) : bool := bool_decide (c ∈ [x09; x0a; x0b; x0c; x0d; x20]).

Fixpoint trim_left (s : bytes) : bytes :=
  match s with
  | c :: s' => if is_space c then trim_left s' else s
  | [] => []
  end.

Definition TrimSpace (s : bytes) : bytes := reverse (trim_left (reverse (trim_left s))).

(** ** net/url *)

Definition amp : byte := "&".
Definition equals : byte := "=".
Definition semicolon : byte := ";".
Definition percent : byte := "%".
Definition plus : byte := "+".
Definition space : byte := " ".
Definition slash : byte := "/".
Definition question : byte := "?".

Definition between (lo hi c : byte) : bool :=
  (Z_of_byte lo <=? Z_of_byte c) && (Z_of_byte c <=? Z_of_byte hi).

(** [shouldEscape] in a query component. *)
Definition shouldEscape (c : byte) : bool :=
  negb (between "a" "z" c || between "A" "Z" c || between "0" "9" c ||
        bool_decide (c ∈ go "-_.~")).

Definition upperhex (n : Z) : byte := nth (Z.to_nat n) (go "0123456789ABCDEF") x00.

Definition unhex (c : byte) : option Z :=
  if between "0" "9" c then Some (Z_of_byte c - 48)
  else if between "a" "f" c then Some (Z_of_byte c - 87)
  else if between "A" "F" c then Some (Z_of_byte c - 55)
  else None.

Definition escape_byte (c : byte) : bytes :=
  if decide (c = space) then [plus]
  else if shouldEscape c
  then [percent; upperhex (Z.shiftr (Z_of_byte c) 4); upperhex (Z.land (Z_of_byte c) 15)]
  else [c].

Definition QueryEscape (s : bytes) : bytes := mjoin (escape_byte <$> s).

Fixpoint QueryUnescape (s : bytes) : option bytes :=
  match s with
  | [] => Some []
  | c :: s =>
      if decide (c = percent) then
        match s with
        | a :: b :: s =>
            a ← unhex a; b ← unhex b; s ← QueryUnescape s; Some (byte_of_Z (Z.lor (Z.shiftl a 4) b) :: s)
        | _ => None
        end
      else s ← QueryUnescape s; Some ((if decide (c = plus) then space else c) :: s)
  end.

(** [url.Values] with one value per key, in key order. *)
Definition Encode (q : list (bytes * bytes)) : bytes :=
  join amp ((λ kv, QueryEscape kv.1 ++ equals :: QueryEscape kv.2) <$> q).

(** One piece of a query; [None] is an error, [Some None] is skipped. *)
Definition parse_piece (p : bytes) : option (option (bytes * bytes)) :=
  if decide (semicolon ∈ p) then None
  else if decide (p = []) then Some None
  else
    let '(key, value) := Cut equals p in
    key ← QueryUnescape key; value ← QueryUnescape value; Some (Some (key, value)).

Definition ParseQuery (query : bytes) : option (list (bytes * bytes)) :=
  kvs ← mapM parse_piece (pieces amp query); Some (omap id kvs).

Definition Get (vals : list (bytes * bytes)) (key : bytes) : bytes :=
  match filter (λ kv, kv.1 = key) vals with kv :: _ => kv.2 | [] => [] end.

(** ** Targets *)

Definition SchemeLocal : bytes := go "local".
Definition SchemeWS : bytes := go "ws".
Definition SchemeRelay : bytes := go "relay".
Definition RoleHintClient : bytes := go "client".
Definition RoleHintServer : bytes := go "server".

Record Target : Type := {
  Scheme : bytes; Signal : bytes; Service : bytes; Role : bytes; PeerID : bytes; Token : bytes }.

Definition param (key value : bytes) : list (bytes * bytes) :=
  if decide (value = []) then [] else [(key, value)].

Definition query_of (t : Target) : list (bytes * bytes) :=
  param (go "as") (Role t) ++ param (go "peer") (PeerID t) ++ param (go "token") (Token t).

Definition String_ (t : Target) : bytes :=
  let enc := Encode (query_of t) in
  go "peerrpc+" ++ Scheme t ++ go "://" ++ Signal t ++ slash :: Service t ++
  (if decide (enc = []) then [] else question :: enc).

(** The errors of [ParseTarget], each with the strings its message quotes. *)
Inductive target_error : Type :=
  | ErrPrefix (uri : bytes)
  | ErrNoScheme (uri : bytes)
  | ErrNoService (uri : bytes)
  | ErrQuery (uri : bytes)
  | ErrNoAuthority (scheme : bytes).

Definition target_with (t : Target) (vals : list (bytes * bytes)) : Target :=
  {| Scheme := Scheme t; Signal := Signal t; Service := Service t;
     Role := (if decide (Get vals (go "as") = []) then Role t else Get vals (go "as"));
     PeerID := (if decide (Get vals (go "peer") = []) then PeerID t else Get vals (go "peer"));
     Token := (if decide (Get vals (go "token") = []) then Token t else Get vals (go "token")) |}.

Definition ParseTarget (uri : bytes) : Target + target_error :=
  if negb (HasPrefix uri (go "peerrpc+")) then inr (ErrPrefix uri)
  else
    let rest := drop (length (go "peerrpc+")) uri in
    match Index rest (go "://") with
    | None => inr (ErrNoScheme uri)
    | Some sepIdx =>
        let scheme := take sepIdx rest in
        let afterScheme := drop (sepIdx + length (go "://")) rest in
        let '(authority, pathQuery) :=
          match Index afterScheme [slash] with
          | None => (afterScheme, [])
          | Some i => (take i afterScheme, drop (i + 1) afterScheme)
          end in
        let '(service, rawQuery) :=
          match Index pathQuery [question] with
          | Some i => (take i pathQuery, drop (i + 1) pathQuery)
          | None => (pathQuery, [])
          end in
        if decide (service = []) then inr (ErrNoService uri)
        else
          let t := {| Scheme := scheme; Signal := authority; Service := service;
                      Role := []; PeerID := []; Token := [] |} in
          match (if decide (rawQuery = []) then Some t else target_with t <$> ParseQuery rawQuery) with
          | None => inr (ErrQuery uri)
          | Some t =>
              if decide (Signal t = [] ∧ Scheme t ≠ SchemeLocal) then inr (ErrNoAuthority (Scheme t))
              else inl t
          end
    end.

Example parse_doc :
  ParseTarget (go "peerrpc+ws://signal.example.com:8443/echo.Echo?as=client&peer=alice") =
  inl {| Scheme := SchemeWS; Signal := go "signal.example.com:8443"; Service := go "echo.Echo";
         Role := RoleHintClient; PeerID := go "alice"; Token := [] |}.
Proof. vm_compute. reflexivity. Qed.

(** ** Queries *)

Definition safe_byte (c : byte) : bool := bool_decide (c ≠ amp ∧ c ≠ equals ∧ c ≠ semicolon).

Lemma escape_byte_safe c : forallb safe_byte (escape_byte c) = true.
Proof. destruct c; vm_compute; reflexivity. Qed.

Lemma QueryEscape_safe s : Forall (λ c, safe_byte c = true) (QueryEscape s).
Proof.
  induction s as [|c s IH]; [constructor|]. cbn. apply Forall_app. split; [|done].
  apply Forall_forall. intros x Hx. pose proof (escape_byte_safe c) as H.
  rewrite forallb_forall in H. apply H. by apply list_elem_of_In.
Qed.

Lemma QueryEscape_not_in s c : safe_byte c = false → c ∉ QueryEscape s.
Proof.
  intros Hc Hin. pose proof (QueryEscape_safe s) as H. rewrite Forall_forall in H.
  rewrite (H _ Hin) in Hc. done.
Qed.

Definition escape_ok (c : byte) : bool :=
  match escape_byte c with
  | [x] => bool_decide (x ≠ percent ∧ (if decide (x = plus) then space else x) = c)
  | [p; a; b] =>
      match unhex a, unhex b with
      | Some a, Some b => bool_decide (p = percent ∧ byte_of_Z (Z.lor (Z.shiftl a 4) b) = c)
      | _, _ => false
      end
  | _ => false
  end.

Lemma unescape_escape_byte c s :
  QueryUnescape (escape_byte c ++ s) = (c ::.) <$> QueryUnescape s.
Proof.
  assert (escape_ok c = true) as H by (destruct c; vm_compute; reflexivity).
  unfold escape_ok in H. destruct (escape_byte c) as [|x [|a [|b [|]]]]; try done.
  - apply bool_decide_eq_true_1 in H as [Hx Hc]. cbn. rewrite decide_False by done.
    rewrite Hc. by destruct (QueryUnescape s).
  - destruct (unhex a) as [a'|] eqn:Ha; [|done]. destruct (unhex b) as [b'|] eqn:Hb; [|done].
    apply bool_decide_eq_true_1 in H as [-> Hc]. cbn. rewrite decide_True, Ha by done. cbn.
    rewrite Hb. cbn. rewrite Hc. by destruct (QueryUnescape s).
Qed.

Lemma unescape_escape s : QueryUnescape (QueryEscape s) = Some s.
Proof.
  induction s as [|c s IH]; [done|].
  change (QueryEscape (c :: s)) with (escape_byte c ++ QueryEscape s).
  by rewrite unescape_escape_byte, IH.
Qed.

Lemma pieces_app c p s : c ∉ p → pieces c (p ++ c :: s) = p :: pieces c s.
Proof.
  induction p as [|x p IH]; cbn; intros Hp; [by rewrite decide_True|].
  apply not_elem_of_cons in Hp as [Hx Hp]. rewrite decide_False by done. by rewrite IH.
Qed.

Lemma pieces_one c p : c ∉ p → pieces c p = [p].
Proof.
  induction p as [|x p IH]; cbn; intros Hp; [done|].
  apply not_elem_of_cons in Hp as [Hx Hp]. rewrite decide_False by done. by rewrite IH.
Qed.

Lemma pieces_join c ps : Forall (λ p, c ∉ p) ps → ps ≠ [] → pieces c (join c ps) = ps.
Proof.
  induction 1 as [|p ps Hp Hps IH]; intros Hne; [done|]. cbn.
  destruct ps as [|p' ps]; [by apply pieces_one|]. by rewrite pieces_app, IH.
Qed.

(** The pieces joined are the string, and the separator is in none of them. *)
Lemma pieces_spec c s : join c (pieces c s) = s ∧ Forall (λ p, c ∉ p) (pieces c s).
Proof.
  induction s as [|x s [IHj IHn]]; cbn.
  { split; [done|]. constructor; [by intros ?%elem_of_nil|constructor]. }
  destruct (decide (x = c)) as [->|Hne].
  - split; [|by constructor; [intros ?%elem_of_nil|]]. cbn. destruct (pieces c s) eqn:E; [|by rewrite IHj].
    cbn in IHj. by subst s.
  - destruct (pieces c s) as [|p ps] eqn:E; [cbn in IHj; by subst s|]. apply Forall_cons in IHn as [Hp Hps].
    split; [|constructor; [by intros [?|?]%elem_of_cons|done]].
    cbn in *. destruct ps; cbn in *; by rewrite <- IHj.
Qed.

Lemma Cut_app c p s : c ∉ p → Cut c (p ++ c :: s) = (p, s).
Proof.
  induction p as [|x p IH]; cbn; intros Hp; [by rewrite decide_True|].
  apply not_elem_of_cons in Hp as [Hx Hp]. rewrite decide_False by done. by rewrite IH.
Qed.

Lemma parse_piece_encode k v :
  parse_piece (QueryEscape k ++ equals :: QueryEscape v) = Some (Some (k, v)).
Proof.
  unfold parse_piece. rewrite decide_False, decide_False; [|by destruct (QueryEscape k)|].
  - rewrite Cut_app by by apply QueryEscape_not_in. by rewrite !unescape_escape.
  - rewrite elem_of_app, elem_of_cons. intros [H|[H|H]]; [|done|]; by apply QueryEscape_not_in in H.
Qed.

Lemma ParseQuery_Encode q : ParseQuery (Encode q) = Some q.
Proof.
  destruct q as [|kv q]; [done|]. unfold ParseQuery, Encode. rewrite pieces_join; [|..|done].
  - assert (mapM parse_piece ((λ kv, QueryEscape kv.1 ++ equals :: QueryEscape kv.2) <$> kv :: q)
            = Some (Some <$> kv :: q)) as ->.
    { apply mapM_Some. generalize (kv :: q). clear. induction l as [|[k v] q IH]; [constructor|].
      constructor; [apply parse_piece_encode|done]. }
    cbn. f_equal. f_equal. induction q as [|kv' q IH]; [done|]. cbn. by rewrite IH.
  - apply Forall_fmap, Forall_true. intros [k v]. cbn. rewrite elem_of_app, elem_of_cons.
    intros [H|[H|H]]; [|done|]; by apply QueryEscape_not_in in H.
Qed.

Lemma Encode_nil q : Encode q = [] ↔ q = [].
Proof.
  split; [|by intros ->]. destruct q as [|[k v] q]; [done|]. intros H.
  assert (QueryEscape k ++ equals :: QueryEscape v = [] ∨
          ∃ r, (QueryEscape k ++ equals :: QueryEscape v) ++ amp :: r = []) as [Hn|[r Hn]].
  { unfold Encode in H. cbn in H. destruct (fmap _ q); [by left|right; by eexists]. }
  - by destruct (QueryEscape k).
  - by destruct (QueryEscape k).
Qed.

Lemma Get_param_eq k v q : Get q k = [] → Get (param k v ++ q) k = v.
Proof.
  intros Hq. unfold param. destruct (decide (v = [])) as [->|Hv]; [done|].
  unfold Get. cbn. by rewrite decide_True.
Qed.

Lemma Get_param_ne k v q k' : k ≠ k' → Get (param k v ++ q) k' = Get q k'.
Proof.
  intros Hk. unfold param. destruct (decide (v = [])) as [->|Hv]; [done|].
  unfold Get. cbn. by rewrite decide_False.
Qed.

Lemma Get_query t :
  Get (query_of t) (go "as") = Role t ∧ Get (query_of t) (go "peer") = PeerID t ∧
  Get (query_of t) (go "token") = Token t.
Proof.
  unfold query_of. rewrite <- (app_nil_r (param (go "token") (Token t))).
  split; [|split].
  - apply Get_param_eq. by rewrite (Get_param_ne (go "peer")), (Get_param_ne (go "token")).
  - rewrite (Get_param_ne (go "as")) by done. apply Get_param_eq. by rewrite (Get_param_ne (go "token")).
  - rewrite (Get_param_ne (go "as")), (Get_param_ne (go "peer")) by done. by apply Get_param_eq.
Qed.

(** ** Separators *)

Lemma HasPrefix_app s p : HasPrefix (p ++ s) p = true.
Proof. apply bool_decide_eq_true_2. by rewrite take_app_length. Qed.

Lemma Index_byte c p s : c ∉ p → Index (p ++ c :: s) [c] = Some (length p).
Proof.
  induction p as [|x p IH]; cbn; intros Hp.
  - by assert (HasPrefix (c :: s) [c] = true) as -> by apply (HasPrefix_app s [c]).
  - apply not_elem_of_cons in Hp as [Hx Hp]. rewrite (IH Hp).
    assert (HasPrefix (x :: p ++ c :: s) [c] = false) as ->; [|done].
    apply bool_decide_eq_false_2. cbn. congruence.
Qed.

Lemma Index_byte_none c p : c ∉ p → Index p [c] = None.
Proof.
  induction p as [|x p IH]; intros Hp; [done|].
  apply not_elem_of_cons in Hp as [Hx Hp]. cbn. rewrite (IH Hp).
  assert (HasPrefix (x :: p) [c] = false) as ->; [|done].
  apply bool_decide_eq_false_2. cbn. congruence.
Qed.

Lemma Index_byte_split c s i : Index s [c] = Some i → c ∉ take i s.
Proof.
  revert i. induction s as [|x s IH]; intros i; cbn; [done|].
  destruct (HasPrefix (x :: s) [c]) eqn:Hp; [intros [= <-]; apply not_elem_of_nil|].
  intros (j & Hj & ->)%fmap_Some. cbn. apply not_elem_of_cons. split; [|by apply IH].
  apply bool_decide_eq_false_1 in Hp. cbn in Hp. rewrite take_0 in Hp. congruence.
Qed.

Lemma Index_byte_absent c s : Index s [c] = None → c ∉ s.
Proof.
  induction s as [|x s IH]; cbn; [intros _; apply not_elem_of_nil|].
  destruct (HasPrefix (x :: s) [c]) eqn:Hp; [done|]. intros H%fmap_None.
  apply not_elem_of_cons. split; [|by apply IH].
  apply bool_decide_eq_false_1 in Hp. cbn in Hp. rewrite take_0 in Hp. congruence.
Qed.

Lemma Index_sep p s : Index p (go "://") = None → Index (p ++ go "://" ++ s) (go "://") = Some (length p).
Proof.
  induction p as [|x p IH]; intros Hp; [done|]. cbn [Index] in Hp.
  destruct (HasPrefix (x :: p) (go "://")) eqn:Hx; [done|]. apply fmap_None in Hp.
  change ((x :: p) ++ go "://" ++ s) with (x :: (p ++ go "://" ++ s)).
  cbn [Index]. rewrite (IH Hp).
  assert (HasPrefix (x :: p ++ go "://" ++ s) (go "://") = false) as ->; [|done].
  apply bool_decide_eq_false_1 in Hx. apply bool_decide_eq_false_2.
  intros H. destruct p as [|y [|z p]]; vm_compute in H, Hx; congruence.
Qed.

Lemma Index_sep_split s i : Index s (go "://") = Some i → Index (take i s) (go "://") = None.
Proof.
  revert i. induction s as [|x s IH]; intros i; [done|]. cbn [Index].
  destruct (HasPrefix (x :: s) (go "://")) eqn:Hp; [by intros [= <-]|].
  intros (j & Hj & ->)%fmap_Some. cbn [take Index]. rewrite (IH _ Hj).
  assert (HasPrefix (x :: take j s) (go "://") = false) as ->; [|done].
  apply bool_decide_eq_false_1 in Hp. apply bool_decide_eq_false_2. intros H. apply Hp.
  destruct s as [|y [|z s]], j as [|[|j]]; vm_compute in H; vm_compute; congruence.
Qed.

(** ** Property *)

(** What the grammar can express: no separator inside the part it ends, a
    service, and an authority unless the scheme is local. *)
Definition well_formed (t : Target) : Prop :=
  Index (Scheme t) (go "://") = None ∧ (slash ∉ Signal t) ∧ (question ∉ Service t) ∧ Service t ≠ [] ∧
  (Signal t = [] → Scheme t = SchemeLocal).

Lemma target_with_query t :
  target_with {| Scheme := Scheme t; Signal := Signal t; Service := Service t;
                 Role := []; PeerID := []; Token := [] |} (query_of t) = t.
Proof.
  destruct (Get_query t) as (Hr & Hp & Ht). unfold target_with. rewrite Hr, Hp, Ht. cbn.
  destruct t; cbn in *. f_equal; by case_decide.
Qed.

Lemma ParseTarget_String t : well_formed t → ParseTarget (String_ t) = inl t.
Proof.
  intros (Hs & Hsig & Hsv & Hne & Hloc). unfold ParseTarget, String_.
  rewrite HasPrefix_app, drop_app_length. cbn [negb]. rewrite (Index_sep _ _ Hs).
  rewrite take_app_length.
  rewrite app_assoc, drop_app_length' by (by rewrite length_app).
  rewrite (Index_byte _ _ _ Hsig), take_app_length.
  rewrite (drop_app_add' _ _ _ 1 eq_refl). cbn [drop]. rewrite drop_0. cbn iota beta zeta.
  pose proof (target_with_query t) as Hq. pose proof (Encode_nil (query_of t)) as He.
  destruct (decide (Encode (query_of t) = [])) as [Hz|Hz].
  - rewrite app_nil_r, Index_byte_none by done. cbn iota beta. rewrite decide_False by done.
    rewrite decide_True by done. apply He in Hz. rewrite Hz in Hq.
    rewrite decide_False by (cbn; tauto). f_equal. exact Hq.
  - cbn iota. rewrite (Index_byte _ _ _ Hsv), take_app_length, (drop_app_add' _ _ _ 1 eq_refl).
    cbn [drop]. rewrite drop_0. cbn iota beta. rewrite decide_False, decide_False by done.
    rewrite ParseQuery_Encode. cbn [fmap option_fmap option_map]. rewrite Hq.
    rewrite decide_False; [done|]. tauto.
Qed.

Lemma ParseTarget_well_formed uri t : ParseTarget uri = inl t → well_formed t.
Proof.
  unfold ParseTarget. destruct (negb _); [done|]. set (rest := drop _ uri).
  destruct (Index rest (go "://")) as [i|] eqn:Hi; [|done]. apply Index_sep_split in Hi.
  set (after := drop _ rest).
  destruct (match Index after [slash] with Some i => _ | None => _ end) as [authority path] eqn:Ha.
  assert (slash ∉ authority) as Hsig.
  { destruct (Index after [slash]) as [j|] eqn:Hj; injection Ha as <- <-;
      [by apply Index_byte_split|by apply Index_byte_absent]. }
  destruct (match Index path [question] with Some i => _ | None => _ end) as [service raw] eqn:Hv.
  assert (question ∉ service) as Hsv.
  { destruct (Index path [question]) as [j|] eqn:Hj; injection Hv as <- <-;
      [by apply Index_byte_split|by apply Index_byte_absent]. }
  destruct (decide (service = [])) as [|Hne]; [done|]. cbv zeta.
  destruct (if decide (raw = []) then _ else _) as [t'|] eqn:Ht; [|done].
  destruct (decide (Signal t' = [] ∧ _)) as [|Hloc]; [done|]. intros [= ->].
  assert (Scheme t = take i rest ∧ Signal t = authority ∧ Service t = service) as (E1 & E2 & E3).
  { destruct (decide (raw = [])); [by injection Ht as <-|].
    apply fmap_Some in Ht as (q & _ & ->). done. }
  rewrite E1, E2 in Hloc. unfold well_formed. rewrite E1, E2, E3.
  split; [done|]. split; [done|]. split; [done|]. split; [done|]. intros Hsg. destruct (decide (take i rest = SchemeLocal)); [done|]. exfalso. by apply Hloc.
Qed.

(** [ParseTarget] and [Target.String]: the targets that parsing can return
    are exactly the ones that survive printing and parsing, whatever bytes
    their role, peer id and token hold. A target with a ['/'] in its authority
    (such as a full URL), a ['?'] in its service or an empty service, which
    [String] prints all the same, comes back different or is rejected. *)
Theorem target_round_trip t :
  (ParseTarget (String_ t) = inl t ↔ well_formed t) ∧
  ((∃ uri, ParseTarget uri = inl t) ↔ well_formed t).
Proof.
  split; split.
  - apply ParseTarget_well_formed.
  - apply ParseTarget_String.
  - intros [uri H]. by eapply ParseTarget_well_formed.
  - intros H. exists (String_ t). by apply ParseTarget_String.
Qed.
