(* ===== verification/Echo.v ===== *)
(** * The echo server (examples/echo-server-go/main.go)

    A program over the SDK: the eight methods of [echo.Echo], which use every
    kind of call, as handlers of [RpcServer], and their parsers of sizes.  The
    theorems compose the handlers with the end-to-end theorems of the SDK.

    A handler that receives in a loop has a bound on the number of messages it
    takes; the theorems hold for every bound greater than the number of messages
    of the call. *)

From Stdlib Require Import Strings.Byte ZArith Lia.
From stdpp Require Import numbers strings gmap fin_maps relations list pretty.
From S2P Require Import Prelude Status Messages Target Transport Chunks Channel RpcServer RpcServerRun RpcServerSafety RpcServerProps RpcClient RpcClientProps EndToEnd Payloads StreamEnd UploadEnd Connection ConnectionSend ConnectionServer ConnectionReturn ConnectionProps ConnectionTrace.
Open Scope Z_scope.

(** ** strings and strconv *)

Definition is_ascii (s : bytes) : bool := bool_decide (Forall (λ c, Z_of_byte c < 128) s).

Definition lower_byte (c : byte) : byte :=
  if between "A" "Z" c then byte_of_Z (Z_of_byte c + 32) else c.

Definition HasSuffix (s suffix : bytes) : bool :=
  (length suffix <=? length s)%nat && bool_decide (drop (length s - length suffix) s = suffix).

Definition TrimSuffix (s suffix : bytes) : bytes :=
  if HasSuffix s suffix then take (length s - length suffix) s else s.

Definition is_digit (c : byte) : bool := between "0" "9" c.

Definition decimal (ds : bytes) : Z := foldl (λ n c, 10 * n + (Z_of_byte c - 48)) 0 ds.

Definition digits_only (ds : bytes) : bool := bool_decide (ds ≠ []) && forallb is_digit ds.

(** [strconv.Atoi] and [strconv.ParseInt(s, 10, 64)], on 64-bit machines. *)
Definition parse_int (s : bytes) : option Z :=
  let '(neg, ds) :=
    match s with
    | x2d :: ds => (true, ds)
    | x2b :: ds => (false, ds)
    | _ => (false, s)
    end in
  if digits_only ds then
    let n := if neg : bool then - decimal ds else decimal ds in
    if decide (-9223372036854775808 ≤ n < 9223372036854775808) then Some n else None
  else None.

(** [fmt.Sprintf] with [%d]. *)
Definition show_int (n : Z) : bytes := go (pretty n).

(** ** Sizes *)

(** The suffixes in the order of the cases, with their multipliers. *)
Definition download_units : list (bytes * Z) :=
  [(go "mb", 1048576); (go "m", 1048576); (go "kb", 1024); (go "k", 1024)].

Definition stream_units : list (bytes * Z) :=
  (go "gb", 1073741824) :: (go "g", 1073741824) :: download_units.

Fixpoint cut_unit (units : list (bytes * Z)) (raw : bytes) : bytes * Z :=
  match units with
  | [] => (raw, 1)
  | (suffix, mul) :: units => if HasSuffix raw suffix then (TrimSuffix raw suffix, mul) else cut_unit units raw
  end.

Definition maxDownloadBytes : Z := 2147483647.
Definition maxStreamBytes : Z := 1152921504606846976.

Definition clamp (max n : Z) : Z :=
  let n := if n <? 1 then 1 else n in if max <? n then max else n.

Definition ErrDownloadSize : error :=
  ErrorString "large-download: size must be a non-negative decimal byte count".
Definition ErrStreamSize : error :=
  ErrorString "large-download-stream: size must be a non-negative decimal byte count".

(** ** Patterns *)

Definition pattern_byte (i : Z) : byte := byte_of_Z (Z.rem i 251).

(** [fillPattern(dst, base)] on a [dst] of [n] bytes. *)
Definition fillPattern (n : nat) (base : Z) : bytes := (λ i, pattern_byte (base + Z.of_nat i)) <$> seq 0 n.

Definition makePattern (size : Z) : bytes := fillPattern (Z.to_nat size) 0.

Definition stream_chunk : Z := 16777216.

Section echo.
(** The slow paths of package strings, on text that is not ASCII, and [%q] of
    such text, which depend on the Unicode tables. *)
Context (unicode_lower unicode_trim unicode_quote : bytes → bytes).

Definition ToLower (s : bytes) : bytes := if is_ascii s then lower_byte <$> s else unicode_lower s.

Definition trim_space (s : bytes) : bytes := if is_ascii s then TrimSpace s else unicode_trim s.

(** One character of [strconv.Quote]. *)
Definition hex_digit (n : Z) : byte := nth (Z.to_nat n) (go "0123456789abcdef") x00.

Definition quote_byte (c : byte) : bytes :=
  match c with
  | x22 | x5c => [x5c; c]
  | x07 => go "\a" | x08 => go "\b" | x0c => go "\f" | x0a => go "\n" | x0d => go "\r"
  | x09 => go "\t" | x0b => go "\v"
  | _ => if between " " "~" c then [c]
         else go "\x" ++ [hex_digit (Z_of_byte c / 16); hex_digit (Z_of_byte c mod 16)]
  end.

(** [fmt.Sprintf] with [%q]. *)
Definition quote (s : bytes) : bytes :=
  if is_ascii s then [x22] ++ concat (map quote_byte s) ++ [x22] else unicode_quote s.

(** The two parsers differ in their suffixes, limits and messages. *)
Definition parse_size (units : list (bytes * Z)) (max : Z) (err : error) (req : bytes) : Z + error :=
  let raw := trim_space (ToLower req) in
  if bool_decide (raw = []) then inl 1048576
  else
    let '(raw, mul) := cut_unit units raw in
    match parse_int (trim_space raw) with
    | None => inr err
    | Some n => if n <? 0 then inr err else inl (clamp max (int64 (n * mul)))
    end.

Definition parseDownloadSize : bytes → Z + error := parse_size download_units maxDownloadBytes ErrDownloadSize.

Definition parseStreamSize : bytes → Z + error := parse_size stream_units maxStreamBytes ErrStreamSize.

(** ** The handlers *)

Definition fails (code : Z) (err : error) : prog := Return (Some (Err code (Some err))).

(** [if err := s.Send(b); err != nil { return rpc.Err(13, err) }]. *)
Definition sends (b : bytes) (k : prog) : prog :=
  RpcServer.Send b (λ e, match e with Some err => fails 13 err | None => k end).

Definition Echo : prog :=
  RpcServer.Recv (λ r, match r with
    | inr err => fails 13 err
    | inl req => sends (go "echo: " ++ req) (Return (Some OK))
    end).

(** The request of a server-streaming method, of which [io.EOF] leaves nothing. *)
Definition recv_request (k : bytes → prog) : prog :=
  RpcServer.Recv (λ r, match r with
    | inl req => k req
    | inr err => if bool_decide (err = EOF) then k [] else fails 13 err
    end).

(** The loop from [i], which has [n] turns left. *)
Fixpoint Stream_loop (n : nat) (i : Z) (req : bytes) : prog :=
  match n with
  | O => Return (Some OK)
  | S n => sends (go "chunk " ++ show_int i ++ go " for " ++ quote req) (Stream_loop n (i + 1) req)
  end.

Definition Stream : prog := recv_request (Stream_loop 5 1).

Definition collect_reply (n total : Z) : bytes :=
  go "received " ++ show_int n ++ go " messages (" ++ show_int total ++ go " bytes)".

Fixpoint Collect_loop (bound : nat) (n total : Z) : prog :=
  match bound with
  | O => Return None
  | S bound =>
      RpcServer.Recv (λ r, match r with
        | inl msg => Collect_loop bound (int64 (n + 1)) (int64 (total + len msg))
        | inr err => if bool_decide (err = EOF) then sends (collect_reply n total) (Return (Some OK))
                     else fails 13 err
        end)
  end.

Definition Collect (bound : nat) : prog := Collect_loop bound 0 0.

Definition ack (seq : Z) (msg : bytes) : bytes := go "ack " ++ show_int seq ++ go ": " ++ msg.

Fixpoint Chat_loop (bound : nat) (seq : Z) : prog :=
  match bound with
  | O => Return None
  | S bound =>
      RpcServer.Recv (λ r, match r with
        | inl msg => let seq := int64 (seq + 1) in sends (ack seq msg) (Chat_loop bound seq)
        | inr err => if bool_decide (err = EOF) then Return (Some OK) else fails 13 err
        end)
  end.

Definition Chat (bound : nat) : prog := Chat_loop bound 0.

Definition LargeEcho : prog :=
  RpcServer.Recv (λ r, match r with
    | inr err => fails 13 err
    | inl req => sends req (Return (Some OK))
    end).

Definition LargeDownload : prog :=
  recv_request (λ req, match parseDownloadSize req with
    | inr perr => fails 3 perr
    | inl size => sends (makePattern size) (Return (Some OK))
    end).

Fixpoint LargeEchoStream (bound : nat) : prog :=
  match bound with
  | O => Return None
  | S bound =>
      RpcServer.Recv (λ r, match r with
        | inl msg => sends msg (LargeEchoStream bound)
        | inr err => if bool_decide (err = EOF) then Return (Some OK) else fails 13 err
        end)
  end.

(** [Send] copies, so that the buffer may be filled again. *)
Fixpoint download_loop (turns : nat) (sent size : Z) : prog :=
  if sent <? size then
    match turns with
    | O => Return None
    | S turns =>
        let end_ := if size <? sent + stream_chunk then size else sent + stream_chunk in
        sends (fillPattern (Z.to_nat (end_ - sent)) sent) (download_loop turns end_ size)
    end
  else Return (Some OK).

(** One turn for each chunk, and one. *)
Definition chunks_of (size : Z) : nat := Z.to_nat ((size + stream_chunk - 1) / stream_chunk).

Definition LargeDownloadStream : prog :=
  recv_request (λ req, match parseStreamSize req with
    | inr perr => fails 3 perr
    | inl size => download_loop (chunks_of size) 0 size
    end).

(** ** registerEcho *)

Definition echo_method (name : string) (kind : MethodKind) (p : prog) : @MethodDesc unit :=
  {| md_Method := name; md_Kind := kind; md_Handler := λ _ _, p |}.

Definition registerEcho (bound : nat) (srv : @Server unit) : res unit * @Server unit :=
  RegisterService srv {| sd_ServiceName := "echo.Echo"; sd_Methods :=
    [echo_method "Echo" MethodKindUnary Echo;
     echo_method "Stream" MethodKindServerStreaming Stream;
     echo_method "Collect" MethodKindClientStreaming (Collect bound);
     echo_method "Chat" MethodKindBidiStreaming (Chat bound);
     echo_method "LargeEcho" MethodKindUnary LargeEcho;
     echo_method "LargeDownload" MethodKindServerStreaming LargeDownload;
     echo_method "LargeEchoStream" MethodKindBidiStreaming (LargeEchoStream bound);
     echo_method "LargeDownloadStream" MethodKindServerStreaming LargeDownloadStream] |}.
End echo.

(** ** Sizes *)

Lemma clamp_range max n : 1 ≤ max → 1 ≤ clamp max n ≤ max.
Proof. intros H. unfold clamp. repeat case_match; lia. Qed.

Lemma clamp_in max n : 1 ≤ n ≤ max → clamp max n = n.
Proof. intros H. unfold clamp. repeat case_match; lia. Qed.

Lemma ascii_spec s : is_ascii s = true ↔ Forall (λ c, Z_of_byte c < 128) s.
Proof. apply bool_decide_eq_true. Qed.

Lemma between_spec lo hi c : between lo hi c = true ↔ Z_of_byte lo ≤ Z_of_byte c ≤ Z_of_byte hi.
Proof. unfold between. rewrite andb_true_iff, !Z.leb_le. done. Qed.

Lemma digit_range c : is_digit c = true → 48 ≤ Z_of_byte c ≤ 57.
Proof. intros H%between_spec. exact H. Qed.

(** What a decimal with a unit in lower case consists of: digits and letters. *)
Definition size_byte (c : byte) : Prop := is_digit c = true ∨ 97 ≤ Z_of_byte c ≤ 122.

Lemma size_byte_ascii c : size_byte c → Z_of_byte c < 128.
Proof. intros [H%digit_range|H]; lia. Qed.

Lemma size_byte_lower c : size_byte c → lower_byte c = c.
Proof.
  intros H. unfold lower_byte. destruct (between "A" "Z" c) eqn:E; [|done].
  apply between_spec in E. change (Z_of_byte "A") with 65 in E. change (Z_of_byte "Z") with 90 in E.
  destruct H as [H%digit_range|H]; lia.
Qed.

Lemma size_byte_space c : size_byte c → is_space c = false.
Proof.
  intros H. unfold is_space. apply bool_decide_eq_false. intros Hin.
  assert (Z_of_byte c ≤ 32) as Hle; [|destruct H as [H%digit_range|H]; lia].
  revert Hin. rewrite !elem_of_cons. intros [->|[->|[->|[->|[->|[->|H0]]]]]]; [by vm_compute..|].
  by apply elem_of_nil in H0.
Qed.

Lemma trim_left_fix s : (∀ c rest, s = c :: rest → is_space c = false) → trim_left s = s.
Proof. intros H. destruct s as [|c rest]; [done|]. cbn. by rewrite (H c rest). Qed.

Lemma TrimSpace_fix s : Forall (λ c, is_space c = false) s → TrimSpace s = s.
Proof.
  intros H. unfold TrimSpace.
  assert (∀ t, Forall (λ c, is_space c = false) t → trim_left t = t) as Hfix.
  { intros t Ht. apply trim_left_fix. intros c rest ->. by apply Forall_cons in Ht as [? _]. }
  rewrite (Hfix s H), Hfix by by apply Forall_reverse. apply reverse_involutive.
Qed.

Section echo_props.
Context (unicode_lower unicode_trim : bytes → bytes).

Lemma lower_size raw : Forall size_byte raw → ToLower unicode_lower raw = raw.
Proof.
  intros H. unfold ToLower.
  rewrite (proj2 (ascii_spec raw)) by (eapply Forall_impl; [exact H|apply size_byte_ascii]).
  induction H as [|c raw Hc _ IH]; [done|]. cbn. by rewrite size_byte_lower, IH.
Qed.

Lemma trim_size raw : Forall size_byte raw → trim_space unicode_trim raw = raw.
Proof.
  intros H. unfold trim_space.
  rewrite (proj2 (ascii_spec raw)) by (eapply Forall_impl; [exact H|apply size_byte_ascii]).
  apply TrimSpace_fix. eapply Forall_impl; [exact H|apply size_byte_space].
Qed.

Lemma HasSuffix_app s suffix : HasSuffix (s ++ suffix) suffix = true.
Proof.
  unfold HasSuffix. rewrite length_app. apply andb_true_iff. split; [apply Nat.leb_le; lia|].
  apply bool_decide_eq_true. by replace (length s + length suffix - length suffix)%nat with (length s) by lia; rewrite drop_app_length.
Qed.

Lemma TrimSuffix_app s suffix : TrimSuffix (s ++ suffix) suffix = s.
Proof.
  unfold TrimSuffix. rewrite HasSuffix_app, length_app.
  replace (length s + length suffix - length suffix)%nat with (length s) by lia. apply take_app_length.
Qed.

(** A suffix that ends in another byte is not there. *)
Lemma HasSuffix_last s c suffix c' : c ≠ c' → HasSuffix (s ++ [c]) (suffix ++ [c']) = false.
Proof.
  intros Hne. unfold HasSuffix. apply andb_false_iff. rewrite !length_app. cbn.
  destruct (length suffix + 1 <=? length s + 1)%nat eqn:E; [right|by left]. apply Nat.leb_le in E.
  apply bool_decide_eq_false. intros H. apply (f_equal last) in H.
  rewrite last_snoc, drop_app_le, last_app in H by lia. cbn in H. congruence.
Qed.

Lemma HasSuffix_within s u suffix :
  (length suffix <= length u)%nat → HasSuffix (s ++ u) suffix = HasSuffix u suffix.
Proof.
  intros H. unfold HasSuffix. rewrite length_app.
  rewrite (proj2 (Nat.leb_le _ _)) by lia. rewrite (proj2 (Nat.leb_le (length suffix) (length u))) by done. cbn.
  rewrite drop_app_ge by lia.
  by replace (length s + length u - length suffix - length s)%nat with (length u - length suffix)%nat by lia.
Qed.

Lemma digits_last ds c : digits_only (ds ++ [c]) = true → is_digit c = true.
Proof.
  intros [_ H]%andb_true_iff. rewrite forallb_app in H. apply andb_true_iff in H as [_ H]. cbn in H.
  by apply andb_true_iff in H as [? _].
Qed.

Lemma no_unit ds suffix c :
  digits_only ds = true → is_digit c = false → HasSuffix ds (suffix ++ [c]) = false.
Proof.
  intros Hd Hc. destruct ds as [|d ds _] using rev_ind; [done|]. apply HasSuffix_last. intros ->.
  apply digits_last in Hd. congruence.
Qed.

Lemma digits_size ds : digits_only ds = true → Forall size_byte ds.
Proof.
  intros [_ H]%andb_true_iff. apply Forall_forall. intros c Hc. left.
  rewrite forallb_forall in H. apply H. by apply list_elem_of_In.
Qed.

Lemma decimal_nonneg ds : digits_only ds = true → 0 ≤ decimal ds.
Proof.
  intros [_ H]%andb_true_iff. unfold decimal.
  assert (∀ n, 0 ≤ n → 0 ≤ foldl (λ n c, 10 * n + (Z_of_byte c - 48)) n ds) as Hall; [|by apply Hall].
  induction ds as [|c ds IH]; intros n Hn; [done|]. cbn in H. apply andb_true_iff in H as [Hc H].
  apply (IH H). apply digit_range in Hc. lia.
Qed.

Lemma parse_digits ds :
  digits_only ds = true → decimal ds < 9223372036854775808 → parse_int ds = Some (decimal ds).
Proof.
  intros Hd Hlt. pose proof (decimal_nonneg ds Hd) as H0.
  assert (parse_int ds = if digits_only ds then
    if decide (-9223372036854775808 ≤ decimal ds < 9223372036854775808) then Some (decimal ds) else None else None) as ->.
  { assert (∀ c rest, ds = c :: rest → c ≠ x2d ∧ c ≠ x2b) as Hfirst.
    { intros c rest ->. apply digits_size, Forall_cons in Hd as [[Hc|Hc] _]; [apply digit_range in Hc|];
        split; intros ->; by vm_compute in Hc; destruct Hc. }
    unfold parse_int. destruct ds as [|c rest]; [done|]. destruct (Hfirst c rest eq_refl) as [N1 N2].
    by destruct c. }
  rewrite Hd, decide_True by lia. done.
Qed.

(** Last bytes that differ. *)
Lemma HasSuffix_differ s u suffix :
  u ≠ [] → suffix ≠ [] → last u ≠ last suffix → HasSuffix (s ++ u) suffix = false.
Proof.
  intros Hu Hv Hne. destruct u as [|c u _] using rev_ind; [done|]. destruct suffix as [|c' v _] using rev_ind; [done|].
  rewrite !last_snoc in Hne. rewrite app_assoc. apply HasSuffix_last. congruence.
Qed.

(** The suffixes of a table are found, and not those before them. *)
Lemma cut_unit_found ds u mul units :
  digits_only ds = true → (u, mul) ∈ ([], 1) :: units → (units = download_units ∨ units = stream_units) →
  cut_unit units (ds ++ u) = (ds, mul).
Proof.
  intros Hd Hu Hunits. apply elem_of_cons in Hu as [[= -> ->]|Hu].
  - rewrite app_nil_r.
    assert (∀ v w c, v = w ++ [c] → is_digit c = false → HasSuffix ds v = false) as Hno.
    { intros v w c -> Hc. by apply no_unit. }
    destruct Hunits as [-> | ->]; cbn [cut_unit download_units stream_units];
      rewrite ?(Hno (go "gb") (go "g") "b"%byte), ?(Hno (go "g") [] "g"%byte), ?(Hno (go "mb") (go "m") "b"%byte),
        ?(Hno (go "m") [] "m"%byte), ?(Hno (go "kb") (go "k") "b"%byte), ?(Hno (go "k") [] "k"%byte) by done; done.
  - destruct Hunits as [-> | ->]; unfold stream_units, download_units in Hu; rewrite !elem_of_cons in Hu;
      repeat (destruct Hu as [[= -> ->]|Hu]); try by apply elem_of_nil in Hu.
    all: unfold stream_units, download_units; cbn [cut_unit].
    all: repeat first
      [ rewrite HasSuffix_app, TrimSuffix_app; reflexivity
      | rewrite HasSuffix_differ by by vm_compute
      | rewrite HasSuffix_within by (cbn; lia);
        match goal with |- context [HasSuffix (go ?u) ?v] =>
          replace (HasSuffix (go u) v) with false by (vm_compute; reflexivity) end ].
Qed.

(** A decimal number and a unit. *)
Lemma parse_size_unit units max err ds u mul :
  digits_only ds = true → decimal ds < 9223372036854775808 →
  (u, mul) ∈ ([], 1) :: units → (units = download_units ∨ units = stream_units) →
  parse_size unicode_lower unicode_trim units max err (ds ++ u) = inl (clamp max (int64 (decimal ds * mul))).
Proof.
  intros Hd Hlt Hu Hunits.
  assert (Forall size_byte u) as Hus.
  { apply Forall_forall. intros c Hc. right.
    assert (bool_decide (Forall (λ um, Forall (λ c, 97 ≤ Z_of_byte c ≤ 122) um.1) (([], 1) :: stream_units)) = true) as Hall
      by by vm_compute.
    apply bool_decide_eq_true in Hall. rewrite Forall_forall in Hall.
    assert ((u, mul) ∈ ([], 1) :: stream_units) as Hin.
    { destruct Hunits as [-> | ->]; [|done]. unfold stream_units. rewrite !elem_of_cons in *. tauto. }
    pose proof (Hall _ Hin) as H. rewrite Forall_forall in H. by apply H. }
  assert (Forall size_byte (ds ++ u)) as Hsz by (apply Forall_app; split; [by apply digits_size|done]).
  unfold parse_size. rewrite (lower_size _ Hsz), (trim_size _ Hsz).
  rewrite bool_decide_eq_false_2.
  - rewrite (cut_unit_found ds u mul units Hd Hu Hunits), trim_size by by apply digits_size.
    rewrite parse_digits by done. pose proof (decimal_nonneg ds Hd). rewrite (proj2 (Z.ltb_ge _ _)) by lia. done.
  - intros [-> _]%app_eq_nil. done.
Qed.

(** Whatever the request, the size is in range. *)
Lemma parse_size_range units max err req size :
  1048576 ≤ max → parse_size unicode_lower unicode_trim units max err req = inl size → 1 ≤ size ≤ max.
Proof.
  intros Hmax. unfold parse_size. case_bool_decide; [intros [= <-]; lia|].
  destruct (cut_unit units _) as [raw mul]. destruct (parse_int _) as [n|]; [|done].
  destruct (n <? 0); [done|]. intros [= <-]. apply clamp_range. lia.
Qed.
End echo_props.

(** ** The handlers, run on the answers of their streams *)

Lemma fillPattern_app a b base :
  fillPattern (a + b) base = fillPattern a base ++ fillPattern b (base + Z.of_nat a).
Proof.
  unfold fillPattern. rewrite seq_app, fmap_app. f_equal. rewrite Nat.add_0_l, <- (Nat.add_0_r a) at 1.
  rewrite <- fmap_add_seq, <- list_fmap_compose. apply list_fmap_ext. intros i x _. cbn. f_equal. lia.
Qed.

Lemma len_fillPattern n base : len (fillPattern n base) = Z.of_nat n.
Proof. unfold fillPattern, len. by rewrite length_fmap, length_seq. Qed.

Lemma sends_replies b k reps st : replies_with k reps st → replies_with (sends b k) (b :: reps) st.
Proof. intros H. eexists. split; [reflexivity|done]. Qed.

(** The messages of [download_loop]. *)
Fixpoint download_chunks (turns : nat) (sent size : Z) : list bytes :=
  if sent <? size then
    match turns with
    | O => []
    | S turns =>
        let end_ := if size <? sent + stream_chunk then size else sent + stream_chunk in
        fillPattern (Z.to_nat (end_ - sent)) sent :: download_chunks turns end_ size
    end
  else [].

Lemma download_chunks_spec turns : ∀ sent size,
  0 ≤ sent → size - sent ≤ Z.of_nat turns * stream_chunk →
  concat (download_chunks turns sent size) = fillPattern (Z.to_nat (size - sent)) sent ∧
  Forall (λ b, 0 < len b ≤ stream_chunk) (download_chunks turns sent size) ∧
  replies_with (download_loop turns sent size) (download_chunks turns sent size) (Some OK).
Proof.
  unfold stream_chunk. induction turns as [|turns IH]; intros sent size H0 Hle; cbn [download_chunks download_loop];
    destruct (Z.ltb_spec sent size) as [Hlt|Hge]; [lia| | |].
  1, 3: replace (Z.to_nat (size - sent)) with 0%nat by lia; by split_and!.
  set (e := if size <? sent + stream_chunk then size else sent + stream_chunk).
  assert (sent < e ≤ size ∧ e - sent ≤ 16777216 ∧ size - e ≤ Z.of_nat turns * 16777216) as (He & Hc & Hr).
  { unfold e, stream_chunk. destruct (Z.ltb_spec size (sent + 16777216)); lia. }
  destruct (IH e size ltac:(lia) Hr) as (H1 & H2 & H3). split_and!; [| |by apply sends_replies].
  - cbn. rewrite H1. replace (Z.to_nat (size - sent)) with (Z.to_nat (e - sent) + Z.to_nat (size - e))%nat by lia.
    rewrite fillPattern_app. f_equal. f_equal. lia.
  - apply Forall_cons. split; [|done]. rewrite len_fillPattern. lia.
Qed.

Lemma chunks_enough size : 0 ≤ size → size - 0 ≤ Z.of_nat (chunks_of size) * stream_chunk.
Proof.
  intros H. unfold chunks_of, stream_chunk.
  pose proof (Z.div_mod (size + 16777216 - 1) 16777216 ltac:(lia)).
  pose proof (Z.mod_pos_bound (size + 16777216 - 1) 16777216 ltac:(lia)).
  pose proof (Z.div_pos (size + 16777216 - 1) 16777216 ltac:(lia) ltac:(lia)). lia.
Qed.

(** [Collect] on its messages. *)
Lemma Collect_collects reqs : ∀ bound n total,
  (length reqs < bound)%nat → 0 ≤ n → 0 ≤ total → n + Z.of_nat (length reqs) < 9223372036854775808 →
  total + len (concat reqs) < 9223372036854775808 →
  collects (Collect_loop bound n total) reqs
    (sends (collect_reply (n + Z.of_nat (length reqs)) (total + len (concat reqs))) (Return (Some OK))).
Proof.
  induction reqs as [|b reqs IH]; intros bound n total Hb Hn Ht Hmax Hmax'; (destruct bound as [|bound]; [cbn in Hb; lia|]);
    cbn [Collect_loop collects length concat] in *.
  - eexists. split; [done|]. cbn. do 2 f_equal; unfold collect_reply; rewrite ?len_nil; by rewrite !Z.add_0_r.
  - eexists. split; [done|]. cbn beta iota. rewrite len_app in *. pose proof (len_nonneg b). pose proof (len_nonneg (concat reqs)).
    rewrite !int64_id by lia.
    replace (n + Z.of_nat (S (length reqs))) with (n + 1 + Z.of_nat (length reqs)) by lia.
    rewrite Z.add_assoc. apply IH; lia.
Qed.

(** ** Conversations *)

(** The handler answers each message as it comes, and returns at [io.EOF]. *)
Fixpoint converses (p : prog) (reqs reps : list bytes) (st : option Status) : Prop :=
  match reqs, reps with
  | [], [] => ∃ k, p = RpcServer.Recv k ∧ k (inr EOF) = Return st
  | b :: reqs, r :: reps => ∃ k k', p = RpcServer.Recv k ∧ k (inl b) = RpcServer.Send r k' ∧ converses (k' None) reqs reps st
  | _, _ => False
  end.

(** The acknowledgements of the messages after the first [seq]. *)
Fixpoint acks (seq : Z) (reqs : list bytes) : list bytes :=
  match reqs with [] => [] | b :: reqs => ack (int64 (seq + 1)) b :: acks (int64 (seq + 1)) reqs end.

Lemma Chat_converses reqs : ∀ bound seq,
  (length reqs < bound)%nat → converses (Chat_loop bound seq) reqs (acks seq reqs) (Some OK).
Proof.
  induction reqs as [|b reqs IH]; intros bound seq Hb; (destruct bound as [|bound]; [cbn in Hb; lia|]);
    cbn [Chat_loop converses acks length] in *.
  - by eexists.
  - eexists _, _. split; [done|]. split; [reflexivity|]. cbn. apply IH. lia.
Qed.

Lemma LargeEchoStream_converses reqs : ∀ bound,
  (length reqs < bound)%nat → converses (LargeEchoStream bound) reqs reqs (Some OK).
Proof.
  induction reqs as [|b reqs IH]; intros bound Hb; (destruct bound as [|bound]; [cbn in Hb; lia|]); cbn in *.
  - by eexists.
  - eexists _, _. split; [done|]. cbn. split; [reflexivity|]. apply IH. lia.
Qed.

(** ** Runs of the handlers *)

(** The program answers each message as it comes, with a reply that may depend
    on those before it, and returns at the first error. *)
Inductive answering (reply : list bytes → bytes → bytes) : list bytes → prog → Prop :=
  | an_return got st : answering reply got (Return st)
  | an_recv got k k' :
      (∀ e, ∃ st, k (inr e) = Return st) → (∀ b, k (inl b) = RpcServer.Send (reply got b) (k' b)) →
      (∀ b e, ∃ st, k' b (Some e) = Return st) → (∀ b, answering reply (got ++ [b]) (k' b None)) →
      answering reply got (RpcServer.Recv k).

Fixpoint replies (reply : list bytes → bytes → bytes) (got reqs : list bytes) : list bytes :=
  match reqs with [] => [] | b :: reqs => reply got b :: replies reply (got ++ [b]) reqs end.

Lemma replies_app reply reqs : ∀ got reqs',
  replies reply got (reqs ++ reqs') = replies reply got reqs ++ replies reply (got ++ reqs) reqs'.
Proof.
  induction reqs as [|b reqs IH]; intros got reqs'; cbn; [by rewrite app_nil_r|].
  by rewrite IH, <- app_assoc.
Qed.

Lemma replies_prefix reply got reqs reqs' :
  reqs `prefix_of` reqs' → replies reply got reqs `prefix_of` replies reply got reqs'.
Proof. intros [ds ->]. rewrite replies_app. by apply prefix_app_r. Qed.

(** In [Recv], in [Send], or at an end. *)
Lemma answering_runs reply p0 got gave p :
  answering reply [] p0 → follows p0 got gave p → gave `prefix_of` replies reply [] got.
Proof.
  intros H0 H.
  enough ((answering reply got p ∧ gave = replies reply [] got) ∨
    (∃ got0 b k', got = got0 ++ [b] ∧ gave = replies reply [] got0 ∧ p = RpcServer.Send (reply got0 b) k' ∧
       (∀ e, ∃ st, k' (Some e) = Return st) ∧ answering reply got (k' None)) ∨
    (∃ st, p = Return st ∧ gave `prefix_of` replies reply [] got)) as [(_ & ->)|[(? & ? & ? & -> & -> & _)|(? & _ & ?)]];
    [done|apply replies_prefix; by apply prefix_app_r|done|].
  induction H as [|got gave k b _ IH|got gave k e _ IH|got gave b k _ IH|got gave b k e _ IH|got gave kv k _ IH
    |got gave kv k _ IH|got gave md k _ IH|got gave e k _ IH]; [by left|..];
    destruct IH as [(Ha & ->)|[(got0 & b0 & k1 & -> & -> & E & He & Ha)|(? & E & _)]]; try done;
    try (by inversion Ha); try (injection E as -> ->).
  - inversion Ha as [|? ? k' H1 H2 H3 H4]; subst. right. left. exists got, b, (k' b). by rewrite H2.
  - inversion Ha as [|? ? k' H1 H2 H3 H4]; subst. destruct (H1 e) as [st ->]. right. right. by exists st.
  - left. split; [done|]. by rewrite replies_app.
  - right. right. destruct (He e) as [st ->]. exists st. split; [done|]. apply replies_prefix. by apply prefix_app_r.
Qed.

Lemma replies_plain f reqs got : replies (λ _, f) got reqs = map f reqs.
Proof. revert got. induction reqs as [|b reqs IH]; intros got; [done|]. cbn. by rewrite IH. Qed.

Definition chat_seq (got : list bytes) : Z := foldl (λ n _, int64 (n + 1)) 0 got.

Lemma replies_acks reqs : ∀ got,
  replies (λ got b, ack (int64 (chat_seq got + 1)) b) got reqs = acks (chat_seq got) reqs.
Proof.
  induction reqs as [|b reqs IH]; intros got; [done|]. cbn. rewrite IH. unfold chat_seq. by rewrite foldl_app.
Qed.

Lemma EOF_or_fails err : ∃ st, (if bool_decide (err = EOF) then Return (Some OK) else fails 13 err) = Return st.
Proof. case_bool_decide; by eexists. Qed.

Lemma Chat_answers bound : answering (λ got b, ack (int64 (chat_seq got + 1)) b) [] (Chat bound).
Proof.
  unfold Chat. change 0 with (chat_seq []). generalize (@nil bytes). induction bound as [|bound IH]; intros got; [apply an_return|].
  cbn [Chat_loop]. eapply an_recv; [apply EOF_or_fails|done|by eexists|]. intros b.
  replace (int64 (chat_seq got + 1)) with (chat_seq (got ++ [b])) by (unfold chat_seq; by rewrite foldl_app). apply IH.
Qed.

Lemma LargeEchoStream_answers bound got : answering (λ _ b, b) got (LargeEchoStream bound).
Proof.
  revert got. induction bound as [|bound IH]; intros got; [apply an_return|].
  cbn [LargeEchoStream]. eapply an_recv; [apply EOF_or_fails|done|by eexists|]. intros b. apply IH.
Qed.

Lemma Echo_answers : answering (λ _ b, go "echo: " ++ b) [] Echo.
Proof. eapply an_recv; [by eexists|done|by eexists|]. intros b. apply an_return. Qed.

Lemma LargeEcho_answers : answering (λ _ b, b) [] LargeEcho.
Proof. eapply an_recv; [by eexists|done|by eexists|]. intros b. apply an_return. Qed.

(** The program receives no more and sends these messages, unless it returns
    before the last. *)
Inductive sending : prog → list bytes → Prop :=
  | sd_return st : sending (Return st) []
  | sd_send b k reps :
      (∀ e, ∃ st, k (Some e) = Return st) → sending (k None) reps → sending (RpcServer.Send b k) (b :: reps)
  | sd_header kv k reps : sending k reps → sending (CallSetHeader kv k) reps
  | sd_trailer kv k reps : sending k reps → sending (CallSetTrailer kv k) reps.

Lemma sending_sends b k reps : sending k reps → sending (sends b k) (b :: reps).
Proof. intros H. apply sd_send; [by eexists|done]. Qed.

(** A handler that receives once, and what it sends then. *)
Lemma first_request_runs (F : option bytes → list bytes) k got gave p :
  (∀ req, sending (k (inl req)) (F (Some req))) →
  (∀ e, (∃ st, k (inr e) = Return st) ∨ sending (k (inr e)) (F None)) →
  follows (RpcServer.Recv k) got gave p → gave `prefix_of` F (head got).
Proof.
  intros Hk Hke H.
  enough ((p = RpcServer.Recv k ∧ got = [] ∧ gave = []) ∨
    (∃ rest, sending p rest ∧ gave ++ rest = F (head got)) ∨
    (∃ st, p = Return st ∧ gave `prefix_of` F (head got))) as [(_ & _ & ->)|[(rest & _ & <-)|(? & _ & ?)]];
    [apply prefix_nil|by apply prefix_app_r|done|].
  induction H as [|got gave k1 b _ IH|got gave k1 e _ IH|got gave b k1 _ IH|got gave b k1 e _ IH|got gave kv k1 _ IH
    |got gave kv k1 _ IH|got gave md k1 _ IH|got gave e k1 _ IH]; [by left|..];
    destruct IH as [(E & -> & ->)|[(rest & Hs & E)|(? & E & _)]]; try done; try (by inversion Hs);
    try (injection E as ->); try (inversion Hs as [|? ? reps He Hn|? ? reps Hn|? ? reps Hn]; subst).
  - right. left. exists (F (Some b)). by split; [apply Hk|].
  - destruct (Hke e) as [[st Hst]|Hs]; right; [right; exists st; split; [done|apply prefix_nil]|left].
    by exists (F None).
  - right. left. exists reps. split; [done|]. by rewrite <- app_assoc.
  - destruct (He e) as [st ->]. right. right. exists st. split; [done|]. rewrite <- E. by apply prefix_app_r.
  - right. left. by exists rest.
  - right. left. by exists rest.
Qed.

Lemma request_runs (F : bytes → list bytes) k got gave p :
  (∀ req, sending (k req) (F req)) → follows (recv_request k) got gave p →
  gave `prefix_of` F (default [] (head got)).
Proof.
  intros Hk. apply (first_request_runs (λ o, F (default [] o))); [done|]. intros e.
  case_bool_decide; [right; apply Hk|left; by eexists].
Qed.

Lemma download_loop_sending turns : ∀ sent size, sending (download_loop turns sent size) (download_chunks turns sent size).
Proof.
  induction turns as [|turns IH]; intros sent size; cbn [download_loop download_chunks];
    destruct (sent <? size); try apply sd_return. apply sending_sends, IH.
Qed.

(** ** The handlers and the sizes *)

Section echo_claims.
Context (unicode_lower unicode_trim unicode_quote : bytes → bytes).

(** What a server-streaming method takes for its request. *)
Definition request_of (r : bytes + error) (req : bytes) : Prop := r = inl req ∨ r = inr EOF ∧ req = [].

Definition stream_chunks (req : bytes) : list bytes :=
  map (λ i, go "chunk " ++ show_int i ++ go " for " ++ quote unicode_quote req) [1; 2; 3; 4; 5].

Lemma recv_request_replies k req reps st :
  replies_with (k req) reps st →
  ∃ k', recv_request k = RpcServer.Recv k' ∧ ∀ r, request_of r req → replies_with (k' r) reps st.
Proof. intros H. eexists. split; [reflexivity|]. by intros r [->|[-> ->]]. Qed.

(** Every handler of the echo server does what its method is for, when no
    operation on its stream fails.  [Echo] prefixes its request; [Stream] sends
    five chunks; [Collect] takes all messages and reports their number and total
    length; [Chat] acknowledges each message and [LargeEchoStream] returns each
    as it comes; [LargeDownload] sends the pattern of the size of the request, and
    [LargeDownloadStream] sends it in messages of at most 16 MiB, the last of
    which ends it; all then return OK.  A size that does not parse is answered
    with code 3 and nothing else. *)
Theorem echo_handlers bound reqs
    (Hbound : (length reqs < bound)%nat) (Hn : Z.of_nat (length reqs) < 9223372036854775808)
    (Htotal : len (concat reqs) < 9223372036854775808) :
  (∃ k, Echo = RpcServer.Recv k ∧ ∀ req, replies_with (k (inl req)) [go "echo: " ++ req] (Some OK)) ∧
  (∀ req, ∃ k, Stream unicode_quote = RpcServer.Recv k ∧
     ∀ r, request_of r req → replies_with (k r) (stream_chunks req) (Some OK)) ∧
  (∃ fin, collects (Collect bound) reqs fin ∧
     replies_with fin [collect_reply (Z.of_nat (length reqs)) (len (concat reqs))] (Some OK)) ∧
  converses (Chat bound) reqs (acks 0 reqs) (Some OK) ∧
  converses (LargeEchoStream bound) reqs reqs (Some OK) ∧
  (∀ req, ∃ k, LargeDownload unicode_lower unicode_trim = RpcServer.Recv k ∧ ∀ r, request_of r req →
     match parseDownloadSize unicode_lower unicode_trim req with
     | inl size => replies_with (k r) [makePattern size] (Some OK)
     | inr err => replies_with (k r) [] (Some (Err 3 (Some err)))
     end) ∧
  (∀ req, ∃ k, LargeDownloadStream unicode_lower unicode_trim = RpcServer.Recv k ∧ ∀ r, request_of r req →
     match parseStreamSize unicode_lower unicode_trim req with
     | inl size => ∃ reps, replies_with (k r) reps (Some OK) ∧ concat reps = makePattern size ∧
                     Forall (λ b, 0 < len b ≤ stream_chunk) reps
     | inr err => replies_with (k r) [] (Some (Err 3 (Some err)))
     end).
Proof.
  split_and!.
  - eexists. split; [reflexivity|]. intros req. by apply sends_replies.
  - intros req. apply recv_request_replies. cbn [Stream_loop]. by repeat apply sends_replies.
  - eexists. split; [by apply Collect_collects|]. by apply sends_replies.
  - by apply Chat_converses.
  - by apply LargeEchoStream_converses.
  - intros req. unfold LargeDownload. destruct (parseDownloadSize _ _ req) as [size|err] eqn:E;
      apply recv_request_replies; rewrite E; by try apply sends_replies.
  - intros req. unfold LargeDownloadStream. destruct (parseStreamSize _ _ req) as [size|err] eqn:E.
    + apply parse_size_range in E as H; [|by vm_compute].
      destruct (download_chunks_spec (chunks_of size) 0 size ltac:(done) (chunks_enough size ltac:(lia))) as (H1 & H2 & H3).
      edestruct (recv_request_replies (λ req, match parseStreamSize unicode_lower unicode_trim req with
        | inr perr => fails 3 perr | inl size => download_loop (chunks_of size) 0 size end) req)
        as (k & Hk & Hr); [rewrite E; exact H3|].
      exists k. split; [exact Hk|]. intros r Hreq. eexists. split; [by apply Hr|].
      split; [|done]. rewrite H1, Z.sub_0_r. done.
    + apply recv_request_replies. by rewrite E.
Qed.

(** [C36] The sizes of [LargeDownload] and [LargeDownloadStream]: a request of which
    nothing is left without white space is 1 MiB; a decimal number and a unit of
    the table is their product, within the limits, as long as the product is an
    int64; and whatever the request, a size that is accepted is within the limits.
    The product is not checked for overflow: 8 EiB, asked for as
    "8796093022208m", becomes one byte and not the limit. *)
Theorem echo_sizes :
  (∀ req, trim_space unicode_trim (ToLower unicode_lower req) = [] →
     parseDownloadSize unicode_lower unicode_trim req = inl 1048576 ∧
     parseStreamSize unicode_lower unicode_trim req = inl 1048576) ∧
  (∀ req size, parseDownloadSize unicode_lower unicode_trim req = inl size → 1 ≤ size ≤ maxDownloadBytes) ∧
  (∀ req size, parseStreamSize unicode_lower unicode_trim req = inl size → 1 ≤ size ≤ maxStreamBytes) ∧
  (∀ ds u mul, digits_only ds = true → decimal ds * mul < 9223372036854775808 →
     ((u, mul) ∈ ([], 1) :: download_units →
        parseDownloadSize unicode_lower unicode_trim (ds ++ u) = inl (clamp maxDownloadBytes (decimal ds * mul))) ∧
     ((u, mul) ∈ ([], 1) :: stream_units →
        parseStreamSize unicode_lower unicode_trim (ds ++ u) = inl (clamp maxStreamBytes (decimal ds * mul)))) ∧
  parseDownloadSize unicode_lower unicode_trim (go "8796093022208m") = inl 1 ∧
  parseStreamSize unicode_lower unicode_trim (go "8589934592g") = inl 1.
Proof using unicode_lower unicode_trim.
  clear unicode_quote.
  assert (∀ units max err ds u mul, digits_only ds = true → decimal ds * mul < 9223372036854775808 →
    (u, mul) ∈ ([], 1) :: units → (units = download_units ∨ units = stream_units) →
    parse_size unicode_lower unicode_trim units max err (ds ++ u) = inl (clamp max (decimal ds * mul))) as Hunit.
  { intros units max err ds u mul Hd Hlt Hu Hunits. pose proof (decimal_nonneg ds Hd) as H0.
    assert (1 ≤ mul).
    { assert ((u, mul) ∈ ([], 1) :: stream_units) as Hin.
      { destruct Hunits as [-> | ->]; [|done]. unfold stream_units. rewrite !elem_of_cons in *. tauto. }
      assert (bool_decide (Forall (λ um, 1 ≤ um.2) (([], 1) :: stream_units)) = true) as Hall by by vm_compute.
      apply bool_decide_eq_true in Hall. rewrite Forall_forall in Hall. by apply (Hall (u, mul)). }
    rewrite (parse_size_unit unicode_lower unicode_trim units max err ds u mul) by (done || nia). by rewrite int64_id by nia. }
  split_and!.
  - intros req H. unfold parseDownloadSize, parseStreamSize, parse_size. by rewrite H.
  - intros req size. by apply parse_size_range.
  - intros req size. by apply parse_size_range.
  - intros ds u mul Hd Hlt. split; intros Hu; apply Hunit; auto.
  - by vm_compute.
  - by vm_compute.
Qed.
End echo_claims.

(** ** The demo (examples/echo-go/main.go)

    Its server has the [Stream] of the echo server and a unary method with a header
    and a trailer. *)

Definition demo_header : Metadata := {["x-server"%string := ["peerrpc-echo"%string]]}.
Definition demo_trailer : Metadata := {["x-consumed"%string := ["1"%string]]}.

Definition demo_Unary : prog :=
  RpcServer.Recv (λ r, match r with
    | inr err => fails 13 err
    | inl req =>
        CallSetHeader demo_header (CallSetTrailer demo_trailer (sends (go "echo: " ++ req) (Return (Some OK))))
    end).

Definition demo_registerEcho (unicode_quote : bytes → bytes) (srv : @Server unit) : res unit * @Server unit :=
  RegisterService srv {| sd_ServiceName := "echo.Echo"; sd_Methods :=
    [echo_method "Unary" MethodKindUnary demo_Unary;
     echo_method "Stream" MethodKindServerStreaming (Stream unicode_quote)] |}.

(** The client of [Unary] gets the reply, and header and trailer both twice, as
    the server keeps them in one map ([headers_and_trailers_shared]). *)
Theorem demo_unary_reply l s q m req rest
    (Hup : up m) (Hl : lookupStream q m = Some l) (Hs : m_heap m !! l = Some s) (Hq : ss_seq s = q)
    (Hsent : st_headerSent s = false) (Hflag : ss_hdrStateSent s = false) (Hhdr : ss_hdr s = ∅)
    (Hin : ss_inbound s = req :: rest) (Ht : m_threads m !! l = Some (Running demo_Unary)) :
  ∃ m', rtc (hdet l) m m' ∧ m_threads m' !! l = None ∧
    m_out m' = m_out m ++ [mkBegin q (Snapshot (demo_header ∪ demo_trailer))] ++ data_frames q (go "echo: " ++ req) ++
      [mkEnd q {| end_CloseSend := false; end_Status := Some (toProto (Some OK));
                  end_Trailer := Some (Snapshot (demo_header ∪ demo_trailer)) |}].
Proof.
  set (k := λ e, match e with Some err => fails 13 err | None => Return (Some OK) end).
  set (ops := [(true, demo_header); (false, demo_trailer)]).
  set (m1 := set_thread l (Running (meta_prog ops (RpcServer.Send (go "echo: " ++ req) k)))
               (RpcServer.update l (RpcServer.with_inbound rest) m)).
  assert (hdet l m m1) as R1 by (unfold hdet, handler_step; by rewrite Ht, Hs; cbn; rewrite Hin).
  destruct (headers_and_trailers_shared l (RpcServer.with_inbound rest s) q m1 ops [] (go "echo: " ++ req) k (Some OK))
    as (m2 & R2 & Ht2 & _ & Ho2); try done.
  - cbn. by rewrite lookup_alter, decide_True, Hs.
  - cbn. by rewrite lookup_insert, decide_True.
  - exists m2. split; [by eapply rtc_l|]. split; [done|]. rewrite Ho2. cbn [ss_hdr RpcServer.with_inbound]. rewrite Hhdr.
    assert (meta_of ops ∅ = demo_header ∪ demo_trailer) as E by (by vm_compute).
    by rewrite (app_nil_r ops : ops ++ [] = ops), E.
Qed.

(** ** Conversations over the connection *)

Section sessions.
Context (unicode_lower unicode_trim unicode_quote : bytes → bytes) (bound : nat).
Context `{!Codec Frame, !CodecLaws Frame} `{!Codec ResponseFrame, !CodecLaws ResponseFrame}.

Definition echo_server : @Server unit :=
  (registerEcho unicode_lower unicode_trim unicode_quote bound (NewServer [])).2.

(** What [LargeDownloadStream] sends for a request. *)
Definition download_of (req : bytes) : list bytes :=
  match parseStreamSize unicode_lower unicode_trim req with
  | inl size => download_chunks (chunks_of size) 0 size
  | inr _ => []
  end.

Lemma download_sending req :
  sending (match parseStreamSize unicode_lower unicode_trim req with
           | inr perr => fails 3 perr
           | inl size => download_loop (chunks_of size) 0 size
           end) (download_of req).
Proof.
  unfold download_of. destruct (parseStreamSize _ _ req); [apply download_loop_sending|apply sd_return].
Qed.

Lemma echo_registered :
  (registerEcho unicode_lower unicode_trim unicode_quote bound (NewServer [])).1 = Ok tt ∧
  findMethod echo_server "/echo.Echo/Echo" = Some (echo_method "/echo.Echo/Echo" MethodKindUnary Echo) ∧
  findMethod echo_server "/echo.Echo/Chat" = Some (echo_method "/echo.Echo/Chat" MethodKindBidiStreaming (Chat bound)) ∧
  findMethod echo_server "/echo.Echo/LargeEchoStream" =
    Some (echo_method "/echo.Echo/LargeEchoStream" MethodKindBidiStreaming (LargeEchoStream bound)) ∧
  findMethod echo_server "/echo.Echo/LargeDownloadStream" =
    Some (echo_method "/echo.Echo/LargeDownloadStream" MethodKindServerStreaming
            (LargeDownloadStream unicode_lower unicode_trim)).
Proof. by split_and!. Qed.

(** [C13] The echo server answers every call with what its method is for, however
    many calls run at once over the connection and however they interleave.  At
    every moment, the application has received, on a stream without a deadline,
    of [Chat] a prefix of the acknowledgements, numbered from 1, of what it has
    sent; of [LargeEchoStream] a prefix of what it has sent; of [Echo] at most
    its request behind "echo: "; and of [LargeDownloadStream] chunks of at most
    16 MiB whose bytes are a prefix of the pattern of the size it asked for (of 1
    MiB when the end of the request has overtaken it).  These are
    four of the eight methods; [echo_handlers] says what the handlers do, also
    those of the others, on streams that do not fail. *)
Theorem echo_sessions k l ls cs s :
  conn_reachable echo_server tt k → paired k l ls cs s → ss_ctx s = None ∨ ss_timeout s ≤ 0 →
  (ss_method s = "/echo.Echo/Chat" → k_ret k l `prefix_of` acks 0 (k_sent k l)) ∧
  (ss_method s = "/echo.Echo/LargeEchoStream" → k_ret k l `prefix_of` k_sent k l) ∧
  (ss_method s = "/echo.Echo/Echo" → k_ret k l `prefix_of` map (app (go "echo: ")) (k_sent k l)) ∧
  (ss_method s = "/echo.Echo/LargeDownloadStream" → ∃ req,
     (req = [] ∨ head (k_sent k l) = Some req) ∧ k_ret k l `prefix_of` download_of req ∧
     ∀ size, parseStreamSize unicode_lower unicode_trim req = inl size →
       1 ≤ size ≤ maxStreamBytes ∧ concat (k_ret k l) `prefix_of` makePattern size ∧
       Forall (λ b, len b ≤ stream_chunk) (k_ret k l)).
Proof.
  intros Hk Hp Hctx. destruct (conn_runs echo_server tt k Hk) as [HK HR].
  destruct (stream_run echo_server tt k l ls cs s HK HR Hp) as (md & v & p & got & gave & Hmd & _ & Hf & _ & Hpre & Hret).
  specialize (Hpre Hctx). destruct echo_registered as (_ & M1 & M2 & M3 & M4).
  assert (∀ reply p0, handler_prog echo_server tt md v = p0 → answering reply [] p0 →
    k_ret k l `prefix_of` replies reply [] (k_sent k l)) as Hans.
  { intros reply p0 E Ha. rewrite E in Hf. etrans; [exact Hret|]. etrans; [by eapply answering_runs|].
    by apply replies_prefix. }
  split_and!; intros Em; rewrite Em in Hmd.
  - rewrite M2 in Hmd. injection Hmd as <-. change 0 with (chat_seq []). rewrite <- replies_acks.
    eapply Hans; [done|apply Chat_answers].
  - rewrite M3 in Hmd. injection Hmd as <-. rewrite <- (map_id (k_sent k l)), <- (replies_plain (λ b, b) _ []).
    eapply Hans; [done|apply LargeEchoStream_answers].
  - rewrite M1 in Hmd. injection Hmd as <-. rewrite <- (replies_plain (app (go "echo: ")) _ []).
    eapply Hans; [done|apply Echo_answers].
  - rewrite M4 in Hmd. injection Hmd as <-.
    pose proof (request_runs download_of _ got gave p download_sending Hf) as Hgave.
    exists (default [] (head got)). split; [|split; [by etrans|]].
    + destruct got as [|b got]; [by left|right]. by destruct Hpre as [ds ->].
    + intros size Hsize. assert (1 ≤ size ≤ maxStreamBytes) as Hrange by by eapply parse_size_range.
      assert (k_ret k l `prefix_of` download_of (default [] (head got))) as [ds Hds] by by etrans.
      unfold download_of in Hds. rewrite Hsize in Hds.
      destruct (download_chunks_spec (chunks_of size) 0 size ltac:(lia) (chunks_enough size ltac:(lia))) as (Hc & Hb & _).
      rewrite Hds in Hc, Hb. rewrite concat_app, Z.sub_0_r in Hc. apply Forall_app in Hb as [Hb _].
      split; [done|]. split; [unfold makePattern; rewrite <- Hc; by apply prefix_app_r|].
      eapply Forall_impl; [exact Hb|]. cbn. intros b0 [_ ?]. done.
Qed.
End sessions.

(** ** An example: a [Chat] of which the first message has been answered *)

Definition chat_moves : list move :=
  [MOpen "/echo.Echo/Chat" None; MSend 0 (go "hi"); MSend 0 (go "you"); MServe; MHandler 0; MServe; MServe;
   MHandler 0; MHandler 0; MAttach; MHandler 0; MAttach; MRecv 0 RStart].

Definition chat_requests : list Frame :=
  let '(s, _, c) := InvokeClientStreaming background "/echo.Echo/Chat" None ∅ NewClient in
  cl_sent (Stream_Send s (go "you") (Stream_Send s (go "hi") c).2).2.

#[local] Instance chat_codec1 : Codec Frame := table_codec chat_requests.
#[local] Instance chat_codec2 : Codec ResponseFrame :=
  table_codec [mkBegin 3 (Snapshot ∅); mkData 3 (Data_Message (go "ack 1: hi"))].
#[local] Instance chat_laws1 : CodecLaws Frame.
Proof. apply table_codec_laws, Nat.leb_le. by vm_compute. Qed.
#[local] Instance chat_laws2 : CodecLaws ResponseFrame.
Proof. apply table_codec_laws, Nat.leb_le. by vm_compute. Qed.

Definition chat_conn : option conn := exec_all (echo_server id id id 4) tt chat_moves newConn.

Lemma echo_sessions_witness :
  ∃ k cs s, conn_reachable (echo_server id id id 4) tt k ∧ paired k 0 0 cs s ∧ ss_ctx s = None ∧
    ss_method s = "/echo.Echo/Chat"%string ∧ k_sent k 0%nat = [go "hi"; go "you"] ∧
    k_ret k 0%nat = [go "ack 1: hi"] ∧ k_ret k 0%nat `prefix_of` acks 0 (k_sent k 0%nat).
Proof.
  destruct chat_conn as [k|] eqn:E; [|by vm_compute in E].
  assert (conn_reachable (echo_server id id id 4) tt k) as Hk.
  { eapply exec_all_reachable; [apply rtc_refl|exact E]. }
  assert (k = default newConn chat_conn) as Ek by by rewrite E.
  destruct (cl_heap (k_client k) !! 0%nat) as [cs|] eqn:Hcs; [|rewrite Ek in Hcs; by vm_compute in Hcs].
  destruct (m_heap (k_mux k) !! 0%nat) as [s|] eqn:Hs; [|rewrite Ek in Hs; by vm_compute in Hs].
  pose proof Hcs as Hcs'. pose proof Hs as Hs'. rewrite Ek in Hcs', Hs'. vm_compute in Hcs', Hs'.
  injection Hcs' as Ecs. injection Hs' as Es.
  assert (paired k 0 0 cs s) as Hp by (split; [done|]; split; [done|]; by rewrite <- Ecs, <- Es).
  assert (ss_ctx s = None) as Hctx by by rewrite <- Es.
  assert (ss_method s = "/echo.Echo/Chat"%string) as Hm by by rewrite <- Es.
  assert (k_sent k 0%nat = [go "hi"; go "you"]) as Hsent by (rewrite Ek; vm_compute; reflexivity).
  assert (k_ret k 0%nat = [go "ack 1: hi"]) as Hret by (rewrite Ek; vm_compute; reflexivity).
  exists k, cs, s. do 6 (split; [assumption|]).
  exact (proj1 (echo_sessions id id id 4 k 0 0 cs s Hk Hp (or_introl Hctx)) Hm).
Defined.

Lemma echo_handlers_witness :
  (length [go "ab"; go "c"] < 3)%nat ∧
  (∃ fin, collects (Collect 3) [go "ab"; go "c"] fin ∧
     replies_with fin [go "received 2 messages (3 bytes)"] (Some OK)) ∧
  converses (Chat 3) [go "ab"; go "c"] [go "ack 1: ab"; go "ack 2: c"] (Some OK).
Proof.
  assert (length [go "ab"; go "c"] < 3)%nat as H by (cbn; lia).
  destruct (echo_handlers id id id 3 [go "ab"; go "c"] H ltac:(cbn; lia) ltac:(vm_compute; reflexivity))
    as (_ & _ & H1 & H2 & _).
  split; [exact H|]. split; [|exact H2].
  destruct H1 as (fin & H1 & H3). exists fin. split; [exact H1|]. exact H3.
Defined.

Lemma echo_sizes_witness :
  digits_only (go "64") = true ∧ (go "kb", 1024) ∈ ([], 1) :: download_units ∧
  parseDownloadSize id id (go "64kb") = inl 65536.
Proof.
  assert (digits_only (go "64") = true) as H by (vm_compute; reflexivity).
  assert ((go "kb", 1024) ∈ ([], 1) :: download_units) as Hu.
  { unfold download_units. rewrite !elem_of_cons. tauto. }
  split; [exact H|]. split; [exact Hu|].
  destruct (echo_sizes id id) as (_ & _ & _ & Hs & _).
  exact (proj1 (Hs (go "64") (go "kb") 1024 H ltac:(vm_compute; reflexivity)) Hu).
Defined.
