(* ===== verification/Demos.v ===== *)
(** * The demos (examples/echo-go/main.go and examples/facade-go/main.go)

    Both run a server and a client in one process: they set up a connection, call
    a unary and a server-streaming method over it, print what they receive, and
    exit.  The setup differs (echo-go does by hand what the facade does), and so
    do the handlers and what is printed; the calls are the same.  [main] is a
    program over the connection of [Connection]: between two of its steps, the
    goroutines of both ends run as they like, and the context that all of it
    shares, of 15 seconds, may end. *)

From Stdlib Require Import Strings.Byte ZArith Lia.
From stdpp Require Import numbers strings gmap fin_maps relations list.
From S2P Require Import Prelude Status Messages Transport Chunks Channel RpcServer RpcServerRun RpcServerSafety RpcServerProps RpcClient RpcClientProps EndToEnd Payloads StreamEnd UploadEnd Connection ConnectionSend ConnectionServer ConnectionReturn ConnectionProps ConnectionTrace ConnectionMethods ConnectionProgress Target Echo.
Open Scope Z_scope.

(** ** The handlers of facade-go *)

Fixpoint facade_chunks (n : nat) : prog :=
  match n with O => Return (Some OK) | S n => sends (go "chunk") (facade_chunks n) end.

Definition facade_Stream : prog := recv_request (λ _, facade_chunks 5).

Definition facade_registerEcho (srv : @Server unit) : res unit * @Server unit :=
  RegisterService srv {| sd_ServiceName := "echo.Echo"; sd_Methods :=
    [echo_method "Unary" MethodKindUnary Echo; echo_method "Stream" MethodKindServerStreaming facade_Stream] |}.

(** ** [main] *)

(** What is printed. *)
Inductive line : Type :=
  | LInfo (what : string)
  | LUnary (response : bytes)
  | LChunk (message : bytes)
  | LChunks (count : nat)
  | LError (what : string).

(** A call of the setup: its name, whether its result is closed by a [defer], and
    what is printed when it has succeeded. *)
Record setup_call : Type := { su_what : string; su_deferred : bool; su_lines : list line }.

Record demo : Type := {
  dm_setup : list setup_call;
  dm_server : @Server unit;
  dm_is_end : error → bool;             (* ends the loop over the stream *)
  dm_chunk : bytes → list line;         (* for each message of the stream *)
  dm_complete : nat → list line;        (* at the end, for their number *)
  dm_unary_error : string;
  dm_stream_error : string;
  dm_recv_error : string
}.

Definition must (deferred : bool) (what : string) : setup_call :=
  {| su_what := what; su_deferred := deferred; su_lines := [LInfo (what +:+ " OK")] |}.

Definition echo_demo (unicode_quote : bytes → bytes) : demo := {|
  dm_setup := [must true "offerer signaling"; must true "answerer signaling"; must true "offerer New";
               must true "answerer New"; must false "offerer Dial"; must false "answerer Accept"];
  dm_server := (demo_registerEcho unicode_quote (NewServer [])).2;
  dm_is_end := λ err, errors_Is err EOF;
  dm_chunk := λ b, [LChunk b];
  dm_complete := λ _, [LInfo "Phase 1 demo complete"];
  dm_unary_error := "Unary status non-OK";
  dm_stream_error := "Stream status non-OK";
  dm_recv_error := "Stream Recv failed" |}.

Definition facade_demo : demo := {|
  dm_setup := [{| su_what := "Listen"; su_deferred := true; su_lines := [] |};
               {| su_what := "Dial"; su_deferred := true; su_lines := [LInfo "connected"] |}];
  dm_server := (facade_registerEcho (NewServer [])).2;
  dm_is_end := λ err, bool_decide (err = EOF);
  dm_chunk := λ _, [];
  dm_complete := λ n, [LChunks n; LInfo "facade demo complete"];
  dm_unary_error := "Unary status";
  dm_stream_error := "Stream status";
  dm_recv_error := "Stream Recv" |}.

Definition hello : bytes := go "hello, peerrpc".
Definition ping : bytes := go "ping".

Inductive phase : Type :=
  | Setup (todo : list setup_call)
  | CallUnary
  | WaitUnary (l : nat) (q : Z) (w : uwait)
  | CallStream
  | Receiving (st : ClientStream) (w : rwait) (n : nat)
  | Exited (code : Z).

Record state : Type := {
  d_conn : conn;
  d_ctx : option error;
  d_phase : phase;
  d_log : list line;
  d_deferred : list string;     (* the calls of [defer], the last one first *)
  d_closed : list string        (* those that have run *)
}.

(** [cancel] is deferred before anything is called. *)
Definition start_demo (dm : demo) : state :=
  {| d_conn := newConn; d_ctx := None; d_phase := Setup (dm_setup dm); d_log := [];
     d_deferred := ["cancel"%string]; d_closed := [] |}.

Definition goes (p : phase) (ls : list line) (d : state) : state :=
  {| d_conn := d_conn d; d_ctx := d_ctx d; d_phase := p; d_log := d_log d ++ ls;
     d_deferred := d_deferred d; d_closed := d_closed d |}.

Definition defers (what : string) (d : state) : state :=
  {| d_conn := d_conn d; d_ctx := d_ctx d; d_phase := d_phase d; d_log := d_log d;
     d_deferred := what :: d_deferred d; d_closed := d_closed d |}.

(** [main] returns, and its deferred calls run; [os.Exit] runs none of them. *)
Definition returns (ls : list line) (d : state) : state :=
  {| d_conn := d_conn d; d_ctx := d_ctx d; d_phase := Exited 0; d_log := d_log d ++ ls;
     d_deferred := []; d_closed := d_closed d ++ d_deferred d |}.

Definition os_Exit (what : string) (d : state) : state := goes (Exited 1) [LError what] d.

Definition with_conn (k : conn) (d : state) : state :=
  {| d_conn := k; d_ctx := d_ctx d; d_phase := d_phase d; d_log := d_log d;
     d_deferred := d_deferred d; d_closed := d_closed d |}.

(** An operation of [main] on the stream at [l], as in [conn_step]. *)
Definition client_does (l : nat) (bs : list bytes) (c' : client) (d : state) : state :=
  let k := d_conn d in
  with_conn {| k_client := c'; k_mux := k_mux k; k_used := k_used k; k_up := k_up k; k_down := k_down k;
               k_sent := note (k_sent k) l bs;
               k_ret := note (k_ret k) l (popped (client_queue (k_client k) l) (client_queue c' l));
               k_got := k_got k; k_gave := k_gave k |} d.

(** The context, when its deadline is [ms] away. *)
Definition demo_ctx (d : state) (ms : Z) : context :=
  {| ctx_Err := d_ctx d; ctx_Deadline := Some ms; ctx_hdr := None |}.

Section main.
Context (dm : demo).

(** The client has no interceptors, so that [InvokeUnary] is [invokeUnary]. *)
Inductive main_step (d : state) : state → Prop :=
  | main_setup su todo :
      d_phase d = Setup (su :: todo) →
      main_step d (goes (Setup todo) (su_lines su) (if su_deferred su then defers (su_what su) d else d))
  | main_setup_failed su todo :
      d_phase d = Setup (su :: todo) → main_step d (os_Exit (su_what su) d)
  | main_connected : d_phase d = Setup [] → main_step d (goes CallUnary [] d)
  | main_unary ms l q c' :
      d_phase d = CallUnary →
      invokeUnary_open (demo_ctx d ms) "/echo.Echo/Unary" hello (k_client (d_conn d)) = (l, q, c') →
      main_step d (goes (WaitUnary l q UWait) [] (client_does l [hello] c' d))
  | main_select l q w w' c' :
      d_phase d = WaitUnary l q w → (UPending w', c') ∈ unary_select (d_ctx d) l w (k_client (d_conn d)) →
      main_step d (goes (WaitUnary l q w') [] (client_does l [] c' d))
  | main_unary_returns l q w data st c' :
      d_phase d = WaitUnary l q w → (UReturn data st, c') ∈ unary_select (d_ctx d) l w (k_client (d_conn d)) →
      main_step d
        (let d := client_does l [] (cleanupStream q c') (client_does l [] c' d) in
         if Code st =? 0 then goes CallStream [LUnary (default [] data)] d else os_Exit (dm_unary_error dm) d)
  | main_stream ms st ok c' :
      d_phase d = CallStream →
      InvokeServerStreaming (demo_ctx d ms) "/echo.Echo/Stream" ping ∅ (k_client (d_conn d)) = (st, ok, c') →
      main_step d
        (let d := client_does (str_cs st) [ping] c' d in
         if Code ok =? 0 then goes (Receiving st RStart 0) [] d else os_Exit (dm_stream_error dm) d)
  | main_recv_select st w w' n c' :
      d_phase d = Receiving st w n → (RPending w', c') ∈ Stream_Recv (d_ctx d) (str_cs st) w (k_client (d_conn d)) →
      main_step d (goes (Receiving st w' n) [] (client_does (str_cs st) [] c' d))
  | main_recv st w n data err c' :
      d_phase d = Receiving st w n → (RReturn data err, c') ∈ Stream_Recv (d_ctx d) (str_cs st) w (k_client (d_conn d)) →
      main_step d
        (let d := client_does (str_cs st) [] c' d in
         match err with
         | Some e => if dm_is_end dm e then returns (dm_complete dm n) d else os_Exit (dm_recv_error dm) d
         | None => goes (Receiving st RStart (S n)) (dm_chunk dm (default [] data)) d
         end).

Context `{!Codec Frame} `{!Codec ResponseFrame}.

(** The other goroutines, once the connection is there. *)
Inductive other_step (d : state) : state → Prop :=
  | other_sdk k' :
      (∀ todo, d_phase d ≠ Setup todo) → sdk_step (dm_server dm) tt (d_conn d) k' → other_step d (with_conn k' d)
  | other_deadline l s :
      (∀ todo, d_phase d ≠ Setup todo) → m_heap (k_mux (d_conn d)) !! l = Some s → 0 < ss_timeout s →
      other_step d (with_conn
        (let k := d_conn d in
         {| k_client := k_client k; k_mux := RpcServer.update l (cancel_ctx DeadlineExceeded) (k_mux k);
            k_used := k_used k; k_up := k_up k; k_down := k_down k; k_sent := k_sent k; k_ret := k_ret k;
            k_got := k_got k; k_gave := k_gave k |}) d)
  | other_watch l c' :
      c' ∈ watchCancel (d_ctx d) l (k_client (d_conn d)) → other_step d (client_does l [] c' d)
  | other_timeout :
      d_ctx d = None →
      other_step d {| d_conn := d_conn d; d_ctx := Some DeadlineExceeded; d_phase := d_phase d; d_log := d_log d;
                      d_deferred := d_deferred d; d_closed := d_closed d |}.

Definition demo_reachable : state → Prop := rtc (λ d d', main_step d d' ∨ other_step d d') (start_demo dm).
End main.

(** ** The client's operations *)

(** The calls of [main], in order. *)
Definition demo_call (i : nat) : string * bytes :=
  match i with O => ("/echo.Echo/Unary"%string, hello) | _ => ("/echo.Echo/Stream"%string, ping) end.

Lemma opened_client method c l q c1 fs :
  CInv c → openStream method c = (l, q, c1) →
  let c' := foldl (λ c f, sendFrame f c) c1 fs in
  l = cl_next c ∧ q = seq_at l ∧ cl_next c' = S l ∧ calls c' = <[l := (q, method)]> (calls c).
Proof.
  intros Hc Ho. destruct (openStream_value _ _ _ _ _ Ho Hc) as (El & Eq & _ & En & _ & _ & _ & _ & Eh). cbn zeta.
  rewrite foldl_sendFrame. split_and!; [done..|]. unfold calls. cbn [cl_heap]. by rewrite Eh, fmap_insert.
Qed.

Lemma inbound_ok c l cs r q : CInv c → cl_heap c !! l = Some cs → cs_inbound cs = r :: q → ir_err r = None.
Proof.
  intros Hc Hl Hin. destruct (ci_heap _ Hc _ _ Hl) as [_ [_ _ He]]. rewrite Hin in He. by apply Forall_cons in He as [? _].
Qed.

(** A message leaves the queue of its stream. *)
Lemma queue_pop c l cs r q :
  cl_heap c !! l = Some cs → cs_inbound cs = r :: q →
  popped (client_queue c l) (client_queue (RpcClient.update l (RpcClient.with_inbound q) c) l) = [ir_data r].
Proof.
  intros Hl Hin. unfold client_queue. cbn [RpcClient.update cl_heap].
  rewrite lookup_alter, decide_True, Hl by done. cbn [fmap option_fmap option_map RpcClient.with_inbound cs_inbound].
  rewrite Hin. apply popped_one.
Qed.

Lemma unary_select_cases ctx l w o c c' :
  CInv c → (o, c') ∈ unary_select ctx l w c →
  (∃ d, w = UWait ∧ o = UPending (UGot d) ∧ popped (client_queue c l) (client_queue c' l) = [d] ∧
     calls c' = calls c ∧ cl_next c' = cl_next c) ∨
  (∃ data st, o = UReturn data st ∧ (data = None ∨ ∃ d, w = UGot d ∧ data = Some d) ∧ c' = c).
Proof.
  intros Hc. unfold unary_select. destruct (cl_heap c !! l) as [cs|] eqn:Hl; [|by intros ?%elem_of_nil].
  intros [H|[H|H]%elem_of_app]%elem_of_app.
  - destruct w; [|by apply elem_of_nil in H]. destruct (cs_inbound cs) as [|r q] eqn:Hin; [by apply elem_of_nil in H|].
    apply list_elem_of_singleton in H as [= -> ->]. rewrite (inbound_ok c l cs r q) by done. left. exists (ir_data r).
    split_and!; [done|done|by eapply queue_pop|by apply calls_update|done].
  - destruct (cs_end cs); [|by apply elem_of_nil in H]. apply list_elem_of_singleton in H as [= -> ->]. right.
    eexists _, _. split; [done|]. split; [|done]. destruct w; [by left|right; by eexists].
  - destruct ctx; [|by apply elem_of_nil in H]. apply list_elem_of_singleton in H as [= -> ->]. right.
    eexists _, _. split; [done|]. split; [by left|done].
Qed.

Lemma recv_cases ctx l w o c c' :
  CInv c → (o, c') ∈ Stream_Recv ctx l w c →
  (w = RStart ∧ o = RPending RSelect ∧ c' = c) ∨
  (∃ d, o = RReturn (Some d) None ∧ popped (client_queue c l) (client_queue c' l) = [d] ∧
     calls c' = calls c ∧ cl_next c' = cl_next c) ∨
  (∃ e, o = RReturn None (Some e) ∧ c' = c).
Proof.
  intros Hc. unfold Stream_Recv. destruct (cl_heap c !! l) as [cs|] eqn:Hl; [|by intros ?%elem_of_nil].
  assert ((o, c') ∈ match cs_inbound cs with
    | r :: q => [(RReturn (Some (ir_data r)) (ir_err r), RpcClient.update l (RpcClient.with_inbound q) c)] | [] => [] end →
    ∃ d, o = RReturn (Some d) None ∧ popped (client_queue c l) (client_queue c' l) = [d] ∧
      calls c' = calls c ∧ cl_next c' = cl_next c) as Hpop.
  { destruct (cs_inbound cs) as [|r q] eqn:Hin; [by intros ?%elem_of_nil|]. intros [= -> ->]%list_elem_of_singleton.
    rewrite (inbound_ok c l cs r q) by done. exists (ir_data r).
    split_and!; [done|by eapply queue_pop|by apply calls_update|done]. }
  destruct w.
  - intros H. destruct (cs_inbound cs) as [|r q] eqn:Hin; [|right; left; by apply Hpop].
    apply list_elem_of_singleton in H as [= -> ->]. by left.
  - intros [H|[H|H]%elem_of_app]%elem_of_app; [right; left; by apply Hpop|right; right..].
    + destruct (cs_end cs) as [r|]; [|by apply elem_of_nil in H]. apply list_elem_of_singleton in H as [= -> ->].
      destruct (er_err r) as [e|]; [case_match; by eexists|]. rewrite bool_decide_false by naive_solver. by eexists.
    + destruct ctx; [|by apply elem_of_nil in H]. apply list_elem_of_singleton in H as [= -> ->]. by eexists.
Qed.

(** ** The connection, as [main] knows it *)

(** [main] has made [n] calls, and has received these messages on their streams. *)
Record demo_at (dm : demo) `{!Codec Frame} `{!Codec ResponseFrame} (k : conn) (n : nat) (got0 got1 : list bytes) : Prop := {
  da_reachable : conn_reachable (dm_server dm) tt k;
  da_next : cl_next (k_client k) = n;
  da_calls i : (i < n)%nat → calls (k_client k) !! i = Some (seq_at i, (demo_call i).1) ∧ k_sent k i = [(demo_call i).2];
  da_ret0 : k_ret k 0%nat = got0;
  da_ret1 : k_ret k 1%nat = got1
}.

Section connection.
Context (dm : demo) `{!Codec Frame, !CodecLaws Frame} `{!Codec ResponseFrame, !CodecLaws ResponseFrame}.

Lemma demo_KInv k n g0 g1 : demo_at dm k n g0 g1 → KInv k.
Proof. intros H. by eapply conn_reachable_inv, (da_reachable _ _ _ _ _ H). Qed.

Lemma demo_CInv k n g0 g1 : demo_at dm k n g0 g1 → CInv (k_client k).
Proof. intros H. eapply ki_client, demo_KInv, H. Qed.

(** A step that [main] does not notice. *)
Lemma demo_at_same k k' n g0 g1 :
  demo_at dm k n g0 g1 → conn_reachable (dm_server dm) tt k' →
  calls (k_client k') = calls (k_client k) → cl_next (k_client k') = cl_next (k_client k) →
  (∀ l, k_sent k' l = k_sent k l) → (∀ l, k_ret k' l = k_ret k l) → demo_at dm k' n g0 g1.
Proof. intros [H1 H2 H3 H4 H5] Hk Ec En Es Er. split; rewrite ?Ec, ?En, ?Er; try done. intros i Hi. rewrite Es. by apply H3. Qed.

Lemma client_does_reachable d l bs c' :
  conn_reachable (dm_server dm) tt (d_conn d) → client_op (k_client (d_conn d)) l bs c' →
  (cl_next c' ≤ max_streams)%nat → Forall small bs → conn_reachable (dm_server dm) tt (d_conn (client_does l bs c' d)).
Proof. intros Hk Hop Hmax Hbs. eapply rtc_r; [exact Hk|]. by apply k_app. Qed.

Lemma demo_room n : (n ≤ 2)%nat → (n ≤ max_streams)%nat.
Proof. unfold max_streams. lia. Qed.

(** A call. *)
Lemma demo_opens d n g0 g1 c' :
  demo_at dm (d_conn d) n g0 g1 → (n < 2)%nat → g1 = [] → (n = 0%nat → g0 = []) →
  client_op (k_client (d_conn d)) n [(demo_call n).2] c' → cl_next c' = S n →
  calls c' = <[n := (seq_at n, (demo_call n).1)]> (calls (k_client (d_conn d))) →
  demo_at dm (d_conn (client_does n [(demo_call n).2] c' d)) (S n) g0 g1.
Proof.
  intros Hk Hn -> Hg0 Hop En Ec. pose proof (demo_KInv _ _ _ _ Hk) as HK. destruct Hk as [H1 H2 H3 H4 H5].
  assert (client_queue (k_client (d_conn d)) n = []) as Eq.
  { unfold client_queue. destruct (cl_heap (k_client (d_conn d)) !! n) as [cs|] eqn:Hcs; [|done].
    apply (ci_heap _ (ki_client _ HK)) in Hcs as [? _]. lia. }
  assert (∀ l, k_ret (d_conn (client_does n [(demo_call n).2] c' d)) l = k_ret (d_conn d) l) as Er.
  { intros l. cbn. rewrite Eq. apply note_nil. }
  split; rewrite ?Er; try done.
  - apply client_does_reachable; [done|done|rewrite En; apply demo_room; lia|]. apply Forall_singleton. by destruct n.
  - intros i Hi. cbn [d_conn client_does with_conn k_client k_sent]. rewrite Ec. destruct (decide (i = n)) as [->|Hne].
    + rewrite lookup_insert_eq, note_same. split; [done|]. by rewrite (se_fresh _ _ (ki_sends _ HK)) by lia.
    + rewrite lookup_insert_ne, note_other by done. apply H3. lia.
Qed.

(** A message for [main], or none. *)
Lemma demo_receives d n g0 g1 l ds c' :
  demo_at dm (d_conn d) n g0 g1 → (n ≤ 2)%nat → (l < 2)%nat → client_op (k_client (d_conn d)) l [] c' →
  popped (client_queue (k_client (d_conn d)) l) (client_queue c' l) = ds →
  calls c' = calls (k_client (d_conn d)) → cl_next c' = cl_next (k_client (d_conn d)) →
  demo_at dm (d_conn (client_does l [] c' d)) n
    (g0 ++ if decide (l = 0%nat) then ds else []) (g1 ++ if decide (l = 1%nat) then ds else []).
Proof.
  intros [H1 H2 H3 H4 H5] Hn Hl Hop Ep Ec En.
  split; cbn [d_conn client_does with_conn k_client k_sent k_ret]; rewrite ?Ec, ?En, ?Ep; try done.
  - rewrite <- Ep. apply (client_does_reachable d); [done|done|rewrite En, H2; by apply demo_room|done].
  - intros i Hi. rewrite note_nil. by apply H3.
  - rewrite <- H4. destruct l as [|[|l]]; [by rewrite note_same|rewrite note_other by done; cbn; by rewrite app_nil_r|lia].
  - rewrite <- H5. destruct l as [|[|l]]; [rewrite note_other by done; cbn; by rewrite app_nil_r|by rewrite note_same|lia].
Qed.

Lemma demo_same_client d n g0 g1 l :
  demo_at dm (d_conn d) n g0 g1 → (n ≤ 2)%nat → (l < 2)%nat → client_op (k_client (d_conn d)) l [] (k_client (d_conn d)) →
  demo_at dm (d_conn (client_does l [] (k_client (d_conn d)) d)) n g0 g1.
Proof.
  intros Hk Hn Hl Hop. pose proof (demo_receives d n g0 g1 l [] _ Hk Hn Hl Hop (popped_all _) eq_refl eq_refl) as H.
  destruct l as [|[|l]]; cbn in H; rewrite !app_nil_r in H; [exact H|exact H|lia].
Qed.

(** The other goroutines. *)
Lemma other_same d d' :
  conn_reachable (dm_server dm) tt (d_conn d) → other_step dm d d' →
  conn_reachable (dm_server dm) tt (d_conn d') ∧
  calls (k_client (d_conn d')) = calls (k_client (d_conn d)) ∧ cl_next (k_client (d_conn d')) = cl_next (k_client (d_conn d)) ∧
  (∀ l, k_sent (d_conn d') l = k_sent (d_conn d) l) ∧ (∀ l, k_ret (d_conn d') l = k_ret (d_conn d) l) ∧
  d_phase d' = d_phase d ∧ d_log d' = d_log d ∧ d_deferred d' = d_deferred d ∧ d_closed d' = d_closed d.
Proof.
  intros Hk. pose proof (conn_reachable_inv _ _ _ Hk) as HK.
  destruct 1 as [k' _ Hs|l s _ Hs Ht|l c' Hw|_].
  - split; [eapply rtc_r; [exact Hk|by apply sdk_conn]|].
    destruct Hs as [f raw m' _ _ _ _|l m' _ _|f raw c' Hf Hs Hw Hh]; [done|done|].
    destruct (on_wire_sendable f Hs) as (raw' & Hw' & Hu). rewrite Hw in Hw'. injection Hw' as <-.
    assert ((Ok tt, c') ∈ dispatch f (k_client (d_conn d))) as Hd by by eapply attach_dispatch.
    pose proof (calls_dispatch _ _ _ _ Hd) as Ec. by destruct (dispatch_next _ _ _ _ Hd) as [En _].
  - split; [eapply rtc_r; [exact Hk|by eapply k_deadline]|done].
  - assert (calls c' = calls (k_client (d_conn d)) ∧ cl_next c' = cl_next (k_client (d_conn d)) ∧
      client_queue c' l = client_queue (k_client (d_conn d)) l) as (Ec & En & Eq).
    { unfold watchCancel in Hw. destruct (cl_heap _ !! l) as [cs|]; [|by apply elem_of_nil in Hw].
      apply elem_of_app in Hw as [Hw|Hw]; [destruct (d_ctx d)|destruct (cs_end cs)];
        try (by apply elem_of_nil in Hw); by apply list_elem_of_singleton in Hw as ->. }
    split; [apply client_does_reachable; [done|by eapply op_watch|rewrite En; apply HK|done]|].
    cbn. rewrite Eq, popped_all. split_and!; try done; intros l'; apply note_nil.
  - done.
Qed.

(** ** What the server answers *)

(** The server has the two methods; the first answers with the greeting, and the
    second with the messages that it has for its request. *)
Record serves (chunks : bytes → list bytes) : Prop := {
  sv_unary : ∃ md k, findMethod (dm_server dm) (demo_call 0).1 = Some md ∧ (∀ v, handler_prog (dm_server dm) tt md v = RpcServer.Recv k) ∧
    (∀ req, sending (k (inl req)) [go "echo: " ++ req]) ∧ (∀ e, ∃ st, k (inr e) = Return st);
  sv_stream : ∃ md k, findMethod (dm_server dm) (demo_call 1).1 = Some md ∧ (∀ v, handler_prog (dm_server dm) tt md v = recv_request k) ∧
    (∀ req, sending (k req) (chunks req))
}.

Lemma sublist_one {A} (x : A) xs : xs `sublist_of` [x] → xs = [] ∨ xs = [x].
Proof. intros [H|(l & -> & H)]%sublist_cons_r; apply sublist_nil_r in H as ->; auto. Qed.

Lemma unary_received k n g0 g1 chunks :
  serves chunks → demo_at dm k n g0 g1 → (0 < n)%nat → g0 = [] ∨ g0 = [go "echo: " ++ hello].
Proof.
  intros [(md & kk & Hmd & Hp & Hs & He) _] Hk Hn. destruct Hk as [H1 H2 H3 H4 _].
  destruct (H3 0%nat Hn) as [Hc Hsent]. unfold calls in Hc. rewrite lookup_fmap in Hc.
  destruct (cl_heap (k_client k) !! 0%nat) as [cs|] eqn:Hcs; [|done]. injection Hc as _ Em.
  destruct (answered _ _ k 0 cs H1 Hcs) as [Hnil|(md' & v & p & got & gave & Hmd' & _ & Hf & Hsub & Hpre)].
  { left. rewrite <- H4. by apply app_eq_nil in Hnil as [? _]. }
  assert (md' = md) as -> by (rewrite Em in Hmd'; cbn [demo_call fst] in Hmd; congruence). rewrite Hp in Hf.
  apply (first_request_runs (λ o, match o with Some req => [go "echo: " ++ req] | None => [] end)) in Hf; [|done|by left].
  assert (k_ret k 0%nat `prefix_of` match head got with Some req => [go "echo: " ++ req] | None => [] end) as H.
  { etrans; [|exact Hf]. etrans; [|exact Hpre]. by apply prefix_app_r. }
  rewrite H4 in H. rewrite Hsent in Hsub. destruct (sublist_one _ _ Hsub) as [-> | ->]; cbn [head hd_error] in H.
  - left. by apply prefix_nil_inv.
  - apply sublist_one. destruct H as [zs E]. cbn [demo_call snd] in E. rewrite E. by apply sublist_inserts_r.
Qed.

Lemma stream_received k g0 g1 chunks :
  serves chunks → demo_at dm k 2 g0 g1 → ∃ req, (req = [] ∨ req = ping) ∧ g1 `prefix_of` chunks req.
Proof.
  intros [_ (md & kk & Hmd & Hp & Hs)] Hk. destruct Hk as [H1 H2 H3 _ H4].
  destruct (H3 1%nat ltac:(lia)) as [Hc Hsent]. unfold calls in Hc. rewrite lookup_fmap in Hc.
  destruct (cl_heap (k_client k) !! 1%nat) as [cs|] eqn:Hcs; [|done]. injection Hc as _ Em.
  destruct (answered _ _ k 1 cs H1 Hcs) as [Hnil|(md' & v & p & got & gave & Hmd' & _ & Hf & Hsub & Hpre)].
  { exists []. split; [by left|]. apply app_eq_nil in Hnil as [E _]. rewrite <- H4, E. apply prefix_nil. }
  assert (md' = md) as -> by (rewrite Em in Hmd'; cbn [demo_call fst] in Hmd; congruence). rewrite Hp in Hf. apply (request_runs chunks) in Hf; [|done].
  exists (default [] (head got)). split.
  - rewrite Hsent in Hsub. destruct (sublist_one _ _ Hsub) as [-> | ->]; [by left|by right].
  - rewrite <- H4. etrans; [|exact Hf]. etrans; [|exact Hpre]. by apply prefix_app_r.
Qed.
End connection.

(** ** The invariant of [main] *)

Definition setup_log (su : list setup_call) : list line := concat (map su_lines su).

Definition setup_deferred (su : list setup_call) : list string :=
  foldl (λ ds s, if su_deferred s then su_what s :: ds else ds) ["cancel"%string] su.

(** What [Unary] can have returned with OK: the end may overtake the response. *)
Definition unary_response (b : bytes) : Prop := b = [] ∨ b = go "echo: " ++ hello.

Definition printed (dm : demo) (resp : bytes) (cs : list bytes) : list line :=
  setup_log (dm_setup dm) ++ [LUnary resp] ++ concat (map (dm_chunk dm) cs).

Definition unary_got (w : uwait) : list bytes := match w with UWait => [] | UGot b => [b] end.

Section main_ok.
Context (dm : demo) (chunks : bytes → list bytes).
Context `{!Codec Frame, !CodecLaws Frame} `{!Codec ResponseFrame, !CodecLaws ResponseFrame}.

(** Everything is open. *)
Definition running (d : state) : Prop := d_deferred d = setup_deferred (dm_setup dm) ∧ d_closed d = [].

Definition main_ok (d : state) : Prop :=
  match d_phase d with
  | Setup todo => ∃ made, dm_setup dm = made ++ todo ∧ demo_at dm (d_conn d) 0 [] [] ∧ d_log d = setup_log made ∧
      d_deferred d = setup_deferred made ∧ d_closed d = []
  | CallUnary => demo_at dm (d_conn d) 0 [] [] ∧ d_log d = setup_log (dm_setup dm) ∧ running d
  | WaitUnary l q w => l = 0%nat ∧ demo_at dm (d_conn d) 1 (unary_got w) [] ∧ d_log d = setup_log (dm_setup dm) ∧ running d
  | CallStream => ∃ got resp, demo_at dm (d_conn d) 1 got [] ∧ unary_response resp ∧ d_log d = printed dm resp [] ∧ running d
  | Receiving st w n => str_cs st = 1%nat ∧ ∃ got resp cs, demo_at dm (d_conn d) 2 got cs ∧ n = length cs ∧
      unary_response resp ∧ d_log d = printed dm resp cs ∧ running d
  | Exited 0 => ∃ resp req cs, unary_response resp ∧ (req = [] ∨ req = ping) ∧ cs `prefix_of` chunks req ∧
      d_log d = printed dm resp cs ++ dm_complete dm (length cs) ∧
      d_closed d = setup_deferred (dm_setup dm) ∧ d_deferred d = []
  | Exited code => code = 1 ∧ d_closed d = [] ∧ ∃ ls what, d_log d = ls ++ [LError what]
  end.

Context (Hserves : serves dm chunks).

Lemma printed_snoc resp cs b : printed dm resp (cs ++ [b]) = printed dm resp cs ++ dm_chunk dm b.
Proof. unfold printed. rewrite map_app, concat_app. cbn. by rewrite app_nil_r, <- !app_assoc. Qed.

Lemma main_ok_setup su todo d :
  main_ok d → d_phase d = Setup (su :: todo) →
  main_ok (goes (Setup todo) (su_lines su) (if su_deferred su then defers (su_what su) d else d)).
Proof.
  intros Hd Hp. unfold main_ok in Hd |- *. rewrite Hp in Hd. destruct Hd as (made & E & Hk & Hl & Hdef & Hcl). cbn [goes d_phase].
  exists (made ++ [su]). rewrite <- app_assoc. split; [done|].
  unfold setup_log, setup_deferred. rewrite map_app, concat_app, foldl_app. cbn. rewrite app_nil_r. fold (setup_log made) (setup_deferred made).
  rewrite <- Hl, <- Hdef. by destruct (su_deferred su).
Qed.

Lemma main_ok_unary d ms l q c' :
  main_ok d → d_phase d = CallUnary →
  invokeUnary_open (demo_ctx d ms) "/echo.Echo/Unary" hello (k_client (d_conn d)) = (l, q, c') →
  main_ok (goes (WaitUnary l q UWait) [] (client_does l [hello] c' d)).
Proof.
  intros Hd Hp Ho. unfold main_ok in Hd. rewrite Hp in Hd. destruct Hd as (Hk & Hl & Hr).
  pose proof (demo_CInv dm _ _ _ _ Hk) as HC. pose proof (op_unary _ _ _ _ _ _ _ Ho) as Hop.
  unfold invokeUnary_open in Ho. destruct (openStream _ _) as [[l0 q0] c1] eqn:Hopen. injection Ho as -> -> <-.
  rewrite send_request_frames in *.
  match type of Hop with client_op _ _ _ (foldl _ _ ?fs) =>
    destruct (opened_client _ _ _ _ _ fs HC Hopen) as (El & _ & En & Ec) end.
  rewrite (da_next _ _ _ _ _ Hk) in El. subst l. pose proof (openStream_value _ _ _ _ _ Hopen HC) as (_ & Eq & _). subst q.
  unfold main_ok. cbn [goes d_phase]. split; [done|]. split; [|by cbn; rewrite app_nil_r].
  apply (demo_opens dm d 0 [] [] _ Hk); [lia|done|done|exact Hop|exact En|exact Ec].
Qed.

Lemma main_ok_stream d ms st ok c' :
  main_ok d → d_phase d = CallStream →
  InvokeServerStreaming (demo_ctx d ms) "/echo.Echo/Stream" ping ∅ (k_client (d_conn d)) = (st, ok, c') →
  ok = OK ∧ main_ok (goes (Receiving st RStart 0) [] (client_does (str_cs st) [ping] c' d)).
Proof.
  intros Hd Hp Ho. unfold main_ok in Hd. rewrite Hp in Hd. destruct Hd as (got & resp & Hk & Hresp & Hl & Hr).
  pose proof (demo_CInv dm _ _ _ _ Hk) as HC. pose proof (op_server_streaming _ _ _ _ _ _ _ _ Ho) as Hop.
  unfold InvokeServerStreaming in Ho. destruct (openStream _ _) as [[l0 q0] c1] eqn:Hopen. injection Ho as <- <- <-. split; [done|]. cbn [str_cs] in *.
  rewrite send_request_frames in *.
  match type of Hop with client_op _ _ _ (foldl _ _ ?fs) =>
    destruct (opened_client _ _ _ _ _ fs HC Hopen) as (El & _ & En & Ec) end.
  rewrite (da_next _ _ _ _ _ Hk) in El. subst l0. pose proof (openStream_value _ _ _ _ _ Hopen HC) as (_ & Eq & _). subst q0.
  unfold main_ok. cbn [goes d_phase str_cs]. split; [done|]. exists got, resp, []. split; [|by cbn; rewrite app_nil_r].
  apply (demo_opens dm d 1 got [] _ Hk); [lia|done|done|exact Hop|exact En|exact Ec].
Qed.

Lemma main_ok_select d l q w w' c' :
  main_ok d → d_phase d = WaitUnary l q w → (UPending w', c') ∈ unary_select (d_ctx d) l w (k_client (d_conn d)) →
  main_ok (goes (WaitUnary l q w') [] (client_does l [] c' d)).
Proof.
  intros Hd Hp Hin. unfold main_ok in Hd. rewrite Hp in Hd. destruct Hd as (-> & Hk & Hl & Hr).
  destruct (unary_select_cases _ _ _ _ _ _ (demo_CInv dm _ _ _ _ Hk) Hin) as [(b & -> & [= ->] & Eq & Ec & En)|(? & ? & [=] & _)].
  unfold main_ok. cbn [goes d_phase]. split; [done|]. split; [|by cbn; rewrite app_nil_r].
  exact (demo_receives dm d 1 [] [] 0 [b] c' Hk ltac:(lia) ltac:(lia) (op_select _ _ _ _ _ _ Hin) Eq Ec En).
Qed.

Lemma main_ok_returns d l q w data st c' :
  main_ok d → d_phase d = WaitUnary l q w → (UReturn data st, c') ∈ unary_select (d_ctx d) l w (k_client (d_conn d)) →
  main_ok (let d := client_does l [] (cleanupStream q c') (client_does l [] c' d) in
           if Code st =? 0 then goes CallStream [LUnary (default [] data)] d else os_Exit (dm_unary_error dm) d).
Proof.
  intros Hd Hp Hin. unfold main_ok in Hd. rewrite Hp in Hd. destruct Hd as (-> & Hk & Hl & Hdef & Hcl).
  destruct (unary_select_cases _ _ _ _ _ _ (demo_CInv dm _ _ _ _ Hk) Hin) as [(b & _ & [=] & _)|(? & ? & [= <- <-] & Hdata & ->)].
  cbn zeta. destruct (Code st =? 0).
  - unfold main_ok. cbn [goes d_phase]. exists (unary_got w), (default [] data). split_and!.
    + pose proof (demo_same_client dm d 1 _ _ 0 Hk ltac:(lia) ltac:(lia) (op_select _ _ _ _ _ _ Hin)) as Hk1.
      pose proof (demo_receives dm _ 1 _ _ 0 [] (cleanupStream q (k_client (d_conn d))) Hk1 ltac:(lia) ltac:(lia)
        (op_cleanup _ _ _) (popped_all _) eq_refl eq_refl) as Hk2.
      cbn in Hk2. by rewrite app_nil_r in Hk2.
    + destruct Hdata as [->|(b & -> & ->)]; [by left|]. cbn [default unary_got] in *.
      destruct (unary_received dm _ _ _ _ _ Hserves Hk ltac:(lia)) as [?|[= ->]]; [done|by right].
    + unfold printed. cbn. by rewrite Hl.
    + by split.
  - unfold main_ok. cbn [goes os_Exit d_phase]. split; [done|]. split; [done|]. by eexists _, _.
Qed.

Lemma main_ok_recv d st w n o c' :
  main_ok d → d_phase d = Receiving st w n → (o, c') ∈ Stream_Recv (d_ctx d) (str_cs st) w (k_client (d_conn d)) →
  main_ok (let d := client_does (str_cs st) [] c' d in
           match o with
           | RPending w' => goes (Receiving st w' n) [] d
           | RReturn _ (Some e) => if dm_is_end dm e then returns (dm_complete dm n) d else os_Exit (dm_recv_error dm) d
           | RReturn data None => goes (Receiving st RStart (S n)) (dm_chunk dm (default [] data)) d
           end).
Proof.
  intros Hd Hp Hin. unfold main_ok in Hd. rewrite Hp in Hd. destruct Hd as (El & got & resp & cs & Hk & En & Hresp & Hl & Hdef & Hcl).
  pose proof (op_recv _ _ _ _ _ _ Hin) as Hop. rewrite El in *. cbn zeta.
  destruct (recv_cases _ _ _ _ _ _ (demo_CInv dm _ _ _ _ Hk) Hin) as [(_ & -> & ->)|[(b & -> & Eq & Ec & Enx)|(e & -> & ->)]].
  - unfold main_ok. cbn [goes d_phase]. split; [done|]. exists got, resp, cs. split_and!; try done; [|cbn; by rewrite app_nil_r].
    apply (demo_same_client dm d 2); [exact Hk|lia|lia|exact Hop].
  - unfold main_ok. cbn [goes d_phase]. split; [done|]. exists got, resp, (cs ++ [b]). split_and!; try done.
    + pose proof (demo_receives dm d 2 got cs 1 [b] c' Hk ltac:(lia) ltac:(lia) Hop Eq Ec Enx) as Hk'.
      cbn in Hk'. by rewrite app_nil_r in Hk'.
    + rewrite length_app. cbn. lia.
    + rewrite printed_snoc. cbn. by rewrite Hl.
  - destruct (dm_is_end dm e).
    + unfold main_ok. cbn [returns d_phase]. destruct (stream_received dm _ _ _ _ Hserves Hk) as (req & Hreq & Hpre).
      exists resp, req, cs. split_and!; try done; [cbn; by rewrite Hl, En|]. cbn. by rewrite Hcl, Hdef.
    + unfold main_ok. cbn [goes os_Exit d_phase]. split; [done|]. split; [done|]. by eexists _, _.
Qed.

Lemma main_step_ok d d' : main_ok d → main_step dm d d' → main_ok d'.
Proof.
  intros Hd Hs. pose proof Hd as Hd0. destruct Hs as [su todo Hp|su todo Hp|Hp|ms l q c' Hp Ho|l q w w' c' Hp Hin|l q w data st c' Hp Hin
    |ms st ok c' Hp Ho|st w w' n c' Hp Hin|st w n data err c' Hp Hin].
  - by eapply main_ok_setup.
  - unfold main_ok in Hd |- *. rewrite Hp in Hd. destruct Hd as (made & _ & _ & _ & _ & Hcl). cbn [os_Exit goes d_phase].
    split; [done|]. split; [done|]. by eexists _, _.
  - unfold main_ok in Hd |- *. rewrite Hp in Hd. destruct Hd as (made & E & Hk & Hl & Hdef & Hcl). rewrite app_nil_r in E.
    cbn [goes d_phase]. split; [done|]. unfold running. cbn. rewrite app_nil_r, E. done.
  - by eapply main_ok_unary.
  - by eapply main_ok_select.
  - by eapply main_ok_returns.
  - destruct (main_ok_stream _ _ _ _ _ Hd Hp Ho) as [-> ?]. done.
  - exact (main_ok_recv d st w n _ c' Hd Hp Hin).
  - pose proof (main_ok_recv d st w n _ c' Hd Hp Hin) as H. by destruct err.
Qed.

Lemma other_step_ok d d' : main_ok d → other_step dm d d' → main_ok d'.
Proof.
  intros Hd Hs. assert (∀ n g0 g1, demo_at dm (d_conn d) n g0 g1 → demo_at dm (d_conn d') n g0 g1) as Hk.
  { intros n g0 g1 Hk. destruct (other_same dm d d' (da_reachable _ _ _ _ _ Hk) Hs) as (H1 & H2 & H3 & H4 & H5 & _).
    by apply (demo_at_same dm (d_conn d)). }
  assert (d_phase d' = d_phase d ∧ d_log d' = d_log d ∧ d_deferred d' = d_deferred d ∧ d_closed d' = d_closed d)
    as (Ep & El & Edef & Ecl) by by destruct Hs.
  unfold main_ok, running in *. rewrite Ep, El, Edef, Ecl. destruct (d_phase d) as [todo| |l q w| |st w n|[]]; try done.
  - destruct Hd as (made & ? & ? & ?). exists made. eauto.
  - naive_solver.
  - naive_solver.
  - destruct Hd as (got & resp & ? & ?). exists got, resp. eauto.
  - destruct Hd as (? & got & resp & cs & ? & ?). split; [done|]. exists got, resp, cs. eauto.
Qed.

Lemma main_ok_start : main_ok (start_demo dm).
Proof.
  exists []. split; [done|]. split; [|done]. split; try done; [apply rtc_refl|]. intros i Hi. lia.
Qed.

Lemma demo_reachable_ok d : demo_reachable dm d → main_ok d.
Proof.
  revert d. apply (rtc_ind_r main_ok); [apply main_ok_start|]. intros d d' _ [H|H] Hd; [by eapply main_step_ok|by eapply other_step_ok].
Qed.
End main_ok.

(** ** The end of [main] *)

(** A bound on the steps that [main] has still to take. *)
Definition demo_work (d : state) : nat :=
  match d_phase d with
  | Setup todo => 20 + length todo
  | CallUnary => 19
  | WaitUnary _ _ UWait => 18
  | WaitUnary _ _ (UGot _) => 17
  | CallStream => 16
  | Receiving _ w n => 2 * (7 - n) + match w with RStart => 1 | RSelect => 0 end
  | Exited _ => 0
  end.

Section ends.
Context (dm : demo) (chunks : bytes → list bytes).
Context `{!Codec Frame, !CodecLaws Frame} `{!Codec ResponseFrame, !CodecLaws ResponseFrame}.
Context (Hserves : serves dm chunks) (Hfive : ∀ req, length (chunks req) = 5%nat).

Lemma demo_main_work d d' : main_ok dm chunks d → main_step dm d d' → (demo_work d' < demo_work d)%nat.
Proof using Hserves Hfive CodecLaws0 CodecLaws1.
  intros Hd Hs. unfold demo_work, main_ok in *.
  destruct Hs as [su todo Hp|su todo Hp|Hp|ms l q c' Hp Ho|l q w w' c' Hp Hin|l q w data st c' Hp Hin
    |ms st ok c' Hp Ho|st w w' n c' Hp Hin|st w n data err c' Hp Hin]; rewrite Hp in *; cbn [goes os_Exit d_phase length]; try lia.
  - destruct Hd as (-> & Hk & _).
    destruct (unary_select_cases _ _ _ _ _ _ (demo_CInv dm _ _ _ _ Hk) Hin) as [(b & -> & [= ->] & _)|(? & ? & [=] & _)]. lia.
  - destruct (Code st =? 0); cbn; destruct w; lia.
  - destruct (Code ok =? 0); cbn; lia.
  - destruct Hd as (El & got & resp & cs & Hk & En & _).
    destruct (recv_cases _ _ _ _ _ _ (demo_CInv dm _ _ _ _ Hk) Hin) as [(-> & [= ->] & _)|[(? & [=] & _)|(? & [=] & _)]]. lia.
  - destruct Hd as (El & got & resp & cs & Hk & En & _). destruct (stream_received dm _ _ _ _ Hserves Hk) as (req & _ & Hpre).
    apply prefix_length in Hpre. rewrite Hfive in Hpre. destruct err as [e|]; [destruct (dm_is_end dm e)|]; cbn; destruct w; lia.
Qed.

(** Once the context has ended, nothing can hold [main] up. *)
Lemma main_step_ready d :
  main_ok dm chunks d → d_ctx d ≠ None → (∃ d', main_step dm d d') ∨ ∃ code, d_phase d = Exited code.
Proof.
  intros Hd Hctx. destruct (d_ctx d) as [e|] eqn:Ectx; [|done]. unfold main_ok in Hd.
  assert (∀ n g0 g1 l, demo_at dm (d_conn d) n g0 g1 → (l < n)%nat → is_Some (cl_heap (k_client (d_conn d)) !! l)) as Hheap.
  { intros n g0 g1 l Hk Hl. destruct (da_calls _ _ _ _ _ Hk l Hl) as [Hc _]. unfold calls in Hc. rewrite lookup_fmap in Hc.
    destruct (cl_heap _ !! l); [by eexists|done]. }
  destruct (d_phase d) as [[|su todo]| |l q w| |st w n|code] eqn:Hp; [..|right; by eexists]; left.
  - eexists. by apply main_connected.
  - eexists. by eapply main_setup.
  - destruct (invokeUnary_open (demo_ctx d 0) "/echo.Echo/Unary" hello (k_client (d_conn d))) as [[l q] c'] eqn:Ho.
    eexists. by eapply main_unary.
  - destruct Hd as (-> & Hk & _). destruct (Hheap _ _ _ 0%nat Hk ltac:(lia)) as [cs Hcs]. eexists.
    eapply (main_unary_returns dm d 0 q w None (Err 4 (Some e)) (k_client (d_conn d))); [done|].
    unfold unary_select. rewrite Hcs, Ectx. apply elem_of_app. right. apply elem_of_app. right. by apply list_elem_of_singleton.
  - destruct (InvokeServerStreaming (demo_ctx d 0) "/echo.Echo/Stream" ping ∅ (k_client (d_conn d))) as [[st ok] c'] eqn:Ho.
    eexists. by eapply main_stream.
  - destruct Hd as (El & got & resp & cs & Hk & _). destruct (Hheap _ _ _ 1%nat Hk ltac:(lia)) as [s Hs]. rewrite <- El in Hs.
    destruct w.
    + destruct (cs_inbound s) as [|r q] eqn:Hin; eexists.
      * eapply (main_recv_select dm d st RStart RSelect n (k_client (d_conn d))); [done|].
        unfold Stream_Recv. rewrite Hs, Hin. by apply list_elem_of_singleton.
      * eapply (main_recv dm d st RStart n); [done|]. unfold Stream_Recv. rewrite Hs, Hin. by apply list_elem_of_singleton.
    + eexists. eapply (main_recv dm d st RSelect n None (Some e)); [done|]. unfold Stream_Recv. rewrite Hs, Ectx.
      apply elem_of_app. right. apply elem_of_app. right. by apply list_elem_of_singleton.
Qed.
End ends.

(** ** The two demos *)

Lemma echo_demo_serves unicode_quote : serves (echo_demo unicode_quote) (stream_chunks unicode_quote).
Proof.
  split.
  - eexists _, _. split; [reflexivity|]. split; [reflexivity|]. split; [|by eexists].
    intros req. apply sd_header, sd_trailer, sending_sends, sd_return.
  - eexists _, _. split; [reflexivity|]. split; [reflexivity|]. intros req. by repeat apply sending_sends; apply sd_return.
Qed.

Lemma facade_demo_serves : serves facade_demo (λ _, replicate 5 (go "chunk")).
Proof.
  split.
  - eexists _, _. split; [reflexivity|]. split; [reflexivity|]. split; [|by eexists]. intros req. apply sending_sends, sd_return.
  - eexists _, _. split; [reflexivity|]. split; [reflexivity|]. intros req. by repeat apply sending_sends; apply sd_return.
Qed.

(** ** Properties *)

Section properties.
Context `{!Codec Frame, !CodecLaws Frame} `{!Codec ResponseFrame, !CodecLaws ResponseFrame}.

(** [C14] What the demos do, however their goroutines interleave.  When one exits with
    0, it has printed what its setup prints, the greeting of the server, or nothing
    when the end of the call has overtaken it, then the first of the five messages
    of the stream (for its request, or for none when the half-close has overtaken
    that), their number and the end; and all that it has deferred has been closed,
    the last first.  Otherwise it exits with 1 after an error and closes nothing.
    [main] takes at most thirty steps, whatever happens between them, and once its
    context has ended there is nothing that it waits for. *)
Theorem demo_runs unicode_quote dm chunks d
    (Hdm : (dm, chunks) = (echo_demo unicode_quote, stream_chunks unicode_quote) ∨
           (dm, chunks) = (facade_demo, λ _, replicate 5 (go "chunk")))
    (Hd : demo_reachable dm d) :
  (d_phase d = Exited 0 → ∃ resp req cs,
     (resp = [] ∨ resp = go "echo: " ++ hello) ∧ (req = [] ∨ req = ping) ∧ cs `prefix_of` chunks req ∧
     d_log d = setup_log (dm_setup dm) ++ [LUnary resp] ++ concat (map (dm_chunk dm) cs) ++ dm_complete dm (length cs) ∧
     d_closed d = setup_deferred (dm_setup dm) ∧ d_deferred d = []) ∧
  (∀ code, d_phase d = Exited code → code ≠ 0 → code = 1 ∧ d_closed d = [] ∧ ∃ ls what, d_log d = ls ++ [LError what]) ∧
  (demo_work (start_demo dm) ≤ 30)%nat ∧
  (∀ d', main_step dm d d' → (demo_work d' < demo_work d)%nat) ∧
  (∀ d', other_step dm d d' → demo_work d' = demo_work d) ∧
  (d_ctx d ≠ None → (∃ d', main_step dm d d') ∨ ∃ code, d_phase d = Exited code).
Proof.
  assert (serves dm chunks ∧ (∀ req, length (chunks req) = 5%nat) ∧ (demo_work (start_demo dm) ≤ 30)%nat) as (Hserves & Hfive & Hw).
  { destruct Hdm as [[= -> ->]|[= -> ->]]; (split; [by apply echo_demo_serves || apply facade_demo_serves|split; [done|cbn; lia]]). }
  pose proof (demo_reachable_ok dm chunks Hserves d Hd) as Hok. split; [|split; [|split; [done|split; [|split]]]].
  - intros Hp. unfold main_ok in Hok. rewrite Hp in Hok. destruct Hok as (resp & req & cs & H1 & H2 & H3 & H4 & H5 & H6).
    exists resp, req, cs. split_and!; try done. rewrite H4. unfold printed. by rewrite <- !app_assoc.
  - intros code Hp Hne. unfold main_ok in Hok. rewrite Hp in Hok. by destruct code.
  - intros d'. by apply (demo_main_work dm chunks Hserves Hfive).
  - intros d' Hs. unfold demo_work. by destruct Hs.
  - by apply (main_step_ready dm chunks).
Qed.
End properties.

(** ** Two runs of the facade's demo *)

(** [main] takes its alternative [n]. *)
Section run.
Context `{!Codec Frame} `{!Codec ResponseFrame}.

Definition main_next (dm : demo) (n : nat) (d : state) : option state :=
  match d_phase d with
  | Setup (su :: todo) => Some (goes (Setup todo) (su_lines su) (if su_deferred su then defers (su_what su) d else d))
  | Setup [] => Some (goes CallUnary [] d)
  | CallUnary =>
      let '(l, q, c') := invokeUnary_open (demo_ctx d 15000) "/echo.Echo/Unary" hello (k_client (d_conn d)) in
      Some (goes (WaitUnary l q UWait) [] (client_does l [hello] c' d))
  | WaitUnary l q w =>
      match unary_select (d_ctx d) l w (k_client (d_conn d)) !! n with
      | Some (UPending w', c') => Some (goes (WaitUnary l q w') [] (client_does l [] c' d))
      | Some (UReturn data st, c') =>
          Some (let d := client_does l [] (cleanupStream q c') (client_does l [] c' d) in
                if Code st =? 0 then goes CallStream [LUnary (default [] data)] d else os_Exit (dm_unary_error dm) d)
      | None => None
      end
  | CallStream =>
      let '(st, ok, c') := InvokeServerStreaming (demo_ctx d 15000) "/echo.Echo/Stream" ping ∅ (k_client (d_conn d)) in
      Some (let d := client_does (str_cs st) [ping] c' d in
            if Code ok =? 0 then goes (Receiving st RStart 0) [] d else os_Exit (dm_stream_error dm) d)
  | Receiving st w m =>
      match Stream_Recv (d_ctx d) (str_cs st) w (k_client (d_conn d)) !! n with
      | Some (RPending w', c') => Some (goes (Receiving st w' m) [] (client_does (str_cs st) [] c' d))
      | Some (RReturn data err, c') =>
          Some (let d := client_does (str_cs st) [] c' d in
                match err with
                | Some e => if dm_is_end dm e then returns (dm_complete dm m) d else os_Exit (dm_recv_error dm) d
                | None => goes (Receiving st RStart (S m)) (dm_chunk dm (default [] data)) d
                end)
      | None => None
      end
  | Exited _ => None
  end.

Lemma main_next_step dm n d d' : main_next dm n d = Some d' → main_step dm d d'.
Proof.
  unfold main_next. destruct (d_phase d) as [[|su todo]| |l q w| |st w m|code] eqn:Hp.
  - intros [= <-]. by apply main_connected.
  - intros [= <-]. by apply main_setup.
  - destruct (invokeUnary_open _ _ _ _) as [[l q] c'] eqn:Ho. intros [= <-]. by eapply main_unary.
  - destruct (unary_select _ _ _ _ !! n) as [[[w'|data st] c']|] eqn:Hn; [| |done]; apply list_elem_of_lookup_2 in Hn; intros [= <-];
      [by eapply main_select|by eapply main_unary_returns].
  - destruct (InvokeServerStreaming _ _ _ _ _) as [[st ok] c'] eqn:Ho. intros [= <-]. by eapply main_stream.
  - destruct (Stream_Recv _ _ _ _ !! n) as [[[w'|data err] c']|] eqn:Hn; [| |done]; apply list_elem_of_lookup_2 in Hn; intros [= <-];
      [by eapply main_recv_select|by eapply main_recv].
  - done.
Qed.

Definition is_sdk (mv : move) : bool := match mv with MServe | MHandler _ | MAttach => true | _ => false end.

Lemma exec_sdk {Vals} (srv : @Server Vals) vals mv k k' : is_sdk mv = true → exec srv vals mv k = Some k' → sdk_step srv vals k k'.
Proof.
  destruct mv as [| | | | | |l|]; try done; intros _; cbn [exec].
  - intros (f & Hf & (raw & Hm & (body & Hw & ([r m'] & Hh%head_Some_elem_of & H)%bind_Some)%bind_Some)%bind_Some)%bind_Some.
    destruct r; try done. case_decide; [|done]. injection H as <-. eapply sdk_serve; [done|by exists raw|done..].
  - intros ([r m'] & Hh%head_Some_elem_of & H)%bind_Some. destruct r; try done.
    case_decide; [|done]. injection H as <-. by eapply sdk_handler.
  - intros (f & Hf & (raw & Hm & (body & Hw & ([r m'] & Hh%head_Some_elem_of & H)%bind_Some)%bind_Some)%bind_Some)%bind_Some.
    destruct r; try done. case_decide; [|done]. injection H as <-. eapply sdk_attach; [done|by exists raw|done..].
Qed.

(** [None] stands for a step of [main]. *)
Definition demo_exec (dm : demo) (mv : move + nat) (d : state) : option state :=
  match mv with
  | inl mv =>
      match d_phase d with
      | Setup _ => None
      | _ => if is_sdk mv then flip with_conn d <$> exec (dm_server dm) tt mv (d_conn d) else None
      end
  | inr n => main_next dm n d
  end.

Fixpoint demo_exec_all (dm : demo) (mvs : list (move + nat)) (d : state) : option state :=
  match mvs with [] => Some d | mv :: mvs => d' ← demo_exec dm mv d; demo_exec_all dm mvs d' end.

Lemma demo_exec_step dm mv d d' : demo_exec dm mv d = Some d' → main_step dm d d' ∨ other_step dm d d'.
Proof.
  destruct mv as [mv|n]; cbn; [|left; by eapply main_next_step]. intros H. right.
  assert ((∀ todo, d_phase d ≠ Setup todo) ∧ ∃ k', is_sdk mv = true ∧ exec (dm_server dm) tt mv (d_conn d) = Some k' ∧ d' = with_conn k' d)
    as (Hp & k' & Hmv & He & ->).
  { destruct (d_phase d); try done; (split; [done|]); destruct (is_sdk mv); try done;
      destruct (exec _ _ _ _) as [k'|]; try done; injection H as <-; by exists k'. }
  apply other_sdk; [done|by eapply exec_sdk].
Qed.

Lemma demo_exec_reachable dm mvs d d' : demo_reachable dm d → demo_exec_all dm mvs d = Some d' → demo_reachable dm d'.
Proof.
  revert d. induction mvs as [|mv mvs IH]; intros d Hd; cbn [demo_exec_all]; [by intros [= <-]|].
  intros (d1 & H1%demo_exec_step & H)%bind_Some. apply (IH d1); [|done]. by eapply rtc_r.
Qed.
End run.

Definition background_ctx : context := {| ctx_Err := None; ctx_Deadline := Some 15000; ctx_hdr := None |}.

Definition demo_frames : list Frame :=
  request_frames (seq_at 0) (unary_call background_ctx "/echo.Echo/Unary" hello) hello ++
  request_frames (seq_at 1) (streaming_call background_ctx "/echo.Echo/Stream" (Some ping) ∅) ping.

Definition demo_responses : list ResponseFrame :=
  conn_responses (seq_at 0) (go "echo: " ++ hello) ++ conn_responses (seq_at 1) (go "chunk").

#[local] Instance demo_codec1 : Codec Frame := table_codec demo_frames.
#[local] Instance demo_codec2 : Codec ResponseFrame := table_codec demo_responses.
#[local] Instance demo_laws1 : CodecLaws Frame.
Proof. apply table_codec_laws, Nat.leb_le. by vm_compute. Qed.
#[local] Instance demo_laws2 : CodecLaws ResponseFrame.
Proof. apply table_codec_laws, Nat.leb_le. by vm_compute. Qed.

(** Everything arrives. *)
Definition demo_moves : list (move + nat) :=
  replicate 4 (inr 0%nat) ++
  map inl ([MServe; MHandler 0; MHandler 0; MServe; MHandler 0] ++ replicate 3 MAttach) ++ replicate 3 (inr 0%nat) ++
  map inl ([MServe] ++ replicate 6 (MHandler 1) ++ [MServe; MHandler 1] ++ replicate 7 MAttach) ++ replicate 7 (inr 0%nat).

Definition demo_final (mvs : list (move + nat)) : state := default (start_demo facade_demo) (demo_exec_all facade_demo mvs (start_demo facade_demo)).

Lemma demo_final_reachable mvs :
  match demo_exec_all facade_demo mvs (start_demo facade_demo) with Some _ => True | None => False end →
  demo_reachable facade_demo (demo_final mvs).
Proof.
  unfold demo_final. destruct (demo_exec_all _ _ _) as [d|] eqn:Hd; [|done].
  intros _. by eapply demo_exec_reachable; [apply rtc_refl|].
Qed.

Lemma demo_runs_witness :
  d_log (demo_final demo_moves) =
    [LInfo "connected"; LUnary (go "echo: hello, peerrpc"); LChunks 5; LInfo "facade demo complete"] ∧
  d_closed (demo_final demo_moves) = ["Dial"; "Listen"; "cancel"]%string ∧
  ∃ resp req cs, (resp = [] ∨ resp = go "echo: " ++ hello) ∧ (req = [] ∨ req = ping) ∧ cs `prefix_of` replicate 5 (go "chunk") ∧
    d_log (demo_final demo_moves) = [LInfo "connected"; LUnary resp; LChunks (length cs); LInfo "facade demo complete"].
Proof.
  assert (demo_reachable facade_demo (demo_final demo_moves)) as Hd.
  { apply demo_final_reachable. vm_compute. exact I. }
  destruct (demo_runs id facade_demo _ (demo_final demo_moves) (or_intror eq_refl) Hd) as [H _].
  destruct (H ltac:(vm_compute; reflexivity)) as (resp & req & cs & H1 & H2 & H3 & H4 & _ & _).
  split; [vm_compute; reflexivity|]. split; [vm_compute; reflexivity|].
  exists resp, req, cs. split; [exact H1|]. split; [exact H2|]. split; [exact H3|]. rewrite H4.
  cbn [dm_chunk facade_demo]. replace (concat (map (λ _, @nil line) cs)) with (@nil line); [reflexivity|].
  clear. by induction cs.
Defined.

(** Both ends overtake what they end: the demo has received nothing, and reports
    success. *)
Definition hasty_moves : list (move + nat) :=
  replicate 4 (inr 0%nat) ++
  map inl ([MServe; MHandler 0; MHandler 0; MServe; MHandler 0] ++ replicate 3 MAttach) ++ [inr 1%nat; inr 0%nat; inr 0%nat] ++
  map inl ([MServe] ++ replicate 6 (MHandler 1) ++ [MServe; MHandler 1] ++ replicate 7 MAttach) ++ [inr 1%nat].

Lemma demo_may_receive_nothing :
  ∃ d, demo_reachable facade_demo d ∧ d_phase d = Exited 0 ∧
    d_log d = [LInfo "connected"; LUnary []; LChunks 0; LInfo "facade demo complete"].
Proof.
  exists (demo_final hasty_moves). split; [apply demo_final_reachable; vm_compute; exact I|].
  split; vm_compute; reflexivity.
Qed.
