(* ===== verification/Vectors.v ===== *)
(** * The golden vectors (cmd/gen-vectors)

    The table of messages whose encodings the SDKs of all languages have to
    agree on, and the program that writes them.  Marshaling, JSON, the hash and
    the file system are parameters ([tools]); a call of [Marshal] may differ from
    the one before, which is what the program looks for. *)

From Stdlib Require Import Strings.Byte ZArith Lia.
From stdpp Require Import numbers strings gmap fin_maps list pretty.
From S2P Require Import Prelude Status Messages Transport RpcServer RpcClient Target.
Open Scope Z_scope.

(** ** helpers.go *)

Definition repeatByte (v : byte) (n : nat) : bytes := replicate n v.

Definition statusRPC (code : Z) (msg : string) : StatusPb := {| pb_Code := code; pb_Message := msg |}.

Definition equalBytes (a b : bytes) : bool :=
  (length a =? length b)%nat && forallb (λ p, bool_decide (p.1 = p.2)) (zip a b).

(** A directory, the innermost name first; [filepath.Dir] of the root is the root. *)
Definition dir : Type := list string.

(** [repoRoot]'s loop over at most [n] directories; [marked] is whether [buf.yaml]
    is there. *)
Fixpoint find_root (marked : dir → bool) (n : nat) (d : dir) : option dir :=
  match n with
  | O => None
  | S n =>
      if marked d then Some d
      else match d with [] => None | _ :: parent => find_root marked n parent end
  end.

Definition repoRoot (marked : dir → bool) (file : dir) : option dir := find_root marked 12 (tail file).

(** ** main.go: the table *)

Inductive message : Type := MFrame (f : Frame) | MResponse (f : ResponseFrame).

Definition frame (seq : Z) (t : FrameType) : message :=
  MFrame {| f_Routing := Some {| Sequence := seq |}; f_Type := Some t |}.

Definition response (seq : Z) (t : ResponseType) : message :=
  MResponse {| rf_Routing := Some {| Sequence := seq |}; rf_Type := Some t |}.

Definition data (c : Content) : option Data := Some {| data_Content := Some c |}.

Definition protoV1 : Z := 1.

Definition buildVectors : list (string * message) :=
  [ ("frame_unary_call", frame 1 (Frame_Call (Some
       {| call_Method := "/echo.Echo/Echo"; call_Metadata := None; call_DeadlineMs := 0;
          call_InlineData := Some (go "hi"); call_ProtocolVersion := protoV1 |})));
    ("frame_unary_call_with_deadline", frame 3 (Frame_Call (Some
       {| call_Method := "/echo.Echo/Echo";
          call_Metadata := Some (list_to_map [("authorization", ["Bearer token-abc"]); ("trace-id", ["abcdef0123456789"])]);
          call_DeadlineMs := 5000; call_InlineData := Some (go "with-deadline"); call_ProtocolVersion := protoV1 |})));
    ("frame_streaming_data_small", frame 5 (Frame_Data (data (Data_Message (repeatByte "a" 100)))));
    ("frame_streaming_data_100k", frame 7 (Frame_Data (data (Data_Message (repeatByte "b" (Z.to_nat (100 * 1024)))))));
    ("frame_chunked_data", frame 9 (Frame_Data (data (Data_Chunk
       {| TotalSize := 1024 * 1024; Offset := 0; chunk_Data := repeatByte "c" (Z.to_nat (256 * 1024)) |}))));
    ("frame_end_close_send", frame 11 (Frame_End (Some
       {| end_CloseSend := true; end_Status := None; end_Trailer := None |})));
    ("frame_end_cancelled", frame 13 (Frame_End (Some
       {| end_CloseSend := false; end_Status := Some (statusRPC 1 "cancelled by client"); end_Trailer := None |})));
    ("response_begin_with_inline", response 1 (ResponseFrame_Begin (Some
       {| begin_Header := Some (list_to_map [("x-response-id", ["resp-001"])]); begin_InlineData := Some (go "echo:hi") |})));
    ("response_data_stream", response 3 (ResponseFrame_Data (data (Data_Message (go "stream-chunk-1")))));
    ("response_end_ok", response 1 (ResponseFrame_End (Some
       {| end_CloseSend := false; end_Status := Some (statusRPC 0 "");
          end_Trailer := Some (list_to_map [("x-consumed", ["42"])]) |})));
    ("response_end_unavailable", response 5 (ResponseFrame_End (Some
       {| end_CloseSend := false; end_Status := Some (statusRPC 14 "datachannel closed"); end_Trailer := None |}))) ]%string.

(** ** main.go: the program *)

(** The entry of a vector in [expected.json]. *)
Record descriptor : Type := {
  d_type : string; d_size : Z; d_sha256 : string; d_protojson : bytes; d_hex : option string
}.

(** [Marshal] is given the number of its call; a write that fails may leave a
    part of the file. *)
Record tools : Type := {
  t_marshal : nat → message → bytes + error;
  t_write : string → bytes → option (error * option bytes);
  t_protojson : message → bytes + error;
  t_json_unmarshal : bytes → option error;
  t_message_name : message → string;
  t_sha256hex : bytes → string;
  t_hex : bytes → string;
  t_expected_json : gmap string descriptor → bytes + error
}.

Record outputs : Type := {
  o_files : gmap string bytes;
  o_descriptors : gmap string descriptor;
  o_calls : nat
}.

Definition path_join (outDir name : string) : string := outDir +:+ "/" +:+ name.

(** [log.Fatalf], with what has been written. *)
Inductive exit_ (A : Type) : Type := Done (a : A) | Fatal (msg : string) (o : outputs).
Arguments Done {A} _.
Arguments Fatal {A} _ _.

Section gen.
Context (T : tools) (outDir : string).

(** [os.WriteFile]. *)
Definition WriteFile (path : string) (b : bytes) (o : outputs) : option error * outputs :=
  match t_write T path b with
  | Some (err, part) =>
      (Some err, {| o_files := match part with Some b => <[path := b]> (o_files o) | None => o_files o end;
                    o_descriptors := o_descriptors o; o_calls := o_calls o |})
  | None => (None, {| o_files := <[path := b]> (o_files o); o_descriptors := o_descriptors o; o_calls := o_calls o |})
  end.

Definition marshal_message (m : message) (o : outputs) : (bytes + error) * outputs :=
  (t_marshal T (o_calls o) m,
   {| o_files := o_files o; o_descriptors := o_descriptors o; o_calls := S (o_calls o) |}).

Definition describe (name : string) (d : descriptor) (o : outputs) : outputs :=
  {| o_files := o_files o; o_descriptors := <[name := d]> (o_descriptors o); o_calls := o_calls o |}.

(** The body of the loop over the vectors. *)
Definition gen_vector (v : string * message) (o : outputs) : exit_ outputs :=
  let '(name, msg) := v in
  let '(r, o) := marshal_message msg o in
  match r with
  | inr err => Fatal ("marshal " +:+ name) o
  | inl bin =>
      let '(w, o) := WriteFile (path_join outDir (name +:+ ".bin")) bin o in
      match w with
      | Some err => Fatal ("write " +:+ name) o
      | None =>
          let '(r, o) := marshal_message msg o in
          match r with
          | inl round =>
              if equalBytes round bin then
                match t_protojson T msg with
                | inr err => Fatal ("protojson " +:+ name) o
                | inl j =>
                    match t_json_unmarshal T j with
                    | Some err => Fatal ("unmarshal protojson " +:+ name) o
                    | None =>
                        Done (describe name
                          {| d_type := t_message_name T msg; d_size := len bin; d_sha256 := t_sha256hex T bin;
                             d_protojson := j; d_hex := if len bin <=? 1024 then Some (t_hex T bin) else None |} o)
                    end
                end
              else Fatal ("non-deterministic encode for " +:+ name) o
          | inr err => Fatal ("non-deterministic encode for " +:+ name) o
          end
      end
  end.

Fixpoint gen_loop (vs : list (string * message)) (o : outputs) : exit_ outputs :=
  match vs with
  | [] => Done o
  | v :: vs => match gen_vector v o with Done o => gen_loop vs o | Fatal msg o => Fatal msg o end
  end.

Definition gen_main : exit_ outputs :=
  match gen_loop buildVectors {| o_files := ∅; o_descriptors := ∅; o_calls := 0 |} with
  | Fatal msg o => Fatal msg o
  | Done o =>
      match t_expected_json T (o_descriptors o) with
      | inr err => Fatal "marshal expected.json" o
      | inl raw =>
          match WriteFile (path_join outDir "expected.json") (raw ++ [x0a]) o with
          | (Some err, o) => Fatal "write expected.json" o
          | (None, o) => Done o
          end
      end
  end.
End gen.

(** ** Lemmas *)

Lemma equalBytes_spec a b : equalBytes a b = true ↔ a = b.
Proof.
  unfold equalBytes. rewrite andb_true_iff, Nat.eqb_eq. revert b.
  induction a as [|x a IH]; intros [|y b]; cbn; try (split; [by intros []|done]).
  rewrite andb_true_iff, bool_decide_eq_true. split.
  - intros ([= Hl] & -> & H). f_equal. apply IH. by split.
  - intros [= -> ->]. destruct (proj2 (IH b) eq_refl) as [_ H]. by split.
Qed.

(** The nearest directory that is marked, when it is among the first [n]. *)
Lemma find_root_spec marked n d r :
  find_root marked n d = Some r ↔
  ∃ i, (i < n)%nat ∧ (i ≤ length d)%nat ∧ r = drop i d ∧ marked r = true ∧ ∀ j, (j < i)%nat → marked (drop j d) = false.
Proof.
  revert d. induction n as [|n IH]; intros d; cbn [find_root]; [split; [done|intros (i & ? & _); lia]|].
  destruct (marked d) eqn:E.
  - split.
    + intros [= <-]. exists 0%nat. split; [lia|]. split; [lia|]. split; [done|]. split; [done|]. intros j; lia.
    + intros (i & _ & _ & -> & _ & H). destruct i as [|i]; [done|]. specialize (H 0%nat ltac:(lia)). rewrite drop_0 in H. congruence.
  - destruct d as [|x d].
    + split; [done|]. intros (i & _ & Hi & -> & Hm & _). rewrite drop_nil in Hm. congruence.
    + rewrite IH. split.
      * intros (i & ? & ? & -> & Hm & H). exists (S i). cbn. do 3 (split; [done || lia|]). split; [done|].
        intros [|j] Hj; [done|]. apply H. lia.
      * intros ([|i] & ? & ? & -> & Hm & H); [rewrite drop_0 in Hm; congruence|]. exists i. cbn in *. do 3 (split; [done || lia|]).
        split; [done|]. intros j Hj. apply (H (S j)). lia.
Qed.

Lemma fst_in {A B} (v : A * B) l : v ∈ l → v.1 ∈ l.*1.
Proof. apply list_elem_of_fmap_2. Qed.

Lemma fst_elem {A B} (x : A) (l : list (A * B)) : x ∈ l.*1 → ∃ v, x = v.1 ∧ v ∈ l.
Proof. apply list_elem_of_fmap_1. Qed.

Section written.
Context (T : tools) (outDir : string).

Definition bin_path (name : string) : string := path_join outDir (name +:+ ".bin").

(** The file and the entry of a vector: two encodings that agree. *)
Definition written (v : string * message) (o : outputs) : Prop :=
  ∃ bin n j, t_marshal T n v.2 = inl bin ∧ t_marshal T (S n) v.2 = inl bin ∧ t_protojson T v.2 = inl j ∧
    o_files o !! bin_path v.1 = Some bin ∧
    o_descriptors o !! v.1 = Some
      {| d_type := t_message_name T v.2; d_size := len bin; d_sha256 := t_sha256hex T bin; d_protojson := j;
         d_hex := if len bin <=? 1024 then Some (t_hex T bin) else None |}.

Lemma gen_vector_done v o o' :
  gen_vector T outDir v o = Done o' →
  written v o' ∧ (∃ bin, o_files o' = <[bin_path v.1 := bin]> (o_files o)) ∧
  (∃ d, o_descriptors o' = <[v.1 := d]> (o_descriptors o)).
Proof.
  destruct v as [name msg]. unfold gen_vector, marshal_message, WriteFile. cbn.
  destruct (t_marshal T (o_calls o) msg) as [bin|] eqn:E1; [|done]. destruct (t_write _ _ _) as [[??]|]; [done|]. cbn.
  destruct (t_marshal T (S (o_calls o)) msg) as [round|] eqn:E2; [|done].
  destruct (equalBytes round bin) eqn:E3; [|done]. apply equalBytes_spec in E3 as ->.
  destruct (t_protojson T msg) as [j|] eqn:E4; [|done]. destruct (t_json_unmarshal T j); [done|]. intros [= <-].
  split; [|split; by eexists]. exists bin, (o_calls o), j. cbn. split_and!; [done..| |]; by rewrite lookup_insert, decide_True.
Qed.

Lemma gen_vector_fatal v o msg o' :
  gen_vector T outDir v o = Fatal msg o' → ∀ p, p ≠ bin_path v.1 → o_files o' !! p = o_files o !! p.
Proof.
  destruct v as [name m]. unfold gen_vector, marshal_message, WriteFile. cbn. intros H p Hp.
  assert (∀ b, (<[path_join outDir (name +:+ ".bin") := b]> (o_files o)) !! p = o_files o !! p) as Hne
    by (intros b; by apply lookup_insert_ne).
  repeat (case_match; simplify_eq/=; try done).
Qed.

Lemma gen_loop_done vs : ∀ o o',
  NoDup ((λ v, bin_path v.1) <$> vs) → NoDup vs.*1 → gen_loop T outDir vs o = Done o' →
  Forall (λ v, written v o') vs ∧
  (∀ p, p ∉ ((λ v, bin_path v.1) <$> vs) → o_files o' !! p = o_files o !! p) ∧
  (∀ n, n ∉ vs.*1 → o_descriptors o' !! n = o_descriptors o !! n).
Proof.
  induction vs as [|v vs IH]; intros o o' Hp Hn; cbn [gen_loop]; [by intros [= <-]|].
  rewrite fmap_cons in Hp, Hn. apply NoDup_cons in Hp as [Hp1 Hp], Hn as [Hn1 Hn].
  destruct (gen_vector T outDir v o) as [o1|] eqn:E; [|done]. intros Hl.
  apply gen_vector_done in E as ((bin & n & j & H1 & H2 & H3 & H4 & H5) & (b & Ef) & (d & Ed)).
  destruct (IH o1 o' Hp Hn Hl) as (Hall & Hf & Hd). split_and!.
  - constructor; [|done]. exists bin, n, j. by rewrite (Hf _ Hp1), (Hd _ Hn1).
  - intros p [Hne Hnot]%not_elem_of_cons. by rewrite (Hf p Hnot), Ef, lookup_insert_ne.
  - intros m [Hne Hnot]%not_elem_of_cons. by rewrite (Hd m Hnot), Ed, lookup_insert_ne.
Qed.

Lemma gen_loop_fatal vs : ∀ o msg o' p,
  p ∉ ((λ v, bin_path v.1) <$> vs) → gen_loop T outDir vs o = Fatal msg o' → o_files o' !! p = o_files o !! p.
Proof.
  induction vs as [|v vs IH]; intros o msg o' p; cbn [gen_loop]; [done|].
  rewrite fmap_cons. intros [Hne Hnot]%not_elem_of_cons.
  destruct (gen_vector T outDir v o) as [o1|msg1 o1] eqn:E.
  - intros H. rewrite (IH _ _ _ _ Hnot H). apply gen_vector_done in E as (_ & (b & ->) & _). by rewrite lookup_insert_ne.
  - intros [= -> ->]. by apply (gen_vector_fatal _ _ _ _ E).
Qed.

Lemma path_join_inj a b : path_join outDir a = path_join outDir b → a = b.
Proof. unfold path_join. intros H. by apply (inj (String.append _)), (inj (String.append _)) in H. Qed.

Lemma vector_names : NoDup buildVectors.*1.
Proof. apply (bool_decide_unpack _). by vm_compute. Qed.

Lemma vector_paths : NoDup ((λ v, bin_path v.1) <$> buildVectors) ∧
  path_join outDir "expected.json" ∉ ((λ v, bin_path v.1) <$> buildVectors).
Proof.
  assert (((λ v, bin_path v.1) <$> buildVectors) = path_join outDir <$> ((λ n, n +:+ ".bin") <$> buildVectors.*1)) as ->.
  { by rewrite <- !list_fmap_compose. }
  split.
  - apply (NoDup_fmap_2_strong _ _); [intros a b _ _; apply path_join_inj|]. apply (bool_decide_unpack _). by vm_compute.
  - intros (n & H%path_join_inj & Hin)%list_elem_of_fmap. subst n. revert Hin. apply (bool_decide_unpack _). by vm_compute.
Qed.
End written.

(** ** Properties *)

(** What the program leaves behind.  When it ends normally, there is for every
    vector a file with an encoding of its message that two calls of [Marshal]
    agree on, and an entry in the index with its size, and with its bytes up to
    1 KiB; there are no other files than these and the index, and no other
    entries.  When it ends with a fatal error before it writes the index, there is
    no index. *)
Theorem vectors_written T outDir :
  match gen_main T outDir with
  | Done o =>
      (∀ v, v ∈ buildVectors → written T outDir v o) ∧
      (∃ raw, t_expected_json T (o_descriptors o) = inl raw ∧
         o_files o !! path_join outDir "expected.json" = Some (raw ++ [x0a])) ∧
      (∀ p, is_Some (o_files o !! p) ↔
         p = path_join outDir "expected.json" ∨ ∃ name, name ∈ buildVectors.*1 ∧ p = bin_path outDir name) ∧
      (∀ name, is_Some (o_descriptors o !! name) ↔ name ∈ buildVectors.*1)
  | Fatal msg o => msg ≠ "write expected.json" → o_files o !! path_join outDir "expected.json" = None
  end.
Proof.
  destruct (vector_paths outDir) as [Hnd Hex]. unfold gen_main.
  destruct (gen_loop T outDir buildVectors _) as [o|msg o] eqn:E;
    [|by rewrite (gen_loop_fatal _ _ _ _ _ _ _ Hex E)].
  destruct (gen_loop_done _ _ _ _ _ Hnd vector_names E) as (Hall & Hf & Hd). cbn [o_files o_descriptors] in Hf, Hd.
  assert (o_files o !! path_join outDir "expected.json" = None) as Hnone by by rewrite (Hf _ Hex).
  destruct (t_expected_json T (o_descriptors o)) as [raw|err] eqn:Ej; [|done].
  unfold WriteFile. destruct (t_write _ _ _) as [[??]|]; [done|]. cbn. rewrite Forall_forall in Hall.
  assert (∀ v, v ∈ buildVectors → path_join outDir "expected.json" ≠ bin_path outDir v.1) as Hne.
  { intros v Hv E'. apply Hex. apply list_elem_of_fmap. by exists v. }
  split; [|split; [|split]].
  - intros v Hv. destruct (Hall v Hv) as (bin & n & j & H1 & H2 & H3 & H4 & H5). exists bin, n, j.
    cbn. rewrite lookup_insert_ne by by apply Hne. done.
  - exists raw. split; [done|]. by rewrite lookup_insert, decide_True.
  - intros p. destruct (decide (path_join outDir "expected.json" = p)) as [<-|Hp].
    { rewrite lookup_insert, decide_True by done. split; [by left|by eexists]. }
    rewrite lookup_insert_ne by done. split.
    + intros [b Hb]. right. destruct (decide (p ∈ ((λ v, bin_path outDir v.1) <$> buildVectors))) as [Hin|Hno].
      * apply list_elem_of_fmap in Hin as (v & -> & Hv). exists v.1. split; [by apply (fst_in v buildVectors)|done].
      * rewrite (Hf _ Hno) in Hb. done.
    + intros [->|(name & Hin & ->)]; [done|]. destruct (fst_elem name buildVectors Hin) as (v & -> & Hv).
      destruct (Hall v Hv) as (bin & n & j & _ & _ & _ & H4 & _). by eexists.
  - intros name. split.
    + intros [d Hd']. destruct (decide (name ∈ buildVectors.*1)) as [|Hno]; [done|]. by rewrite (Hd _ Hno) in Hd'.
    + intros Hin. destruct (fst_elem name buildVectors Hin) as (v & -> & Hv).
      destruct (Hall v Hv) as (bin & n & j & _ & _ & _ & _ & H5). by eexists.
Qed.

(** The table has every kind of frame and of content, and of [End] the half-close,
    the cancel, the OK and an error; but the chunk of its chunked message is
    larger than any that the SDK sends, and no response carries a chunk. *)
Definition arm (v : string * message) : string :=
  match v.2 with
  | MFrame f =>
      match f_Type f with
      | Some (Frame_Call _) => "call"
      | Some (Frame_Data d) => match GetContent d with Some (Data_Message _) => "message" | Some (Data_Chunk _) => "chunk" | None => "" end
      | Some (Frame_End _) => "end"
      | None => ""
      end
  | MResponse f =>
      match rf_Type f with
      | Some (ResponseFrame_Begin _) => "response begin"
      | Some (ResponseFrame_Data d) =>
          match GetContent d with Some (Data_Message _) => "response message" | Some (Data_Chunk _) => "response chunk" | None => "" end
      | Some (ResponseFrame_End _) => "response end"
      | None => ""
      end
  end.

Lemma vector_arms :
  list_to_set (arm <$> buildVectors) =
    ({["call"; "message"; "chunk"; "end"; "response begin"; "response message"; "response end"]} : gset string) ∧
  ChunkSize < len (repeatByte "c" (Z.to_nat (256 * 1024))).
Proof.
  split; [|unfold len, repeatByte; by rewrite length_replicate].
  apply (bool_decide_unpack _). by vm_compute.
Qed.
