(* ===== verification/Base64.v ===== *)
(** * Unpadded URL-safe base64 (encoding/base64, RawURLEncoding)

    The encoder and the decoder of the Standard Library as auth/jwt.go uses
    them, and their round trip. *)

From Stdlib Require Import Strings.Byte ZArith Lia.
From stdpp Require Import numbers strings list.
From S2P Require Import Prelude Target.
Open Scope Z_scope.

Definition alphabet : bytes := go "ABCDEFGHIJKLMNOPQRSTUVWXYZabcdefghijklmnopqrstuvwxyz0123456789-_".

(** The character of the low six bits of [v]. *)
Definition encodeChar (v : Z) : byte := nth (Z.to_nat (Z.land v 63)) alphabet x00.

(** [decodeMap]: [None] is 0xff. *)
Definition decodeMap (c : byte) : option Z := (λ p, Z.of_nat p.1) <$> list_find (c =.) alphabet.

Definition val3 (a b c : byte) : Z :=
  Z.lor (Z.lor (Z.shiftl (Z_of_byte a) 16) (Z.shiftl (Z_of_byte b) 8)) (Z_of_byte c).

Fixpoint EncodeToString (src : bytes) : bytes :=
  match src with
  | [] => []
  | [a] => let v := val3 a x00 x00 in [encodeChar (Z.shiftr v 18); encodeChar (Z.shiftr v 12)]
  | [a; b] =>
      let v := val3 a b x00 in
      [encodeChar (Z.shiftr v 18); encodeChar (Z.shiftr v 12); encodeChar (Z.shiftr v 6)]
  | a :: b :: c :: src =>
      let v := val3 a b c in
      encodeChar (Z.shiftr v 18) :: encodeChar (Z.shiftr v 12) :: encodeChar (Z.shiftr v 6) ::
      encodeChar v :: EncodeToString src
  end.

(** Line breaks are skipped. *)
Definition line_break (c : byte) : bool := bool_decide (c = x0a) || bool_decide (c = x0d).

Definition val4 (a b c d : Z) : Z :=
  Z.lor (Z.lor (Z.lor (Z.shiftl a 18) (Z.shiftl b 12)) (Z.shiftl c 6)) d.

(** [decodeQuantum] and its loop, without padding: a last quantum of one
    character is an error, the spare bits of a short one are ignored. *)
Fixpoint decode_quanta (s : bytes) : option bytes :=
  match s with
  | [] => Some []
  | [_] => None
  | [a; b] =>
      a ← decodeMap a; b ← decodeMap b;
      Some [byte_of_Z (Z.shiftr (val4 a b 0 0) 16)]
  | [a; b; c] =>
      a ← decodeMap a; b ← decodeMap b; c ← decodeMap c;
      Some [byte_of_Z (Z.shiftr (val4 a b c 0) 16); byte_of_Z (Z.shiftr (val4 a b c 0) 8)]
  | a :: b :: c :: d :: s =>
      a ← decodeMap a; b ← decodeMap b; c ← decodeMap c; d ← decodeMap d;
      s ← decode_quanta s;
      let v := val4 a b c d in
      Some (byte_of_Z (Z.shiftr v 16) :: byte_of_Z (Z.shiftr v 8) :: byte_of_Z v :: s)
  end.

Definition DecodeString (s : bytes) : option bytes :=
  decode_quanta (filter (λ c, line_break c = false) s).

(** ** Lemmas *)

Lemma alphabet_ok v :
  0 ≤ v < 64 → decodeMap (nth (Z.to_nat v) alphabet x00) = Some v ∧
  line_break (nth (Z.to_nat v) alphabet x00) = false ∧ nth (Z.to_nat v) alphabet x00 ≠ "."%byte.
Proof.
  intros Hv.
  assert (∀ n : nat, n < 64 → decodeMap (nth n alphabet x00) = Some (Z.of_nat n) ∧
    line_break (nth n alphabet x00) = false ∧ nth n alphabet x00 ≠ "."%byte)%nat as H.
  { intros n Hn. do 64 (destruct n as [|n]; [by vm_compute|]). lia. }
  destruct (H (Z.to_nat v)) as (H1 & H2 & H3); [lia|]. rewrite Z2Nat.id in H1 by lia. done.
Qed.

Lemma land63 v : Z.land v 63 = v `mod` 64.
Proof. change 63 with (Z.ones 6). by rewrite Z.land_ones. Qed.

Lemma encodeChar_ok v :
  decodeMap (encodeChar v) = Some (v `mod` 64) ∧ line_break (encodeChar v) = false ∧ encodeChar v ≠ "."%byte.
Proof. unfold encodeChar. rewrite land63. apply alphabet_ok. apply Z.mod_pos_bound. lia. Qed.

Lemma val3_value a b c : val3 a b c = Z_of_byte a * 65536 + Z_of_byte b * 256 + Z_of_byte c.
Proof.
  unfold val3. pose proof (Z_of_byte_range a). pose proof (Z_of_byte_range b). pose proof (Z_of_byte_range c).
  replace (Z.lor (Z.shiftl (Z_of_byte a) 16) (Z.shiftl (Z_of_byte b) 8))
    with (Z.shiftl (Z.lor (Z.shiftl (Z_of_byte a) 8) (Z_of_byte b)) 8)
    by (rewrite Z.shiftl_lor, Z.shiftl_shiftl by lia; done).
  rewrite !lor_add_shift by (change (2 ^ 8) with 256; lia). change (2 ^ 8) with 256. lia.
Qed.

Lemma val4_value a b c d : 0 ≤ b < 64 → 0 ≤ c < 64 → 0 ≤ d < 64 →
  val4 a b c d = a * 262144 + b * 4096 + c * 64 + d.
Proof.
  intros Hb Hc Hd. unfold val4.
  replace (Z.lor (Z.lor (Z.shiftl a 18) (Z.shiftl b 12)) (Z.shiftl c 6))
    with (Z.shiftl (Z.lor (Z.shiftl (Z.lor (Z.shiftl a 6) b) 6) c) 6)
    by (rewrite !Z.shiftl_lor, !Z.shiftl_shiftl by lia; done).
  rewrite !lor_add_shift by (change (2 ^ 6) with 64; lia). change (2 ^ 6) with 64. lia.
Qed.

(** A 24-bit number from its four six-bit digits. *)
Lemma digits64 n : 0 ≤ n < 16777216 →
  (n / 262144) `mod` 64 * 262144 + (n / 4096) `mod` 64 * 4096 + (n / 64) `mod` 64 * 64 + n `mod` 64 = n.
Proof.
  intros Hn. replace (n / 262144) with (n / 64 / 64 / 64) by (rewrite !Z.div_div by lia; done).
  replace (n / 4096) with (n / 64 / 64) by (rewrite !Z.div_div by lia; done).
  pose proof (Z.div_mod n 64). pose proof (Z.div_mod (n / 64) 64). pose proof (Z.div_mod (n / 64 / 64) 64).
  rewrite (Z.mod_small (n / 64 / 64 / 64) 64); [lia|]. rewrite !Z.div_div by lia.
  split; [apply Z.div_pos; lia|]. apply Z.div_lt_upper_bound; lia.
Qed.

(** The three bytes of a quantum come back. *)
Lemma quantum a b c v :
  v = val3 a b c →
  let w := val4 (Z.shiftr v 18 `mod` 64) (Z.shiftr v 12 `mod` 64) (Z.shiftr v 6 `mod` 64) (v `mod` 64) in
  byte_of_Z (Z.shiftr w 16) = a ∧ byte_of_Z (Z.shiftr w 8) = b ∧ byte_of_Z w = c.
Proof.
  intros ->. cbv zeta. pose proof (Z_of_byte_range a). pose proof (Z_of_byte_range b). pose proof (Z_of_byte_range c).
  assert (∀ x, 0 ≤ x `mod` 64 < 64) as Hmod by (intros; apply Z.mod_pos_bound; lia).
  rewrite val4_value, val3_value by apply Hmod. rewrite !Z.shiftr_div_pow2 by lia.
  change (2 ^ 18) with 262144. change (2 ^ 12) with 4096. change (2 ^ 6) with 64.
  change (2 ^ 16) with 65536. change (2 ^ 8) with 256.
  set (n := Z_of_byte a * 65536 + Z_of_byte b * 256 + Z_of_byte c).
  replace ((n / 262144) `mod` 64 * 262144 + (n / 4096) `mod` 64 * 4096 + (n / 64) `mod` 64 * 64 + n `mod` 64)
    with n by (symmetry; apply digits64; unfold n; lia).
  split_and!; apply Z_of_byte_inj; rewrite Z_of_byte_of_Z.
  - rewrite <- (Z.div_unique n 65536 (Z_of_byte a) (Z_of_byte b * 256 + Z_of_byte c)) by (unfold n; lia).
    apply Z.mod_small. lia.
  - rewrite <- (Z.div_unique n 256 (Z_of_byte a * 256 + Z_of_byte b) (Z_of_byte c)) by (unfold n; lia).
    symmetry. apply (Z.mod_unique _ _ (Z_of_byte a)); lia.
  - symmetry. apply (Z.mod_unique _ _ (Z_of_byte a * 256 + Z_of_byte b)); unfold n; lia.
Qed.

Lemma x00_value : Z_of_byte x00 = 0.
Proof. done. Qed.

(** With spare digits of zero: the low six bits of [val3 a x00 x00] shifted by
    six and less are zero. *)
Lemma spare1 a : (Z.shiftr (val3 a x00 x00) 6) `mod` 64 = 0 ∧ val3 a x00 x00 `mod` 64 = 0.
Proof.
  rewrite val3_value, x00_value, Z.shiftr_div_pow2 by lia. change (2 ^ 6) with 64.
  replace (Z_of_byte a * 65536 + 0 * 256 + 0) with (Z_of_byte a * 16 * 64 * 64) by lia.
  rewrite Z.div_mul, !Z.mod_mul by lia. done.
Qed.

Lemma spare2 a b : val3 a b x00 `mod` 64 = 0.
Proof.
  rewrite val3_value, x00_value.
  replace (Z_of_byte a * 65536 + Z_of_byte b * 256 + 0) with ((Z_of_byte a * 1024 + Z_of_byte b * 4) * 64) by lia.
  by rewrite Z.mod_mul.
Qed.

(** Every character of an encoding is in the alphabet. *)
Lemma encode_chars src :
  Forall (λ c, line_break c = false ∧ c ≠ "."%byte) (EncodeToString src).
Proof.
  assert (∀ v, line_break (encodeChar v) = false ∧ encodeChar v ≠ "."%byte) as Hc by (intros; apply encodeChar_ok).
  revert src. fix IH 1. intros [|a [|b [|c src]]]; cbn; [constructor|..];
    repeat (apply Forall_cons; split; [apply Hc|]); [constructor..|apply IH].
Qed.

Lemma decode_encode src : decode_quanta (EncodeToString src) = Some src.
Proof.
  assert (∀ v, decodeMap (encodeChar v) = Some (v `mod` 64)) as Hc by (intros; apply encodeChar_ok).
  revert src. fix IH 1. intros [|a [|b [|c src]]]; cbn [EncodeToString decode_quanta]; [done|..];
    rewrite !Hc; cbn [mbind option_bind].
  - destruct (quantum a x00 x00 _ eq_refl) as (H1 & _). destruct (spare1 a) as [E1 E2].
    rewrite E1, E2 in H1. by rewrite H1.
  - destruct (quantum a b x00 _ eq_refl) as (H1 & H2 & _). rewrite (spare2 a b) in *.
    change (Z.shiftr (val3 a b x00) 0) with (val3 a b x00) in *. by rewrite H1, H2.
  - rewrite IH. cbn [mbind option_bind]. by destruct (quantum a b c _ eq_refl) as (-> & -> & ->).
Qed.

Lemma DecodeString_EncodeToString src : DecodeString (EncodeToString src) = Some src.
Proof.
  unfold DecodeString. rewrite <- (decode_encode src). apply (f_equal decode_quanta).
  induction (encode_chars src) as [|c s [Hc _] _ IH]; [done|]. by rewrite filter_cons_True, IH.
Qed.
