(* ===== verification/Auth.v ===== *)
(** * Tokens (auth/jwt.go, auth/transport.go, auth/context.go, and the
    validators of cmd/peerrpc/signal.go)

    HS256 tokens: issue and verify, over HMAC and JSON as parameters; the token
    validators, the extraction of the token from a request, and the 401 answers;
    the header the WebSocket client sends. *)

From Stdlib Require Import Strings.Byte ZArith Lia.
From stdpp Require Import numbers strings gmap list pretty.
From S2P Require Import Prelude Messages Target Base64.
Open Scope Z_scope.

(** ** auth/jwt.go *)

Definition dot : byte := ".".

Record Claims : Type := { Subject : bytes; ExpiresAt : Z; IssuedAt : Z; Service : bytes }.

#[export] Instance Claims_eq_dec : EqDecision Claims.
Proof. solve_decision. Defined.

Definition ErrInvalidToken : error := ErrorString "auth: invalid or unverified token".
Definition ErrExpired : error := ErrorString "auth: token expired".

(** [fmt.Errorf("%w: ...", ErrInvalidToken)]. *)
Definition invalid (msg : string) : error := Errorf_w "" ErrInvalidToken msg.

(** [Now] is the clock of the tests, as Unix seconds; [Leeway] in nanoseconds. *)
Record HS256Verifier : Type := { Secret : bytes; Now : option Z; Leeway : Z }.

(** [v.now().Unix()], [clock] being [time.Now]. *)
Definition now (v : HS256Verifier) (clock : Z) : Z := default clock (Now v).

(** [int64(d.Seconds())], for durations below 2^23 seconds, whose fraction the
    [float64] holds without rounding up to the next second. *)
Definition Seconds (d : Z) : Z := Z.quot d 1000000000.

(** The JOSE header: what [json.Unmarshal] fills in. *)
Record header : Type := { Alg : string; Typ : string }.

(** [json.Marshal] of the header map, whose keys it sorts. *)
Definition dquote : byte := x22.
Definition json_string (s : bytes) : bytes := dquote :: s ++ [dquote].
Definition header_json : bytes :=
  go "{" ++ json_string (go "alg") ++ go ":" ++ json_string (go "HS256") ++ go "," ++
  json_string (go "typ") ++ go ":" ++ json_string (go "JWT") ++ go "}".

Section jwt.
Context (hmac : bytes → bytes → bytes) `{!Codec Claims} (unmarshal_header : bytes → option header).

Definition sign (secret signingInput : bytes) : bytes := EncodeToString (hmac secret signingInput).

Definition IssueHS256 (secret : bytes) (claims : Claims) : bytes + error :=
  match marshal claims with
  | None => inr (wrapf "auth: marshal claims: " (ErrorString "json"))
  | Some payloadJSON =>
      let signingInput := EncodeToString header_json ++ dot :: EncodeToString payloadJSON in
      inl (signingInput ++ dot :: sign secret signingInput)
  end.

Definition expired (v : HS256Verifier) (clock : Z) (c : Claims) : bool :=
  (0 <? ExpiresAt c) && (int64 (ExpiresAt c + Seconds (Leeway v)) <? now v clock).

Definition Verify (v : HS256Verifier) (clock : Z) (token : bytes) : Claims + error :=
  let parts := pieces dot token in
  match parts with
  | [p0; p1; p2] =>
      let signingInput := p0 ++ dot :: p1 in
      if decide (p2 = sign (Secret v) signingInput) then
        match DecodeString p0 with
        | None => inr (invalid ": bad header encoding: base64")
        | Some headerJSON =>
        match unmarshal_header headerJSON with
        | None => inr (invalid ": bad header json: json")
        | Some h =>
        if decide (Alg h = "HS256"%string) then
          match DecodeString p1 with
          | None => inr (invalid ": bad payload encoding: base64")
          | Some payloadJSON =>
          match unmarshal payloadJSON with
          | None => inr (invalid ": bad payload json: json")
          | Some claims =>
              if expired v clock claims
              then inr (Errorf_w "" ErrExpired
                          (": exp " +:+ pretty (ExpiresAt claims) +:+ ", now " +:+ pretty (now v clock)))
              else inl claims
          end end
        else inr (invalid (": alg " +:+ quote (Alg h) +:+ " not supported"))
        end end
      else inr (invalid ": signature mismatch")
  | _ => inr (invalid (": expected 3 segments, got " +:+ pretty (len parts)))
  end.
End jwt.

(** ** auth/transport.go *)

Definition ErrUnauthenticated : error := ErrorString "auth: invalid or expired token".

Record Identity : Type := { id_Subject : bytes; id_Service : bytes }.

Definition no_identity : Identity := {| id_Subject := []; id_Service := [] |}.

(** [TokenValidator], and [TokenValidatorFunc], whose method is the function. *)
Class TokenValidator (V : Type) := Validate : V → bytes → Identity + error.

Definition TokenValidatorFunc : Type := bytes → Identity + error.

#[export] Instance func_validator : TokenValidator TokenValidatorFunc := λ f token, f token.

Record StaticValidator : Type := { Identities : gmap bytes Identity }.

#[export] Instance static_validator : TokenValidator StaticValidator :=
  λ s token, match Identities s !! token with Some id => inl id | None => inr ErrUnauthenticated end.

(** A request as far as it is read: the first [Authorization] value, the raw
    query, and whether it is a WebSocket upgrade. *)
Record request : Type := { Authorization : bytes; RawQuery : bytes; Upgrade : bool }.

(** [url.Values] of [r.URL.Query()]: malformed pieces are skipped. *)
Definition Query (raw : bytes) : list (bytes * bytes) :=
  omap (λ p, mjoin (parse_piece p)) (pieces amp raw).

Definition bearerToken (v : bytes) : bytes :=
  let prefix := go "Bearer " in
  if decide (len prefix < len v ∧ take (length prefix) v = prefix) then drop (length prefix) v else v.

Definition tokenFromRequest (r : request) : bytes :=
  let tok := bearerToken (Authorization r) in
  if decide (tok ≠ []) then tok else Get (Query (RawQuery r)) (go "token").

(** What was written to the response: nothing, the bare 401 of a failed
    upgrade with "Connection: close", or the 401 with a body. *)
Inductive response : Type := NoResponse | Unauthorized_close | Unauthorized_body.

(** [v] is nil when no validator is configured. *)
Definition AuthorizeRequest {V} `{!TokenValidator V} (v : option V) (r : request)
    : (Identity * bool) * response :=
  match v with
  | None => ((no_identity, true), NoResponse)
  | Some v =>
      match Validate v (tokenFromRequest r) with
      | inl id => ((id, true), NoResponse)
      | inr _ => ((no_identity, false), if Upgrade r then Unauthorized_close else Unauthorized_body)
      end
  end.

(** ** auth/context.go *)

Section ctx.
Context {Value : Type}.

(** A context as the chain of its values, the innermost first; keys of other
    types never equal [ctxKeyIdentity]. *)
Inductive ctx_value : Type := CIdentity (id : Identity) | COther (v : Value).

Definition contextWithIdentity (id : Identity) (ctx : list ctx_value) : list ctx_value := CIdentity id :: ctx.

Fixpoint IdentityFromContext (ctx : list ctx_value) : option Identity :=
  match ctx with
  | [] => None
  | CIdentity id :: _ => Some id
  | COther _ :: ctx => IdentityFromContext ctx
  end.
End ctx.

(** ** cmd/peerrpc/signal.go *)

Record jwtVerifierAdapter : Type := { secret : bytes }.

(** [Validate], at the time [clock]. *)
Definition adapter_validate (hmac : bytes → bytes → bytes) `{!Codec Claims}
    (unmarshal_header : bytes → option header) (clock : Z) (a : jwtVerifierAdapter) (token : bytes)
    : Identity + error :=
  match Verify hmac unmarshal_header {| Secret := secret a; Now := None; Leeway := 0 |} clock token with
  | inr err => inr err
  | inl claims => inl {| id_Subject := Subject claims; id_Service := Service claims |}
  end.

(** One pair: the token and the subject after the first equals sign. *)
Definition static_pair (p : bytes) : option (bytes * bytes) :=
  let s := TrimSpace p in
  if decide (equals ∈ s) then
    let '(k, v) := Cut equals s in if decide (k = []) then None else Some (k, v)
  else None.

Fixpoint static_pairs (ps : list bytes) (out : gmap bytes Identity) : StaticValidator + error :=
  match ps with
  | [] => inl {| Identities := out |}
  | p :: ps =>
      match static_pair p with
      | None => inr (ErrorString ("bad token=subject pair: " +:+ quote (String.string_of_list_byte p)))
      | Some (k, v) => static_pairs ps (<[k := {| id_Subject := v; id_Service := [] |}]> out)
      end
  end.

Definition parseStaticValidator (s : bytes) : StaticValidator + error :=
  if decide (s = []) then inl {| Identities := ∅ |}
  else static_pairs (pieces "," s) ∅.

(** ** signal/ws.go: the credentials of the client's handshake *)

Definition client_request (token query : bytes) : request :=
  {| Authorization := if decide (token = []) then [] else go "Bearer " ++ token;
     RawQuery := query; Upgrade := true |}.

(** ** Lemmas *)

Lemma no_dot src : dot ∉ EncodeToString src.
Proof.
  intros H. pose proof (encode_chars src) as Hall. rewrite Forall_forall in Hall.
  by destruct (Hall _ H) as [_ ?].
Qed.

(** A token of three segments is its segments joined. *)
Lemma pieces_three token p0 p1 p2 :
  pieces dot token = [p0; p1; p2] ↔
  token = p0 ++ dot :: p1 ++ dot :: p2 ∧ dot ∉ p0 ∧ dot ∉ p1 ∧ dot ∉ p2.
Proof.
  split.
  - intros H. pose proof (pieces_spec dot token) as [Hj Hn]. rewrite H in Hj, Hn.
    rewrite !Forall_cons in Hn. cbn in Hj. destruct Hn as (? & ? & ? & _). done.
  - intros (-> & H0 & H1 & H2). by rewrite !pieces_app, pieces_one by done.
Qed.

(** Every error of [Verify] wraps one of the two sentinels. *)
Section verify.
Context (hmac : bytes → bytes → bytes) `{!Codec Claims} (unmarshal_header : bytes → option header).
Abbreviation Verify := (Verify hmac unmarshal_header).

Lemma Verify_inl v clock token c :
  Verify v clock token = inl c ↔
  ∃ p0 p1 headerJSON h payloadJSON,
    token = p0 ++ dot :: p1 ++ dot :: sign hmac (Secret v) (p0 ++ dot :: p1) ∧
    dot ∉ p0 ∧ dot ∉ p1 ∧
    DecodeString p0 = Some headerJSON ∧ unmarshal_header headerJSON = Some h ∧ Alg h = "HS256"%string ∧
    DecodeString p1 = Some payloadJSON ∧ unmarshal payloadJSON = Some c ∧ expired v clock c = false.
Proof.
  unfold Auth.Verify. split.
  - destruct (pieces dot token) as [|p0 [|p1 [|p2 [|p3 ps]]]] eqn:Hp; try done.
    destruct (decide _) as [Hs|]; [|done]. destruct (DecodeString p0) as [hj|] eqn:H0; [|done].
    destruct (unmarshal_header hj) as [h|] eqn:Hh; [|done]. destruct (decide _) as [Ha|]; [|done].
    destruct (DecodeString p1) as [pj|] eqn:H1; [|done]. destruct (unmarshal pj) as [c'|] eqn:Hc; [|done].
    destruct (expired v clock c') eqn:He; intros [= ->]. apply pieces_three in Hp as (-> & ? & ? & _).
    exists p0, p1, hj, h, pj. by rewrite <- Hs.
  - intros (p0 & p1 & hj & h & pj & -> & Hd0 & Hd1 & H0 & Hh & Ha & H1 & Hc & He).
    rewrite (proj2 (pieces_three _ p0 p1 (sign hmac (Secret v) (p0 ++ dot :: p1)))).
    + by rewrite decide_True, H0, Hh, decide_True, H1, Hc, He by done.
    + split_and!; try done. apply no_dot.
Qed.

Lemma Verify_errors v clock token err :
  Verify v clock token = inr err → errors_Is err ErrInvalidToken = true ∨ errors_Is err ErrExpired = true.
Proof.
  unfold Auth.Verify. intros H.
  repeat match type of H with
  | context [match ?x with _ => _ end] => destruct x; try done; try (injection H as <-; first [by left|by right])
  end.
Qed.
End verify.

(** ** Issue and verify *)

Lemma DecodeString_header : DecodeString (EncodeToString header_json) = Some header_json.
Proof. apply DecodeString_EncodeToString. Qed.

Section issue.
Context (hmac : bytes → bytes → bytes) `{CodecLaws Claims} (unmarshal_header : bytes → option header).

(** [json.Unmarshal] reads the header that [json.Marshal] printed. *)
Hypothesis header_law : unmarshal_header header_json = Some {| Alg := "HS256"; Typ := "JWT" |}.

(** A token verifies as the claims it was issued for, until it expires. *)
Lemma Verify_IssueHS256 secret claims token v clock :
  IssueHS256 hmac secret claims = inl token → Secret v = secret →
  Verify hmac unmarshal_header v clock token =
    if expired v clock claims
    then inr (Errorf_w "" ErrExpired
                (": exp " +:+ pretty (ExpiresAt claims) +:+ ", now " +:+ pretty (now v clock)))
    else inl claims.
Proof.
  unfold IssueHS256, Verify. destruct (marshal claims) as [payload|] eqn:Hm; [|done]. intros <-%(inj inl) <-.
  set (p0 := EncodeToString header_json). set (p1 := EncodeToString payload).
  rewrite (proj2 (pieces_three _ p0 p1 (sign hmac (Secret v) (p0 ++ dot :: p1)))).
  - rewrite decide_True by done. unfold p0, p1. rewrite DecodeString_header, header_law. cbn [Alg].
    rewrite decide_True by done. rewrite DecodeString_EncodeToString. by rewrite (unmarshal_marshal _ _ Hm).
  - rewrite <- (app_assoc p0). split_and!; [done|apply no_dot..].
Qed.
End issue.

Lemma bearer_client token : token ≠ [] → bearerToken (go "Bearer " ++ token) = token.
Proof.
  intros Hne. unfold bearerToken. rewrite decide_True; [by rewrite drop_app_length|].
  split; [|by rewrite take_app_length]. destruct token; [done|].
  unfold len. rewrite length_app, length_cons. lia.
Qed.

Lemma client_token token query : token ≠ [] → tokenFromRequest (client_request token query) = token.
Proof.
  intros Hne. unfold tokenFromRequest, client_request. cbn [Authorization].
  destruct (decide (token = [])); [done|]. rewrite bearer_client by done. by rewrite decide_True.
Qed.

Lemma issued_nonempty hmac `{!Codec Claims} secret claims token :
  IssueHS256 hmac secret claims = inl token → token ≠ [].
Proof. unfold IssueHS256. destruct (marshal claims); [|done]. by intros <-%(inj inl). Qed.

(** What an issued token is: the two segments and their signature. *)
Lemma issued_signed hmac `{!Codec Claims} secret claims token :
  IssueHS256 hmac secret claims = inl token →
  ∃ pj, marshal claims = Some pj ∧
    token = (EncodeToString header_json ++ dot :: EncodeToString pj) ++
      dot :: sign hmac secret (EncodeToString header_json ++ dot :: EncodeToString pj).
Proof. unfold IssueHS256. destruct (marshal claims) as [pj|]; [|done]. intros <-%(inj inl). by exists pj. Qed.

(** A token has one reading as two segments and a signature, so that
    signatures of two secrets on it agree only when the MACs of its signed
    input do. *)
Lemma signed_unique hmac secret secret' h pj p0 p1 :
  dot ∉ p0 → dot ∉ p1 →
  (EncodeToString h ++ dot :: EncodeToString pj) ++
    dot :: sign hmac secret (EncodeToString h ++ dot :: EncodeToString pj) =
  p0 ++ dot :: p1 ++ dot :: sign hmac secret' (p0 ++ dot :: p1) →
  hmac secret' (EncodeToString h ++ dot :: EncodeToString pj) =
  hmac secret (EncodeToString h ++ dot :: EncodeToString pj).
Proof.
  intros Hd0 Hd1 Heq. set (token := p0 ++ dot :: p1 ++ dot :: sign hmac secret' (p0 ++ dot :: p1)) in *.
  assert (pieces dot token = [EncodeToString h; EncodeToString pj;
    sign hmac secret (EncodeToString h ++ dot :: EncodeToString pj)]) as H1.
  { apply pieces_three. rewrite <- Heq, <- app_assoc. split_and!; [done|apply no_dot..]. }
  assert (pieces dot token = [p0; p1; sign hmac secret' (p0 ++ dot :: p1)]) as H2.
  { apply pieces_three. split_and!; try done. apply no_dot. }
  rewrite H2 in H1. injection H1 as -> -> Hs. unfold sign in Hs.
  apply (f_equal DecodeString) in Hs. rewrite !DecodeString_EncodeToString in Hs. by injection Hs.
Qed.

(** The validator of a server started with a JWT secret. *)
Definition jwt_validator (hmac : bytes → bytes → bytes) `{!Codec Claims}
    (unmarshal_header : bytes → option header) (clock : Z) (key : bytes) : TokenValidatorFunc :=
  adapter_validate hmac unmarshal_header clock {| secret := key |}.

(** The handshake of a client with a token is what the verifier says of the
    token. *)
Lemma authorize_verify hmac `{!Codec Claims} unmarshal_header clock key token query :
  token ≠ [] →
  AuthorizeRequest (Some (jwt_validator hmac unmarshal_header clock key)) (client_request token query) =
    match Verify hmac unmarshal_header {| Secret := key; Now := None; Leeway := 0 |} clock token with
    | inl c => (({| id_Subject := Subject c; id_Service := Service c |}, true), NoResponse)
    | inr _ => ((no_identity, false), Unauthorized_close)
    end.
Proof.
  intros. unfold AuthorizeRequest, Validate, func_validator, jwt_validator, adapter_validate.
  rewrite client_token by done. by destruct (Verify _ _ _ _ _).
Qed.

(** ** Properties *)

(** [C34] Which tokens the verifier accepts: exactly those of three segments whose
    last is the unpadded base64 of the MAC of the first two under its secret,
    whose first decodes to a header naming HS256, and whose second decodes to
    the claims it returns, these not being expired; all other tokens are
    rejected with an error that wraps one of the two sentinels. *)
Theorem verify_accepts_iff (hmac : bytes → bytes → bytes) `{!Codec Claims}
    (unmarshal_header : bytes → option header) v clock token :
  (∀ c, Verify hmac unmarshal_header v clock token = inl c ↔
     ∃ p0 p1 headerJSON h payloadJSON,
       token = p0 ++ dot :: p1 ++ dot :: sign hmac (Secret v) (p0 ++ dot :: p1) ∧
       dot ∉ p0 ∧ dot ∉ p1 ∧
       DecodeString p0 = Some headerJSON ∧ unmarshal_header headerJSON = Some h ∧ Alg h = "HS256"%string ∧
       DecodeString p1 = Some payloadJSON ∧ unmarshal payloadJSON = Some c ∧ expired v clock c = false) ∧
  (∀ err, Verify hmac unmarshal_header v clock token = inr err →
     errors_Is err ErrInvalidToken = true ∨ errors_Is err ErrExpired = true).
Proof. split; [intros c; apply Verify_inl|apply Verify_errors]. Qed.

(** [C20] The credentials of the signaling handshake, end to end. A token
    issued under a secret is some input followed by its signature under that
    secret. A WebSocket client configured with it is admitted by a server with
    any secret, its own or another, with the subject and service of the claims,
    when the two secrets' MACs agree on that input and the token has not
    expired; when the MACs differ on that one input, or after the expiry, the
    handshake is answered with a 401 that closes the connection. *)
Theorem handshake_admits (hmac : bytes → bytes → bytes) `{CodecLaws Claims}
    (unmarshal_header : bytes → option header) secret claims token query clock
    (Hh : unmarshal_header header_json = Some {| Alg := "HS256"; Typ := "JWT" |})
    (Hi : IssueHS256 hmac secret claims = inl token)
    (Hexp : -9223372036854775808 ≤ ExpiresAt claims < 9223372036854775808) :
  ∃ input, token = input ++ dot :: sign hmac secret input ∧
  ∀ secret',
    AuthorizeRequest (Some (jwt_validator hmac unmarshal_header clock secret')) (client_request token query) =
      (if decide (hmac secret' input = hmac secret input) then
         if (0 <? ExpiresAt claims) && (ExpiresAt claims <? clock)
         then ((no_identity, false), Unauthorized_close)
         else (({| id_Subject := Subject claims; id_Service := Service claims |}, true), NoResponse)
       else ((no_identity, false), Unauthorized_close)).
Proof.
  pose proof (issued_nonempty _ _ _ _ Hi) as Hne.
  pose proof (issued_signed _ _ _ _ Hi) as (pj & Hm & Htok).
  eexists. split; [exact Htok|]. intros secret'. rewrite authorize_verify by done. case_decide as Hmac.
  - assert (IssueHS256 hmac secret' claims = inl token) as Hi'.
    { unfold IssueHS256, sign in *. rewrite Hm, Htok. by rewrite Hmac. }
    rewrite (Verify_IssueHS256 _ _ Hh _ _ _ _ clock Hi') by done. unfold expired, now. cbn.
    rewrite int64_id, Z.add_0_r by (rewrite Z.add_0_r; lia). by destruct (_ && _).
  - destruct (Verify _ _ _ clock token) as [c|] eqn:Hv; [|done]. exfalso. apply Hmac.
    apply Verify_inl in Hv as (p0 & p1 & _ & _ & _ & Hv & Hd0 & Hd1 & _). cbn in Hv.
    rewrite Htok in Hv. exact (signed_unique _ _ _ _ _ _ _ Hd0 Hd1 Hv).
Qed.

(** A MAC for the example: the secret and the length of the input. *)
Definition ex_hmac (key input : bytes) : bytes := key ++ [byte_of_Z (len input)].
Definition ex_claims : Claims := {| Subject := go "peer-a"; ExpiresAt := 100; IssuedAt := 1; Service := go "echo" |}.

#[local] Instance ex_claims_codec : Codec Claims := table_codec [ex_claims].
#[local] Instance ex_claims_laws : CodecLaws Claims.
Proof. apply table_codec_laws, Nat.leb_le. by vm_compute. Qed.

Definition ex_server (clock : Z) (key : bytes) : option TokenValidatorFunc :=
  Some (jwt_validator ex_hmac (λ _, Some {| Alg := "HS256"; Typ := "JWT" |}) clock key).

(** The token is admitted by its server before the expiry, refused after it,
    and refused by a server with another secret. *)
Lemma handshake_admits_witness :
  ∃ token, IssueHS256 ex_hmac (go "key") ex_claims = inl token ∧
  AuthorizeRequest (ex_server 50 (go "key")) (client_request token []) =
    (({| id_Subject := go "peer-a"; id_Service := go "echo" |}, true), NoResponse) ∧
  AuthorizeRequest (ex_server 150 (go "key")) (client_request token []) = ((no_identity, false), Unauthorized_close) ∧
  AuthorizeRequest (ex_server 50 (go "other")) (client_request token []) = ((no_identity, false), Unauthorized_close).
Proof.
  eexists. split; [vm_compute; reflexivity|].
  match goal with |- context [client_request ?t []] =>
    assert (∀ clock, ∃ input, t = input ++ dot :: sign ex_hmac (go "key") input ∧ ∀ secret',
      AuthorizeRequest (ex_server clock secret') (client_request t []) = _) as Hall
      by (intros clock; refine (handshake_admits ex_hmac (λ _, Some {| Alg := "HS256"; Typ := "JWT" |})
            (go "key") ex_claims t [] clock eq_refl _ _); [vm_compute; reflexivity|cbn; lia])
  end.
  split_and!.
  - destruct (Hall 50) as (input & _ & ->). by rewrite decide_True.
  - destruct (Hall 150) as (input & _ & ->). by rewrite decide_True.
  - destruct (Hall 50) as (input & _ & ->). by rewrite decide_False.
Defined.
