(* ===== verification/SignalNode.v ===== *)
(** * The signaling server as a whole (signalserver/ws.go over signalserver/store)

    [WebSocketHandler] runs once for each request: it authorizes the request,
    upgrades it, and serves the connection until the peer goes.  Here all the
    requests that a server ever gets run together, interleaved at the locks of
    the store: a state of the server projects to a state of the concurrent
    store, so what holds of every interleaving of the store's sections holds of
    the server, and what the tokens admit is all that ever reaches the store. *)

From Stdlib Require Import Strings.Byte ZArith Lia.
From stdpp Require Import numbers strings gmap fin_maps relations list.
From S2P Require Import Prelude Messages SignalStore SignalStoreProps SignalWire SignalServer SignalEnd Target Auth.
Open Scope Z_scope.

Abbreviation store_conc := (@SignalStore.conc Pb.SignalMessage).

(** Where the handler of a request is: answered with a 401, returned because the
    upgrade failed, before its announce, between the two sections of [Join], in
    the read loop, within [sx.Close()], waiting on [done], within the deferred
    [Leave], returned. *)
Inductive phase : Type :=
  | HRejected (resp : response)
  | HNoUpgrade
  | HAnnounce
  | HJoining (peer : Peer) (svc : nat)
  | HServing
  | HClosing (t : pending)
  | HDraining
  | HLeaving (t : pending)
  | HReturned.

(** A request's handler: its phase, the peer and the sender among its variables,
    and whether its pump goroutine runs. *)
Record handler : Type := {
  h_request : request;
  h_phase : phase;
  h_session : option (Peer * memorySender);
  h_pumping : bool
}.

Definition to_phase (ph : phase) (h : handler) : handler :=
  {| h_request := h_request h; h_phase := ph; h_session := h_session h; h_pumping := h_pumping h |}.

Definition start_serving (peer : Peer) (sx : memorySender) (h : handler) : handler :=
  {| h_request := h_request h; h_phase := HServing; h_session := Some (peer, sx); h_pumping := true |}.

Definition pump_ended (h : handler) : handler :=
  {| h_request := h_request h; h_phase := h_phase h; h_session := h_session h; h_pumping := false |}.

Record node : Type := { nd_mem : WMemory; nd_handlers : list handler }.

Definition newNode : node := {| nd_mem := NewMemory; nd_handlers := [] |}.

(** The start of [WebSocketHandler]'s function; [upgraded] is the outcome of
    [upgrader.Upgrade]. *)
Definition serveHTTP {V} `{!TokenValidator V} (v : option V) (r : request) (upgraded : bool) : handler :=
  let ph :=
    match AuthorizeRequest v r with
    | ((_, false), resp) => HRejected resp
    | ((_, true), _) => if upgraded then HAnnounce else HNoUpgrade
    end in
  {| h_request := r; h_phase := ph; h_session := None; h_pumping := false |}.

(** The announce, up to the first section of [Join]: [None] returns. *)
Definition announced `{Codec Pb.SignalMessage} (r : SignalWire.ws_read) : option Peer :=
  match server_readFrame r with
  | inr _ => None
  | inl msg =>
      a ← Pb.GetAnnounce msg;
      if bool_decide (Pb.Service msg = ""%string) || bool_decide (Pb.PeerId a = ""%string) then None
      else Some {| ID := Pb.PeerId a; SignalStore.Service := Pb.Service msg |}
  end.

(** The first section of [Leave]: whether anything is left to do. *)
Definition leave_start (peer : Peer) (m : WMemory) : option pending :=
  PRemove peer <$> services m !! SignalStore.Service peer.

(** The next section of a [Leave] on its way, and what is left of it. *)
Definition leave_next (t : pending) (m : WMemory) : option pending * WMemory :=
  match t with
  | PRemove peer svc =>
      let '(r, m) := leave_remove peer svc m in
      ((λ '(mp, empty), PClose peer mp empty) <$> r, m)
  | PClose peer mp empty => (if empty then Some (PGc peer) else None, close_inbox mp m)
  | PGc peer => (None, leave_gc peer m)
  | PJoin _ _ => (None, m)
  end.

(** The peer that [sx.Close()] leaves as. *)
Definition close_peer (sx : memorySender) (m : WMemory) : option Peer :=
  (λ p, {| ID := mp_id p; SignalStore.Service := mp_service p |}) <$> peer_heap m !! sx_peer sx.

Section node.
Context `{Codec Pb.SignalMessage} {V : Type} `{!TokenValidator V} (v : option V).

Inductive node_step (n : node) : node → Prop :=
  | n_request r upgraded :
      node_step n {| nd_mem := nd_mem n; nd_handlers := nd_handlers n ++ [serveHTTP v r upgraded] |}
  | n_announce i h r ph m' :
      nd_handlers n !! i = Some h → h_phase h = HAnnounce →
      (ph, m') = match announced r with
                 | None => (HReturned, nd_mem n)
                 | Some peer => let '(svc, m) := serviceForJoin (SignalStore.Service peer) (nd_mem n) in
                                (HJoining peer svc, m)
                 end →
      node_step n {| nd_mem := m'; nd_handlers := <[i := to_phase ph h]> (nd_handlers n) |}
  | n_join i h peer svc r m' :
      nd_handlers n !! i = Some h → h_phase h = HJoining peer svc →
      join_insert peer svc (nd_mem n) = (r, m') →
      node_step n {| nd_mem := m';
                     nd_handlers := <[i := match r with inl sx => start_serving peer sx h
                                                      | inr _ => to_phase HReturned h end]> (nd_handlers n) |}
  | n_read i h peer sx r msg u m' :
      nd_handlers n !! i = Some h → h_phase h = HServing → h_session h = Some (peer, sx) →
      server_readFrame r = inl msg →
      WSend sx (Pb.with_Service (SignalStore.Service peer) msg) (nd_mem n) = (Ok u, m') →
      node_step n {| nd_mem := m'; nd_handlers := nd_handlers n |}
  | n_read_error i h peer sx r err p :
      nd_handlers n !! i = Some h → h_phase h = HServing → h_session h = Some (peer, sx) →
      server_readFrame r = inr err → close_peer sx (nd_mem n) = Some p →
      node_step n {| nd_mem := nd_mem n;
                     nd_handlers := <[i := to_phase match leave_start p (nd_mem n) with
                                                    | Some t => HClosing t | None => HDraining end h]>
                                      (nd_handlers n) |}
  | n_closing i h t t' m' :
      nd_handlers n !! i = Some h → h_phase h = HClosing t → leave_next t (nd_mem n) = (t', m') →
      node_step n {| nd_mem := m';
                     nd_handlers := <[i := to_phase match t' with Some t => HClosing t | None => HDraining end h]>
                                      (nd_handlers n) |}
  | n_pump i h peer sx out m' :
      nd_handlers n !! i = Some h → h_pumping h = true → h_session h = Some (peer, sx) →
      ws_pump sx (nd_mem n) = Some (Some (inl out), m') →
      node_step n {| nd_mem := m'; nd_handlers := nd_handlers n |}
  | n_pump_end i h peer sx out m' :
      (* the inbox is closed, or the frame could not be marshaled or written *)
      nd_handlers n !! i = Some h → h_pumping h = true → h_session h = Some (peer, sx) →
      ws_pump sx (nd_mem n) = Some (out, m') →
      node_step n {| nd_mem := m'; nd_handlers := <[i := pump_ended h]> (nd_handlers n) |}
  | n_drained i h peer sx :
      nd_handlers n !! i = Some h → h_phase h = HDraining → h_pumping h = false →
      h_session h = Some (peer, sx) →
      node_step n {| nd_mem := nd_mem n;
                     nd_handlers := <[i := to_phase match leave_start peer (nd_mem n) with
                                                    | Some t => HLeaving t | None => HReturned end h]>
                                      (nd_handlers n) |}
  | n_leaving i h t t' m' :
      nd_handlers n !! i = Some h → h_phase h = HLeaving t → leave_next t (nd_mem n) = (t', m') →
      node_step n {| nd_mem := m';
                     nd_handlers := <[i := to_phase match t' with Some t => HLeaving t | None => HReturned end h]>
                                      (nd_handlers n) |}.

Definition node_reachable (n : node) : Prop := rtc node_step newNode n.
End node.

(** ** The store under the server *)

Definition phase_pending (ph : phase) : option pending :=
  match ph with
  | HJoining peer svc => Some (PJoin peer svc)
  | HClosing t | HLeaving t => Some t
  | _ => None
  end.

Definition pendings (hs : list handler) : list pending := omap (λ h, phase_pending (h_phase h)) hs.

(** A join is never under way within [Close] or [Leave]. *)
Definition leaving (t : pending) : Prop := match t with PJoin _ _ => False | _ => True end.

Definition phase_ok (ph : phase) : Prop :=
  match ph with HClosing t | HLeaving t => leaving t | _ => True end.

(** Admission: what the token decides. *)
Definition authorized {V} `{!TokenValidator V} (v : option V) (h : handler) : Prop :=
  (AuthorizeRequest v (h_request h)).1.2 = true.

(** What a handler's phase says of it. *)
Definition handler_ok {V} `{!TokenValidator V} (v : option V) (h : handler) : Prop :=
  phase_ok (h_phase h) ∧
  match h_phase h with
  | HRejected resp => ¬ authorized v h ∧ resp = (AuthorizeRequest v (h_request h)).2 ∧ resp ≠ NoResponse ∧ h_session h = None
  | HNoUpgrade | HAnnounce | HJoining _ _ => authorized v h ∧ h_session h = None
  | HServing | HClosing _ | HDraining | HLeaving _ => authorized v h ∧ is_Some (h_session h)
  | HReturned => authorized v h
  end.

(** A state of the server and the state of the concurrent store in it. *)
Record sim {V} `{!TokenValidator V} (v : option V) (n : node) (c : store_conc) : Prop := {
  sim_mem : c_mem c = nd_mem n;
  sim_pending : c_pending c ≡ₚ pendings (nd_handlers n);
  sim_session i h ps : nd_handlers n !! i = Some h → h_session h = Some ps → ps ∈ c_joined c;
  sim_joined ps : ps ∈ c_joined c → ∃ i h, nd_handlers n !! i = Some h ∧ h_session h = Some ps;
  sim_handlers i h : nd_handlers n !! i = Some h → handler_ok v h }.

Lemma pendings_insert hs i h h' :
  hs !! i = Some h → ∃ rest,
    pendings hs ≡ₚ option_list (phase_pending (h_phase h)) ++ rest ∧
    pendings (<[i := h']> hs) ≡ₚ option_list (phase_pending (h_phase h')) ++ rest.
Proof.
  intros Hi. pose proof (lookup_lt_Some _ _ _ Hi) as Hlt.
  assert (∀ h1, hs !! i = Some h1 ∨ h1 = h' → pendings (take i hs ++ h1 :: drop (S i) hs) =
    pendings (take i hs) ++ option_list (phase_pending (h_phase h1)) ++ pendings (drop (S i) hs)) as E.
  { intros h1 _. unfold pendings. rewrite omap_app. f_equal. cbn. by destruct (phase_pending (h_phase h1)). }
  exists (pendings (take i hs) ++ pendings (drop (S i) hs)). split.
  - rewrite <- (take_drop_middle hs i h Hi) at 1. rewrite E by by left. by rewrite Permutation_app_swap_app.
  - rewrite insert_take_drop by done. rewrite E by by right. by rewrite Permutation_app_swap_app.
Qed.

(** A pending call, wherever it stands among the others. *)
Lemma pending_at (c : store_conc) t rest :
  c_pending c ≡ₚ t :: rest → ∃ ps1 ps2, c_pending c = ps1 ++ t :: ps2 ∧ ps1 ++ ps2 ≡ₚ rest.
Proof.
  intros Hp. destruct (list_elem_of_split (c_pending c) t) as (ps1 & ps2 & E).
  { rewrite Hp. apply list_elem_of_here. }
  exists ps1, ps2. split; [done|]. rewrite E, <- Permutation_middle in Hp. by apply Permutation_cons_inv in Hp.
Qed.

Section sim.
Context {V : Type} `{!TokenValidator V} (v : option V).

(** One handler has moved. *)
Lemma sim_move n c i h h' c' m' :
  sim v n c → nd_handlers n !! i = Some h → c_mem c' = m' →
  (∀ rest, c_pending c ≡ₚ option_list (phase_pending (h_phase h)) ++ rest →
     c_pending c' ≡ₚ option_list (phase_pending (h_phase h')) ++ rest) →
  h_request h' = h_request h → handler_ok v h' →
  (h_session h' = h_session h ∧ c_joined c' = c_joined c ∨
   ∃ ps, h_session h = None ∧ h_session h' = Some ps ∧ c_joined c' = ps :: c_joined c) →
  sim v {| nd_mem := m'; nd_handlers := <[i := h']> (nd_handlers n) |} c'.
Proof.
  intros [Hm Hp Hs Hj Hh] Hi Em Hpend Hreq Hok Hses.
  pose proof (lookup_lt_Some _ _ _ Hi) as Hlt.
  destruct (pendings_insert (nd_handlers n) i h h' Hi) as (rest & P1 & P2).
  split; cbn; [done| | | |].
  - rewrite P2. apply Hpend. by rewrite Hp.
  - intros j h1 ps Hj1 Hs1. apply list_lookup_insert_Some in Hj1 as [(-> & <- & _)|(Hne & Hj1)].
    + destruct Hses as [[E ->]|(ps' & _ & E & ->)]; [by eapply Hs; [|rewrite <- E]|].
      rewrite E in Hs1. injection Hs1 as ->. apply list_elem_of_here.
    + destruct Hses as [[_ ->]|(ps' & _ & _ & ->)]; [by eapply Hs|]. apply list_elem_of_further. by eapply Hs.
  - assert (∀ ps, ps ∈ c_joined c → (h_session h = Some ps → h_session h' = Some ps) →
      ∃ j h1, <[i:=h']> (nd_handlers n) !! j = Some h1 ∧ h_session h1 = Some ps) as Hold.
    { intros ps Hin Hkeep. destruct (Hj ps Hin) as (j & h1 & Hj1 & Hs1). destruct (decide (j = i)) as [->|Hne].
      - rewrite Hi in Hj1. injection Hj1 as <-. exists i, h'. rewrite list_lookup_insert_eq by done. auto.
      - exists j, h1. by rewrite list_lookup_insert_ne. }
    intros ps. destruct Hses as [[E ->]|(ps' & E0 & E & ->)].
    + intros Hin. apply Hold; [done|by rewrite E].
    + intros [->|Hin]%elem_of_cons; [exists i, h'; by rewrite list_lookup_insert_eq|].
      apply Hold; [done|by rewrite E0].
  - intros j h1 Hj1. apply list_lookup_insert_Some in Hj1 as [(-> & <- & _)|(_ & Hj1)]; [done|by eapply Hh].
Qed.

(** A section of a [Leave] that is on its way. *)
Lemma leave_next_step (c : store_conc) t rest t' m' :
  leaving t → c_pending c ≡ₚ t :: rest → leave_next t (c_mem c) = (t', m') →
  ∃ c', SignalStore.step c c' ∧ c_mem c' = m' ∧ c_pending c' ≡ₚ option_list t' ++ rest ∧
    c_joined c' = c_joined c ∧ (∀ u, t' = Some u → leaving u).
Proof.
  intros Ht Hp Hl. destruct (pending_at c t rest Hp) as (ps1 & ps2 & E & Hrest).
  destruct c as [m ps js]. cbn in *. subst ps.
  assert (∀ u : pending, ps1 ++ u :: ps2 ≡ₚ u :: rest) as Hu by (intros u; by rewrite <- Permutation_middle, Hrest).
  destruct t as [?|peer svc|peer mp empty|peer]; [done| | |]; cbn in Hl.
  - destruct (leave_remove peer svc m) as [r m1] eqn:Hr. injection Hl as <- <-.
    eexists. split; [by apply step_leave2|]. destruct r as [[mp empty]|]; cbn; split_and!; try done.
    by intros u [= <-].
  - injection Hl as <- <-. eexists. split; [by apply step_leave3|]. destruct empty; cbn; split_and!; try done.
    by intros u [= <-].
  - injection Hl as <- <-. eexists. split; [by apply step_leave4|]. by split_and!.
Qed.

(** The first section of a [Leave]. *)
Lemma leave_start_step (c : store_conc) peer :
  ∃ c', rtc SignalStore.step c c' ∧ c_mem c' = c_mem c ∧ c_joined c' = c_joined c ∧
    c_pending c' = option_list (leave_start peer (c_mem c)) ++ c_pending c ∧
    (∀ u, leave_start peer (c_mem c) = Some u → leaving u).
Proof.
  unfold leave_start. destruct c as [m ps js]. cbn. destruct (services m !! SignalStore.Service peer) as [svc|] eqn:E.
  - eexists. split; [by apply rtc_once, step_leave1|]. cbn. split_and!; try done. by intros u [= <-].
  - eexists. split; [apply rtc_refl|]. by split_and!.
Qed.

Lemma serveHTTP_ok r upgraded : handler_ok v (serveHTTP v r upgraded) ∧ phase_pending (h_phase (serveHTTP v r upgraded)) = None.
Proof.
  unfold serveHTTP, handler_ok, authorized, AuthorizeRequest. cbn. destruct v as [v1|]; [|by destruct upgraded].
  destruct (Validate v1 (tokenFromRequest r)) eqn:E; [by destruct upgraded|]. cbn. split; [|done].
  split; [done|]. split_and!; [done|done|by destruct (Upgrade r)|done].
Qed.

Lemma sim_request n c r upgraded :
  sim v n c → sim v {| nd_mem := nd_mem n; nd_handlers := nd_handlers n ++ [serveHTTP v r upgraded] |} c.
Proof.
  intros [Hm Hp Hs Hj Hh]. destruct (serveHTTP_ok r upgraded) as [Hok Hnone]. split; cbn; [done| | | |].
  - unfold pendings in *. rewrite omap_app. cbn [omap list_omap]. by rewrite Hnone, app_nil_r.
  - intros i h ps [Hi|(_ & Hi)]%lookup_app_Some; [by eapply Hs|].
    apply list_lookup_singleton_Some in Hi as [_ <-]. done.
  - intros ps Hin. destruct (Hj ps Hin) as (i & h & Hi & E). exists i, h. split; [by apply lookup_app_l_Some|done].
  - intros i h [Hi|(_ & Hi)]%lookup_app_Some; [by eapply Hh|].
    by apply list_lookup_singleton_Some in Hi as [_ <-].
Qed.
End sim.

Section reach.
Context `{Codec Pb.SignalMessage} {V : Type} `{!TokenValidator V} (v : option V).

Lemma sim_announce n c i h r ph m' :
  sim v n c → nd_handlers n !! i = Some h → h_phase h = HAnnounce →
  (ph, m') = match announced r with
             | None => (HReturned, nd_mem n)
             | Some peer => let '(svc, m) := serviceForJoin (SignalStore.Service peer) (nd_mem n) in
                            (HJoining peer svc, m)
             end →
  ∃ c', rtc SignalStore.step c c' ∧
    sim v {| nd_mem := m'; nd_handlers := <[i := to_phase ph h]> (nd_handlers n) |} c'.
Proof.
  intros HS Hi Hph E. pose proof (sim_handlers _ _ _ HS i h Hi) as [_ Hok]. rewrite Hph in Hok.
  pose proof (sim_mem _ _ _ HS) as Hm. unfold announced in E.
  destruct (server_readFrame r) as [msg|err]; cbn in E.
  2: { injection E as -> ->. exists c. split; [apply rtc_refl|].
       apply (sim_move v n c i h); try done; [by rewrite Hph|split; [done|apply Hok]|by left]. }
  destruct (Pb.GetAnnounce msg) as [a|]; cbn in E.
  2: { injection E as -> ->. exists c. split; [apply rtc_refl|].
       apply (sim_move v n c i h); try done; [by rewrite Hph|split; [done|apply Hok]|by left]. }
  case_bool_decide as E1; cbn in E; [|case_bool_decide as E2; cbn in E].
  1, 2: injection E as -> ->; exists c; (split; [apply rtc_refl|]);
    (apply (sim_move v n c i h); try done; [by rewrite Hph|split; [done|apply Hok]|by left]).
  destruct (serviceForJoin (Pb.Service msg) (nd_mem n)) as [svc m] eqn:Ej. injection E as -> ->.
  destruct c as [m0 ps js]. cbn in Hm. subst m0. eexists. split.
  { apply rtc_once, (step_join1 {| ID := Pb.PeerId a; SignalStore.Service := Pb.Service msg |}); done. }
  eapply sim_move; [exact HS|exact Hi|done| |done|split; [done|exact Hok]|by left].
  rewrite Hph. cbn. intros rest ->. done.
Qed.

Lemma sim_join n c i h peer svc r m' :
  sim v n c → nd_handlers n !! i = Some h → h_phase h = HJoining peer svc →
  join_insert peer svc (nd_mem n) = (r, m') →
  ∃ c', rtc SignalStore.step c c' ∧
    sim v {| nd_mem := m'; nd_handlers := <[i := match r with inl sx => start_serving peer sx h
                                                 | inr _ => to_phase HReturned h end]> (nd_handlers n) |} c'.
Proof.
  intros HS Hi Hph Hj. pose proof (sim_handlers _ _ _ HS i h Hi) as [_ Hok]. rewrite Hph in Hok.
  destruct (pendings_insert (nd_handlers n) i h h Hi) as (rest & P1 & _). rewrite Hph in P1. cbn in P1.
  rewrite <- (sim_pending _ _ _ HS) in P1.
  destruct (pending_at c _ rest P1) as (ps1 & ps2 & E & Hrest).
  pose proof (sim_mem _ _ _ HS) as Hm. rewrite <- Hm in Hj. destruct c as [m0 ps js]. cbn in *. subst ps.
  eexists. split; [by eapply rtc_once, step_join2|].
  assert (∀ rest', ps1 ++ PJoin peer svc :: ps2 ≡ₚ PJoin peer svc :: rest' → ps1 ++ ps2 ≡ₚ rest') as Hperm.
  { intros rest' Hr. rewrite <- Permutation_middle in Hr. by apply Permutation_cons_inv in Hr. }
  eapply sim_move; [exact HS|exact Hi|done|..].
  - rewrite Hph. cbn. intros rest' Hr. destruct r; cbn; by apply Hperm.
  - by destruct r.
  - destruct r; (split; [done|]); cbn; [split; [apply Hok|by eexists]|apply Hok].
  - destruct r as [sx|e]; [right|by left]. exists (peer, sx). split; [apply Hok|done].
Qed.

Lemma sim_step n n' c :
  sim v n c → node_step v n n' → ∃ c', rtc SignalStore.step c c' ∧ sim v n' c'.
Proof.
  intros HS Hstep. pose proof (sim_mem _ _ _ HS) as Hm.
  destruct Hstep as [r upgraded|i h r ph m' Hi Hph E|i h peer svc r m' Hi Hph Hj|i h peer sx r msg u m' Hi Hph Hse Hr Hsend
    |i h peer sx r err p Hi Hph Hse Hr Hp|i h t t' m' Hi Hph Hl|i h peer sx out m' Hi Hpu Hse Hw
    |i h peer sx out m' Hi Hpu Hse Hw|i h peer sx Hi Hph Hpu Hse|i h t t' m' Hi Hph Hl];
    try (pose proof (sim_handlers _ _ _ HS i h Hi) as [Hpo Hok]; pose proof (sim_session _ _ _ HS i h) as Hjo).
  - exists c. split; [apply rtc_refl|by apply sim_request].
  - by eapply sim_announce.
  - by eapply sim_join.
  - rewrite <- Hm in Hsend. destruct c as [m ps js]. cbn in *. eexists. split; [by eapply rtc_once, step_send; [apply Hjo|]|].
    destruct HS as [_ Hpd Hs Hj Hh]. by split.
  - rewrite Hph in Hok. destruct (leave_start_step c p) as (c' & Hc & Em & Ej & Ep & Hu). rewrite Hm in *.
    exists c'. split; [done|]. eapply sim_move; [exact HS|exact Hi|done| |done| |by left].
    + intros rest Hre. rewrite Hph in Hre. rewrite Ep, Hre. by destruct (leave_start p (nd_mem n)).
    + destruct (leave_start p (nd_mem n)); (split; [|exact Hok]); [by apply Hu|done].
  - rewrite Hph in Hok, Hpo. destruct (pendings_insert (nd_handlers n) i h h Hi) as (rest & P1 & _).
    rewrite <- (sim_pending _ _ _ HS), Hph in P1. rewrite <- Hm in Hl.
    destruct (leave_next_step c t rest t' m' Hpo P1 Hl) as (c' & Hc & Em & Ep & Ej & Hu).
    exists c'. split; [by apply rtc_once|]. eapply sim_move; [exact HS|exact Hi|done| |done| |by left].
    + rewrite Hph. cbn. intros rest' Hr. rewrite Ep. rewrite P1 in Hr. cbn in Hr.
      apply Permutation_cons_inv in Hr. rewrite Hr. by destruct t'.
    + destruct t'; (split; [|exact Hok]); [by apply Hu|done].
  - apply bind_Some in Hw as ([r m1] & Hw & [= _ <-]). rewrite <- Hm in Hw. destruct c as [m ps js]. cbn in *.
    eexists. split; [by eapply rtc_once, step_recv|]. destruct HS as [_ Hpd Hs Hj Hh]. by split.
  - apply bind_Some in Hw as ([r m1] & Hw & [= _ <-]). rewrite <- Hm in Hw. destruct c as [m ps js]. cbn in Hm, Hw.
    eexists. split; [by eapply rtc_once, step_recv|].
    eapply sim_move; [exact HS|exact Hi|done|by intros rest|done|by split|by left].
  - rewrite Hph in Hok. destruct (leave_start_step c peer) as (c' & Hc & Em & Ej & Ep & Hu). rewrite Hm in *.
    exists c'. split; [done|]. eapply sim_move; [exact HS|exact Hi|done| |done| |by left].
    + intros rest Hre. rewrite Hph in Hre. rewrite Ep, Hre. by destruct (leave_start peer (nd_mem n)).
    + destruct (leave_start peer (nd_mem n)); (split; [|first [exact Hok|apply Hok]]); [by apply Hu|done].
  - rewrite Hph in Hok, Hpo. destruct (pendings_insert (nd_handlers n) i h h Hi) as (rest & P1 & _).
    rewrite <- (sim_pending _ _ _ HS), Hph in P1. rewrite <- Hm in Hl.
    destruct (leave_next_step c t rest t' m' Hpo P1 Hl) as (c' & Hc & Em & Ep & Ej & Hu).
    exists c'. split; [by apply rtc_once|]. eapply sim_move; [exact HS|exact Hi|done| |done| |by left].
    + rewrite Hph. cbn. intros rest' Hr. rewrite Ep. rewrite P1 in Hr. cbn in Hr.
      apply Permutation_cons_inv in Hr. rewrite Hr. by destruct t'.
    + destruct t'; (split; [|first [exact Hok|apply Hok]]); [by apply Hu|done].
Qed.

(** Every state of the server is one of the concurrent store. *)
Lemma node_simulates n : node_reachable v n → ∃ c, SignalStore.reachable c ∧ sim v n c.
Proof.
  revert n. apply (rtc_ind_r (λ n, ∃ c, SignalStore.reachable c ∧ sim v n c)).
  - exists conc_init. split; [apply rtc_refl|]. split; cbn; try done.
    intros ps H0. by apply elem_of_nil in H0.
  - intros n n' _ Hs (c & Hc & HS). destruct (sim_step n n' c HS Hs) as (c' & Hc' & HS').
    exists c'. split; [|done]. unfold SignalStore.reachable in *. by etrans.
Qed.
End reach.

(** ** Where the store's contents come from *)

(** A peer in a service object, or a message in an inbox, is that of a session. *)
Record provenance (c : store_conc) : Prop := {
  pv_member s id l : member (c_mem c) s id l → ∃ peer sx,
    (peer, sx) ∈ c_joined c ∧ ID peer = id ∧ sx_peer sx = l ∧ sx_service sx = s;
  pv_inbox l p msg : peer_heap (c_mem c) !! l = Some p → msg ∈ mp_inbox p → ∃ peer sx,
    (peer, sx) ∈ c_joined c ∧ ID peer = sm_SenderID msg ∧ SignalStore.Service peer = sm_Service msg }.

(** Steps that add no peer and no message. *)
Lemma provenance_less c c' :
  provenance c → (∀ ps, ps ∈ c_joined c → ps ∈ c_joined c') →
  (∀ s id l, member (c_mem c') s id l → member (c_mem c) s id l) →
  (∀ l p, peer_heap (c_mem c') !! l = Some p → mp_inbox p = [] ∨
     ∃ p0, peer_heap (c_mem c) !! l = Some p0 ∧ ∀ msg, msg ∈ mp_inbox p → msg ∈ mp_inbox p0) →
  provenance c'.
Proof.
  intros [Hm Hi] Hj Hmem Hin. split.
  - intros s id l (peer & sx & ? & ?)%Hmem%Hm. exists peer, sx. auto.
  - intros l p msg Hp Hmsg. destruct (Hin l p Hp) as [E|(p0 & Hp0 & Hsub)]; [by rewrite E in Hmsg; apply elem_of_nil in Hmsg|].
    destruct (Hi l p0 msg Hp0 (Hsub _ Hmsg)) as (peer & sx & ? & ?). exists peer, sx. auto.
Qed.

Lemma broadcast_from from msg ps : ∀ (m : WMemory) r m' l p x,
  broadcast from msg ps m = (r, m') → peer_heap m' !! l = Some p → x ∈ mp_inbox p →
  x = msg ∨ ∃ p0, peer_heap m !! l = Some p0 ∧ x ∈ mp_inbox p0.
Proof.
  induction ps as [|[id l0] ps IH]; intros m r m' l p x; cbn [broadcast].
  { intros [= _ <-] Hp Hx. right. by exists p. }
  case_bool_decide; [by apply IH|]. destruct (peer_heap m !! l0) as [p1|] eqn:Hp1; [|by apply IH].
  unfold push. destruct (mp_inboxClosed p1); [intros [= _ <-] Hp Hx; right; by exists p|].
  destruct (decide _); intros Hb Hp Hx; destruct (IH _ _ _ _ _ _ Hb Hp Hx) as [?|(p0 & Hp0 & Hx0)]; try by left.
  all: cbn in Hp0; apply lookup_insert_Some in Hp0 as [(<- & <-)|(_ & Hp0)]; [|right; by exists p0].
  - cbn in Hx0. apply elem_of_app in Hx0 as [Hx0| ->%list_elem_of_singleton]; [right; by exists p1|by left].
  - right. by exists p1.
Qed.

Lemma set_peer_member l p (m : WMemory) s id l' : member (set_peer l p m) s id l' ↔ member m s id l'.
Proof. done. Qed.

Lemma provenance_step (c c' : store_conc) :
  SInv c → provenance c → SignalStore.step c c' → provenance c'.
Proof.
  intros (names & HWF & Hpd & Hjs) HP Hstep.
  destruct Hstep as [peer m ps js s m' _ _ E|peer s m ps1 ps2 js r m' E|peer s m ps js _
    |peer s m ps1 ps2 js r m' E|peer mp e m ps1 ps2 js|peer m ps1 ps2 js
    |peer sx body m ps js r m' Hin E|mp m ps js r m' E]; cbn in *.
  - apply (provenance_less _ _ HP); cbn; [done| |].
    + unfold serviceForJoin in E. destruct (services m !! _) as [l0|]; injection E as _ <-; [done|].
      intros s1 id l (x & Hs1 & Hid). cbn in Hs1. apply lookup_insert_Some in Hs1 as [(_ & <-)|(_ & Hs1)];
        [by rewrite lookup_empty in Hid|by exists x].
    + unfold serviceForJoin in E. destruct (services m !! _) as [l0|]; injection E as _ <-; cbn; intros l p Hp; right; by exists p.
  - unfold join_insert in E. destruct (peers_of s m !! ID peer) as [l0|]; [|destruct (decide _) as [Hfull|Hfull]].
    1, 2: injection E as <- <-; apply (provenance_less _ _ HP); cbn; try done; intros l p Hp; right; by exists p.
    injection E as <- <-. destruct HP as [Hm Hi]. split; cbn in *.
    + intros s1 id l (x & Hs1 & Hid). cbn in Hs1. apply lookup_insert_Some in Hs1 as [(<- & <-)|(_ & Hs1)].
      * apply lookup_insert_Some in Hid as [(<- & <-)|(_ & Hid)].
        -- eexists _, _. split; [apply list_elem_of_here|done].
        -- apply peers_of_member in Hid. destruct (Hm _ _ _ Hid) as (p & sx & ? & ?).
           exists p, sx. split; [by apply list_elem_of_further|done].
      * destruct (Hm s1 id l) as (p & sx & ? & ?); [by exists x|]. exists p, sx. split; [by apply list_elem_of_further|done].
    + intros l p msg [(<- & <-)|(_ & Hp)]%lookup_insert_Some Hmsg; [by apply elem_of_nil in Hmsg|].
      destruct (Hi l p msg Hp Hmsg) as (q & sx & ? & ?). exists q, sx. split; [by apply list_elem_of_further|done].
  - apply (provenance_less _ _ HP); cbn; try done. intros l p Hp. right. by exists p.
  - apply (provenance_less _ _ HP); cbn; [done| |].
    + unfold leave_remove in E. destruct (peers_of s m !! ID peer) as [l0|]; injection E as _ <-; [|done].
      intros s1 id l (x & Hs1 & Hid). cbn in Hs1. apply lookup_insert_Some in Hs1 as [(<- & <-)|(_ & Hs1)]; [|by exists x].
      apply lookup_delete_Some in Hid as [_ Hid]. by apply peers_of_member.
    + unfold leave_remove in E. destruct (peers_of s m !! ID peer) as [l0|]; injection E as _ <-; cbn; intros l p Hp; right; by exists p.
  - unfold close_inbox. destruct (peer_heap m !! mp) as [p0|] eqn:Hp0; [destruct (mp_inboxClosed p0)|].
    2: { apply (provenance_less _ _ HP); cbn; try done.
         intros l p [(<- & <-)|(_ & Hp)]%lookup_insert_Some; right; [by exists p0|by exists p]. }
    all: apply (provenance_less _ _ HP); cbn; try done; intros l p Hp; right; by exists p.
  - unfold leave_gc. destruct (services m !! _) as [l0|]; [destruct (decide _) as [He|He]|];
      apply (provenance_less _ _ HP); cbn; try done; intros l p Hp; right; by exists p.
  - rewrite Forall_forall in Hjs. destruct (Hjs _ Hin) as [Hna (p0 & Hp0 & Eid & Esv)]. cbn in *.
    unfold SignalStore.Send in E. rewrite Hp0 in E. destruct HP as [Hm Hi]. split; cbn in *.
    + intros s1 id l (x & Hs1 & Hid). apply Hm. exists x. split; [|done].
      match type of E with broadcast ?f ?g ?h ?k = _ => pose proof (proj2 (broadcast_tables f g h k)) as Et end.
      rewrite E in Et. cbn in Et. by rewrite <- Et.
    + intros l p msg Hp Hmsg. destruct (broadcast_from _ _ _ _ _ _ _ _ _ E Hp Hmsg) as [->|(p1 & Hp1 & Hmsg1)].
      * exists peer, sx. cbn. by rewrite Eid, Esv.
      * by eapply Hi.
  - unfold Recv in E. apply bind_Some in E as (p0 & Hp0 & E). destruct (mp_inbox p0) as [|x q] eqn:Hq.
    + destruct (mp_inboxClosed p0); [|done]. injection E as _ <-. apply (provenance_less _ _ HP); cbn; try done.
      intros l p Hp. right. by exists p.
    + injection E as _ <-. apply (provenance_less _ _ HP); cbn; try done.
      intros l p [(<- & <-)|(_ & Hp)]%lookup_insert_Some; right; [|by exists p].
      exists p0. split; [done|]. rewrite Hq. cbn. intros msg Hmsg. by apply list_elem_of_further.
Qed.

Lemma reachable_provenance (c : store_conc) : SignalStore.reachable c → provenance c.
Proof.
  intros Hr. enough (SInv c ∧ provenance c) as [_ ?] by done. revert c Hr.
  apply (rtc_ind_r (λ c : store_conc, SInv c ∧ provenance c)).
  - split; [apply reachable_SInv, rtc_refl|]. split; cbn.
    + intros s id l (x & Hx & _). done.
    + done.
  - intros c c' _ Hs [HI HP]. split; [by eapply SInv_step|by eapply provenance_step].
Qed.

(** ** Properties *)

(** The handler of an admitted request that announced this peer. *)
Definition admitted_session {V} `{!TokenValidator V} (v : option V) (n : node) (peer : Peer) (sx : memorySender) : Prop :=
  ∃ i h, nd_handlers n !! i = Some h ∧ h_session h = Some (peer, sx) ∧ authorized v h.

Lemma session_admitted {V} `{!TokenValidator V} (v : option V) n c peer sx :
  sim v n c → (peer, sx) ∈ c_joined c → admitted_session v n peer sx.
Proof.
  intros HS Hin. destruct (sim_joined _ _ _ HS _ Hin) as (i & h & Hi & E). exists i, h. split_and!; [done..|].
  destruct (sim_handlers _ _ _ HS i h Hi) as [_ Hok]. destruct (h_phase h); naive_solver congruence.
Qed.

(** [C11] Nothing reaches the store but through an admitted connection, however
    the handlers of all requests, the goroutines that write to the clients and
    the sections of the store's calls interleave.  A request whose token the
    validator refuses has been answered with a 401 and stays without a session;
    a peer that is registered under a service is one that an admitted
    connection announced for it; a message waits in a peer's inbox only if an
    admitted connection announced in the same service has sent it, under its own
    id; and no frame of any connection crashes the server: every broadcast ends
    normally. *)
Theorem node_admits `{Codec Pb.SignalMessage} {V} `{!TokenValidator V} (v : option V) n :
  node_reachable v n →
  (∀ i h, nd_handlers n !! i = Some h → ¬ authorized v h →
     h_session h = None ∧ h_phase h = HRejected (AuthorizeRequest v (h_request h)).2 ∧
     (AuthorizeRequest v (h_request h)).2 ≠ NoResponse) ∧
  (∀ name id s l, services (nd_mem n) !! name = Some s → peers_of s (nd_mem n) !! id = Some l →
     ∃ peer sx, admitted_session v n peer sx ∧ ID peer = id ∧ SignalStore.Service peer = name ∧ sx_peer sx = l) ∧
  (∀ l p msg, peer_heap (nd_mem n) !! l = Some p → msg ∈ mp_inbox p →
     ∃ peer sx, admitted_session v n peer sx ∧ ID peer = sm_SenderID msg ∧
       SignalStore.Service peer = mp_service p) ∧
  (∀ i h peer sx body, nd_handlers n !! i = Some h → h_session h = Some (peer, sx) →
     ∃ m', WSend sx body (nd_mem n) = (Ok tt, m')).
Proof.
  intros Hn. destruct (node_simulates v n Hn) as (c & Hc & HS). pose proof (sim_mem _ _ _ HS) as Hm.
  destruct (reachable_provenance c Hc) as [Pm Pi]. destruct (reachable_SInv c Hc) as (names & HWF & _ & Hjs).
  rewrite Hm in *. rewrite Forall_forall in Hjs. split_and!.
  - intros i h Hi Hno. destruct (sim_handlers _ _ _ HS i h Hi) as [_ Hok].
    destruct (h_phase h) eqn:Hph; naive_solver.
  - intros name id s l Hs Hl%peers_of_member. destruct (Pm s id l Hl) as (peer & sx & Hin & <- & <- & <-).
    exists peer, sx. split; [by eapply session_admitted|]. split; [done|]. split; [|done].
    destruct (Hjs _ Hin) as [Hna _]. pose proof (wf_services _ _ HWF _ _ Hs) as Hna'. cbn in Hna. congruence.
  - intros l p msg Hp Hmsg. destruct (Pi l p msg Hp Hmsg) as (peer & sx & Hin & ? & Hsv).
    exists peer, sx. split; [by eapply session_admitted|]. split; [done|]. rewrite Hsv.
    pose proof (wf_peer _ _ HWF _ _ Hp) as [_ [_ Hall]]. rewrite Forall_forall in Hall.
    by destruct (Hall _ Hmsg).
  - intros i h peer sx body Hi Hse. pose proof (sim_session _ _ _ HS i h _ Hi Hse) as Hin.
    destruct (WF_Send names peer sx body (nd_mem n) HWF (Hjs _ Hin)) as (m' & E & _). by exists m'.
Qed.

(** Two clients with the token "t" announce themselves and the first sends an
    offer; a third request has the wrong token. *)
Definition node_validator : StaticValidator :=
  {| Identities := {[ go "t" := {| id_Subject := go "dev"; id_Service := [] |} ]} |}.

Definition node_request (token : string) : request :=
  {| Authorization := go "Bearer " ++ go token; RawQuery := []; Upgrade := true |}.

Definition node_frame `{Codec Pb.SignalMessage} (pb : Pb.SignalMessage) : SignalWire.ws_read :=
  inl (ex_bytes (writeFrame pb)).

#[local] Instance node_codec : Codec Pb.SignalMessage :=
  table_codec [ex_announce_pb "a"; ex_announce_pb "b"; ex_offer_pb "x"].

(** A step of the [i]-th handler, which reads [r] if it reads. *)
Definition handler_next (i : nat) (r : SignalWire.ws_read) (n : node) : option node :=
  h ← nd_handlers n !! i;
  match h_phase h with
  | HAnnounce =>
      let '(ph, m') := match announced r with
                       | None => (HReturned, nd_mem n)
                       | Some peer => let '(svc, m) := serviceForJoin (SignalStore.Service peer) (nd_mem n) in
                                      (HJoining peer svc, m)
                       end in
      Some {| nd_mem := m'; nd_handlers := <[i := to_phase ph h]> (nd_handlers n) |}
  | HJoining peer svc =>
      let '(r, m') := join_insert peer svc (nd_mem n) in
      Some {| nd_mem := m'; nd_handlers := <[i := match r with inl sx => start_serving peer sx h
                                                          | inr _ => to_phase HReturned h end]> (nd_handlers n) |}
  | HServing =>
      match h_session h, server_readFrame r with
      | Some (peer, sx), inl msg =>
          match WSend sx (Pb.with_Service (SignalStore.Service peer) msg) (nd_mem n) with
          | (Ok _, m') => Some {| nd_mem := m'; nd_handlers := nd_handlers n |}
          | _ => None
          end
      | _, _ => None
      end
  | _ => None
  end.

Lemma handler_next_step {V} `{!TokenValidator V} (v : option V) i r n n' :
  handler_next i r n = Some n' → node_step v n n'.
Proof.
  unfold handler_next. intros (h & Hi & Hn)%bind_Some. destruct (h_phase h) eqn:Hph; try done.
  - destruct (match announced r with None => _ | Some peer => _ end) as [ph m'] eqn:E. injection Hn as <-.
    by eapply n_announce.
  - destruct (join_insert peer svc (nd_mem n)) as [r0 m'] eqn:E. injection Hn as <-. by eapply n_join.
  - destruct (h_session h) as [[peer sx]|] eqn:Hse; [|done]. destruct (server_readFrame r) as [msg|] eqn:Hr; [|done].
    destruct (WSend _ _ _) as [[u| |] m'] eqn:E; try done. injection Hn as <-. by eapply n_read.
Qed.

Definition node_requests : node :=
  {| nd_mem := NewMemory;
     nd_handlers := serveHTTP (Some node_validator) (node_request "t") true ::
       [serveHTTP (Some node_validator) (node_request "t") true;
        serveHTTP (Some node_validator) (node_request "u") true] |}.

Definition node_moves : list (nat * Pb.SignalMessage) :=
  [(0%nat, ex_announce_pb "a"); (0%nat, ex_announce_pb "a"); (1%nat, ex_announce_pb "b");
   (1%nat, ex_announce_pb "b"); (0%nat, ex_offer_pb "x")].

Definition node_after : option node :=
  foldl (λ n mv, n ← n; handler_next mv.1 (node_frame mv.2) n) (Some node_requests) node_moves.

Lemma node_after_reachable n : node_after = Some n → node_reachable (Some node_validator) n.
Proof.
  assert (node_reachable (Some node_validator) node_requests) as H0.
  { unfold node_reachable. eapply rtc_l; [apply (n_request _ _ (node_request "t") true)|].
    eapply rtc_l; [apply (n_request _ _ (node_request "t") true)|].
    eapply rtc_l; [apply (n_request _ _ (node_request "u") true)|]. apply rtc_refl. }
  unfold node_after. revert H0. generalize node_requests, node_moves. intros n0 mvs. revert n0.
  induction mvs as [|mv mvs IH]; intros n0 Hn0; cbn [foldl]; [by intros [= <-]|].
  cbn [mbind option_bind]. destruct (handler_next mv.1 (node_frame mv.2) n0) as [n1|] eqn:E.
  - apply IH. eapply rtc_r; [exact Hn0|]. by eapply handler_next_step.
  - assert (∀ l, foldl (λ n mv, n ← n; handler_next mv.1 (node_frame mv.2) n) None l = None) as ->; [|done].
    intros l. induction l; [done|]. by cbn.
Qed.

Lemma node_admits_witness :
  ∃ n h p msg, node_reachable (Some node_validator) n ∧
    nd_handlers n !! 2%nat = Some h ∧ h_session h = None ∧
    peer_heap (nd_mem n) !! 2%nat = Some p ∧ mp_inbox p = [msg] ∧ sm_SenderID msg = "a"%string ∧
    ∃ peer sx, admitted_session (Some node_validator) n peer sx ∧ ID peer = sm_SenderID msg ∧
      SignalStore.Service peer = mp_service p.
Proof.
  destruct node_after as [n|] eqn:E; [|by vm_compute in E]. pose proof (node_after_reachable n E) as Hn.
  destruct (node_admits (Some node_validator) n Hn) as (H1 & _ & H3 & _).
  vm_compute in E. injection E as E.
  destruct (nd_handlers n !! 2%nat) as [h|] eqn:Hh; [|by rewrite <- E in Hh].
  destruct (peer_heap (nd_mem n) !! 2%nat) as [p|] eqn:Hp; [|by rewrite <- E in Hp].
  assert (∃ msg, mp_inbox p = [msg] ∧ sm_SenderID msg = "a"%string) as (msg & Hi & Hid).
  { rewrite <- E in Hp. vm_compute in Hp. injection Hp as <-. by eexists. }
  exists n, h, p, msg. split; [done|]. split; [done|]. split.
  { apply (H1 2%nat h Hh). rewrite <- E in Hh. vm_compute in Hh. injection Hh as <-. by vm_compute. }
  split; [done|]. split; [done|]. split; [done|].
  apply (H3 2%nat p msg Hp). rewrite Hi. apply list_elem_of_here.
Defined.
