(* ===== verification/Crypto.v ===== *)
(** * The encrypted channel (crypto/crypto.go)

    Key derivation, sealing and opening of frames, over the primitives of
    crypto/aes, crypto/cipher, crypto/ecdh and hkdf, which are parameters. *)

From Stdlib Require Import Strings.Byte ZArith Lia.
From stdpp Require Import numbers strings list pretty.
From S2P Require Import Prelude.
Open Scope Z_scope.

(** ** Primitives *)

Class Primitives (PrivateKey PublicKey : Type) : Type := {
  public : PrivateKey → PublicKey;
  ECDH : PrivateKey → PublicKey → bytes + error;
  hkdf_read : bytes → string → nat → bytes + error;      (* secret, info, length *)
  Seal : bytes → bytes → bytes → bytes;                  (* key, nonce, plaintext *)
  Open_ : bytes → bytes → bytes → bytes + error }.       (* key, nonce, ciphertext *)

(** What their documentation promises. *)
Class PrimitiveLaws (PrivateKey PublicKey : Type) `{Primitives PrivateKey PublicKey} : Prop := {
  ECDH_comm a b : ECDH a (public b) = ECDH b (public a);
  hkdf_length secret info n out : hkdf_read secret info n = inl out → length out = n;
  Open_Seal key nonce p : Open_ key nonce (Seal key nonce p) = inl p;
  Seal_length key nonce p : length (Seal key nonce p) = (length p + 16)%nat }.

Definition NonceSize : nat := 12.
Definition KeySize : nat := 32.

Section crypto.
Context {PrivateKey PublicKey : Type} `{Primitives PrivateKey PublicKey}.

(** ** EncryptedChannel *)

(** [gcm] is determined by its key. *)
Record EncryptedChannel : Type := { ec_key : bytes; ec_prefix : bytes; ec_counter : Z }.

Definition NewEncryptedChannel (key noncePrefix : bytes) : EncryptedChannel + error :=
  if negb (Nat.eqb (length key) KeySize)
  then inr (ErrorString ("crypto: key must be 32 bytes, got " +:+ pretty (length key)))
  else inl {| ec_key := key; ec_prefix := noncePrefix; ec_counter := 0 |}.

(** The nonce of a counter value. *)
Definition nonce_of (prefix : bytes) (counter : Z) : bytes := prefix ++ be32 (uint32 counter).

Definition Encrypt (plaintext : bytes) (ec : EncryptedChannel) : bytes * EncryptedChannel :=
  let counter := uint64 (ec_counter ec + 1) in
  let nonce := nonce_of (ec_prefix ec) counter in
  let ciphertext := Seal (ec_key ec) nonce plaintext in
  let nonceTail := drop 8 nonce in
  let totalLen := len nonceTail + len ciphertext in
  (be32 (uint32 totalLen) ++ nonceTail ++ ciphertext,
   {| ec_key := ec_key ec; ec_prefix := ec_prefix ec; ec_counter := counter |}).

(** The slice [wire[4 : 4+totalLen]] adds in 32 bits, and panics when the sum
    wraps. *)
Definition Decrypt (wire : bytes) (ec : EncryptedChannel) : res bytes :=
  match wire with
  | b0 :: b1 :: b2 :: b3 :: rest =>
      let totalLen := of_be32 b0 b1 b2 b3 in
      if len wire <? 4 + totalLen then Fail (ErrorString "crypto: wire truncated")
      else if uint32 (4 + totalLen) <? 4 then Panic "slice bounds out of range"
      else
        let body := take (Z.to_nat (uint32 (4 + totalLen) - 4)) rest in
        if len body <? 4 then Fail (ErrorString "crypto: body too short for nonce tail")
        else
          let nonceTail := take 4 body in
          let ciphertext := drop 4 body in
          match Open_ (ec_key ec) (ec_prefix ec ++ nonceTail) ciphertext with
          | inr err => Fail (wrapf "crypto: GCM decrypt failed: " err)
          | inl plaintext => Ok plaintext
          end
  | _ => Fail (ErrorString "crypto: wire too short for length prefix")
  end.

(** ** DeriveKey *)

Definition DeriveKey (priv : PrivateKey) (peerPub : PublicKey) (info : string) : bytes * bytes + error :=
  match ECDH priv peerPub with
  | inr err => inr (wrapf "crypto: ECDH: " err)
  | inl shared =>
      match hkdf_read shared info (KeySize + 8) with
      | inr err => inr (wrapf "crypto: HKDF: " err)
      | inl out => inl (take KeySize out, drop KeySize out)
      end
  end.

(** ** Frames of a channel *)

(** The wire form of [p] under a counter value. *)
Definition frame_at (key prefix : bytes) (counter : Z) (p : bytes) : bytes :=
  let c := Seal key (nonce_of prefix counter) p in
  be32 (uint32 (4 + len c)) ++ be32 (uint32 counter) ++ c.

Arguments frame_at : simpl never.

Fixpoint encrypt_all (ps : list bytes) (ec : EncryptedChannel) : list bytes * EncryptedChannel :=
  match ps with
  | [] => ([], ec)
  | p :: ps =>
      let '(w, ec) := Encrypt p ec in let '(ws, ec) := encrypt_all ps ec in (w :: ws, ec)
  end.

Lemma Encrypt_frame p ec :
  length (ec_prefix ec) = 8%nat →
  (Encrypt p ec).1 = frame_at (ec_key ec) (ec_prefix ec) (uint64 (ec_counter ec + 1)) p.
Proof.
  intros Hp. unfold Encrypt, frame_at, nonce_of. cbn [fst].
  by rewrite drop_app_length' by done.
Qed.

Lemma uint32_mod z : uint32 (uint64 z) = uint32 z.
Proof.
  unfold uint32, uint64. zconsts. rewrite Z.mod_mod_divide; [done|].
  exists 4294967296. lia.
Qed.

Lemma uint32_add a b : uint32 (uint64 a + b) = uint32 (a + b).
Proof.
  unfold uint32. rewrite Zplus_mod. change (uint64 a mod two32) with (uint32 (uint64 a)).
  rewrite uint32_mod. symmetry. apply Zplus_mod.
Qed.

Lemma frame_at_mod key prefix a b p :
  uint32 a = uint32 b → frame_at key prefix a p = frame_at key prefix b p.
Proof. intros Hab. unfold frame_at, nonce_of. by rewrite Hab. Qed.

Lemma encrypt_all_lookup ps ec i p :
  length (ec_prefix ec) = 8%nat → ps !! i = Some p →
  (encrypt_all ps ec).1 !! i = Some (frame_at (ec_key ec) (ec_prefix ec) (ec_counter ec + 1 + Z.of_nat i) p).
Proof.
  revert ec i. induction ps as [|q ps IH]; intros ec i Hp Hi; [done|]. cbn [encrypt_all].
  pose proof (Encrypt_frame q ec Hp) as He. destruct (Encrypt q ec) as [w ec'] eqn:Heq.
  assert (ec' = {| ec_key := ec_key ec; ec_prefix := ec_prefix ec;
                   ec_counter := uint64 (ec_counter ec + 1) |}) as -> by (by injection Heq).
  cbn [fst] in He. subst w.
  specialize (IH {| ec_key := ec_key ec; ec_prefix := ec_prefix ec;
                    ec_counter := uint64 (ec_counter ec + 1) |}).
  destruct (encrypt_all ps _) as [ws ec''] eqn:Hws.
  cbn [fst ec_key ec_prefix ec_counter] in *.
  destruct i as [|i].
  - injection Hi as ->. apply (f_equal Some), frame_at_mod.
    rewrite uint32_mod. f_equal. lia.
  - etrans; [exact (IH i Hp Hi)|]. apply (f_equal Some), frame_at_mod.
    rewrite <- Z.add_assoc, uint32_add. f_equal. lia.
Qed.

Lemma Decrypt_frame `{!PrimitiveLaws PrivateKey PublicKey} ec counter p :
  len p + 24 < two32 →
  Decrypt (frame_at (ec_key ec) (ec_prefix ec) counter p) ec = Ok p.
Proof.
  intros Hlt. pose proof (len_nonneg p). unfold frame_at.
  set (nonce := nonce_of _ _). set (c := Seal _ nonce p).
  assert (len c = len p + 16) as Hc by (unfold len, c; rewrite Seal_length; lia).
  unfold be32 at 1. cbn [app]. unfold Decrypt. rewrite of_be32_be32.
  rewrite !(uint32_id (4 + len c)) by (zconsts; lia).
  rewrite !len_cons, len_app, len_be32.
  ltb_false.
  rewrite (uint32_id (4 + (4 + len c))) by (zconsts; lia).
  ltb_false. cbv zeta.
  rewrite take_ge by (rewrite length_app, length_be32; unfold len in *; lia).
  rewrite len_app, len_be32. ltb_false.
  rewrite take_app_length', drop_app_length' by done.
  change (ec_prefix ec ++ be32 (uint32 counter)) with nonce.
  unfold c. by rewrite Open_Seal.
Qed.
End crypto.

(** ** Properties *)

(** The two ends of a session: each derives its channel from its own private
    key and the other's public key. *)
Definition session_end `{Primitives PrivateKey PublicKey} (priv peer : PrivateKey) (info : string)
    : EncryptedChannel + error :=
  match DeriveKey priv (public peer) info with
  | inr err => inr err
  | inl (key, prefix) => NewEncryptedChannel key prefix
  end.

Lemma session_end_inv `{PrimitiveLaws PrivateKey PublicKey} a b info ec :
  session_end a b info = inl ec →
  length (ec_prefix ec) = 8%nat ∧ ec_counter ec = 0 ∧ session_end b a info = inl ec.
Proof.
  intros Hs. assert (session_end b a info = inl ec) as Hb.
  { unfold session_end, DeriveKey in *. by rewrite ECDH_comm. }
  split; [|split; [|done]]; unfold session_end, DeriveKey in Hs;
    destruct (ECDH a (public b)) as [shared|]; try done;
    destruct (hkdf_read shared info _) as [out|] eqn:Ho; try done;
    unfold NewEncryptedChannel in Hs; destruct (negb _); try done; injection Hs as <-; [|done].
  cbn. apply hkdf_length in Ho. by rewrite length_drop, Ho.
Qed.

(** [C37] The two ends of a session derive the same channel, and every frame
    either of them seals is opened to its plaintext by both: by the peer, in
    any order and any number of times, and by its own sender. Nothing marks a
    frame as already seen or tells the two directions apart, so a frame can be
    replayed or sent back. *)
Theorem encrypted_frames_open `{PrimitiveLaws PrivateKey PublicKey} a b info ec ps i p
    (Hs : session_end a b info = inl ec) (Hi : ps !! i = Some p) (Hp : len p + 24 < two32) :
  session_end b a info = inl ec ∧
  ∃ w, (encrypt_all ps ec).1 !! i = Some w ∧
       (∀ qs, Decrypt w (encrypt_all qs ec).2 = Ok p).
Proof.
  destruct (session_end_inv a b info ec Hs) as (Hl & _ & Hb). split; [done|].
  eexists. split; [by apply encrypt_all_lookup|]. intros qs.
  assert (∀ ec0, ec_key (encrypt_all qs ec0).2 = ec_key ec0 ∧
                 ec_prefix (encrypt_all qs ec0).2 = ec_prefix ec0) as Hk.
  { clear. induction qs as [|q qs IH]; intros ec0; [done|]. cbn [encrypt_all].
    unfold Encrypt. specialize (IH {| ec_key := ec_key ec0; ec_prefix := ec_prefix ec0;
                                      ec_counter := uint64 (ec_counter ec0 + 1) |}).
    by destruct (encrypt_all qs _). }
  destruct (Hk ec) as [Hk1 Hk2]. rewrite <- Hk1, <- Hk2. by apply Decrypt_frame.
Qed.

(** AES-GCM is used with repeated nonces. The [i]-th frames of the two ends
    of a session are sealed under the same key and the same nonce, and so are
    two frames of one end that are 2^32 apart. *)
Theorem nonces_repeat `{PrimitiveLaws PrivateKey PublicKey} a b info eca ecb ps qs i p q
    (Ha : session_end a b info = inl eca) (Hb : session_end b a info = inl ecb)
    (Hi : ps !! i = Some p) (Hj : qs !! i = Some q) :
  ∃ key nonce tag,
    (encrypt_all ps eca).1 !! i = Some (be32 (uint32 (4 + len (Seal key nonce p))) ++ tag ++ Seal key nonce p) ∧
    (encrypt_all qs ecb).1 !! i = Some (be32 (uint32 (4 + len (Seal key nonce q))) ++ tag ++ Seal key nonce q) ∧
    (∀ r, ps !! (i + Z.to_nat two32)%nat = Some r →
       (encrypt_all ps eca).1 !! (i + Z.to_nat two32)%nat =
       Some (be32 (uint32 (4 + len (Seal key nonce r))) ++ tag ++ Seal key nonce r)).
Proof.
  destruct (session_end_inv a b info eca Ha) as (Hl & Hc & Hb').
  assert (ecb = eca) as -> by congruence.
  exists (ec_key eca), (nonce_of (ec_prefix eca) (ec_counter eca + 1 + Z.of_nat i)),
    (be32 (uint32 (ec_counter eca + 1 + Z.of_nat i))).
  split; [by apply encrypt_all_lookup|]. split; [by apply encrypt_all_lookup|].
  intros r Hr. rewrite (encrypt_all_lookup _ _ _ _ Hl Hr). apply (f_equal Some).
  apply (frame_at_mod _ _ _ (ec_counter eca + 1 + Z.of_nat i)).
  unfold uint32. rewrite Nat2Z.inj_add, Z2Nat.id by done.
  replace (ec_counter eca + 1 + (Z.of_nat i + two32)) with (ec_counter eca + 1 + Z.of_nat i + 1 * two32) by lia.
  by rewrite Z_mod_plus_full.
Qed.

(** Concrete primitives: sealing appends a constant tag, keys are numbers. *)
#[local] Instance demo_primitives : Primitives Z Z := {
  public a := a;
  ECDH a b := inl (be32 (a * b));
  hkdf_read secret _ n := inl (replicate n (hd x00 (rev secret)));
  Seal _ _ p := p ++ replicate 16 x01;
  Open_ _ _ c := inl (take (length c - 16) c) }.

#[local] Instance demo_laws : PrimitiveLaws Z Z.
Proof.
  split; cbn.
  - intros a b. by rewrite Z.mul_comm.
  - intros secret _ n out [= <-]. apply length_replicate.
  - intros _ _ p. f_equal. rewrite length_app. apply take_app_length'. cbn. lia.
  - intros _ _ p. by rewrite length_app.
Qed.

Definition demo_channel : EncryptedChannel :=
  {| ec_key := replicate 32 x0f; ec_prefix := replicate 8 x0f; ec_counter := 0 |}.

Lemma encrypted_frames_open_witness :
  session_end 5 3 "" = inl demo_channel ∧
  ∃ w, (encrypt_all [[x02]; [x03]] demo_channel).1 !! 1%nat = Some w ∧
       (∀ qs, Decrypt w (encrypt_all qs demo_channel).2 = Ok [x03]).
Proof. by apply (encrypted_frames_open 3 5 "" demo_channel [[x02]; [x03]] 1 [x03]). Defined.

Lemma nonces_repeat_witness :
  ∃ key nonce tag,
    (encrypt_all [[x02]] demo_channel).1 !! 0%nat =
      Some (be32 (uint32 (4 + len (Seal key nonce [x02]))) ++ tag ++ Seal key nonce [x02]) ∧
    (encrypt_all [[x03]] demo_channel).1 !! 0%nat =
      Some (be32 (uint32 (4 + len (Seal key nonce [x03]))) ++ tag ++ Seal key nonce [x03]) ∧
    (∀ r, [[x02]] !! (0 + Z.to_nat two32)%nat = Some r →
       (encrypt_all [[x02]] demo_channel).1 !! (0 + Z.to_nat two32)%nat =
       Some (be32 (uint32 (4 + len (Seal key nonce r))) ++ tag ++ Seal key nonce r)).
Proof. by apply (nonces_repeat 3 5 "" demo_channel demo_channel [[x02]] [[x03]] 0 [x02] [x03]). Defined.
