(* ===== verification/Peer.v ===== *)
(** * Negotiation of a connection (peer/peer.go, peer/ice.go)

    The ICE helpers as functions.  [Dial] and [Accept] as programs over the
    calls of pion's PeerConnection, whose results are inputs; their runs in a
    signaling service as a transition system, where a message a peer sends
    reaches the inbox of every other peer. *)

From Stdlib Require Import ZArith Lia.
From stdpp Require Import numbers strings list relations pretty.
From S2P Require Import Prelude SignalWire.
Open Scope Z_scope.

(** ** peer/ice.go *)

Definition ICETierUnknown : Z := 0.
Definition ICETierHost : Z := 1.
Definition ICETierSrflx : Z := 2.
Definition ICETierRelay : Z := 3.

Definition tier_String (t : Z) : string :=
  if t =? ICETierHost then "host" else if t =? ICETierSrflx then "srflx"
  else if t =? ICETierRelay then "relay" else "unknown".

(** The candidate types of pion. *)
Inductive ICECandidateType : Type := CandUnknown | CandHost | CandSrflx | CandPrflx | CandRelay.

#[export] Instance ICECandidateType_eq_dec : EqDecision ICECandidateType.
Proof. solve_decision. Defined.

Definition TierForCandidateType (t : ICECandidateType) : Z :=
  match t with
  | CandHost => ICETierHost
  | CandSrflx => ICETierSrflx
  | CandRelay => ICETierRelay
  | CandPrflx => ICETierSrflx
  | CandUnknown => ICETierUnknown
  end.

Definition TierForPair (localType remoteType : ICECandidateType) : Z :=
  let l := TierForCandidateType localType in
  let r := TierForCandidateType remoteType in
  if (l =? ICETierUnknown) || (r =? ICETierUnknown) then ICETierUnknown
  else if r <? l then l else r.

Record ICEServer : Type := { URLs : list string; Username : string; Credential : string }.

Definition STUNServer (url : string) : ICEServer := {| URLs := [url]; Username := ""; Credential := "" |}.
Definition TURNServer (url username credential : string) : ICEServer :=
  {| URLs := [url]; Username := username; Credential := credential |}.

Definition ICEServersForCascade (tier : Z) (stunURL turnURL turnUser turnCred : string)
    : list ICEServer + error :=
  if tier =? ICETierHost then inl []
  else if tier =? ICETierSrflx then
    if decide (stunURL = ""%string) then inr (ErrorString "peer: srflx tier requires a stun url")
    else inl [STUNServer stunURL]
  else if tier =? ICETierRelay then
    if decide (stunURL = ""%string ∨ turnURL = ""%string)
    then inr (ErrorString "peer: relay tier requires both stun and turn urls")
    else inl [STUNServer stunURL; TURNServer turnURL turnUser turnCred]
  else inr (ErrorString ("peer: unknown ICE tier " +:+ pretty tier)).

(** ** Config *)

Record Config : Type := {
  ICEServers : option (list ICEServer);
  DataChannelLabel : string;
  NegotiationTimeout : Z }.

(** [transport.DataChannelLabel]. *)
Definition default_label : string := "peerrpc-v1".

Definition applyDefaults (c : Config) : Config :=
  {| ICEServers := Some (default [] (ICEServers c));
     DataChannelLabel := if decide (DataChannelLabel c = ""%string) then default_label else DataChannelLabel c;
     NegotiationTimeout := if NegotiationTimeout c =? 0 then 10 * 1000000000 else NegotiationTimeout c |}.

(** ** Dial and Accept

    The calls that may fail, reading the next signaling message, and the end of
    [waitForOpen]; [LocalDescription] is the SDP after gathering. *)

Inductive pion_call : Type :=
  | CreateDataChannel (label : string)
  | CreateOffer
  | CreateAnswer
  | SetLocalDescription
  | SetRemoteDescription (sdp : string)
  | waitICEGathering.

Inductive prog : Type :=
  | Return (r : unit + error)
  | Call (c : pion_call) (k : option error → prog)
  | Send (mk : string → SignalBody) (k : option error → prog)    (* of the local description *)
  | Await (pick : SignalBody → option string) (k : string + error → prog)
  | waitForOpen.

Definition offer_body (sdp : string) : SignalBody :=
  {| Announce := None; Offer := Some sdp; Answer := None; Cand := None; Leave := None; Ping := None |}.
Definition answer_body (sdp : string) : SignalBody :=
  {| Announce := None; Offer := None; Answer := Some sdp; Cand := None; Leave := None; Ping := None |}.

(** [if err := ...; err != nil { return nil, fmt.Errorf("...: %w", err) }]. *)
Definition try (pre : string) (k : prog) (err : option error) : prog :=
  match err with Some e => Return (inr (wrapf pre e)) | None => k end.

(** [waitForOffer] and [waitForAnswer]: their loop is the [Await]. *)
Definition waitForAnswer (k : string → prog) : prog :=
  Await Answer (λ r, match r with inl sdp => k sdp | inr e => Return (inr (wrapf "peer: wait answer: " e)) end).
Definition waitForOffer (k : string → prog) : prog :=
  Await Offer (λ r, match r with inl sdp => k sdp | inr e => Return (inr (wrapf "peer: wait offer: " e)) end).

(** [Dial] after the check of the role. *)
Definition dialing (cfg : Config) : prog :=
    Call (CreateDataChannel (DataChannelLabel cfg)) (try "peer: CreateDataChannel: " (
    Call CreateOffer (try "peer: CreateOffer: " (
    Call SetLocalDescription (try "peer: SetLocalDescription(offer): " (
    Call waitICEGathering (try "peer: wait ICE gathering: " (
    Send offer_body (try "peer: send offer: " (
    waitForAnswer (λ answer,
    Call (SetRemoteDescription answer) (try "peer: SetRemoteDescription(answer): "
    waitForOpen)))))))))))).

Definition Dial (role : Z) (cfg : Config) : prog :=
  if decide (role ≠ RoleClient) then Return (inr (ErrorString "peer: Dial requires RoleClient"))
  else dialing cfg.

(** [Accept] after the check of the role. *)
Definition accepting : prog :=
    waitForOffer (λ offer,
    Call (SetRemoteDescription offer) (try "peer: SetRemoteDescription(offer): " (
    Call CreateAnswer (try "peer: CreateAnswer: " (
    Call SetLocalDescription (try "peer: SetLocalDescription(answer): " (
    Call waitICEGathering (try "peer: wait ICE gathering: " (
    Send answer_body (try "peer: send answer: "
    waitForOpen)))))))))).

Definition Accept (role : Z) : prog :=
  if decide (role ≠ RoleServer) then Return (inr (ErrorString "peer: Accept requires RoleServer"))
  else accepting.

Lemma Dial_client cfg : Dial RoleClient cfg = dialing cfg.
Proof. unfold Dial. by rewrite decide_False by tauto. Qed.

Lemma Accept_server : Accept RoleServer = accepting.
Proof. unfold Accept. by rewrite decide_False by tauto. Qed.

(** ** Peers in a signaling service *)

Record party : Type := { code : prog; inbox : list SignalBody; remote : option string }.

Definition set_code (c : prog) (p : party) : party := {| code := c; inbox := inbox p; remote := remote p |}.
Definition set_inbox (q : list SignalBody) (p : party) : party := {| code := code p; inbox := q; remote := remote p |}.

Definition start (c : prog) : party := {| code := c; inbox := []; remote := None |}.

(** A peer of the service that takes no part. *)
Definition absent : party := start (Return (inr (ErrorString "absent"))).

Definition after_call (c : pion_call) (p : party) : party :=
  match c with
  | SetRemoteDescription sdp => {| code := code p; inbox := inbox p; remote := Some sdp |}
  | _ => p
  end.

Abbreviation service := (nat → party).

Definition set_party (i : nat) (p : party) (σ : service) : service :=
  λ j, if decide (j = i) then p else σ j.

(** [Send] reaches all other peers. *)
Definition broadcast (i : nat) (b : SignalBody) (σ : service) : service :=
  λ j, if decide (j = i) then σ j else set_inbox (inbox (σ j) ++ [b]) (σ j).

Section run.
Context (sdp : nat → string).

(** The ICE agents of two peers connect when each has the other's description. *)
Definition linked (i j : nat) (σ : service) : Prop :=
  remote (σ i) = Some (sdp j) ∧ remote (σ j) = Some (sdp i).

(** Steps in which nothing fails; states are compared peer by peer. *)
Inductive ok_step (σ : service) : service → Prop :=
  | step_call i c k σ' : code (σ i) = Call c k →
      (∀ j, σ' j = set_party i (set_code (k None) (after_call c (σ i))) σ j) → ok_step σ σ'
  | step_send i mk k σ' : code (σ i) = Send mk k →
      (∀ j, σ' j = set_party i (set_code (k None) (σ i)) (broadcast i (mk (sdp i)) σ) j) → ok_step σ σ'
  | step_take i pick k b q s σ' : code (σ i) = Await pick k → inbox (σ i) = b :: q → pick b = Some s →
      (∀ j, σ' j = set_party i (set_code (k (inl s)) (set_inbox q (σ i))) σ j) → ok_step σ σ'
  | step_skip i pick k b q σ' : code (σ i) = Await pick k → inbox (σ i) = b :: q → pick b = None →
      (∀ j, σ' j = set_party i (set_inbox q (σ i)) σ j) → ok_step σ σ'
  | step_open i j σ' : code (σ i) = waitForOpen → linked i j σ →
      (∀ j, σ' j = set_party i (set_code (Return (inl tt)) (σ i)) σ j) → ok_step σ σ'.

(** A call fails, [Send] fails, the wait ends with an error (the session is
    closed or the context canceled), or the channel does not open in time. *)
Inductive fail_step (σ : service) : service → Prop :=
  | fail_call i c k e σ' : code (σ i) = Call c k →
      (∀ j, σ' j = set_party i (set_code (k (Some e)) (σ i)) σ j) → fail_step σ σ'
  | fail_send i mk k e σ' : code (σ i) = Send mk k →
      (∀ j, σ' j = set_party i (set_code (k (Some e)) (σ i)) σ j) → fail_step σ σ'
  | fail_await i pick k e σ' : code (σ i) = Await pick k →
      (∀ j, σ' j = set_party i (set_code (k (inr e)) (σ i)) σ j) → fail_step σ σ'
  | fail_open i e σ' : code (σ i) = waitForOpen →
      (∀ j, σ' j = set_party i (set_code (Return (inr e)) (σ i)) σ j) → fail_step σ σ'.

Definition step (σ σ' : service) : Prop := ok_step σ σ' ∨ fail_step σ σ'.
End run.

(** ** Who ends up with whose description *)

Section peers.
Context (sdp : nat → string) (cfg : Config).

(** [true] dials, [false] accepts. *)
Definition init (roles : nat → option bool) : service := λ i,
  match roles i with
  | Some true => start (Dial RoleClient cfg)
  | Some false => start (Accept RoleServer)
  | None => absent
  end.

Definition reachable (roles : nat → option bool) (σ : service) : Prop := rtc (step sdp) (init roles) σ.

(** The programs that send with [mk0] only, and that use as a remote description
    only what they picked from messages in [valid], which is then in [ok]. *)
Fixpoint obeys (mk0 : string → SignalBody) (valid : SignalBody → Prop) (ok : string → Prop) (pr : prog) : Prop :=
  match pr with
  | Return _ | waitForOpen => True
  | Call c k => match c with SetRemoteDescription s => ok s | _ => True end ∧ ∀ e, obeys mk0 valid ok (k e)
  | Send mk k => mk = mk0 ∧ ∀ e, obeys mk0 valid ok (k e)
  | Await pick k =>
      (∀ b s, valid b → pick b = Some s → ok s) ∧
      ∀ r, match r with inl s => ok s | inr _ => True end → obeys mk0 valid ok (k r)
  end.

(** The messages of the service, and the descriptions each side may apply. *)
Definition from_peer (roles : nat → option bool) (i : nat) (b : SignalBody) : Prop :=
  ∃ j, j ≠ i ∧ ((roles j = Some true ∧ b = offer_body (sdp j)) ∨ (roles j = Some false ∧ b = answer_body (sdp j))).

Definition description (roles : nat → option bool) (r : bool) (i : nat) (s : string) : Prop :=
  ∃ j, j ≠ i ∧ roles j = Some r ∧ s = sdp j.

Definition body_of (r : bool) : string → SignalBody := if r then offer_body else answer_body.

Definition party_ok (roles : nat → option bool) (i : nat) (p : party) : Prop :=
  Forall (from_peer roles i) (inbox p) ∧
  match roles i with
  | Some r => obeys (body_of r) (from_peer roles i) (description roles (negb r) i) (code p) ∧
              ∀ s, remote p = Some s → description roles (negb r) i s
  | None => ∃ r, code p = Return r
  end.

Lemma Dial_obeys roles i :
  obeys offer_body (from_peer roles i) (description roles false i) (Dial RoleClient cfg).
Proof.
  rewrite Dial_client. cbn.
  repeat (split; [done|intros [e|]; cbn; [done|]]).
  split; [|intros [s|e] Hs; cbn; [|done]].
  - intros b s (j & Hne & [[Hr ->]|[Hr ->]]); cbn; [done|]. intros [= <-]. by exists j.
  - split; [done|]. by intros [e|].
Qed.

Lemma Accept_obeys roles i :
  obeys answer_body (from_peer roles i) (description roles true i) (Accept RoleServer).
Proof.
  rewrite Accept_server. cbn. split.
  - intros b s (j & Hne & [[Hr ->]|[Hr ->]]); cbn; [|done]. intros [= <-]. by exists j.
  - intros [s|e] Hs; cbn; [|done]. split; [done|]. intros [e|]; cbn; [done|].
    repeat (split; [done|intros [e|]; cbn; [done|]]). done.
Qed.

Lemma init_ok roles i : party_ok roles i (init roles i).
Proof.
  unfold party_ok, init. destruct (roles i) as [[]|]; cbn.
  - split; [done|]. split; [apply Dial_obeys|done].
  - split; [done|]. split; [apply Accept_obeys|done].
  - split; [done|]. by eexists.
Qed.

Lemma party_ok_active roles i p r :
  roles i = Some r → Forall (from_peer roles i) (inbox p) →
  obeys (body_of r) (from_peer roles i) (description roles (negb r) i) (code p) →
  (∀ s, remote p = Some s → description roles (negb r) i s) → party_ok roles i p.
Proof. intros Hr Hin Hc Hre. split; [done|]. by rewrite Hr. Qed.

(** A peer that runs has a role. *)
Lemma party_ok_role roles i p :
  party_ok roles i p → (∀ r, code p ≠ Return r) → ∃ r, roles i = Some r ∧
    Forall (from_peer roles i) (inbox p) ∧
    obeys (body_of r) (from_peer roles i) (description roles (negb r) i) (code p) ∧
    (∀ s, remote p = Some s → description roles (negb r) i s).
Proof.
  intros [Hin Hc] Hne. destruct (roles i) as [r|]; [exists r; by destruct Hc|].
  destruct Hc as [r Hr]. by destruct (Hne r).
Qed.

(** What one peer becomes in a step, and what the others receive. *)
Lemma party_step roles σ σ' :
  step sdp σ σ' → (∀ i, party_ok roles i (σ i)) →
  ∃ i p,
    ((∀ j, σ' j = set_party i p σ j) ∨
     ∃ b, (∀ j, σ' j = set_party i p (broadcast i b σ) j) ∧ ∀ j, j ≠ i → from_peer roles j b) ∧
    party_ok roles i p.
Proof.
  intros Hs Hok.
  assert (∀ i c, code (σ i) = c → (∀ r, c ≠ Return r) → ∃ r, roles i = Some r ∧
    Forall (from_peer roles i) (inbox (σ i)) ∧
    obeys (body_of r) (from_peer roles i) (description roles (negb r) i) c ∧
    (∀ s, remote (σ i) = Some s → description roles (negb r) i s)) as Hrole
    by (intros i c <-; apply party_ok_role, Hok).
  destruct Hs as [[i c k σ2 Hc Hσ|i mk k σ2 Hc Hσ|i pick k b q s σ2 Hc Hq Hp Hσ|i pick k b q σ2 Hc Hq Hp Hσ|
    i j σ2 Hc _ Hσ]|[i c k e σ2 Hc Hσ|i mk k e σ2 Hc Hσ|i pick k e σ2 Hc Hσ|i e σ2 Hc Hσ]];
    destruct (Hrole i _ Hc ltac:(done)) as (r & Hr & Hin & Ho & Hre); cbn in Ho;
    exists i; eexists; (split; [first [left; exact Hσ|right; eexists; split; [exact Hσ|]]|]);
    try (eapply party_ok_active; [exact Hr|..]); cbn; try done; try apply Ho; try done;
    try (by destruct c); try (rewrite Hq in Hin; apply Forall_cons in Hin as [Hb Hin]); try done.
  - destruct c; cbn; try done. intros s [= <-]. apply Ho.
  - intros j Hne. destruct Ho as [-> _]. exists i. split; [done|]. destruct r; [by left|by right].
  - by apply (proj1 Ho b).
  - by rewrite Hc.
Qed.

Lemma reachable_ok roles σ : reachable roles σ → ∀ i, party_ok roles i (σ i).
Proof.
  intros Hr. refine (rtc_ind_r (R:=step sdp) (λ σ, ∀ i, party_ok roles i (σ i)) _ (init_ok roles) _ σ Hr).
  intros σ1 σ2 _ Hs Hok i.
  destruct (party_step roles σ1 σ2 Hs Hok) as (j & p & [Hσ|(b & Hσ & Hb)] & Hp); rewrite Hσ;
    unfold set_party; destruct (decide (i = j)) as [->|Hne]; try done.
  unfold broadcast. rewrite decide_False by done. destruct (Hok i) as [Hin Hc]. split; [|done]. cbn.
  apply Forall_app. split; [done|]. apply Forall_cons. split; [by apply Hb|done].
Qed.

(** ** One dialer and one acceptor *)

Context (c s : nat) (Hcs : c ≠ s).

Definition two_peers : nat → option bool :=
  λ i, if decide (i = c) then Some true else if decide (i = s) then Some false else None.

(** The program after a step that does not fail; [r] is what a wait gives. *)
Definition next (r : string) (pr : prog) : prog :=
  match pr with
  | Call _ k | Send _ k => k None
  | Await _ k => k (inl r)
  | waitForOpen => Return (inl tt)
  | Return r => Return r
  end.

Definition client_code (n : nat) : prog := Nat.iter n (next (sdp s)) (dialing cfg).
Definition server_code (m : nat) : prog := Nat.iter m (next (sdp c)) accepting.

(** The two peers after [n] steps of the dialer and [m] of the acceptor. *)
Definition client_party (n m : nat) : party :=
  {| code := client_code n;
     inbox := if decide (6 ≤ m ∧ n ≤ 5)%nat then [answer_body (sdp s)] else [];
     remote := if decide (7 ≤ n)%nat then Some (sdp s) else None |}.
Definition server_party (n m : nat) : party :=
  {| code := server_code m;
     inbox := if decide (5 ≤ n ∧ m = 0)%nat then [offer_body (sdp c)] else [];
     remote := if decide (2 ≤ m)%nat then Some (sdp c) else None |}.

Record pair_at (σ : service) (n m : nat) : Prop := {
  pair_client : σ c = client_party n m;
  pair_server : σ s = server_party n m;
  pair_rest i : i ≠ c → i ≠ s → ∃ r, code (σ i) = Return r;
  pair_order : (n ≤ 8 ∧ m ≤ 7 ∧ (1 ≤ m → 5 ≤ n) ∧ (6 ≤ n → 6 ≤ m))%nat }.

Lemma pair_init : pair_at (init two_peers) 0 0.
Proof.
  unfold init, two_peers. rewrite Dial_client, Accept_server. split.
  - by rewrite decide_True.
  - by rewrite decide_False, decide_True.
  - intros i H1 H2. rewrite !decide_False by done. by eexists.
  - lia.
Qed.

(** What the dialer does in its [n]-th step, and the acceptor in its [m]-th. *)
Inductive stage : Type := SCall | SSend | SWait | SOpen | SEnd.

Definition stage_of (pr : prog) : stage :=
  match pr with Call _ _ => SCall | Send _ _ => SSend | Await _ _ => SWait | waitForOpen => SOpen | Return _ => SEnd end.

Lemma client_stages n : (n ≤ 8)%nat →
  stage_of (client_code n) = nth n [SCall; SCall; SCall; SCall; SSend; SWait; SCall; SOpen] SEnd.
Proof. intros. do 9 (destruct n as [|n]; [reflexivity|]). lia. Qed.

Lemma server_stages m : (m ≤ 7)%nat →
  stage_of (server_code m) = nth m [SWait; SCall; SCall; SCall; SCall; SSend; SOpen] SEnd.
Proof. intros. do 8 (destruct m as [|m]; [reflexivity|]). lia. Qed.

(** The step of one peer as the system sees it. *)
Lemma pair_client_step σ σ' n m p :
  pair_at σ n m → (n < 8)%nat → (6 ≤ S n → 6 ≤ m)%nat → n ≠ 4%nat →
  p = client_party (S n) m → (∀ j, σ' j = set_party c p σ j) → pair_at σ' (S n) m.
Proof.
  intros [Hc Hs Hr Ho] Hn Hm Hne -> Hσ. split.
  - rewrite Hσ. unfold set_party. by rewrite decide_True.
  - rewrite Hσ. unfold set_party. rewrite decide_False by done. rewrite Hs. unfold server_party. f_equal.
    do 2 case_decide; try done; lia.
  - intros i H1 H2. rewrite Hσ. unfold set_party. rewrite decide_False by done. by apply Hr.
  - lia.
Qed.

Lemma pair_server_step σ σ' n m p :
  pair_at σ n m → (m < 7)%nat → (5 ≤ n)%nat → m ≠ 5%nat →
  p = server_party n (S m) → (∀ j, σ' j = set_party s p σ j) → pair_at σ' n (S m).
Proof.
  intros [Hc Hs Hr Ho] Hm Hn Hne -> Hσ. split.
  - rewrite Hσ. unfold set_party. rewrite decide_False by done. rewrite Hc. unfold client_party. f_equal.
    do 2 case_decide; try done; lia.
  - rewrite Hσ. unfold set_party. by rewrite decide_True.
  - intros i H1 H2. rewrite Hσ. unfold set_party. rewrite decide_False by done. by apply Hr.
  - lia.
Qed.

Ltac parties := unfold client_party, server_party; cbn; repeat case_decide; try done; try lia.

Lemma pair_sends σ σ' n m i mk k :
  pair_at σ n m → code (σ i) = Send mk k →
  (∀ j, σ' j = set_party i (set_code (k None) (σ i)) (broadcast i (mk (sdp i)) σ) j) →
  (i = c ∧ n = 4%nat ∧ pair_at σ' (S n) m) ∨ (i = s ∧ m = 5%nat ∧ pair_at σ' n (S m)).
Proof.
  intros [Hc Hs Hr Ho] Hi Hσ. destruct (decide (i = c)) as [->|Hic]; [|destruct (decide (i = s)) as [->|His]].
  - left. rewrite Hc in Hi. pose proof (client_stages n ltac:(lia)) as Hst. cbn in Hi. rewrite Hi in Hst.
    assert (n = 4%nat) as -> by (do 9 (destruct n as [|n]; [done|]); lia). cbn in Hi. injection Hi as <- <-.
    assert (m = 0%nat) as -> by lia. split; [done|]. split; [done|]. split; [..|lia].
    + rewrite Hσ. unfold set_party. rewrite decide_True, Hc by done. unfold set_code. parties.
    + rewrite Hσ. unfold set_party, broadcast. rewrite !decide_False, Hs by done. unfold set_inbox. parties.
    + intros j H1 H2. rewrite Hσ. unfold set_party, broadcast. rewrite !decide_False by done. by apply Hr.
  - right. rewrite Hs in Hi. pose proof (server_stages m ltac:(lia)) as Hst. cbn in Hi. rewrite Hi in Hst.
    assert (m = 5%nat) as -> by (do 8 (destruct m as [|m]; [done|]); lia). cbn in Hi. injection Hi as <- <-.
    assert (n = 5%nat) as -> by lia. split; [done|]. split; [done|]. split; [..|lia].
    + rewrite Hσ. unfold set_party, broadcast. rewrite !decide_False, Hc by done. unfold set_inbox. parties.
    + rewrite Hσ. unfold set_party. rewrite decide_True, Hs by done. unfold set_code. parties.
    + intros j H1 H2. rewrite Hσ. unfold set_party, broadcast. rewrite !decide_False by done. by apply Hr.
  - destruct (Hr i Hic His) as [r Hrr]. congruence.
Qed.

(** A step of one peer alone advances it by one. *)
Lemma pair_moves σ σ' n m i p :
  pair_at σ n m → (∀ r, code (σ i) ≠ Return r) → (∀ mk k, code (σ i) ≠ Send mk k) →
  (i = c → p = client_party (S n) m ∧ (6 ≤ S n → 6 ≤ m)%nat) →
  (i = s → p = server_party n (S m) ∧ (5 ≤ n)%nat) →
  (∀ j, σ' j = set_party i p σ j) → pair_at σ' (S n) m ∨ pair_at σ' n (S m).
Proof.
  intros HP Hret Hsend Hpc Hps Hσ. pose proof HP as [Hc Hs Hr Ho].
  destruct (decide (i = c)) as [->|Hic]; [|destruct (decide (i = s)) as [->|His]].
  - left. destruct (Hpc eq_refl) as [-> Hm]. rewrite Hc in Hret, Hsend. cbn in Hret, Hsend.
    eapply pair_client_step; try done.
    + destruct (decide (n = 8%nat)) as [->|]; [|lia]. by destruct (Hret (inl tt)).
    + intros ->. by eapply Hsend.
  - right. destruct (Hps eq_refl) as [-> Hn]. rewrite Hs in Hret, Hsend. cbn in Hret, Hsend.
    eapply pair_server_step; try done.
    + destruct (decide (m = 7%nat)) as [->|]; [|lia]. by destruct (Hret (inl tt)).
    + intros ->. by eapply Hsend.
  - destruct (Hr i Hic His) as [r Hrr]. by destruct (Hret r).
Qed.

(** The program at a given stage, and what its equation with a call gives. *)
Ltac codes := cbn in *; unfold dialing, accepting, waitForAnswer, waitForOffer in *; simplify_eq.

Lemma pair_step σ σ' n m :
  pair_at σ n m → ok_step sdp σ σ' → pair_at σ' (S n) m ∨ pair_at σ' n (S m).
Proof.
  intros HP Hs. pose proof HP as [Hc Hsv Hr Ho].
  destruct Hs as [i pc k σ2 Hi Hσ|i mk k σ2 Hi Hσ|i pick k b q r σ2 Hi Hq Hp Hσ|i pick k b q σ2 Hi Hq Hp Hσ|
    i j σ2 Hi Hl Hσ].
  - eapply pair_moves; [exact HP|by rewrite Hi..| | |exact Hσ]; intros ->; rewrite ?Hc, ?Hsv in *; cbn in Hi.
    + destruct n as [|[|[|[|[|[|[|[|[|n]]]]]]]]]; try lia; codes; split; try lia; unfold set_code; parties.
    + destruct m as [|[|[|[|[|[|[|[|[|m]]]]]]]]]; try lia; codes; split; try lia; unfold set_code; parties.
  - destruct (pair_sends σ σ2 n m i mk k HP Hi Hσ) as [(_ & _ & ?)|(_ & _ & ?)]; [by left|by right].
  - eapply pair_moves; [exact HP|by rewrite Hi..| | |exact Hσ]; intros ->; rewrite ?Hc, ?Hsv in *; cbn in Hi, Hq.
    + destruct n as [|[|[|[|[|[|[|[|[|n]]]]]]]]]; try lia; codes. case_decide; [|done]. simplify_eq. split; [|lia]. cbn in Hp. simplify_eq.
      unfold set_code, set_inbox. parties.
    + destruct m as [|[|[|[|[|[|[|[|[|m]]]]]]]]]; try lia; codes. case_decide; [|done]. simplify_eq. split; [|lia]. cbn in Hp. simplify_eq.
      unfold set_code, set_inbox. parties.
  - exfalso. destruct (decide (i = c)) as [->|Hic]; [|destruct (decide (i = s)) as [->|His]].
    + rewrite Hc in *. cbn in *. case_decide; [|done]. destruct n as [|[|[|[|[|[|[|[|[|n]]]]]]]]]; try lia; codes.
    + rewrite Hsv in *. cbn in *. case_decide; [|done]. destruct m as [|[|[|[|[|[|[|[|[|m]]]]]]]]]; try lia; codes.
    + destruct (Hr i Hic His). congruence.
  - eapply pair_moves; [exact HP|by rewrite Hi..| | |exact Hσ]; intros ->; rewrite ?Hc, ?Hsv in *; cbn in Hi.
    + destruct n as [|[|[|[|[|[|[|[|[|n]]]]]]]]]; try lia; codes. split; [unfold set_code; parties|lia].
    + destruct m as [|[|[|[|[|[|[|[|[|m]]]]]]]]]; try lia; codes. split; [unfold set_code; parties|lia].
Qed.

Lemma pair_progress σ n m : pair_at σ n m → nf (ok_step sdp) σ → n = 8%nat ∧ m = 7%nat.
Proof.
  intros [Hc Hsv _ Ho] Hnf.
  assert (∀ σ', ¬ ok_step sdp σ σ') as Hno by (intros σ' Hs; apply Hnf; by exists σ').
  assert (linked sdp c s σ ∨ (n < 7)%nat ∨ (m < 2)%nat) as Hl.
  { unfold linked. rewrite Hc, Hsv. cbn. do 2 case_decide; (left; done) || (right; lia). }
  assert (n = 8 ∨ n = 5)%nat as Hn.
  { destruct n as [|[|[|[|[|[|[|[|[|n]]]]]]]]]; try lia; exfalso.
    all: first [eapply Hno, (step_call sdp σ c); [by rewrite Hc|done]
               |eapply Hno, (step_send sdp σ c); [by rewrite Hc|done]
               |eapply Hno, (step_open sdp σ c s); [by rewrite Hc|destruct Hl as [?|?]; [done|lia]|done]]. }
  assert (6 ≤ m)%nat as Hm.
  { destruct m as [|[|[|[|[|[|m]]]]]]; try lia; exfalso.
    1: { eapply Hno, (step_take sdp σ s _ _ (offer_body (sdp c)) [] (sdp c)); [by rewrite Hsv| |done|done]. rewrite Hsv. cbn.
         by rewrite decide_True by lia. }
    all: first [eapply Hno, (step_call sdp σ s); [by rewrite Hsv|done]
               |eapply Hno, (step_send sdp σ s); [by rewrite Hsv|done]]. }
  destruct Hn as [->| ->].
  - split; [done|]. destruct (decide (m = 6%nat)) as [->|]; [|lia]. exfalso.
    eapply Hno, (step_open sdp σ s c); [by rewrite Hsv| |done]. destruct Hl as [[? ?]|?]; [done|lia].
  - exfalso. eapply Hno, (step_take sdp σ c _ _ (answer_body (sdp s)) [] (sdp s)); [by rewrite Hc| |done|done]. rewrite Hc. cbn.
    by rewrite decide_True by lia.
Qed.

Lemma pair_nsteps t σ : nsteps (ok_step sdp) t (init two_peers) σ → ∃ n m, pair_at σ n m ∧ t = (n + m)%nat.
Proof.
  revert σ. induction t as [|t IH]; intros σ Hn.
  - inversion Hn; subst. exists 0%nat, 0%nat. split; [apply pair_init|done].
  - apply nsteps_inv_r in Hn as (σ1 & Hn & Hs). destruct (IH σ1 Hn) as (n & m & HP & ->).
    destruct (pair_step σ1 σ n m HP Hs) as [HP'|HP']; eexists _, _; (split; [exact HP'|lia]).
Qed.
End peers.

(** ** Properties *)

(** The ICE cascade. The tier of a candidate pair is unknown if either side's
    is, and the worse of the two otherwise, in either order; the server list of
    each tier extends the list of the tier below it, names no empty STUN or TURN
    address, and asking for a tier fails exactly when an address it needs is
    missing or it is not one of the three tiers. *)
Theorem ice_cascade l r tier stun turn user cred :
  TierForPair l r = TierForPair r l ∧
  (TierForPair l r =
     if decide (l = CandUnknown ∨ r = CandUnknown) then ICETierUnknown
     else Z.max (TierForCandidateType l) (TierForCandidateType r)) ∧
  match ICEServersForCascade tier stun turn user cred with
  | inl servers =>
      1 ≤ tier ≤ 3 ∧ len servers = tier - 1 ∧ Forall (λ s, URLs s ≠ [""%string]) servers ∧
      ∀ tier', 1 ≤ tier' ≤ tier →
        ICEServersForCascade tier' stun turn user cred = inl (take (Z.to_nat (tier' - 1)) servers)
  | inr _ => ¬ (1 ≤ tier ≤ 3) ∨ (stun = ""%string ∧ 2 ≤ tier) ∨ (turn = ""%string ∧ tier = 3)
  end.
Proof.
  split; [by destruct l, r|]. split; [by destruct l, r|].
  unfold ICEServersForCascade at 1, ICETierHost, ICETierSrflx, ICETierRelay.
  destruct (Z.eqb_spec tier 1) as [->|H1].
  { split; [lia|]. split; [done|]. split; [done|]. intros t Ht. assert (t = 1) as -> by lia. done. }
  destruct (Z.eqb_spec tier 2) as [->|H2].
  { destruct (decide (stun = ""%string)) as [->|Hs]; [right; left; split; [done|lia]|]. split; [lia|].
    split; [done|]. split; [apply Forall_cons; split; [by intros [= ->]|done]|]. intros t Ht.
    assert (t = 1 ∨ t = 2) as [-> | ->] by lia; [done|]. unfold ICEServersForCascade. cbn.
    by rewrite decide_False. }
  destruct (Z.eqb_spec tier 3) as [->|H3]; [|left; lia].
  destruct (decide (stun = ""%string ∨ turn = ""%string)) as [[->| ->]|Hst];
    [right; left; split; [done|lia]|by right; right|]. split; [lia|]. split; [done|]. split.
  { apply Forall_cons; split; [intros [= ->]; tauto|]. apply Forall_cons; split; [intros [= ->]; tauto|done]. }
  intros t Ht. assert (t = 1 ∨ t = 2 ∨ t = 3) as [->|[->| ->]] by lia; [done|..]; unfold ICEServersForCascade; cbn.
  - by rewrite decide_False by tauto.
  - by rewrite decide_False by tauto.
Qed.

(** Whose description a peer applies. However the calls, failures and
    messages of the peers of a service interleave, a dialing peer only ever
    applies the description of an accepting peer and the other way round, never
    its own; with a single dialer and a single acceptor, each applies the
    other's. *)
Theorem negotiation_descriptions sdp cfg roles σ i d (Hr : reachable sdp cfg roles σ)
    (Hd : remote (σ i) = Some d) (Hi : roles i ≠ None) :
  ∃ r j, roles i = Some r ∧ roles j = Some (negb r) ∧ j ≠ i ∧ d = sdp j ∧
    (∀ j', (∀ k, roles k = Some (negb r) → k = j') → d = sdp j').
Proof.
  pose proof (reachable_ok sdp cfg roles σ Hr i) as [_ Hok]. destruct (roles i) as [r|] eqn:E; [|done].
  destruct Hok as [_ Hre]. destruct (Hre d Hd) as (j & Hne & Hj & ->). exists r, j. split_and!; try done.
  intros j' Hu. by rewrite (Hu j Hj).
Qed.

(** Negotiation completes. With one dialer and one acceptor, an execution in
    which no call fails takes at most 15 steps, whatever the interleaving, and
    when no step is left both have returned their channel, each holding the
    other's description. *)
Theorem negotiation_completes sdp cfg c s t σ (Hcs : c ≠ s)
    (Hrun : nsteps (ok_step sdp) t (init cfg (two_peers c s)) σ) :
  (t ≤ 15)%nat ∧
  (nf (ok_step sdp) σ →
     code (σ c) = Return (inl tt) ∧ code (σ s) = Return (inl tt) ∧ linked sdp c s σ).
Proof.
  destruct (pair_nsteps sdp cfg c s Hcs t σ Hrun) as (n & m & HP & ->). split.
  - destruct HP as [_ _ _ Ho]. lia.
  - intros Hnf. destruct (pair_progress sdp cfg c s Hcs σ n m HP Hnf) as [-> ->].
    destruct HP as [Hc Hs _ _]. unfold linked. by rewrite Hc, Hs.
Qed.

(** ** A run, and the cross-talk of answers *)

(** The next step of a peer that does not wait for the channel. *)
Definition exec (sdp : nat → string) (i : nat) (σ : service) : option service :=
  match code (σ i) with
  | Call c k => Some (set_party i (set_code (k None) (after_call c (σ i))) σ)
  | Send mk k => Some (set_party i (set_code (k None) (σ i)) (broadcast i (mk (sdp i)) σ))
  | Await pick k =>
      match inbox (σ i) with
      | [] => None
      | b :: q =>
          match pick b with
          | Some d => Some (set_party i (set_code (k (inl d)) (set_inbox q (σ i))) σ)
          | None => Some (set_party i (set_inbox q (σ i)) σ)
          end
      end
  | _ => None
  end.

Fixpoint execs (sdp : nat → string) (turns : list nat) (σ : service) : option service :=
  match turns with [] => Some σ | i :: turns => σ ← exec sdp i σ; execs sdp turns σ end.

Lemma exec_step sdp i σ σ' : exec sdp i σ = Some σ' → ok_step sdp σ σ'.
Proof.
  unfold exec. destruct (code (σ i)) as [r|c k|mk k|pick k|] eqn:Hc; try done.
  - intros [= <-]. by eapply (step_call sdp σ i c k).
  - intros [= <-]. by eapply (step_send sdp σ i mk k).
  - destruct (inbox (σ i)) as [|b q] eqn:Hq; [done|]. destruct (pick b) as [d|] eqn:Hp; intros [= <-].
    + by eapply (step_take sdp σ i pick k b q d).
    + by eapply (step_skip sdp σ i pick k b q).
Qed.

Lemma execs_steps sdp turns σ σ' : execs sdp turns σ = Some σ' → nsteps (ok_step sdp) (length turns) σ σ'.
Proof.
  revert σ. induction turns as [|i turns IH]; intros σ; cbn; [intros [= ->]; constructor|].
  intros (σ1 & H1%exec_step & H2)%bind_Some. by eapply nsteps_l, IH.
Qed.

(** Peers 0 and 1 dial, peer 2 accepts. *)
Definition two_dialers (i : nat) : option bool :=
  match i with 0%nat | 1%nat => Some true | 2%nat => Some false | _ => None end.

(** Both send their offers, the acceptor answers the first, and the second
    dialer takes the answer. *)
Definition crosstalk_run : list nat :=
  [0; 0; 0; 0; 0; 1; 1; 1; 1; 1; 2; 2; 2; 2; 2; 2; 1; 1; 1]%nat.

(** A peer past its last description. *)
Lemma settled sdp (σ σ' : service) :
  (∀ i j, sdp i = sdp j → i = j) → step sdp σ σ' →
  remote (σ 2%nat) = Some (sdp 0%nat) → remote (σ 1%nat) = Some (sdp 2%nat) →
  (code (σ 2%nat) = waitForOpen ∨ ∃ r, code (σ 2%nat) = Return r) →
  (code (σ 1%nat) = waitForOpen ∨ ∃ e, code (σ 1%nat) = Return (inr e)) →
  remote (σ' 2%nat) = Some (sdp 0%nat) ∧ remote (σ' 1%nat) = Some (sdp 2%nat) ∧
  (code (σ' 2%nat) = waitForOpen ∨ ∃ r, code (σ' 2%nat) = Return r) ∧
  (code (σ' 1%nat) = waitForOpen ∨ ∃ e, code (σ' 1%nat) = Return (inr e)).
Proof.
  intros Hinj Hs R2 R1 C2 C1.
  destruct Hs as [[i c k σ2 Hc Hσ|i mk k σ2 Hc Hσ|i pick k b q d σ2 Hc Hq Hp Hσ|i pick k b q σ2 Hc Hq Hp Hσ|
    i j σ2 Hc Hl Hσ]|[i c k e σ2 Hc Hσ|i mk k e σ2 Hc Hσ|i pick k e σ2 Hc Hσ|i e σ2 Hc Hσ]];
    rewrite !Hσ; unfold set_party, broadcast.
  all: destruct (decide (2 = i)%nat) as [<-|]; [|destruct (decide (1 = i)%nat) as [<-|]];
    rewrite ?decide_False by done; rewrite ?decide_True by done; cbn;
    try (destruct C1 as [?|[??]]; congruence); try (destruct C2 as [?|[??]]; congruence); eauto;
    try (split; [done|]; split; [done|]; split; [|done]; right; by eexists);
    try (split; [done|]; split; [done|]; split; [done|]; right; by eexists).
  exfalso. destruct Hl as [Hl1 Hl2]. assert (j = 2%nat) as -> by (apply Hinj; congruence).
  rewrite R2 in Hl2. injection Hl2 as H%Hinj. done.
Qed.

(** Answers are not addressed. Two peers that dial in one service while one
    accepts can end, without any failure, with the second dialer holding the
    answer the acceptor made for the first; when descriptions differ, that
    dialer never gets a channel afterwards, it can only time out. *)
Theorem answer_crosstalk sdp cfg (Hinj : ∀ i j, sdp i = sdp j → i = j) :
  ∃ σ, rtc (ok_step sdp) (init cfg two_dialers) σ ∧
    remote (σ 2%nat) = Some (sdp 0%nat) ∧ remote (σ 1%nat) = Some (sdp 2%nat) ∧
    ∀ σ', rtc (step sdp) σ σ' → code (σ' 1%nat) ≠ Return (inl tt).
Proof.
  destruct (execs sdp crosstalk_run (init cfg two_dialers)) as [σ|] eqn:Hrun; [|by vm_compute in Hrun].
  exists σ. split; [by eapply rtc_nsteps_2, execs_steps|].
  assert (remote (σ 2%nat) = Some (sdp 0%nat) ∧ remote (σ 1%nat) = Some (sdp 2%nat) ∧
    code (σ 2%nat) = waitForOpen ∧ code (σ 1%nat) = waitForOpen) as (R2 & R1 & C2 & C1).
  { vm_compute in Hrun. injection Hrun as <-. by vm_compute. }
  split; [done|]. split; [done|]. intros σ' Hs.
  assert (remote (σ' 2%nat) = Some (sdp 0%nat) ∧ remote (σ' 1%nat) = Some (sdp 2%nat) ∧
    (code (σ' 2%nat) = waitForOpen ∨ ∃ r, code (σ' 2%nat) = Return r) ∧
    (code (σ' 1%nat) = waitForOpen ∨ ∃ e, code (σ' 1%nat) = Return (inr e))) as (_ & _ & _ & [-> |[e ->]]); [|done..].
  refine (rtc_ind_r (R:=step sdp) (λ σ', remote (σ' 2%nat) = _ ∧ remote (σ' 1%nat) = _ ∧ (_ ∨ _) ∧ (_ ∨ _)) σ
    _ _ σ' Hs); [by auto|].
  intros y z _ Hyz (H1 & H2 & H3 & H4). by apply (settled sdp y z).
Qed.

(** A dialer and an acceptor, up to the wait for the channel. *)
Definition ex_sdp (i : nat) : string := if decide (i = 0%nat) then "v=0" else "v=1".
Definition ex_cfg : Config := applyDefaults {| ICEServers := None; DataChannelLabel := ""; NegotiationTimeout := 0 |}.
Definition ex_run : list nat := [0; 0; 0; 0; 0; 1; 1; 1; 1; 1; 1; 0; 0]%nat.

Lemma negotiation_completes_witness :
  ∃ σ, nsteps (ok_step ex_sdp) 13 (init ex_cfg (two_peers 0 1)) σ ∧ remote (σ 0%nat) = Some "v=1"%string ∧
  (nf (ok_step ex_sdp) σ →
     code (σ 0%nat) = Return (inl tt) ∧ code (σ 1%nat) = Return (inl tt) ∧ linked ex_sdp 0 1 σ).
Proof.
  destruct (execs ex_sdp ex_run (init ex_cfg (two_peers 0 1))) as [σ|] eqn:Hrun; [|by vm_compute in Hrun].
  assert (nsteps (ok_step ex_sdp) 13 (init ex_cfg (two_peers 0 1)) σ) as Hn by exact (execs_steps _ ex_run _ _ Hrun).
  exists σ. split; [done|]. split; [vm_compute in Hrun; injection Hrun as <-; by vm_compute|].
  exact (proj2 (negotiation_completes ex_sdp ex_cfg 0 1 13 σ ltac:(done) Hn)).
Defined.

Lemma negotiation_descriptions_witness :
  ∃ σ, remote (σ 0%nat) = Some "v=1"%string ∧
  ∃ r j, two_peers 0 1 0 = Some r ∧ two_peers 0 1 j = Some (negb r) ∧ j ≠ 0%nat ∧ "v=1"%string = ex_sdp j ∧
    (∀ j', (∀ k, two_peers 0 1 k = Some (negb r) → k = j') → "v=1"%string = ex_sdp j').
Proof.
  destruct (execs ex_sdp ex_run (init ex_cfg (two_peers 0 1))) as [σ|] eqn:Hrun; [|by vm_compute in Hrun].
  assert (reachable ex_sdp ex_cfg (two_peers 0 1) σ) as Hr.
  { eapply rtc_subrel; [|eapply rtc_nsteps_2, (execs_steps _ ex_run _ _ Hrun)]. intros x y H. by left. }
  assert (remote (σ 0%nat) = Some "v=1"%string) as Hd by (vm_compute in Hrun; injection Hrun as <-; by vm_compute).
  exists σ. split; [done|]. by apply (negotiation_descriptions ex_sdp ex_cfg (two_peers 0 1) σ 0 "v=1").
Defined.

Lemma answer_crosstalk_witness :
  ∃ σ, rtc (ok_step pretty) (init ex_cfg two_dialers) σ ∧
    remote (σ 2%nat) = Some (pretty 0%nat) ∧ remote (σ 1%nat) = Some (pretty 2%nat) ∧
    ∀ σ', rtc (step pretty) σ σ' → code (σ' 1%nat) ≠ Return (inl tt).
Proof. apply answer_crosstalk. intros i j. apply (inj pretty). Defined.
