(* ===== verification/PeerConn.v ===== *)
(** * Waiting on pion's callbacks (peer/peer.go)

    [waitICEGathering] and the pair of [handleDataChannel] and [waitForOpen]:
    a goroutine that waits for a channel, and callbacks that pion runs on its
    own goroutines.  Of pion the model has what its API says: the gathering
    state changes, and afterwards the handler that is registered at that moment
    is invoked; [OnOpen] handlers are invoked as DataChannels open. *)

From Stdlib Require Import ZArith Lia.
From stdpp Require Import numbers strings list relations.
From S2P Require Import Prelude.

(** ** Gathering *)

(** The waiter before [ICEGatheringState()], before [OnICEGatheringStateChange],
    in its [select], and after its return. *)
Inductive waiter : Type := WCheck | WRegister | WSelect | WReturn (r : option error).

(** [complete] and [notified] are pion's; [handler] says that the callback is
    registered; [once] is the number of elements in its channel. *)
Record gathering : Type := {
  complete : bool;
  notified : bool;
  handler : bool;
  once : nat;
  closed_done : bool;
  wait : waiter }.

Definition gathering_init : gathering :=
  {| complete := false; notified := false; handler := false; once := 0; closed_done := false; wait := WCheck |}.

Definition set_complete (b : bool) (g : gathering) : gathering :=
  {| complete := b; notified := false; handler := handler g; once := once g; closed_done := closed_done g; wait := wait g |}.

Definition set_notified (g : gathering) : gathering :=
  {| complete := complete g; notified := true; handler := handler g; once := once g; closed_done := closed_done g; wait := wait g |}.

Definition set_wait (w : waiter) (g : gathering) : gathering :=
  {| complete := complete g; notified := notified g; handler := handler g; once := once g; closed_done := closed_done g; wait := w |}.

Definition register (g : gathering) : gathering :=
  {| complete := complete g; notified := notified g; handler := true; once := once g; closed_done := closed_done g; wait := WSelect |}.

(** The callback for [ICEGatheringStateComplete]: closing [done] twice panics. *)
Definition on_complete (g : gathering) : res gathering :=
  if decide (once g < 1)%nat
  then if closed_done g then Panic "close of closed channel"
       else Ok {| complete := complete g; notified := notified g; handler := handler g; once := S (once g);
                  closed_done := true; wait := wait g |}
  else Ok g.

(** pion's notification of the handler that is registered now. *)
Definition notify (g : gathering) : res gathering :=
  if handler g then on_complete (set_notified g) else Ok (set_notified g).

Definition gathering_timeout : error := ErrorString "ice gathering timed out".

(** The first test of [waitICEGathering]. *)
Definition check_state (g : gathering) : gathering :=
  set_wait (if complete g then WReturn None else WRegister) g.

Inductive gather_step (g : gathering) : gathering → Prop :=
  | gather_complete : complete g = false → gather_step g (set_complete true g)
  | gather_notify g' : complete g = true → notified g = false → notify g = Ok g' → gather_step g g'
  | wait_check : wait g = WCheck → gather_step g (check_state g)
  | wait_register : wait g = WRegister → gather_step g (register g)
  | wait_done : wait g = WSelect → closed_done g = true → gather_step g (set_wait (WReturn None) g)
  | wait_timeout : wait g = WSelect → gather_step g (set_wait (WReturn (Some gathering_timeout)) g)
  | wait_ctx e : wait g = WSelect → gather_step g (set_wait (WReturn (Some e)) g).

(** Gathering that starts again, as an ICE restart does. *)
Inductive gather_restart (g : gathering) : gathering → Prop :=
  | restart : complete g = true → gather_restart g (set_complete false g).

Definition gather_any (g g' : gathering) : Prop := gather_step g g' ∨ gather_restart g g'.

(** ** The DataChannel *)

(** [openCh], of capacity one, and the state of [waitForOpen]: waiting, or what
    it returned. Channels are numbered in the order they open. *)
Record opening : Type := { openCh : list nat; opened : nat; result : option (nat + error) }.

Definition opening_init : opening := {| openCh := []; opened := 0; result := None |}.

(** The [OnOpen] callback [handleDataChannel] installs. *)
Definition on_open (o : opening) : opening :=
  {| openCh := if decide (length (openCh o) < 1)%nat then openCh o ++ [opened o] else openCh o;
     opened := S (opened o); result := result o |}.

Inductive open_step (o : opening) : opening → Prop :=
  | dc_open : open_step o (on_open o)
  | wait_open ch q : result o = None → openCh o = ch :: q →
      open_step o {| openCh := q; opened := opened o; result := Some (inl ch) |}
  | wait_fails e : result o = None → open_step o {| openCh := openCh o; opened := opened o; result := Some (inr e) |}.

(** ** Lemmas *)

Record gather_ok (g : gathering) : Prop := {
  g_once : once g = (if closed_done g then 1 else 0)%nat;
  g_handler : closed_done g = true → handler g = true;
  g_select : wait g = WSelect → handler g = true }.

Lemma on_complete_ok g : gather_ok g → handler g = true → ∃ g', on_complete g = Ok g' ∧ gather_ok g'.
Proof.
  intros [H1 H2 H3] Hh. unfold on_complete. rewrite H1. destruct (closed_done g) eqn:E; cbn.
  - exists g. split; [done|]. by split; rewrite ?E.
  - eexists. split; [done|]. by split; rewrite ?H1.
Qed.

Lemma notify_ok g : gather_ok g → ∃ g', notify g = Ok g' ∧ gather_ok g'.
Proof.
  intros [H1 H2 H3]. assert (gather_ok (set_notified g)) as Hok by (by split).
  unfold notify. destruct (handler g) eqn:Hh; [by apply on_complete_ok|by eexists].
Qed.

Lemma gather_step_ok g g' : gather_any g g' → gather_ok g → gather_ok g'.
Proof.
  intros [Hs|[Hc]] Hok; [|by destruct Hok].
  destruct Hs as [Hc|g' Hc Hn Hg|Hw|Hw|Hw Hd|Hw|e Hw]; try (by destruct Hok).
  - destruct (notify_ok g Hok) as (g2 & Hg2 & Hok'). congruence.
  - destruct Hok as [H1 H2 H3]. split; cbn; try done. by destruct (complete g).
Qed.

Lemma gather_reachable_ok g : rtc gather_any gathering_init g → gather_ok g.
Proof.
  intros Hr. refine (rtc_ind_r (R:=gather_any) gather_ok gathering_init _ _ g Hr); [by split|].
  intros y z _ Hs. by apply gather_step_ok.
Qed.

(** After a completion nobody was registered for, a waiter that has registered
    waits for the timeout. *)
Record missed (g : gathering) : Prop := {
  mi_complete : complete g = true;
  mi_notified : notified g = true;
  mi_open : closed_done g = false;
  mi_wait : wait g = WSelect ∨ ∃ e, wait g = WReturn (Some e) }.

Lemma missed_step g g' : missed g → gather_step g g' → missed g'.
Proof.
  intros [H1 H2 H3 H4] Hs. destruct Hs as [Hc|g' Hc Hn Hg|Hw|Hw|Hw Hd|Hw|e Hw]; try congruence.
  - destruct H4 as [?|[? ?]]; congruence.
  - destruct H4 as [?|[? ?]]; congruence.
  - split; try done. right. by eexists.
  - split; try done. right. by eexists.
Qed.

Lemma opening_ok o : rtc open_step opening_init o →
  match result o with
  | None => openCh o = if decide (opened o = 0)%nat then [] else [0%nat]
  | Some (inl ch) => ch = 0%nat ∧ (0 < opened o)%nat
  | Some (inr _) => True
  end.
Proof.
  intros Hr. refine (rtc_ind_r (R:=open_step) (λ o, match result o with
    | None => openCh o = if decide (opened o = 0)%nat then [] else [0%nat]
    | Some (inl ch) => ch = 0%nat ∧ (0 < opened o)%nat | Some (inr _) => True end) opening_init _ _ o Hr); [done|].
  intros y z _ Hs IH. destruct Hs as [|ch q Hn Hq|e Hn]; cbn; [|rewrite Hn in IH|done].
  - destruct (result y) as [[ch|]|]; [split; [apply IH|lia]| done|].
    rewrite IH. destruct (decide (opened y = 0)%nat) as [->|Hne]; cbn; [done|].
    by rewrite (decide_False (P:=(S (opened y) = 0)%nat)) by lia.
  - rewrite Hq in IH. destruct (decide (opened y = 0)%nat); [done|]. injection IH as -> _. split; [done|lia].
Qed.

(** ** Properties *)

(** Waiting for ICE candidates. The callback of [waitICEGathering] never
    closes its channel twice, also when gathering restarts; but the state is
    tested before the callback is registered: when gathering completes in
    between, nothing wakes the waiter, and, unless gathering starts again, it
    can only return an error although the candidates are there. *)
Theorem gathering_wakeup_lost :
  (∀ g, rtc gather_any gathering_init g → ∃ g', notify g = Ok g') ∧
  ∃ g, rtc gather_step gathering_init g ∧ complete g = true ∧ wait g = WSelect ∧
    ∀ g', rtc gather_step g g' → complete g' = true ∧ (wait g' = WSelect ∨ ∃ e, wait g' = WReturn (Some e)).
Proof.
  split.
  - intros g Hr. destruct (notify_ok g (gather_reachable_ok g Hr)) as (g' & Hg & _). by exists g'.
  - set (g1 := set_wait WRegister gathering_init). set (g2 := set_notified (set_complete true g1)).
    exists (register g2). split_and!; [|done|done|].
    + eapply rtc_l; [by apply wait_check|]. eapply rtc_l; [by apply gather_complete|].
      eapply rtc_l; [by apply (gather_notify _ g2)|]. eapply rtc_l; [by apply wait_register|]. apply rtc_refl.
    + intros g' Hs. assert (missed g') as [? _ _ ?]; [|done].
      assert (missed (register g2)) as H0 by (split; auto; by left).
      revert H0. induction Hs as [|x y z Hxy _ IH]; [done|]. intros Hm. by eapply IH, missed_step.
Qed.

(** Whatever DataChannels open, [waitForOpen] returns the first one or an error,
    and once one has opened a wait that has not returned can return it. *)
Theorem first_channel_returned o (Hr : rtc open_step opening_init o) :
  match result o with
  | None => (0 < opened o)%nat → ∃ o', open_step o o' ∧ result o' = Some (inl 0%nat)
  | Some (inl ch) => ch = 0%nat ∧ (0 < opened o)%nat
  | Some (inr _) => True
  end.
Proof.
  pose proof (opening_ok o Hr) as Ho. destruct (result o) as [[ch|e]|] eqn:E; [done|done|].
  intros Hpos. rewrite decide_False in Ho by lia. eexists. split; [by apply (wait_open o 0 [])|done].
Qed.

Lemma first_channel_returned_witness :
  ∃ o', open_step (on_open (on_open opening_init)) o' ∧ result o' = Some (inl 0%nat).
Proof.
  apply (first_channel_returned (on_open (on_open opening_init))); [|cbn; lia].
  eapply rtc_l; [apply dc_open|]. eapply rtc_l; [apply dc_open|]. apply rtc_refl.
Defined.
