(* ===== verification/PeerState.v ===== *)
(** * A peer and the ICE state it has seen (peer/peer.go)

    [New] fills in the configuration, asks pion for a PeerConnection and registers
    two callbacks on it: one for DataChannels ([PeerConn] has what becomes of
    them), and one that records each ICE connection state under the lock and, after
    it has released the lock, tells the application.  pion may run the callback on
    several goroutines, so that between the two there may be others. *)

From Stdlib Require Import ZArith Lia.
From stdpp Require Import numbers strings list relations.
From S2P Require Import Prelude SignalWire Peer.

Section state.
Context {St : Type} (StateNew : St).     (* webrtc.ICEConnectionState and its zero *)

(** [p_hook] says whether the application has given a callback; [p_telling] are the
    states that a callback has recorded and not yet passed on.  [p_told] and [p_seen]
    are records: what the application has been told, and what pion has reported. *)
Record peer : Type := {
  p_role : Z;
  p_cfg : Config;
  p_state : St;
  p_hook : bool;
  p_telling : list St;
  p_told : list St;
  p_seen : list St
}.

(** [New], given the outcome of [NewPeerConnection] for the ICE servers. *)
Definition New (role : Z) (cfg : Config) (hook : bool) (NewPeerConnection : list ICEServer → option error) : peer + error :=
  let cfg := applyDefaults cfg in
  match NewPeerConnection (default [] (ICEServers cfg)) with
  | Some err => inr (wrapf "peer: NewPeerConnection: " err)
  | None => inl {| p_role := role; p_cfg := cfg; p_state := StateNew; p_hook := hook; p_telling := []; p_told := []; p_seen := [] |}
  end.

Definition ICEState (p : peer) : St := p_state p.

(** The callback up to its [Unlock]. *)
Definition recorded (s : St) (p : peer) : peer :=
  {| p_role := p_role p; p_cfg := p_cfg p; p_state := s; p_hook := p_hook p;
     p_telling := if p_hook p then p_telling p ++ [s] else p_telling p; p_told := p_told p; p_seen := p_seen p ++ [s] |}.

(** The rest of the callback with number [i] of those under way. *)
Definition told (i : nat) (s : St) (p : peer) : peer :=
  {| p_role := p_role p; p_cfg := p_cfg p; p_state := p_state p; p_hook := p_hook p;
     p_telling := delete i (p_telling p); p_told := p_told p ++ [s]; p_seen := p_seen p |}.

Inductive state_step (p : peer) : peer → Prop :=
  | st_record s : state_step p (recorded s p)
  | st_tell i s : p_telling p !! i = Some s → state_step p (told i s p).

(** pion runs a callback only when the one before it has returned. *)
Inductive serial_step (p : peer) : peer → Prop :=
  | se_record s : p_telling p = [] → serial_step p (recorded s p)
  | se_tell s : p_telling p !! 0%nat = Some s → serial_step p (told 0 s p).

(** ** Invariants *)

Record peer_ok (p : peer) : Prop := {
  po_last : p_state p = default StateNew (last (p_seen p));
  po_told : if p_hook p then p_told p ++ p_telling p ≡ₚ p_seen p else p_told p = [] ∧ p_telling p = []
}.

Lemma peer_ok_step p p' : peer_ok p → state_step p p' → peer_ok p'.
Proof.
  intros [H1 H2]. destruct 1 as [s|i s Hi].
  - split; cbn; [by rewrite last_snoc|]. destruct (p_hook p); [|done]. by rewrite app_assoc, H2.
  - split; [done|]. cbn. destruct (p_hook p); [|destruct H2 as [_ H2]; by rewrite H2, lookup_nil in Hi].
    rewrite <- H2, <- app_assoc. apply Permutation_app_head. symmetry. by apply delete_Permutation.
Qed.

Lemma serial_state p p' : serial_step p p' → state_step p p'.
Proof. destruct 1; [apply st_record|by apply st_tell]. Qed.

Lemma New_ok role cfg hook pc p : New role cfg hook pc = inl p → peer_ok p ∧ p_hook p = hook ∧ p_told p ++ p_telling p = p_seen p.
Proof. unfold New. destruct (pc _); [done|]. intros [= <-]. split; [|done]. split; [done|]. cbn. by destruct hook. Qed.

Lemma hook_step p p' : state_step p p' → p_hook p' = p_hook p.
Proof. by destruct 1. Qed.

(** ** Properties *)

(** A peer that has been made is configured by the defaults for what is left open
    and starts in the new state.  From then on [ICEState] is the state that pion has
    reported last; an application with a callback is told of every report once, and
    in their order when pion runs one callback at a time; one without is told
    nothing. *)
Theorem ice_state role cfg hook pc p p' (Hnew : New role cfg hook pc = inl p) (Hs : rtc state_step p p') :
  p_role p = role ∧ p_cfg p = applyDefaults cfg ∧ ICEState p = StateNew ∧
  ICEState p' = default StateNew (last (p_seen p')) ∧
  (if hook then p_told p' ++ p_telling p' ≡ₚ p_seen p' else p_told p' = []) ∧
  (hook = true → rtc serial_step p p' → p_told p' `prefix_of` p_seen p').
Proof.
  destruct (New_ok _ _ _ _ _ Hnew) as (Hok & Hh & Heq).
  assert (peer_ok p' ∧ p_hook p' = hook) as [[H1 H2] Hh'].
  { clear Heq Hnew. revert Hok Hh. induction Hs as [|x y z Hxy _ IH]; [done|]. intros Hok Hh. apply IH; [by eapply peer_ok_step|].
    rewrite <- Hh. by apply hook_step. }
  unfold New in Hnew. destruct (pc _); [done|]. injection Hnew as <-. split_and!; try done.
  - rewrite Hh' in H2. by destruct hook; [|destruct H2].
  - intros -> Hser. enough (p_told p' ++ p_telling p' = p_seen p' ∧ p_hook p' = true) as [<- _] by by apply prefix_app_r.
    clear H1 H2 Hh' Hs Hok Hh. match type of Hser with rtc _ ?x _ => assert (p_told x ++ p_telling x = p_seen x ∧ p_hook x = true) as H by done end.
    clear Heq. revert H. induction Hser as [|x y z Hxy _ IH]; [done|]. intros [H Hh]. apply IH.
    destruct Hxy as [s Hnil|s Hi]; cbn.
    + rewrite Hh, <- H, Hnil. split; [by rewrite !app_nil_r|done].
    + destruct (p_telling x) as [|s0 rest]; [done|]. injection Hi as ->. cbn. rewrite <- H. split; [by rewrite <- app_assoc|done].
Qed.

(** Two callbacks at once: the application is told last of a state that is over. *)
Theorem told_out_of_order (s t : St) p :
  p_hook p = true → p_telling p = [] →
  ∃ p', rtc state_step p p' ∧ ICEState p' = t ∧ p_told p' = p_told p ++ [t; s].
Proof.
  intros Hh Hn. exists (told 0 s (told 1 t (recorded t (recorded s p)))). split; [|split; [done|cbn; by rewrite <- app_assoc]].
  eapply rtc_l; [by apply (st_record p s)|]. eapply rtc_l; [by apply (st_record _ t)|].
  eapply rtc_l; [apply (st_tell _ 1 t); cbn; by rewrite Hh, Hn|]. apply rtc_once. apply st_tell. cbn. by rewrite Hh, Hn.
Qed.
End state.

Lemma ice_state_witness :
  ∃ p, New 0%Z 1%Z ex_cfg true (λ _, None) = inl p ∧ ICEState (recorded 3%Z p) = 3%Z.
Proof.
  eexists. split; [reflexivity|].
  destruct (ice_state 0%Z 1%Z ex_cfg true (λ _, None) _ (recorded 3%Z {| p_role := 1; p_cfg := applyDefaults ex_cfg; p_state := 0%Z;
    p_hook := true; p_telling := []; p_told := []; p_seen := [] |}) eq_refl (rtc_once _ _ (st_record _ 3%Z))) as (_ & _ & _ & H & _).
  exact H.
Defined.
