(* ===== verification/PeerLocal.v ===== *)
(** * Negotiation over the in-process backend

    [Peer.Dial] and [Peer.Accept] as they run over two sessions of
    [signal.Local]: a [Send] goes through the session's channel, its pump, the
    broadcast and the other session's pump before the other side's wait sees it.
    The composed system refines the signaling service of [Peer], and so
    negotiation completes over the real backend. *)

From Stdlib Require Import ZArith Lia.
From stdpp Require Import numbers strings gmap fin_maps relations list.
From S2P Require Import Prelude SignalWire Peer Session SignalLocal SignalLocalProps.

(** ** The composed system *)

(** The backend, and of each session's owner the program and the description it
    has applied. *)
Record world : Type := { net : Local; code : nat → Peer.prog; remote : nat → option string }.

Definition set_net (L : Local) (W : world) : world := {| net := L; code := code W; remote := remote W |}.

Definition set_code (i : nat) (pr : Peer.prog) (W : world) : world :=
  {| net := net W; code := λ j, if decide (j = i) then pr else code W j; remote := remote W |}.

Definition call_effect (i : nat) (c : Peer.pion_call) (W : world) : world :=
  match c with
  | Peer.SetRemoteDescription d =>
      {| net := net W; code := code W; remote := λ j, if decide (j = i) then Some d else remote W j |}
  | _ => W
  end.

(** The message [Send] hands over: a new object, stamped with the service. *)
Definition fresh_message (s : session) (b : SignalBody) (p : nat) (L : Local) : Local :=
  set_message p {| Service := service s; Body := b |} L.

Section compose.
Context (sdp : nat → string).

(** The steps in which nothing fails: of the backend's goroutines, and of the
    two programs. *)
Inductive step (W : world) : world → Prop :=
  | step_net L' : internal_step (net W) L' → step W (set_net L' W)
  | step_call i c k : code W i = Peer.Call c k → step W (set_code i (k None) (call_effect i c W))
  | step_send i s p mk k :
      code W i = Peer.Send mk k → sessions (net W) !! i = Some s → messages (net W) !! p = None →
      Send_outcome None (out s) (done s) (Ok tt) →
      step W (set_code i (k None)
                (set_net (set_session i (accept p s) (fresh_message s (mk (sdp i)) p (net W))) W))
  | step_take i s m q msg pick k d :
      code W i = Peer.Await pick k → sessions (net W) !! i = Some s → queue (in_ s) = m :: q →
      messages (net W) !! m = Some msg → pick (Body msg) = Some d →
      step W (set_code i (k (inl d))
                (set_net (set_session i (with_got m (with_in (set_queue q (in_ s)) s)) (net W)) W))
  | step_skip i s m q msg pick k :
      code W i = Peer.Await pick k → sessions (net W) !! i = Some s → queue (in_ s) = m :: q →
      messages (net W) !! m = Some msg → pick (Body msg) = None →
      step W (set_net (set_session i (with_got m (with_in (set_queue q (in_ s)) s)) (net W)) W)
  | step_open i j :
      code W i = Peer.waitForOpen → remote W i = Some (sdp j) → remote W j = Some (sdp i) →
      step W (set_code i (Peer.Return (inl tt)) W).

End compose.

(** ** Two sessions *)

Definition dialer : nat := 1.
Definition acceptor : nat := 2.

(** [NewLocal], and the [Exchange] of both before either negotiates. *)
Definition joined (srv a b : string) : Local := (Exchange srv b (Exchange srv a NewLocal).2).2.

Definition start (cfg : Peer.Config) (srv a b : string) : world :=
  {| net := joined srv a b;
     code := λ i, Peer.code (Peer.init cfg (Peer.two_peers dialer acceptor) i);
     remote := λ _, None |}.

Definition other (i : nat) : nat := if decide (i = dialer) then acceptor else dialer.

(** What [i] has yet to receive, as bodies: the messages the other has sent less
    those [i] has received. *)
Definition bodies (L : Local) (ms : list nat) : list SignalBody :=
  omap (λ m, Body <$> messages L !! m) ms.

Definition waiting (L : Local) (i : nat) : list SignalBody :=
  match sessions L !! i, sessions L !! other i with
  | Some s, Some t => bodies L (drop (length (got s)) (sent t))
  | _, _ => []
  end.

(** The party of [Peer]'s service that [i] stands for. *)
Definition party_of (W : world) (i : nat) : Peer.party :=
  {| Peer.code := code W i; Peer.inbox := waiting (net W) i; Peer.remote := remote W i |}.

Definition active (i : nat) : Prop := i = dialer ∨ i = acceptor.

(** ** The invariant of the two sessions *)

(** Both sessions are open in one service, and each has taken what the other has
    broadcast. *)
Record sessions_ok (s t : session) : Prop := {
  so_open : cleanup s = COpen ∧ cleanup t = COpen;
  so_svc : svc s = svc t;
  so_ids : peerID s ≠ peerID t;
  so_took : (took s).*2 = cast t ∧ (took t).*2 = cast s }.

Record paired (L : Local) : Prop := {
  pr_reach : reachable L;
  pr_two : ∃ s t, sessions L = {[dialer := s; acceptor := t]} ∧ sessions_ok s t;
  pr_heap i s : sessions L !! i = Some s → Forall (λ m, is_Some (messages L !! m)) (sent s);
  pr_sent i s : sessions L !! i = Some s → (length (sent s) ≤ 1)%nat }.

Lemma other_active i : active i → active (other i) ∧ other i ≠ i ∧ other (other i) = i.
Proof. intros [->| ->]; (split; [|done]); [by right|by left]. Qed.

Lemma sessions_ok_sym s t : sessions_ok s t → sessions_ok t s.
Proof. intros [[? ?] ? ? [? ?]]. split; auto. Qed.

Lemma pair_swap (s t : session) :
  {[dialer := s; acceptor := t]} = {[acceptor := t; dialer := s]} :> gmap nat session.
Proof. by apply insert_insert_ne. Qed.

Lemma pair_lookup L i :
  paired L → active i →
  ∃ s t, sessions L !! i = Some s ∧ sessions L !! other i = Some t ∧ sessions_ok s t ∧
    sessions L = {[i := s; other i := t]}.
Proof.
  intros [_ (s & t & HL & Hok) _ _] [->| ->].
  - exists s, t. rewrite HL. by split_and!.
  - exists t, s. rewrite HL. split_and!; [done|done|by apply sessions_ok_sym|].
    apply pair_swap.
Qed.

Lemma pair_none L i s t :
  sessions L = {[i := s; other i := t]} → ∀ j, j ≠ i → j ≠ other i → sessions L !! j = None.
Proof. intros HL j H1 H2. by rewrite HL, lookup_insert_ne, lookup_singleton_ne. Qed.

Lemma paired_only L i s : paired L → sessions L !! i = Some s → active i.
Proof.
  intros [_ (s1 & s2 & HL & _) _ _]. rewrite HL. intros Hi.
  apply lookup_insert_Some in Hi as [[<- _]|[_ Hi]]; [by left|].
  apply lookup_singleton_Some in Hi as [<- _]. by right.
Qed.

(** What both sessions become, when one takes a step of its own. *)
Lemma sessions_ok_same s s' t :
  sessions_ok s t → cleanup s' = COpen → svc s' = svc s → peerID s' = peerID s → took s' = took s →
  cast s' = cast s → sessions_ok s' t.
Proof. intros [[? ?] ? ? [? ?]] E1 E2 E3 E4 E5. split; rewrite ?E2, ?E3, ?E4, ?E5; auto. Qed.

Lemma pump_open s s' :
  pump_step s s' → cleanup s = COpen →
  cleanup s' = COpen ∧ svc s' = svc s ∧ peerID s' = peerID s ∧ took s' = took s ∧ cast s' = cast s ∧
  sent s' = sent s ∧ got s' = got s.
Proof. intros [] Hc; cbn; try congruence; by split_and!. Qed.

Lemma room_for_one L i s t :
  paired L → sessions L !! i = Some s → sessions L !! other i = Some t → sessions_ok s t →
  has_room (inbox s).
Proof.
  intros HP Hs Ht [[Ho _] _ _ [Htk _]].
  pose proof (reachable_WF L (pr_reach L HP)) as HWF.
  destruct (WF_ok L i s HWF Hs) as [_ (ri & Hi & Hir) _ _ _ _ _ Hex _].
  destruct (WF_ok L _ t HWF Ht) as [(ro & Hsent & _) _ _ _ _ _ _ _ _].
  pose proof (pr_sent L HP _ t Ht) as Hlen. rewrite Hsent, length_app, <- Htk, Hi, !length_app in Hlen.
  assert (ri = held_in (inbound s) ++ queue (inbox s)) as Hr by (apply Hir; intros E; by destruct Hex; [right|]).
  rewrite Hr, length_app in Hlen. unfold has_room, chan_cap. lia.
Qed.

Lemma paired_update L L' i s s' t t' :
  paired L → active i → reachable L' → messages L' = messages L →
  sessions L !! i = Some s → sessions L !! other i = Some t →
  (∀ j, sessions L' !! j = if decide (j = i) then Some s' else if decide (j = other i) then Some t' else None) →
  sessions_ok s' t' → sent s' = sent s → sent t' = sent t → paired L'.
Proof.
  intros HP Hi Hr Hm Hs Ht HL' Hok Hs' Ht'. destruct (other_active i Hi) as (Hj & Hne & Hoo).
  assert (∀ j p, sessions L' !! j = Some p → ∃ p0, sessions L !! j = Some p0 ∧ sent p = sent p0) as Hall.
  { intros j p. rewrite HL'. destruct (decide (j = i)) as [->|]; [intros [= <-]; by exists s|].
    destruct (decide (j = other i)) as [->|]; [intros [= <-]; by exists t|done]. }
  split; [done| | |].
  - assert (sessions L' = {[i := s'; other i := t']}) as HL.
    { apply map_eq. intros j. rewrite HL'. destruct (decide (j = i)) as [->|]; [by simplify_map_eq|].
      destruct (decide (j = other i)) as [->|]; by simplify_map_eq. }
    destruct Hi as [->| ->]; [by exists s', t'|]. exists t', s'. split; [|by apply sessions_ok_sym].
    rewrite HL. symmetry. apply pair_swap.
  - intros j p Hp. destruct (Hall j p Hp) as (p0 & Hp0 & ->). rewrite Hm. by apply (pr_heap L HP j).
  - intros j p Hp. destruct (Hall j p Hp) as (p0 & Hp0 & ->). by apply (pr_sent L HP j).
Qed.

(** ** The backend's goroutines change nothing a party can see *)

Definition streams (s : session) : list nat * list nat := (sent s, got s).

Definition same_streams (L L' : Local) : Prop :=
  messages L' = messages L ∧ ∀ j, streams <$> sessions L' !! j = streams <$> sessions L !! j.

Lemma waiting_same L L' i : same_streams L L' → waiting L' i = waiting L i.
Proof.
  intros [Hm Hs]. unfold waiting, bodies. pose proof (Hs i) as Hi. pose proof (Hs (other i)) as Ho.
  rewrite Hm. destruct (sessions L' !! i), (sessions L !! i); try done.
  destruct (sessions L' !! other i), (sessions L !! other i); try done. cbn in *.
  unfold streams in *. by simplify_eq/=; congruence.
Qed.

Lemma net_pump L l s s' :
  paired L → sessions L !! l = Some s → pump_step s s' →
  paired (set_session l s' L) ∧ same_streams L (set_session l s' L).
Proof.
  intros HP Hl Hs. pose proof (paired_only L l s HP Hl) as Hact.
  destruct (pair_lookup L l HP Hact) as (s0 & t & Hl0 & Ht & Hok & HL). assert (s0 = s) as -> by congruence.
  destruct (other_active l Hact) as (_ & Hne & _).
  destruct (pump_open s s' Hs (proj1 (so_open _ _ Hok))) as (H1 & H2 & H3 & H4 & H5 & H6 & H7).
  split.
  - apply (paired_update L _ l s s' t t); try done.
    + eapply rtc_r; [apply HP|]. by eapply step_pump.
    + intros j. cbn. rewrite HL. destruct (decide (j = l)) as [->|]; [by simplify_map_eq|].
      destruct (decide (j = other l)) as [->|]; by simplify_map_eq.
    + by eapply sessions_ok_same.
  - split; [done|]. intros j. cbn. destruct (decide (j = l)) as [->|]; [|by simplify_map_eq].
    rewrite lookup_insert, decide_True, Hl by done. cbn. unfold streams. by rewrite H6, H7.
Qed.

Lemma net_cast L l s v m ps L' :
  paired L → sessions L !! l = Some s → outbound s = OCast m → svc_heap L !! svc s = Some v →
  ps ≡ₚ map_to_list (peers v) → broadcast l s m ps L = Ok L' → paired L' ∧ same_streams L L'.
Proof.
  intros HP Hl Ho Hv Hps Hb. pose proof (paired_only L l s HP Hl) as Hact.
  pose proof (reachable_WF L (pr_reach L HP)) as HWF.
  destruct (pair_lookup L l HP Hact) as (s0 & t & Hl0 & Ht & Hok & HL). assert (s0 = s) as -> by congruence.
  destruct (other_active l Hact) as (Hoact & Hne & Hoo).
  destruct (broadcast_spec L l s v m ps HWF Hl Hv Hps) as (L1 & Hb1 & Htab & Hspec).
  rewrite Hb in Hb1. injection Hb1 as <-. destruct Htab as (_ & _ & Hmsg & _ & _).
  destruct Hok as [[Hos Hot] Hsv Hids [Htk1 Htk2]].
  assert (other l ∈ targets (peerID s) ps) as Hin.
  { apply (targets_iff L l s v ps (other l) t HWF Hl Hv Hps Ht). split_and!; [by symmetry|by rewrite Hot|].
    intros E. by apply Hids. }
  assert (has_room (inbox t)) as Hroom.
  { apply (room_for_one L (other l) t s); [done|done|by rewrite Hoo|]. by split; auto. }
  set (s' := with_cast m (with_outbound OLoop s)). set (t' := with_took l m (with_inbox (enqueue m (inbox t)) t)).
  assert (∀ j, sessions L' !! j = if decide (j = l) then Some s' else if decide (j = other l) then Some t' else None) as HL'.
  { intros j. rewrite Hspec. unfold after. destruct (decide (j = l)) as [->|Hj]; [by rewrite Hl|].
    destruct (decide (j = other l)) as [->|Hj2].
    - rewrite Ht. cbn. rewrite decide_True by done. unfold offered. by rewrite decide_True.
    - by rewrite (pair_none L l s t HL j Hj Hj2). }
  split.
  - apply (paired_update L L' l s s' t t'); try done.
    + eapply rtc_r; [apply HP|]. by apply (SignalLocal.step_broadcast l s v m ps).
    + split; cbn; [by split|done|done|]. rewrite fmap_app. cbn. by rewrite Htk1, Htk2.
  - split; [done|]. intros j. rewrite HL'. destruct (decide (j = l)) as [->|]; [by rewrite Hl|].
    destruct (decide (j = other l)) as [->|]; [by rewrite Ht|]. by rewrite (pair_none L l s t HL).
Qed.

Lemma net_step L L' : paired L → internal_step L L' → paired L' ∧ same_streams L L'.
Proof.
  intros HP Hs. destruct Hs as [l s s' L Hl Hs|l s v m ps L L' Hl Ho Hv Hps Hb|l s L Hl Hc|l s L Hl Hc].
  - by eapply net_pump.
  - by eapply net_cast.
  - exfalso. destruct (pair_lookup L l HP (paired_only L l s HP Hl)) as (s0 & t & Hl0 & _ & [[? _] _ _ _] & _). congruence.
  - exfalso. destruct (pair_lookup L l HP (paired_only L l s HP Hl)) as (s0 & t & Hl0 & _ & [[? _] _ _ _] & _). congruence.
Qed.

(** ** What a party receives and sends *)

Lemma bodies_cons L m ms msg : messages L !! m = Some msg → bodies L (m :: ms) = Body msg :: bodies L ms.
Proof. intros Hm. unfold bodies. cbn. by rewrite Hm. Qed.

Lemma bodies_app L ms ms' : bodies L (ms ++ ms') = bodies L ms ++ bodies L ms'.
Proof. apply omap_app. Qed.

(** A new object does not change the bodies of known ones. *)
Lemma bodies_fresh L p msg ms :
  messages L !! p = None → Forall (λ m, is_Some (messages L !! m)) ms →
  bodies (set_message p msg L) ms = bodies L ms.
Proof.
  intros Hp. induction 1 as [|m ms [b Hb] _ IH]; [done|].
  rewrite (bodies_cons L m ms b) by done. rewrite (bodies_cons _ m ms b); [by rewrite IH|].
  cbn. rewrite lookup_insert_ne; [done|congruence].
Qed.

(** What has been received is a prefix of what the other side has sent. *)
Lemma got_prefix L i s t :
  paired L → sessions L !! i = Some s → sessions L !! other i = Some t → sessions_ok s t →
  ∃ rest, sent t = got s ++ queue (in_ s) ++ rest.
Proof.
  intros HP Hs Ht [_ _ _ [Htk _]]. pose proof (reachable_WF L (pr_reach L HP)) as HWF.
  destruct (WF_ok L i s HWF Hs) as [_ (ri & Hi & _) _ _ _ _ _ _ _].
  destruct (WF_ok L _ t HWF Ht) as [(ro & Hsent & _) _ _ _ _ _ _ _ _].
  exists (ri ++ ro). by rewrite Hsent, <- Htk, Hi, <- !app_assoc.
Qed.

Lemma net_receive L i s m q :
  paired L → sessions L !! i = Some s → queue (in_ s) = m :: q →
  let L' := set_session i (with_got m (with_in (set_queue q (in_ s)) s)) L in
  ∃ msg, messages L !! m = Some msg ∧ paired L' ∧
    waiting L i = Body msg :: waiting L' i ∧ ∀ j, active j → j ≠ i → waiting L' j = waiting L j.
Proof.
  intros HP Hs Hq L'. set (s' := with_got m _) in L'. pose proof (paired_only L i s HP Hs) as Hact.
  destruct (pair_lookup L i HP Hact) as (s0 & t & Hl0 & Ht & Hok & HL). assert (s0 = s) as -> by congruence.
  destruct (other_active i Hact) as (Hoact & Hne & Hoo).
  destruct (got_prefix L i s t HP Hs Ht Hok) as (rest & Hsent). rewrite Hq in Hsent.
  assert (m ∈ sent t) as Hin by (rewrite Hsent; set_solver).
  destruct (proj1 (Forall_forall _ _) (pr_heap L HP _ t Ht) m Hin) as [msg Hmsg]. exists msg. split; [done|].
  assert (sessions L' !! i = Some s') as Hi' by (cbn; by simplify_map_eq).
  assert (sessions L' !! other i = Some t) as Ho' by (cbn; by simplify_map_eq).
  split_and!.
  - apply (paired_update L L' i s s' t t); try done.
    + eapply rtc_r; [apply HP|]. by apply (SignalLocal.step_user i s), receive.
    + intros j. cbn. rewrite HL. destruct (decide (j = i)) as [->|]; [by simplify_map_eq|].
      destruct (decide (j = other i)) as [->|]; by simplify_map_eq.
    + apply (sessions_ok_same s s' t); try done. exact (proj1 (so_open _ _ Hok)).
  - unfold waiting. rewrite Hs, Ht, Hi', Ho', Hsent. change (got s') with (got s ++ [m]).
    rewrite drop_app_length.
    replace (got s ++ (m :: q) ++ rest) with ((got s ++ [m]) ++ q ++ rest) by (by rewrite <- app_assoc).
    rewrite drop_app_length. exact (bodies_cons L m (q ++ rest) msg Hmsg).
  - intros j Hj Hji. assert (j = other i) as -> by (destruct Hact as [->| ->], Hj as [->| ->]; done).
    unfold waiting. rewrite Hoo, Hi', Ho', Hs, Ht. done.
Qed.

Lemma net_send L i s p b :
  paired L → sessions L !! i = Some s → messages L !! p = None → sent s = [] →
  Send_outcome None (out s) (done s) (Ok tt) →
  let L' := set_session i (accept p s) (fresh_message s b p L) in
  paired L' ∧ waiting L' i = waiting L i ∧ ∀ j, active j → j ≠ i → waiting L' j = waiting L j ++ [b].
Proof.
  intros HP Hs Hp Hnil Hsend L'. pose proof (paired_only L i s HP Hs) as Hact.
  destruct (pair_lookup L i HP Hact) as (s0 & t & Hl0 & Ht & Hok & HL). assert (s0 = s) as -> by congruence.
  destruct (other_active i Hact) as (Hoact & Hne & Hoo).
  set (msg := {| Service := service s; Body := b |}).
  assert (sessions L' !! i = Some (accept p s)) as Hi' by (cbn; by simplify_map_eq).
  assert (sessions L' !! other i = Some t) as Ho' by (cbn; by simplify_map_eq).
  assert (∀ ms, Forall (λ m, is_Some (messages L !! m)) ms → bodies L' ms = bodies L ms) as Hbod
    by (intros ms; by apply (bodies_fresh L p msg)).
  assert (∀ ms, Forall (λ m, is_Some (messages L !! m)) ms → Forall (λ m, is_Some (messages L' !! m)) ms) as Hheap.
  { intros ms Hms. eapply Forall_impl; [exact Hms|]. intros m [x Hx]. cbn. rewrite lookup_insert_ne by congruence. by exists x. }
  pose proof (pr_heap L HP _ t Ht) as Htheap.
  split_and!.
  - split.
    + eapply rtc_r; [eapply rtc_r; [apply HP|by apply (SignalLocal.step_alloc p msg)]|].
      by apply (SignalLocal.step_send i s p).
    + assert (sessions L' = {[i := accept p s; other i := t]}) as HL2.
      { cbn. rewrite HL. by rewrite insert_insert_eq. }
      assert (sessions_ok (accept p s) t) as Hok' 
        by (apply (sessions_ok_same s); try done; exact (proj1 (so_open _ _ Hok))).
      destruct Hact as [->| ->]; [by exists (accept p s), t|]. exists t, (accept p s).
      split; [|by apply sessions_ok_sym]. rewrite HL2. symmetry. apply pair_swap.
    + intros j x Hx. destruct (decide (j = i)) as [->|Hj].
      * assert (x = accept p s) as -> by congruence. cbn. rewrite Hnil. constructor; [|done]. simplify_map_eq. done.
      * apply Hheap, (pr_heap L HP j). cbn in Hx. by rewrite lookup_insert_ne in Hx.
    + intros j x Hx. destruct (decide (j = i)) as [->|Hj].
      * assert (x = accept p s) as -> by congruence. cbn. rewrite Hnil. done.
      * apply (pr_sent L HP j). cbn in Hx. by rewrite lookup_insert_ne in Hx.
  - unfold waiting. rewrite Hi', Ho', Hs, Ht. cbn [got accept with_sent with_out]. by apply Hbod, Forall_drop.
  - intros j Hj Hji. assert (j = other i) as -> by (destruct Hact as [->| ->], Hj as [->| ->]; done).
    unfold waiting. rewrite Hoo, Hi', Ho', Hs, Ht. cbn [sent accept with_sent with_out].
    assert (got t = []) as ->.
    { destruct (got_prefix L (other i) t s HP Ht) as (rest & Hg); [by rewrite Hoo|by apply sessions_ok_sym|].
      rewrite Hnil in Hg. by destruct (got t). }
    rewrite Hnil. unfold bodies. cbn. by simplify_map_eq.
Qed.

(** ** The simulation *)

Section simulation.
Context (sdp : nat → string) (cfg : Peer.Config).

(** The composed system refines the service of [Peer]: both parties agree with
    theirs, nobody else takes part; the service is [n] steps of the dialer and
    [m] of the acceptor away from its start, and a session has sent nothing
    before its party's [Send]. *)
Record coupled (W : world) (σ : Peer.service) (n m : nat) : Prop := {
  cp_party i : active i → σ i = party_of W i;
  cp_rest i : ¬ active i → (∃ r, code W i = Peer.Return r) ∧ remote W i = None ∧ Peer.remote (σ i) = None;
  cp_pair : Peer.pair_at sdp cfg dialer acceptor σ n m;
  cp_net : paired (net W);
  cp_quiet i s : sessions (net W) !! i = Some s →
    (i = dialer ∧ n ≤ 4 ∨ i = acceptor ∧ m ≤ 5)%nat → sent s = [] }.

Lemma coupled_code W σ n m i : coupled W σ n m → active i → Peer.code (σ i) = code W i.
Proof. intros HC Hi. by rewrite (cp_party _ _ _ _ HC i Hi). Qed.

(** A party with a program left is one of the two. *)
Lemma coupled_active W σ n m i : coupled W σ n m → (∀ r, code W i ≠ Peer.Return r) → active i.
Proof.
  intros HC Hne. destruct (decide (i = dialer)) as [?|H1]; [by left|].
  destruct (decide (i = acceptor)) as [?|H2]; [by right|].
  destruct (cp_rest _ _ _ _ HC i) as [[r Hr] _]; [by intros [?|?]|]. by destruct (Hne r).
Qed.

(** The state after a step of party [i] that sends nothing. *)
Lemma coupled_party W σ n m i p W' n' m' :
  coupled W σ n m → active i →
  Peer.pair_at sdp cfg dialer acceptor (Peer.set_party i p σ) n' m' → (n ≤ n')%nat → (m ≤ m')%nat →
  paired (net W') → p = party_of W' i →
  (∀ j, j ≠ i → code W' j = code W j ∧ remote W' j = remote W j) →
  (∀ j, active j → j ≠ i → waiting (net W') j = waiting (net W) j) →
  (∀ j s', sessions (net W') !! j = Some s' → ∃ s, sessions (net W) !! j = Some s ∧ sent s' = sent s) →
  coupled W' (Peer.set_party i p σ) n' m'.
Proof.
  intros HC Hi HP Hn Hm Hnet -> Hsame Hwait Hsent. split.
  - intros j Hj. unfold Peer.set_party. destruct (decide (j = i)) as [->|Hne]; [done|].
    rewrite (cp_party _ _ _ _ HC j Hj). unfold party_of. destruct (Hsame j Hne) as [-> ->].
    by rewrite Hwait.
  - intros j Hj. destruct (decide (j = i)) as [->|Hne]; [done|]. destruct (Hsame j Hne) as [-> ->].
    unfold Peer.set_party. rewrite decide_False by done. by apply (cp_rest _ _ _ _ HC).
  - done.
  - done.
  - intros j s' Hs' Hq. destruct (Hsent j s' Hs') as (s & Hs & ->). apply (cp_quiet _ _ _ _ HC j s Hs). lia.
Qed.

Definition simulated (W W' : world) (σ : Peer.service) (n m : nat) : Prop :=
  ∃ σ', Peer.ok_step sdp σ σ' ∧ (coupled W' σ' (S n) m ∨ coupled W' σ' n (S m)).

Lemma coupled_move W σ n m i p W' :
  coupled W σ n m → active i → Peer.ok_step sdp σ (Peer.set_party i p σ) →
  paired (net W') → p = party_of W' i →
  (∀ j, j ≠ i → code W' j = code W j ∧ remote W' j = remote W j) →
  (∀ j, active j → j ≠ i → waiting (net W') j = waiting (net W) j) →
  (∀ j s', sessions (net W') !! j = Some s' → ∃ s, sessions (net W) !! j = Some s ∧ sent s' = sent s) →
  simulated W W' σ n m.
Proof.
  intros HC Hi Hs Hnet Hp Hsame Hwait Hsent. exists (Peer.set_party i p σ). split; [done|].
  destruct (Peer.pair_step sdp cfg dialer acceptor ltac:(done) σ _ n m (cp_pair _ _ _ _ HC) Hs) as [HP|HP];
    [left|right]; eapply coupled_party; eauto.
Qed.

Lemma sim_call W σ n m i c k :
  coupled W σ n m → code W i = Peer.Call c k →
  simulated W (set_code i (k None) (call_effect i c W)) σ n m.
Proof.
  intros HC Hc. assert (active i) as Hi by (by apply (coupled_active W σ n m i HC); rewrite Hc).
  assert (net (call_effect i c W) = net W) as Hnet by (by destruct c).
  apply (coupled_move W σ n m i (Peer.set_code (k None) (Peer.after_call c (σ i)))); try done.
  - apply (Peer.step_call sdp σ i c k); [by rewrite (coupled_code W σ n m)|done].
  - cbn. rewrite Hnet. apply HC.
  - rewrite (cp_party _ _ _ _ HC i Hi). unfold party_of. cbn. rewrite Hnet, !decide_True by done.
    destruct c; cbn; by rewrite ?decide_True.
  - intros j Hj. cbn. rewrite decide_False by done. destruct c; cbn; by rewrite ?decide_False.
  - cbn. by rewrite Hnet.
  - cbn. rewrite Hnet. intros j s Hs. by exists s.
Qed.

(** Receiving a message, and what the program becomes with it. *)
Lemma sim_receive W σ n m i s x q W' pr :
  coupled W σ n m → active i → sessions (net W) !! i = Some s → queue (in_ s) = x :: q →
  net W' = set_session i (with_got x (with_in (set_queue q (in_ s)) s)) (net W) →
  (∀ j, remote W' j = remote W j) → (∀ j, code W' j = if decide (j = i) then pr else code W j) →
  (∀ msg, messages (net W) !! x = Some msg →
     Peer.inbox (σ i) = Body msg :: waiting (net W') i →
     Peer.ok_step sdp σ (Peer.set_party i (Peer.set_code pr (Peer.set_inbox (waiting (net W') i) (σ i))) σ)) →
  simulated W W' σ n m.
Proof.
  intros HC Hi Hs Hq Hnet Hrem Hcode Hok.
  destruct (net_receive (net W) i s x q (cp_net _ _ _ _ HC) Hs Hq) as (msg & Hmsg & HP & Hw & Hwj).
  rewrite <- Hnet in HP, Hw, Hwj.
  apply (coupled_move W σ n m i (Peer.set_code pr (Peer.set_inbox (waiting (net W') i) (σ i)))); try done.
  - apply (Hok msg Hmsg). rewrite (cp_party _ _ _ _ HC i Hi). exact Hw.
  - rewrite (cp_party _ _ _ _ HC i Hi). unfold party_of. cbn. by rewrite Hrem, Hcode, decide_True.
  - intros j Hj. by rewrite Hrem, Hcode, decide_False.
  - intros j s'. rewrite Hnet. cbn. destruct (decide (j = i)) as [->|Hj].
    + rewrite lookup_insert, decide_True by done. intros [= <-]. by exists s.
    + rewrite lookup_insert_ne by done. intros Hj'. by exists s'.
Qed.

Lemma sim_open W σ n m i j :
  coupled W σ n m → code W i = Peer.waitForOpen → remote W i = Some (sdp j) → remote W j = Some (sdp i) →
  simulated W (set_code i (Peer.Return (inl tt)) W) σ n m.
Proof.
  intros HC Hc Hri Hrj. assert (active i) as Hi by (by apply (coupled_active W σ n m i HC); rewrite Hc).
  assert (active j) as Hj.
  { destruct (decide (j = dialer)) as [?|H1]; [by left|]. destruct (decide (j = acceptor)) as [?|H2]; [by right|].
    destruct (cp_rest _ _ _ _ HC j) as (_ & Hnone & _); [by intros [?|?]|congruence]. }
  apply (coupled_move W σ n m i (Peer.set_code (Peer.Return (inl tt)) (σ i))); try done.
  - apply (Peer.step_open sdp σ i j); [by rewrite (coupled_code W σ n m)| |done].
    unfold Peer.linked. by rewrite (cp_party _ _ _ _ HC i Hi), (cp_party _ _ _ _ HC j Hj).
  - apply HC.
  - rewrite (cp_party _ _ _ _ HC i Hi). unfold party_of. cbn. by rewrite decide_True.
  - intros j' Hne. cbn. by rewrite decide_False.
  - intros j' s Hs. by exists s.
Qed.

Lemma sim_send W σ n m i s p mk k :
  coupled W σ n m → code W i = Peer.Send mk k → sessions (net W) !! i = Some s →
  messages (net W) !! p = None → Send_outcome None (out s) (done s) (Ok tt) →
  simulated W (set_code i (k None)
    (set_net (set_session i (accept p s) (fresh_message s (mk (sdp i)) p (net W))) W)) σ n m.
Proof.
  intros HC Hc Hs Hp Hsend. set (W' := set_code _ _ _).
  assert (active i) as Hi by (by apply (coupled_active W σ n m i HC); rewrite Hc).
  assert (Peer.code (σ i) = Peer.Send mk k) as Hcσ by (by rewrite (coupled_code W σ n m)).
  set (σ' := Peer.set_party i (Peer.set_code (k None) (σ i)) (Peer.broadcast i (mk (sdp i)) σ)).
  assert (sent s = []) as Hnil.
  { apply (cp_quiet _ _ _ _ HC i s Hs).
    destruct (Peer.pair_sends sdp cfg dialer acceptor ltac:(done) σ σ' n m i mk k (cp_pair _ _ _ _ HC) Hcσ)
      as [(-> & -> & _)|(-> & -> & _)]; [done|left|right]; by split. }
  destruct (net_send (net W) i s p (mk (sdp i)) (cp_net _ _ _ _ HC) Hs Hp Hnil Hsend) as (HP & Hwi & Hwj).
  assert (∀ n' m', Peer.pair_at sdp cfg dialer acceptor σ' n' m' → (n ≤ n')%nat → (m ≤ m')%nat →
    (i = dialer ∧ 5 ≤ n' ∨ i = acceptor ∧ 6 ≤ m')%nat → coupled W' σ' n' m') as Hnext.
  { intros n' m' Hpair Hn Hm Hadv. split; [| |done|exact HP|].
    - intros j Hj. unfold σ', Peer.set_party, Peer.broadcast.
      destruct (decide (j = i)) as [->|Hne]; rewrite ?(cp_party _ _ _ _ HC _ Hj); unfold party_of, W'; cbn.
      + by rewrite decide_True, <- Hwi.
      + rewrite decide_False by done. unfold Peer.set_inbox. cbn. by rewrite (Hwj j Hj Hne).
    - intros j Hj. assert (j ≠ i) as Hne by (by intros ->). unfold σ', Peer.set_party, Peer.broadcast.
      cbn. rewrite !decide_False by done. by apply (cp_rest _ _ _ _ HC).
    - intros j x Hx Hq. cbn in Hx. destruct (decide (j = i)) as [->|Hne].
      + exfalso. destruct Hadv as [[-> ?]|[-> ?]], Hq as [[? ?]|[? ?]]; try done; lia.
      + rewrite lookup_insert_ne in Hx by done. apply (cp_quiet _ _ _ _ HC j x Hx). lia. }
  exists σ'. split; [by apply (Peer.step_send sdp σ i mk k)|].
  destruct (Peer.pair_sends sdp cfg dialer acceptor ltac:(done) σ σ' n m i mk k (cp_pair _ _ _ _ HC) Hcσ)
    as [(-> & -> & HP')|(-> & -> & HP')]; [done|left|right]; apply Hnext; auto.
Qed.

Lemma sim_net W σ n m L' : coupled W σ n m → internal_step (net W) L' → coupled (set_net L' W) σ n m.
Proof.
  intros HC Hs. destruct (net_step (net W) L' (cp_net _ _ _ _ HC) Hs) as [HP Hsame].
  split; [| |apply HC|done|].
  - intros i Hi. rewrite (cp_party _ _ _ _ HC i Hi). unfold party_of. cbn. by rewrite (waiting_same _ _ i Hsame).
  - exact (cp_rest _ _ _ _ HC).
  - intros i s' Hs' Hq. cbn in Hs'. destruct Hsame as [_ Hst]. specialize (Hst i). rewrite Hs' in Hst.
    destruct (sessions (net W) !! i) as [s|] eqn:E; [|done]. cbn in Hst. unfold streams in Hst.
    injection Hst as -> _. by apply (cp_quiet _ _ _ _ HC i s).
Qed.

(** Every step of the composed system is a stutter or a step of the service. *)
Lemma coupled_step W W' σ n m :
  coupled W σ n m → step sdp W W' →
  (∃ L', internal_step (net W) L' ∧ W' = set_net L' W ∧ coupled W' σ n m) ∨ simulated W W' σ n m.
Proof.
  intros HC Hs. destruct Hs as [L' Hs|i c k Hc|i s p mk k Hc Hs Hp Hsend|i s x q msg pick k d Hc Hs Hq Hx Hpick
    |i s x q msg pick k Hc Hs Hq Hx Hpick|i j Hc Hri Hrj].
  - left. exists L'. split; [done|]. split; [done|]. by apply sim_net.
  - right. by apply sim_call.
  - right. by apply sim_send.
  - right. assert (active i) as Hi by (by apply (coupled_active W σ n m i HC); rewrite Hc).
    apply (sim_receive W σ n m i s x q _ (k (inl d))); try done. intros msg' Hx' Hin.
    assert (msg' = msg) as -> by congruence.
    eapply (Peer.step_take sdp σ i pick k (Body msg)); [by rewrite (coupled_code W σ n m)|exact Hin|done|done].
  - right. assert (active i) as Hi by (by apply (coupled_active W σ n m i HC); rewrite Hc).
    apply (sim_receive W σ n m i s x q _ (code W i)); try done.
    { intros j. cbn. by destruct (decide (j = i)) as [->|]. }
    intros msg' Hx' Hin. assert (msg' = msg) as -> by congruence.
    eapply (Peer.step_skip sdp σ i pick k (Body msg)); [by rewrite (coupled_code W σ n m)|exact Hin|done|].
    intros j. unfold Peer.set_party. destruct (decide (j = i)); [|done]. unfold Peer.set_code. cbn.
    by rewrite <- (coupled_code W σ n m i HC Hi).
  - right. by apply (sim_open W σ n m i j).
Qed.

(** ** Progress *)

Lemma nf_net W : nf (step sdp) W → nf internal_step (net W).
Proof. intros Hnf [L' Hs]. apply Hnf. eexists. by apply step_net. Qed.

(** An idle backend has delivered everything. *)
Lemma idle_waiting L i s :
  paired L → nf internal_step L → sessions L !! i = Some s → waiting L i = bodies L (queue (in_ s)).
Proof.
  intros HP Hnf Hs. pose proof (paired_only L i s HP Hs) as Hact.
  pose proof (reachable_WF L (pr_reach L HP)) as HWF.
  destruct (pair_lookup L i HP Hact) as (s0 & t & Hl0 & Ht & Hok & _). assert (s0 = s) as -> by congruence.
  destruct Hok as [[Hos Hot] _ _ [Htk _]].
  destruct (idle_open L i s HWF Hnf Hs Hos) as (_ & _ & Hin).
  destruct (idle_open L (other i) t HWF Hnf Ht Hot) as (_ & Hcast & _).
  pose proof (pr_sent L HP _ t Ht) as Hlen. rewrite <- Hcast, <- Htk in Hlen.
  destruct (WF_ok L i s HWF Hs) as [_ (ri & Hi & _) _ _ _ _ _ _ _].
  rewrite Hi, !length_app in Hlen. unfold waiting. rewrite Hs, Ht, <- Hcast, <- Htk.
  rewrite Hin by (unfold has_room, chan_cap; lia). by rewrite drop_app_length.
Qed.

Lemma can_send W i s mk k :
  paired (net W) → nf internal_step (net W) → sessions (net W) !! i = Some s → code W i = Peer.Send mk k →
  ∃ W', step sdp W W'.
Proof.
  intros HP Hnf Hs Hc. pose proof (reachable_WF _ (pr_reach _ HP)) as HWF.
  destruct (pair_lookup _ i HP (paired_only _ i s HP Hs)) as (s0 & t & Hl0 & _ & [[Ho _] _ _ _] & _).
  assert (s0 = s) as -> by congruence.
  destruct (idle_open _ i s HWF Hnf Hs Ho) as (Hq & _).
  eexists. apply (step_send sdp W i s (fresh (dom (messages (net W)))) mk k Hc Hs).
  - apply not_elem_of_dom, is_fresh.
  - apply send_accept.
    + destruct (WF_ok _ i s HWF Hs) as [_ _ Hcl _ _ _ _ _ _]. by rewrite Hcl, Ho.
    + unfold has_room, chan_cap. rewrite Hq. cbn. lia.
Qed.

(** A message that waits can be received, whatever the program makes of it. *)
Lemma can_receive W i pick k b q :
  paired (net W) → nf internal_step (net W) → active i → code W i = Peer.Await pick k →
  waiting (net W) i = b :: q → ∃ W', step sdp W W'.
Proof.
  intros HP Hnf Hi Hc Hw. destruct (pair_lookup _ i HP Hi) as (s & t & Hs & _).
  rewrite (idle_waiting _ i s HP Hnf Hs) in Hw. destruct (queue (in_ s)) as [|x q'] eqn:Hq; [done|].
  destruct (net_receive (net W) i s x q' HP Hs Hq) as (msg & Hx & _).
  destruct (pick (Body msg)) as [d|] eqn:Hp; eexists; [by eapply step_take|by eapply step_skip].
Qed.

Lemma coupled_nf W σ n m : coupled W σ n m → nf (step sdp) W → nf (Peer.ok_step sdp) σ.
Proof.
  intros HC Hnf [σ' Hs]. pose proof (nf_net W Hnf) as Hidle. pose proof (cp_net _ _ _ _ HC) as HP.
  assert (∀ i, (∀ r, Peer.code (σ i) ≠ Peer.Return r) → active i) as Hact.
  { intros i Hne. destruct (decide (i = dialer)) as [?|H1]; [by left|].
    destruct (decide (i = acceptor)) as [?|H2]; [by right|].
    destruct (Peer.pair_rest _ _ _ _ _ _ _ (cp_pair _ _ _ _ HC) i H1 H2) as [r Hr]. by destruct (Hne r). }
  assert (∀ i c, Peer.code (σ i) = c → (∀ r, c ≠ Peer.Return r) → active i ∧ code W i = c) as Hcode.
  { intros i c Hc Hne. assert (active i) as Hi by (by apply Hact; rewrite Hc).
    split; [done|]. by rewrite <- (coupled_code W σ n m). }
  apply Hnf. destruct Hs as [i c k σ2 Hc _|i mk k σ2 Hc _|i pick k b q d σ2 Hc Hq _ _|i pick k b q σ2 Hc Hq _ _|
    i j σ2 Hc Hl _]; destruct (Hcode i _ Hc ltac:(done)) as [Hi Hci].
  - eexists. by apply step_call.
  - destruct (pair_lookup _ i HP Hi) as (s & t & Hs & _). by eapply can_send.
  - rewrite (cp_party _ _ _ _ HC i Hi) in Hq. by eapply can_receive.
  - rewrite (cp_party _ _ _ _ HC i Hi) in Hq. by eapply can_receive.
  - assert (active j) as Hj.
    { destruct Hl as [_ Hrj]. destruct (decide (j = dialer)) as [?|H1]; [by left|].
      destruct (decide (j = acceptor)) as [?|H2]; [by right|].
      destruct (cp_rest _ _ _ _ HC j) as (_ & _ & Hnone); [by intros [?|?]|congruence]. }
    unfold Peer.linked in Hl. rewrite (cp_party _ _ _ _ HC i Hi), (cp_party _ _ _ _ HC j Hj) in Hl.
    eexists. apply (step_open sdp W i j Hci); apply Hl.
Qed.

(** ** Termination *)

Lemma coupled_sn k : ∀ W σ n m, coupled W σ n m → (15 - (n + m) ≤ k)%nat → sn (step sdp) W.
Proof.
  induction k as [|k IHk]; intros W σ n m HC Hk;
    pose proof (internal_sn (net W) (reachable_WF _ (pr_reach _ (cp_net _ _ _ _ HC)))) as Hsn;
    remember (net W) as L eqn:HL; revert W σ n m HC Hk HL;
    induction Hsn as [L _ IH]; intros W σ n m HC Hk ->; constructor; intros W' Hs;
    (destruct (coupled_step W W' σ n m HC Hs) as [(L' & Hi & -> & HC')|(σ' & _ & Hsim)];
      [by eapply (IH L' Hi _ σ n m HC')|]).
  - exfalso. destruct Hsim as [HC'|HC']; pose proof (Peer.pair_order _ _ _ _ _ _ _ (cp_pair _ _ _ _ HC')); lia.
  - destruct Hsim as [HC'|HC']; eapply IHk; try exact HC'; lia.
Qed.
End simulation.

(** ** The start *)

Definition one_joined (srv a : string) : Local :=
  {| services := <[srv := 0%nat]> ∅;
     svc_heap := <[0%nat := {| id := srv; peers := <[a := 1%nat]> ∅ |}]> (<[0%nat := {| id := srv; peers := ∅ |}]> ∅);
     sessions := <[1%nat := new_session srv a 0]> ∅; messages := ∅; pending := []; next := 2 |}.

Lemma first_exchange srv a :
  exchange_args srv a = None → Exchange srv a NewLocal = (inl 1%nat, one_joined srv a).
Proof.
  intros Ha. unfold Exchange. rewrite Ha. unfold serviceForExchange, exchange_insert.
  cbn [NewLocal services]. rewrite lookup_empty. cbn. reflexivity.
Qed.

Lemma second_exchange srv a b :
  exchange_args srv b = None → a ≠ b →
  ∃ L, Exchange srv b (one_joined srv a) = (inl 2%nat, L) ∧
    sessions L = <[2%nat := new_session srv b 0]> (<[1%nat := new_session srv a 0]> ∅).
Proof.
  intros Hb Hab. unfold Exchange. rewrite Hb. unfold serviceForExchange, exchange_insert.
  cbn [one_joined services]. rewrite lookup_insert, decide_True by done. cbn.
  rewrite lookup_insert, decide_True by done. cbn.
  by rewrite lookup_insert_ne, lookup_empty by done; eexists.
Qed.

Lemma joined_two srv a b :
  exchange_args srv a = None → exchange_args srv b = None → a ≠ b →
  sessions (joined srv a b) = {[dialer := new_session srv a 0; acceptor := new_session srv b 0]} ∧
  reachable (joined srv a b).
Proof.
  intros Ha Hb Hab. unfold joined. pose proof (first_exchange srv a Ha) as H1. rewrite H1. cbn [snd].
  destruct (second_exchange srv a b Hb Hab) as (L & H2 & HL). rewrite H2. cbn [snd].
  split; [rewrite HL; symmetry; apply pair_swap|].
  apply (reachable_Exchange srv b (inl 2%nat) (one_joined srv a)); [done|done|done|].
  apply (reachable_Exchange srv a (inl 1%nat) NewLocal); [done|done|done|apply rtc_refl].
Qed.

Lemma coupled_start sdp cfg srv a b :
  exchange_args srv a = None → exchange_args srv b = None → a ≠ b →
  coupled sdp cfg (start cfg srv a b) (Peer.init cfg (Peer.two_peers dialer acceptor)) 0 0.
Proof.
  intros Ha Hb Hab. destruct (joined_two srv a b Ha Hb Hab) as [HL Hr].
  assert (∀ i s, sessions (joined srv a b) !! i = Some s → sent s = [] ∧ got s = []) as Hnew.
  { intros i s. rewrite HL. intros [[_ <-]|[_ [_ <-]%lookup_singleton_Some]]%lookup_insert_Some; done. }
  assert (∀ i, ¬ active i → Peer.two_peers dialer acceptor i = None) as Hno.
  { intros i Hi. unfold Peer.two_peers. rewrite !decide_False; [done|..]; intros ->; apply Hi; [by right|by left]. }
  split.
  - intros i Hi. unfold party_of, waiting. cbn [net start].
    assert (match sessions (joined srv a b) !! i, sessions (joined srv a b) !! other i with
      | Some s, Some t => bodies (joined srv a b) (drop (length (got s)) (sent t)) | _, _ => [] end = []) as ->.
    { destruct (sessions _ !! i) as [s|]; [|done]. destruct (sessions _ !! other i) as [t|] eqn:Et; [|done].
      destruct (Hnew _ t Et) as [-> _]. by rewrite drop_nil. }
    destruct Hi as [->| ->]; cbn; unfold Peer.init, Peer.two_peers; cbn; done.
  - intros i Hi. cbn. unfold Peer.init. rewrite (Hno i Hi). cbn. split; [by eexists|done].
  - by apply Peer.pair_init.
  - split; [exact Hr| | |].
    + exists (new_session srv a 0), (new_session srv b 0). split; [exact HL|]. by split.
    + intros i s Hs. cbn in Hs. by destruct (Hnew i s Hs) as [-> _].
    + intros i s Hs. cbn in Hs. destruct (Hnew i s Hs) as [-> _]. cbn. lia.
  - intros i s Hs _. cbn in Hs. by destruct (Hnew i s Hs).
Qed.

Lemma coupled_steps sdp cfg W W' σ n m :
  coupled sdp cfg W σ n m → rtc (step sdp) W W' →
  ∃ σ' n' m', coupled sdp cfg W' σ' n' m' ∧ rtc (Peer.ok_step sdp) σ σ'.
Proof.
  intros HC Hs. revert σ n m HC. induction Hs as [W|W W1 W' H1 _ IH]; intros σ n m HC.
  { exists σ, n, m. by split. }
  destruct (coupled_step sdp cfg W W1 σ n m HC H1) as [(L' & _ & _ & HC1)|(σ1 & Hs1 & [HC1|HC1])].
  - by eapply IH.
  - destruct (IH _ _ _ HC1) as (σ' & n' & m' & HC' & Hr). exists σ', n', m'. split; [done|]. by eapply rtc_l.
  - destruct (IH _ _ _ HC1) as (σ' & n' & m' & HC' & Hr). exists σ', n', m'. split; [done|]. by eapply rtc_l.
Qed.

(** ** Properties *)

(** [C18] Negotiation over the in-process backend. Two peers join a service under
    different names, one dials and one accepts, and no call of theirs fails.
    However the two programs and the goroutines of the backend interleave, every
    execution is one of the signaling service of [Peer] with the same programs,
    the same messages still to be received and the same descriptions applied;
    it ends after finitely many steps; and when nothing can move, both peers
    have their channel and each has applied the other's description. *)
Theorem local_negotiation_completes sdp cfg srv a b
    (Ha : exchange_args srv a = None) (Hb : exchange_args srv b = None) (Hab : a ≠ b) :
  sn (step sdp) (start cfg srv a b) ∧
  ∀ W, rtc (step sdp) (start cfg srv a b) W →
    (∃ σ, rtc (Peer.ok_step sdp) (Peer.init cfg (Peer.two_peers dialer acceptor)) σ ∧
       ∀ i, i = dialer ∨ i = acceptor → σ i = party_of W i) ∧
    (nf (step sdp) W →
       code W dialer = Peer.Return (inl tt) ∧ code W acceptor = Peer.Return (inl tt) ∧
       remote W dialer = Some (sdp acceptor) ∧ remote W acceptor = Some (sdp dialer)).
Proof.
  pose proof (coupled_start sdp cfg srv a b Ha Hb Hab) as HC0. split; [by apply (coupled_sn sdp cfg 15 _ _ 0 0 HC0); lia|].
  intros W Hs. destruct (coupled_steps sdp cfg _ W _ _ _ HC0 Hs) as (σ & n & m & HC & Hr).
  split; [exists σ; split; [done|exact (cp_party _ _ _ _ _ _ HC)]|]. intros Hnf.
  destruct (Peer.pair_progress sdp cfg dialer acceptor ltac:(done) σ n m (cp_pair _ _ _ _ _ _ HC)
    (coupled_nf sdp cfg W σ n m HC Hnf)) as [-> ->].
  destruct (cp_pair _ _ _ _ _ _ HC) as [Hd Hacc _ _].
  rewrite (cp_party _ _ _ _ _ _ HC dialer ltac:(by left)) in Hd.
  rewrite (cp_party _ _ _ _ _ _ HC acceptor ltac:(by right)) in Hacc.
  unfold party_of, Peer.client_party, Peer.server_party in *. cbn in Hd, Hacc.
  injection Hd as Hc1 _ Hr1. injection Hacc as Hc2 _ Hr2. by rewrite Hc1, Hc2, Hr1, Hr2.
Qed.

Lemma local_negotiation_completes_witness :
  sn (step Peer.ex_sdp) (start Peer.ex_cfg "s" "a" "b") ∧
  ∀ W, rtc (step Peer.ex_sdp) (start Peer.ex_cfg "s" "a" "b") W →
    nf (step Peer.ex_sdp) W → remote W dialer = Some (Peer.ex_sdp acceptor).
Proof.
  destruct (local_negotiation_completes Peer.ex_sdp Peer.ex_cfg "s" "a" "b") as [Hsn Hall];
    [reflexivity|reflexivity|done|].
  split; [exact Hsn|]. intros W Hr Hnf. by destruct (proj2 (Hall W Hr) Hnf) as (_ & _ & ? & _).
Defined.
