(* ===== verification/Relay.v ===== *)
(** * The relay node (relay/server.go)

    The table of sessions and the binding of peers to slots as functions, and a
    paired session as a transition system: two directions with a reader and a
    writer each, the goroutines that watch the channels, and the caller that
    waits for them. *)

From Stdlib Require Import Strings.Byte ZArith Lia.
From stdpp Require Import numbers strings gmap list relations.
From S2P Require Import Prelude Transport Channel.
Import Framing.
Open Scope Z_scope.

(** ** Sessions *)

Section server.
Context {peerSlot : Type}.

(** [peers [2]*peerSlot] and whether [once] has closed [forward]. *)
Record session : Type := { s_peers : option peerSlot * option peerSlot; s_paired : bool }.

Record Server : Type := { ForwardBufferSize : Z; sessions : gmap string session; s_closed : bool }.

Definition New (signaling : bool) (bufferSize : Z) : Server + error :=
  if negb signaling then inr (ErrorString "relay: Config.Signaling is required")
  else inl {| ForwardBufferSize := if decide (bufferSize = 0) then 256 else bufferSize;
              sessions := ∅; s_closed := false |}.

Definition set_session (roomID : string) (sess : session) (s : Server) : Server :=
  {| ForwardBufferSize := ForwardBufferSize s; sessions := <[roomID := sess]> (sessions s);
     s_closed := s_closed s |}.

Definition get_session (roomID : string) (s : Server) : session * Server :=
  match sessions s !! roomID with
  | Some sess => (sess, s)
  | None =>
      let sess := {| s_peers := (None, None); s_paired := false |} in
      (sess, set_session roomID sess s)
  end.

Definition bindSlot (roomID : string) (slot : peerSlot) (s : Server) : Server :=
  let '(sess, s) := get_session roomID s in
  let peers :=
    match s_peers sess with
    | (None, p1) => (Some slot, p1)
    | (p0, None) => (p0, Some slot)
    | (_, p1) => (Some slot, p1)
    end in
  set_session roomID {| s_peers := peers; s_paired := s_paired sess |} s.

(** [acceptOne], given what [peer.New] and [Accept] gave. *)
Definition acceptOne (roomID : string) (r : peerSlot + error) (s : Server) : option error * Server :=
  match r with
  | inr err => (Some err, s)
  | inl slot => (None, bindSlot roomID slot s)
  end.

(** The end of [pairAndPump]. *)
Definition end_session (roomID : string) (s : Server) : Server :=
  {| ForwardBufferSize := ForwardBufferSize s; sessions := delete roomID (sessions s);
     s_closed := s_closed s |}.

(** [Serve] up to [pairAndPump]: the two slots it is called with. *)
Definition Serve_accept (roomID : string) (exchange : option error) (r1 r2 : peerSlot + error) (s : Server)
    : (peerSlot * peerSlot + error) * Server :=
  match exchange with
  | Some err => (inr (wrapf "relay: signaling exchange: " err), s)
  | None =>
      match acceptOne roomID r1 s with
      | (Some err, s) => (inr (wrapf "relay: accept #1: " err), s)
      | (None, s) =>
          match acceptOne roomID r2 s with
          | (Some err, s) => (inr (wrapf "relay: accept #2: " err), s)
          | (None, s) =>
              let '(sess, s) := get_session roomID s in
              match s_peers sess with
              | (Some a, Some b) =>
                  (inl (a, b), set_session roomID {| s_peers := s_peers sess; s_paired := true |} s)
              | _ => (inr (ErrorString "relay: incomplete session after accept loop"), s)
              end
          end
      end
  end.

Definition Close (s : Server) : Server :=
  {| ForwardBufferSize := ForwardBufferSize s; sessions := sessions s; s_closed := true |}.

Definition Stats (s : Server) : nat := size (sessions s).
End server.

(** ** A paired session *)

Inductive side : Type := A | B.

#[export] Instance side_eq_dec : EqDecision side.
Proof. solve_decision. Defined.

Definition other (x : side) : side := match x with A => B | B => A end.

Definition upd {T} (f : side → T) (x : side) (v : T) : side → T :=
  λ y, if decide (y = x) then v else f y.

(** A slot: its channel's receive queue and whether the channel is closed, the
    [done] signal, the outbound queue, and, for the history, the messages that
    arrived and the payloads that [SendRaw] handed to the DataChannel. *)
Record slot : Type := {
  sl_recv : list bytes;
  sl_closed : bool;
  sl_done : bool;
  sl_outbound : list bytes;
  sl_arrived : list bytes;
  sl_sent : list bytes }.

(** The reader goroutine, with a payload it has to hand over, and the writer,
    which is the body of [forwardBytes]. *)
Inductive reader : Type := RRecv | RPush (payload : bytes) | RExit.
Inductive writer : Type := WRun | WExit.

(** [pairAndPump]: in its [select], in [wg.Wait], or returned. *)
Inductive main : Type := MSelect | MWait | MDone.

Record relay : Type := {
  r_slot : side → slot;
  r_reader : side → reader;        (* by source *)
  r_writer : side → writer;        (* by source *)
  r_ctx : bool;
  r_main : main }.

Definition with_slot (x : side) (s : slot) (r : relay) : relay :=
  {| r_slot := upd (r_slot r) x s; r_reader := r_reader r; r_writer := r_writer r;
     r_ctx := r_ctx r; r_main := r_main r |}.
Definition with_reader (x : side) (rd : reader) (r : relay) : relay :=
  {| r_slot := r_slot r; r_reader := upd (r_reader r) x rd; r_writer := r_writer r;
     r_ctx := r_ctx r; r_main := r_main r |}.
Definition with_writer (x : side) (w : writer) (r : relay) : relay :=
  {| r_slot := r_slot r; r_reader := r_reader r; r_writer := upd (r_writer r) x w;
     r_ctx := r_ctx r; r_main := r_main r |}.
Definition with_main (m : main) (r : relay) : relay :=
  {| r_slot := r_slot r; r_reader := r_reader r; r_writer := r_writer r;
     r_ctx := r_ctx r; r_main := m |}.

Definition arrive (msg : bytes) (s : slot) : slot :=
  {| sl_recv := sl_recv s ++ [msg]; sl_closed := sl_closed s; sl_done := sl_done s;
     sl_outbound := sl_outbound s; sl_arrived := sl_arrived s ++ [msg]; sl_sent := sl_sent s |}.
Definition close_slot (s : slot) : slot :=
  {| sl_recv := sl_recv s; sl_closed := true; sl_done := sl_done s; sl_outbound := sl_outbound s;
     sl_arrived := sl_arrived s; sl_sent := sl_sent s |}.
Definition done_slot (s : slot) : slot :=
  {| sl_recv := sl_recv s; sl_closed := sl_closed s; sl_done := true; sl_outbound := sl_outbound s;
     sl_arrived := sl_arrived s; sl_sent := sl_sent s |}.
Definition pop_recv (q : list bytes) (s : slot) : slot :=
  {| sl_recv := q; sl_closed := sl_closed s; sl_done := sl_done s; sl_outbound := sl_outbound s;
     sl_arrived := sl_arrived s; sl_sent := sl_sent s |}.
Definition push_out (payload : bytes) (s : slot) : slot :=
  {| sl_recv := sl_recv s; sl_closed := sl_closed s; sl_done := sl_done s;
     sl_outbound := sl_outbound s ++ [payload]; sl_arrived := sl_arrived s; sl_sent := sl_sent s |}.
Definition send_out (payload : bytes) (q : list bytes) (s : slot) : slot :=
  {| sl_recv := sl_recv s; sl_closed := sl_closed s; sl_done := sl_done s; sl_outbound := q;
     sl_arrived := sl_arrived s; sl_sent := sl_sent s ++ [payload] |}.
Definition drop_out (q : list bytes) (s : slot) : slot :=
  {| sl_recv := sl_recv s; sl_closed := sl_closed s; sl_done := sl_done s; sl_outbound := q;
     sl_arrived := sl_arrived s; sl_sent := sl_sent s |}.

Definition fresh_slot : slot :=
  {| sl_recv := []; sl_closed := false; sl_done := false; sl_outbound := []; sl_arrived := []; sl_sent := [] |}.

Definition init : relay :=
  {| r_slot := λ _, fresh_slot; r_reader := λ _, RRecv; r_writer := λ _, WRun;
     r_ctx := false; r_main := MSelect |}.

(** What the environment does: a message reaches a channel, a channel closes,
    the context is canceled. *)
Inductive env_step : relay → relay → Prop :=
  | env_message x msg r :
      (length (sl_recv (r_slot r x)) < recv_cap)%nat →
      env_step r (with_slot x (arrive msg (r_slot r x)) r)
  | env_close x r : env_step r (with_slot x (close_slot (r_slot r x)) r)
  | env_cancel r :
      env_step r {| r_slot := r_slot r; r_reader := r_reader r; r_writer := r_writer r;
                    r_ctx := true; r_main := r_main r |}.

(** What the relay's goroutines do; [cap] is [ForwardBufferSize]. *)
Inductive relay_step (cap : nat) : relay → relay → Prop :=
  | step_done x r :
      sl_closed (r_slot r x) = true → sl_done (r_slot r x) = false →
      relay_step cap r (with_slot x (done_slot (r_slot r x)) r)
  | step_recv x r msg q :
      r_reader r x = RRecv → sl_recv (r_slot r x) = msg :: q →
      relay_step cap r (with_reader x (RPush (stripLengthPrefix msg))
                          (with_slot x (pop_recv q (r_slot r x)) r))
  | step_recv_end x r :
      r_reader r x = RRecv → sl_closed (r_slot r x) = true ∨ r_ctx r = true →
      relay_step cap r (with_reader x RExit r)
  | step_push x r payload :
      r_reader r x = RPush payload → (length (sl_outbound (r_slot r (other x))) < cap)%nat →
      relay_step cap r (with_reader x RRecv
                          (with_slot (other x) (push_out payload (r_slot r (other x))) r))
  | step_push_end x r payload :
      r_reader r x = RPush payload → sl_done (r_slot r (other x)) = true ∨ r_ctx r = true →
      relay_step cap r (with_reader x RExit r)
  | step_send x r payload q :
      r_writer r x = WRun → sl_outbound (r_slot r (other x)) = payload :: q →
      sl_closed (r_slot r (other x)) = false →
      relay_step cap r (with_slot (other x) (send_out payload q (r_slot r (other x))) r)
  | step_send_error x r payload q :
      r_writer r x = WRun → sl_outbound (r_slot r (other x)) = payload :: q →
      relay_step cap r (with_writer x WExit
                          (with_slot (other x) (drop_out q (r_slot r (other x))) r))
  | step_write_end x r :
      r_writer r x = WRun → sl_done (r_slot r (other x)) = true ∨ r_ctx r = true →
      relay_step cap r (with_writer x WExit r)
  | step_select r :
      r_main r = MSelect →
      sl_done (r_slot r A) = true ∨ sl_done (r_slot r B) = true ∨ r_ctx r = true →
      relay_step cap r (with_main MWait r)
  | step_wait r :
      r_main r = MWait → r_writer r A = WExit → r_writer r B = WExit →
      relay_step cap r (with_main MDone r).

Definition step (cap : nat) (r r' : relay) : Prop := env_step r r' ∨ relay_step cap r r'.

Definition reachable (cap : nat) (r : relay) : Prop := rtc (step cap) init r.

(** ** Invariants *)

Lemma upd_eq {T} (f : side → T) x v : upd f x v x = v.
Proof. unfold upd. by rewrite decide_True. Qed.

Lemma upd_ne {T} (f : side → T) x y v : x ≠ y → upd f x v y = f y.
Proof. intros H. unfold upd. by rewrite decide_False. Qed.

Lemma other_ne x : other x ≠ x.
Proof. by destruct x. Qed.

Lemma other_other x : other (other x) = x.
Proof. by destruct x. Qed.

(** What the reader still holds and will read, as the writer will see it. *)
Definition upstream (rd : reader) (recv rest : list bytes) : Prop :=
  match rd with
  | RRecv => rest = stripLengthPrefix <$> recv
  | RPush p => rest = p :: (stripLengthPrefix <$> recv)
  | RExit => True
  end.

(** Along one direction nothing is duplicated, reordered or invented. *)
Definition flow (src dst : slot) (rd : reader) (w : writer) : Prop :=
  ∃ rest, stripLengthPrefix <$> sl_arrived src = sl_sent dst ++ rest ∧
    (w = WRun → ∃ rest', rest = sl_outbound dst ++ rest' ∧ upstream rd (sl_recv src) rest').

Definition RInv (r : relay) : Prop :=
  ∀ x, flow (r_slot r x) (r_slot r (other x)) (r_reader r x) (r_writer r x) ∧
       (sl_done (r_slot r x) = true → sl_closed (r_slot r x) = true).

Lemma flow_arrive src dst rd w msg : flow src dst rd w → flow (arrive msg src) dst rd w.
Proof.
  intros (rest & H & Hw). exists (rest ++ [stripLengthPrefix msg]). cbn.
  rewrite fmap_app, H, app_assoc. split; [done|]. intros Hr.
  destruct (Hw Hr) as (rest' & -> & Hu). exists (rest' ++ [stripLengthPrefix msg]).
  rewrite app_assoc. split; [done|]. destruct rd; cbn in *; [subst; by rewrite fmap_app|subst; by rewrite fmap_app|done].
Qed.

(** The other direction through the same slot does not notice. *)
Lemma RInv_src x s rd w r :
  RInv r → flow s (r_slot r (other x)) rd w →
  sl_outbound s = sl_outbound (r_slot r x) → sl_sent s = sl_sent (r_slot r x) →
  (sl_done s = true → sl_closed s = true) →
  RInv (with_reader x rd (with_writer x w (with_slot x s r))).
Proof.
  intros Hr Hf Ho Hs Hd y. cbn. destruct (decide (y = x)) as [->|Hne].
  - rewrite !upd_eq, upd_ne by (apply not_eq_sym, other_ne). done.
  - assert (other y = x) as Hy by (by destruct x, y). destruct (Hr y) as [Hfy Hdy].
    rewrite !(upd_ne _ x y), Hy, upd_eq by done. split; [|done].
    unfold flow in *. rewrite Hy in Hfy. by rewrite Ho, Hs.
Qed.

Lemma RInv_dst x s rd w r :
  RInv r → flow (r_slot r x) s rd w →
  sl_recv s = sl_recv (r_slot r (other x)) → sl_arrived s = sl_arrived (r_slot r (other x)) →
  (sl_done s = true → sl_closed s = true) →
  RInv (with_reader x rd (with_writer x w (with_slot (other x) s r))).
Proof.
  intros Hr Hf Ho Hs Hd y. cbn. destruct (decide (y = x)) as [->|Hne].
  - rewrite !upd_eq, upd_ne by apply other_ne. split; [done|]. apply (Hr x).
  - assert (other x = y) as Hy by (by destruct x, y). destruct (Hr y) as [Hfy Hdy].
    rewrite !(upd_ne _ x y) by done. rewrite Hy, upd_eq, upd_ne by (apply not_eq_sym, other_ne).
    split; [|done]. unfold flow in *. rewrite Hy in Ho, Hs. by rewrite Ho, Hs.
Qed.

Lemma RInv_proc x rd w r :
  RInv r → flow (r_slot r x) (r_slot r (other x)) rd w →
  RInv (with_reader x rd (with_writer x w r)).
Proof.
  intros Hr Hf y. cbn. destruct (decide (y = x)) as [->|Hne].
  - rewrite !upd_eq. split; [done|]. apply (Hr x).
  - rewrite !(upd_ne _ x y) by done. apply (Hr y).
Qed.

(** Two states that agree in all that the invariant reads. *)
Definition same_pumps (r r' : relay) : Prop :=
  ∀ x, r_slot r' x = r_slot r x ∧ r_reader r' x = r_reader r x ∧ r_writer r' x = r_writer r x.

Lemma RInv_same r r' : same_pumps r r' → RInv r → RInv r'.
Proof. intros Hs Hr x. destruct (Hs x) as (-> & -> & ->). destruct (Hs (other x)) as (-> & _). apply Hr. Qed.

Lemma upd_id {T} (f : side → T) x y : upd f x (f x) y = f y.
Proof. unfold upd. case_decide; congruence. Qed.

Ltac same := intros ?; cbn; rewrite ?upd_id; done.

Lemma RInv_env r r' : env_step r r' → RInv r → RInv r'.
Proof.
  intros Hs Hr. destruct Hs as [x msg r _|x r|r].
  - destruct (Hr x) as [Hf Hd].
    eapply RInv_same; [|apply (RInv_src x (arrive msg (r_slot r x)) (r_reader r x) (r_writer r x) r Hr)];
      try done; [same|by apply flow_arrive].
  - destruct (Hr x) as [Hf Hd].
    eapply RInv_same; [|apply (RInv_src x (close_slot (r_slot r x)) (r_reader r x) (r_writer r x) r Hr)];
      try done. same.
  - eapply RInv_same; [|exact Hr]. same.
Qed.

Lemma RInv_relay cap r r' : relay_step cap r r' → RInv r → RInv r'.
Proof.
  intros Hs Hr. destruct Hs as [x r Hc Hd|x r msg q Hrd Hq|x r Hrd _|x r p Hrd _|x r p Hrd _|
    x r p q Hw Hq Hcl|x r p q Hw Hq|x r Hw _|r _ _|r _ _ _];
    try (destruct (Hr x) as [(rest & Hf & Hfw) Hd']).
  - eapply RInv_same; [|apply (RInv_src x (done_slot (r_slot r x)) (r_reader r x) (r_writer r x) r Hr)];
      try done; [same|by exists rest].
  - eapply RInv_same; [|apply (RInv_src x (pop_recv q (r_slot r x)) (RPush (stripLengthPrefix msg)) (r_writer r x) r Hr)];
      try done; [same|]. exists rest. split; [done|]. intros Hw. destruct (Hfw Hw) as (rest' & -> & Hu).
    exists rest'. split; [done|]. rewrite Hrd, Hq in Hu. done.
  - eapply RInv_same; [|apply (RInv_proc x RExit (r_writer r x) r Hr)]; [same|].
    exists rest. split; [done|]. intros Hw. destruct (Hfw Hw) as (rest' & -> & Hu). by exists rest'.
  - eapply RInv_same; [|apply (RInv_dst x (push_out p (r_slot r (other x))) RRecv (r_writer r x) r Hr)];
      try done; [same| |apply Hr]. exists rest. split; [done|]. intros Hw.
    destruct (Hfw Hw) as (rest' & -> & Hu). rewrite Hrd in Hu. cbn in *. subst rest'.
    eexists. by rewrite <- app_assoc.
  - eapply RInv_same; [|apply (RInv_proc x RExit (r_writer r x) r Hr)]; [same|].
    exists rest. split; [done|]. intros Hw. destruct (Hfw Hw) as (rest' & -> & Hu). by exists rest'.
  - eapply RInv_same; [|apply (RInv_dst x (send_out p q (r_slot r (other x))) (r_reader r x) (r_writer r x) r Hr)];
      try done; [same| |apply Hr]. destruct (Hfw Hw) as (rest' & -> & Hu). rewrite Hq in Hf.
    exists (q ++ rest'). cbn. rewrite Hf, <- app_assoc. split; [done|]. intros _. by exists rest'.
  - eapply RInv_same; [|apply (RInv_dst x (drop_out q (r_slot r (other x))) (r_reader r x) WExit r Hr)];
      try done; [same| |apply Hr]. exists rest. by split.
  - eapply RInv_same; [|apply (RInv_proc x (r_reader r x) WExit r Hr)]; [same|]. exists rest. by split.
  - eapply RInv_same; [|exact Hr]. same.
  - eapply RInv_same; [|exact Hr]. same.
Qed.

Lemma reachable_RInv cap r : reachable cap r → RInv r.
Proof.
  intros Hr. refine (rtc_ind_r (R:=step cap) RInv init _ _ r Hr); [|intros y z _ [Hs|Hs]].
  - intros x. split; [|done]. exists []. split; [done|]. intros _. by exists [].
  - by apply RInv_env.
  - by eapply RInv_relay.
Qed.

(** ** Properties *)

(** A frame as the SDK marshals it: not empty, its first byte a protobuf tag,
    below 16 MiB. *)
Definition plain (p : bytes) : Prop :=
  ∃ b rest, p = b :: rest ∧ 0 < Z_of_byte b ∧ len p < 2 ^ 24 + 4.

Lemma plain_strip p : plain p → stripLengthPrefix p = p ∧ stripLengthPrefix (lengthPrefix p) = p.
Proof.
  intros (b & rest & -> & Hb & Hl). split; [by apply strip_raw|].
  apply strip_lengthPrefix. rewrite len_cons in *. pose proof (len_nonneg rest). zconsts. lia.
Qed.

Lemma plain_map (f : bytes → bytes) ps : (∀ p, plain p → f p = p) → Forall plain ps → f <$> ps = ps.
Proof. intros Hf. induction 1 as [|p ps Hp _ IH]; [done|]. cbn. by rewrite Hf, IH. Qed.

(** [C31] The relay is transparent for the frames of the SDK: whatever the
    interleaving of its goroutines, buffer size and disconnections, what it has
    handed to one peer is a prefix of the frames the other peer sent, in order,
    nothing lost, repeated or mixed with the other direction, and the receiver
    reads each as the frame that was sent, although the relay forwards it
    without the length prefix it came with. While both goroutines of the
    direction run, the rest is in the relay's queues. *)
Theorem relay_transparent cap r x ps
    (Hr : reachable cap r) (Ha : sl_arrived (r_slot r x) = lengthPrefix <$> ps)
    (Hps : Forall plain ps) :
  let sent := sl_sent (r_slot r (other x)) in
  ∃ rest, ps = sent ++ rest ∧ stripLengthPrefix <$> sent = sent ∧
    (r_writer r x = WRun → r_reader r x = RRecv →
     rest = sl_outbound (r_slot r (other x)) ++ (stripLengthPrefix <$> sl_recv (r_slot r x))).
Proof.
  destruct (reachable_RInv cap r Hr x) as [(rest & Hf & Hw) _].
  assert (stripLengthPrefix <$> sl_arrived (r_slot r x) = ps) as Hs.
  { rewrite Ha, <- list_fmap_compose. apply plain_map; [|done]. intros p Hp. by apply plain_strip. }
  rewrite Hs in Hf. exists rest. split; [done|]. split.
  - apply plain_map; [intros p Hp; by apply plain_strip|].
    rewrite Hf in Hps. by apply Forall_app in Hps as [? _].
  - intros Hrun Hrd. destruct (Hw Hrun) as (rest' & -> & Hu). rewrite Hrd in Hu. cbn in Hu. by subst.
Qed.

(** A direction with nothing to do and its receiver still connected. *)
Definition idle (x : side) (r : relay) : Prop :=
  r_ctx r = false ∧ sl_closed (r_slot r (other x)) = false ∧ sl_outbound (r_slot r (other x)) = [] ∧
  sl_recv (r_slot r x) = [] ∧ (∀ p, r_reader r x ≠ RPush p) ∧ r_writer r x = WRun ∧ r_main r ≠ MDone.

Lemma idle_step cap x r r' :
  (sl_done (r_slot r (other x)) = false) → idle x r → relay_step cap r r' →
  idle x r' ∧ sl_done (r_slot r' (other x)) = false.
Proof.
  intros Hd (Hc & Hcl & Ho & Hq & Hrd & Hw & Hm) Hs. unfold idle.
  destruct Hs as [y r Hy Hyd|y r msg q Hr Hy|y r Hr Hy|y r p Hr Hy|y r p Hr Hy|y r p q Hr Hy Hz|y r p q Hr Hy|
    y r Hr Hy|r Hr Hy|r Hr HA HB]; destruct x; try destruct y; cbn in *;
    try congruence; try (destruct Hy; congruence); split_and!; try done; try congruence; intros; congruence.
Qed.

Lemma idle_forever cap x r r' :
  sl_done (r_slot r (other x)) = false → idle x r → rtc (relay_step cap) r r' → r_main r' ≠ MDone.
Proof.
  intros Hd Hi Hs. revert Hd Hi. induction Hs as [r|r r1 r' H1 _ IH]; intros Hd Hi.
  - destruct Hi as (_ & _ & _ & _ & _ & _ & Hm). done.
  - destruct (idle_step cap x r r1 Hd Hi H1) as [Hi1 Hd1]. by apply IH.
Qed.

(** The watcher of a closed channel has run. *)
Lemma mark_done cap x r :
  sl_closed (r_slot r x) = true →
  ∃ r', rtc (relay_step cap) r r' ∧ sl_done (r_slot r' x) = true ∧
        r_slot r' (other x) = r_slot r (other x) ∧ r_ctx r' = r_ctx r ∧ r_main r' = r_main r.
Proof.
  intros Hc. destruct (sl_done (r_slot r x)) eqn:Hd; [by exists r|].
  eexists. split; [by eapply rtc_once, (step_done cap x)|]. cbn.
  by rewrite upd_eq, upd_ne by (apply not_eq_sym, other_ne).
Qed.

Lemma end_writer cap x r :
  sl_done (r_slot r (other x)) = true ∨ r_ctx r = true →
  ∃ r', rtc (relay_step cap) r r' ∧ r_writer r' x = WExit ∧
        r_writer r' (other x) = r_writer r (other x) ∧
        r_slot r' = r_slot r ∧ r_ctx r' = r_ctx r ∧ r_main r' = r_main r.
Proof.
  intros Hd. destruct (r_writer r x) eqn:Hw; [|by exists r].
  eexists. split; [by eapply rtc_once, (step_write_end cap x)|]. cbn.
  by rewrite upd_eq, upd_ne by (apply not_eq_sym, other_ne).
Qed.

Lemma end_main cap r :
  r_writer r A = WExit → r_writer r B = WExit → sl_done (r_slot r A) = true ∨ r_ctx r = true →
  ∃ r', rtc (relay_step cap) r r' ∧ r_main r' = MDone.
Proof.
  intros HA HB Hd. destruct (r_main r) eqn:Hm; [| |by exists r].
  - exists (with_main MDone (with_main MWait r)). split; [|done].
    eapply rtc_l; [apply (step_select cap r Hm); tauto|].
    eapply rtc_l; [by apply (step_wait cap (with_main MWait r))|apply rtc_refl].
  - eexists. split; [by eapply rtc_once, (step_wait cap)|done].
Qed.

Lemma all_done_ends cap r :
  (∀ x, sl_done (r_slot r x) = true) ∨ r_ctx r = true →
  ∃ r', rtc (relay_step cap) r r' ∧ r_main r' = MDone.
Proof.
  intros Hd. destruct (end_writer cap A r) as (r1 & Hr1 & Hw1 & _ & Hs1 & Hc1 & _).
  { destruct Hd; [left; auto|by right]. }
  destruct (end_writer cap B r1) as (r2 & Hr2 & Hw2 & Hwo & Hs2 & Hc2 & _).
  { rewrite Hs1, Hc1. destruct Hd; [left; auto|by right]. }
  destruct (end_main cap r2) as (r3 & Hr3 & Hm).
  - cbn in Hwo. congruence.
  - done.
  - rewrite Hs2, Hs1, Hc2, Hc1. destruct Hd; [left; auto|by right].
  - exists r3. split; [|done]. etrans; [exact Hr1|]. by etrans.
Qed.

(** When a relayed session ends. Once one peer has left and its frames have
    been delivered, no step of the relay's own goroutines lets [Serve] return
    while the other peer stays connected and the context is not canceled; after
    both peers have left, or a cancellation, it can return from any state. *)
Theorem relay_waits_for_both cap r (Hr : reachable cap r) :
  (∀ x r', idle x r → rtc (relay_step cap) r r' → r_main r' ≠ MDone) ∧
  ((∀ x, sl_closed (r_slot r x) = true) ∨ r_ctx r = true →
   ∃ r', rtc (relay_step cap) r r' ∧ r_main r' = MDone).
Proof.
  split.
  - intros x r' Hi Hs. apply (idle_forever cap x r r'); [|done..].
    destruct (sl_done (r_slot r (other x))) eqn:Hd; [|done].
    destruct (reachable_RInv cap r Hr (other x)) as [_ Hc]. destruct Hi as (_ & Hcl & _).
    rewrite (Hc Hd) in Hcl. done.
  - intros [Hc|Hc]; [|by apply all_done_ends; right].
    destruct (mark_done cap A r (Hc A)) as (r1 & Hr1 & Hd1 & Hs1 & _).
    destruct (mark_done cap B r1) as (r2 & Hr2 & Hd2 & Hs2 & _); [cbn in Hs1; by rewrite Hs1|].
    destruct (all_done_ends cap r2) as (r3 & Hr3 & Hm).
    { left. intros []; [|done]. cbn in Hs2. by rewrite Hs2. }
    exists r3. split; [|done]. etrans; [exact Hr1|]. by etrans.
Qed.

(** Peer A sends one frame and leaves; the relay has noticed. *)
Definition ex_frame : bytes := [x0a; x02; x08; x01].

Definition a_sent : relay := with_slot A (arrive (lengthPrefix ex_frame) fresh_slot) init.
Definition a_read : relay := with_reader A (RPush ex_frame) (with_slot A (pop_recv [] (r_slot a_sent A)) a_sent).
Definition a_queued : relay :=
  with_reader A RRecv (with_slot B (push_out ex_frame (r_slot a_read B)) a_read).
Definition a_delivered : relay := with_slot B (send_out ex_frame [] (r_slot a_queued B)) a_queued.
Definition a_closed : relay := with_slot A (close_slot (r_slot a_delivered A)) a_delivered.
Definition a_left : relay := with_slot A (done_slot (r_slot a_closed A)) a_closed.

Lemma a_left_reachable : reachable 256 a_left.
Proof.
  unfold reachable.
  eapply rtc_l; [left; apply (env_message A (lengthPrefix ex_frame) init); vm_compute; lia|].
  eapply rtc_l; [right; by apply (step_recv 256 A a_sent (lengthPrefix ex_frame) [])|].
  eapply rtc_l; [right; apply (step_push 256 A a_read ex_frame); [done|vm_compute; lia]|].
  eapply rtc_l; [right; by apply (step_send 256 A a_queued ex_frame [])|].
  eapply rtc_l; [left; apply (env_close A a_delivered)|].
  eapply rtc_l; [right; by apply (step_done 256 A a_closed)|]. apply rtc_refl.
Qed.

Lemma relay_transparent_witness :
  let sent := sl_sent (r_slot a_left B) in
  ∃ rest, [ex_frame] = sent ++ rest ∧ stripLengthPrefix <$> sent = sent ∧
    (r_writer a_left A = WRun → r_reader a_left A = RRecv →
     rest = sl_outbound (r_slot a_left B) ++ (stripLengthPrefix <$> sl_recv (r_slot a_left A))).
Proof.
  apply (relay_transparent 256 a_left A [ex_frame]); [apply a_left_reachable|reflexivity|].
  constructor; [|constructor]. by exists x0a, [x02; x08; x01].
Defined.

Lemma relay_waits_for_both_witness :
  idle A a_left ∧ ∀ r', rtc (relay_step 256) a_left r' → r_main r' ≠ MDone.
Proof.
  assert (idle A a_left) as Hi by (unfold idle; by split_and!).
  split; [done|]. intros r' Hs.
  by apply (proj1 (relay_waits_for_both 256 a_left a_left_reachable) A r').
Defined.

(** A room left half full by two failed calls of [Serve]: the next call pairs a
    new peer with a peer of an earlier call. *)
Theorem relay_stale_slot {T} (s : @Server T) room (w x y z : T) e1 e2 :
  sessions s !! room = None →
  let s1 := (Serve_accept room None (inl w) (inr e1) s).2 in
  let s2 := (Serve_accept room None (inl x) (inr e2) s1).2 in
  (Serve_accept room None (inl y) (inl z) s2).1 = inl (z, x).
Proof.
  intros Hs. unfold Serve_accept, acceptOne, bindSlot, get_session. rewrite Hs. cbn.
  repeat (rewrite ?lookup_insert, ?decide_True by done; cbn). done.
Qed.

(** ** Termination *)

(** What is left to do in one direction, and in the session. *)
Definition slot_work (s : slot) (rd : reader) (w : writer) : nat :=
  3 * length (sl_recv s) + length (sl_outbound s) + (if sl_done s then 0 else 1) +
  (match rd with RRecv => 1 | RPush _ => 3 | RExit => 0 end) +
  (match w with WRun => 1 | WExit => 0 end).

Definition work (r : relay) : nat :=
  slot_work (r_slot r A) (r_reader r A) (r_writer r A) +
  slot_work (r_slot r B) (r_reader r B) (r_writer r B) +
  match r_main r with MSelect => 2 | MWait => 1 | MDone => 0 end.

(** Every step of the relay's goroutines leaves less to do. *)
Lemma work_decreases cap r r' : relay_step cap r r' → (work r' < work r)%nat.
Proof.
  unfold work, slot_work.
  intros [x r0 Hc Hd|x r0 msg q Hrd Hq|x r0 Hrd _|x r0 p Hrd _|x r0 p Hrd _|x r0 p q Hw Hq _|
    x r0 p q Hw Hq|x r0 Hw _|r0 Hm _|r0 Hm _ _]; try destruct x; cbn in *;
    repeat first [rewrite upd_eq|rewrite upd_ne by done]; cbn;
    rewrite ?Hd, ?Hrd, ?Hq, ?Hw, ?Hm, ?length_app; cbn [length]; lia.
Qed.

Lemma work_bounds cap n r r' : nsteps (relay_step cap) n r r' → (n + work r' ≤ work r)%nat.
Proof.
  induction 1 as [|n r r1 r' H1 _ IH]; [done|]. apply work_decreases in H1. lia.
Qed.

(** Both peers have left, or the session's context is canceled. *)
Definition over (r : relay) : Prop := (∀ x, sl_closed (r_slot r x) = true) ∨ r_ctx r = true.

Lemma over_step cap r r' : relay_step cap r r' → over r → over r'.
Proof.
  intros Hs [Ho|Ho]; [left|right; by destruct Hs].
  destruct Hs; try done; intros y; specialize (Ho y) as Hy; cbn; unfold upd;
    case_decide; subst; done.
Qed.

Lemma over_steps cap r r' : rtc (relay_step cap) r r' → over r → over r'.
Proof. induction 1 as [|r r1 r' H1 _ IH]; [done|]. intros Ho. by eapply IH, over_step. Qed.

(** Both readers and both writers have returned, and so has [pairAndPump]. *)
Definition pumps_returned (r : relay) : Prop :=
  r_main r = MDone ∧ ∀ x, r_reader r x = RExit ∧ r_writer r x = WExit.

(** The goroutine that [acceptOne] starts for a slot is blocked on
    [<-r.ch.Closed()] until it has closed [done]. *)
Definition watching (x : side) (r : relay) : bool := negb (sl_done (r_slot r x)).

(** No goroutine of the session is left, the watchers included. *)
Definition finished (r : relay) : Prop := pumps_returned r ∧ ∀ x, watching x r = false.

(** A session that is over has a goroutine that can run, until all have ended. *)
Lemma over_progress cap r : over r → nf (relay_step cap) r → pumps_returned r.
Proof.
  intros Ho Hnf.
  assert (∀ r', ¬ relay_step cap r r') as Hno by (intros r' Hs; apply Hnf; by exists r').
  assert (∀ x, sl_done (r_slot r x) = true ∨ r_ctx r = true) as Hdone.
  { intros x. destruct Ho as [Hc|Hc]; [|by right]. left.
    destruct (sl_done (r_slot r x)) eqn:Hd; [done|]. by destruct (Hno _ (step_done cap x r (Hc x) Hd)). }
  assert (∀ x, r_reader r x = RExit ∧ r_writer r x = WExit) as Hall.
  { intros x. split.
    - destruct (r_reader r x) as [|p|] eqn:Hrd; [| |done].
      + destruct (Hno _ (step_recv_end cap x r Hrd ltac:(destruct Ho; auto))).
      + destruct (Hno _ (step_push_end cap x r p Hrd (Hdone (other x)))).
    - destruct (r_writer r x) eqn:Hw; [|done].
      destruct (Hno _ (step_write_end cap x r Hw (Hdone (other x)))). }
  split; [|done]. destruct (r_main r) eqn:Hm; [| |done].
  - destruct (Hno _ (step_select cap r Hm ltac:(destruct (Hdone A); auto))).
  - destruct (Hno _ (step_wait cap r Hm (proj2 (Hall A)) (proj2 (Hall B)))).
Qed.

(** The relay closes no channel. *)
Lemma closed_steps cap r r' x :
  rtc (relay_step cap) r r' → sl_closed (r_slot r' x) = sl_closed (r_slot r x).
Proof.
  induction 1 as [|r r1 r' H1 _ IH]; [done|]. rewrite IH. clear IH r'.
  destruct H1; try done; cbn; unfold upd; case_decide; by subst.
Qed.

Lemma reachable_steps cap r r' : reachable cap r → rtc (relay_step cap) r r' → reachable cap r'.
Proof.
  unfold reachable. intros Hr Hs. etrans; [exact Hr|]. eapply rtc_subrel; [|exact Hs]. intros ?? ?. by right.
Qed.

(** When nothing can run, the watchers left are those of the open channels. *)
Lemma watching_rest cap r x :
  RInv r → nf (relay_step cap) r → watching x r = negb (sl_closed (r_slot r x)).
Proof.
  intros Hr Hnf. unfold watching. destruct (sl_done (r_slot r x)) eqn:Hd.
  - by rewrite (proj2 (Hr x) Hd).
  - destruct (sl_closed (r_slot r x)) eqn:Hc; [|done].
    destruct Hnf. eexists. by apply (step_done cap x).
Qed.

(** [C21] What ends of a relayed session, and what does not. From any state the
    relay's own goroutines run for at most [work r] steps, a number that depends
    on the queued frames only, before they all wait for the peers. Once both
    peers have left or the context is canceled, however the goroutines
    interleave, they stop only when [pairAndPump] has returned and both readers
    and both writers have exited; of the two watchers of [acceptOne] then those
    are left, blocked, whose channel is still open, and no others. So no
    goroutine is left after both peers have gone; after a cancellation, one for
    each peer that is still connected. *)
Theorem relay_session_ends cap r :
  sn (relay_step cap) r ∧
  (∀ n r', nsteps (relay_step cap) n r r' → (n ≤ work r)%nat) ∧
  (reachable cap r → over r → ∀ r', rtc (relay_step cap) r r' → nf (relay_step cap) r' →
     pumps_returned r' ∧
     (∀ x, watching x r' = negb (sl_closed (r_slot r x))) ∧
     ((∀ x, sl_closed (r_slot r x) = true) → finished r')).
Proof.
  split_and!.
  - apply (wf_projected (R1:=flip (relay_step cap)) lt work); [|apply lt_wf].
    intros r1 r2. apply work_decreases.
  - intros n r' Hn. apply work_bounds in Hn. lia.
  - intros Hr Ho r' Hs Hnf.
    assert (pumps_returned r') as Hp by (apply (over_progress cap); [by eapply over_steps|done]).
    assert (∀ x, watching x r' = negb (sl_closed (r_slot r x))) as Hw.
    { intros x. rewrite <- (closed_steps cap r r' x Hs). apply (watching_rest cap); [|done].
      by eapply reachable_RInv, reachable_steps. }
    split_and!; [done..|]. intros Hc. split; [done|]. intros x. by rewrite Hw, Hc.
Qed.

(** Both peers have left the session of the example. *)
Definition both_left : relay := with_slot B (close_slot (r_slot a_left B)) a_left.

Lemma both_left_reachable : reachable 256 both_left.
Proof. eapply rtc_r; [exact a_left_reachable|]. left. apply (env_close B a_left). Qed.

(** And a session canceled at its start, with both peers connected. *)
Definition canceled : relay :=
  {| r_slot := r_slot init; r_reader := r_reader init; r_writer := r_writer init;
     r_ctx := true; r_main := r_main init |}.

Lemma canceled_reachable : reachable 256 canceled.
Proof. eapply rtc_once. left. apply (env_cancel init). Qed.

Lemma relay_session_ends_witness :
  over both_left ∧ work both_left = 7%nat ∧
  (∀ r', rtc (relay_step 256) both_left r' → nf (relay_step 256) r' → finished r') ∧
  over canceled ∧
  (∀ r', rtc (relay_step 256) canceled r' → nf (relay_step 256) r' →
     pumps_returned r' ∧ watching A r' = true ∧ watching B r' = true).
Proof.
  assert (over both_left) as Ho by (left; by intros []).
  assert (over canceled) as Hc by by right.
  split_and!; [done|reflexivity| |done|].
  - intros r' Hs Hnf.
    apply (proj2 (proj2 (relay_session_ends 256 both_left)) both_left_reachable Ho r' Hs Hnf). by intros [].
  - intros r' Hs Hnf.
    destruct (proj2 (proj2 (relay_session_ends 256 canceled)) canceled_reachable Hc r' Hs Hnf) as (Hp & Hw & _).
    by rewrite !Hw.
Defined.
