(* ===== verification/Commands.v ===== *)
(** * The signal and relay commands (cmd/peerrpc/signal.go, relay.go, main.go)

    [peerrpc signal] chooses a validator and TLS from its flags and serves the
    signaling handler ([SignalNode]) and three more paths until it is told to
    stop; [peerrpc relay] runs one session of the relay ([Relay]).  Each is
    its sequential part as a function of the flags, and its process, main
    function and goroutine, as a transition system. *)

From Stdlib Require Import Strings.Byte ZArith Lia.
From stdpp Require Import numbers strings gmap fin_maps relations list.
From S2P Require Import Prelude Messages SignalStore SignalWire SignalServer Target Base64 Auth SignalNode Relay.
Open Scope Z_scope.

(** ** The signal command *)

Record signalFlags : Type := {
  sf_authStatic : bytes; sf_jwtSecret : bytes; sf_tlsCert : bytes; sf_tlsKey : bytes; sf_autoTLS : bool
}.

Definition with_cert (cert key : bytes) (f : signalFlags) : signalFlags :=
  {| sf_authStatic := sf_authStatic f; sf_jwtSecret := sf_jwtSecret f; sf_tlsCert := cert; sf_tlsKey := key;
     sf_autoTLS := sf_autoTLS f |}.

(** What the calls of [generateSelfSignedCert] give: a directory, a key, the
    certificate for it in DER, the writing of a file, the key in DER. *)
Record tls_world : Type := {
  w_mkdir : bytes + error;
  w_key : option error;
  w_cert : bytes + error;
  w_marshal_key : bytes + error;
  w_write : bytes → option error
}.

(** A file: its path, its mode and its content, a PEM block. *)
Record file : Type := { fi_path : bytes; fi_mode : Z; fi_type : string; fi_der : bytes }.

(** The paths, and the files that have been written; nothing is removed. *)
Definition generateSelfSignedCert (w : tls_world) : (bytes * bytes + error) * list file :=
  match w_mkdir w with
  | inr err => (inr err, [])
  | inl tmp =>
      let certPath := tmp ++ go "/cert.pem" in
      let keyPath := tmp ++ go "/key.pem" in
      match w_key w with
      | Some err => (inr err, [])
      | None =>
          match w_cert w with
          | inr err => (inr err, [])
          | inl certDER =>
              match w_write w certPath with
              | Some err => (inr err, [])
              | None =>
                  let cert := {| fi_path := certPath; fi_mode := 420; fi_type := "CERTIFICATE"; fi_der := certDER |} in
                  match w_marshal_key w with
                  | inr err => (inr err, [cert])
                  | inl keyDER =>
                      match w_write w keyPath with
                      | Some err => (inr err, [cert])
                      | None =>
                          (inl (certPath, keyPath),
                           [cert; {| fi_path := keyPath; fi_mode := 384; fi_type := "EC PRIVATE KEY"; fi_der := keyDER |}])
                      end
                  end
              end
          end
      end
  end.

(** [--auto-tls], with the outcome of [generateSelfSignedCert]. *)
Definition auto_tls (generated : bytes * bytes + error) (f : signalFlags) : signalFlags + error :=
  if sf_autoTLS f && bool_decide (sf_tlsCert f = [] ∨ sf_tlsKey f = []) then
    match generated with
    | inr err => inr err
    | inl (cert, key) => inl (with_cert cert key f)
    end
  else inl f.

Inductive validator : Type := VJwt (a : jwtVerifierAdapter) | VStatic (v : StaticValidator).

(** The switch over the flags; [None] admits everyone. *)
Definition choose_validator (f : signalFlags) : option validator + error :=
  if decide (sf_jwtSecret f ≠ []) then inl (Some (VJwt {| secret := sf_jwtSecret f |}))
  else if decide (sf_authStatic f ≠ []) then
    match parseStaticValidator (sf_authStatic f) with
    | inr err => inr err
    | inl v => inl (Some (VStatic v))
    end
  else inl None.

(** What is served, and what the log says of it. *)
Record signal_server : Type := {
  ss_validator : option validator;
  ss_tls : option (bytes * bytes);
  ss_logged_tls : bool
}.

(** [runSignal] up to the goroutine that listens. *)
Definition signal_setup (generated : bytes * bytes + error) (f : signalFlags) : signal_server + error :=
  match auto_tls generated f with
  | inr err => inr err
  | inl f =>
      match choose_validator f with
      | inr err => inr err
      | inl v =>
          inl {| ss_validator := v;
                 ss_tls := if decide (sf_tlsCert f ≠ [] ∧ sf_tlsKey f ≠ []) then Some (sf_tlsCert f, sf_tlsKey f) else None;
                 ss_logged_tls := bool_decide (sf_tlsCert f ≠ []) |}
      end
  end.

(** What the mux does with a request for a path: a WebSocket handler in its first
    phase, an answer with its status, the metrics of the process, or an answer
    of its own. *)
Inductive reply : Type :=
  | RUpgrade (h : handler)
  | RAnswer (status : Z) (body : bytes)
  | RMetrics
  | RNotFound.

Section signal.
Context (hmac : bytes → bytes → bytes) `{!Codec Claims} (unmarshal_header : bytes → option header).

(** [Validate] at the time [clock]. *)
Definition validate_at (clock : Z) (v : validator) : TokenValidatorFunc := λ token,
  match v with
  | VJwt a => adapter_validate hmac unmarshal_header clock a token
  | VStatic v => Validate v token
  end.

Definition route (srv : signal_server) (clock : Z) (path : string) (r : request) (upgraded : bool) : reply :=
  if decide (path = "/ws"%string) then RUpgrade (serveHTTP (validate_at clock <$> ss_validator srv) r upgraded)
  else if decide (path = "/healthz"%string) then RAnswer 200 (go "ok")
  else if decide (path = "/stats"%string) then RAnswer 200 []
  else if decide (path = "/metrics"%string) then RMetrics
  else RNotFound.
End signal.

(** *** The process *)

Definition ErrServerClosed : error := ErrorString "http: Server closed".

(** Where [runSignal] is: waiting for a signal, in [Shutdown], returned. *)
Inductive main_phase : Type := PWaiting | PShutting | PReturned (r : option error).

Record signal_proc : Type := {
  p_main : main_phase;
  p_ctx : bool;
  p_listener : option error;    (* what [ListenAndServe] has returned *)
  p_exit : option Z
}.

Definition signal_start : signal_proc := {| p_main := PWaiting; p_ctx := false; p_listener := None; p_exit := None |}.

(** No step follows the end of the process. *)
Inductive signal_step (p : signal_proc) : signal_proc → Prop :=
  | g_notify :
      p_exit p = None → p_ctx p = false →
      signal_step p {| p_main := p_main p; p_ctx := true; p_listener := p_listener p; p_exit := None |}
  | g_listen_fails err :
      p_exit p = None → p_listener p = None → err ≠ ErrServerClosed →
      signal_step p {| p_main := p_main p; p_ctx := p_ctx p; p_listener := Some err; p_exit := None |}
  | g_listen_closed :
      p_exit p = None → p_listener p = None → p_main p ≠ PWaiting →
      signal_step p {| p_main := p_main p; p_ctx := p_ctx p; p_listener := Some ErrServerClosed; p_exit := None |}
  | g_os_exit err :
      p_exit p = None → p_listener p = Some err → err ≠ ErrServerClosed →
      signal_step p {| p_main := p_main p; p_ctx := p_ctx p; p_listener := p_listener p; p_exit := Some 1 |}
  | g_wake :
      p_exit p = None → p_main p = PWaiting → p_ctx p = true →
      signal_step p {| p_main := PShutting; p_ctx := p_ctx p; p_listener := p_listener p; p_exit := None |}
  | g_shutdown r :
      p_exit p = None → p_main p = PShutting →
      signal_step p {| p_main := PReturned r; p_ctx := p_ctx p; p_listener := p_listener p; p_exit := None |}
  | g_main r :
      (* [main] exits with 1 when [Execute] returns an error *)
      p_exit p = None → p_main p = PReturned r →
      signal_step p {| p_main := p_main p; p_ctx := p_ctx p; p_listener := p_listener p;
                       p_exit := Some match r with None => 0 | Some _ => 1 end |}.

(** ** The relay command *)

Section relay.
Context {peerSlot : Type}.

(** The goroutine: before and in [Serve], between [Serve] and the send on [errCh],
    at its end. *)
Inductive serve_phase : Type := VAccepting | VPumping | VSending (r : option error) | VDone.

Record relay_proc : Type := {
  q_srv : @Relay.Server peerSlot;
  q_serve : serve_phase;
  q_errCh : list (option error);
  q_main : main_phase;
  q_ctx : bool
}.

(** [runRelay] up to the goroutine. *)
Definition relay_setup (bufSize : Z) : relay_proc + error :=
  match Relay.New true bufSize with
  | inr err => inr err
  | inl srv => inl {| q_srv := srv; q_serve := VAccepting; q_errCh := []; q_main := PWaiting; q_ctx := false |}
  end.

(** [errCh] has room for one error and no receiver; [Serve] is [Serve_accept] and,
    when the pumps have ended, [end_session]. *)
Inductive relay_proc_step (service : string) (q : relay_proc) : relay_proc → Prop :=
  | y_notify :
      relay_proc_step service q
        {| q_srv := q_srv q; q_serve := q_serve q; q_errCh := q_errCh q; q_main := q_main q; q_ctx := true |}
  | y_accept exchange r1 r2 r srv' :
      q_serve q = VAccepting → Relay.Serve_accept service exchange r1 r2 (q_srv q) = (r, srv') →
      relay_proc_step service q
        {| q_srv := srv'; q_serve := match r with inl _ => VPumping | inr err => VSending (Some err) end;
           q_errCh := q_errCh q; q_main := q_main q; q_ctx := q_ctx q |}
  | y_pumped :
      q_serve q = VPumping →
      relay_proc_step service q
        {| q_srv := Relay.end_session service (q_srv q); q_serve := VSending None;
           q_errCh := q_errCh q; q_main := q_main q; q_ctx := q_ctx q |}
  | y_send r :
      q_serve q = VSending r → (length (q_errCh q) < 1)%nat →
      relay_proc_step service q
        {| q_srv := q_srv q; q_serve := VDone; q_errCh := q_errCh q ++ [r]; q_main := q_main q; q_ctx := q_ctx q |}
  | y_close :
      q_main q = PWaiting → q_ctx q = true →
      relay_proc_step service q
        {| q_srv := Relay.Close (q_srv q); q_serve := q_serve q; q_errCh := q_errCh q; q_main := PShutting; q_ctx := q_ctx q |}
  | y_return :
      q_main q = PShutting →
      relay_proc_step service q
        {| q_srv := q_srv q; q_serve := q_serve q; q_errCh := q_errCh q; q_main := PReturned None; q_ctx := q_ctx q |}.
End relay.
Arguments relay_proc : clear implicits.

(** ** The flag of static tokens *)

Lemma static_pairs_spec ps out :
  match static_pairs ps out with
  | inl v => Forall (λ p, is_Some (static_pair p)) ps ∧
      ∀ token, is_Some (Identities v !! token) ↔
        is_Some (out !! token) ∨ ∃ p subject, p ∈ ps ∧ static_pair p = Some (token, subject)
  | inr _ => ∃ p, p ∈ ps ∧ static_pair p = None
  end.
Proof.
  revert out. induction ps as [|p ps IH]; intros out; cbn [static_pairs].
  { split; [done|]. intros token. split; [by left|]. intros [?|(p & ? & H%elem_of_nil & _)]; done. }
  destruct (static_pair p) as [[k v]|] eqn:E; [|exists p; split; [by left|done]].
  specialize (IH (<[k := {| id_Subject := v; id_Service := [] |}]> out)).
  destruct (static_pairs _ _) as [sv|err].
  - destruct IH as [Hall IH]. split; [by constructor|]. intros token. rewrite IH. split.
    + intros [H|(p' & s & ? & ?)]; [|right; exists p', s; split; [by right|done]].
      destruct (decide (k = token)) as [->|Hne]; [right; exists p, v; split; [by left|done]|].
      rewrite lookup_insert_ne in H by done. by left.
    + intros [H|(p' & s & [->|?]%elem_of_cons & E')]; [|left|right; by exists p', s].
      * destruct (decide (k = token)) as [->|Hne]; [|rewrite lookup_insert_ne by done; by left].
        left. rewrite lookup_insert, decide_True by done. by eexists.
      * rewrite E in E'. injection E' as <- <-. rewrite lookup_insert, decide_True by done. by eexists.
  - destruct IH as (p' & ? & ?). exists p'. split; [by right|done].
Qed.

Lemma static_pair_key p token subject : static_pair p = Some (token, subject) → token ≠ [].
Proof.
  unfold static_pair. case_decide; [|done]. destruct (Cut _ _) as [k v]. case_decide; [done|]. by intros [= <- <-].
Qed.

(** ** What the signal command admits *)

Section guard.
Context (hmac : bytes → bytes → bytes) `{!Codec Claims} (unmarshal_header : bytes → option header).

(** Which tokens the flags admit. *)
Definition admits (f : signalFlags) (clock : Z) (token : bytes) : Prop :=
  if decide (sf_jwtSecret f ≠ []) then
    ∃ c, Verify hmac unmarshal_header {| Secret := sf_jwtSecret f; Now := None; Leeway := 0 |} clock token = inl c
  else if decide (sf_authStatic f ≠ []) then
    ∃ p subject, p ∈ pieces "," (sf_authStatic f) ∧ static_pair p = Some (token, subject)
  else True.

Lemma choose_validator_admits f v clock token :
  choose_validator f = inl v →
  (admits f clock token ↔
   match v with
   | None => True
   | Some v => ∃ id, validate_at hmac unmarshal_header clock v token = inl id
   end).
Proof.
  unfold choose_validator, admits. destruct (decide (sf_jwtSecret f ≠ [])).
  - intros [= <-]. cbn. unfold adapter_validate. cbn. destruct (Verify _ _ _ _ _); naive_solver.
  - destruct (decide (sf_authStatic f ≠ [])) as [Hs|]; [|by intros [= <-]].
    unfold parseStaticValidator. rewrite decide_False by done.
    pose proof (static_pairs_spec (pieces "," (sf_authStatic f)) ∅) as H.
    destruct (static_pairs _ _) as [sv|err]; [|done]. intros [= <-]. destruct H as [_ H].
    specialize (H token). rewrite lookup_empty in H. cbn. unfold Validate, static_validator.
    assert ((∃ p subject, p ∈ pieces "," (sf_authStatic f) ∧ static_pair p = Some (token, subject)) ↔
      is_Some (Identities sv !! token)) as ->.
    { rewrite H. split; [by right|]. intros [[? ?]|?]; done. }
    destruct (Identities sv !! token) as [id|]; [|split; [intros [? ?]; done|intros [? ?]; done]].
    split; intros _; by eexists.
Qed.

Lemma empty_token_invalid v clock c : Verify hmac unmarshal_header v clock [] ≠ inl c.
Proof. intros (p0 & p1 & _ & _ & _ & H & _)%Verify_inl. by destruct p0. Qed.

(** The first phase of a handler. *)
Lemma serveHTTP_admits f v clock r upgraded :
  choose_validator f = inl v →
  (admits f clock (tokenFromRequest r) →
     h_phase (serveHTTP (validate_at hmac unmarshal_header clock <$> v) r upgraded) = if upgraded then HAnnounce else HNoUpgrade) ∧
  (¬ admits f clock (tokenFromRequest r) →
     ∃ resp, h_phase (serveHTTP (validate_at hmac unmarshal_header clock <$> v) r upgraded) = HRejected resp ∧ resp ≠ NoResponse).
Proof.
  intros Hv. rewrite (choose_validator_admits f v clock _ Hv). unfold serveHTTP, AuthorizeRequest.
  destruct v as [v|]; cbn [fmap option_fmap option_map]; [|by split; [|intros []]].
  unfold Auth.Validate, func_validator. destruct (validate_at _ _ _ _ _) as [id|err] eqn:E; cbn.
  - split; [by destruct upgraded|]. intros []. by exists id.
  - split; [by intros [? ?]|]. intros _. destruct (Upgrade r); by eexists.
Qed.

Lemma no_token f clock : admits f clock [] → sf_jwtSecret f = [] ∧ sf_authStatic f = [].
Proof.
  unfold admits. destruct (decide (sf_jwtSecret f ≠ [])) as [|Hj%dec_stable].
  { intros [c Hc]. by apply empty_token_invalid in Hc. }
  destruct (decide (sf_authStatic f ≠ [])) as [|Hs%dec_stable]; [|done].
  intros (p & subject & _ & Hp). by apply static_pair_key in Hp.
Qed.

Lemma choose_validator_fails f err :
  choose_validator f = inr err → sf_jwtSecret f = [] ∧ ∃ p, p ∈ pieces "," (sf_authStatic f) ∧ static_pair p = None.
Proof.
  unfold choose_validator. destruct (decide (sf_jwtSecret f ≠ [])) as [|Hj%dec_stable]; [done|].
  destruct (decide (sf_authStatic f ≠ [])) as [Hs|]; [|done].
  unfold parseStaticValidator. rewrite decide_False by done.
  pose proof (static_pairs_spec (pieces "," (sf_authStatic f)) ∅) as H.
  by destruct (static_pairs _ _).
Qed.

Lemma generated_paths w cert key :
  (generateSelfSignedCert w).1 = inl (cert, key) →
  cert ≠ [] ∧ key ≠ [] ∧
  ∃ certDER keyDER, (generateSelfSignedCert w).2 =
    [{| fi_path := cert; fi_mode := 420; fi_type := "CERTIFICATE"; fi_der := certDER |};
     {| fi_path := key; fi_mode := 384; fi_type := "EC PRIVATE KEY"; fi_der := keyDER |}].
Proof.
  unfold generateSelfSignedCert. destruct (w_mkdir w) as [tmp|]; [|done]. destruct (w_key w); [done|].
  destruct (w_cert w) as [certDER|]; [|done]. destruct (w_write w _); [done|].
  destruct (w_marshal_key w) as [keyDER|]; [|done]. destruct (w_write w _); [done|]. intros [= <- <-].
  split; [by destruct tmp|]. split; [by destruct tmp|]. by exists certDER, keyDER.
Qed.

(** [C22] What the signal command serves.  It refuses to start only when the
    certificate cannot be made or the static tokens are malformed.  Otherwise
    the request of a WebSocket is passed on exactly when its token is one that
    the flags admit: with a JWT secret, a valid token of that secret, with
    static tokens, one of the flag's, with neither, any; every other request is
    answered with a 401.  Without a token nobody is admitted unless neither is
    given.  The server speaks TLS exactly when it has been told to make a
    certificate or has both files; given a certificate and no key, it speaks
    plain HTTP, although it logs that it does TLS.  A private key that it has made
    is written for its owner only (mode 0600). *)
Theorem signal_command f w clock r :
  match signal_setup (generateSelfSignedCert w).1 f with
  | inr err =>
      (generateSelfSignedCert w).1 = inr err ∨ sf_jwtSecret f = [] ∧ ∃ p, p ∈ pieces "," (sf_authStatic f) ∧ static_pair p = None
  | inl srv =>
      (∀ upgraded, ∃ h, route hmac unmarshal_header srv clock "/ws" r upgraded = RUpgrade h ∧
         (admits f clock (tokenFromRequest r) → h_phase h = if upgraded then HAnnounce else HNoUpgrade) ∧
         (¬ admits f clock (tokenFromRequest r) → ∃ resp, h_phase h = HRejected resp ∧ resp ≠ NoResponse)) ∧
      (admits f clock [] → sf_jwtSecret f = [] ∧ sf_authStatic f = []) ∧
      (is_Some (ss_tls srv) ↔ sf_autoTLS f = true ∨ sf_tlsCert f ≠ [] ∧ sf_tlsKey f ≠ []) ∧
      (sf_autoTLS f = false → sf_tlsCert f ≠ [] → sf_tlsKey f = [] → ss_tls srv = None ∧ ss_logged_tls srv = true) ∧
      (∀ k, k ∈ (generateSelfSignedCert w).2 → fi_type k = "EC PRIVATE KEY"%string → fi_mode k = 384)
  end.
Proof.
  assert (∀ k, k ∈ (generateSelfSignedCert w).2 → fi_type k = "EC PRIVATE KEY"%string → fi_mode k = 384) as Hmode.
  { apply (Forall_forall (λ k, fi_type k = "EC PRIVATE KEY"%string → fi_mode k = 384)).
    unfold generateSelfSignedCert. by repeat (case_match; cbn [snd]); repeat constructor. }
  assert (∀ cert key, (generateSelfSignedCert w).1 = inl (cert, key) → cert ≠ [] ∧ key ≠ []) as Hgen.
  { intros cert key H. by destruct (generated_paths w cert key H) as (? & ? & _). }
  revert Hgen. generalize ((generateSelfSignedCert w).1). intros generated Hgen.
  assert (∀ f', auto_tls generated f = inl f' →
    sf_jwtSecret f' = sf_jwtSecret f ∧ sf_authStatic f' = sf_authStatic f ∧
    (sf_autoTLS f = true → sf_tlsCert f' ≠ [] ∧ sf_tlsKey f' ≠ []) ∧ (sf_autoTLS f = false → f' = f)) as Hauto.
  { intros f'. unfold auto_tls. destruct (sf_autoTLS f); cbn [andb]; [|by intros [= <-]].
    case_bool_decide as Hno; [|intros [= <-]; tauto].
    destruct generated as [[cert key]|]; [|done]. intros [= <-]. cbn. by destruct (Hgen cert key eq_refl). }
  unfold signal_setup. destruct (auto_tls generated f) as [f'|err] eqn:Ea.
  - destruct (Hauto f' eq_refl) as (Ej & Es & Htrue & Hfalse).
    assert (choose_validator f' = choose_validator f) as Hc by (unfold choose_validator; by rewrite Ej, Es).
    rewrite Hc. destruct (choose_validator f) as [v|err] eqn:Ev; [|right; by eapply choose_validator_fails].
    split; [|split; [apply no_token|]].
    { intros upgraded. eexists. split; [reflexivity|]. by apply serveHTTP_admits. }
    cbn [ss_tls ss_logged_tls]. destruct (sf_autoTLS f) eqn:Et.
    + rewrite decide_True by by apply Htrue. by split; [split; [by left|by eexists]|].
    + rewrite (Hfalse eq_refl) in *. split; [|split; [|done]].
      * destruct (decide _); split; [by right|by eexists|by intros []|by intros [|]].
      * intros _ Hcert Hkey. rewrite decide_False by by intros []. by rewrite bool_decide_eq_true_2.
  - left. unfold auto_tls in Ea. destruct (_ && _); [|done]. destruct generated as [[cert key]|]; [done|]. congruence.
Qed.
End guard.

(** Two static tokens, and a certificate without its key: the second token is
    admitted, another is not, and the server speaks plain HTTP. *)
Definition static_flags : signalFlags :=
  {| sf_authStatic := go "t=dev, u=ops"; sf_jwtSecret := []; sf_tlsCert := go "cert.pem"; sf_tlsKey := []; sf_autoTLS := false |}.

Definition no_tls : tls_world :=
  {| w_mkdir := inl (go "/tmp/t"); w_key := None; w_cert := inl []; w_marshal_key := inl []; w_write := λ _, None |}.

#[local] Instance no_claims : Codec Claims := table_codec [].

Lemma signal_command_witness :
  ∃ srv h h' resp, signal_setup (generateSelfSignedCert no_tls).1 static_flags = inl srv ∧
    route (λ k _, k) (λ _, None) srv 0 "/ws" (node_request "u") true = RUpgrade h ∧ h_phase h = HAnnounce ∧
    route (λ k _, k) (λ _, None) srv 0 "/ws" (node_request "v") true = RUpgrade h' ∧ h_phase h' = HRejected resp ∧
    ss_tls srv = None ∧ ss_logged_tls srv = true.
Proof.
  pose proof (λ r, signal_command (λ k _, k) (λ _, None) static_flags no_tls 0 r) as H.
  destruct (signal_setup (generateSelfSignedCert no_tls).1 static_flags) as [srv|err] eqn:E; [|vm_compute in E; discriminate].
  destruct (H (node_request "u")) as (H1 & _ & _ & Htls). destruct (H (node_request "v")) as (H2 & _).
  destruct (H1 true) as (h & Hr & Ha & _). destruct (H2 true) as (h' & Hr' & _ & Hna).
  destruct Hna as (resp & Hph & _).
  { intros (q & subject & Hin & Hq).
    assert (pieces "," (go "t=dev, u=ops") = [go "t=dev"; go " u=ops"]) as Ep by (vm_compute; reflexivity).
    change (sf_authStatic static_flags) with (go "t=dev, u=ops") in Hin. rewrite Ep in Hin.
    apply elem_of_cons in Hin as [->|Hin%list_elem_of_singleton]; [|subst q]; vm_compute in Hq; discriminate. }
  exists srv, h, h', resp. split; [reflexivity|]. split; [exact Hr|]. split.
  { apply Ha. exists (go " u=ops"), (go "ops"). split; [|vm_compute; reflexivity].
    assert (pieces "," (sf_authStatic static_flags) = [go "t=dev"; go " u=ops"]) as -> by (vm_compute; reflexivity).
    apply elem_of_cons. right. apply list_elem_of_singleton. reflexivity. }
  split; [exact Hr'|]. split; [exact Hph|]. apply (proj1 Htls); [reflexivity|discriminate|reflexivity].
Defined.

(** ** When the processes end *)

Definition signal_reachable (p : signal_proc) : Prop := rtc signal_step signal_start p.

Definition main_work (m : main_phase) : nat := match m with PWaiting => 2 | PShutting => 1 | PReturned _ => 0 end.

Definition signal_work (p : signal_proc) : nat :=
  (if p_ctx p then 0 else 1) + main_work (p_main p) + (if p_listener p then 0 else 1) + (if p_exit p then 0 else 1).

Lemma signal_step_work p p' : signal_step p p' → (signal_work p' < signal_work p)%nat.
Proof.
  unfold signal_work. destruct 1 as [Hx Hc|err Hx Hl|Hx Hl|err Hx Hl|Hx Hm Hc|r Hx Hm|r Hx Hm];
    cbn; rewrite Hx, ?Hc, ?Hl, ?Hm; cbn; try case_match; lia.
Qed.

(** Of a process that has begun to stop, or has ended with a code. *)
Record signal_inv (p : signal_proc) : Prop := {
  si_main : p_main p ≠ PWaiting → p_ctx p = true;
  si_closed : p_listener p = Some ErrServerClosed → p_main p ≠ PWaiting;
  si_exit c : p_exit p = Some c →
    (c = 0 ∧ p_main p = PReturned None) ∨ (c = 1 ∧ ∃ err, p_main p = PReturned (Some err)) ∨
    (c = 1 ∧ ∃ err, p_listener p = Some err ∧ err ≠ ErrServerClosed) }.

Lemma signal_reachable_inv p : signal_reachable p → signal_inv p.
Proof.
  apply (rtc_ind_r signal_inv signal_start); [by split|].
  intros p0 p1 _ Hs [I1 I2 I3]. destruct Hs as [Hx Hc|err Hx Hl|Hx Hl Hm|err Hx Hl|Hx Hm Hc|r Hx Hm|r Hx Hm];
    split; cbn; try done; try naive_solver.
  - intros _. apply I1. by rewrite Hm.
  - intros c [= <-]. destruct r as [err|]; [right; left|left]; by eauto.
Qed.

Section relay_process.
Context {peerSlot : Type} (service : string).
Abbreviation proc := (relay_proc peerSlot).

Definition relay_reachable (bufSize : Z) (q : proc) : Prop :=
  ∃ q0, relay_setup bufSize = inl q0 ∧ rtc (relay_proc_step service) q0 q.

Record relay_inv (q : proc) : Prop := {
  ri_waiting : q_ctx q = false → q_main q = PWaiting;
  ri_closed : q_main q ≠ PWaiting → s_closed (q_srv q) = true;
  ri_result r : q_main q = PReturned r → r = None;
  ri_errCh : match q_serve q with VDone => ∃ r, q_errCh q = [r] | _ => q_errCh q = [] end }.

Lemma Serve_accept_closed exchange r1 r2 (s : @Relay.Server peerSlot) :
  s_closed (Relay.Serve_accept service exchange r1 r2 s).2 = s_closed s.
Proof.
  unfold Relay.Serve_accept, Relay.acceptOne, Relay.bindSlot, Relay.get_session.
  repeat (case_match; simplify_eq/=; try done).
Qed.

Lemma relay_inv_step q q' : relay_inv q → relay_proc_step service q q' → relay_inv q'.
Proof.
  intros [I1 I2 I3 I4] Hs. destruct Hs as [|exchange r1 r2 r srv' Hv Hr|Hv|r Hv Hl|Hm Hc|Hm]; split; cbn; try done.
  - intros Hm. pose proof (Serve_accept_closed exchange r1 r2 (q_srv q)) as E. rewrite Hr in E. cbn in E. rewrite E. by apply I2.
  - rewrite Hv in I4. by destruct r.
  - by rewrite Hv in I4.
  - rewrite Hv in I4. exists r. by rewrite I4.
  - rewrite Hc. done.
  - intros Hc. rewrite (I1 Hc) in Hm. done.
  - intros _. apply I2. by rewrite Hm.
  - by intros r [= <-].
Qed.

Lemma relay_reachable_inv bufSize q : relay_reachable bufSize q → relay_inv q.
Proof.
  intros (q0 & [= <-] & H). revert q H. apply (rtc_ind_r relay_inv).
  - by split.
  - intros q q' _ Hs Hi. by eapply relay_inv_step.
Qed.
End relay_process.

(** [C23] When the commands end.  The process of [peerrpc signal] makes at most five
    steps; once it has been told to stop, or listening has failed, it goes on
    until it exits, with 1 if listening or the shutdown has failed; it exits
    with 0 only when told to stop.  [peerrpc relay] returns only when told to
    stop, and then nil, with the relay closed: whatever [Serve] has returned
    before, an error it began with too, stays in [errCh], which nothing reads,
    though it has room, so that the goroutine is never blocked.  Until then its
    main function only waits. *)
Theorem commands_end {peerSlot} service bufSize p (q : relay_proc peerSlot)
    (Hp : signal_reachable p) (Hq : relay_reachable service bufSize q) :
  (∀ n p', nsteps signal_step n p p' → (n ≤ 5)%nat) ∧
  (p_exit p = None → p_ctx p = true ∨ (∃ err, p_listener p = Some err ∧ err ≠ ErrServerClosed) → ∃ p', signal_step p p') ∧
  (∀ c, p_exit p = Some c →
     (c = 0 ∧ p_ctx p = true ∧ p_main p = PReturned None) ∨ (c = 1 ∧ ∃ err, p_main p = PReturned (Some err)) ∨
     (c = 1 ∧ ∃ err, p_listener p = Some err ∧ err ≠ ErrServerClosed)) ∧
  (∀ r, q_main q = PReturned r → r = None ∧ q_ctx q = true ∧ s_closed (q_srv q) = true) ∧
  (∀ r, q_serve q = VSending r → ∃ q', relay_proc_step service q q' ∧ q_errCh q' = [r]) ∧
  (q_ctx q = false → ∀ q', rtc (relay_proc_step service) q q' → q_ctx q' = false → q_main q' = PWaiting).
Proof.
  pose proof (signal_reachable_inv p Hp) as [I1 I2 I3]. pose proof (relay_reachable_inv service bufSize q Hq) as [J1 J2 J3 J4].
  split_and!.
  - assert (signal_work p ≤ 5)%nat as Hw by (unfold signal_work, main_work; repeat case_match; lia).
    intros n p' Hn. enough (n + signal_work p' ≤ signal_work p)%nat by lia. clear -Hn.
    induction Hn as [|n p p1 p' Hs%signal_step_work _ IH]; lia.
  - intros Hx [Hc|(err & Hl & Hne)]; [|eexists; by apply (g_os_exit p err)].
    destruct (p_main p) as [| |r] eqn:Hm; eexists; [by apply g_wake|by apply (g_shutdown p None)|by apply (g_main p r)].
  - intros c [[-> Hm]|[?|?]]%I3; [left|right; by left|right; by right]. split; [done|]. split; [|done].
    apply I1. by rewrite Hm.
  - intros r Hm. split; [by eapply J3|]. split; [|apply J2; by rewrite Hm].
    destruct (q_ctx q); [done|]. rewrite J1 in Hm by done. done.
  - intros r Hv. rewrite Hv in J4. eexists. split; [apply (y_send _ _ r Hv); rewrite J4; cbn; lia|]. cbn. by rewrite J4.
  - intros _ q' Hr Hc. destruct Hq as (q0 & H0 & Hq0).
    assert (relay_reachable service bufSize q') as Hq' by (exists q0; split; [done|by etrans]).
    by apply (relay_reachable_inv service bufSize q' Hq').
Qed.

(** The exchange of the relay fails; the signal command cannot listen. *)
Lemma commands_end_witness :
  ∃ p (q : relay_proc unit) err, signal_reachable p ∧ relay_reachable "room" 0 q ∧
    p_exit p = Some 1 ∧ p_ctx p = false ∧ q_errCh q = [Some err] ∧ q_ctx q = false ∧
    ∀ q', rtc (relay_proc_step "room") q q' → q_ctx q' = false → q_main q' = PWaiting.
Proof.
  set (err := wrapf "relay: signaling exchange: " (ErrorString "refused")).
  set (srv := {| ForwardBufferSize := 256; Relay.sessions := ∅ : gmap string (@Relay.session unit); s_closed := false |}).
  set (p := {| p_main := PWaiting; p_ctx := false; p_listener := Some (ErrorString "in use"); p_exit := Some 1 |}).
  set (q := {| q_srv := srv; q_serve := VDone; q_errCh := [Some err]; q_main := PWaiting; q_ctx := false |}).
  assert (signal_reachable p) as Hp.
  { eapply rtc_l; [by apply (g_listen_fails _ (ErrorString "in use"))|].
    eapply rtc_l; [by apply (g_os_exit _ (ErrorString "in use"))|]. apply rtc_refl. }
  assert (relay_reachable "room" 0 q) as Hq.
  { eexists. split; [reflexivity|].
    eapply rtc_l; [eapply (y_accept "room" _ (Some (ErrorString "refused")) (inl tt) (inl tt)); reflexivity|].
    eapply rtc_l; [apply (y_send "room" _ (Some err)); [reflexivity|cbn; lia]|]. apply rtc_refl. }
  exists p, q, err. do 2 (split; [assumption|]). do 4 (split; [reflexivity|]).
  destruct (commands_end "room" 0 p q Hp Hq) as (_ & _ & _ & _ & _ & H). exact (H eq_refl).
Defined.
