(* ===== verification/Bridge.v ===== *)
(** * The Connect bridge (grpcbridge/bridge.go, httpclient.go)

    The two invokers, over an HTTP client and an in-process handler that are
    parameters, the reading of a streamed response, the status codes, and the
    handlers as programs of the server model. [json.Unmarshal] into the error
    shape is a parameter: the code and the message, when it succeeds. *)

From Stdlib Require Import Strings.Byte ZArith Lia.
From stdpp Require Import numbers strings gmap fin_maps list relations pretty.
From S2P Require Import Prelude Protocol Status Messages RpcServer RpcServerProps.
Open Scope Z_scope.

(** ** HTTP *)

Record request : Type := { rq_URL : string; rq_Header : list (string * string); rq_Body : bytes }.

(** A response: the headers in the order their map is ranged over, and the body. *)
Record response : Type := {
  rs_StatusCode : Z; rs_Header : list (string * list string); rs_Body : Protocol.reader }.

(** What a request comes to: it cannot be built, the client fails, a response. *)
Inductive outcome : Type :=
  | NewRequestError (err : error)
  | DoError (err : error)
  | Response (r : response).

Definition lower_ascii (c : Ascii.ascii) : Ascii.ascii :=
  let n := Ascii.nat_of_ascii c in
  if (Nat.leb 65 n && Nat.leb n 90)%bool then Ascii.ascii_of_nat (n + 32) else c.

(** [strings.ToLower] on a header name, which is ASCII. *)
Fixpoint ToLower (s : string) : string :=
  match s with
  | EmptyString => EmptyString
  | String.String c s => String.String (lower_ascii c) (ToLower s)
  end.

(** The loop that merges response headers under lower-case keys. *)
Definition merge_headers (hs : list (string * list string)) : Metadata :=
  foldl (λ md kv, let lk := ToLower kv.1 in <[lk := default [] (md !! lk) ++ kv.2]> md) ∅ hs.

(** The request both invokers build. *)
Definition connect_request (url : string) (body : bytes) (hdr : Metadata) : request :=
  {| rq_URL := url;
     rq_Header := [("Content-Type", "application/proto"); ("Connect-Protocol-Version", "1")]%string ++
       (kv ← map_to_list hdr; v ← kv.2; [(kv.1, v)]);
     rq_Body := body |}.

(** [io.ReadAll]. *)
Definition ReadAll (r : Protocol.reader) : bytes * option error :=
  (r_data r, if decide (r_end r = EOF) then None else Some (r_end r)).

(** ** Status codes *)

Section bridge.
Context (json_Unmarshal : bytes → option (Z * string)).

Definition connectCodeFromHTTP (c : Z) : Z :=
  if c =? 400 then 3 else if c =? 401 then 16 else if c =? 403 then 7 else if c =? 404 then 5
  else if c =? 409 then 10 else if c =? 429 then 8 else 13.

Definition bytes_string (b : bytes) : string := String.string_of_list_byte b.

Definition truncate (s : bytes) (n : nat) : string :=
  if decide (length s ≤ n)%nat then bytes_string s else bytes_string (take n s) +:+ "...".

Definition decodeConnectError (httpCode : Z) (body : bytes) : Status :=
  let generic :=
    {| Code := connectCodeFromHTTP httpCode;
       Message := "connect error (http " +:+ pretty httpCode +:+ "): " +:+ truncate body 256 |} in
  if decide (body = []) then
    {| Code := connectCodeFromHTTP httpCode; Message := "http " +:+ pretty httpCode |}
  else match json_Unmarshal body with
       | Some (code, msg) => if code =? 0 then generic else {| Code := int32 code; Message := msg |}
       | None => generic
       end.

Definition decodeConnectErrorFromStatus (httpCode : Z) (body : bytes) : Status :=
  let generic := {| Code := 13; Message := "upstream error (http " +:+ pretty httpCode +:+ ")" |} in
  if decide (body = []) then {| Code := 13; Message := "http " +:+ pretty httpCode |}
  else match json_Unmarshal body with
       | Some (code, msg) => if code =? 0 then generic else {| Code := int32 code; Message := msg |}
       | None => generic
       end.

(** ** HTTPClientInvoker *)

Definition invoke_result : Type := bytes * Metadata * Status.

Definition Client_Invoke (Base procedure : string) (reqBody : bytes) (hdr : Metadata)
    (do_ : request → outcome) : invoke_result :=
  match do_ (connect_request (Base +:+ procedure) reqBody hdr) with
  | NewRequestError err => ([], ∅, Err 13 (Some err))
  | DoError err => ([], ∅, Err 14 (Some err))
  | Response resp =>
      let respMD := merge_headers (rs_Header resp) in
      let '(body, readErr) := ReadAll (rs_Body resp) in
      match readErr with
      | Some err => ([], respMD, Err 13 (Some err))
      | None =>
          if rs_StatusCode resp =? 200 then (body, respMD, OK)
          else ([], respMD,
                {| Code := 13; Message := "upstream connect http " +:+ pretty (rs_StatusCode resp) |})
      end
  end.

(** The loop over the envelopes of a streamed response: the messages it passes
    to [send] and the status; every turn reads a header of 5 bytes. *)
Fixpoint stream_loop (fuel : nat) (r : Protocol.reader) : list bytes * option Status :=
  match fuel with
  | O => ([], None)
  | S fuel =>
      match io_ReadFull r 5 with
      | (Ok [flags; b1; b2; b3; b4], r) =>
          let msgLen := of_be32 b1 b2 b3 b4 in
          if msgLen =? 0 then stream_loop fuel r
          else
            match io_ReadFull r (Z.to_nat msgLen) with
            | (Ok msgBuf, r) =>
                if decide (flags = x01) then ([], Some (decodeConnectErrorFromStatus 200 msgBuf))
                else let '(ms, st) := stream_loop fuel r in (msgBuf :: ms, st)
            | (Fail err, _) => ([], Some (Err 13 (Some err)))
            | (Panic _, _) => ([], None)
            end
      | (Fail err, _) =>
          ([], Some (if decide (err = EOF ∨ err = ErrUnexpectedEOF) then OK else Err 13 (Some err)))
      | _ => ([], None)
      end
  end.

Definition Client_InvokeStream (Base procedure : string) (reqBody : bytes) (hdr : Metadata)
    (do_ : request → outcome) : list bytes * option Status :=
  match do_ (connect_request (Base +:+ procedure) reqBody hdr) with
  | NewRequestError err => ([], Some (Err 13 (Some err)))
  | DoError err => ([], Some (Err 14 (Some err)))
  | Response resp =>
      if rs_StatusCode resp =? 200
      then stream_loop (S (length (r_data (rs_Body resp)))) (rs_Body resp)
      else ([], Some (decodeConnectErrorFromStatus (rs_StatusCode resp) (ReadAll (rs_Body resp)).1))
  end.

(** ** HTTPHandlerInvoker

    [serve] is the handler on the recorder, [None] when the request cannot be
    built. *)

Record recorder : Type := { rec_header : list (string * list string); rec_body : bytes; rec_status : Z }.

Definition Handler_Invoke (procedure : string) (reqBody : bytes) (hdr : Metadata)
    (serve : request → recorder + error) : invoke_result :=
  match serve (connect_request procedure reqBody hdr) with
  | inr err => ([], ∅, Err 13 (Some err))
  | inl rec =>
      let respMD := merge_headers (rec_header rec) in
      if rec_status rec =? 200 then (rec_body rec, respMD, OK)
      else ([], respMD, decodeConnectError (rec_status rec) (rec_body rec))
  end.

Definition Handler_InvokeStream (procedure : string) (reqBody : bytes) (hdr : Metadata)
    (serve : request → recorder + error) : list bytes * option Status :=
  let '(body, _, status) := Handler_Invoke procedure reqBody hdr serve in
  if negb (Code status =? 0) then ([], Some status)
  else ((if decide (body = []) then [] else [body]), Some OK).

(** ** The handlers *)

(** [ConnectInvoker] and [ConnectStreamInvoker], given the procedure, the
    request and the metadata. *)
Definition ConnectInvoker : Type := string → bytes → Metadata → invoke_result.
Definition ConnectStreamInvoker : Type := string → bytes → Metadata → list bytes * option Status.

Definition unary_reply (r : invoke_result) : prog :=
  let '(respBody, respMD, status) := r in
  if negb (Code status =? 0) then Return (Some status)
  else
    let send := Send respBody (λ err,
      Return (Some match err with Some err => Err 13 (Some err) | None => OK end)) in
    if decide (respMD = ∅) then send else CallSetTrailer respMD send.

Definition UnaryHandler {Vals : Type} (invoker : ConnectInvoker) (_ : Vals) (s : view) : prog :=
  Recv (λ req,
    match req with
    | inr err => Return (Some (Err 13 (Some err)))
    | inl req => CallHeader (λ hdr, unary_reply (invoker (v_Method s) req hdr))
    end).

(** Errors of [Send] are dropped; the status is the invoker's. *)
Definition stream_reply (r : list bytes * option Status) : prog :=
  foldr (λ resp p, Send resp (λ _, p)) (Return r.2) r.1.

Definition ServerStreamingHandler {Vals : Type} (invoker : ConnectStreamInvoker) (_ : Vals) (s : view) : prog :=
  Recv (λ req,
    match req with
    | inr err => Return (Some (Err 13 (Some err)))
    | inl req => CallHeader (λ hdr, stream_reply (invoker (v_Method s) req hdr))
    end).

(** [MountConnectServiceWithStreaming]; without stream methods it is
    [MountConnectService]. *)
Definition mount {Vals : Type} (serviceName : string) (methods streamMethods : list string)
    (invoker : ConnectInvoker) (streamInvoker : ConnectStreamInvoker) : @ServiceDesc Vals :=
  {| sd_ServiceName := serviceName;
     sd_Methods := (λ m,
       if decide (m ∈ streamMethods)
       then {| md_Method := m; md_Kind := MethodKindServerStreaming;
               md_Handler := ServerStreamingHandler streamInvoker |}
       else {| md_Method := m; md_Kind := MethodKindUnary; md_Handler := UnaryHandler invoker |})
       <$> methods |}.

Definition MountConnectServiceWithStreaming {Vals : Type} (srv : @Server Vals) (serviceName : string)
    (methods streamMethods : list string) (invoker : ConnectInvoker)
    (streamInvoker : ConnectStreamInvoker) : res unit * @Server Vals :=
  RegisterService srv (mount serviceName methods streamMethods invoker streamInvoker).

Definition MountConnectService {Vals : Type} (srv : @Server Vals) (serviceName : string)
    (methods : list string) (invoker : ConnectInvoker) : res unit * @Server Vals :=
  RegisterService srv (mount serviceName methods [] invoker (λ _ _ _, ([], None))).
End bridge.

(** ** Streamed responses *)

Definition envelope (flags : byte) (payload : bytes) : bytes := flags :: be32 (len payload) ++ payload.

(** Envelopes the loop reads through: empty ones, which it skips, and messages,
    with any flag but 1. *)
Definition passed (m : byte * bytes) : Prop := len m.2 < two32 ∧ (m.1 ≠ x01 ∨ m.2 = []).

Definition envelopes (ms : list (byte * bytes)) : bytes := mjoin ((λ m, envelope m.1 m.2) <$> ms).

Definition payloads (ms : list (byte * bytes)) : list bytes := filter (.≠ []) (snd <$> ms).

Section stream.
Context (json_Unmarshal : bytes → option (Z * string)).

Abbreviation loop := (stream_loop json_Unmarshal).

(** Reading an envelope's header. *)
Lemma loop_header fuel flags n rest e :
  0 ≤ n < two32 →
  loop (S fuel) {| r_data := (flags :: be32 n) ++ rest; r_end := e |} =
  if n =? 0 then loop fuel {| r_data := rest; r_end := e |}
  else match io_ReadFull {| r_data := rest; r_end := e |} (Z.to_nat n) with
       | (Ok msgBuf, r) =>
           if decide (flags = x01) then ([], Some (decodeConnectErrorFromStatus json_Unmarshal 200 msgBuf))
           else let '(ms, st) := loop fuel r in (msgBuf :: ms, st)
       | (Fail err, _) => ([], Some (Err 13 (Some err)))
       | (Panic _, _) => ([], None)
       end.
Proof.
  intros Hn. cbn [stream_loop].
  pose proof (io_ReadFull_app (flags :: be32 n) rest e) as H.
  change (length (flags :: be32 n)) with 5%nat in H. rewrite H. cbn [be32].
  unfold be32 at 1. by rewrite of_be32_be32, uint32_id.
Qed.

Lemma loop_message fuel flags p rest e :
  0 < len p < two32 →
  loop (S fuel) {| r_data := envelope flags p ++ rest; r_end := e |} =
  if decide (flags = x01) then ([], Some (decodeConnectErrorFromStatus json_Unmarshal 200 p))
  else let '(ms, st) := loop fuel {| r_data := rest; r_end := e |} in (p :: ms, st).
Proof.
  intros Hp. unfold envelope.
  change ((flags :: be32 (len p) ++ p) ++ rest) with ((flags :: (be32 (len p) ++ p) ++ rest)).
  rewrite <- app_assoc. change (flags :: be32 (len p) ++ p ++ rest) with ((flags :: be32 (len p)) ++ p ++ rest).
  rewrite loop_header by lia. rewrite (proj2 (Z.eqb_neq _ _)) by lia.
  replace (Z.to_nat (len p)) with (length p) by (unfold len; lia). by rewrite io_ReadFull_app.
Qed.

Lemma loop_empty fuel flags rest e :
  loop (S fuel) {| r_data := envelope flags [] ++ rest; r_end := e |} =
  loop fuel {| r_data := rest; r_end := e |}.
Proof.
  unfold envelope. rewrite app_nil_r. change (len []) with 0.
  change ((flags :: be32 0) ++ rest) with ((flags :: be32 0) ++ rest). by rewrite loop_header.
Qed.

Lemma loop_passed ms fuel rest e :
  Forall passed ms →
  loop (length ms + fuel) {| r_data := envelopes ms ++ rest; r_end := e |} =
  let '(xs, st) := loop fuel {| r_data := rest; r_end := e |} in (payloads ms ++ xs, st).
Proof.
  unfold payloads. induction 1 as [|[f p] ms [Hl Hf] _ IH]; cbn [length Nat.add].
  - cbn. by destruct (loop fuel _).
  - change (envelopes ((f, p) :: ms)) with (envelope f p ++ envelopes ms). rewrite <- app_assoc.
    cbn [fst snd] in *. destruct (decide (p = [])) as [->|Hne].
    + rewrite loop_empty, IH. cbn. by rewrite decide_False by tauto.
    + destruct Hf as [Hf|]; [|done]. pose proof (len_nonneg p).
      assert (len p ≠ 0) by (by intros ?%len_0).
      rewrite loop_message, decide_False, IH by (done || lia). cbn. rewrite decide_True by done.
      by destruct (loop fuel _).
Qed.

Lemma io_ReadFull_length r n b r' :
  io_ReadFull r n = (Ok b, r') → (length (r_data r') + n = length (r_data r))%nat ∧ length b = n.
Proof.
  unfold io_ReadFull. case_decide; [|by destruct (r_data r)]. intros [= <- <-]. cbn.
  rewrite length_drop, length_take. lia.
Qed.

(** Five bytes a turn: the fuel is never the reason to stop. *)
Lemma loop_ends fuel r : (length (r_data r) < fuel)%nat → (loop fuel r).2 ≠ None.
Proof.
  revert r. induction fuel as [|fuel IH]; intros r Hf; [lia|]. cbn [stream_loop].
  destruct (io_ReadFull r 5) as [[b|err|msg] r1] eqn:H1; [|done|].
  - destruct (io_ReadFull_length _ _ _ _ H1) as [Hl Hb].
    destruct b as [|f [|b1 [|b2 [|b3 [|b4 [|]]]]]]; try done.
    destruct (_ =? 0); [apply IH; lia|].
    destruct (io_ReadFull r1 _) as [[p|err|msg] r2] eqn:H2; [|done|].
    + destruct (io_ReadFull_length _ _ _ _ H2) as [Hl2 _]. case_decide; [done|].
      specialize (IH r2). destruct (loop fuel r2). apply IH. lia.
    + unfold io_ReadFull in H2. case_decide; [done|]. by destruct (r_data r1).
  - unfold io_ReadFull in H1. case_decide; [done|]. by destruct (r_data r).
Qed.

Lemma envelopes_length ms : (length ms ≤ length (envelopes ms))%nat.
Proof.
  induction ms as [|[f p] ms IH]; [done|].
  change (envelopes ((f, p) :: ms)) with (envelope f p ++ envelopes ms). rewrite length_app. cbn. lia.
Qed.

(** The loop on a body that begins with envelopes it reads through. *)
Lemma loop_body ms tail e :
  Forall passed ms →
  ∃ fuel, (length tail < fuel)%nat ∧
    loop (S (length (envelopes ms ++ tail))) {| r_data := envelopes ms ++ tail; r_end := e |} =
    let '(xs, st) := loop fuel {| r_data := tail; r_end := e |} in (payloads ms ++ xs, st).
Proof.
  intros Hms. pose proof (envelopes_length ms).
  exists (S (length (envelopes ms ++ tail)) - length ms)%nat. rewrite length_app. split; [lia|].
  rewrite <- (loop_passed ms _ tail e Hms). f_equal. lia.
Qed.
End stream.

(** ** Properties *)

(** A streamed Connect response. The bridge sends the non-empty messages of
    the body in order, whatever their flags but 1, and always ends with a
    status: OK when the body ends at an envelope or inside an envelope's header,
    so a response cut there counts as complete; code 13 when it ends inside a
    message; the decoded error at an envelope with flag 1. *)
Theorem stream_response_status json url proc body hdr (do_ : request → outcome) hs ms tail
    (Hdo : do_ (connect_request (url +:+ proc) body hdr) =
           Response {| rs_StatusCode := 200; rs_Header := hs;
                       rs_Body := {| r_data := envelopes ms ++ tail; r_end := EOF |} |})
    (Hms : Forall passed ms) :
  let r := Client_InvokeStream json url proc body hdr do_ in
  r.2 ≠ None ∧
  ((length tail < 5)%nat → r = (payloads ms, Some OK)) ∧
  (∀ f n part, tail = (f :: be32 n) ++ part → 0 < n < two32 → len part < n →
     r = (payloads ms, Some (Err 13 (Some (if decide (part = []) then EOF else ErrUnexpectedEOF))))) ∧
  (∀ p rest, tail = envelope x01 p ++ rest → 0 < len p < two32 →
     r = (payloads ms, Some (decodeConnectErrorFromStatus json 200 p))).
Proof.
  cbv zeta. unfold Client_InvokeStream. rewrite Hdo. cbn [rs_StatusCode rs_Body r_data Z.eqb Pos.eqb].
  split; [apply loop_ends; cbn; lia|].
  destruct (loop_body json ms tail EOF Hms) as (fuel & Hf & ->). destruct fuel as [|fuel]; [lia|].
  split; [|split].
  - intros Ht. cbn [stream_loop]. unfold io_ReadFull. cbn [r_data r_end].
    rewrite decide_False by lia. destruct tail; cbn.
    + by rewrite app_nil_r.
    + by rewrite app_nil_r.
  - intros f n part -> Hn Hp. rewrite loop_header by lia. rewrite (proj2 (Z.eqb_neq _ _)) by lia.
    unfold io_ReadFull. cbn [r_data r_end]. unfold len in Hp. rewrite decide_False by lia.
    destruct part; cbn; by rewrite app_nil_r.
  - intros p rest -> Hp. rewrite loop_message by lia. rewrite decide_True by done. by rewrite app_nil_r.
Qed.

(** The bridge does not forward the client's metadata. When a unary request
    has arrived on a stream whose handler and interceptors have set no outgoing
    header, the metadata given to the upstream call is empty, whatever the
    client sent with its call. *)
Theorem bridge_drops_metadata {Vals} l m s (vals : Vals) v req rest invoker
    (Hs : m_heap m !! l = Some s) (Hin : ss_inbound s = req :: rest)
    (Hv : v = {| v_Method := ss_method s; v_Incoming := ss_incoming s |}) (Hh : ss_hdr s = ∅)
    (Ht : m_threads m !! l = Some (Running (UnaryHandler invoker vals v))) :
  ∃ m', rtc (hdet l) m m' ∧ m_out m' = m_out m ∧
        m_threads m' !! l = Some (Running (unary_reply (invoker (ss_method s) req ∅))).
Proof.
  set (m1 := set_thread l (Running (CallHeader (λ hdr, unary_reply (invoker (v_Method v) req hdr))))
               (update l (with_inbound rest) m)).
  assert (m_heap m1 !! l = Some (with_inbound rest s)) as Hs1.
  { cbn. by rewrite lookup_alter, decide_True, Hs by done. }
  assert (m_threads m1 !! l = Some (Running (CallHeader (λ hdr, unary_reply (invoker (v_Method v) req hdr)))))
    as Ht1 by (cbn; by rewrite lookup_insert, decide_True by done).
  eexists. split; [eapply (rtc_l _ m m1); [|eapply rtc_once]|split].
  - unfold hdet, handler_step. rewrite Ht, Hs. cbn. by rewrite Hin.
  - unfold hdet, handler_step. by rewrite Ht1, Hs1.
  - done.
  - cbn. rewrite lookup_insert, decide_True by done. subst v. unfold stream_Header. cbn. by rewrite Hh.
Qed.

(** A body of two messages, an empty one and a cut header. *)
Definition ex_body : list (byte * bytes) := [(x00, [x61]); (x00, []); (x02, [x62; x63])].

Definition ex_do (_ : request) : outcome :=
  Response {| rs_StatusCode := 200; rs_Header := [];
              rs_Body := {| r_data := envelopes ex_body ++ [x00; x00]; r_end := EOF |} |}.

Lemma stream_response_status_witness :
  Client_InvokeStream (λ _, None) "http://up" "/s/M" [] ∅ ex_do = ([[x61]; [x62; x63]], Some OK).
Proof.
  refine (proj1 (proj2 (stream_response_status (λ _, None) "http://up" "/s/M" [] ∅ ex_do []
    ex_body [x00; x00] eq_refl _)) _).
  - unfold ex_body. apply Forall_cons; split; [by split; [|left]|].
    apply Forall_cons; split; [by split; [|left]|]. apply Forall_cons; split; [by split; [|left]|].
    apply Forall_nil_2.
  - cbn. lia.
Defined.

(** A unary request with credentials. *)
Definition ex_view : view := {| v_Method := "/s/M"; v_Incoming := Some {["authorization" := ["secret"]]} |}.

Definition ex_invoker : ConnectInvoker := λ _ req hdr, (req, hdr, OK).

Definition ex_stream : stream :=
  {| ss_seq := 3; ss_method := "/s/M"; ss_incoming := v_Incoming ex_view; ss_inbound := [[x61]];
     ss_halfClose := false; ss_hdr := ∅; ss_hdrStateSent := false; ss_ctx := None; ss_timeout := 0;
     st_headerSent := false |}.

Definition ex_mux : mux :=
  {| m_ctx := None; m_done := false; m_streams := {[3 := 0%nat]}; m_heap := {[0%nat := ex_stream]};
     m_next := 1; m_threads := {[0%nat := Running (UnaryHandler ex_invoker tt ex_view)]};
     m_reasm := ∅; m_out := [] |}.

Lemma bridge_drops_metadata_witness :
  ∃ m', rtc (hdet 0) ex_mux m' ∧ m_out m' = m_out ex_mux ∧
        m_threads m' !! 0%nat = Some (Running (unary_reply (ex_invoker "/s/M" [x61] ∅))).
Proof. by apply (bridge_drops_metadata 0 ex_mux ex_stream tt ex_view [x61] [] ex_invoker). Defined.
