(* ===== verification/BridgeSpec.v ===== *)
(** * Command-line parsers of the bridge (grpcbridge/spec.go)

    Service specifications "Name:Method1,Method2" and role names, and the
    specifications that survive printing and parsing. *)

From Stdlib Require Import Strings.Byte ZArith Lia.
From stdpp Require Import numbers strings list.
From S2P Require Import Prelude Target SignalWire.
Open Scope Z_scope.

Definition colon : byte := ":".
Definition comma : byte := ",".

(** [strings.SplitN(s, ":", 2)] gives two parts exactly when there is a colon. *)
Definition ParseServiceSpec (s : bytes) : bytes * list bytes + error :=
  let '(name, methods) := Cut colon s in
  if decide (colon ∉ s ∨ name = [] ∨ methods = [])
  then inr (ErrorString "expected Name:Method1,Method2")
  else inl (name, TrimSpace <$> pieces comma methods).

Definition ParseRole (s : string) : Z + error :=
  if decide (s = "offerer"%string) then inl RoleClient
  else if decide (s = "answerer"%string) then inl RoleServer
  else inr (ErrorString ("unknown role " +:+ quote s +:+ " (want offerer|answerer)")).

(** ** Lemmas *)

Lemma trim_left_id s : (∀ c s', s = c :: s' → is_space c = false) → trim_left s = s.
Proof. intros H. destruct s as [|c s]; [done|]. cbn. by rewrite (H c s eq_refl). Qed.

(** Text without space at its ends. *)
Definition trimmed (s : bytes) : Prop :=
  (∀ c s', s = c :: s' → is_space c = false) ∧ (∀ c s', reverse s = c :: s' → is_space c = false).

Lemma TrimSpace_id s : trimmed s → TrimSpace s = s.
Proof.
  intros [H1 H2]. unfold TrimSpace. rewrite (trim_left_id s) by done. rewrite trim_left_id by done.
  apply reverse_involutive.
Qed.

(** A specification parses to the name and the methods it was written from. *)
Theorem ParseServiceSpec_print name methods :
  name ≠ [] → colon ∉ name → methods ≠ [] → methods ≠ [[]] →
  Forall (λ m, comma ∉ m ∧ trimmed m) methods →
  ParseServiceSpec (name ++ colon :: join comma methods) = inl (name, methods).
Proof.
  intros Hn Hc Hm Hm' Hall. unfold ParseServiceSpec. rewrite Cut_app by done.
  rewrite decide_False.
  - rewrite pieces_join; [|by eapply Forall_impl; [exact Hall|intros ? []]|done].
    f_equal. f_equal. clear Hm Hm'. induction Hall as [|m ms [_ Ht] _ IH]; [done|].
    cbn. by rewrite TrimSpace_id, IH.
  - intros [H|[H|H]]; [|done|].
    + apply H. apply elem_of_app. right. by left.
    + destruct methods as [|m [|m2 ms]]; cbn in H; [done|by subst|by destruct m].
Qed.
