(* ===== verification/BridgeCommand.v ===== *)
(** * The bridge command (cmd/peerrpc/bridge.go)

    [peerrpc bridge] reads specifications of services, mounts a handler for each
    of their methods ([Bridge], [BridgeSpec]) and serves them on one connection.
    Its outside world gives the outcomes of the calls that may fail; a run gives
    what the command returns and a trace of what it acquired, served and
    released.  The server it serves is composed with the SDK: what the callers of
    a bridged method receive is what the upstream has answered. *)

From Stdlib Require Import Strings.Byte ZArith Lia.
From stdpp Require Import numbers strings gmap fin_maps relations list pretty.
From S2P Require Import Prelude Protocol Status Messages Transport Chunks Channel RpcServer RpcServerRun RpcServerSafety RpcServerProps RpcClient RpcClientProps EndToEnd Payloads StreamEnd UploadEnd Connection ConnectionSend ConnectionServer ConnectionReturn ConnectionProps ConnectionTrace SignalWire Target Bridge BridgeSpec.
Open Scope Z_scope.

Record bridgeFlags : Type := {
  bf_upstream : string; bf_signalAddr : string; bf_room : string; bf_peerID : string; bf_role : string;
  bf_services : list bytes; bf_streamServices : list bytes
}.

(** [signal.NewWS(addr)] or [signal.NewLocal()]. *)
Inductive backend : Type := NewWS (addr : string) | NewLocal.

Definition pick_backend (addr : string) : backend := if decide (addr = ""%string) then NewLocal else NewWS addr.

(** The signaling session, the registration for signals, the peer. *)
Inductive resource : Type := RSession | RNotify | RPeer.

Inductive event : Type := Acquire (r : resource) | Release (r : resource) | Serving (srv : @Server unit).

Record run : Type := { rn_result : res unit; rn_trace : list event }.

Definition returns (r : res unit) : run := {| rn_result := r; rn_trace := [] |}.

(** Acquires, goes on, and releases when the function returns: [defer]. *)
Definition deferring (r : resource) (k : run) : run :=
  {| rn_result := rn_result k; rn_trace := Acquire r :: rn_trace k ++ [Release r] |}.

(** What the calls give: [Exchange], [peer.New], [Dial] and [Accept]. *)
Record world : Type := {
  w_exchange : backend → string → string → option error;
  w_new : Z → option error;
  w_dial : option error;
  w_accept : option error
}.

Section command.
Context (json_Unmarshal : bytes → option (Z * string)) (do_ : request → outcome).

Definition invoker (f : bridgeFlags) : ConnectInvoker := λ procedure req hdr,
  Client_Invoke (bf_upstream f) procedure req hdr do_.

Definition stream_invoker (f : bridgeFlags) : ConnectStreamInvoker := λ procedure req hdr,
  Client_InvokeStream json_Unmarshal (bf_upstream f) procedure req hdr do_.

(** The call in the body of the loop over [--service] or, with [streaming], over
    [--stream-service]. *)
Definition mount_spec (f : bridgeFlags) (streaming : bool) (name : bytes) (methods : list bytes)
    (srv : @Server unit) : res unit * @Server unit :=
  let ms := bytes_string <$> methods in
  if streaming then MountConnectServiceWithStreaming srv (bytes_string name) ms ms (invoker f) (stream_invoker f)
  else MountConnectService srv (bytes_string name) ms (invoker f).

Fixpoint mount_loop (f : bridgeFlags) (streaming : bool) (specs : list bytes) (srv : @Server unit) : res (@Server unit) :=
  match specs with
  | [] => Ok srv
  | spec :: specs =>
      match ParseServiceSpec spec with
      | inr err => Fail err
      | inl (name, methods) =>
          match mount_spec f streaming name methods srv with
          | (Ok _, srv) => mount_loop f streaming specs srv
          | (Fail err, _) => Fail err
          | (Panic msg, _) => Panic msg
          end
      end
  end.

Definition mount_all (f : bridgeFlags) : res (@Server unit) :=
  match mount_loop f false (bf_services f) (NewServer []) with
  | Ok srv => mount_loop f true (bf_streamServices f) srv
  | r => r
  end.

(** [runBridge] from [ParseRole] on, with the session open. *)
Definition run_peer (f : bridgeFlags) (w : world) (srv : @Server unit) : run :=
  match ParseRole (bf_role f) with
  | inr err => returns (Fail err)
  | inl r =>
      deferring RNotify
        match w_new w r with
        | Some err => returns (Fail err)
        | None =>
            deferring RPeer
              match (if decide (r = RoleClient) then w_dial w else w_accept w) with
              | Some err => returns (Fail err)
              | None => {| rn_result := Ok tt; rn_trace := [Serving srv] |}
              end
        end
  end.

(** What [Serve] returns is dropped. *)
Definition runBridge (f : bridgeFlags) (w : world) : run :=
  match mount_all f with
  | Fail err => returns (Fail err)
  | Panic msg => returns (Panic msg)
  | Ok srv =>
      match w_exchange w (pick_backend (bf_signalAddr f)) (bf_room f) (bf_peerID f) with
      | Some err => returns (Fail err)
      | None => deferring RSession (run_peer f w srv)
      end
  end.
End command.

(** ** What is mounted *)

Section mounted.
Context (json_Unmarshal : bytes → option (Z * string)) (do_ : request → outcome) (f : bridgeFlags).

(** The description that is mounted for a specification. *)
Definition service_of (streaming : bool) (name : bytes) (methods : list bytes) : @ServiceDesc unit :=
  let ms := bytes_string <$> methods in
  mount (bytes_string name) ms (if streaming then ms else []) (invoker do_ f)
    (if streaming then stream_invoker json_Unmarshal do_ f else λ _ _ _, ([], None)).

Lemma mount_spec_registers streaming name methods srv :
  mount_spec json_Unmarshal do_ f streaming name methods srv = RegisterService srv (service_of streaming name methods).
Proof. by destruct streaming. Qed.

Abbreviation table := (list (string * @MethodDesc unit)).

Definition service_table (desc : @ServiceDesc unit) : table :=
  (λ m, (path_of (sd_ServiceName desc) m, registered (sd_ServiceName desc) m)) <$> sd_Methods desc.

(** The methods of a specification under their paths. *)
Definition methods_of (streaming : bool) (spec : bytes) : table :=
  match ParseServiceSpec spec with
  | inl (name, methods) => service_table (service_of streaming name methods)
  | inr _ => []
  end.

Definition all_methods : table :=
  (bf_services f ≫= methods_of false) ++ (bf_streamServices f ≫= methods_of true).

Definition bridged : @Server unit := {| srv_methods := list_to_map all_methods; srv_streamInterceptors := [] |}.

Definition parses (spec : bytes) : Prop := ∃ name methods, ParseServiceSpec spec = inl (name, methods).

(** A registry to which the methods of a table may be added. *)
Definition addable (t : table) (reg : gmap string (@MethodDesc unit)) : Prop :=
  NoDup t.*1 ∧ Forall (λ pm, reg !! pm.1 = None) t.

Definition adding (t : table) (srv : @Server unit) : @Server unit :=
  {| srv_methods := list_to_map t ∪ srv_methods srv; srv_streamInterceptors := srv_streamInterceptors srv |}.

Lemma register_all_map service ms (reg : gmap string (@MethodDesc unit)) :
  NoDup (path_of service <$> ms) → Forall (λ m, reg !! path_of service m = None) ms →
  register_all service ms reg = list_to_map ((λ m, (path_of service m, registered service m)) <$> ms) ∪ reg.
Proof.
  unfold register_all. revert reg. induction ms as [|m ms IH]; intros reg Hnd Hnew; [symmetry; apply (left_id_L ∅ (∪))|].
  rewrite fmap_cons in Hnd. apply NoDup_cons in Hnd as [Hni Hnd]. apply Forall_cons in Hnew as [Hm Hnew]. cbn [foldl].
  rewrite IH; [|done|].
  - cbn. rewrite <- insert_union_r; [by rewrite insert_union_l|].
    apply not_elem_of_list_to_map_1. by rewrite <- list_fmap_compose.
  - rewrite Forall_forall in Hnew |- *. intros m' Hin. rewrite lookup_insert_ne; [by apply Hnew|].
    intros He. apply Hni. rewrite He. by apply list_elem_of_fmap_2.
Qed.

Lemma register_service srv desc :
  (addable (service_table desc) (srv_methods srv) ∧
     RegisterService srv desc = (Ok tt, adding (service_table desc) srv)) ∨
  (¬ addable (service_table desc) (srv_methods srv) ∧ ∃ msg, (RegisterService srv desc).1 = Panic msg).
Proof.
  pose proof (register_loop_spec (sd_ServiceName desc) (sd_Methods desc) (srv_methods srv)) as Hs.
  pose proof (register_loop_ok (sd_ServiceName desc) (sd_Methods desc) (srv_methods srv)) as Ho.
  assert (addable (service_table desc) (srv_methods srv) ↔
    NoDup (path_of (sd_ServiceName desc) <$> sd_Methods desc) ∧
    Forall (λ m, srv_methods srv !! path_of (sd_ServiceName desc) m = None) (sd_Methods desc)) as Ha.
  { unfold addable, service_table. rewrite <- list_fmap_compose, Forall_fmap. done. }
  rewrite Ha, <- Ho. unfold RegisterService. destruct (register_loop _ _ _) as [r reg]; cbn [fst snd] in *.
  destruct Hs as (n & Hreg & [[Hr ->]|(m & _ & Hr & _)]); [left|right].
  - split; [done|]. rewrite Hr. f_equal. unfold adding. f_equal. rewrite Hreg, take_ge by done.
    apply register_all_map; by apply Ho.
  - split; [by rewrite Hr|by eexists].
Qed.

Lemma all_methods_elem path md :
  (path, md) ∈ all_methods →
  ∃ (streaming : bool) spec name methods m,
    spec ∈ (if streaming then bf_streamServices f else bf_services f) ∧
    ParseServiceSpec spec = inl (name, methods) ∧ m ∈ methods ∧
    path = method_path (bytes_string name) (bytes_string m) ∧
    ∀ vals v, handler_prog bridged vals md v =
      if streaming then ServerStreamingHandler (stream_invoker json_Unmarshal do_ f) vals v
      else UnaryHandler (invoker do_ f) vals v.
Proof.
  assert (∀ (streaming : bool) spec, (path, md) ∈ methods_of streaming spec →
    ∃ name methods m, ParseServiceSpec spec = inl (name, methods) ∧ m ∈ methods ∧
      path = method_path (bytes_string name) (bytes_string m) ∧
      ∀ vals v, handler_prog bridged vals md v =
        if streaming then ServerStreamingHandler (stream_invoker json_Unmarshal do_ f) vals v
        else UnaryHandler (invoker do_ f) vals v) as Hspec.
  { intros streaming spec. unfold methods_of. destruct (ParseServiceSpec spec) as [[name methods]|]; [|by intros ?%elem_of_nil].
    intros (desc & [= -> ->] & Hin)%list_elem_of_fmap.
    apply list_elem_of_fmap in Hin as (m0 & -> & Hin). apply list_elem_of_fmap in Hin as Hm.
    destruct Hm as (m & -> & Hm). exists name, methods, m. split; [done|]. split; [done|].
    destruct streaming; case_decide as Hd; try done. by apply elem_of_nil in Hd. }
  intros [H|H]%elem_of_app; apply list_elem_of_bind in H as (spec & H & Hin);
    apply Hspec in H as (name & methods & m & ?); [exists false|exists true]; by exists spec, name, methods, m.
Qed.

Lemma addable_app t1 t2 reg : addable (t1 ++ t2) reg ↔ addable t1 reg ∧ addable t2 (list_to_map t1 ∪ reg).
Proof.
  unfold addable. rewrite fmap_app, NoDup_app, Forall_app.
  assert (Forall (λ pm : string * @MethodDesc unit, (list_to_map t1 ∪ reg) !! pm.1 = None) t2 ↔
    Forall (λ pm, reg !! pm.1 = None) t2 ∧ (∀ x, x ∈ t1.*1 → x ∉ t2.*1)) as ->; [|naive_solver].
  rewrite !Forall_forall. setoid_rewrite lookup_union_None. setoid_rewrite <- not_elem_of_list_to_map. split.
  - intros H. split; [intros pm Hin; by apply H|].
    intros x Hx (pm & -> & Hin)%list_elem_of_fmap. by apply (H pm Hin).
  - intros [H1 H2] pm Hin. split; [|by apply H1]. intros Hx. apply (H2 _ Hx). by apply list_elem_of_fmap_2.
Qed.

Lemma adding_app t1 t2 srv : NoDup (t1 ++ t2).*1 → adding t2 (adding t1 srv) = adding (t1 ++ t2) srv.
Proof.
  intros Hnd. unfold adding. cbn. f_equal. rewrite list_to_map_app, assoc_L by apply _. f_equal.
  apply map_union_comm, map_disjoint_list_to_map_l. apply Forall_forall. intros pm Hin.
  apply not_elem_of_list_to_map. rewrite fmap_app, NoDup_app in Hnd. destruct Hnd as (_ & Hd & _).
  intros H. apply (Hd _ H). by apply list_elem_of_fmap_2.
Qed.

Lemma mount_loop_parsed streaming specs srv :
  Forall parses specs →
  let t := specs ≫= methods_of streaming in
  let r := mount_loop json_Unmarshal do_ f streaming specs srv in
  (addable t (srv_methods srv) ∧ r = Ok (adding t srv)) ∨ (¬ addable t (srv_methods srv) ∧ ∃ msg, r = Panic msg).
Proof.
  intros Hall. cbn zeta. revert srv. induction Hall as [|spec specs (name & methods & Hp) _ IH]; intros srv; cbn.
  - left. split; [by split; constructor|]. unfold adding. cbn. rewrite (left_id_L ∅ (∪)). by destruct srv.
  - assert (methods_of streaming spec = service_table (service_of streaming name methods)) as Ht
      by (unfold methods_of; by rewrite Hp).
    rewrite Hp, mount_spec_registers, Ht, addable_app.
    destruct (register_service srv (service_of streaming name methods)) as [[Ha ->]|[Hn (msg & Hr)]].
    + destruct (IH (adding (service_table (service_of streaming name methods)) srv)) as [[Hb ->]|[Hn (msg & ->)]].
      * left. split; [done|]. f_equal. apply adding_app.
        by destruct (proj2 (addable_app _ _ _) (conj Ha Hb)).
      * right. split; [|by eexists]. intros [_ ?]. done.
    + right. split; [naive_solver|]. exists msg. destruct (RegisterService _ _) as [r srv']. cbn in Hr. by subst.
Qed.

Lemma mount_loop_malformed streaming specs srv srv' :
  mount_loop json_Unmarshal do_ f streaming specs srv = Ok srv' → Forall parses specs.
Proof.
  revert srv. induction specs as [|spec specs IH]; intros srv; cbn; [by constructor|].
  destruct (ParseServiceSpec spec) as [[name methods]|] eqn:E; [|done].
  destruct (mount_spec _ _ _ _ _ _ _) as [[u|err|msg] srv1]; [|done..].
  intros H. constructor; [by eexists _, _|by eapply IH].
Qed.

Definition well_formed : Prop := Forall parses (bf_services f ++ bf_streamServices f).

Lemma addable_empty t : addable t ∅ ↔ NoDup t.*1.
Proof. split; [by intros []|]. intros H. split; [done|]. by apply Forall_forall. Qed.

Lemma mount_all_parsed :
  well_formed →
  (NoDup all_methods.*1 ∧ mount_all json_Unmarshal do_ f = Ok bridged) ∨
  (¬ NoDup all_methods.*1 ∧ ∃ msg, mount_all json_Unmarshal do_ f = Panic msg).
Proof.
  intros [H1 H2]%Forall_app. rewrite <- addable_empty. unfold all_methods. rewrite addable_app. unfold mount_all.
  destruct (mount_loop_parsed false (bf_services f) (NewServer []) H1) as [[Ha ->]|[Hn (msg & ->)]];
    [|right; split; [naive_solver|by eexists]].
  destruct (mount_loop_parsed true (bf_streamServices f) (adding (bf_services f ≫= methods_of false) (NewServer [])) H2)
    as [[Hb ->]|[Hn (msg & ->)]]; [left|right; split; [naive_solver|by eexists]].
  split; [done|]. f_equal. rewrite adding_app by by destruct (proj2 (addable_app _ _ _) (conj Ha Hb)).
  unfold adding, bridged, all_methods. cbn. by rewrite (right_id_L ∅ (∪)).
Qed.

Lemma mount_all_ok srv :
  mount_all json_Unmarshal do_ f = Ok srv ↔ well_formed ∧ NoDup all_methods.*1 ∧ srv = bridged.
Proof.
  split.
  - intros H. assert (well_formed) as Hw.
    { unfold mount_all in H. destruct (mount_loop _ _ _ false _ _) as [srv1|err|msg] eqn:E; [|done..].
      apply Forall_app. split; by eapply mount_loop_malformed. }
    destruct (mount_all_parsed Hw) as [[Hnd E]|[_ (msg & E)]]; rewrite E in H; [|done]. by injection H as <-.
  - intros (Hw & Hnd & ->). destruct (mount_all_parsed Hw) as [[_ ->]|[Hn _]]; [done|by destruct Hn].
Qed.
End mounted.

(** ** Runs of the handlers *)

(** The program receives no more, and sends these messages or some of them: an
    error of [Send] may leave one out. *)
Inductive sends_within : prog → list bytes → Prop :=
  | sw_return st reps : sends_within (Return st) reps
  | sw_send b k reps : (∀ e, sends_within (k e) reps) → sends_within (RpcServer.Send b k) (b :: reps)
  | sw_trailer kv k reps : sends_within k reps → sends_within (CallSetTrailer kv k) reps.

(** The shape of both handlers. *)
Definition forwarder (code : error → option Status) (k : bytes → Metadata → prog) : prog :=
  RpcServer.Recv (λ r, match r with inr err => Return (code err) | inl req => CallHeader (k req) end).

Lemma forwarder_runs (F : bytes → Metadata → list bytes) code k got gave p :
  (∀ req hdr, sends_within (k req hdr) (F req hdr)) → follows (forwarder code k) got gave p →
  gave = [] ∨ ∃ req hdr, got = [req] ∧ gave `sublist_of` F req hdr.
Proof.
  intros Hk H.
  enough ((p = forwarder code k ∧ got = [] ∧ gave = []) ∨ (∃ req, p = CallHeader (k req) ∧ got = [req] ∧ gave = []) ∨
    (∃ st, p = Return st ∧ gave = []) ∨
    (∃ req hdr rest, got = [req] ∧ sends_within p rest ∧ gave ++ rest `sublist_of` F req hdr)) as HI.
  { destruct HI as [(_ & _ & ->)|[(? & _ & _ & ->)|[(? & _ & ->)|(req & hdr & rest & -> & _ & Hs)]]]; [by left..|right].
    exists req, hdr. split; [done|]. etrans; [|exact Hs]. by apply sublist_inserts_r. }
  induction H as [|got gave k1 b _ IH|got gave k1 e _ IH|got gave b k1 _ IH|got gave b k1 e _ IH|got gave kv k1 _ IH
    |got gave kv k1 _ IH|got gave md k1 _ IH|got gave e k1 _ IH]; [by left|..];
    destruct IH as [(E & -> & ->)|[(req & E & -> & ->)|[(st & E & ->)|(req & hdr & rest & -> & Hs & Hsub)]]];
    try done; try (by inversion Hs); try (injection E as ->).
  - right. left. by exists b.
  - right. right. left. by eexists.
  - inversion Hs as [|? ? reps Hn|]; subst. right. right. right. exists req, hdr, reps. by rewrite <- app_assoc.
  - inversion Hs as [|? ? reps Hn|]; subst. right. right. right. exists req, hdr, reps. split; [done|]. split; [done|].
    etrans; [|exact Hsub]. apply sublist_app; [done|]. by apply sublist_cons.
  - inversion Hs; subst. right. right. right. by exists req, hdr, rest.
  - right. right. right. exists req, md, (F req md). by split_and!.
Qed.

(** What the unary handler may send for a reply of the invoker. *)
Definition unary_messages (r : invoke_result) : list bytes :=
  let '(body, _, status) := r in if negb (Code status =? 0) then [] else [body].

Lemma unary_reply_within r : sends_within (unary_reply r) (unary_messages r).
Proof.
  destruct r as [[body md] status]. unfold unary_reply, unary_messages. destruct (negb _); [constructor|].
  case_decide; [|constructor]; (constructor; intros e; constructor).
Qed.

Lemma stream_reply_within r : sends_within (stream_reply r) r.1.
Proof. unfold stream_reply. induction r.1 as [|b bs IH]; cbn; constructor; [done..]. Qed.

(** What a unary method returns is what the upstream has answered. *)
Lemma invoked do_ f procedure req hdr bs :
  bs ≠ [] → bs `sublist_of` unary_messages (invoker do_ f procedure req hdr) →
  ∃ resp, do_ (connect_request (bf_upstream f +:+ procedure) req hdr) = Response resp ∧
    rs_StatusCode resp = 200 ∧ (ReadAll (rs_Body resp)).2 = None ∧ bs = [(ReadAll (rs_Body resp)).1].
Proof.
  intros Hbs. unfold invoker, Client_Invoke. destruct (do_ _) as [err|err|resp]; [by intros ->%sublist_nil_r..|].
  destruct (ReadAll (rs_Body resp)) as [body [err|]] eqn:E; [by intros ->%sublist_nil_r|].
  destruct (rs_StatusCode resp =? 200) eqn:E2; [|by intros ->%sublist_nil_r]. apply Z.eqb_eq in E2.
  change (unary_messages _) with [body]. intros Hsub. exists resp. rewrite E. split; [done|]. split; [done|]. split; [done|].
  apply sublist_cons_r in Hsub as [->%sublist_nil_r|(bs' & -> & ->%sublist_nil_r)]; done.
Qed.

(** ** Properties *)

(** The trace of a run: it acquires the first of [todo], serves if these are all,
    and releases in reverse order. *)
Definition nested (srv : @Server unit) (todo : list resource) (r : run) : Prop :=
  ∃ rs mid, rn_trace r = (Acquire <$> rs) ++ mid ++ (Release <$> reverse rs) ∧ rs `prefix_of` todo ∧
    (mid = [] ∧ rn_result r ≠ Ok tt ∨ mid = [Serving srv] ∧ rn_result r = Ok tt ∧ rs = todo).

Lemma nested_returns srv todo e : e ≠ Ok tt → nested srv todo (returns e).
Proof. intros He. exists [], []. split; [done|]. split; [apply prefix_nil|]. by left. Qed.

Lemma nested_deferring srv todo x r : nested srv todo r → nested srv (x :: todo) (deferring x r).
Proof.
  intros (rs & mid & Ht & Hpre & H). exists (x :: rs), mid. split; [|split; [by apply prefix_cons|]].
  - cbn [deferring rn_trace]. rewrite Ht, reverse_cons, !fmap_app, !app_assoc. done.
  - destruct H as [?|(? & ? & ->)]; [by left|by right].
Qed.

Section properties.
Context (json_Unmarshal : bytes → option (Z * string)) (do_ : request → outcome).

Lemma run_peer_nested f w srv : nested srv [RNotify; RPeer] (run_peer f w srv).
Proof.
  unfold run_peer. destruct (ParseRole _) as [role|]; [|by apply nested_returns].
  apply nested_deferring. destruct (w_new w role); [by apply nested_returns|]. apply nested_deferring.
  destruct (if decide _ then _ else _); [by apply nested_returns|].
  exists [], [Serving srv]. split; [done|]. split; [done|]. by right.
Qed.

Lemma run_peer_ok f w srv :
  rn_result (run_peer f w srv) = Ok tt ↔
  ∃ role, ParseRole (bf_role f) = inl role ∧ w_new w role = None ∧
    (if decide (role = RoleClient) then w_dial w else w_accept w) = None.
Proof.
  unfold run_peer. destruct (ParseRole _) as [role|err]; [|split; [done|by intros (? & ? & _)]].
  split.
  - cbn. destruct (w_new w role) eqn:E1; [done|]. cbn. destruct (if decide _ then _ else _) eqn:E2; [done|]. by exists role.
  - intros (? & [= <-] & E1 & E2). cbn. rewrite E1. cbn. by rewrite E2.
Qed.

(** [C39] What the command does with its flags.  It serves exactly when every
    specification is well formed, no path is mounted twice, and the calls that
    lead to a connection succeed, and then serves all methods of the
    specifications under their paths and returns nil.  On every path through
    it, what has been acquired is released, in the reverse order; specifications
    are read before anything is acquired.  A path that is mounted twice, also by
    a unary and a streaming specification, is not an error but a panic. *)
Theorem bridge_command f w :
  let r := runBridge json_Unmarshal do_ f w in
  (rn_result r = Ok tt ↔
     well_formed f ∧ NoDup (all_methods json_Unmarshal do_ f).*1 ∧
     w_exchange w (pick_backend (bf_signalAddr f)) (bf_room f) (bf_peerID f) = None ∧
     ∃ role, ParseRole (bf_role f) = inl role ∧ w_new w role = None ∧
       (if decide (role = RoleClient) then w_dial w else w_accept w) = None) ∧
  nested (bridged json_Unmarshal do_ f) [RSession; RNotify; RPeer] r ∧
  (¬ well_formed f → rn_trace r = []) ∧
  (well_formed f → ¬ NoDup (all_methods json_Unmarshal do_ f).*1 → ∃ msg, r = returns (Panic msg)).
Proof.
  cbn zeta. unfold runBridge. pose proof (mount_all_ok json_Unmarshal do_ f) as Hok.
  pose proof (λ Hw, mount_all_parsed json_Unmarshal do_ f Hw) as Hparsed.
  assert (well_formed f ∧ NoDup (all_methods json_Unmarshal do_ f).*1 → ∃ srv, mount_all json_Unmarshal do_ f = Ok srv) as Hserves.
  { intros [Hw Hnd]. eexists. by apply Hok. }
  destruct (mount_all json_Unmarshal do_ f) as [srv|err|msg] eqn:Em.
  - destruct (proj1 (Hok srv) eq_refl) as (Hw & Hnd & ->).
    destruct (w_exchange _ _ _ _) eqn:E.
    + split; [split; [done|by intros (_ & _ & ? & _)]|]. split; [by apply nested_returns|]. by split.
    + split; [|split; [|by split]].
      * cbn. rewrite run_peer_ok. naive_solver.
      * apply nested_deferring, run_peer_nested.
  - split; [naive_solver|]. split; [by apply nested_returns|]. split; [done|]. intros Hw Hnd.
    destruct (Hparsed Hw) as [[? _]|(_ & msg & E)]; done.
  - split; [naive_solver|]. split; [by apply nested_returns|]. split; [done|]. intros _ _. by exists msg.
Qed.

(** [C12] What the callers of a bridged method receive.  On a connection to the
    server that the command serves, with any other calls running: every stream
    is for a method of the specifications.  The caller of a unary method has
    received nothing yet, or the body with which the upstream has answered, with
    status 200, a request for the path of the call with the caller's message as
    its body.  The caller of a streaming method has received messages of the
    upstream's response to such a request, in order.  This is for streams without
    a deadline whose context has not ended, and with paths that are distinct;
    the header of the request is some header, not the caller's (which
    [bridge_drops_metadata] shows to be lost). *)
Theorem bridge_calls f `{!Codec Frame, !CodecLaws Frame, !Codec ResponseFrame, !CodecLaws ResponseFrame} k l ls cs s :
  NoDup (all_methods json_Unmarshal do_ f).*1 →
  conn_reachable (bridged json_Unmarshal do_ f) tt k → paired k l ls cs s → ss_ctx s = None ∨ ss_timeout s ≤ 0 →
  ∃ (streaming : bool) spec name methods m,
    spec ∈ (if streaming then bf_streamServices f else bf_services f) ∧
    ParseServiceSpec spec = inl (name, methods) ∧ m ∈ methods ∧
    ss_method s = method_path (bytes_string name) (bytes_string m) ∧
    (k_ret k l = [] ∨ ∃ req hdr, head (k_sent k l) = Some req ∧
       if streaming : bool
       then k_ret k l `sublist_of` (Client_InvokeStream json_Unmarshal (bf_upstream f) (ss_method s) req hdr do_).1
       else ∃ resp, do_ (connect_request (bf_upstream f +:+ ss_method s) req hdr) = Response resp ∧
              rs_StatusCode resp = 200 ∧ (ReadAll (rs_Body resp)).2 = None ∧
              k_ret k l = [(ReadAll (rs_Body resp)).1]).
Proof.
  intros Hnd Hk Hp Hctx. destruct (conn_runs _ tt k Hk) as [HK HR].
  destruct (stream_run _ tt k l ls cs s HK HR Hp) as (md & v & p & got & gave & Hmd & Hv & Hf & _ & Hpre & Hret).
  specialize (Hpre Hctx). unfold findMethod, bridged in Hmd. cbn [srv_methods] in Hmd.
  apply elem_of_list_to_map_2, all_methods_elem in Hmd as (streaming & spec & name & methods & m & Hin & Hparse & Hm & Epath & Emd).
  exists streaming, spec, name, methods, m. do 4 (split; [done|]).
  assert (∀ F : bytes → Metadata → list bytes, gave = [] ∨ (∃ req hdr, got = [req] ∧ gave `sublist_of` F req hdr) →
    k_ret k l = [] ∨ ∃ req hdr, head (k_sent k l) = Some req ∧ k_ret k l `sublist_of` F req hdr) as Hfwd.
  { intros F [->|(req & hdr & -> & Hsub)]; [left; by apply prefix_nil_inv|right]. exists req, hdr.
    split; [by destruct Hpre as [ds ->]|]. etrans; [|exact Hsub]. destruct Hret as [ds ->]. by apply sublist_inserts_r. }
  rewrite <- Hv. destruct streaming; rewrite Emd in Hf.
  - apply (Hfwd (λ req hdr, (stream_invoker json_Unmarshal do_ f (v_Method v) req hdr).1)).
    eapply forwarder_runs; [|exact Hf]. intros req hdr. apply stream_reply_within.
  - destruct (Hfwd (λ req hdr, unary_messages (invoker do_ f (v_Method v) req hdr))) as [?|(req & hdr & Hreq & Hsub)].
    { eapply forwarder_runs; [|exact Hf]. intros req hdr. apply unary_reply_within. }
    { by left. }
    destruct (k_ret k l) as [|b bs] eqn:Er; [by left|right]. exists req, hdr. split; [done|].
    apply (invoked do_ f (v_Method v) req hdr); [done|]. exact Hsub.
Qed.
End properties.

(** ** An example: a unary and a streaming service, and a call of the unary *)

Definition bridge_flags : bridgeFlags :=
  {| bf_upstream := "http://up"; bf_signalAddr := "ws://sig"; bf_room := "r"; bf_peerID := "bridge";
     bf_role := "answerer"; bf_services := [go "demo:Get, Put"]; bf_streamServices := [go "demo:Watch"] |}.

Definition bridge_world : world :=
  {| w_exchange := λ _ _ _, None; w_new := λ _, None; w_dial := None; w_accept := None |}.

Definition bridge_do (_ : request) : outcome :=
  Response {| rs_StatusCode := 200; rs_Header := []; rs_Body := {| r_data := go "pong"; r_end := EOF |} |}.

Definition with_streams (specs : list bytes) (f : bridgeFlags) : bridgeFlags :=
  {| bf_upstream := bf_upstream f; bf_signalAddr := bf_signalAddr f; bf_room := bf_room f; bf_peerID := bf_peerID f;
     bf_role := bf_role f; bf_services := bf_services f; bf_streamServices := specs |}.

Lemma bridge_flags_parse specs :
  forallb (λ spec, if ParseServiceSpec spec is inl _ then true else false) (bf_services bridge_flags ++ specs) = true →
  well_formed (with_streams specs bridge_flags).
Proof.
  intros H. apply Forall_forall. intros spec Hin. rewrite forallb_forall in H.
  specialize (H spec ltac:(by apply list_elem_of_In)). unfold parses.
  destruct (ParseServiceSpec spec) as [[name methods]|]; [by eauto|done].
Qed.

Lemma bridge_command_witness :
  rn_result (runBridge (λ _, None) bridge_do bridge_flags bridge_world) = Ok tt ∧
  ∃ msg, runBridge (λ _, None) bridge_do (with_streams [go "demo:Get"] bridge_flags) bridge_world = returns (Panic msg).
Proof.
  split.
  - apply (bridge_command (λ _, None) bridge_do bridge_flags bridge_world).
    split; [apply (bridge_flags_parse [go "demo:Watch"]); vm_compute; reflexivity|].
    split; [apply (bool_decide_unpack _); vm_compute; exact I|].
    split; [reflexivity|]. exists RoleServer. split; [reflexivity|]. split; reflexivity.
  - apply (bridge_command (λ _, None) bridge_do (with_streams [go "demo:Get"] bridge_flags) bridge_world).
    + apply bridge_flags_parse. vm_compute. reflexivity.
    + intros H. apply (bool_decide_pack _) in H. vm_compute in H. exact H.
Defined.

Definition bridge_moves : list move :=
  [MUnary "/demo/Get" (go "ping"); MServe; MHandler 0; MHandler 0; MServe; MHandler 0; MAttach; MAttach; MSelect 0 UWait].

#[local] Instance bridge_codec1 : Codec Frame := table_codec
  (request_frames (seq_at 0) (unary_call background "/demo/Get" (go "ping")) (go "ping")).
#[local] Instance bridge_codec2 : Codec ResponseFrame :=
  table_codec [mkBegin (seq_at 0) (Snapshot ∅); mkData (seq_at 0) (Data_Message (go "pong"))].
#[local] Instance bridge_laws1 : CodecLaws Frame.
Proof. apply table_codec_laws, Nat.leb_le. by vm_compute. Qed.
#[local] Instance bridge_laws2 : CodecLaws ResponseFrame.
Proof. apply table_codec_laws, Nat.leb_le. by vm_compute. Qed.

Definition bridge_srv : @Server unit := bridged (λ _, None) bridge_do bridge_flags.
Definition bridge_conn : option conn := exec_all bridge_srv tt bridge_moves newConn.

Lemma bridge_calls_witness :
  ∃ k cs s, conn_reachable bridge_srv tt k ∧ paired k 0 0 cs s ∧ k_sent k 0%nat = [go "ping"] ∧ k_ret k 0%nat = [go "pong"] ∧
    ∃ resp, bridge_do (connect_request "http://up/demo/Get" (go "ping") ∅) = Response resp ∧
      k_ret k 0%nat = [(ReadAll (rs_Body resp)).1].
Proof.
  destruct bridge_conn as [k|] eqn:E; [|vm_compute in E; discriminate].
  assert (conn_reachable bridge_srv tt k) as Hk.
  { eapply exec_all_reachable; [apply rtc_refl|exact E]. }
  assert (k = default newConn bridge_conn) as Ek by by rewrite E.
  destruct (cl_heap (k_client k) !! 0%nat) as [cs|] eqn:Hcs; [|rewrite Ek in Hcs; vm_compute in Hcs; discriminate].
  destruct (m_heap (k_mux k) !! 0%nat) as [s|] eqn:Hs; [|rewrite Ek in Hs; vm_compute in Hs; discriminate].
  pose proof Hcs as Hcs'. pose proof Hs as Hs'. rewrite Ek in Hcs', Hs'. vm_compute in Hcs', Hs'.
  injection Hcs' as Ecs. injection Hs' as Es.
  assert (paired k 0 0 cs s) as Hp by (split; [done|]; split; [done|]; by rewrite <- Ecs, <- Es).
  assert (ss_ctx s = None) as Hctx by by rewrite <- Es.
  assert (k_sent k 0%nat = [go "ping"]) as Hsent by (rewrite Ek; vm_compute; reflexivity).
  assert (k_ret k 0%nat = [go "pong"]) as Hret by (rewrite Ek; vm_compute; reflexivity).
  assert (NoDup (all_methods (λ _, None) bridge_do bridge_flags).*1) as Hnd.
  { apply (bool_decide_unpack _). vm_compute. exact I. }
  exists k, cs, s. do 4 (split; [assumption|]).
  destruct (bridge_calls (λ _, None) bridge_do bridge_flags k 0 0 cs s Hnd Hk Hp (or_introl Hctx))
    as ([|] & spec & name & methods & m & Hin & Hparse & Hm & Epath & [Hnil|(req & hdr & Hreq & H)]).
  - rewrite Hret in Hnil. discriminate.
  - exfalso. apply list_elem_of_singleton in Hin. subst spec. vm_compute in Hparse. injection Hparse as <- <-.
    apply list_elem_of_singleton in Hm. subst m. rewrite <- Es in Epath. vm_compute in Epath. discriminate.
  - rewrite Hret in Hnil. discriminate.
  - destruct H as (resp & Hdo & _ & _ & Hb). exists resp. split; [exact Hdo|exact Hb].
Defined.
