(* ===== verification/Facade.v ===== *)
(** * The facade (peerrpc/options.go, peer_config.go, resolver.go,
    resolvers_builtin.go, dial.go, dial_builder.go, listen.go,
    listen_builder.go, conn.go, server_conn.go)

    The configuration that options and builders assemble, the registry of
    resolvers, and what [Dial], [Accept], [Conn] and [Listener] open and close.
    The WebRTC peer and the backends of the resolvers are parameters. *)

From Stdlib Require Import Strings.Byte ZArith Lia.
From stdpp Require Import numbers strings gmap fin_maps list relations.
From S2P Require Import Prelude SignalWire Base58 Target.
Open Scope Z_scope.

(** ** Configuration *)

(** [peerICEServer], [ICEServer] and [webrtc.ICEServer] have the same fields. *)
Record ICEServer : Type := { URLs : list bytes; Username : bytes; Credential : bytes }.

Section config.
Context {CI UI SI : Type}.       (* client, unary server and stream server interceptors *)

Record dialConfig : Type := {
  dc_target : Target; dc_ICEServers : list ICEServer; dc_iceCascade : bool;
  dc_negotiationTO : Z; dc_token : bytes; dc_identity : bytes; dc_interceptors : list CI }.

Record listenConfig : Type := {
  lc_target : Target; lc_ICEServers : list ICEServer; lc_iceCascade : bool;
  lc_negotiationTO : Z; lc_token : bytes; lc_identity : bytes; lc_interceptors : list UI;
  lc_streamInterceptors : list SI }.

Inductive option_ : Type :=
  | WithToken (token : bytes)
  | WithIdentity (priv : bytes)
  | WithICEServers (servers : list ICEServer)
  | WithNegotiationTimeout (d : Z)
  | WithUnaryClientInterceptors (is_ : list CI)
  | WithUnaryServerInterceptors (is_ : list UI)
  | WithStreamServerInterceptors (is_ : list SI).

Definition applyDial (c : dialConfig) (o : option_) : dialConfig :=
  match o with
  | WithToken t => {| dc_target := dc_target c; dc_ICEServers := dc_ICEServers c;
      dc_iceCascade := dc_iceCascade c; dc_negotiationTO := dc_negotiationTO c; dc_token := t;
      dc_identity := dc_identity c; dc_interceptors := dc_interceptors c |}
  | WithIdentity k => {| dc_target := dc_target c; dc_ICEServers := dc_ICEServers c;
      dc_iceCascade := dc_iceCascade c; dc_negotiationTO := dc_negotiationTO c; dc_token := dc_token c;
      dc_identity := k; dc_interceptors := dc_interceptors c |}
  | WithICEServers s => {| dc_target := dc_target c; dc_ICEServers := s;
      dc_iceCascade := true; dc_negotiationTO := dc_negotiationTO c; dc_token := dc_token c;
      dc_identity := dc_identity c; dc_interceptors := dc_interceptors c |}
  | WithNegotiationTimeout d => {| dc_target := dc_target c; dc_ICEServers := dc_ICEServers c;
      dc_iceCascade := dc_iceCascade c; dc_negotiationTO := d; dc_token := dc_token c;
      dc_identity := dc_identity c; dc_interceptors := dc_interceptors c |}
  | WithUnaryClientInterceptors is_ => {| dc_target := dc_target c; dc_ICEServers := dc_ICEServers c;
      dc_iceCascade := dc_iceCascade c; dc_negotiationTO := dc_negotiationTO c; dc_token := dc_token c;
      dc_identity := dc_identity c; dc_interceptors := dc_interceptors c ++ is_ |}
  | WithUnaryServerInterceptors _ | WithStreamServerInterceptors _ => c
  end.

Definition applyListen (c : listenConfig) (o : option_) : listenConfig :=
  let mk ice cascade timeout tok ident is_ sis :=
    {| lc_target := lc_target c; lc_ICEServers := ice; lc_iceCascade := cascade;
       lc_negotiationTO := timeout; lc_token := tok; lc_identity := ident; lc_interceptors := is_;
       lc_streamInterceptors := sis |} in
  match o with
  | WithToken t => mk (lc_ICEServers c) (lc_iceCascade c) (lc_negotiationTO c) t (lc_identity c)
                     (lc_interceptors c) (lc_streamInterceptors c)
  | WithIdentity k => mk (lc_ICEServers c) (lc_iceCascade c) (lc_negotiationTO c) (lc_token c) k
                     (lc_interceptors c) (lc_streamInterceptors c)
  | WithICEServers s => mk s true (lc_negotiationTO c) (lc_token c) (lc_identity c)
                     (lc_interceptors c) (lc_streamInterceptors c)
  | WithNegotiationTimeout d => mk (lc_ICEServers c) (lc_iceCascade c) d (lc_token c) (lc_identity c)
                     (lc_interceptors c) (lc_streamInterceptors c)
  | WithUnaryServerInterceptors is_ => mk (lc_ICEServers c) (lc_iceCascade c) (lc_negotiationTO c)
                     (lc_token c) (lc_identity c) (lc_interceptors c ++ is_) (lc_streamInterceptors c)
  | WithStreamServerInterceptors is_ => mk (lc_ICEServers c) (lc_iceCascade c) (lc_negotiationTO c)
                     (lc_token c) (lc_identity c) (lc_interceptors c) (lc_streamInterceptors c ++ is_)
  | WithUnaryClientInterceptors _ => c
  end.

(** [derivePeerID]: an Ed25519 private key holds its public key in its second
    half. *)
Definition derivePeerID (priv : bytes) : option bytes :=
  if decide (length priv = 64%nat) then Some (go "ed25519:" ++ encodeBase58 (drop 32 priv)) else None.

Definition with_Token (tok : bytes) (t : Target) : Target :=
  {| Scheme := Scheme t; Signal := Signal t; Target.Service := Target.Service t; Target.Role := Target.Role t;
     Target.PeerID := Target.PeerID t; Token := tok |}.
Definition with_PeerID (id : bytes) (t : Target) : Target :=
  {| Scheme := Scheme t; Signal := Signal t; Target.Service := Target.Service t; Target.Role := Target.Role t;
     Target.PeerID := id; Token := Token t |}.
Definition with_Role (r : bytes) (t : Target) : Target :=
  {| Scheme := Scheme t; Signal := Signal t; Target.Service := Target.Service t; Target.Role := r;
     Target.PeerID := Target.PeerID t; Token := Token t |}.

(** The token and the derived peer id, in [DialTarget] and [ListenTarget]. *)
Definition finish_target (token identity : bytes) (t : Target) : Target :=
  let t := if decide (token = []) then t else with_Token token t in
  if decide (Target.PeerID t = []) then
    match derivePeerID identity with Some id => with_PeerID id t | None => t end
  else t.

(** [DialTarget] up to [dialTarget]. *)
Definition dial_config (target : Target) (opts : list option_) : dialConfig :=
  let c := foldl applyDial
    {| dc_target := target; dc_ICEServers := []; dc_iceCascade := false; dc_negotiationTO := 0;
       dc_token := []; dc_identity := []; dc_interceptors := [] |} opts in
  {| dc_target := finish_target (dc_token c) (dc_identity c) (dc_target c);
     dc_ICEServers := dc_ICEServers c; dc_iceCascade := dc_iceCascade c;
     dc_negotiationTO := dc_negotiationTO c; dc_token := dc_token c; dc_identity := dc_identity c;
     dc_interceptors := dc_interceptors c |}.

(** [ListenTarget] up to [resolveProbe]. *)
Definition listen_config (target : Target) (opts : list option_) : listenConfig :=
  let c := foldl applyListen
    {| lc_target := target; lc_ICEServers := []; lc_iceCascade := false; lc_negotiationTO := 0;
       lc_token := []; lc_identity := []; lc_interceptors := []; lc_streamInterceptors := [] |} opts in
  let t := if decide (Target.Role (lc_target c) = []) then with_Role RoleHintServer (lc_target c)
           else lc_target c in
  {| lc_target := finish_target (lc_token c) (lc_identity c) t;
     lc_ICEServers := lc_ICEServers c; lc_iceCascade := lc_iceCascade c;
     lc_negotiationTO := lc_negotiationTO c; lc_token := lc_token c; lc_identity := lc_identity c;
     lc_interceptors := lc_interceptors c; lc_streamInterceptors := lc_streamInterceptors c |}.

(** [peer.Config]: the servers, nil when not configured, and the timeout. *)
Record peerConfig : Type := { pc_ICEServers : option (list ICEServer); pc_NegotiationTimeout : Z }.

Definition buildPeerConfig (cfg : dialConfig) : peerConfig :=
  {| pc_ICEServers := if dc_iceCascade cfg then Some (dc_ICEServers cfg) else None;
     pc_NegotiationTimeout := dc_negotiationTO cfg |}.

Definition buildPeerConfigListen (cfg : listenConfig) : peerConfig :=
  {| pc_ICEServers := if lc_iceCascade cfg then Some (lc_ICEServers cfg) else None;
     pc_NegotiationTimeout := lc_negotiationTO cfg |}.

(** ** Builders *)

Inductive setter : Type :=
  | SignalAt (authority : bytes) | SetService (name : bytes) | Over (s : bytes) | As (r : bytes)
  | SetPeerID (id : bytes) | SetToken (token : bytes) | Apply (opts : list option_).

Definition set_target (t : Target) (s : setter) : Target :=
  match s with
  | SignalAt a => {| Scheme := Scheme t; Signal := a; Target.Service := Target.Service t;
      Target.Role := Target.Role t; Target.PeerID := Target.PeerID t; Token := Token t |}
  | SetService n => {| Scheme := Scheme t; Signal := Signal t; Target.Service := n;
      Target.Role := Target.Role t; Target.PeerID := Target.PeerID t; Token := Token t |}
  | Over s => {| Scheme := s; Signal := Signal t; Target.Service := Target.Service t;
      Target.Role := Target.Role t; Target.PeerID := Target.PeerID t; Token := Token t |}
  | As r => with_Role r t
  | SetPeerID id => with_PeerID id t
  | SetToken tok => with_Token tok t
  | Apply _ => t
  end.

Definition set_opts (opts : list option_) (s : setter) : list option_ :=
  match s with Apply os => opts ++ os | _ => opts end.

Definition empty_target : Target :=
  {| Scheme := []; Signal := []; Target.Service := []; Target.Role := []; Target.PeerID := []; Token := [] |}.

(** One call on a [ListenBuilder], which holds its target and its options. *)
Definition listen_builder_call (b : Target * list option_) (s : setter) : Target * list option_ :=
  (set_target b.1 s, set_opts b.2 s).

(** [Listen] after a chain of calls on a fresh builder: what it passes on. *)
Definition ListenBuilder_Listen (ss : list setter) : Target * list option_ :=
  let b := foldl listen_builder_call (empty_target, []) ss in
  (if decide (Scheme b.1 = []) then set_target b.1 (Over SchemeWS) else b.1, b.2).

(** [Connect] of the [DialBuilder]: the target and the options it passes on. *)
Definition build (ss : list setter) : Target * list option_ :=
  let t := foldl set_target empty_target ss in
  (if decide (Scheme t = []) then set_target t (Over SchemeWS) else t, foldl set_opts [] ss).

(** The two builders hand over the same target and options for the same calls. *)
Lemma builders_agree ss : ListenBuilder_Listen ss = build ss.
Proof.
  unfold ListenBuilder_Listen, build.
  assert (∀ b, foldl listen_builder_call b ss = (foldl set_target b.1 ss, foldl set_opts b.2 ss)) as H.
  { induction ss as [|s ss IH]; intros [t o]; [done|]. cbn. by rewrite IH. }
  by rewrite H.
Qed.
End config.
Arguments option_ : clear implicits.
Arguments setter : clear implicits.
Arguments dialConfig : clear implicits.
Arguments listenConfig : clear implicits.

(** ** Resolvers *)

Section resolve.
Context {Session : Type}.

Record Resolution : Type := { rs_Session : Session; rs_PeerRole : Z; rs_PeerID : bytes }.

Definition Resolver : Type := Target → Resolution + error.

Definition ErrUnsupportedScheme : error :=
  ErrorString "peerrpc: unsupported scheme; register one with peerrpc.RegisterResolver".

Abbreviation registry := (gmap bytes (Resolver + error)).

Definition RegisterResolver (scheme : bytes) (factory : Resolver + error) (r : registry) : registry :=
  <[scheme := factory]> r.

(** Both look the factory up and call it; [resolve] goes on to the resolver. *)
Definition resolveProbe (r : registry) (t : Target) : Resolver + error :=
  match r !! Scheme t with
  | None => inr (Errorf_w "" ErrUnsupportedScheme ": scheme")
  | Some (inr err) => inr (wrapf "peerrpc: resolver factory failed: " err)
  | Some (inl f) => inl f
  end.

Definition resolve (r : registry) (t : Target) : Resolution + error :=
  match resolveProbe r t with inl f => f t | inr err => inr err end.

Definition peerRole (t : Target) (defaultIfEmpty : bytes) : Z :=
  let r := if decide (Target.Role t = []) then defaultIfEmpty else Target.Role t in
  if decide (r = RoleHintServer) then RoleServer else RoleClient.

(** The built-in resolvers, given the uuid they would draw and the [Exchange] of
    their backend (of the authority and the token, for the WebSocket one). *)
Definition local_Resolve (uuid : bytes) (Exchange : bytes → bytes → Session + error) (t : Target)
    : Resolution + error :=
  let peerID := if decide (Target.PeerID t = []) then uuid else Target.PeerID t in
  match Exchange (Target.Service t) peerID with
  | inr err => inr (wrapf "peerrpc: local exchange: " err)
  | inl s => inl {| rs_Session := s; rs_PeerRole := peerRole t RoleHintClient; rs_PeerID := peerID |}
  end.

Definition ws_Resolve (uuid : bytes) (Exchange : bytes → bytes → bytes → bytes → Session + error)
    (t : Target) : Resolution + error :=
  if decide (Signal t = []) then inr (ErrorString "peerrpc: scheme requires a non-empty Target.Signal")
  else
    let peerID := if decide (Target.PeerID t = []) then uuid else Target.PeerID t in
    match Exchange (Signal t) (Token t) (Target.Service t) peerID with
    | inr err => inr (wrapf "peerrpc: ws exchange: " err)
    | inl s => inl {| rs_Session := s; rs_PeerRole := peerRole t RoleHintClient; rs_PeerID := peerID |}
    end.
End resolve.
Arguments Resolution : clear implicits.

(** ** What a call opens and closes *)

Inductive resource : Type := RSession | RPeer | RChannel | RAttach.

#[export] Instance resource_eq_dec : EqDecision resource.
Proof. solve_decision. Defined.

Inductive event : Type := Open (r : resource) | Release (r : resource).

#[export] Instance event_eq_dec : EqDecision event.
Proof. solve_decision. Defined.

Section lifecycle.
Context {CI UI SI Session : Type}.

(** The outcomes of the calls that open something: [resolve], [peer.New], and
    [Dial] or [Accept] of the peer. *)
Record env : Type := {
  e_resolve : Target → Resolution Session + error;
  e_peerNew : Z → peerConfig → option error;
  e_Dial : option error;
  e_Accept : option error }.

(** [Conn]: the pump that [newConn] starts is [RAttach].  Its [Close], which may
    wait for the pump for ever, is in [FacadeConn]. *)
Record Conn : Type := { conn_peerID : bytes; conn_interceptors : list CI }.

Definition newConn (peerID : bytes) (is_ : list CI) : Conn :=
  {| conn_peerID := peerID; conn_interceptors := is_ |}.

Definition cleanupDial {A} (cause : error) : (A + error) * list event :=
  (inr cause, [Release RPeer; Release RSession]).

Definition dialTarget (cfg : dialConfig CI) (e : env) : (Conn + error) * list event :=
  match e_resolve e (dc_target cfg) with
  | inr err => (inr err, [])
  | inl resolution =>
      let '(r, evs) :=
        match e_peerNew e (rs_PeerRole resolution) (buildPeerConfig cfg) with
        | Some err => (inr (wrapf "peerrpc: peer.New: " err), [Release RSession])
        | None =>
            let '(r, evs) :=
              if decide (rs_PeerRole resolution = RoleClient) then
                match e_Dial e with
                | Some err => cleanupDial (wrapf "peerrpc: peer.Dial: " err)
                | None => (inl (newConn (rs_PeerID resolution) (dc_interceptors cfg)),
                           [Open RChannel; Open RAttach])
                end
              else if decide (rs_PeerRole resolution = RoleServer) then
                match e_Accept e with
                | Some err => cleanupDial (wrapf "peerrpc: peer.Accept: " err)
                | None => (inl (newConn (rs_PeerID resolution) (dc_interceptors cfg)),
                           [Open RChannel; Open RAttach])
                end
              else cleanupDial (ErrorString "peerrpc: unresolved peer role")
            in (r, Open RPeer :: evs)
        end in (r, Open RSession :: evs)
  end.

(** [DialTarget] and [Dial]. *)
Definition DialTarget (t : Target) (opts : list (option_ CI UI SI)) (e : env) : (Conn + error) * list event :=
  dialTarget (dial_config t opts) e.

Definition Dial (uri : bytes) (opts : list (option_ CI UI SI)) (e : env)
    : (Conn + (target_error + error)) * list event :=
  match ParseTarget uri with
  | inr err => (inr (inl err), [])
  | inl t => match DialTarget t opts e with
             | (inl c, evs) => (inl c, evs)
             | (inr err, evs) => (inr (inr err), evs)
             end
  end.

(** ** Listeners *)

Record ServerConn : Type := { sc_peerID : bytes; sc_once : bool }.

Definition ServerConn_Close (c : ServerConn) : list event * ServerConn :=
  if sc_once c then ([], c)
  else ([Release RChannel; Release RPeer; Release RSession],
        {| sc_peerID := sc_peerID c; sc_once := true |}).

Definition ErrListenerClosed : error := ErrorString "peerrpc: listener closed".

(** The peer id of one [Accept], given the uuid drawn. *)
Definition accept_target (uuid : bytes) (t : Target) : Target :=
  with_PeerID (if decide (Target.PeerID t = []) then uuid
               else Target.PeerID t ++ go "-" ++ take 8 uuid) t.

(** [Accept] once it has seen the listener open, up to [track]. *)
Definition accept (cfg : listenConfig UI SI) (uuid : bytes) (e : env) : (ServerConn + error) * list event :=
  match e_resolve e (accept_target uuid (lc_target cfg)) with
  | inr err => (inr err, [])
  | inl resolution =>
      let '(r, evs) :=
        match e_peerNew e (rs_PeerRole resolution) (buildPeerConfigListen cfg) with
        | Some err => (inr (wrapf "peerrpc: peer.New: " err), [Release RSession])
        | None =>
            let '(r, evs) :=
              match (if decide (rs_PeerRole resolution = RoleServer) then e_Accept e
                     else Some (ErrorString "peer: Accept requires RoleServer")) with
              | Some err => (inr (wrapf "peerrpc: peer.Accept: " err), [Release RPeer; Release RSession])
              | None => (inl {| sc_peerID := rs_PeerID resolution; sc_once := false |}, [Open RChannel])
              end in (r, Open RPeer :: evs)
        end in (r, Open RSession :: evs)
  end.

(** The state of a listener and its connections: [conns] ([None] is nil), the
    accepted connections by address, the goroutines of [Serve] that are past
    the check of [closed], and those that serve a connection. *)
Record listener : Type := {
  ln_conns : option (gmap bytes nat);
  ln_closed : bool;
  ln_heap : gmap nat ServerConn;
  ln_accepting : nat;
  ln_serving : gset nat;
  ln_next : nat }.

Definition new_listener : listener :=
  {| ln_conns := Some ∅; ln_closed := false; ln_heap := ∅; ln_accepting := 0; ln_serving := ∅; ln_next := 0 |}.

Definition track (c : nat) (peerID : bytes) (conns : option (gmap bytes nat)) : option (gmap bytes nat) :=
  (λ m, <[peerID := c]> m) <$> conns.

Definition untrack (peerID : bytes) (conns : option (gmap bytes nat)) : option (gmap bytes nat) :=
  (λ m, delete peerID m) <$> conns.

(** [Close] on a connection of the heap. *)
Definition close_conn (heap : gmap nat ServerConn) (c : nat) : gmap nat ServerConn :=
  alter (λ sc, (ServerConn_Close sc).2) c heap.

(** The steps of a listener that runs [Serve]: the loop checks [closed], its
    [Accept] returns a connection, which it hands to a goroutine, or an error;
    that goroutine's server ends; [Close]. *)
Inductive listener_step : listener → listener → Prop :=
  | step_check l :
      ln_closed l = false →
      listener_step l
        {| ln_conns := ln_conns l; ln_closed := ln_closed l; ln_heap := ln_heap l;
           ln_accepting := S (ln_accepting l); ln_serving := ln_serving l; ln_next := ln_next l |}
  | step_accepted l n sc :
      ln_accepting l = S n → sc_once sc = false →
      listener_step l
        {| ln_conns := track (ln_next l) (sc_peerID sc) (ln_conns l); ln_closed := ln_closed l;
           ln_heap := <[ln_next l := sc]> (ln_heap l); ln_accepting := n;
           ln_serving := {[ln_next l]} ∪ ln_serving l; ln_next := S (ln_next l) |}
  | step_accept_error l n :
      ln_accepting l = S n →
      listener_step l
        {| ln_conns := ln_conns l; ln_closed := ln_closed l; ln_heap := ln_heap l;
           ln_accepting := n; ln_serving := ln_serving l; ln_next := ln_next l |}
  | step_served l c sc :
      c ∈ ln_serving l → ln_heap l !! c = Some sc →
      listener_step l
        {| ln_conns := untrack (sc_peerID sc) (ln_conns l); ln_closed := ln_closed l;
           ln_heap := ln_heap l; ln_accepting := ln_accepting l;
           ln_serving := ln_serving l ∖ {[c]}; ln_next := ln_next l |}
  | step_close l conns :
      ln_closed l = false → ln_conns l = Some conns →
      listener_step l
        {| ln_conns := None; ln_closed := true;
           ln_heap := foldl close_conn (ln_heap l) (snd <$> map_to_list conns);
           ln_accepting := ln_accepting l; ln_serving := ln_serving l; ln_next := ln_next l |}.
End lifecycle.

(** ** Lemmas *)

Definition opened (evs : list event) (r : resource) : nat := length (filter (.= Open r) evs).
Definition released (evs : list event) (r : resource) : nat := length (filter (.= Release r) evs).

Lemma close_conn_other heap c c' : c ≠ c' → close_conn heap c !! c' = heap !! c'.
Proof. intros H. unfold close_conn. by rewrite lookup_alter_ne. Qed.

Lemma close_conns_other cs heap c : c ∉ cs → foldl close_conn heap cs !! c = heap !! c.
Proof.
  revert heap. induction cs as [|c' cs IH]; intros heap Hc; [done|]. cbn.
  apply not_elem_of_cons in Hc as [Hne Hc]. rewrite IH by done. by apply close_conn_other.
Qed.

(** A connection nothing will close: open, past, and in no table. *)
Definition forgotten (c : nat) (l : listener) : Prop :=
  (∃ sc, ln_heap l !! c = Some sc ∧ sc_once sc = false) ∧ c ∉ ln_serving l ∧ (c < ln_next l)%nat ∧
  match ln_conns l with Some conns => ∀ id, conns !! id ≠ Some c | None => True end.

Lemma forgotten_step c l l' : listener_step l l' → forgotten c l → forgotten c l'.
Proof.
  intros Hs ((sc & Hc & Ho) & Hsv & Hn & Ht).
  destruct Hs as [l _|l n sc' _ _|l n _|l c' sc' Hc' Hsc'|l conns _ Hconns];
    (split; [|split; [|split]]); cbn in *; try done.
  - by exists sc.
  - exists sc. by rewrite lookup_insert_ne by lia.
  - rewrite elem_of_union, elem_of_singleton. intros [->|]; [lia|done].
  - lia.
  - destruct (ln_conns l) as [conns|]; [|done]. cbn. intros id.
    rewrite lookup_insert. case_decide; [intros [= ?]; lia|apply Ht].
  - by exists sc.
  - by exists sc.
  - rewrite elem_of_difference. tauto.
  - destruct (ln_conns l) as [conns|]; [|done]. cbn. intros id.
    rewrite lookup_delete. case_decide; [done|apply Ht].
  - exists sc. split; [|done]. rewrite close_conns_other; [done|].
    rewrite Hconns in Ht. intros ([id c'] & -> & Hin)%list_elem_of_fmap.
    apply elem_of_map_to_list in Hin. by eapply Ht.
Qed.

Definition reachable_listener (l : listener) : Prop := rtc listener_step new_listener l.

Record LInv (l : listener) : Prop := {
  li_serving c : c ∈ ln_serving l → is_Some (ln_heap l !! c);
  li_heap c : is_Some (ln_heap l !! c) → (c < ln_next l)%nat;
  li_conns conns id c : ln_conns l = Some conns → conns !! id = Some c →
    ∃ sc, ln_heap l !! c = Some sc ∧ sc_peerID sc = id }.

Lemma close_conns_heap cs heap c :
  is_Some (foldl close_conn heap cs !! c) ↔ is_Some (heap !! c).
Proof.
  revert heap. induction cs as [|c' cs IH]; intros heap; [done|]. cbn. rewrite IH.
  unfold close_conn. apply lookup_alter_is_Some.
Qed.

Lemma LInv_step l l' : listener_step l l' → LInv l → LInv l'.
Proof.
  intros Hs [H1 H2 H3].
  destruct Hs as [l _|l n sc _ _|l n _|l c' sc' Hc' Hsc'|l conns _ Hconns]; split; cbn in *; try done.
  - intros c. rewrite elem_of_union, elem_of_singleton. intros [->|Hc].
    + rewrite lookup_insert, decide_True by done. by eexists.
    + rewrite lookup_insert. case_decide; [by eexists|auto].
  - intros c. rewrite lookup_insert. case_decide; [lia|]. intros Hc. apply H2 in Hc. lia.
  - intros conns id c. destruct (ln_conns l) as [m|]; [|done]. intros [= <-].
    rewrite lookup_insert. case_decide as Hid.
    + intros [= <-]. exists sc. by rewrite lookup_insert, decide_True.
    + intros Hm. destruct (H3 m id c eq_refl Hm) as (sc0 & Hsc0 & Hid0). exists sc0.
      assert (c < ln_next l)%nat by (apply H2; by eexists). by rewrite lookup_insert_ne by lia.
  - intros c. rewrite elem_of_difference. intros [Hc _]. auto.
  - intros conns id c. destruct (ln_conns l) as [m|]; [|done]. intros [= <-].
    rewrite lookup_delete. case_decide; [done|]. by apply H3.
  - intros c Hc. apply close_conns_heap. auto.
  - intros c Hc. apply H2. by apply close_conns_heap in Hc.
Qed.

Lemma reachable_LInv l : reachable_listener l → LInv l.
Proof.
  intros Hr. refine (rtc_ind_r (R:=listener_step) LInv new_listener _ _ l Hr).
  - split; cbn; [set_solver|intros c; rewrite lookup_empty; by intros []|].
    intros conns id c [= <-]. by rewrite lookup_empty.
  - intros y z _ Hs. by apply LInv_step.
Qed.

Lemma forgotten_forever c l l' : forgotten c l → rtc listener_step l l' → forgotten c l'.
Proof. intros Hf Hs. revert Hf. induction Hs; eauto using forgotten_step. Qed.

Lemma untrack_not m p id (c : nat) (heap : gmap nat ServerConn) :
  (∀ id, m !! id = Some c → p = id) → (delete p m : gmap bytes nat) !! id ≠ Some c.
Proof. intros H. rewrite lookup_delete. case_decide as Hp; [done|]. intros Hm. by apply Hp, H. Qed.

(** ** Properties *)

(** What a call has left open. *)
Definition balanced (evs : list event) : Prop := ∀ r, opened evs r = released evs r.

(** When [Dial] or [Accept] fails, for whatever reason and at whatever stage,
    what it opened has been closed again; when [Dial] succeeds, the session, the
    peer, the channel and the pump are open, when [Accept] succeeds, the first
    three. *)
Theorem facade_no_leak {CI UI SI Session} (t : Target) (opts : list (option_ CI UI SI))
    (lcfg : listenConfig UI SI) uuid (e : @env Session) :
  (let '(r, evs) := DialTarget t opts e in
   match r with
   | inr _ => balanced evs
   | inl _ => ∀ r, opened evs r = 1%nat ∧ released evs r = 0%nat
   end) ∧
  (let '(r, evs) := accept lcfg uuid e in
   match r with
   | inr _ => balanced evs
   | inl _ => ∀ r, opened evs r = (if decide (r = RAttach) then 0 else 1)%nat ∧ released evs r = 0%nat
   end).
Proof.
  split.
  - unfold DialTarget, dialTarget, cleanupDial. repeat case_match; simplify_eq; by intros [].
  - unfold accept. repeat case_match; simplify_eq; by intros [].
Qed.

(** A listener that runs [Serve] forgets the connections it has served. When
    the server of a connection that is still open has ended, [Serve] drops the
    connection from its table without closing it; from then on nothing the
    listener does, its own [Close] included, closes it: its channel, its peer
    and its session, which keeps its place in the signaling service, stay open. *)
Theorem listener_forgets_connections l c sc (Hr : reachable_listener l)
    (Hc : c ∈ ln_serving l) (Hsc : ln_heap l !! c = Some sc) (Ho : sc_once sc = false) :
  ∃ l1, listener_step l l1 ∧
    ∀ l2, rtc listener_step l1 l2 → ∃ sc2, ln_heap l2 !! c = Some sc2 ∧ sc_once sc2 = false.
Proof.
  destruct (reachable_LInv l Hr) as [H1 H2 H3]. eexists. split; [by eapply step_served|].
  intros l2 Hs. eapply forgotten_forever in Hs as [H _]; [exact H|].
  split; [by exists sc|]. split; [|split]; cbn.
  - set_solver.
  - apply H2. by eexists.
  - destruct (ln_conns l) as [m|]; [|done]. intros id. apply (untrack_not m _ id c (ln_heap l)).
    intros id' Hm. destruct (H3 m id' c eq_refl Hm) as (sc' & Hsc' & <-). congruence.
Qed.

(** One connection accepted. *)
Definition one_accepted : listener :=
  {| ln_conns := Some {[go "a" := 0%nat]}; ln_closed := false;
     ln_heap := {[0%nat := {| sc_peerID := go "a"; sc_once := false |}]};
     ln_accepting := 0; ln_serving := {[0%nat]}; ln_next := 1 |}.

Lemma listener_forgets_connections_witness :
  ∃ l1, listener_step one_accepted l1 ∧
    ∀ l2, rtc listener_step l1 l2 → ∃ sc2, ln_heap l2 !! 0%nat = Some sc2 ∧ sc_once sc2 = false.
Proof.
  apply (listener_forgets_connections one_accepted 0 {| sc_peerID := go "a"; sc_once := false |});
    [|change (0%nat ∈ ({[0%nat]} : gset nat)); by apply elem_of_singleton|done|done].
  eapply rtc_l; [by apply step_check|]. eapply rtc_l; [|apply rtc_refl].
  pose proof (step_accepted {| ln_conns := Some ∅; ln_closed := false; ln_heap := ∅;
    ln_accepting := 1; ln_serving := ∅; ln_next := 0 |} 0
    {| sc_peerID := go "a"; sc_once := false |} eq_refl eq_refl) as H.
  cbn in H. by rewrite union_empty_r_L in H.
Defined.
