(* ===== verification/FacadeConn.v ===== *)
(** * The life of a client connection (peerrpc/conn.go)

    [newConn] starts the goroutine that runs [Attach]; [Close] cancels it, waits
    for it, and then closes the channel, the peer and the session; [Done] and
    [Err] look at it from outside.  The connection is put together from the
    client ([RpcClient]) and the channel ([Channel]); the application's calls,
    the DataChannel's callbacks and one call of [Close] run beside the pump.

    The pump's dispatch is taken apart where it can block, in the [select] of
    [deliver]. *)

From Stdlib Require Import Strings.Byte ZArith Lia Wellfounded.
From stdpp Require Import numbers strings gmap fin_maps relations list.
From S2P Require Import Prelude Status Messages Transport Channel RpcClient RpcClientProps Facade.
Open Scope Z_scope.

(** ** Dispatch, up to the select of [deliver] *)

(** The [Attach] goroutine: in [ch.Recv], in the [select] of [deliver], returned
    (with [attachErr] stored and [done] closed), or panicking. *)
Inductive pump : Type :=
  | PRecv
  | PDeliver (l : nat) (payload : bytes)
  | PDone (attachErr : option error)
  | PCrashed (r : res unit).

Definition dispatch_start (f : ResponseFrame) (c : client) : pump * client :=
  let seq := routing_seq (rf_Routing f) in
  match cl_streams c !! seq with
  | None => (PRecv, c)
  | Some l =>
      match rf_Type f with
      | Some (ResponseFrame_Begin None) | None => (PRecv, c)
      | Some (ResponseFrame_Begin (Some b)) =>
          let c := match begin_Header b with
                   | Some h => update l (λ cs, with_header (mergeIn (cs_header cs) (map_to_list h)) cs) c
                   | None => c end in
          match begin_InlineData b with
          | Some d => (if 0 <? len d then PDeliver l d else PRecv, c)
          | None => (PRecv, c)
          end
      | Some (ResponseFrame_Data d) =>
          match GetContent d with
          | Some (Data_Message m) => (PDeliver l m, c)
          | Some (Data_Chunk ch) =>
              let '(o, r) := Reassembler.Reassemble (cl_reasm c) (int32 seq) (TotalSize ch)
                               (Offset ch) (chunk_Data ch) in
              (match o with
               | Ok (Some full) => PDeliver l full
               | Ok None => PRecv
               | Fail e => PCrashed (Fail e)
               | Panic s => PCrashed (Panic s)
               end, set_reasm r c)
          | None => (PRecv, c)
          end
      | Some (ResponseFrame_End e) => (PRecv, dispatch_end l seq e c)
      end
  end.

(** The rest of the call. *)
Definition dispatch_rest (p : pump * client) : list (res unit * client) :=
  match p with
  | (PDeliver l b, c) => pair (Ok tt) <$> deliver l b c
  | (PCrashed r, c) => [(r, c)]
  | (_, c) => [(Ok tt, c)]
  end.

(** It is [dispatch]. *)
Lemma dispatch_split f c : dispatch f c = dispatch_rest (dispatch_start f c).
Proof.
  unfold dispatch, dispatch_start. destruct (cl_streams c !! _) as [l|]; [|done].
  destruct (rf_Type f) as [[[b|]|d|e]|]; [|done| |done..].
  - unfold dispatch_begin. destruct (begin_InlineData b) as [d|]; [|done]. by destruct (0 <? len d).
  - destruct (GetContent d) as [[m|ch]|]; [done| |done].
    by destruct (Reassembler.Reassemble _ _ _ _ _) as [[[full|]|err|s] r].
Qed.

Lemma CInv_dispatch_start f c : CInv c → CInv (dispatch_start f c).2.
Proof.
  intros Hc. pose proof (CInv_dispatch f) as Hd. unfold dispatch, dispatch_start in *.
  destruct (cl_streams c !! _) as [l|] eqn:Hl; [|done].
  destruct (rf_Type f) as [[[b|]|d|e]|]; [|done| | |done].
  - assert (CInv match begin_Header b with
      | Some h => update l (λ cs, with_header (mergeIn (cs_header cs) (map_to_list h)) cs) c
      | None => c end).
    { destruct (begin_Header b); [|done]. apply CInv_update; [|done]. intros cs. by apply stream_ok_fields. }
    destruct (begin_InlineData b); [|done]. by destruct (0 <? _).
  - destruct (GetContent d) as [[m|ch]|]; [done| |done].
    destruct (Reassembler.Reassemble _ _ _ _ _) as [o r]. by destruct Hc.
  - eapply (Hd _ c); [done|]. rewrite Hl. by apply list_elem_of_singleton.
Qed.

(** ** The connection *)

(** Where the first call of [Close] is: not called, waiting for [done], before
    each of its three calls, returned.  Later calls return with it. *)
Inductive closing : Type := CNone | CWait | CChannel | CPeer | CSession | CReturned.

#[export] Instance closing_eq_dec : EqDecision closing.
Proof. solve_decision. Defined.

Section conn.
Context {DC : Type} (dc_BufferedAmount : DC → Z) (dc_Send : DC → bytes → option error * DC) (dc_Close : DC → DC).
Context `{!Codec ResponseFrame}.

Record conn : Type := {
  fc_client : client;
  fc_chan : Channel DC;
  fc_canceled : bool;
  fc_pump : pump;
  fc_close : closing;
  fc_events : list event
}.

Definition start (dc : DC) : conn :=
  {| fc_client := NewClient; fc_chan := Channel.New dc; fc_canceled := false; fc_pump := PRecv;
     fc_close := CNone; fc_events := [] |}.

Definition with_client (c : client) (p : pump) (k : conn) : conn :=
  {| fc_client := c; fc_chan := fc_chan k; fc_canceled := fc_canceled k; fc_pump := p;
     fc_close := fc_close k; fc_events := fc_events k |}.

Definition with_chan (ch : Channel DC) (k : conn) : conn :=
  {| fc_client := fc_client k; fc_chan := ch; fc_canceled := fc_canceled k; fc_pump := fc_pump k;
     fc_close := fc_close k; fc_events := fc_events k |}.

Definition with_close (p : closing) (evs : list event) (k : conn) : conn :=
  {| fc_client := fc_client k; fc_chan := fc_chan k; fc_canceled := fc_canceled k; fc_pump := fc_pump k;
     fc_close := p; fc_events := fc_events k ++ evs |}.

(** [Close] up to its wait. *)
Definition call_Close (k : conn) : conn :=
  {| fc_client := fc_client k; fc_chan := fc_chan k; fc_canceled := true; fc_pump := fc_pump k;
     fc_close := CWait; fc_events := fc_events k |}.

Definition Done (k : conn) : bool := match fc_pump k with PDone _ => true | _ => false end.

Definition Err (k : conn) : option error := match fc_pump k with PDone e => e | _ => None end.

Definition pump_ctx (k : conn) : option error := if fc_canceled k then Some Canceled else None.

(** What [Attach] does with the result of [ch.Recv]. *)
Definition after_Recv (r : res bytes) (k : conn) : conn :=
  match r with
  | Ok raw =>
      match unmarshal raw with
      | None => k
      | Some f => let '(p, c) := dispatch_start f (fc_client k) in with_client c p k
      end
  | Fail err =>
      with_client (detach (failAll err (fc_client k))) (PDone (if attach_closed err then None else Some err)) k
  | Panic s => with_client (fc_client k) (PCrashed (Panic s)) k
  end.

(** The pump and the call of [Close]. *)
Inductive own_step (k : conn) : conn → Prop :=
  | own_recv r ch :
      fc_pump k = PRecv → (r, ch) ∈ Channel.Recv (fc_chan k) (pump_ctx k) →
      own_step k (after_Recv r (with_chan ch k))
  | own_deliver l b c :
      fc_pump k = PDeliver l b → c ∈ deliver l b (fc_client k) → own_step k (with_client c PRecv k)
  | own_wait : fc_close k = CWait → Done k = true → own_step k (with_close CChannel [] k)
  | own_channel ch :
      fc_close k = CChannel → Channel.Close dc_Close (fc_chan k) = Ok ch →
      own_step k (with_close CPeer [Release RChannel] (with_chan ch k))
  | own_peer : fc_close k = CPeer → own_step k (with_close CSession [Release RPeer] k)
  | own_session : fc_close k = CSession → own_step k (with_close CReturned [Release RSession] k).

(** The application, which receives only from the streams that satisfy [on], and
    the DataChannel; [Close] is called. *)
Inductive env_step (on : nat → Prop) (k : conn) : conn → Prop :=
  | env_app c : app_step on (fc_client k) c → env_step on k (with_client c (fc_pump k) k)
  | env_close : fc_close k = CNone → env_step on k (call_Close k)
  | env_message msg ch : ch ∈ Channel.onMessage (fc_chan k) msg → env_step on k (with_chan ch k)
  | env_onClose ch : Channel.onClose (fc_chan k) = Ok ch → env_step on k (with_chan ch k)
  | env_low : env_step on k (with_chan (Channel.onBufferedAmountLow (fc_chan k)) k)
  | env_send payload evs ch r :
      Channel.SendRaw dc_BufferedAmount dc_Send (fc_chan k) payload evs = (ch, r) → env_step on k (with_chan ch k).

Definition step (on : nat → Prop) (k k' : conn) : Prop := own_step k k' ∨ env_step on k k'.

Definition reachable (dc : DC) (k : conn) : Prop := rtc (step (λ _, True)) (start dc) k.

(** The pump holds a message for a stream whose queue is full and that has not
    ended. *)
Definition stuck (l : nat) (k : conn) : Prop :=
  ∃ b cs, fc_pump k = PDeliver l b ∧ cl_heap (fc_client k) !! l = Some cs ∧
    (resp_cap ≤ length (cs_inbound cs))%nat ∧ cs_end cs = None.

(** ** Invariant *)

(** The calls that [Close] has made. *)
Definition calls_made (p : closing) : nat :=
  match p with CNone | CWait | CChannel => 0 | CPeer => 1 | CSession => 2 | CReturned => 3 end.

Definition past_wait (p : closing) : bool := match p with CNone | CWait => false | _ => true end.

Definition close_calls : list event := [Release RChannel; Release RPeer; Release RSession].

Record conn_ok (k : conn) : Prop := {
  ok_client : CInv (fc_client k);
  ok_attached : cl_attached (fc_client k) = negb (Done k);
  ok_deliver l b : fc_pump k = PDeliver l b → (l < cl_next (fc_client k))%nat;
  ok_canceled : fc_canceled k = negb (bool_decide (fc_close k = CNone));
  ok_wait : past_wait (fc_close k) = true → Done k = true;
  ok_chan : ch_shutdownDone (fc_chan k) = ch_closed (fc_chan k);
  ok_closed : (1 ≤ calls_made (fc_close k))%nat → ch_closed (fc_chan k) = true;
  ok_events : fc_events k = take (calls_made (fc_close k)) close_calls
}.

Lemma app_step_counts on c c' :
  CInv c → app_step on c c' → CInv c' ∧ cl_attached c' = cl_attached c ∧ (cl_next c ≤ cl_next c')%nat.
Proof.
  intros Hc Hs. split; [eapply CInv_step; [exact Hc|left; by eapply app_step_mono]|].
  apply app_step_shape in Hs as [method fs l seq c0 Ho|fs|l cs r q _ _ _|seq]; rewrite ?foldl_sendFrame; cbn; try (split; [done|lia]).
  destruct (openStream_value _ _ _ _ _ Ho Hc) as (-> & _ & _ & -> & -> & _). split; [done|lia].
Qed.

Lemma dispatch_start_counts f c p c' :
  dispatch_start f c = (p, c') → CInv c →
  cl_attached c' = cl_attached c ∧ cl_next c' = cl_next c ∧ (∀ e, p ≠ PDone e) ∧ ∀ l b, p = PDeliver l b → (l < cl_next c)%nat.
Proof.
  intros Hd Hc. unfold dispatch_start in Hd. destruct (cl_streams c !! _) as [l|] eqn:Hl; [|by simplify_eq].
  destruct (ci_streams _ Hc _ _ Hl) as [Hlt _].
  destruct (rf_Type f) as [[[b|]|d|e]|]; [|by simplify_eq| |by simplify_eq; unfold dispatch_end; repeat case_match|by simplify_eq].
  - destruct (begin_InlineData b) as [d|]; simplify_eq; (split; [by case_match|]; split; [by case_match|]); [|done].
    destruct (0 <? len d); split; try done. by intros l' b' [= <- _].
  - destruct (GetContent d) as [[m|ch]|]; simplify_eq; [| |done].
    + do 2 (split; [done|]). split; [done|]. by intros l' b' [= <- _].
    + destruct (Reassembler.Reassemble _ _ _ _ _) as [o r]. simplify_eq. do 2 (split; [done|]).
      destruct o as [[full|]|err|s]; split; try done. by intros l' b' [= <- _].
Qed.

Lemma deliver_counts l b c c' : c' ∈ deliver l b c → cl_attached c' = cl_attached c ∧ cl_next c' = cl_next c.
Proof.
  unfold deliver. destruct (cl_heap c !! l) as [cs|]; [|by intros ?%elem_of_nil]. intros [H|H]%elem_of_app.
  - case_decide; [|by apply elem_of_nil in H]. by apply list_elem_of_singleton in H as ->.
  - destruct (cs_end cs); [|by apply elem_of_nil in H]. by apply list_elem_of_singleton in H as ->.
Qed.

(** The pump and [Close] keep the invariant, whatever the channel's queue. *)
Lemma conn_ok_pump k c p :
  conn_ok k → CInv c → cl_attached c = (if p is PDone _ then false else true) →
  (∀ l b, p = PDeliver l b → (l < cl_next c)%nat) → (Done k = true → ∃ e, p = PDone e) → conn_ok (with_client c p k).
Proof.
  intros [] Hc Ha Hl Hd. split; cbn; try done.
  - rewrite Ha. by destruct p.
  - intros Hp. destruct (Hd (ok_wait0 Hp)) as [e ->]. done.
Qed.

Lemma conn_ok_chan k ch :
  conn_ok k → ch_shutdownDone ch = ch_closed ch → (ch_closed (fc_chan k) = true → ch_closed ch = true) → conn_ok (with_chan ch k).
Proof. intros [] H1 H2. split; cbn; try done. intros H. auto. Qed.

Lemma Recv_chan (c : Channel DC) ctx r ch :
  (r, ch) ∈ Channel.Recv c ctx →
  ch_shutdownDone ch = ch_shutdownDone c ∧ ch_closed ch = ch_closed c ∧
  match r with Ok _ => length (ch_recv c) = S (length (ch_recv ch)) | Fail _ => ch_recv ch = ch_recv c | Panic _ => False end.
Proof.
  intros [(b & q & Hq & -> & ->)|[(_ & -> & ->)|(e & _ & -> & ->)]]%Channel.Recv_inv; [|done..].
  cbn. by rewrite Hq.
Qed.

Lemma shutdown_closes (ch ch' : Channel DC) why :
  ch_shutdownDone ch = ch_closed ch → Channel.shutdown ch why = Ok ch' →
  ch_shutdownDone ch' = ch_closed ch' ∧ ch_closed ch' = true ∧ ch_recv ch' = ch_recv ch.
Proof. intros Hd Hs. destruct (Channel.shutdown_view _ _ _ Hd Hs) as (? & -> & -> & _). done. Qed.

Lemma Close_closes (ch ch' : Channel DC) :
  ch_shutdownDone ch = ch_closed ch → Channel.Close dc_Close ch = Ok ch' →
  ch_shutdownDone ch' = ch_closed ch' ∧ ch_closed ch' = true ∧ ch_recv ch' = ch_recv ch.
Proof.
  intros Hd. unfold Channel.Close. destruct (ch_closeOnce ch); intros Hs;
    by destruct (λ H, shutdown_closes _ ch' _ H Hs) as (? & ? & ?).
Qed.

Lemma Close_ok (ch : Channel DC) : ch_shutdownDone ch = ch_closed ch → ∃ ch', Channel.Close dc_Close ch = Ok ch'.
Proof.
  intros Hd. unfold Channel.Close, Channel.shutdown. destruct (ch_closeOnce ch); cbn; rewrite Hd;
    destruct (ch_closed ch); by eexists.
Qed.

Lemma after_Recv_ok k r ch :
  conn_ok k → fc_pump k = PRecv → (r, ch) ∈ Channel.Recv (fc_chan k) (pump_ctx k) → conn_ok (after_Recv r (with_chan ch k)).
Proof.
  intros Hok Hp Hin. destruct (Recv_chan _ _ _ _ Hin) as (Hd & Hcl & _).
  assert (Done k = false) as Hdone by (unfold Done; by rewrite Hp).
  assert (cl_attached (fc_client k) = true) as Hatt by (rewrite (ok_attached _ Hok); by rewrite Hdone).
  assert (conn_ok (with_chan ch k)) as Hok'.
  { apply conn_ok_chan; [done|by rewrite Hd, Hcl; apply Hok|by rewrite Hcl]. }
  assert (Done (with_chan ch k) = false) as Hdone' by done.
  unfold after_Recv. destruct r as [raw|err|s].
  - destruct (unmarshal raw) as [f|]; [|done]. destruct (dispatch_start f _) as [p c] eqn:Ed.
    destruct (dispatch_start_counts _ _ _ _ Ed (ok_client _ Hok')) as (Ha & Hn & Hnd & Hl).
    apply conn_ok_pump; [done| | | |by rewrite Hdone'].
    + pose proof (CInv_dispatch_start f _ (ok_client _ Hok')) as H. by rewrite Ed in H.
    + rewrite Ha. cbn. rewrite Hatt. destruct p; try done. by destruct (Hnd attachErr).
    + by rewrite Hn.
  - apply conn_ok_pump; [done| |done|done|by rewrite Hdone'].
    by apply CInv_failAll; [|apply (ok_client _ Hok')].
  - apply conn_ok_pump; [done|apply (ok_client _ Hok')|done|done|by rewrite Hdone'].
Qed.

Lemma own_step_ok k k' : conn_ok k → own_step k k' → conn_ok k'.
Proof.
  intros Hok Hs. destruct Hs as [r ch Hp Hin|l b c Hp Hin|Hc Hd|ch Hc Hch|Hc|Hc].
  - by apply after_Recv_ok.
  - destruct (deliver_counts _ _ _ _ Hin) as [Ha Hn]. apply conn_ok_pump; [done| | |done|].
    + eapply CInv_deliver; [apply (ok_client _ Hok)|exact Hin].
    + rewrite Ha, (ok_attached _ Hok). unfold Done. by rewrite Hp.
    + unfold Done. by rewrite Hp.
  - destruct Hok as [H1 H2 H3 H4 H5 H6 H7 H8]. rewrite Hc in *. split; cbn; try done; by rewrite app_nil_r.
  - pose proof (Close_closes _ _ (ok_chan _ Hok) Hch) as (E1 & E2 & _).
    destruct Hok as [H1 H2 H3 H4 H5 H6 H7 H8]. rewrite Hc in *. split; cbn; try done. by rewrite H8.
  - destruct Hok as [H1 H2 H3 H4 H5 H6 H7 H8]. rewrite Hc in *. split; cbn; try done; first [by rewrite H8|intros _; apply H7; cbn; lia].
  - destruct Hok as [H1 H2 H3 H4 H5 H6 H7 H8]. rewrite Hc in *. split; cbn; try done; first [by rewrite H8|intros _; apply H7; cbn; lia].
Qed.

Lemma env_step_ok on k k' : conn_ok k → env_step on k k' → conn_ok k'.
Proof.
  intros Hok Hs. destruct Hs as [c Ha|Hc|msg ch Hm|ch Ho| |payload evs ch r Hsend].
  - destruct (app_step_counts on _ _ (ok_client _ Hok) Ha) as (H1 & H2 & H3).
    apply conn_ok_pump; [done|done| | |].
    + rewrite H2, (ok_attached _ Hok). unfold Done. by destruct (fc_pump k).
    + intros l b Hp. pose proof (ok_deliver _ Hok l b Hp). lia.
    + unfold Done. destruct (fc_pump k); by eauto.
  - destruct Hok as [H1 H2 H3 H4 H5 H6 H7 H8]. rewrite Hc in *. by split.
  - destruct (Channel.onMessage_inv _ _ _ Hm) as [[-> _]|[-> _]]; apply conn_ok_chan; try done; apply Hok.
  - destruct (shutdown_closes _ _ _ (ok_chan _ Hok) Ho) as (? & ? & _). by apply conn_ok_chan.
  - apply conn_ok_chan; [done|apply Hok|done].
  - destruct (Channel.send_view _ _ _ _ _ _ _ Hsend) as (_ & E1 & _ & E2). apply conn_ok_chan; [done| |by rewrite E1].
    rewrite E1, E2. apply Hok.
Qed.

Lemma steps_ok on k k' : rtc (step on) k k' → conn_ok k → conn_ok k'.
Proof. induction 1 as [|k1 k2 k3 [H|H] _ IH]; eauto using own_step_ok, env_step_ok. Qed.

Lemma facade_reachable_ok dc k : reachable dc k → conn_ok k.
Proof. intros Hr. eapply steps_ok; [exact Hr|]. split; cbn; try done; [apply CInv_init|lia]. Qed.

(** ** Rest *)

(** The pump and [Close] have nothing to do: the pump waits for a message or
    has returned and no call of [Close] is under way. *)
Definition idle (k : conn) : Prop :=
  (fc_close k = CNone ∧ fc_pump k = PRecv ∧ ch_recv (fc_chan k) = [] ∧ ch_closed (fc_chan k) = false) ∨
  (Done k = true ∧ (fc_close k = CNone ∨ fc_close k = CReturned)).

Definition crashed (k : conn) : Prop := ∃ r, fc_pump k = PCrashed r.

Lemma deliver_ready k l b :
  conn_ok k → fc_pump k = PDeliver l b → stuck l k ∨ ∃ c, c ∈ deliver l b (fc_client k).
Proof.
  intros Hok Hp. destruct (ci_all _ (ok_client _ Hok) l) as [cs Hcs]; [by eapply ok_deliver|].
  unfold stuck, deliver. rewrite Hcs. destruct (decide (length (cs_inbound cs) < resp_cap)%nat) as [Hlt|Hge].
  - right. eexists. by apply list_elem_of_here.
  - destruct (cs_end cs) eqn:He; [right; eexists; by apply list_elem_of_here|].
    left. exists b, cs. split_and!; [done..|lia|done].
Qed.

Lemma own_rest k :
  conn_ok k → idle k ∨ crashed k ∨ (∃ l, stuck l k) ∨ ∃ k', own_step k k'.
Proof.
  intros Hok. destruct (fc_pump k) as [|l b|e|r] eqn:Hp.
  - destruct (Channel.Recv (fc_chan k) (pump_ctx k)) as [|[r ch] rest] eqn:Hr;
      [|right; right; right; eexists; apply (own_recv k r ch Hp); rewrite Hr; by apply list_elem_of_here].
    left. left. pose proof (ok_canceled _ Hok) as Hcan. unfold Channel.Recv, pump_ctx in Hr.
    destruct (ch_recv (fc_chan k)); [|done]. destruct (ch_closed (fc_chan k)); [done|].
    destruct (fc_canceled k); [done|]. split_and!; try done. by destruct (fc_close k).
  - right. right. destruct (deliver_ready k l b Hok Hp) as [?|[c Hc]]; [left; by exists l|right].
    eexists. by apply (own_deliver k l b c).
  - assert (Done k = true) as Hd by (unfold Done; by rewrite Hp).
    destruct (fc_close k) eqn:Hc; [left; right; split; [done|by left]| | | | |left; right; split; [done|by right]];
      right; right; right.
    + eexists. by apply own_wait.
    + destruct (Close_ok _ (ok_chan _ Hok)) as [ch Hch]. eexists. by apply (own_channel k ch).
    + eexists. by apply own_peer.
    + eexists. by apply own_session.
  - right. left. by exists r.
Qed.

(** The pump's position, the messages in its queue, and the calls left of [Close]. *)
Definition own_work (k : conn) : nat :=
  match fc_pump k with PRecv => 1 | PDeliver _ _ => 2 | _ => 0 end + 2 * length (ch_recv (fc_chan k)) +
  match fc_close k with CNone | CWait => 4 | CChannel => 3 | CPeer => 2 | CSession => 1 | CReturned => 0 end.

Lemma own_step_work k k' : conn_ok k → own_step k k' → (own_work k' < own_work k)%nat.
Proof.
  intros Hok Hs. unfold own_work. destruct Hs as [r ch Hp Hin|l b c Hp Hin|Hc Hd|ch Hc Hch|Hc|Hc]; cbn.
  - destruct (Recv_chan _ _ _ _ Hin) as (_ & _ & Hr). rewrite Hp. unfold after_Recv. destruct r as [raw|err|s]; [|cbn|done].
    + rewrite Hr. destruct (unmarshal raw) as [f|]; [|cbn; rewrite Hp; lia].
      destruct (dispatch_start f _) as [p c]. cbn. destruct p; lia.
    + rewrite Hr. lia.
  - rewrite Hp. lia.
  - rewrite Hc. lia.
  - rewrite Hc. destruct (Close_closes _ _ (ok_chan _ Hok) Hch) as (_ & _ & ->). lia.
  - rewrite Hc. lia.
  - rewrite Hc. lia.
Qed.

Lemma own_sn k : conn_ok k → sn own_step k.
Proof.
  remember (own_work k) as n eqn:En. revert k En. induction (lt_wf n) as [n _ IH]. intros k -> Hok.
  constructor. intros k' Hs. eapply IH; [by apply own_step_work|done|by eapply own_step_ok].
Qed.

(** ** The pump that is stuck *)

Lemma stuck_no_step l k k' : conn_ok k → stuck l k → ¬ own_step k k'.
Proof.
  intros Hok (b & cs & Hp & Hcs & Hfull & Hend) Hs.
  assert (Done k = false) as Hd by (unfold Done; by rewrite Hp).
  assert (past_wait (fc_close k) = false) as Hw.
  { destruct (past_wait (fc_close k)) eqn:E; [|done]. rewrite (ok_wait _ Hok E) in Hd. done. }
  destruct Hs as [r ch Hp'|l' b' c Hp' Hin|Hc Hd'|ch Hc|Hc|Hc]; try congruence; try (by rewrite Hc in Hw).
  rewrite Hp in Hp'. injection Hp' as <- <-. unfold deliver in Hin. rewrite Hcs, Hend in Hin.
  rewrite decide_False in Hin by lia. by apply elem_of_nil in Hin.
Qed.

Lemma stuck_step l k k' : conn_ok k → stuck l k → step (λ l', l' ≠ l) k k' → stuck l k'.
Proof.
  intros Hok Hst [Hs|Hs]; [by destruct (stuck_no_step l k k' Hok Hst)|].
  destruct Hst as (b & cs & Hp & Hcs & Hfull & Hend). exists b, cs.
  destruct Hs as [c Ha|Hc|msg ch Hm|ch Ho| |payload evs ch r Hsend]; cbn; try done.
  split_and!; try done. eapply app_step_frozen; [apply (ok_client _ Hok)| |exact Ha|exact Hcs]. auto.
Qed.

Lemma stuck_steps l k k' : rtc (step (λ l', l' ≠ l)) k k' → conn_ok k → stuck l k → conn_ok k' ∧ stuck l k'.
Proof.
  induction 1 as [|k1 k2 k3 Hs _ IH]; [done|]. intros Hok Hst. apply IH; [|by eapply stuck_step].
  destruct Hs; [by eapply own_step_ok|by eapply env_step_ok].
Qed.

Lemma stuck_close l k : conn_ok k → stuck l k → Done k = false ∧ past_wait (fc_close k) = false ∧ fc_events k = [].
Proof.
  intros Hok (b & cs & Hp & _). assert (Done k = false) as Hd by (unfold Done; by rewrite Hp). split; [done|].
  assert (past_wait (fc_close k) = false) as Hw.
  { destruct (past_wait (fc_close k)) eqn:E; [|done]. rewrite (ok_wait _ Hok E) in Hd. done. }
  split; [done|]. rewrite (ok_events _ Hok). by destruct (fc_close k).
Qed.

(** ** How the pump ends *)

Lemma own_step_error k k' : own_step k k' → Err k ≠ None ∨ Done k = false → Err k' ≠ None ∨ Done k' = false.
Proof.
  intros Hs Hk. destruct Hs as [r ch Hp Hin|l b c Hp Hin|Hc Hd|ch Hc Hch|Hc|Hc]; try done; [|by right].
  apply Channel.Recv_inv in Hin. unfold after_Recv. destruct r as [raw|err|s]; [|left|by right].
  - destruct (unmarshal raw) as [f|]; [|done]. destruct (dispatch_start f _) as [p c] eqn:Ed. right.
    unfold Done. cbn. unfold dispatch_start in Ed. repeat (case_match; simplify_eq/=; try done).
  - cbn. destruct Hin as [(? & ? & _ & ? & _)|[(_ & [= ->] & _)|(e & He & [= ->] & _)]]; [done| |].
    + done.
    + unfold pump_ctx in He. cbn in He. destruct (fc_canceled k); [|done]. by injection He as <-.
Qed.

Lemma Done_step on k k' : step on k k' → Done k = true → Done k' = true ∧ Err k' = Err k.
Proof.
  unfold Done, Err. intros [Hs|Hs] Hd; destruct Hs; cbn in *; try done; by rewrite ?H, ?Hp in Hd.
Qed.

(** ** Properties *)

(** [C5] Closing a connection.  [Close] closes the channel, the peer and the
    session, each once and in this order, and not before the pump has returned;
    it returns when all are closed.  The pump and [Close] take finitely many
    steps by themselves; they come to rest when [Close] has returned, or was not
    called and the pump waits for a message or has returned too; or else when
    the pump holds a message for a stream that the application has left with a
    full queue.  In that case, as long as the application does not receive from
    this stream, whatever else it does, whatever the DataChannel does and
    whether [Close] is called before or after: the pump does not see that it is
    canceled nor that the channel is closed, [Done] is never closed, and
    [Close] never returns and closes nothing. *)
Theorem conn_close dc k (Hr : reachable dc k) :
  fc_events k = take (calls_made (fc_close k)) [Release RChannel; Release RPeer; Release RSession] ∧
  (past_wait (fc_close k) = true → Done k = true) ∧
  (fc_close k = CReturned → ch_closed (fc_chan k) = true) ∧
  sn own_step k ∧
  (∀ k', rtc own_step k k' → idle k' ∨ crashed k' ∨ (∃ l, stuck l k') ∨ ∃ k'', own_step k' k'') ∧
  (∀ l k', stuck l k → rtc (step (λ l', l' ≠ l)) k k' →
     Done k' = false ∧ fc_close k' ≠ CReturned ∧ fc_events k' = [] ∧ ∀ k'', ¬ own_step k' k'').
Proof.
  pose proof (facade_reachable_ok dc k Hr) as Hok. split_and!.
  - apply Hok.
  - apply Hok.
  - intros Hc. apply (ok_closed _ Hok). rewrite Hc. cbn. lia.
  - by apply own_sn.
  - intros k' Hs. apply own_rest. apply (steps_ok (λ _, True) k k'); [|done].
    eapply rtc_subrel; [|exact Hs]. by left.
  - intros l k' Hst Hs. destruct (stuck_steps l k k' Hs Hok Hst) as [Hok' Hst'].
    destruct (stuck_close l k' Hok' Hst') as (Hd & Hw & He). split_and!; try done.
    + intros Hc. by rewrite Hc in Hw.
    + intros k''. by apply (stuck_no_step l).
Qed.

(** [Err] is nil before [Done] is closed and never after it, and stays what it
    is: [Attach] returns [context.Canceled] or the channel's error, which is
    wrapped, so that its tests for a clean end never hold. *)
Theorem conn_err dc k (Hr : reachable dc k) :
  (Done k = false → Err k = None) ∧ (Done k = true → Err k ≠ None) ∧
  ∀ on k', Done k = true → step on k k' → Done k' = true ∧ Err k' = Err k.
Proof.
  split_and!.
  - unfold Done, Err. by destruct (fc_pump k).
  - enough (Err k ≠ None ∨ Done k = false) as [?|Hd] by (intros; congruence || done).
    refine (rtc_ind_r (R:=step (λ _, True)) (λ k, Err k ≠ None ∨ Done k = false) (start dc) _ _ k Hr); [by right|].
    intros k1 k2 _ [Hs|Hs] IH; [by eapply own_step_error|]. by destruct Hs.
  - intros on k' Hd Hs. by eapply Done_step.
Qed.

(** ** An example: a stream with messages that nobody receives *)

(** A message arrives, and the pump takes it as far as it can. *)
Definition turn (msg : bytes) (k : conn) : option conn :=
  match fc_pump k, Channel.onMessage (fc_chan k) msg with
  | PRecv, ch :: _ =>
      match Channel.Recv ch (pump_ctx k) with
      | (r, ch') :: _ =>
          let k := after_Recv r (with_chan ch' (with_chan ch k)) in
          match fc_pump k with
          | PDeliver l b => match deliver l b (fc_client k) with c :: _ => Some (with_client c PRecv k) | [] => Some k end
          | _ => Some k
          end
      | [] => None
      end
  | _, _ => None
  end.

Lemma turn_reachable dc msg k k' : reachable dc k → turn msg k = Some k' → reachable dc k'.
Proof.
  intros Hr. unfold turn. destruct (fc_pump k) eqn:Hp; try done.
  destruct (Channel.onMessage (fc_chan k) msg) as [|ch rest] eqn:Em; [done|].
  destruct (Channel.Recv ch (pump_ctx k)) as [|[r ch'] rest'] eqn:Er; [done|]. cbn zeta.
  assert (reachable dc (after_Recv r (with_chan ch' (with_chan ch k)))) as H1.
  { eapply rtc_r; [eapply rtc_r; [exact Hr|]|].
    - right. apply (env_message _ _ msg ch). rewrite Em. by apply list_elem_of_here.
    - left. apply (own_recv (with_chan ch k)); [done|]. cbn. unfold pump_ctx in *. cbn. rewrite Er. by apply list_elem_of_here. }
  destruct (fc_pump (after_Recv r _)) as [|l b|e|x] eqn:Hp1; try (by intros [= <-]).
  destruct (deliver l b _) as [|c cs] eqn:Ed; intros [= <-]; [done|].
  eapply rtc_r; [exact H1|]. left. apply (own_deliver _ l b); [done|]. rewrite Ed. by apply list_elem_of_here.
Qed.

Fixpoint turns (msg : bytes) (n : nat) (k : conn) : option conn :=
  match n with
  | O => Some k
  | S n => match turn msg k with Some k => turns msg n k | None => None end
  end.

Lemma turns_reachable dc msg n k k' : reachable dc k → turns msg n k = Some k' → reachable dc k'.
Proof.
  revert k. induction n as [|n IH]; intros k Hr; cbn [turns]; [by intros [= <-]|].
  destruct (turn msg k) as [k1|] eqn:E; [|done]. apply IH. by eapply turn_reachable.
Qed.
End conn.

#[local] Instance unread_codec : Codec ResponseFrame := table_codec [resp_data 3 [x00]].

Definition no_amount (_ : unit) : Z := 0.
Definition no_send (d : unit) (_ : bytes) : option error * unit := (None, d).
Definition no_close (d : unit) : unit := d.

(** One call; seventeen messages of its stream arrive; [Close] is called. *)
Definition opened_stream : @conn unit := with_client (client_after 1) PRecv (start tt).

Definition abandoned : option (@conn unit) := turns [x00] 17 opened_stream.

Lemma opened_reachable : reachable no_amount no_send no_close tt opened_stream.
Proof.
  apply rtc_once. right.
  apply (env_app no_amount no_send (λ _, True) (start tt) (client_after 1)). cbn [client_after].
  destruct (InvokeServerStreaming _ _ _ _ _) as [[s st] c] eqn:H. by eapply step_server_streaming.
Qed.

Lemma conn_close_witness :
  ∃ k, abandoned = Some k ∧ reachable no_amount no_send no_close tt (call_Close k) ∧
    ∀ k', rtc (step no_amount no_send no_close (λ l', l' ≠ 0%nat)) (call_Close k) k' → Done k' = false ∧ fc_close k' ≠ CReturned.
Proof.
  destruct abandoned as [k|] eqn:E; [|vm_compute in E; discriminate]. exists k. split; [reflexivity|].
  assert (reachable no_amount no_send no_close tt k) as Hk by (eapply turns_reachable; [apply opened_reachable|exact E]).
  assert (fc_close k = CNone ∧ stuck 0 k) as [Hn Hst].
  { unfold abandoned in E. vm_compute in E. injection E as <-. split; [reflexivity|].
    eexists _, _. split; [reflexivity|]. split; [vm_compute; reflexivity|]. split; [cbn; unfold resp_cap; lia|reflexivity]. }
  assert (reachable no_amount no_send no_close tt (call_Close k)) as Hc.
  { eapply rtc_r; [exact Hk|]. right. by apply env_close. }
  split; [exact Hc|]. intros k' Hs.
  destruct (conn_close no_amount no_send no_close tt (call_Close k) Hc) as (_ & _ & _ & _ & _ & H).
  assert (stuck 0 (call_Close k)) as Hst' by exact Hst. destruct (H 0%nat k' Hst' Hs) as (H1 & H2 & _). split; assumption.
Defined.
