(* ===== verification/EchoServer.v ===== *)
(** * The main loop of the echo server (examples/echo-server-go/main.go)

    [main] listens through the builder of the facade, accepts in a loop of its
    own instead of [Listener.Serve], so that a client that fails to connect does
    not end the server, and serves each connection in a goroutine.  The handlers
    are in [Echo]; what [Accept] opens and closes is [accept] of [Facade]. *)

From Stdlib Require Import Strings.Byte ZArith Lia.
From stdpp Require Import numbers strings gmap fin_maps list relations.
From S2P Require Import Prelude SignalWire Base58 Target Facade.
Open Scope Z_scope.

(** [main] before the test of the context, in [Accept], before the deferred
    [ln.Close], at its end. *)
Inductive phase : Type := MLoop | MAccepting | MClosing | MExited.

#[export] Instance phase_eq_dec : EqDecision phase.
Proof. solve_decision. Defined.

Section main.
Context {UI SI Session : Type}.

(** The listener that the flags describe; an error makes the process exit with 1. *)
Definition echo_listen (signalAddr service : bytes) (r : gmap bytes (@Resolver Session + error))
    : listenConfig UI SI + error :=
  let '(t, opts) := ListenBuilder_Listen
    [SignalAt signalAddr; SetService service; Over SchemeWS; Apply [@WithNegotiationTimeout unit UI SI (60 * 1000000000)]] in
  let cfg := listen_config t opts in
  match resolveProbe r (lc_target cfg) with inl _ => inl cfg | inr err => inr err end.

Record server : Type := { es_ctx : bool; es_main : phase; es_ln : listener }.

Definition server_start : server := {| es_ctx := false; es_main := MLoop; es_ln := new_listener |}.

Definition with_main (p : phase) (k : server) : server := {| es_ctx := es_ctx k; es_main := p; es_ln := es_ln k |}.

Definition canceled (k : server) : server := {| es_ctx := true; es_main := es_main k; es_ln := es_ln k |}.

(** [Accept] has tracked the connection, and the loop has started its goroutine. *)
Definition accepted (sc : ServerConn) (l : listener) : listener :=
  {| ln_conns := track (ln_next l) (sc_peerID sc) (ln_conns l); ln_closed := ln_closed l;
     ln_heap := <[ln_next l := sc]> (ln_heap l); ln_accepting := ln_accepting l;
     ln_serving := {[ln_next l]} ∪ ln_serving l; ln_next := S (ln_next l) |}.

(** The goroutine of a connection: [Serve] has returned, and the deferred
    [c.Close] runs.  Nothing is removed from the listener's table. *)
Definition served (c : nat) (l : listener) : listener :=
  {| ln_conns := ln_conns l; ln_closed := ln_closed l; ln_heap := close_conn (ln_heap l) c;
     ln_accepting := ln_accepting l; ln_serving := ln_serving l ∖ {[c]}; ln_next := ln_next l |}.

Definition Listener_Close (l : listener) : listener :=
  if ln_closed l then l
  else {| ln_conns := None; ln_closed := true;
          ln_heap := foldl close_conn (ln_heap l) (snd <$> map_to_list (default ∅ (ln_conns l)));
          ln_accepting := ln_accepting l; ln_serving := ln_serving l; ln_next := ln_next l |}.

(** A uuid that no earlier [Accept] has drawn. *)
Definition fresh (id : bytes) (l : listener) : Prop := ∀ c sc, ln_heap l !! c = Some sc → sc_peerID sc ≠ id.

(** The steps of [main]. *)
Inductive main_step (cfg : listenConfig UI SI) (k : server) : server → Prop :=
  | m_break : es_main k = MLoop → es_ctx k = true → main_step cfg k (with_main MClosing k)
  | m_enter : es_main k = MLoop → es_ctx k = false → main_step cfg k (with_main MAccepting k)
  | m_accept uuid (e : @env Session) sc evs :
      es_main k = MAccepting → ln_closed (es_ln k) = false →
      accept cfg uuid e = (inl sc, evs) → fresh (sc_peerID sc) (es_ln k) →
      main_step cfg k {| es_ctx := es_ctx k; es_main := MLoop; es_ln := accepted sc (es_ln k) |}
  | m_accept_error uuid (e : @env Session) err evs :
      es_main k = MAccepting → ln_closed (es_ln k) = false → accept cfg uuid e = (inr err, evs) →
      main_step cfg k (with_main (if es_ctx k then MClosing else MLoop) k)
  | m_accept_closed :
      es_main k = MAccepting → ln_closed (es_ln k) = true →
      main_step cfg k (with_main (if es_ctx k then MClosing else MLoop) k)
  | m_close :
      es_main k = MClosing →
      main_step cfg k {| es_ctx := es_ctx k; es_main := MExited; es_ln := Listener_Close (es_ln k) |}.

(** The signal, and a connection whose [Serve] returns; nothing happens after the
    end of [main]. *)
Inductive server_step (cfg : listenConfig UI SI) (k : server) : server → Prop :=
  | e_main k' : main_step cfg k k' → server_step cfg k k'
  | e_signal : es_main k ≠ MExited → server_step cfg k (canceled k)
  | e_served c :
      es_main k ≠ MExited → c ∈ ln_serving (es_ln k) →
      server_step cfg k {| es_ctx := es_ctx k; es_main := es_main k; es_ln := served c (es_ln k) |}.

Definition server_reachable (cfg : listenConfig UI SI) (k : server) : Prop := rtc (server_step cfg) server_start k.

(** ** Lemmas *)

Lemma accept_open (cfg : listenConfig UI SI) uuid (e : @env Session) sc evs : accept cfg uuid e = (inl sc, evs) → sc_once sc = false.
Proof. unfold accept. intros H. by repeat (case_match; simplify_eq/=). Qed.

Lemma close_conn_lookup heap c c' sc :
  close_conn heap c !! c' = Some sc →
  ∃ sc0, heap !! c' = Some sc0 ∧ sc_peerID sc = sc_peerID sc0 ∧ (sc_once sc0 = true → sc_once sc = true) ∧ (c = c' → sc_once sc = true).
Proof.
  unfold close_conn. intros [(-> & sc0 & H0 & ->)|(Hne & H0)]%lookup_alter_Some.
  - exists sc0. unfold ServerConn_Close. by destruct (sc_once sc0) eqn:E; cbn; rewrite ?E.
  - exists sc. by split_and!.
Qed.

Lemma close_conns_lookup cs heap c sc :
  foldl close_conn heap cs !! c = Some sc →
  ∃ sc0, heap !! c = Some sc0 ∧ sc_peerID sc = sc_peerID sc0 ∧ (sc_once sc0 = true ∨ c ∈ cs → sc_once sc = true).
Proof.
  revert heap. induction cs as [|c0 cs IH]; intros heap; cbn.
  { intros H. exists sc. split; [done|]. split; [done|]. by intros [?|?%elem_of_nil]. }
  intros (sc1 & H1 & E1 & O1)%IH. destruct (close_conn_lookup _ _ _ _ H1) as (sc0 & H0 & E0 & O0 & O0').
  exists sc0. split; [done|]. split; [congruence|]. intros [?|[->|?]%elem_of_cons]; apply O1; auto.
Qed.

(** The table has every connection that was accepted, under its id. *)
Record server_ok (k : server) : Prop := {
  sv_ctx : es_main k = MClosing ∨ es_main k = MExited → es_ctx k = true;
  sv_open c sc : ln_heap (es_ln k) !! c = Some sc → es_main k ≠ MExited → c ∈ ln_serving (es_ln k) ∨ sc_once sc = true;
  sv_heap c : is_Some (ln_heap (es_ln k) !! c) → (c < ln_next (es_ln k))%nat;
  sv_closed : ln_closed (es_ln k) = bool_decide (es_main k = MExited);
  sv_exited c sc : es_main k = MExited → ln_heap (es_ln k) !! c = Some sc → sc_once sc = true;
  sv_table : es_main k ≠ MExited → ∃ conns, ln_conns (es_ln k) = Some conns ∧ size conns = ln_next (es_ln k) ∧
    (∀ id, is_Some (conns !! id) → ¬ fresh id (es_ln k)) ∧
    ∀ c sc, ln_heap (es_ln k) !! c = Some sc → conns !! sc_peerID sc = Some c
}.

Lemma server_ok_start : server_ok server_start.
Proof.
  split; cbn; try done; [by intros []|intros c; rewrite lookup_empty; by intros []|]. intros _. exists ∅.
  split_and!; [done..| |done]. intros id. rewrite lookup_empty. by intros [].
Qed.

Lemma server_ok_main p k :
  server_ok k → es_main k ≠ MExited → p ≠ MExited → (p = MClosing → es_ctx k = true) → server_ok (with_main p k).
Proof.
  intros [H1 H2 H3 H4 H5 H6] Hk Hp Hc. rewrite (bool_decide_eq_false_2 _ Hk) in H4.
  split; cbn; try done; [by intros [?|?]; auto|auto|by rewrite bool_decide_eq_false_2|auto].
Qed.

Lemma server_ok_accepted sc k :
  server_ok k → es_main k = MAccepting → sc_once sc = false → fresh (sc_peerID sc) (es_ln k) →
  server_ok {| es_ctx := es_ctx k; es_main := MLoop; es_ln := accepted sc (es_ln k) |}.
Proof.
  intros [H1 H2 H3 H4 H5 H6] Hm Ho Hf. rewrite Hm in *.
  destruct (H6 ltac:(done)) as (conns & Hconns & Hsize & Hids & Htab).
  assert (ln_heap (es_ln k) !! ln_next (es_ln k) = None) as Hnext.
  { destruct (ln_heap (es_ln k) !! ln_next (es_ln k)) as [x|] eqn:E; [|done]. specialize (H3 (ln_next (es_ln k)) ltac:(by eexists)). lia. }
  assert (conns !! sc_peerID sc = None) as Hnew.
  { destruct (conns !! sc_peerID sc) as [x|] eqn:E; [|done]. by destruct (Hids (sc_peerID sc) ltac:(by eexists)). }
  split; cbn; try done.
  - by intros [].
  - intros c sc' [[<- <-]|[Hne Hc]]%lookup_insert_Some _; [left; set_solver|]. destruct (H2 c sc' Hc); [done|left; set_solver|by right].
  - intros c [->|[_ Hc%H3]]%lookup_insert_is_Some; lia.
  - intros _. rewrite Hconns. exists (<[sc_peerID sc := ln_next (es_ln k)]> conns). split_and!; [done| | |].
    + by rewrite map_size_insert_None, Hsize.
    + intros id Hid Hfr. apply lookup_insert_is_Some in Hid as [<-|[Hne Hid]].
      * apply (Hfr (ln_next (es_ln k)) sc); [|done]. cbn. by rewrite lookup_insert, decide_True.
      * apply (Hids id Hid). intros c sc' Hc. apply (Hfr c sc'). cbn.
        rewrite lookup_insert_ne; [done|]. intros <-. by rewrite Hnext in Hc.
    + intros c sc' [[<- <-]|[Hne Hc]]%lookup_insert_Some; [by rewrite lookup_insert, decide_True|].
      rewrite lookup_insert_ne; [by apply Htab|]. intros E. by apply (Hf c sc').
Qed.

Lemma server_ok_served c k :
  server_ok k → es_main k ≠ MExited →
  server_ok {| es_ctx := es_ctx k; es_main := es_main k; es_ln := served c (es_ln k) |}.
Proof.
  intros [H1 H2 H3 H4 H5 H6] Hm.
  destruct (H6 Hm) as (conns & Hconns & Hsize & Hids & Htab). split; cbn; try done.
  - intros c' sc' (sc0 & H0 & _ & Ho & Ho')%close_conn_lookup _.
    destruct (decide (c = c')) as [->|Hne]; [by right; apply Ho'|].
    destruct (H2 c' sc0 H0 Hm); [left; set_solver|right; by apply Ho].
  - intros c' Hc. apply H3. unfold close_conn in Hc. by apply lookup_alter_is_Some in Hc.
  - intros _. exists conns. split_and!; [done..| |].
    + intros id Hid Hf. apply (Hids id Hid). intros c' sc' Hc E.
      destruct (ln_heap (es_ln k) !! c') as [sc0|] eqn:E0; [|done]. injection Hc as <-.
      assert (is_Some (close_conn (ln_heap (es_ln k)) c !! c')) as [sc1 Hsc1] by (unfold close_conn; apply lookup_alter_is_Some; by eexists).
      apply (Hf c' sc1 Hsc1). destruct (close_conn_lookup _ _ _ _ Hsc1) as (sc2 & Hsc2 & E2 & _). congruence.
    + intros c' sc' (sc0 & H0 & -> & _)%close_conn_lookup. by apply Htab.
Qed.

Lemma server_ok_close k :
  server_ok k → es_main k = MClosing →
  server_ok {| es_ctx := es_ctx k; es_main := MExited; es_ln := Listener_Close (es_ln k) |}.
Proof.
  intros [H1 H2 H3 H4 H5 H6] Hm. rewrite Hm in *. cbn in H4.
  destruct (H6 ltac:(done)) as (conns & Hconns & _ & _ & Htab). unfold Listener_Close. rewrite H4, Hconns. cbn.
  split; cbn; try done.
  - intros _. apply H1. by left.
  - intros c Hc. apply H3. by apply close_conns_heap in Hc.
  - intros c sc _ (sc0 & H0 & _ & Ho)%close_conns_lookup. apply Ho. right.
    apply list_elem_of_fmap. exists (sc_peerID sc0, c). split; [done|]. apply elem_of_map_to_list. by apply Htab.
Qed.

Lemma server_step_ok cfg k k' : server_ok k → server_step cfg k k' → server_ok k'.
Proof.
  intros Hok [k1 Hs|Hm|c Hm Hc].
  - destruct Hs as [Hm Hc|Hm Hc|uuid e sc evs Hm _ Ha Hf|uuid e err evs Hm _ Ha|Hm _|Hm].
    + apply server_ok_main; try done. by rewrite Hm.
    + apply server_ok_main; try done. by rewrite Hm.
    + apply server_ok_accepted; try done. by eapply accept_open.
    + destruct (es_ctx k) eqn:E; apply server_ok_main; try done; by rewrite Hm.
    + destruct (es_ctx k) eqn:E; apply server_ok_main; try done; by rewrite Hm.
    + by apply server_ok_close.
  - by destruct Hok; split.
  - by apply server_ok_served.
Qed.

Lemma server_reachable_ok cfg k : server_reachable cfg k → server_ok k.
Proof.
  revert k. apply (rtc_ind_r server_ok); [apply server_ok_start|]. intros k k' _ Hs Hk. by eapply server_step_ok.
Qed.

(** The steps that [main] has left once it has been told to stop. *)
Definition main_work (p : phase) : nat := match p with MAccepting => 3 | MLoop => 2 | MClosing => 1 | MExited => 0 end.

Lemma main_step_work cfg k k' :
  es_ctx k = true → main_step cfg k k' → es_ctx k' = true ∧ (main_work (es_main k') < main_work (es_main k))%nat.
Proof.
  intros Hc [Hm|Hm Hc'|uuid e sc evs Hm|uuid e err evs Hm|Hm|Hm]; cbn; rewrite ?Hm, ?Hc; cbn; try (split; [done|lia]). congruence.
Qed.

Lemma main_steps_work cfg n k k' :
  nsteps (main_step cfg) n k k' → es_ctx k = true → (n + main_work (es_main k') ≤ main_work (es_main k))%nat.
Proof.
  induction 1 as [|n k k1 k' Hs _ IH]; intros Hc; [lia|]. destruct (main_step_work cfg k k1 Hc Hs) as [Hc1 Hw].
  specialize (IH Hc1). lia.
Qed.

(** ** Properties *)

(** [C40] The main loop of the echo server.  Until it is told to stop, it tests its
    context or accepts, whatever [Accept] returns and however often it fails.
    Told to stop, it is through after at most three steps, unless [Accept] does
    not return.  At any time every connection that was accepted is being served
    or has been closed, and when [main] has ended, all have been closed.  But
    the listener's table never forgets a connection: until the end it has as
    many entries as clients have ever been accepted. *)
Theorem accept_loop cfg k (Hr : server_reachable cfg k) :
  (es_ctx k = false → es_main k = MLoop ∨ es_main k = MAccepting) ∧
  (es_ctx k = true → ∀ n k', nsteps (main_step cfg) n k k' →
     (n ≤ 3)%nat ∧ (es_main k' = MExited ∨ es_main k' = MAccepting ∨ ∃ k'', main_step cfg k' k'')) ∧
  (∀ c sc, ln_heap (es_ln k) !! c = Some sc →
     if decide (es_main k = MExited) then sc_once sc = true else c ∈ ln_serving (es_ln k) ∨ sc_once sc = true) ∧
  (es_main k ≠ MExited → ∃ conns, ln_conns (es_ln k) = Some conns ∧ size conns = ln_next (es_ln k)).
Proof.
  pose proof (server_reachable_ok cfg k Hr) as Hok. split_and!.
  - intros Hc. destruct (es_main k) eqn:Hm; [by left|by right| |];
      (assert (es_ctx k = true) by (apply (sv_ctx _ Hok); rewrite Hm; tauto); congruence).
  - intros Hc n k' Hs. pose proof (main_steps_work cfg n k k' Hs Hc) as Hw.
    assert (main_work (es_main k) ≤ 3)%nat by (destruct (es_main k); cbn; lia). split; [lia|].
    assert (es_ctx k' = true) as Hc'.
    { clear -Hs Hc. induction Hs as [|n k k1 k' H1 _ IH]; [done|]. apply IH. by apply (main_step_work cfg k). }
    destruct (es_main k') eqn:Hm; [right; right|by right; left|right; right|by left]; eexists; [by apply m_break|by apply m_close].
  - intros c sc Hc. case_decide as Hm; [by eapply (sv_exited _ Hok)|by eapply (sv_open _ Hok)].
  - intros Hm. destruct (sv_table _ Hok Hm) as (conns & ? & ? & _). by exists conns.
Qed.
End main.

(** ** An example: a client that has come and gone *)

Definition ws_factory : gmap bytes (@Resolver unit + error) :=
  {[SchemeWS := inl (ws_Resolve (go "unused") (λ _ _ _ _, inl tt))]}.

Definition demo_env : @env unit :=
  {| e_resolve := resolve ws_factory; e_peerNew := λ _ _, None; e_Dial := None; e_Accept := None |}.

Definition demo_cfg : listenConfig unit unit + error := echo_listen (go "ws://localhost:8443") (go "echo.Echo") ws_factory.

Definition demo_conn : ServerConn := {| sc_peerID := go "8f3c"; sc_once := false |}.

Definition come_and_gone : server :=
  {| es_ctx := false; es_main := MLoop; es_ln := served 0 (accepted demo_conn new_listener) |}.

Lemma accept_loop_witness :
  ∃ cfg, demo_cfg = inl cfg ∧ server_reachable (Session:=unit) cfg come_and_gone ∧
    (∃ sc, ln_heap (es_ln come_and_gone) !! 0%nat = Some sc ∧ sc_once sc = true) ∧
    ∃ conns, ln_conns (es_ln come_and_gone) = Some conns ∧ size conns = 1%nat.
Proof.
  destruct demo_cfg as [cfg|err] eqn:E; [|vm_compute in E; discriminate]. exists cfg. split; [reflexivity|].
  assert (server_reachable (Session:=unit) cfg come_and_gone) as Hr.
  { eapply rtc_l; [apply e_main, m_enter; reflexivity|].
    eapply rtc_l; [eapply e_main, (m_accept cfg _ (go "8f3c") demo_env demo_conn); [reflexivity|reflexivity| |]|].
    - vm_compute in E. injection E as <-. vm_compute. reflexivity.
    - intros c sc H. cbn in H. rewrite lookup_empty in H. discriminate.
    - eapply rtc_l; [apply (e_served cfg _ 0); [discriminate|cbn; set_solver]|]. apply rtc_refl. }
  split; [exact Hr|]. destruct (accept_loop cfg come_and_gone Hr) as (_ & _ & Hopen & Htab).
  split; [|apply Htab; discriminate].
  destruct (ln_heap (es_ln come_and_gone) !! 0%nat) as [sc|] eqn:Hsc; [|vm_compute in Hsc; discriminate].
  exists sc. split; [reflexivity|]. destruct (Hopen 0%nat sc Hsc) as [H|H]; [|exact H]. vm_compute in H. discriminate.
Defined.
