(* ===== verification/Observability.v ===== *)
(** * Interceptors for metrics, logs and traces (observability/)

    The three server and three client interceptors as functions over an explicit
    world: the collectors, the log, the recorded spans, the clock, and the store
    of header maps, which callers and interceptors share by reference.  A handler
    returns a status or panics.  Prometheus and slog are what the interceptors
    see of them; OpenTelemetry's spans and propagator are parameters. *)

From Stdlib Require Import Strings.Ascii ZArith Lia.
From stdpp Require Import numbers strings gmap fin_maps list pretty.
From S2P Require Import Prelude Status Messages.
Open Scope Z_scope.

(** ** observability/metrics.go: labels *)

(** [byte('0' + d)]. *)
Definition digit_char (d : Z) : Ascii.ascii := Ascii.ascii_of_N (Z.to_N ((48 + d) `mod` 256)).

(** The loop of [itoa]: [room] bytes are left in the buffer before [acc]; writing
    below its start panics. *)
Fixpoint itoa_loop (room : nat) (i : Z) (acc : string) : res (nat * string) :=
  if 0 <? i then
    match room with
    | O => Panic "index out of range [-1]"
    | S room => itoa_loop room (Z.quot i 10) (String (digit_char (Z.rem i 10)) acc)
    end
  else Ok (room, acc).

Definition itoa (i : Z) : res string :=
  if i =? 0 then Ok "0"%string
  else
    let neg := i <? 0 in
    let i := if neg then int32 (- i) else i in
    match itoa_loop 12 i "" with
    | Ok (room, acc) =>
        if neg then match room with O => Panic "index out of range [-1]" | S _ => Ok ("-" +:+ acc) end
        else Ok acc
    | Fail e => Fail e
    | Panic s => Panic s
    end.

Definition codeLabel (st : option Status) : res string :=
  match st with
  | None => Ok "0"%string
  | Some st => if Code st =? 0 then Ok "0"%string else itoa (Code st)
  end.

(** observability/logging.go *)
Definition statusCode (st : option Status) : Z := match st with None => 0 | Some st => Code st end.

(** ** The world *)

Section observability.
Context {SpanContext : Type} `{!EqDecision SpanContext}.

Record span : Type := {
  sp_name : string;
  sp_server : bool;                       (* the span kind: server or client *)
  sp_parent : option SpanContext;
  sp_context : SpanContext;
  sp_status : option (bool * string * option Z);     (* ok, description, status code attribute *)
  sp_ended : bool }.

(** One line of a log: the message, the method, the milliseconds and the code. *)
Record log_line : Type := { l_message : string; l_method : string; l_duration : Z; l_code : Z }.

Record world : Type := {
  RPCTotal : gmap (string * string) nat;
  RPCDuration : gmap string (list Z);
  StreamsInFlight : gmap string Z;
  w_log : list log_line;
  w_spans : list span;
  w_clock : Z;                            (* nanoseconds *)
  w_headers : gmap nat Metadata;          (* the header maps, by reference *)
  w_next : nat }.

(** The parts of a context that the interceptors read: the active span and the
    outgoing header map. *)
Record context : Type := { c_span : option SpanContext; c_header : option nat }.

(** What a call gives: a result, or [None] when it panics. *)
Definition act (A : Type) : Type := world → option A * world.

(** The parts of a stream: the header that came with the call, and the context
    that its handler gets from [Context]. *)
Record ServerStream : Type := { ss_incoming : option Metadata; ss_ctx : context }.

Definition WithContext (ctx : context) (s : ServerStream) : ServerStream :=
  {| ss_incoming := ss_incoming s; ss_ctx := ctx |}.

Abbreviation handler := (StreamHandler (Ctx:=context) (R:=act (option Status)) (Stream:=ServerStream)).
Abbreviation server_interceptor :=
  (StreamServerInterceptor (Ctx:=context) (R:=act (option Status)) (Stream:=ServerStream) (Info:=string)).
Abbreviation invoker := (UnaryInvoker (Ctx:=context) (Req:=bytes) (R:=act (bytes * option Status))).
Abbreviation client_interceptor :=
  (UnaryClientInterceptor (Ctx:=context) (Req:=bytes) (R:=act (bytes * option Status))).

Definition add_gauge (method : string) (d : Z) (w : world) : world :=
  {| RPCTotal := RPCTotal w; RPCDuration := RPCDuration w;
     StreamsInFlight := <[method := default 0 (StreamsInFlight w !! method) + d]> (StreamsInFlight w);
     w_log := w_log w; w_spans := w_spans w; w_clock := w_clock w; w_headers := w_headers w; w_next := w_next w |}.

Definition observe (method label : string) (elapsed : Z) (w : world) : world :=
  {| RPCTotal := <[(method, label) := S (default 0%nat (RPCTotal w !! (method, label)))]> (RPCTotal w);
     RPCDuration := <[method := default [] (RPCDuration w !! method) ++ [elapsed]]> (RPCDuration w);
     StreamsInFlight := StreamsInFlight w; w_log := w_log w; w_spans := w_spans w; w_clock := w_clock w;
     w_headers := w_headers w; w_next := w_next w |}.

Definition append_log (line : log_line) (w : world) : world :=
  {| RPCTotal := RPCTotal w; RPCDuration := RPCDuration w; StreamsInFlight := StreamsInFlight w;
     w_log := w_log w ++ [line]; w_spans := w_spans w; w_clock := w_clock w; w_headers := w_headers w;
     w_next := w_next w |}.

Definition set_spans (spans : list span) (w : world) : world :=
  {| RPCTotal := RPCTotal w; RPCDuration := RPCDuration w; StreamsInFlight := StreamsInFlight w;
     w_log := w_log w; w_spans := spans; w_clock := w_clock w; w_headers := w_headers w; w_next := w_next w |}.

Definition set_header (p : nat) (md : Metadata) (w : world) : world :=
  {| RPCTotal := RPCTotal w; RPCDuration := RPCDuration w; StreamsInFlight := StreamsInFlight w;
     w_log := w_log w; w_spans := w_spans w; w_clock := w_clock w; w_headers := <[p := md]> (w_headers w);
     w_next := Nat.max (S p) (w_next w) |}.

(** ** Metrics *)

(** [RPCTotal...Inc] and [RPCDuration...Observe] after the call. *)
Definition record_call {A} (method : string) (st : A → option Status) (start : Z) (r : option A) (w : world)
    : option A * world :=
  match r with
  | None => (None, w)
  | Some a =>
      match codeLabel (st a) with
      | Ok label => (Some a, observe method label (w_clock w - start) w)
      | _ => (None, w)
      end
  end.

(** [Dec] is deferred: it runs after a panic too. *)
Definition MetricsServerStream (m : bool) : server_interceptor := λ ctx s method next,
  if negb m then next ctx s
  else λ w,
    let w := add_gauge method 1 w in
    let '(r, w') := next ctx s w in
    let '(r, w') := record_call method id (w_clock w) r w' in
    (r, add_gauge method (-1) w').

Definition MetricsUnaryClient (m : bool) : client_interceptor := λ ctx method req next,
  if negb m then next ctx method req
  else λ w,
    let '(r, w') := next ctx method req w in
    record_call method snd (w_clock w) r w'.

(** ** Logs *)

Definition Milliseconds (d : Z) : Z := Z.quot d 1000000.

Definition log_call {A} (message method : string) (st : A → option Status) (start : Z) (r : option A) (w : world)
    : option A * world :=
  match r with
  | None => (None, w)
  | Some a =>
      (Some a, append_log {| l_message := message; l_method := method;
                             l_duration := Milliseconds (w_clock w - start); l_code := statusCode (st a) |} w)
  end.

Definition LogServerStream : server_interceptor := λ ctx s method next w,
  let '(r, w') := next ctx s w in log_call "rpc completed" method id (w_clock w) r w'.

Definition LogUnaryClient : client_interceptor := λ ctx method req next w,
  let '(r, w') := next ctx method req w in log_call "rpc invoked" method snd (w_clock w) r w'.

(** ** Traces (observability/tracing.go) *)

(** [tracer.Start]: the context of the [n]-th span under a parent;
    [propagator.Inject] and [propagator.Extract]. *)
Context (start_span : option SpanContext → nat → SpanContext).
Context (Inject : SpanContext → gmap string string) (Extract : (string → string) → option SpanContext).

Fixpoint shortMethod_loop (s : string) (method : string) : string :=
  match s with
  | EmptyString => method
  | String c s => if decide (c = "/"%char) then s else shortMethod_loop s method
  end.
Definition shortMethod (method : string) : string := shortMethod_loop method method.

(** [headerCarrier.Get]. *)
Definition carrier_Get (c : Metadata) (key : string) : string :=
  match c !! key with Some (v :: _) => v | _ => "" end.

Definition Start (name : string) (server : bool) (parent : option SpanContext) (w : world)
    : nat * SpanContext * world :=
  let n := length (w_spans w) in
  let sc := start_span parent n in
  (n, sc, set_spans (w_spans w ++ [{| sp_name := "peerrpc." +:+ shortMethod name; sp_server := server;
                                      sp_parent := parent; sp_context := sc; sp_status := None;
                                      sp_ended := false |}]) w).

(** [SetStatus] and [SetAttributes]. *)
Definition status_of (st : option Status) : bool * string * option Z :=
  match st with
  | Some st => if Code st =? 0 then (true, ""%string, None) else (false, Message st, Some (Code st))
  | None => (true, ""%string, None)
  end.

Definition set_status (st : bool * string * option Z) (s : span) : span :=
  {| sp_name := sp_name s; sp_server := sp_server s; sp_parent := sp_parent s; sp_context := sp_context s;
     sp_status := Some st; sp_ended := sp_ended s |}.
Definition set_ended (s : span) : span :=
  {| sp_name := sp_name s; sp_server := sp_server s; sp_parent := sp_parent s; sp_context := sp_context s;
     sp_status := sp_status s; sp_ended := true |}.

(** The end of both interceptors; [span.End] is deferred. *)
Definition finish_span {A} (n : nat) (st : A → option Status) (r : option A) (w : world) : option A * world :=
  let spans := match r with
               | Some a => alter (set_status (status_of (st a))) n (w_spans w)
               | None => w_spans w end in
  (r, set_spans (alter set_ended n spans) w).

(** The stream is handed on with its context replaced; nobody looks at it once
    the handler has returned. *)
Definition TraceServerStream : server_interceptor := λ ctx s method next w,
  let extracted := match Extract (carrier_Get (default ∅ (ss_incoming s))) with
                   | Some sc => Some sc
                   | None => c_span ctx end in
  let '(n, sc, w) := Start method true extracted w in
  let spanCtx := {| c_span := Some sc; c_header := c_header ctx |} in
  let '(r, w) := next spanCtx (WithContext spanCtx s) w in
  finish_span n id r w.

(** The loop over the carrier, in some order. *)
Definition TraceUnaryClient_in (order : list (string * string)) : client_interceptor := λ ctx method req next w,
  let '(n, sc, w) := Start method false (c_span ctx) w in
  let '(p, outgoing) := match c_header ctx with
                        | Some p => (p, default ∅ (w_headers w !! p))
                        | None => (w_next w, ∅) end in
  let w := set_header p (mergeMetadata outgoing ((λ kv, (kv.1, [kv.2])) <$> order)) w in
  let '(r, w) := next {| c_span := Some sc; c_header := Some p |} method req w in
  finish_span n snd r w.

Definition TraceUnaryClient : client_interceptor := λ ctx method req next w,
  let sc := start_span (c_span ctx) (length (w_spans w)) in
  TraceUnaryClient_in (map_to_list (Inject sc)) ctx method req next w.
End observability.

(** ** Lemmas: labels *)

Lemma digit_char_ok d : 0 ≤ d < 10 → digit_char d = pretty_N_char (Z.to_N d).
Proof.
  intros Hd. assert (d = 0 ∨ d = 1 ∨ d = 2 ∨ d = 3 ∨ d = 4 ∨ d = 5 ∨ d = 6 ∨ d = 7 ∨ d = 8 ∨ d = 9) as H by lia.
  by repeat destruct H as [->|H]; [..|subst d].
Qed.

Lemma itoa_loop_ok k room i acc :
  (k ≤ room)%nat → 0 ≤ i < 10 ^ Z.of_nat k →
  ∃ room', itoa_loop room i acc = Ok (room', pretty_N_go (Z.to_N i) acc) ∧ (room - k ≤ room')%nat.
Proof.
  revert room i acc. induction k as [|k IH]; intros room i acc Hk Hi.
  { assert (i = 0) as -> by (cbn in Hi; lia). exists room. split; [by destruct room|lia]. }
  destruct room as [|room]; [lia|]. cbn [itoa_loop]. destruct (Z.ltb_spec 0 i) as [Hpos|Hle].
  - rewrite Z.quot_div_nonneg, Z.rem_mod_nonneg by lia.
    pose proof (Z.mod_pos_bound i 10 ltac:(lia)).
    destruct (IH room (i / 10) (String (digit_char (i `mod` 10)) acc)) as (room' & -> & Hr); [lia| |].
    { rewrite Nat2Z.inj_succ, Z.pow_succ_r in Hi by lia.
      split; [apply Z.div_pos; lia|]. apply Z.div_lt_upper_bound; lia. }
    exists room'. split; [|lia]. rewrite (pretty_N_go_step (Z.to_N i)) by lia.
    by rewrite digit_char_ok, Z2N.inj_div, Z2N.inj_mod by lia.
  - assert (i = 0) as -> by lia. eexists. split; [done|lia].
Qed.

Lemma itoa_ok i : -two31 ≤ i < two31 → i ≠ -two31 → itoa i = Ok (pretty i).
Proof.
  intros Hi Hne. unfold itoa. destruct (Z.eqb_spec i 0) as [->|H0]; [done|].
  destruct (Z.ltb_spec i 0) as [Hneg|Hpos].
  - rewrite int32_id by (zconsts; lia).
    destruct (itoa_loop_ok 10 12 (- i) "") as (room & -> & Hr); [lia|change (10 ^ Z.of_nat 10) with 10000000000; zconsts; lia|].
    destruct room; [lia|]. destruct i as [|p|p]; [done|lia|]. done.
  - destruct (itoa_loop_ok 10 12 i "") as (room & -> & Hr); [lia|change (10 ^ Z.of_nat 10) with 10000000000; zconsts; lia|].
    destruct i as [|p|p]; [done| |lia]. done.
Qed.

Lemma pretty_N_go_ne_empty x t : t ≠ ""%string → pretty_N_go x t ≠ ""%string.
Proof.
  revert t. induction x as [x IH] using (well_founded_induction N.lt_wf_0); intros t Ht.
  destruct (decide (x = 0)%N) as [->|Hx]; [by rewrite pretty_N_go_0|].
  rewrite pretty_N_go_step by lia. apply IH; [|done]. apply N.div_lt; lia.
Qed.

(** A numeral is not a bare minus sign. *)
Lemma pretty_ne_minus (z : Z) : pretty z ≠ "-"%string.
Proof.
  destruct z as [|p|p]; [done|..].
  - change (pretty_N_go (N.pos p) "" ≠ "-" +:+ ""). by apply pretty_N_go_ne_dash.
  - change ("-" +:+ pretty_N_go (N.pos p) "" ≠ "-" +:+ ""). intros [= H].
    rewrite pretty_N_go_step in H by lia. by apply pretty_N_go_ne_empty in H.
Qed.

Lemma itoa_min : itoa (-two31) = Ok "-"%string.
Proof. reflexivity. Qed.

(** ** Properties *)

(** The status label of the metrics. For every code of an [int32] the helper
    returns without writing outside its buffer; the label is the decimal
    numeral of the code, so different codes have different labels; the single
    exception is the smallest [int32], whose negation overflows and whose label
    is a bare minus sign. *)
Theorem status_label st (Hst : -two31 ≤ Code st < two31) :
  codeLabel (Some st) = Ok (if decide (Code st = -two31) then "-"%string else pretty (Code st)) ∧
  (∀ st', -two31 ≤ Code st' < two31 → codeLabel (Some st') = codeLabel (Some st) → Code st' = Code st).
Proof.
  assert (∀ s, -two31 ≤ Code s < two31 →
    codeLabel (Some s) = Ok (if decide (Code s = -two31) then "-"%string else pretty (Code s))) as Hlab.
  { intros s Hs. unfold codeLabel. destruct (Z.eqb_spec (Code s) 0) as [->|H0].
    - by rewrite decide_False.
    - destruct (decide (Code s = -two31)) as [->|Hne]; [apply itoa_min|by apply itoa_ok]. }
  split; [by apply Hlab|]. intros st' Hst'. rewrite !Hlab by done. intros [= H].
  destruct (decide (Code st' = _)) as [->|], (decide (Code st = _)) as [->|]; try done.
  - by apply eq_sym, pretty_ne_minus in H.
  - by apply pretty_ne_minus in H.
  - by apply (inj pretty) in H.
Qed.

(** ** Properties: the server chain *)

Section properties.
Context {SpanContext : Type} `{!EqDecision SpanContext}.
Context (start_span : option SpanContext → nat → SpanContext).
Context (Inject : SpanContext → gmap string string) (Extract : (string → string) → option SpanContext).

Definition code_ok (st : option Status) : Prop := match st with Some st => -two31 ≤ Code st < two31 | None => True end.

Lemma codeLabel_total st : code_ok st → ∃ label, codeLabel st = Ok label.
Proof.
  destruct st as [st|]; [|by eexists]. intros H. destruct (status_label st H) as [Hl _]. eexists. exact Hl.
Qed.

(** The chain of the package documentation. *)
Definition server_chain (method : string) (h : StreamHandler) : StreamHandler :=
  chainStreamServer [LogServerStream; MetricsServerStream true; TraceServerStream start_span Extract] method h.

(** The parent of the server's span, and the world the handler starts in. *)
Definition server_parent (ctx : context) (s : ServerStream (SpanContext:=SpanContext)) : option SpanContext :=
  match Extract (carrier_Get (default ∅ (ss_incoming s))) with Some sc => Some sc | None => c_span ctx end.

Definition server_span (ctx : context) (s : ServerStream (SpanContext:=SpanContext)) (method : string) (n : nat) : span :=
  {| sp_name := "peerrpc." +:+ shortMethod method; sp_server := true; sp_parent := server_parent ctx s;
     sp_context := start_span (server_parent ctx s) n; sp_status := None; sp_ended := false |}.

Definition handler_context (ctx : context) (s : ServerStream (SpanContext:=SpanContext)) (w : world (SpanContext:=SpanContext))
    : context (SpanContext:=SpanContext) :=
  {| c_span := Some (start_span (server_parent ctx s) (length (w_spans w))); c_header := c_header ctx |}.

Definition handler_world (ctx : context) (s : ServerStream (SpanContext:=SpanContext)) (method : string) (w : world) : world :=
  set_spans (w_spans w ++ [server_span ctx s method (length (w_spans w))]) (add_gauge method 1 w).
End properties.

(** [C29] The interceptors installed on a server do not change what a handler
    does, and account for it exactly once. For every handler, returning or
    panicking: it runs once, under a span whose parent is the trace of the
    incoming header, and which the context of its stream holds too; its result is the chain's; the in-flight gauge is one
    higher while it runs and is taken back afterwards, also after a panic; a
    call that returns is counted once, under its method and status, and logged
    once; a panic is neither; and the span has ended, with the status. *)
Theorem server_interceptors {SpanContext} `{!EqDecision SpanContext}
    (start_span : option SpanContext → nat → SpanContext) Extract method
    (h : StreamHandler (Ctx:=context) (R:=act (option Status))) ctx s (w w2 : world) r
    (Hrun : let spanCtx := handler_context start_span Extract ctx s w in
            h spanCtx (WithContext spanCtx s) (handler_world start_span Extract ctx s method w) = (r, w2))
    (Hcode : ∀ st, r = Some st → code_ok st) :
  let n := length (w_spans w) in
  ∃ w', server_chain start_span Extract method h ctx s w = (r, w') ∧
    StreamsInFlight (handler_world start_span Extract ctx s method w) !! method =
      Some (default 0 (StreamsInFlight w !! method) + 1) ∧
    StreamsInFlight w' = <[method := default 0 (StreamsInFlight w2 !! method) - 1]> (StreamsInFlight w2) ∧
    match r with
    | Some st =>
        (∃ label, codeLabel st = Ok label ∧
           RPCTotal w' = <[(method, label) := S (default 0%nat (RPCTotal w2 !! (method, label)))]> (RPCTotal w2)) ∧
        w_log w' = w_log w2 ++ [{| l_message := "rpc completed"; l_method := method;
                                   l_duration := Milliseconds (w_clock w2 - w_clock w); l_code := statusCode st |}] ∧
        w_spans w' !! n = set_ended ∘ set_status (status_of st) <$> w_spans w2 !! n
    | None =>
        RPCTotal w' = RPCTotal w2 ∧ w_log w' = w_log w2 ∧ w_spans w' !! n = set_ended <$> w_spans w2 !! n
    end.
Proof.
  cbv zeta in *. unfold server_chain. rewrite chainStreamServer_foldr. cbn [foldr].
  unfold LogServerStream, MetricsServerStream, TraceServerStream, Start. cbn [negb].
  fold (server_parent Extract ctx s) (handler_world start_span Extract ctx s method w). cbn [w_spans add_gauge].
  change (set_spans _ (add_gauge method 1 w)) with (handler_world start_span Extract ctx s method w).
  fold (handler_context start_span Extract ctx s w). rewrite Hrun. unfold finish_span, record_call, log_call.
  destruct r as [st|].
  - destruct (codeLabel_total st (Hcode st eq_refl)) as [label Hl]. change (id st) with st. rewrite Hl.
    eexists. split; [done|]. cbn. rewrite lookup_insert, decide_True by done. split_and!; try done.
    + by exists label.
    + rewrite !list_lookup_alter_eq. by destruct (w_spans w2 !! _).
  - eexists. split; [done|]. cbn. rewrite lookup_insert, decide_True by done. split_and!; try done.
    by rewrite list_lookup_alter_eq.
Qed.

(** ** Properties: traces across a call *)

Section traces.
Context {SpanContext : Type} `{!EqDecision SpanContext}.
Context (start_span : option SpanContext → nat → SpanContext).
Context (Inject : SpanContext → gmap string string) (Extract : (string → string) → option SpanContext).

(** The header that the end of the client's chain puts on the wire, served by a
    traced handler at the other end: its status is the call's. *)
Definition wire_header (ctx : context (SpanContext:=SpanContext)) (w : world (SpanContext:=SpanContext)) : Metadata :=
  match c_header ctx with Some p => metadataFromKV (default ∅ (w_headers w !! p)) | None => ∅ end.

Definition served (sctx : context) (h : StreamHandler (Ctx:=context) (R:=act (option Status))) : UnaryInvoker :=
  λ ctx method (req : bytes) w,
    let '(r, w) := TraceServerStream start_span Extract sctx {| ss_incoming := Some (wire_header ctx w); ss_ctx := sctx |} method h w in
    ((λ st, ([] : bytes, st)) <$> r, w).

(** The map behind the context's outgoing header. *)
Definition header_of (ctx : context (SpanContext:=SpanContext)) (w : world (SpanContext:=SpanContext)) : Metadata :=
  match c_header ctx with Some p => default ∅ (w_headers w !! p) | None => ∅ end.

(** The carrier as a map of metadata. *)
Lemma carrier_map sc k :
  (list_to_map ((λ kv : string * string, (kv.1, [kv.2])) <$> map_to_list (Inject sc)) : Metadata) !! k =
  (λ v, [v]) <$> Inject sc !! k.
Proof.
  change (λ kv : string * string, (kv.1, [kv.2])) with (prod_map (@id string) (λ v : string, [v])).
  by rewrite list_to_map_fmap, list_to_map_to_list, lookup_fmap.
Qed.

Lemma carrier_fresh md sc k v :
  md !! k = None → Inject sc !! k = Some v →
  carrier_Get (mergeMetadata md ((λ kv, (kv.1, [kv.2])) <$> map_to_list (Inject sc))) k = v.
Proof.
  intros Hmd Hk. unfold carrier_Get, mergeMetadata.
  assert (∀ kvs : list (string * string), ((λ kv : string * string, (kv.1, [kv.2])) <$> kvs).*1 = kvs.*1) as Hfst.
  { intros kvs. rewrite <- list_fmap_compose. reflexivity. }
  rewrite foldl_merge_lookup by (rewrite Hfst; apply NoDup_fst_map_to_list).
  rewrite (elem_of_list_to_map_1 _ k [v]), Hmd; [done|rewrite Hfst; apply NoDup_fst_map_to_list|].
  apply list_elem_of_fmap. exists (k, v). split; [done|]. by apply elem_of_map_to_list.
Qed.

(** A key the caller already set keeps its first value. *)
Lemma carrier_stale md sc k x xs :
  md !! k = Some (x :: xs) →
  carrier_Get (mergeMetadata md ((λ kv, (kv.1, [kv.2])) <$> map_to_list (Inject sc))) k = x.
Proof.
  intros Hmd. unfold carrier_Get, mergeMetadata.
  rewrite foldl_merge_lookup by (rewrite <- list_fmap_compose; apply NoDup_fst_map_to_list).
  rewrite Hmd.
  by destruct ((list_to_map ((λ kv : string * string, (kv.1, [kv.2])) <$> map_to_list (Inject sc)) : Metadata) !! k).
Qed.

Definition client_span (ctx : context) (method : string) (n : nat) : span :=
  {| sp_name := "peerrpc." +:+ shortMethod method; sp_server := false; sp_parent := c_span ctx;
     sp_context := start_span (c_span ctx) n; sp_status := None; sp_ended := false |}.

(** The spans after both interceptors have started theirs. *)
Lemma trace_spans sctx h ctx method req w parent :
  Extract (carrier_Get (mergeMetadata (header_of ctx w)
    ((λ kv, (kv.1, [kv.2])) <$> map_to_list (Inject (start_span (c_span ctx) (length (w_spans w))))))) = Some parent →
  ∃ w1 md,
    w_spans w1 = w_spans w ++ [client_span ctx method (length (w_spans w));
      {| sp_name := "peerrpc." +:+ shortMethod method; sp_server := true; sp_parent := Some parent;
         sp_context := start_span (Some parent) (S (length (w_spans w))); sp_status := None; sp_ended := false |}] ∧
    w_headers w1 = <[default (w_next w) (c_header ctx) := md]> (w_headers w) ∧
    md = mergeMetadata (header_of ctx w)
      ((λ kv, (kv.1, [kv.2])) <$> map_to_list (Inject (start_span (c_span ctx) (length (w_spans w))))) ∧
    TraceUnaryClient start_span Inject ctx method req (served sctx h) w =
      let spanCtx := {| c_span := Some (start_span (Some parent) (S (length (w_spans w)))); c_header := c_header sctx |} in
      let '(r, w2) := h spanCtx {| ss_incoming := Some md; ss_ctx := spanCtx |} w1 in
      let '(r, w2) := finish_span (S (length (w_spans w))) id r w2 in
      finish_span (length (w_spans w)) snd ((λ st, ([] : bytes, st)) <$> r) w2.
Proof.
  intros He. unfold TraceUnaryClient, TraceUnaryClient_in, Start, served, wire_header, TraceServerStream, Start.
  unfold header_of in *. destruct (c_header ctx) as [p|]; cbn in *;
    rewrite lookup_insert, decide_True by done; cbn; rewrite metadataFromKV_id, He; cbn;
    rewrite length_app, Nat.add_1_r;
    match goal with |- context [h _ _ (set_spans ?x ?y)] => exists (set_spans x y) end;
    eexists; (split; [cbn; by rewrite <- app_assoc|]); (split; [reflexivity|]); (split; [reflexivity|]);
    unfold finish_span; cbn; by destruct (h _ _ _) as [[st|] w2].
Qed.
End traces.

(** A trace crosses a call. With the client and the server interceptor
    installed at the two ends, whatever the other metadata of the call, and
    unless the caller's header already holds the propagator's keys, the
    handler runs under a span whose parent is the client's span of this very
    call, which is a child of the caller's span; the metadata the caller gave
    arrives with the propagator's entries added. *)
Theorem trace_joins {SpanContext} `{!EqDecision SpanContext}
    (start_span : option SpanContext → nat → SpanContext) Inject Extract sctx h ctx method req w
    (Hprop : ∀ sc get, (∀ k v, Inject sc !! k = Some v → get k = v) → Extract get = Some sc)
    (Hfresh : ∀ k, is_Some (Inject (start_span (c_span ctx) (length (w_spans w))) !! k) → header_of ctx w !! k = None) :
  let n := length (w_spans w) in
  let sc := start_span (c_span ctx) n in
  ∃ w1 md,
    w_spans w1 = w_spans w ++ [client_span start_span ctx method n;
      {| sp_name := "peerrpc." +:+ shortMethod method; sp_server := true; sp_parent := Some sc;
         sp_context := start_span (Some sc) (S n); sp_status := None; sp_ended := false |}] ∧
    (∀ k, md !! k = match Inject sc !! k with Some v => Some [v] | None => header_of ctx w !! k end) ∧
    TraceUnaryClient start_span Inject ctx method req (served start_span Extract sctx h) w =
      let spanCtx := {| c_span := Some (start_span (Some sc) (S n)); c_header := c_header sctx |} in
      let '(r, w2) := h spanCtx {| ss_incoming := Some md; ss_ctx := spanCtx |} w1 in
      let '(r, w2) := finish_span (S n) id r w2 in
      finish_span n snd ((λ st, ([] : bytes, st)) <$> r) w2.
Proof.
  cbv zeta. destruct (trace_spans start_span Inject Extract sctx h ctx method req w
    (start_span (c_span ctx) (length (w_spans w)))) as (w1 & md & H1 & _ & Hmd & H2).
  { apply Hprop. intros k v Hk. apply carrier_fresh; [|done]. apply Hfresh. by eexists. }
  exists w1, md. split; [exact H1|]. split; [|exact H2]. intros k. rewrite Hmd. unfold mergeMetadata.
  rewrite foldl_merge_lookup by (rewrite <- list_fmap_compose; apply NoDup_fst_map_to_list).
  rewrite carrier_map. destruct (Inject _ !! k) as [v|] eqn:Hk; cbn; [|done].
  by rewrite (Hfresh k ltac:(by eexists)).
Qed.

(** A header map that is used for two calls. The client interceptor writes
    into the map the caller passed; on the second call with the same map the
    propagator's keys are taken, the values are appended, and the server reads
    the first ones: its span becomes a child of the first call's span, not of
    the second's. *)
Theorem trace_reused_header {SpanContext} `{!EqDecision SpanContext}
    (start_span : option SpanContext → nat → SpanContext) Inject Extract sctx h ctx method req p w r1 w1
    (Hprop : ∀ sc get, (∀ k v, Inject sc !! k = Some v → get k = v) → Extract get = Some sc)
    (Hp : c_header ctx = Some p)
    (Hfresh : ∀ k, is_Some (Inject (start_span (c_span ctx) (length (w_spans w))) !! k) → header_of ctx w !! k = None)
    (Hheaders : ∀ c s v, w_headers (h c s v).2 = w_headers v)
    (Hfirst : TraceUnaryClient start_span Inject ctx method req (served start_span Extract sctx h) w = (r1, w1)) :
  let first := start_span (c_span ctx) (length (w_spans w)) in
  ∃ w2 md,
    w_spans w2 = w_spans w1 ++ [client_span start_span ctx method (length (w_spans w1));
      {| sp_name := "peerrpc." +:+ shortMethod method; sp_server := true; sp_parent := Some first;
         sp_context := start_span (Some first) (S (length (w_spans w1))); sp_status := None; sp_ended := false |}] ∧
    TraceUnaryClient start_span Inject ctx method req (served start_span Extract sctx h) w1 =
      let spanCtx := {| c_span := Some (start_span (Some first) (S (length (w_spans w1)))); c_header := c_header sctx |} in
      let '(r, w3) := h spanCtx {| ss_incoming := Some md; ss_ctx := spanCtx |} w2 in
      let '(r, w3) := finish_span (S (length (w_spans w1))) id r w3 in
      finish_span (length (w_spans w1)) snd ((λ st, ([] : bytes, st)) <$> r) w3.
Proof.
  cbv zeta. set (first := start_span (c_span ctx) (length (w_spans w))).
  destruct (trace_spans start_span Inject Extract sctx h ctx method req w first) as (wa & md & _ & Hh & Hmd & Hrun).
  { apply Hprop. intros k v Hk. apply carrier_fresh; [|done]. apply Hfresh. by eexists. }
  rewrite Hfirst in Hrun. cbv zeta in Hrun.
  assert (w_headers w1 = <[p := md]> (w_headers w)) as Hh1.
  { rewrite Hp in Hh. cbn in Hh. rewrite <- Hh.
    set (sctx' := {| c_span := Some (start_span (Some first) (S (length (w_spans w)))); c_header := c_header sctx |}) in *.
    specialize (Hheaders sctx' {| ss_incoming := Some md; ss_ctx := sctx' |} wa).
    destruct (h _ {| ss_incoming := Some md; ss_ctx := sctx' |} wa) as [[st|] wb]; unfold finish_span in Hrun; cbn in Hrun, Hheaders; by simplify_eq. }
  destruct (trace_spans start_span Inject Extract sctx h ctx method req w1 first) as (w2 & md2 & H1 & _ & _ & H2).
  { apply Hprop. intros k v Hk. unfold header_of. rewrite Hp, Hh1, lookup_insert, decide_True by done. cbn.
    assert (md !! k = Some [v]) as Hv.
    { rewrite Hmd. unfold mergeMetadata.
      rewrite foldl_merge_lookup by (rewrite <- list_fmap_compose; apply NoDup_fst_map_to_list).
      rewrite carrier_map. fold first. rewrite Hk. cbn. by rewrite (Hfresh k ltac:(by eexists)). }
    by apply carrier_stale with (xs := []). }
  by exists w2, md2.
Qed.

(** ** Witnesses *)

(** Contexts as strings: a child is its parent and its index. *)
Definition ex_start (parent : option string) (n : nat) : string := default "" parent +:+ "." +:+ pretty n.
Definition ex_Inject (sc : string) : gmap string string := {["traceparent"%string := sc]}.
Definition ex_Extract (get : string → string) : option string :=
  if decide (get "traceparent" = "")%string then None else Some (get "traceparent"%string).

Definition ex_world : @world string :=
  {| RPCTotal := ∅; RPCDuration := ∅; StreamsInFlight := ∅; w_log := []; w_spans := []; w_clock := 0;
     w_headers := {[0%nat := {["tenant"%string := ["t1"%string]]}]}; w_next := 1 |}.
Definition ex_server : @context string := {| c_span := None; c_header := None |}.
Definition ex_handler : StreamHandler (Ctx:=@context string) (R:=act (SpanContext:=string) (option Status)) (Stream:=@ServerStream string) :=
  λ _ _ w, (Some (Some {| Code := 5; Message := "not found" |}), w).

Lemma status_label_witness :
  codeLabel (Some {| Code := -two31; Message := "" |}) = Ok "-"%string ∧
  (∀ st', -two31 ≤ Code st' < two31 →
     codeLabel (Some st') = codeLabel (Some {| Code := 5; Message := "" |}) → Code st' = 5).
Proof.
  split; [exact (proj1 (status_label {| Code := -two31; Message := "" |} ltac:(cbn; zconsts; lia)))|].
  exact (proj2 (status_label {| Code := 5; Message := "" |} ltac:(cbn; zconsts; lia))).
Defined.

Lemma server_interceptors_witness :
  ∃ w', server_chain ex_start ex_Extract "/E" ex_handler ex_server {| ss_incoming := None; ss_ctx := ex_server |} ex_world =
      (Some (Some {| Code := 5; Message := "not found" |}), w') ∧
    RPCTotal w' = {[("/E", "5")%string := 1%nat]} ∧
    StreamsInFlight w' = {["/E"%string := 0]}.
Proof.
  destruct (server_interceptors ex_start ex_Extract "/E" ex_handler ex_server
    {| ss_incoming := None; ss_ctx := ex_server |} ex_world _ _ eq_refl) as (w' & H1 & _ & H2 & ((label & Hl & H3) & _)).
  { intros st [= <-]. cbn. zconsts. lia. }
  exists w'. split; [exact H1|]. rewrite H2, H3. cbn in Hl. injection Hl as <-. split; reflexivity.
Defined.

(** A propagator that reads an empty key as an empty context. *)
Definition ex_Extract_any (get : string → string) : option string := Some (get "traceparent"%string).

Lemma ex_law sc get : (∀ k v, ex_Inject sc !! k = Some v → get k = v) → ex_Extract_any get = Some sc.
Proof. intros H. unfold ex_Extract_any. by rewrite (H "traceparent"%string sc). Qed.

Definition ex_call : @context string := {| c_span := Some "app"%string; c_header := Some 0%nat |}.

Lemma ex_fresh k : is_Some (ex_Inject (ex_start (Some "app"%string) 0) !! k) → header_of ex_call ex_world !! k = None.
Proof.
  intros [v H]. unfold ex_Inject in H. apply lookup_singleton_Some in H as [<- _]. by vm_compute.
Qed.

Lemma trace_joins_witness :
  ∃ w1 (md : Metadata),
    w_spans w1 = [client_span ex_start ex_call "/s/M" 0;
      {| sp_name := "peerrpc.s/M"; sp_server := true; sp_parent := Some "app.0"%string;
         sp_context := "app.0.1"%string; sp_status := None; sp_ended := false |}] ∧
    md !! "tenant"%string = Some ["t1"%string] ∧ md !! "traceparent"%string = Some ["app.0"%string] ∧
    (TraceUnaryClient ex_start ex_Inject ex_call "/s/M" [] (served ex_start ex_Extract_any ex_server ex_handler) ex_world).1 =
      Some ([], Some {| Code := 5; Message := "not found" |}).
Proof.
  destruct (trace_joins ex_start ex_Inject ex_Extract_any ex_server ex_handler ex_call "/s/M" [] ex_world ex_law ex_fresh)
    as (w1 & md & H1 & H2 & H3).
  exists w1, md. split; [rewrite H1; reflexivity|].
  split; [rewrite H2; reflexivity|]. split; [rewrite H2; reflexivity|]. rewrite H3. reflexivity.
Defined.

Lemma trace_reused_header_witness :
  ∃ w1 w2, w_spans w2 = w_spans w1 ++ [client_span ex_start ex_call "/s/M" (length (w_spans w1));
      {| sp_name := "peerrpc.s/M"; sp_server := true; sp_parent := Some "app.0"%string;
         sp_context := ex_start (Some "app.0"%string) (S (length (w_spans w1))); sp_status := None; sp_ended := false |}] ∧
    length (w_spans w1) = 2%nat.
Proof.
  destruct (TraceUnaryClient ex_start ex_Inject ex_call "/s/M" [] (served ex_start ex_Extract_any ex_server ex_handler) ex_world)
    as [r1 w1] eqn:E.
  destruct (trace_reused_header ex_start ex_Inject ex_Extract_any ex_server ex_handler ex_call "/s/M" [] 0 ex_world r1 w1
    ex_law eq_refl ex_fresh ltac:(done) E) as (w2 & md & H & _).
  exists w1, w2. split; [exact H|]. vm_compute in E. by injection E as _ <-.
Defined.
